(* ===== verification/_CoqProject ===== *)
-Q . S2P
Prelude.v
PyVal.v
QueueTiers.v
MigrationLedger.v
MigrationSaga.v
MigrationRunner.v
MigrationExample.v
MigrationSafety.v
MigrationLiveness.v
MigrationOutcome.v
MigrationWindow.v
MigrationPlan.v
MigrationScope.v
MigrationPolicy.v
GovernorConfig.v
Governor.v
GovernorFleet.v
GovernorLanes.v
LaneGc.v
QueueCoverage.v
QcowHeader.v
QcowGeometry.v
Alloweds.v
TaskChain.v
Gpu.v
ResourceLock.v
Placement.v
Planner.v
Portion.v
Booking.v
StorageStall.v
DomainStore.v
Broom.v
BroomSettles.v
HypWorker.v
Dependents.v
BackingIndex.v
Purge.v
Swr.v
DiskActions.v
Reconcile.v
