(* ===== verification/Prelude.v ===== *)
(** * IsardVDI: a verification of its storage work, bookings, placement and desktops

    IsardVDI is a virtual desktop platform. Its Python core is the common library
    [src/component/_common/src/isardvdi_common/] (written CC/ below), which the HTTP
    API, the workers of the storage nodes, the change handler and the engine import, and
    the engine [src/engine/src/engine/] (EN/), which drives the hypervisors. This
    development models the parts that decide: where storage tasks queue, which worker may
    run them, how a disk tree is migrated between storage pools, what a chain of tasks is,
    what a disk header says, who may use a shared item, what a GPU card runs, who may book
    it and when, where a desktop starts, how the engine keeps the rows of desktops and the
    domains of libvirt in step, which disks read through which, when a disk may be changed,
    purged or measured again, and how cached values are served while they are refreshed.

    ** The parts and how they interact

    A request (an API call, a migration step) becomes a chain of tasks. Each task is a
    job on a lane, a Redis list named after its storage pool, its category where the tier is shared
    fairly, and its tier: the tier
    comes from [queue_tiers.py], and [queue_coverage.py] refuses a lane that no live
    worker serves or that is over its cap. A governed worker ([governed_worker.py])
    reads its knobs ([governor_schedule.py], [resource_governor.py]), orders its lanes,
    reserves a slot in the running sets of the broker, runs the job and releases the
    slot. [queue_lane_gc.py] unregisters lanes that stay idle. The migration runner
    ([migration_run.py]) is a client of the queues: it drives the pure decisions of
    [migration.py] over the ledger of [storage_migration.py], one step per event, and
    enqueues preflights, copies, rebases, checks and removals.

    Administrators plan what the GPU cards run ([reservables_planner.py]); users book a
    window of a plan ([bookings.py]), under the locks of [resource_lock.py], and the booking
    decides with [reservables_planner_compute.py] whether the units of the plans suffice.
    When a desktop starts, the balancer of the engine chooses a hypervisor, the backing of
    its memory and a node ([balancers.py], [memory_placement.py], [numa_balancer.py]). The
    worker thread of that hypervisor ([hyp_worker_thread.py]) creates and destroys the
    domain; a libvirt call that does not answer holds the domain ([domain_guard.py]). The
    broom thread ([broom.py]) lists what every hypervisor runs, settles the rows that
    disagree, degrades hypervisors that do not answer and reports storage that hangs on
    half of them ([storage_stall.py]).

    An action on a disk is looked up in the registry of [actions.py] and parks the disk in
    maintenance ([models/storage.py]). A purge of the recycle bin ([recycle_bin.py]) decides
    which entries have to stay, and hands the disks of the others to the storage workers,
    whose delete tasks refuse a file that a live disk reads through: they ask
    [dependents.py] over an index of image headers that the workers share
    ([backing_index.py]). The same walk serves the integrity pass ([integrity.py]); a
    reconciliation compares rows and files ([reconcile.py]) and a nightly sweep works on a
    budget of disks ([sweep.py]). The API serves its aggregates from the caches of
    [stale_while_revalidate.py].

    ** The files

    - [Prelude], [PyVal]: the error monad [res] with the exceptions of the sources,
      stable sorting, reachability [steps], tactics and the hint database [isard];
      Python values, floats as rationals, and the string methods the sources use.
    - [QueueTiers]: CC/lib/queue_tiers.py, every function.
    - [MigrationLedger]: CC/models/storage_migration.py, the rows ([item]), the atomic
      [claim] and the totals, recomputed or kept by deltas.
    - [MigrationSaga]: the step functions of CC/lib/storage/migration.py
      ([decide_item_action], [tree_next], [plan_tree_failure], ...).
    - [MigrationRunner]: [MigrationRunner] of CC/lib/storage/migration_run.py. The state
      is [world] (database rows, the dicts of the runner, storage, media and domain
      rows, the tasks enqueued); a handler has type [M A] and keeps its writes when it
      raises; [_step_tree] dispatches as the table [_ACTIONS] does.
    - [MigrationExample]: a concrete tree, the input of the witnesses.
    - [MigrationSafety], [MigrationLiveness], [MigrationOutcome]: theorems on the runner
      (below).
    - [MigrationWindow], [MigrationPlan], [MigrationScope], [MigrationPolicy]: the rest
      of migration.py: maintenance windows, planning of trees, selection and overlap of
      jobs, status rules, configuration changes and the load loop.
    - [GovernorConfig]: the schedule of the heavy cap, the coercion of stored knobs and
      the pressure test.
    - [Governor], [GovernorFleet], [GovernorLanes]: the governed worker: its operations
      over a broker of class [Redis] with the laws [RedisLaws]; the fleet as a step
      relation; the order of lanes and admission.
    - [LaneGc]: queue_lane_gc.py as programs of broker calls, interleaved.
    - [QueueCoverage]: queue_coverage.py and the shed counter, with every pattern of
      broker failures.
    - [QcowHeader], [QcowGeometry]: CC/lib/storage/qcow_header.py on the bytes of a file
      and CC/helpers/qcow2_geometry.py.
    - [Alloweds]: CC/helpers/alloweds.py, who may use a shared item, in Python and as a
      database filter, and the bastion clean-up.
    - [TaskChain]: CC/models/task.py, the closure of a chain, its cancellation and the
      finalize steps.
    - [Gpu]: CC/lib/gpu_pool_policy.py, CC/lib/vgpu_state.py and
      CC/lib/bookings/gpu_realizability.py.
    - [ResourceLock]: CC/helpers/resource_lock.py, critical sections over the leases of
      the lock service, as a step relation on threads ([lock_step]).
    - [Placement]: EN/models/balancers.py, memory_placement.py and numa_balancer.py, the
      starts in flight ([BalancerInterface]) included.
    - [Planner]: the tables of CC/lib/bookings/reservables_planner.py: adding, joining,
      changing and deleting the plans of a card.
    - [Portion]: the interface [Portion] of the interval package the planner imports,
      with its documented laws, and the instance [half_portion].
    - [Booking]: CC/lib/bookings/bookings.py and reservables_planner_compute.py: rules of
      priority, capacity of plans, the calendar, adding, moving and deleting bookings.
    - [StorageStall]: EN/services/lib/storage_stall.py.
    - [DomainStore]: the state the threads of the engine share (rows of desktops and
      hypervisors, holds, clock), the queries of EN/services/db/, domain_guard.py, and the
      monad [M], in which other threads may change that state before every query; partial
      ([wp]) and total ([ht]) triples for its programs.
    - [Broom], [BroomSettles]: EN/controllers/broom.py and
      EN/services/lib/broom_reconcile.py, a whole pass of the thread.
    - [HypWorker]: the start, stop and late-create handlers of
      EN/services/threads/hyp_worker_thread.py and the fleet of workers ([fleet_step]).
    - [Dependents]: CC/lib/storage/dependents.py and integrity.py over the bytes of the
      files, and [run_integrity_detection] of CC/lib/storage/storage.py.
    - [BackingIndex]: CC/lib/storage/backing_index.py, with a broker whose operations fail
      and siblings that write the same hash.
    - [Purge]: the purge of CC/helpers/recycle_bin.py (which entries stay, the status and
      the tasks of an entry) and the delete tasks of
      src/docker/storage/src/isardvdi_storage/task.py, [delete] and [move_delete], with
      their guard, as a step relation ([delete_step]).
    - [Swr]: CC/helpers/stale_while_revalidate.py: entries on a heap, callers, the queue of
      refreshes and [clear] as a step relation ([swr_step]) over any cache of class
      [CacheLaws]; the plain and the keyed cache are its instances.
    - [DiskActions]: CC/lib/storage/actions.py and [set_maintenance], [set_ready] of
      CC/models/storage.py, as a step relation on the rows ([disk_step]).
    - [Reconcile]: CC/lib/storage/reconcile.py and sweep.py, [reconcile_pool] of the storage
      worker and [run_sweep_pass] of src/component/apiv4/src/api/services/storage.py.

    ** What the theorems show

    Each property states its conditions in the comment before it; the main ones are named
    here too.

    - Migration safety ([MigrationSafety]): over every run of the runner interleaved with
      other services that do not relocate disks, and plans that name no storage twice, a file
      is removed only when no row points at it, committed disks are verified and repointed,
      and copies go from the root down: the disks above are copied and rebased, or set aside.
      The invariant is kept by every handler through a small program logic ([hoare_*]).
    - Migration liveness ([MigrationLiveness]): with workers that finish, a tree is
      released whole within nine steps per disk.
    - Migration outcomes, plans, scopes, windows and policies: a failure settles a whole
      tree, unless the disk waits for room or for its repair; racing drivers enqueue one
      move, the plan is a legal ledger, admitted jobs share no disk they resolve to now, nor
      later one that both selections cover themselves; windows open exactly when an
      occurrence covers the minute, totals never drift, load decisions stay within bounds.
    - Governor: the caps hold in every interleaving of the fleet whose jobs are unsuspected
      (no tag of a dead worker left) over a broker that answers; pruning reclaims exactly the
      leaks, admission and release are inverse, the rotation is fair, a poll serves exactly
      the lanes it may.
    - Lanes: a registered lane is never lost by the fleet-wide collector, as long as the
      workers do not unregister lanes themselves; the shed gate refines the specification of
      the fleet and fails closed; a heartbeat covers what it serves.
    - Disks: the header reader is total and inverts the layout of the format; the
      geometry check is exact.
    - Sharing: the filter and the check of shared rows agree, up to the rights that a
      listing leaves out; listings are exact, the bastion clean-up leaves only users the
      bastion allows.
    - Chains: a cancel settles exactly the chain, leaves first, and once.
    - GPU: profiles are pruned only on a trustworthy reading that lacks them, and
      reconciling a pool with the host never drops a running desktop.
    - Locks: sections on one key exclude each other while no lease lapses; sections that
      ask for later keys only never deadlock and end.
    - Bookings: the plans of a card never overlap while no new plan fills the gap between
      two of its profile; with one priority for everybody, and bookings of vgpus made one
      after another, no plan is ever booked beyond its units; the plans chosen for a profile
      fit beside the bookings that may not be displaced, at every moment; the overlay of
      bookings on windows is exact; the sections of two bookings that share a profile
      exclude each other; removals leave no dangling reference.
    - Placement: a start without a GPU is refused exactly when no host has room; bursts of
      such starts on one statistics sample stay within the memory and the huge pages of a
      host; starts spread over the nodes.
    - Desktops: while the set of online hypervisors stays the same, and whatever else other
      threads write, every status a broom pass changes is changed for a reason that libvirt's
      answers give ([warranted]); an Unknown row, or a running one placed on an online host,
      that vanished is Stopped after two passes which every hypervisor answers and nobody
      disturbs; rows are settled exactly after consecutive sightings; the shared-storage
      condition is exactly what the history of passes says; on [orderly] runs no worker
      creates a desktop while a tracked libvirt call of it has not answered.
    - Dependents and purges: the walk reports exactly the live disks whose chain reaches the
      target, and always ends; the shared index, read in chunks of at least one file, is the
      index that reading every header gives, whatever operations of its broker fail and with
      siblings that write what they read; the entries a purge lets go are the largest set
      that can go together; its delete and move tasks, their checks and removals interleaved,
      never remove the first disk of the purge that a live disk reads through; a purge always
      ends, with the entry deleted or handed back; each of the four kinds of finding of an
      integrity pass is exact.
    - Caches: at most one fetch of an entry is under way in every interleaving; a value that
      is served is recent enough and never older than the last [clear] before the call; an
      eviction spares what is being refreshed ([evictions_are_safe]).
    - Disk actions: between two unconditional writes of its row at most one action has
      claimed a disk, which stays in maintenance, and an action that parked it has flipped
      every domain; an action that writes is only offered for a disk nobody else reads.
    - Pools: a reconciliation measures exactly the disks that drifted; a sweep stays within
      its budget of disks and bytes over all its actions, and those that write pick no disk
      that others back onto.
    - Divergences the model exposed are theorems too: [repair_lands_on_the_interactive_lane],
      [start_move_is_missing_from_the_totals], [rewound_disk_skips_its_rebase],
      [whole_day_window_opens_before_the_reported_time], [retried_orphan_overruns_the_cap],
      [infinite_knob_escapes_the_fallback], [worker_collector_hides_a_straddling_job],
      [clean_up_drops_a_secondary_member], [scrambled_size_passes_the_check],
      [nested_sections_can_deadlock], [moving_a_booking_always_raises],
      [gap_filling_plan_is_joined_twice], [update_plan_is_always_refused],
      [deleting_a_later_plan_unlinks_the_current_booking], [bookings_ignore_delegated_cards],
      [calendar_shows_bookings_as_plans], [own_bookings_stay_available],
      [calendar_misses_bookings_of_two_profiles], [refused_deployment_booking_is_stored],
      [no_rule_means_a_type_error], [backwards_booking_is_stored],
      [lost_failed_write_detaches], [unplaced_row_is_stopped_while_it_runs],
      [broom_clears_host_errors], [same_reason_is_not_marked_again],
      [stall_clears_when_nobody_is_online], [stop_elsewhere_frees_the_hold],
      [late_create_frees_the_hold_of_a_destroy], [stopped_worker_leaves_the_hold],
      [fallback_create_is_not_held], [purge_breaks_a_live_chain],
      [early_outcome_deletes_a_failed_entry], [relative_backing_is_flagged],
      [truncated_header_reads_as_no_backing], [huge_offset_raises],
      [empty_chunks_never_end], [oversized_cache_never_shrinks],
      [expired_read_ignores_the_pause], [two_fetches_of_one_key],
      [undone_move_forgets_the_bin], [delete_takes_a_parked_disk],
      [ready_frees_a_parked_disk], [later_child_joins_two_jobs],
      [short_scan_reports_missing_files].

    ** Fuel and bounds

    Loops that are not structural take fuel, and each is shown to have enough: the walk
    of a backing tree needs [walk_fuel] of its nodes, two more than its edges; the
    descendants of a disk, one more than the rows; the closure of a chain, one more than the jobs
    of the store; the rounds of [leaves_loop], the length of the chain, since a round
    settles at least one task; the extensions of a header, one more than an eighth of
    the area, since an extension takes at least eight bytes; the walk over a backing index,
    a turn per file and reference ([Dependents.walk_fuel]); the loop over the entries of a
    purge, one more than the entries; the chunks of the shared index, one per file to read.
    The engine threads loop over lists only. Python integers are unbounded and are [Z]; fields of a header keep their
    width in bytes. Floats are the rationals of their literals, infinities and NaN.

    ** Parameters

    What is not under src/ is an argument: the broker (its laws in [RedisLaws], or the
    finite store with the failure pattern [fs_down]), the queue library's job statuses,
    the environment of the process, the time zone database ([local_time]), the clock,
    [utcparse] and [repr] of floats, for the runner the record [env] of what it reads
    from the queue and from other services; the interval package (class [Portion], with an
    instance that satisfies its laws), the parser of dates and the ownership check of a
    booking, the lapse of leases, the weighted choice of a host; the answers of libvirt and
    of remote commands and the state of futures ([observations], [wk_outcomes]), and the
    writes of other threads ([w_foreign]); the failures of the shared index's broker and the
    writes of its siblings ([environment]), the shuffle of its files, the state of a volume
    ([volume]), what a scan of a pool lists and what a fetch returns. Every property over such a parameter has a
    witness at a concrete one.

    ** Not modelled

    Of the modelled modules: the tick and per-event drive loops of the runner (timers around
    the modelled steps) and [build_plan_for_roots] (database reads and file probes); the
    estimates of rates and durations, which are averages of floats whose rounding the model
    does not have; the blocking dequeue of a worker and its status reports; the construction
    of tasks in the queue library, their listing, retry and retention; the table projections
    of the sharing helpers; the parsers of GPU reports; the display rows of the booking
    calendar and its notifications; the GPU choice of a start beyond its memory; the
    shutdown, reset and information actions of the hypervisor workers, their connection
    checks and response statistics; filling the recycle bin, restoring from it and its
    delete queue (queries over many tables); the reset of the caches after a fork and their
    decorators, and a [BaseException] in a background refresh; the metrics file of a
    reconciliation and the queuing of a sweep's tasks; the expiry of the running sets of the
    governor; a hold that changes during the one loop of the broom that asks for it row by
    row; what the threads that reap idle paused desktops do (a step of other threads).

    Outside these modules, because what they do is I/O or a query of the database that a
    model could only restate: the routes of the API, CRUD on RethinkDB tables (users,
    domains, deployments), the event and orchestration threads of the engine and the
    generation of domain XML, the storage worker's calls of qemu-img, rsync and curl, the
    index of tasks, the migrations of the schema; and, in other languages, the Go services
    and the front ends. *)
From stdpp Require Export base tactics option list list_numbers sorting strings gmap numbers.
From stdpp Require Export fin_maps fin_map_dom sets fin_sets.

(** ** Proof automation shared by the components *)

Create HintDb isard discriminated.

(** Turns boolean connectives and comparisons of the context into
    propositions. *)
Ltac simp_bool :=
  repeat match goal with
  | H : _ && _ = true |- _ => apply andb_true_iff in H as [? ?]
  | H : _ || _ = false |- _ => apply orb_false_iff in H as [? ?]
  | H : negb _ = true |- _ => apply negb_true_iff in H
  | H : negb _ = false |- _ => apply negb_false_iff in H
  | H : (_ <? _)%Z = true |- _ => apply Z.ltb_lt in H
  | H : (_ <? _)%Z = false |- _ => apply Z.ltb_ge in H
  | H : (_ <=? _)%Z = true |- _ => apply Z.leb_le in H
  | H : (_ <=? _)%Z = false |- _ => apply Z.leb_gt in H
  | H : (_ =? _)%Z = true |- _ => apply Z.eqb_eq in H
  | H : (_ =? _)%Z = false |- _ => apply Z.eqb_neq in H
  | H : (_ =? _)%string = true |- _ => apply String.eqb_eq in H
  | H : (_ =? _)%string = false |- _ => apply String.eqb_neq in H
  | H : bool_decide _ = true |- _ => apply bool_decide_eq_true_1 in H
  | H : bool_decide _ = false |- _ => apply bool_decide_eq_false_1 in H
  end.

(** Splits on the innermost scrutinee of a conditional or match of the goal,
    then of a hypothesis, and closes the contradictory branches. *)
Ltac split_match :=
  match goal with
  | |- context [match ?x with _ => _ end] =>
      lazymatch x with
      | context [match _ with _ => _ end] => fail
      | _ => destruct x eqn:?
      end
  | H : context [match ?x with _ => _ end] |- _ =>
      lazymatch x with
      | context [match _ with _ => _ end] => fail
      | _ => destruct x eqn:?
      end
  end.
Ltac split_matches := repeat (split_match; simplify_eq/=).

#[global] Arguments String.eqb : simpl never.

(** Computes the comparisons of two string literals in the goal. *)
Ltac eval_strings :=
  repeat match goal with
  | |- context [String.eqb ?a ?b] =>
      let v := eval vm_compute in (String.eqb a b) in
      lazymatch v with
      | true => change (String.eqb a b) with true
      | false => change (String.eqb a b) with false
      end
  end.

(** ** Exceptions

    Python code that may raise is modelled in [res]: the value, or the class of
    the exception. *)
Inductive exn :=
  | TypeError
  | ValueError
  | OverflowError
  | AttributeError
  | KeyError
  | IndexError
  | RedisError
  | ReqlError
  | InternalServerError
  | Error429 (description_code : string)
  | ApiError (kind description_code : string).

Inductive res (A : Type) :=
  | Ok (a : A)
  | Raise (e : exn).
Arguments Ok {A} a.
Arguments Raise {A} e.

#[export] Instance exn_eq_dec : EqDecision exn.
Proof. solve_decision. Defined.

#[export] Instance res_ret : MRet res := @Ok.
#[export] Instance res_bind : MBind res := λ A B f m,
  match m with Ok a => f a | Raise e => Raise e end.

(** [try: m except ...: default], catching the classes [caught]. *)
Definition catch {A} (m : res A) (caught : list exn) (default : A) : res A :=
  match m with
  | Ok a => Ok a
  | Raise e => if decide (e ∈ caught) then Ok default else Raise e
  end.

(** ** Membership of a string in a literal set *)
Definition mem (x : string) (l : list string) : bool := existsb (String.eqb x) l.

Lemma mem_spec x l : mem x l = true ↔ x ∈ l.
Proof.
  unfold mem. rewrite existsb_exists. split.
  - intros (y & Hy & ->%String.eqb_eq). by apply list_elem_of_In.
  - intros H. exists x. split; [by apply list_elem_of_In|apply String.eqb_refl].
Qed.

Lemma mem_false x l : mem x l = false ↔ x ∉ l.
Proof. rewrite <-mem_spec. destruct (mem x l); naive_solver. Qed.

(** ** Python's [sorted]: a stable sort by a total boolean order *)
Section py_sorted.
Context {A : Type} (leb : A → A → bool).

Fixpoint insert_sorted (x : A) (l : list A) : list A :=
  match l with
  | [] => [x]
  | y :: l' => if leb x y then x :: l else y :: insert_sorted x l'
  end.

Definition py_sorted (l : list A) : list A := foldr insert_sorted [] l.

Lemma insert_sorted_perm x l : insert_sorted x l ≡ₚ x :: l.
Proof.
  induction l as [|y l IH]; simpl; [done|]. destruct (leb x y); [done|].
  rewrite IH. apply Permutation_swap.
Qed.

Lemma py_sorted_perm l : py_sorted l ≡ₚ l.
Proof. induction l as [|x l IH]; simpl; [done|]. by rewrite insert_sorted_perm, IH. Qed.

Lemma elem_of_py_sorted x l : x ∈ py_sorted l ↔ x ∈ l.
Proof. by rewrite py_sorted_perm. Qed.

Context (leb_total : ∀ x y, leb x y = true ∨ leb y x = true).

Lemma insert_sorted_hd x y l :
  leb y x = true → HdRel (λ a b, leb a b = true) y l →
  HdRel (λ a b, leb a b = true) y (insert_sorted x l).
Proof.
  intros Hyx Hl. destruct l as [|z l]; simpl; [by constructor|].
  destruct (leb x z); constructor; [done|by inversion Hl].
Qed.

Lemma insert_sorted_Sorted x l :
  Sorted (λ a b, leb a b = true) l → Sorted (λ a b, leb a b = true) (insert_sorted x l).
Proof.
  induction 1 as [|y l Hl IH Hd]; simpl; [repeat constructor|].
  destruct (leb x y) eqn:E; [repeat (constructor; try done)|].
  constructor; [done|]. apply insert_sorted_hd; [|done].
  destruct (leb_total x y); congruence.
Qed.

Lemma py_sorted_Sorted l : Sorted (λ a b, leb a b = true) (py_sorted l).
Proof. induction l; simpl; [constructor|]. by apply insert_sorted_Sorted. Qed.
End py_sorted.

(** ** Counting *)
Fixpoint count_if {A} (P : A → bool) (l : list A) : Z :=
  match l with
  | [] => 0
  | x :: l' => (if P x then 1 else 0) + count_if P l'
  end%Z.

Fixpoint sum_by {A} (f : A → Z) (l : list A) : Z :=
  match l with [] => 0 | x :: l' => f x + sum_by f l' end%Z.

Lemma count_if_app {A} (P : A → bool) l k :
  count_if P (l ++ k) = (count_if P l + count_if P k)%Z.
Proof. induction l; simpl; lia. Qed.

Lemma sum_by_app {A} (f : A → Z) l k : sum_by f (l ++ k) = (sum_by f l + sum_by f k)%Z.
Proof. induction l; simpl; lia. Qed.

Lemma count_if_perm {A} (P : A → bool) l k : l ≡ₚ k → count_if P l = count_if P k.
Proof. induction 1; simpl; lia. Qed.

Lemma count_if_nonneg {A} (P : A → bool) l : (0 ≤ count_if P l)%Z.
Proof. induction l as [|x l IH]; simpl; [lia|]. destruct (P x); lia. Qed.

Lemma count_if_le_length {A} (P : A → bool) l : (count_if P l ≤ Z.of_nat (length l))%Z.
Proof. induction l as [|x l IH]; simpl; [lia|]. destruct (P x); lia. Qed.

(** ** Boolean quantifiers *)
Lemma forallb_Forall {A} (P : A → bool) l : forallb P l = true ↔ Forall (λ x, P x = true) l.
Proof.
  induction l as [|x l IH]; simpl; [by split; auto|].
  rewrite andb_true_iff, Forall_cons, IH. done.
Qed.

Lemma existsb_Exists {A} (P : A → bool) l : existsb P l = true ↔ Exists (λ x, P x = true) l.
Proof.
  induction l as [|x l IH]; simpl; [split; [done|inversion 1]|].
  rewrite orb_true_iff, Exists_cons, IH. done.
Qed.

Lemma existsb_false_Forall {A} (P : A → bool) l :
  existsb P l = false ↔ Forall (λ x, P x = false) l.
Proof.
  induction l as [|x l IH]; simpl; [by split; auto|].
  rewrite orb_false_iff, Forall_cons, IH. done.
Qed.

(** [next(x for x in l if P x)] *)
Lemma find_Some_split {A} (P : A → bool) l x :
  List.find P l = Some x →
  ∃ l1 l2, l = l1 ++ x :: l2 ∧ P x = true ∧ Forall (λ y, P y = false) l1.
Proof.
  induction l as [|y l IH]; simpl; [done|]. destruct (P y) eqn:E.
  - intros [= ->]. exists [], l. auto.
  - intros (l1 & l2 & -> & ? & ?)%IH. exists (y :: l1), l2. auto.
Qed.

Lemma find_None_Forall {A} (P : A → bool) l :
  List.find P l = None ↔ Forall (λ y, P y = false) l.
Proof.
  induction l as [|y l IH]; simpl; [by split; auto|].
  rewrite Forall_cons. destruct (P y) eqn:E; [naive_solver|]. rewrite IH. naive_solver.
Qed.

(** ** Reflexive transitive closure of a step relation *)
Inductive steps {S : Type} (R : S → S → Prop) : S → S → Prop :=
  | steps_refl s : steps R s s
  | steps_cons s1 s2 s3 : R s1 s2 → steps R s2 s3 → steps R s1 s3.
#[export] Hint Constructors steps : isard.

Lemma steps_invariant {S} (R : S → S → Prop) (I : S → Prop) s s' :
  (∀ a b, R a b → I a → I b) → steps R s s' → I s → I s'.
Proof. intros Hstep H. induction H; eauto. Qed.

Lemma steps_trans {S} (R : S → S → Prop) s1 s2 s3 :
  steps R s1 s2 → steps R s2 s3 → steps R s1 s3.
Proof. induction 1; eauto using steps. Qed.
