(* ===== verification/PyVal.v ===== *)
(** * Python values and the string operations the sources use

    - [pyval]: the JSON-like values that reach the code from redis, RethinkDB
      and the HTTP layer, with the [isinstance], truth-value and [int()] rules
      the code relies on;
    - [pyfloat]: a float as the rational of its literal (rounding to 53 bits is
      left out: the code only compares floats where a theorem speaks about
      them), an infinity or a NaN;
    - [str.split], [str.partition], [str.rsplit], [str.strip], [str.replace],
      [int(str)] on strings of ASCII characters. *)
From Stdlib Require Import Ascii QArith.
From stdpp Require Import pretty.
From S2P Require Import Prelude.

(** ** Floats *)
Inductive pyfloat :=
  | FNan
  | FInf (negative : bool)
  | FFin (q : Q).

(** [a > b] *)
Definition float_gt (a b : pyfloat) : bool :=
  match a, b with
  | FNan, _ | _, FNan => false
  | FInf false, FInf false => false
  | FInf false, _ => true
  | FInf true, _ => false
  | FFin _, FInf n => n
  | FFin p, FFin q => negb (Qle_bool p q)
  end.

(** [a >= b] *)
Definition float_ge (a b : pyfloat) : bool :=
  match a, b with
  | FNan, _ | _, FNan => false
  | FInf false, _ => true
  | FInf true, FInf n => n
  | FInf true, _ => false
  | FFin _, FInf n => n
  | FFin p, FFin q => Qle_bool q p
  end.

Definition isfinite (a : pyfloat) : bool := match a with FFin _ => true | _ => false end.

Definition float_of_Z (z : Z) : pyfloat := FFin (inject_Z z).

(** [int(x)] of a float truncates toward zero; infinities and NaN raise. *)
Definition int_of_float (f : pyfloat) : res Z :=
  match f with
  | FNan => Raise ValueError
  | FInf _ => Raise OverflowError
  | FFin q => Ok (Z.quot (Qnum q) (Zpos (Qden q)))
  end.

(** ** Values *)
#[warnings="-register-all"]
Inductive pyval :=
  | PNone
  | PBool (b : bool)
  | PInt (z : Z)
  | PFloat (f : pyfloat)
  | PStr (s : string)
  | PList (l : list pyval)
  | PDict (d : list (string * pyval)).

(** [bool(v)] *)
Definition truthy (v : pyval) : bool :=
  match v with
  | PNone => false
  | PBool b => b
  | PInt z => negb (z =? 0)%Z
  | PFloat (FFin q) => negb (Qeq_bool q 0)
  | PFloat _ => true
  | PStr s => negb (s =? "")%string
  | PList l => negb (length l =? 0)%nat
  | PDict d => negb (length d =? 0)%nat
  end.

(** The lookup of a key in a dict literal's association list. *)
Fixpoint assoc {A} (k : string) (d : list (string * A)) : option A :=
  match d with
  | [] => None
  | (k', v) :: d' => if (k =? k')%string then Some v else assoc k d'
  end.

(** [d.get(k)] of a dict *)
Definition dict_get (d : list (string * pyval)) (k : string) : pyval :=
  default PNone (assoc k d).

(** The number a value compares as: Python's [True == 1 == 1.0]. *)
Definition as_number (v : pyval) : option pyfloat :=
  match v with
  | PBool b => Some (float_of_Z (if b then 1 else 0))
  | PInt z => Some (float_of_Z z)
  | PFloat f => Some f
  | _ => None
  end.

Definition float_eqb (a b : pyfloat) : bool :=
  match a, b with
  | FInf m, FInf n => Bool.eqb m n
  | FFin p, FFin q => Qeq_bool p q
  | _, _ => false
  end.

(** [a == b] *)
Fixpoint py_eqb (a b : pyval) {struct a} : bool :=
  match a, b with
  | PNone, PNone => true
  | PStr s, PStr t => (s =? t)%string
  | PList l, PList k =>
      (fix go l k := match l, k with
                     | [], [] => true
                     | x :: l', y :: k' => py_eqb x y && go l' k'
                     | _, _ => false
                     end) l k
  | PDict d, PDict e =>
      (length d =? length e)%nat &&
      (fix go d := match d with
                   | [] => true
                   | (k, x) :: d' =>
                       match assoc k e with Some y => py_eqb x y | None => false end && go d'
                   end) d
  | _, _ =>
      match as_number a, as_number b with
      | Some x, Some y => float_eqb x y
      | _, _ => false
      end
  end.

(** ** Strings *)
Fixpoint contains (c : ascii) (s : string) : bool :=
  match s with
  | EmptyString => false
  | String a s' => Ascii.eqb a c || contains c s'
  end.

(** [s.split(c)] for a one-character separator *)
Fixpoint split_on (c : ascii) (s : string) : list string :=
  match s with
  | EmptyString => [EmptyString]
  | String a s' =>
      if Ascii.eqb a c then EmptyString :: split_on c s'
      else match split_on c s' with
           | [] => [String a EmptyString]
           | w :: ws => String a w :: ws
           end
  end.

(** [s.partition(c)], [None] when [c] does not occur *)
Fixpoint partition_at (c : ascii) (s : string) : option (string * string) :=
  match s with
  | EmptyString => None
  | String a s' =>
      if Ascii.eqb a c then Some (EmptyString, s')
      else match partition_at c s' with
           | Some (x, y) => Some (String a x, y)
           | None => None
           end
  end.

(** [s.rpartition(c)], [None] when [c] does not occur *)
Fixpoint rpartition_at (c : ascii) (s : string) : option (string * string) :=
  match s with
  | EmptyString => None
  | String a s' =>
      match rpartition_at c s' with
      | Some (x, y) => Some (String a x, y)
      | None => if Ascii.eqb a c then Some (EmptyString, s') else None
      end
  end.

(** [s.split(c, n)] *)
Fixpoint split_max (c : ascii) (n : nat) (s : string) : list string :=
  match n with
  | O => [s]
  | S n' =>
      match partition_at c s with
      | None => [s]
      | Some (a, b) => a :: split_max c n' b
      end
  end.

(** [s.replace(a, b)] for one-character arguments *)
Fixpoint replace_char (a b : ascii) (s : string) : string :=
  match s with
  | EmptyString => EmptyString
  | String x s' => String (if Ascii.eqb x a then b else x) (replace_char a b s')
  end.

(** The characters [str.strip()] removes, in the ASCII range. *)
Definition is_space (c : ascii) : bool :=
  let n := nat_of_ascii c in
  ((9 <=? n) && (n <=? 13) || (28 <=? n) && (n <=? 32))%nat.

Fixpoint lstrip (s : string) : string :=
  match s with
  | String a s' => if is_space a then lstrip s' else s
  | EmptyString => s
  end.

Definition strip (s : string) : string := String.rev (lstrip (String.rev (lstrip s))).

Definition is_digit (c : ascii) : bool :=
  let n := nat_of_ascii c in ((48 <=? n) && (n <=? 57))%nat.

Definition is_alpha (c : ascii) : bool :=
  let n := nat_of_ascii c in
  ((65 <=? n) && (n <=? 90) || (97 <=? n) && (n <=? 122))%nat.

Definition digit_val (c : ascii) : Z := Z.of_nat (nat_of_ascii c) - 48.

(** The digits of an [int()] literal: underscores only between digits. *)
Fixpoint digits_val (after_digit : bool) (acc : Z) (s : string) : option Z :=
  match s with
  | EmptyString => if after_digit then Some acc else None
  | String a s' =>
      if is_digit a then digits_val true (acc * 10 + digit_val a) s'
      else if Ascii.eqb a "_" && after_digit then digits_val false acc s'
      else None
  end.

(** [int(s)] in base ten *)
Definition int_of_string (s : string) : res Z :=
  let o :=
    match strip s with
    | String "+" s' => digits_val false 0 s'
    | String "-" s' => Z.opp <$> digits_val false 0 s'
    | s' => digits_val false 0 s'
    end in
  match o with Some z => Ok z | None => Raise ValueError end.

(** [int(v)] *)
Definition py_int (v : pyval) : res Z :=
  match v with
  | PBool b => Ok (if b then 1 else 0)%Z
  | PInt z => Ok z
  | PFloat f => int_of_float f
  | PStr s => int_of_string s
  | PNone | PList _ | PDict _ => Raise TypeError
  end.

(** [s.upper()] on ASCII characters *)
Definition upper_char (c : ascii) : ascii :=
  let n := nat_of_ascii c in
  if ((97 <=? n) && (n <=? 122))%nat then ascii_of_nat (n - 32) else c.

Fixpoint upper (s : string) : string :=
  match s with
  | EmptyString => EmptyString
  | String a s' => String (upper_char a) (upper s')
  end.

(** [s.lower()] on ASCII characters *)
Definition lower_char (c : ascii) : ascii :=
  let n := nat_of_ascii c in
  if ((65 <=? n) && (n <=? 90))%nat then ascii_of_nat (n + 32) else c.

Fixpoint lower (s : string) : string :=
  match s with
  | EmptyString => EmptyString
  | String a s' => String (lower_char a) (lower s')
  end.

(** The least magnitude that is no finite double. *)
Definition FLOAT_LIMIT : Q := inject_Z (2 ^ 1024 - 2 ^ 970).

Definition float_of_Q (negative : bool) (q : Q) : pyfloat :=
  if Qle_bool FLOAT_LIMIT q then FInf negative else FFin (if negative then - q else q)%Q.

(** The digits of one part of a float literal, and how many there are; the part
    may be empty. *)
Fixpoint count_digits (s : string) : Z :=
  match s with
  | EmptyString => 0
  | String a s' => (if is_digit a then 1 else 0) + count_digits s'
  end%Z.

Definition float_part (s : string) : option (Z * Z) :=
  match s with
  | EmptyString => Some (0, 0)%Z
  | _ => (λ v, (v, count_digits s)) <$> digits_val false 0 s
  end.

Definition signed_digits (s : string) : option Z :=
  match s with
  | String "+" s' => digits_val false 0 s'
  | String "-" s' => Z.opp <$> digits_val false 0 s'
  | _ => digits_val false 0 s
  end.

(** An unsigned decimal literal, lower case: digits, point, digits, exponent. *)
Definition decimal_of_string (s : string) : option Q :=
  '(mantissa, e) ← match partition_at "e" s with
                   | None => Some (s, 0%Z)
                   | Some (m, x) => (λ e, (m, e)) <$> signed_digits x
                   end;
  let '(ip, fp) := match partition_at "." mantissa with
                   | None => (mantissa, EmptyString)
                   | Some (i, f) => (i, f)
                   end in
  '(i, ni) ← float_part ip;
  '(f, nf) ← float_part fp;
  if (ni + nf =? 0)%Z then None
  else Some (inject_Z (i * 10 ^ nf + f) * Qpower 10 (e - nf))%Q.

Definition float_body (negative : bool) (s : string) : res pyfloat :=
  if mem s ["inf"; "infinity"] then Ok (FInf negative)
  else if (s =? "nan")%string then Ok FNan
  else match decimal_of_string s with
       | Some q => Ok (float_of_Q negative q)
       | None => Raise ValueError
       end.

(** [float(s)] *)
Definition float_of_string (s : string) : res pyfloat :=
  match lower (strip s) with
  | String "+" s' => float_body false s'
  | String "-" s' => float_body true s'
  | s' => float_body false s'
  end.

(** [float(v)] *)
Definition py_float (v : pyval) : res pyfloat :=
  match v with
  | PBool b => Ok (float_of_Z (if b then 1 else 0))
  | PInt z => if Qle_bool FLOAT_LIMIT (inject_Z (Z.abs z)) then Raise OverflowError
              else Ok (float_of_Z z)
  | PFloat f => Ok f
  | PStr s => float_of_string s
  | PNone | PList _ | PDict _ => Raise TypeError
  end.

(** [s.strip(chars)] *)
Fixpoint lstrip_of (chars : string) (s : string) : string :=
  match s with
  | String a s' => if contains a chars then lstrip_of chars s' else s
  | EmptyString => s
  end.

Definition strip_of (chars s : string) : string :=
  String.rev (lstrip_of chars (String.rev (lstrip_of chars s))).

Definition rstrip_of (chars s : string) : string := String.rev (lstrip_of chars (String.rev s)).

(** What follows the first occurrence of [p] in [s]; [None] is [s.find(p) < 0]. *)
Fixpoint after_sub (p s : string) : option string :=
  if String.prefix p s then Some (String.substring (String.length p) (String.length s) s)
  else match s with EmptyString => None | String _ s' => after_sub p s' end.

(** [p in s] *)
Definition is_sub (p s : string) : bool :=
  match after_sub p s with Some _ => true | None => false end.

(** The characters [str.splitlines] breaks at, in the ASCII range. *)
Definition is_line_break (c : ascii) : bool :=
  let n := nat_of_ascii c in
  ((10 <=? n) && (n <=? 13) || (28 <=? n) && (n <=? 30))%nat.

Fixpoint split_lines (s : string) : list string :=
  match s with
  | EmptyString => [EmptyString]
  | String a s' =>
      if is_line_break a then EmptyString :: split_lines s'
      else match split_lines s' with
           | [] => [String a EmptyString]
           | w :: ws => String a w :: ws
           end
  end.

(** [s.split()]: the words between runs of white space *)
Fixpoint space_split (s : string) : list string :=
  match s with
  | EmptyString => [EmptyString]
  | String a s' =>
      if is_space a then EmptyString :: space_split s'
      else match space_split s' with
           | [] => [String a EmptyString]
           | w :: ws => String a w :: ws
           end
  end.

Definition split_words (s : string) : list string :=
  List.filter (λ w, negb (w =? "")%string) (space_split s).

(** [[line.strip() for line in s.splitlines() if line.strip()]]: a break of two
    characters only adds an empty line, which is dropped. *)
Definition stripped_lines (s : string) : list string :=
  List.filter (λ l, negb (l =? "")%string) (strip <$> split_lines s).

(** [os.path.dirname], [basename] and [join] of POSIX paths *)
Definition dirname (p : string) : string :=
  match rpartition_at "/" p with
  | None => EmptyString
  | Some (head, _) =>
      let stripped := rstrip_of "/" head in
      if (stripped =? "")%string then head +:+ "/" else stripped
  end.

Definition basename (p : string) : string :=
  match rpartition_at "/" p with None => p | Some (_, tail) => tail end.

Definition join (a b : string) : string :=
  if String.prefix "/" b then b
  else if (a =? "")%string then b
  else if String.prefix "/" (String.rev a) then a +:+ b
  else a +:+ "/" +:+ b.

Definition ends_with (suffix s : string) : bool :=
  String.prefix (String.rev suffix) (String.rev s).

(** ** Facts about splitting *)
Lemma app_cons a s t : String a s +:+ t = String a (s +:+ t).
Proof. done. Qed.

Lemma contains_app c s t : contains c (s +:+ t) = contains c s || contains c t.
Proof.
  induction s as [|a s IH]; [done|]. rewrite app_cons. simpl. rewrite IH. by rewrite orb_assoc.
Qed.

Lemma split_on_app c a b :
  contains c a = false → split_on c (a +:+ String c b) = a :: split_on c b.
Proof.
  induction a as [|x a IH]; intros H.
  - simpl. by rewrite Ascii.eqb_refl.
  - simpl in H. apply orb_false_iff in H as [Hx Ha].
    rewrite app_cons. simpl. by rewrite Hx, IH.
Qed.

Lemma split_on_none c s : contains c s = false → split_on c s = [s].
Proof.
  induction s as [|x a IH]; simpl; [done|]. intros [Hx Ha]%orb_false_iff. by rewrite Hx, IH.
Qed.

Lemma split_on_nonempty c s : split_on c s ≠ [].
Proof. destruct s as [|a s]; simpl; [done|]. by repeat case_match. Qed.

Lemma split_on_parts c s w : w ∈ split_on c s → contains c w = false.
Proof.
  revert w. induction s as [|a s IH]; simpl; intros w.
  - intros ->%list_elem_of_singleton. done.
  - destruct (Ascii.eqb a c) eqn:E.
    + intros [->|?]%elem_of_cons; auto.
    + destruct (split_on c s) as [|w' ws] eqn:Es; [by destruct (split_on_nonempty c s)|].
      intros [->|?]%elem_of_cons; simpl; [|apply IH; by right].
      rewrite E. simpl. apply IH. by left.
Qed.

Lemma partition_at_app c a b :
  contains c a = false → partition_at c (a +:+ String c b) = Some (a, b).
Proof.
  induction a as [|x a IH]; intros H.
  - simpl. by rewrite Ascii.eqb_refl.
  - simpl in H. apply orb_false_iff in H as [Hx Ha].
    rewrite app_cons. simpl. by rewrite Hx, IH.
Qed.

Lemma partition_at_Some c s a b :
  partition_at c s = Some (a, b) → s = a +:+ String c b ∧ contains c a = false.
Proof.
  revert a b. induction s as [|x s IH]; simpl; intros a b; [done|].
  destruct (Ascii.eqb x c) eqn:E.
  - intros [= <- <-]. apply Ascii.eqb_eq in E as ->. done.
  - destruct (partition_at c s) as [[x' y']|]; [|done].
    intros [= <- <-]. destruct (IH x' y') as [-> Hx]; [done|].
    split; [by rewrite app_cons|]. simpl. by rewrite E.
Qed.

Lemma partition_at_None c s : partition_at c s = None ↔ contains c s = false.
Proof.
  induction s as [|x s IH]; simpl; [done|]. destruct (Ascii.eqb x c); simpl; [done|].
  rewrite <-IH. destruct (partition_at c s) as [[]|]; naive_solver.
Qed.

Lemma rpartition_at_Some c s a b :
  rpartition_at c s = Some (a, b) → s = a +:+ String c b ∧ contains c b = false.
Proof.
  revert a b. induction s as [|x s IH]; simpl; intros a b; [done|].
  destruct (rpartition_at c s) as [[x' y']|] eqn:Er.
  - intros [= <- <-]. destruct (IH x' y') as [-> Hx]; [done|]. by rewrite app_cons.
  - destruct (Ascii.eqb x c) eqn:E; [|done]. intros [= <- <-].
    apply Ascii.eqb_eq in E as ->. split; [done|]. clear IH. revert Er.
    induction s as [|y s IH]; simpl; [done|].
    destruct (rpartition_at c s) as [[]|]; [done|]. destruct (Ascii.eqb y c); naive_solver.
Qed.

Lemma rpartition_at_None c s : rpartition_at c s = None ↔ contains c s = false.
Proof.
  induction s as [|x s IH]; simpl; [done|].
  destruct (rpartition_at c s) as [[]|]; destruct (Ascii.eqb x c); naive_solver.
Qed.

Lemma rpartition_at_app c a b :
  contains c b = false → rpartition_at c (a +:+ String c b) = Some (a, b).
Proof.
  intros Hb. induction a as [|x a IH].
  - simpl. apply rpartition_at_None in Hb as ->. by rewrite Ascii.eqb_refl.
  - rewrite app_cons. simpl. by rewrite IH.
Qed.

Lemma contains_replace_char c a b s :
  contains c (replace_char a b s) = true → (c = b ∨ contains c s = true ∧ c ≠ a).
Proof.
  induction s as [|x s IH]; simpl; [done|].
  destruct (Ascii.eqb_spec x a) as [->|Hx].
  - destruct (Ascii.eqb_spec b c) as [->|]; [by left|]. simpl. intros [|[-> ?]]%IH; [by left|right].
    split; [apply orb_true_r|done].
  - destruct (Ascii.eqb_spec x c) as [->|]; simpl; [intros _; by right|].
    intros [|[-> ?]]%IH; [by left|right]. done.
Qed.

Lemma prefix_app p s : String.prefix p (p +:+ s) = true.
Proof.
  induction p as [|a p IH]; [by destruct s|]. rewrite app_cons. simpl.
  by destruct (ascii_dec a a).
Qed.

Lemma prefix_spec p s : String.prefix p s = true ↔ ∃ t, s = p +:+ t.
Proof.
  split; [|intros [t ->]; apply prefix_app].
  revert s. induction p as [|a p IH]; simpl; intros s H; [by exists s|].
  destruct s as [|b s]; simpl in H; [done|]. destruct (ascii_dec a b) as [->|]; [|done].
  apply IH in H as [t ->]. by exists t.
Qed.

Lemma is_sub_app p a b : is_sub p (a +:+ (p +:+ b)) = true.
Proof.
  unfold is_sub. enough (∃ r, after_sub p (a +:+ (p +:+ b)) = Some r) as [r ->]; [done|].
  induction a as [|x a [r IH]].
  - change ("" +:+ (p +:+ b)) with (p +:+ b). pose proof (prefix_app p b) as Hp.
    destruct (p +:+ b); cbn [after_sub]; rewrite Hp; eauto.
  - rewrite app_cons. cbn [after_sub]. destruct (String.prefix _ _); eauto.
Qed.

Lemma rev_app_str a b acc : String.rev_app (a +:+ b) acc = String.rev_app b (String.rev_app a acc).
Proof. revert acc. induction a as [|x a IH]; intros acc; [done|]. rewrite app_cons. apply IH. Qed.

(** A string that ends in a slash, as [join] asks for it. *)
Lemma rev_prefix_last c d : String.prefix (String c "") (String.rev d) = true → ∃ d0, d = d0 +:+ String c "".
Proof.
  destruct (decide (d = EmptyString)) as [->|Hne]; [done|].
  assert (∃ d0 a, d = d0 +:+ String a "" ∧ ∀ acc, String.rev_app d acc = String a (String.rev_app d0 acc))
    as (d0 & a & -> & Hrev).
  { clear c. induction d as [|x d IH]; [done|]. destruct (decide (d = EmptyString)) as [->|Hd].
    - by exists "", x.
    - destruct (IH Hd) as (d0 & a & -> & Hr). exists (String x d0), a. split; [by rewrite app_cons|]. intros acc. apply Hr. }
  unfold String.rev. rewrite Hrev. cbn [String.prefix]. destruct (ascii_dec c a) as [->|]; [|done]. eauto.
Qed.

Lemma app_inj_l (p s t : string) : p +:+ s = p +:+ t → s = t.
Proof. induction p as [|a p IH]; [done|]. rewrite !app_cons. intros [= ?]. auto. Qed.

Lemma app_assoc_str (s t u : string) : (s +:+ t) +:+ u = s +:+ (t +:+ u).
Proof. induction s as [|a s IH]; [done|]. by rewrite !app_cons, IH. Qed.

Lemma app_nil_r_str (s : string) : s +:+ EmptyString = s.
Proof. induction s as [|a s IH]; [done|]. by rewrite !app_cons, IH. Qed.
