(* ===== verification/QueueTiers.v ===== *)
(** * Queue tiers

    [component/_common/src/isardvdi_common/lib/queue_tiers.py]: the tier a
    storage task lands on, and the name of the lane that carries it. Queue
    names are [pyval]s where the source guards with [isinstance]. *)
From Stdlib Require Import Ascii.
From S2P Require Import Prelude PyVal.

(** ** The tiers *)
Definition TIERS : list string :=
  ["interactive"; "standard"; "template"; "bulk"; "maintenance"; "reclaim"; "background"].

Definition _GOVERNED_TIERS : list string :=
  ["template"; "bulk"; "maintenance"; "reclaim"; "background"].

Definition DEFERRABLE_TIERS : list string := ["template"; "maintenance"; "reclaim"; "background"].

Definition HEAVY_TIERS : list string := ["template"; "maintenance"].

Definition _LEGACY_MAP : list (string * string) := [("high", "interactive"); ("low", "maintenance")].

Definition _STANDARD_ACTIONS : list string := ["resize"].

Definition _RECLAIM_ACTIONS : list string := ["delete"; "move_delete"].

Definition _MAINTENANCE_ACTIONS : list string :=
  ["sparsify"; "dig_holes"; "convert"; "disconnect"; "virt_win_reg"; "rebase";
   "migration_verify_destination"; "migration_verify_destination_absent"].

Definition _MOVE_ACTIONS : list string := ["move"].

Definition _DOWNLOAD_ACTIONS : list string := ["download_url"; "download_url_for_domain"].

Definition _FAIR_TIERS : list string := _GOVERNED_TIERS.

Definition NULL_CATEGORY : string := "_nocat".

(** ** Categories and lane names *)
Definition resolve_category (owner_category : pyval) : pyval :=
  if truthy owner_category then owner_category else PStr NULL_CATEGORY.

Definition _category_segment (category : pyval) : string :=
  match category with
  | PStr s =>
      if (s =? "")%string then NULL_CATEGORY
      else replace_char ":" "_" (replace_char "." "_" s)
  | _ => NULL_CATEGORY
  end.

Definition parse_storage_queue (name : pyval) : option (string * option string * string) :=
  match name with
  | PStr s =>
      if String.prefix "storage." s then
        match split_on "." s with
        | [_; pool; tier] => Some (pool, None, tier)
        | [_; pool; category; tier] => Some (pool, Some category, tier)
        | _ => None
        end
      else None
  | _ => None
  end.

Definition effective_tier (tier : string) : string := default tier (assoc tier _LEGACY_MAP).

(** [action in S], with [None] for a task without an action *)
Definition action_in (action : option string) (l : list string) : bool :=
  match action with Some a => mem a l | None => false end.

Definition default_tier_for_action (action : option string) : string :=
  if action_in action _RECLAIM_ACTIONS then "reclaim"
  else if action_in action _MAINTENANCE_ACTIONS
          || action_in action _MOVE_ACTIONS
          || action_in action _DOWNLOAD_ACTIONS then "maintenance"
  else if action_in action _STANDARD_ACTIONS then "standard"
  else "interactive".

Definition CHECK_INTERACTIVE_MAX_CLUSTERS : Z := 1100000.

Definition check_tier (allocated_clusters threshold : pyval) : res string :=
  n ← py_int (if truthy allocated_clusters then allocated_clusters else PInt 0);
  t ← py_int threshold;
  Ok (if (n <? t)%Z then "interactive" else "standard").

Definition repair_tier (what : string) : string :=
  if (what =? "leaks")%string then "standard" else "maintenance".

Definition normalize_tier (value : string) (action : option string) : res string :=
  if action_in action _RECLAIM_ACTIONS then Ok "reclaim"
  else if action_in action _MAINTENANCE_ACTIONS then Ok "maintenance"
  else if action_in action _MOVE_ACTIONS then
    Ok (if mem value HEAVY_TIERS then value else "maintenance")
  else if (value =? "default")%string then Ok (default_tier_for_action action)
  else match assoc value _LEGACY_MAP with
       | Some t => Ok t
       | None => if mem value TIERS then Ok value else Raise ValueError
       end.

(** The tier [retier_queue] resolves: a priority nothing recognises degrades to
    the action's default. *)
Definition retier_tier (prio : string) (action : option string) : string :=
  match normalize_tier prio action with
  | Ok t => t
  | Raise _ => default_tier_for_action action
  end.

Definition retier_queue (queue : pyval) (action : option string) (category : pyval) : pyval :=
  match queue with
  | PStr q =>
      if String.prefix "storage." q then
        match split_max "." 2 q with
        | [p0; p1; prio] =>
            let head := p0 +:+ "." +:+ p1 in
            let tier := retier_tier prio action in
            match category with
            | PNone => PStr (head +:+ "." +:+ tier)
            | _ =>
                if mem tier _FAIR_TIERS
                then PStr (head +:+ "." +:+ _category_segment category +:+ "." +:+ tier)
                else PStr (head +:+ "." +:+ tier)
            end
        | _ => queue
        end
      else queue
  | _ => queue
  end.

(** A chain of dependents as [create_task] builds it: dicts with an optional
    [task] and [queue] and nested [dependents]; anything else is skipped. *)
#[warnings="-register-all"]
Inductive dependent :=
  | NotADict
  | Dep (task : option string) (queue : option pyval) (dependents : list dependent).

Fixpoint retier_dependent (category : pyval) (dep : dependent) : dependent :=
  match dep with
  | NotADict => NotADict
  | Dep task queue nested =>
      Dep task ((λ q, retier_queue q task category) <$> queue)
        ((fix go l := match l with
                      | [] => []
                      | d :: l' => retier_dependent category d :: go l'
                      end) nested)
  end.

Definition retier_dependents (dependents : list dependent) (category : pyval) : list dependent :=
  retier_dependent category <$> dependents.

(** ** Lemmas *)

Lemma default_tier_in_TIERS action : default_tier_for_action action ∈ TIERS.
Proof. unfold default_tier_for_action, TIERS. repeat case_match; set_solver. Qed.

Lemma effective_tier_id t : t ∈ TIERS → effective_tier t = t.
Proof. unfold TIERS. intros H. repeat (apply elem_of_cons in H as [->|H]; [done|]). set_solver. Qed.

Lemma normalize_tier_in_TIERS value action t :
  normalize_tier value action = Ok t → t ∈ TIERS.
Proof.
  unfold normalize_tier.
  destruct (action_in action _RECLAIM_ACTIONS); [intros; simplify_eq; unfold TIERS; set_solver|].
  destruct (action_in action _MAINTENANCE_ACTIONS); [intros; simplify_eq; unfold TIERS; set_solver|].
  destruct (action_in action _MOVE_ACTIONS).
  { destruct (mem value HEAVY_TIERS) eqn:Ev; intros; simplify_eq; [|unfold TIERS; set_solver].
    apply mem_spec in Ev. unfold HEAVY_TIERS, TIERS in *. set_solver. }
  destruct (value =? "default")%string; [intros; simplify_eq; apply default_tier_in_TIERS|].
  unfold _LEGACY_MAP. cbn [assoc].
  destruct (value =? "high")%string; [intros [= <-]; unfold TIERS; set_solver|].
  destruct (value =? "low")%string; [intros [= <-]; unfold TIERS; set_solver|].
  destruct (mem value TIERS) eqn:Ev; [|done]. intros [= <-]. by apply mem_spec.
Qed.

Lemma retier_tier_in_TIERS prio action : retier_tier prio action ∈ TIERS.
Proof.
  unfold retier_tier. destruct (normalize_tier prio action) eqn:E;
    eauto using normalize_tier_in_TIERS, default_tier_in_TIERS.
Qed.

Lemma tier_no_dot t : t ∈ TIERS → contains "." t = false.
Proof. unfold TIERS. intros H. repeat (apply elem_of_cons in H as [->|H]; [done|]). set_solver. Qed.

Lemma category_segment_no_dot c : contains "." (_category_segment c) = false.
Proof.
  unfold _category_segment. destruct c; try done. destruct (s =? "")%string; [done|].
  apply not_true_is_false. intros H.
  apply contains_replace_char in H as [?|[H _]]; [done|].
  apply contains_replace_char in H as [?|[_ ?]]; done.
Qed.

Lemma category_segment_no_colon c : contains ":" (_category_segment c) = false.
Proof.
  unfold _category_segment. destruct c; try done. destruct (s =? "")%string; [done|].
  apply not_true_is_false. intros H. apply contains_replace_char in H as [?|[_ ?]]; done.
Qed.

Lemma parse_flat pool tier :
  contains "." pool = false → contains "." tier = false →
  parse_storage_queue (PStr ("storage." +:+ pool +:+ "." +:+ tier)) = Some (pool, None, tier).
Proof.
  intros Hp Ht. unfold parse_storage_queue. rewrite prefix_app.
  change ("storage." +:+ pool +:+ "." +:+ tier)
    with ("storage" +:+ String "." (pool +:+ String "." tier)).
  by rewrite split_on_app, split_on_app, split_on_none.
Qed.

Lemma parse_category pool c tier :
  contains "." pool = false → contains "." c = false → contains "." tier = false →
  parse_storage_queue (PStr ("storage." +:+ pool +:+ "." +:+ c +:+ "." +:+ tier))
  = Some (pool, Some c, tier).
Proof.
  intros Hp Hc Ht. unfold parse_storage_queue. rewrite prefix_app.
  change ("storage." +:+ pool +:+ "." +:+ c +:+ "." +:+ tier)
    with ("storage" +:+ String "." (pool +:+ String "." (c +:+ String "." tier))).
  by rewrite split_on_app, split_on_app, split_on_app, split_on_none.
Qed.

Lemma retier_queue_storage pool prio action category :
  contains "." pool = false →
  retier_queue (PStr ("storage." +:+ pool +:+ "." +:+ prio)) action category =
  PStr ("storage." +:+ pool +:+ "." +:+
    match category with
    | PNone => retier_tier prio action
    | _ => if mem (retier_tier prio action) _FAIR_TIERS
           then _category_segment category +:+ "." +:+ retier_tier prio action
           else retier_tier prio action
    end).
Proof.
  intros Hp. unfold retier_queue. rewrite prefix_app.
  change ("storage." +:+ pool +:+ "." +:+ prio)
    with ("storage" +:+ String "." (pool +:+ String "." prio)).
  cbn [split_max]. rewrite partition_at_app by done. rewrite partition_at_app by done.
  destruct category; try destruct (mem _ _); rewrite !app_assoc_str; reflexivity.
Qed.

Lemma retier_tier_floors prio action :
  (action_in action _RECLAIM_ACTIONS = true → retier_tier prio action = "reclaim") ∧
  (action_in action _MAINTENANCE_ACTIONS = true → retier_tier prio action = "maintenance") ∧
  (action_in action _MOVE_ACTIONS = true → retier_tier prio action ∈ HEAVY_TIERS).
Proof.
  assert (∀ a l k, (∀ x, x ∈ l → x ∉ k) → action_in a l = true → action_in a k = false) as Hdisj.
  { intros [a|] l k Hlk; simpl; [|done]. rewrite mem_spec, mem_false. auto. }
  unfold retier_tier, normalize_tier. split_and!; intros Ha.
  - by rewrite Ha.
  - rewrite (Hdisj action _MAINTENANCE_ACTIONS _RECLAIM_ACTIONS), Ha; [done| |done].
    unfold _MAINTENANCE_ACTIONS, _RECLAIM_ACTIONS. set_solver.
  - rewrite (Hdisj action _MOVE_ACTIONS _RECLAIM_ACTIONS),
      (Hdisj action _MOVE_ACTIONS _MAINTENANCE_ACTIONS), Ha;
      try done; try (unfold _MAINTENANCE_ACTIONS, _RECLAIM_ACTIONS, _MOVE_ACTIONS; set_solver).
    destruct (mem prio HEAVY_TIERS) eqn:E; [by apply mem_spec|unfold HEAVY_TIERS; set_solver].
Qed.

(** An action none of the three floors governs. *)
Definition floored (action : option string) : bool :=
  action_in action _RECLAIM_ACTIONS || action_in action _MAINTENANCE_ACTIONS
  || action_in action _MOVE_ACTIONS.

Lemma retier_tier_verbatim prio action :
  floored action = false → prio ∈ TIERS → retier_tier prio action = prio.
Proof.
  unfold floored, retier_tier, normalize_tier. intros Hf Hp. simp_bool.
  repeat match goal with H : action_in _ _ = false |- _ => rewrite H; clear H end.
  assert (assoc prio _LEGACY_MAP = None ∧ (prio =? "default")%string = false) as [-> ->].
  { unfold TIERS in Hp. repeat (apply elem_of_cons in Hp as [->|Hp]; [done|]). set_solver. }
  by apply mem_spec in Hp as ->.
Qed.

(** The nodes of a chain of dependents, in the order the walk meets them. *)
Fixpoint dep_nodes (dep : dependent) : list (option string * option pyval) :=
  match dep with
  | NotADict => []
  | Dep task queue nested =>
      (task, queue) ::
      (fix go l := match l with [] => [] | d :: l' => dep_nodes d ++ go l' end) nested
  end.

Section dependent_ind.
Context (P : dependent → Prop) (Hnot : P NotADict)
  (Hdep : ∀ task queue nested, Forall P nested → P (Dep task queue nested)).

Fixpoint dependent_nested_ind (d : dependent) : P d :=
  match d with
  | NotADict => Hnot
  | Dep task queue nested =>
      Hdep task queue nested
        ((fix go l : Forall P l :=
            match l with
            | [] => Forall_nil_2 _
            | x :: l' => Forall_cons_2 P x l' (dependent_nested_ind x) (go l')
            end) nested)
  end.
End dependent_ind.

Definition retier_node (category : pyval) (n : option string * option pyval)
    : option string * option pyval :=
  (n.1, (λ q, retier_queue q n.1 category) <$> n.2).

Lemma retier_dependent_nodes category d :
  dep_nodes (retier_dependent category d) = retier_node category <$> dep_nodes d.
Proof.
  induction d as [|task queue nested IH] using dependent_nested_ind; [done|].
  cbn [retier_dependent dep_nodes]. rewrite fmap_cons. f_equal.
  induction IH as [|d l Hd _ IHl]; [done|]. by rewrite fmap_app, Hd, <-IHl.
Qed.

(** ** Properties *)

(** Whatever priority a producer asks for (a free-form or a dotted string
    included), the queue of a storage task on a dot-free pool is rewritten to a
    lane the workers parse, on one of the seven tiers and on the same pool; the
    category is carried exactly on the fair tiers, sanitised; a delete always
    lands on reclaim, maintenance work on maintenance, a whole-disk move on a
    heavy tier, and no other action is ever demoted from the tier it asked
    for. *)
Theorem retier_queue_lands_on_a_served_lane pool prio action category :
  contains "." pool = false →
  ∃ cat tier,
    parse_storage_queue
      (retier_queue (PStr ("storage." +:+ pool +:+ "." +:+ prio)) action category)
    = Some (pool, cat, tier) ∧
    tier ∈ TIERS ∧
    (cat = None ↔ category = PNone ∨ tier ∉ _FAIR_TIERS) ∧
    (∀ c, cat = Some c →
       c = _category_segment category ∧ contains "." c = false ∧ contains ":" c = false) ∧
    (action_in action _RECLAIM_ACTIONS = true → tier = "reclaim") ∧
    (action_in action _MAINTENANCE_ACTIONS = true → tier = "maintenance") ∧
    (action_in action _MOVE_ACTIONS = true → tier ∈ HEAVY_TIERS) ∧
    (floored action = false → prio ∈ TIERS → tier = prio).
Proof.
  intros Hp.
  set (tier := retier_tier prio action).
  exists (match category with
          | PNone => None
          | _ => if mem tier _FAIR_TIERS then Some (_category_segment category) else None
          end), tier.
  pose proof (retier_tier_in_TIERS prio action) as Ht. fold tier in Ht.
  pose proof (retier_tier_floors prio action) as (Hr & Hm & Hv).
  split_and!; [|done|..|by auto|by auto|by auto|by apply retier_tier_verbatim].
  - rewrite retier_queue_storage by done. fold tier.
    destruct category; try destruct (mem tier _FAIR_TIERS) eqn:Ef;
      auto using parse_flat, parse_category, tier_no_dot, category_segment_no_dot.
  - destruct (mem tier _FAIR_TIERS) eqn:Ef; [apply mem_spec in Ef|apply mem_false in Ef];
      destruct category; naive_solver.
  - intros c Hc.
    assert (c = _category_segment category) as ->
      by (destruct category; try destruct (mem tier _FAIR_TIERS); congruence).
    auto using category_segment_no_dot, category_segment_no_colon.
Qed.

Lemma retier_queue_lands_on_a_served_lane_witness :
  ∃ cat tier, parse_storage_queue
    (retier_queue (PStr ("storage." +:+ "src:dst" +:+ "." +:+ "a.b")) (Some "move") (PStr "c.1"))
    = Some ("src:dst", cat, tier) ∧ tier ∈ HEAVY_TIERS.
Proof.
  destruct (retier_queue_lands_on_a_served_lane "src:dst" "a.b" (Some "move") (PStr "c.1") eq_refl)
    as (cat & tier & H & _ & _ & _ & _ & _ & Hm & _).
  exists cat, tier. split; [exact H|apply Hm; reflexivity].
Defined.

(** The rewrite of a chain of dependents reaches every level: the queues of
    the chain, read in the order of the walk, are the old ones re-tiered each
    by its own task and the one category of the chain, and nothing else of the
    chain changes. *)
Theorem retier_dependents_every_level dependents category :
  flat_map dep_nodes (retier_dependents dependents category)
  = retier_node category <$> flat_map dep_nodes dependents.
Proof.
  unfold retier_dependents. induction dependents as [|d l IH]; [done|].
  rewrite fmap_cons. cbn [flat_map]. by rewrite IH, retier_dependent_nodes, fmap_app.
Qed.
