(* ===== verification/MigrationLedger.v ===== *)
(** * The migration ledger

    Data model and pure aggregates of
    [component/_common/src/isardvdi_common/models/storage_migration.py]: the
    life cycle of a migration job and of one disk, the ledger row of a disk,
    the totals of a job, re-derived from the rows ([build_totals]) or kept by
    signed deltas ([totals_delta] and [record_activity]), and the conditional
    single-document updates ([claim], [incr]) the runner's atomicity rests on.
    The main result is that the incremental totals never drift from the
    recomputed ones. *)
From coqutil Require Export Datatypes.RecordSetters.
From S2P Require Import Prelude PyVal.
Export DoubleBraceUpdate.

(** ** Enumerations *)
Inductive MigrationStatus :=
  | DRAFT | PLANNED | RUNNING | PAUSED | WINDOW_CLOSED | FINISHING_TREE
  | SCHEDULED | BUDGET_REACHED | COMPLETED | COMPLETED_WITH_SKIPS | FAILED_JOB | CANCELED.

Definition status_str (s : MigrationStatus) : string :=
  match s with
  | DRAFT => "draft" | PLANNED => "planned" | RUNNING => "running"
  | PAUSED => "paused" | WINDOW_CLOSED => "window_closed"
  | FINISHING_TREE => "finishing_tree" | SCHEDULED => "scheduled"
  | BUDGET_REACHED => "budget_reached" | COMPLETED => "completed"
  | COMPLETED_WITH_SKIPS => "completed_with_skips" | FAILED_JOB => "failed"
  | CANCELED => "canceled"
  end.

Inductive MigrationItemState :=
  | PENDING | PREFLIGHT_OK | MOVING | MOVED | REBASED | REPAIRING
  | DB_UPDATED | RELEASED | FAILED | SKIPPED | QUARANTINED.

Definition state_str (s : MigrationItemState) : string :=
  match s with
  | PENDING => "pending" | PREFLIGHT_OK => "preflight_ok" | MOVING => "moving"
  | MOVED => "moved" | REBASED => "rebased" | REPAIRING => "repairing"
  | DB_UPDATED => "db_updated" | RELEASED => "released" | FAILED => "failed"
  | SKIPPED => "skipped" | QUARANTINED => "quarantined"
  end.

Inductive MigrationItemKind := TEMPLATE | DESKTOP | MEDIA.

#[export] Instance MigrationStatus_eq_dec : EqDecision MigrationStatus.
Proof. solve_decision. Defined.
#[export] Instance MigrationItemState_eq_dec : EqDecision MigrationItemState.
Proof. solve_decision. Defined.
#[export] Instance MigrationItemKind_eq_dec : EqDecision MigrationItemKind.
Proof. solve_decision. Defined.

#[export] Instance state_str_inj : Inj (=) (=) state_str.
Proof. intros [] []; simpl; congruence. Qed.

Definition state_in (s : MigrationItemState) (l : list MigrationItemState) : bool :=
  existsb (λ s', bool_decide (s = s')) l.

Lemma state_in_spec s l : state_in s l = true ↔ s ∈ l.
Proof.
  unfold state_in. rewrite existsb_exists. split.
  - intros (y & Hy & ->%bool_decide_eq_true). by apply list_elem_of_In.
  - intros H. exists s. split; [by apply list_elem_of_In|by apply bool_decide_eq_true].
Qed.

(** Canonical happy-path order. *)
Definition MIGRATION_ITEM_STATE_ORDER : list MigrationItemState :=
  [PENDING; PREFLIGHT_OK; MOVING; MOVED; REBASED; DB_UPDATED; RELEASED].

Definition DONE_ITEM_STATES : list MigrationItemState := [RELEASED; SKIPPED; QUARANTINED].

Definition MOVED_ITEM_STATES : list MigrationItemState := [MOVED; REBASED; DB_UPDATED; RELEASED].

Definition SETTLED_ITEM_STATES : list MigrationItemState := [RELEASED; SKIPPED; FAILED; QUARANTINED].

(** ** Ledger rows *)

(** One append-only audit record of a disk ([build_audit_record]). Timestamps
    are integers: nothing is computed from them but their order. *)
Record audit_record := mkAudit {
  au_occurrence : string;
  au_occurrence_time : Z;
  au_storage_id : string;
  au_kind : MigrationItemKind;
  au_tree_id : string;
  au_src_path : option string;
  au_dst_path : option string;
  au_result : string;
  au_size_bytes : Z;
  au_error : option string;
  au_started_at : option Z;
  au_finished_at : Z;
  au_source_retained : bool;
  au_source_retained_path : option string;
  au_source_action : option string;
  au_source_action_reason : option string;
  au_dst_action : option string;
  au_dst_retained_path : option string;
  au_damaged : bool;
  au_damage_reason : option string;
}.

(** The ledger row of one disk: the columns the saga reads or writes. *)
Record item := mkItem {
  it_id : string;
  it_migration_id : string;
  it_storage_id : string;
  it_tree_id : string;
  it_topo_index : Z;
  it_kind : MigrationItemKind;
  it_src_path : option string;
  it_dst_path : option string;
  it_dst_dir : option string;
  it_size_bytes : Z;
  it_tree_order_key : option Z;
  it_parent_storage_id : option string;
  it_parent_dst_path : option string;
  it_state : MigrationItemState;
  it_preflight_task_id : option string;
  it_move_task_id : option string;
  it_move_started_at : option Z;
  it_rebase_task_id : option string;
  it_verify_task_id : option string;
  it_verify_passed : bool;
  it_repair_task_id : option string;
  it_repair_attempted : bool;
  it_repair_action : option string;
  it_move_delete_task_id : option string;
  it_abandon_restarts : Z;
  it_storage_orig_status : option string;
  it_maintenance_domains : option (list string);
  it_attempts : Z;
  it_occurrence_failures : Z;
  it_space_deferrals : Z;
  it_recopy : bool;
  it_audit : list audit_record;
  it_error : option string;
  it_source_retained : bool;
  it_source_retained_path : option string;
  it_source_action : option string;
  it_source_action_reason : option string;
  it_dst_action : option string;
  it_dst_action_reason : option string;
  it_dst_task_id : option string;
  it_dst_owned : bool;
  it_dst_retained : bool;
  it_dst_retained_path : option string;
  it_damaged : bool;
  it_damage_reason : option string;
}.

(** ** Predicates on states *)

(** [_state_of(item)] and [_size_of(item)] *)
Definition _state_of (it : item) : MigrationItemState := it_state it.
Definition _size_of (it : item) : Z := it_size_bytes it.

Definition item_is_done (s : MigrationItemState) : bool := state_in s DONE_ITEM_STATES.
Definition item_is_migrated (s : MigrationItemState) : bool := state_in s MOVED_ITEM_STATES.

(** ** Aggregates *)

Definition bump {K} `{Countable K} (k : K) (by_ : Z) (m : gmap K Z) : gmap K Z :=
  <[k := (default 0 (m !! k) + by_)%Z]> m.

Definition compute_state_counts (items : list item) : gmap string Z :=
  foldl (λ counts it, bump (state_str (_state_of it)) 1 counts) ∅ items.

Definition compute_bytes_done (items : list item) : Z :=
  sum_by _size_of (filter (λ it, _state_of it = RELEASED) items).

Definition compute_bytes_copied (items : list item) : Z :=
  sum_by _size_of (filter (λ it, item_is_migrated (_state_of it) = true) items).

(** The [totals] document: its integer fields and the [state_counts] object. *)
Record totals := mkTotals { t_fields : gmap string Z; t_state_counts : gmap string Z }.

(** [{**current, ...}]: the dynamic fields replace those of [current]. *)
Definition build_totals (current : totals) (items : list item) : totals :=
  {| t_fields :=
       <["items_total" := Z.of_nat (length items)]>
       (<["bytes_total" := sum_by _size_of items]>
       (<["bytes_done" := compute_bytes_done items]>
       (<["bytes_copied" := compute_bytes_copied items]>
       (<["done" := count_if (λ it, item_is_done (_state_of it)) items]>
       (<["migrated" := count_if (λ it, item_is_migrated (_state_of it)) items]>
       (<["completed" := count_if (λ it, bool_decide (_state_of it = RELEASED)) items]>
          (t_fields current)))))));
     t_state_counts := compute_state_counts items |}.

(** The signed change of one disk's state: [state_counts] is the dict literal
    [{old_state: -1, new_state: 1}] (the second entry wins when the two states
    are the same), and a counter appears only when its predicate flips. *)
Record delta := mkDelta {
  d_state_counts : list (string * Z);
  d_fields : list (string * Z);
}.

Definition totals_delta (old_state new_state : MigrationItemState) (size : Z) : delta :=
  let flips :=
    [("done", item_is_done old_state, item_is_done new_state, 1%Z);
     ("migrated", item_is_migrated old_state, item_is_migrated new_state, 1%Z);
     ("completed", bool_decide (old_state = RELEASED), bool_decide (new_state = RELEASED), 1%Z);
     ("bytes_done", bool_decide (old_state = RELEASED), bool_decide (new_state = RELEASED), size);
     ("bytes_copied", item_is_migrated old_state, item_is_migrated new_state, size)] in
  {| d_state_counts :=
       if decide (old_state = new_state) then [(state_str new_state, 1%Z)]
       else [(state_str old_state, (-1)%Z); (state_str new_state, 1%Z)];
     d_fields :=
       flat_map (λ '(field, before, after, by_),
         if Bool.eqb before after then [] else [(field, if after then by_ else - by_)%Z]) flips |}.

(** The server-side part of [record_activity(delta)]. *)
Definition record_activity (d : delta) (t : totals) : totals :=
  {| t_fields := foldl (λ m '(field, by_), bump field by_ m) (t_fields t) (d_fields d);
     t_state_counts :=
       foldl (λ m '(s, by_), bump s by_ m) (t_state_counts t) (d_state_counts d) |}.

(** ** Conditional single-document updates *)

(** [StorageMigrationItem.claim]: apply [set_fields] to the row [item_id] iff
    every condition of [when] holds of it, in one atomic document update. A
    missing row or a failed condition changes nothing and answers [false]. *)
Definition claim (when : list (item → bool)) (set_fields : item → item)
    (item_id : string) (ledger : list item) : res (bool * list item) :=
  match when with
  | [] => Raise ValueError
  | _ =>
      Ok (existsb (λ it, (it_id it =? item_id)%string && forallb (λ c, c it) when) ledger,
          (λ it, if (it_id it =? item_id)%string && forallb (λ c, c it) when
                 then set_fields it else it) <$> ledger)
  end.

(** [StorageMigrationItem.incr(item_id, "abandon_restarts")]: the new value, or
    [None] when the row is gone. *)
Definition incr_abandon_restarts (item_id : string) (ledger : list item)
    : option Z * list item :=
  let ledger' := (λ it, if (it_id it =? item_id)%string
                        then it {{ it_abandon_restarts := (it_abandon_restarts it + 1)%Z }}
                        else it) <$> ledger in
  (it_abandon_restarts <$> List.find (λ it, (it_id it =? item_id)%string) ledger', ledger').

(** ** Counters as sums *)
Definition z_of_bool (b : bool) : Z := if b then 1%Z else 0%Z.

Lemma bump_lookup {K} `{Countable K} (k k' : K) b (m : gmap K Z) :
  default 0%Z (bump k b m !! k') = (default 0 (m !! k') + if decide (k = k') then b else 0)%Z.
Proof.
  unfold bump. rewrite lookup_insert. case_decide as E; [subst; simpl; done|]. lia.
Qed.

Lemma count_if_insert {A} (P : A → bool) (l : list A) i x y :
  l !! i = Some x →
  count_if P (<[i:=y]> l) = (count_if P l + (z_of_bool (P y) - z_of_bool (P x)))%Z.
Proof.
  unfold z_of_bool. revert i. induction l as [|z l IH]; intros [|i] Hi; simplify_eq/=.
  - destruct (P x), (P y); lia.
  - rewrite IH by done. destruct (P z); lia.
Qed.

Lemma sum_by_insert {A} (f : A → Z) (l : list A) i x y :
  l !! i = Some x → sum_by f (<[i:=y]> l) = (sum_by f l + (f y - f x))%Z.
Proof.
  revert i. induction l as [|z l IH]; intros [|i] Hi; simplify_eq/=; [lia|].
  rewrite IH by done. lia.
Qed.

Lemma sum_by_filter {A} (f : A → Z) (P : A → Prop) `{!∀ x, Decision (P x)} (l : list A) :
  sum_by f (filter P l) = sum_by (λ x, if decide (P x) then f x else 0%Z) l.
Proof.
  induction l as [|x l IH]; simpl; [done|]. rewrite filter_cons.
  destruct (decide (P x)); simpl; lia.
Qed.

Lemma compute_state_counts_lookup items s :
  default 0%Z (compute_state_counts items !! s)
  = count_if (λ it, (state_str (it_state it) =? s)%string) items.
Proof.
  unfold compute_state_counts, _state_of.
  enough (∀ m : gmap string Z, default 0%Z (foldl (λ c it, bump (state_str (it_state it)) 1 c) m items !! s)
    = (default 0 (m !! s) + count_if (λ it, (state_str (it_state it) =? s)%string) items)%Z) as ->.
  { rewrite lookup_empty. simpl. lia. }
  induction items as [|it items IH]; intros m; simpl; [lia|].
  rewrite IH, bump_lookup. case_decide as E.
  - apply String.eqb_eq in E as ->. lia.
  - apply String.eqb_neq in E as ->. lia.
Qed.

(** The counters a fold of bumps leaves. *)
Lemma fold_bump_lookup (l : list (string * Z)) (m : gmap string Z) f :
  default 0%Z (foldl (λ m '(field, by_), bump field by_ m) m l !! f)
  = (default 0 (m !! f) + sum_by (λ p, if (p.1 =? f)%string then p.2 else 0) l)%Z.
Proof.
  revert m. induction l as [|[k b] l IH]; intros m; simpl; [lia|].
  rewrite IH, bump_lookup. case_decide as E.
  - apply String.eqb_eq in E as ->. lia.
  - apply String.eqb_neq in E as ->. lia.
Qed.

Lemma fold_bump_is_Some (l : list (string * Z)) (m : gmap string Z) f :
  is_Some (m !! f) → is_Some (foldl (λ m '(field, by_), bump field by_ m) m l !! f).
Proof.
  revert m. induction l as [|[k b] l IH]; intros m H; simpl; [done|]. apply IH.
  unfold bump. rewrite lookup_insert. by case_decide.
Qed.

Lemma fold_bump_other (l : list (string * Z)) (m : gmap string Z) f :
  f ∉ l.*1 → foldl (λ m '(field, by_), bump field by_ m) m l !! f = m !! f.
Proof.
  revert m. induction l as [|[k b] l IH]; intros m H; simpl; [done|].
  rewrite fmap_cons, not_elem_of_cons in H. destruct H as [Hk Hl].
  rewrite IH by done. unfold bump. by rewrite lookup_insert_ne.
Qed.

(** ** The incremental totals are the recomputed totals *)

(** What the delta of one transition adds to each counter. *)
Definition field_delta (old new : MigrationItemState) (size : Z) (f : string) : Z :=
  let flip (p : MigrationItemState → bool) := (z_of_bool (p new) - z_of_bool (p old))%Z in
  if (f =? "done")%string then flip item_is_done
  else if (f =? "migrated")%string then flip item_is_migrated
  else if (f =? "completed")%string then flip (λ s, bool_decide (s = RELEASED))
  else if (f =? "bytes_done")%string then (flip (λ s, bool_decide (s = RELEASED)) * size)%Z
  else if (f =? "bytes_copied")%string then (flip item_is_migrated * size)%Z
  else 0%Z.

Lemma totals_delta_fields old new size f :
  sum_by (λ p, if (p.1 =? f)%string then p.2 else 0)%Z (d_fields (totals_delta old new size))
  = field_delta old new size f.
Proof.
  unfold totals_delta, field_delta, z_of_bool. simpl.
  repeat match goal with |- context [(f =? ?n)%string] => destruct (String.eqb_spec f n) as [->|?] end;
    destruct (item_is_done old), (item_is_done new), (item_is_migrated old),
      (item_is_migrated new), (bool_decide (old = RELEASED)), (bool_decide (new = RELEASED));
    simpl; eval_strings; repeat match goal with
    | H : f ≠ ?n |- context [(?n =? f)%string] =>
        rewrite (proj2 (String.eqb_neq n f)) by congruence
    end; lia.
Qed.

Lemma totals_delta_names old new size f :
  f ∈ (d_fields (totals_delta old new size)).*1 →
  f ∈ ["done"; "migrated"; "completed"; "bytes_done"; "bytes_copied"].
Proof.
  unfold totals_delta. simpl.
  destruct (item_is_done old), (item_is_done new), (item_is_migrated old),
    (item_is_migrated new), (bool_decide (old = RELEASED)), (bool_decide (new = RELEASED));
    simpl; set_solver.
Qed.

Definition totals_agree (current t : totals) (items : list item) : Prop :=
  t_fields t = t_fields (build_totals current items) ∧
  ∀ s, default 0%Z (t_state_counts t !! s)
       = default 0%Z (t_state_counts (build_totals current items) !! s).

Lemma build_totals_agree current items : totals_agree current (build_totals current items) items.
Proof. done. Qed.

Definition dynamic_fields : list string :=
  ["items_total"; "bytes_total"; "bytes_done"; "bytes_copied"; "done"; "migrated"; "completed"].

Lemma build_totals_other current items f :
  f ∉ dynamic_fields → t_fields (build_totals current items) !! f = t_fields current !! f.
Proof.
  unfold dynamic_fields, build_totals. simpl. intros H.
  repeat (rewrite lookup_insert_ne; [|set_solver]). done.
Qed.

Lemma build_totals_dynamic current items f :
  f ∈ dynamic_fields → is_Some (t_fields (build_totals current items) !! f).
Proof.
  unfold dynamic_fields, build_totals. simpl. intros H. rewrite !lookup_insert.
  repeat case_decide; [eexists; reflexivity ..|]. exfalso. set_solver.
Qed.

Lemma build_totals_insert current items i it s f :
  items !! i = Some it →
  default 0%Z (t_fields (build_totals current (<[i := it {{ it_state := s }}]> items)) !! f)
  = (default 0 (t_fields (build_totals current items) !! f)
     + field_delta (it_state it) s (it_size_bytes it) f)%Z.
Proof.
  intros Hi. unfold build_totals, compute_bytes_done, compute_bytes_copied, field_delta. simpl.
  rewrite !lookup_insert, !sum_by_filter, length_insert.
  rewrite !(count_if_insert _ _ _ _ _ Hi), !(sum_by_insert _ _ _ _ _ Hi).
  destruct it; simpl in *. unfold _state_of, _size_of, z_of_bool, constant. simpl.
  repeat case_decide; simplify_eq/=; eval_strings; try lia;
  repeat match goal with
  | H : ?n ≠ f |- context [(f =? ?n)%string] => rewrite (proj2 (String.eqb_neq f n)) by congruence
  end; try lia;
  repeat match goal with
  | |- context [bool_decide ?P] => first [rewrite (bool_decide_true P) by congruence | rewrite (bool_decide_false P) by congruence]
  | |- context [item_is_migrated ?x] => destruct (item_is_migrated x)
  end; simplify_eq; lia.
Qed.

Lemma record_activity_agree current t items i it s :
  totals_agree current t items →
  items !! i = Some it → it_state it ≠ s →
  totals_agree current
    (record_activity (totals_delta (it_state it) s (it_size_bytes it)) t)
    (<[i := it {{ it_state := s }}]> items).
Proof.
  intros [Hf Hc] Hi Hne. unfold record_activity. split; cbn [t_fields t_state_counts].
  - apply map_eq. intros f. destruct (decide (f ∈ dynamic_fields)) as [Hd|Hd].
    + destruct (build_totals_dynamic current (<[i := it {{ it_state := s }}]> items) f Hd) as [v Hv].
      assert (is_Some (foldl (λ m '(field, by_), bump field by_ m) (t_fields t)
        (d_fields (totals_delta (it_state it) s (it_size_bytes it))) !! f)) as [w Hw].
      { apply fold_bump_is_Some. rewrite Hf. by apply build_totals_dynamic. }
      pose proof (fold_bump_lookup (d_fields (totals_delta (it_state it) s (it_size_bytes it)))
        (t_fields t) f) as E1.
      pose proof (build_totals_insert current items i it s f Hi) as E2.
      rewrite Hw, totals_delta_fields, Hf in E1. rewrite Hv, <-E1 in E2. simpl in E2. congruence.
    + rewrite fold_bump_other, Hf, !build_totals_other; [done..|].
      intros Hin%totals_delta_names. apply Hd. unfold dynamic_fields. set_solver.
  - intros st. rewrite fold_bump_lookup, Hc. unfold build_totals. cbn [t_state_counts].
    rewrite !compute_state_counts_lookup, (count_if_insert _ _ _ _ _ Hi).
    unfold totals_delta. cbn [d_state_counts]. rewrite decide_False by done.
    destruct it; simpl in *. unfold constant, z_of_bool.
    destruct (String.eqb _ st), (String.eqb _ st); lia.
Qed.

(** A run of the incremental path: each entry is the position of a row and the
    state [_set] moves it to; a row already in that state moves nothing. *)
Fixpoint run_transitions (moves : list (nat * MigrationItemState))
    (items : list item) (t : totals) : list item * totals :=
  match moves with
  | [] => (items, t)
  | (i, s) :: moves' =>
      match items !! i with
      | Some it =>
          if decide (it_state it = s) then run_transitions moves' items t
          else run_transitions moves' (<[i := it {{ it_state := s }}]> items)
                 (record_activity (totals_delta (it_state it) s (it_size_bytes it)) t)
      | None => run_transitions moves' items t
      end
  end.

(** ** A claim has one winner *)

(** Two drivers that read the same row and race [claim] with it: the second
    sees the first one's write. When the update falsifies its own condition
    (every call site writes a state or a fresh fence), at most one of them is
    told it won. *)
Lemma claim_second_loses when set_fields item_id ledger ledger' w :
  (∀ it, forallb (λ c, c it) when = true → forallb (λ c, c (set_fields it)) when = false) →
  (∀ it, it_id (set_fields it) = it_id it) →
  claim when set_fields item_id ledger = Ok (w, ledger') →
  ∀ w' l', claim when set_fields item_id ledger' = Ok (w', l') → w' = false.
Proof.
  unfold claim. intros Hset Hid H w' l' H'. destruct when as [|c cs]; [done|].
  set (ok := λ it, forallb (λ c, c it) (c :: cs)) in *.
  change (∀ it, ok it = true → ok (set_fields it) = false) in Hset.
  change (Ok (existsb (λ it, (it_id it =? item_id)%string && ok it) ledger,
    (λ it, if (it_id it =? item_id)%string && ok it then set_fields it else it) <$> ledger)
    = Ok (w, ledger')) in H.
  change (Ok (existsb (λ it, (it_id it =? item_id)%string && ok it) ledger',
    (λ it, if (it_id it =? item_id)%string && ok it then set_fields it else it) <$> ledger')
    = Ok (w', l')) in H'.
  clearbody ok. simplify_eq.
  apply existsb_false_Forall, Forall_fmap, Forall_forall. intros it _. unfold compose. cbn beta.
  destruct (String.eqb (it_id it) item_id) eqn:Eid, (ok it) eqn:E; cbn [andb];
    rewrite ?Hid, ?Eid, ?E; cbn [andb]; auto.
Qed.

(** the totals kept by deltas and the recomputed ones agree after any run. *)
Theorem incremental_totals_never_drift current items moves :
  totals_agree current
    (run_transitions moves items (build_totals current items)).2
    (run_transitions moves items (build_totals current items)).1.
Proof.
  generalize (build_totals_agree current items).
  generalize (build_totals current items) at 1 2 3 as t. revert items.
  induction moves as [|[i s] moves IH]; intros items t Ht; simpl; [done|].
  destruct (items !! i) as [it|] eqn:Hi; [|by apply IH].
  case_decide as Hs; [by apply IH|]. apply IH. by apply record_activity_agree.
Qed.
