(* ===== verification/MigrationSaga.v ===== *)
(** * The per-disk saga: what to do next

    The pure decision layer of
    [component/_common/src/isardvdi_common/lib/storage/migration.py] that
    orders the work on one tree of disks: [decide_item_action] for one disk,
    [verify_gate_state] for its destination, [tree_next] for the tree,
    [plan_tree_failure] when a disk fails, and the re-arm and cancel rules.
    The status of a queue job is the parameter [job_status_fn] of the source. *)
From S2P Require Import Prelude PyVal MigrationLedger.

(** The actions of [decide_item_action] and [tree_next]. *)
Inductive action :=
  | start_preflight | destination_exists | reconcile_pending | start_move | skip_move
  | mark_moved | start_rebase | mark_rebased | skip_rebase | db_update | start_verify
  | mark_verified | release | skip_release | mark_repaired | repair_failed
  | fail | blocked | wait | noop | done.

#[export] Instance action_eq_dec : EqDecision action.
Proof. solve_decision. Defined.

Definition action_str (a : action) : string :=
  match a with
  | start_preflight => "start_preflight" | destination_exists => "destination_exists"
  | reconcile_pending => "reconcile_pending" | start_move => "start_move"
  | skip_move => "skip_move" | mark_moved => "mark_moved" | start_rebase => "start_rebase"
  | mark_rebased => "mark_rebased" | skip_rebase => "skip_rebase" | db_update => "db_update"
  | start_verify => "start_verify" | mark_verified => "mark_verified" | release => "release"
  | skip_release => "skip_release" | mark_repaired => "mark_repaired"
  | repair_failed => "repair_failed" | fail => "fail" | blocked => "blocked"
  | wait => "wait" | noop => "noop" | done => "done"
  end.

(** The truth value of an optional string field. *)
Definition opt_truthy (o : option string) : bool :=
  match o with Some s => negb (s =? "")%string | None => false end.

(** The jobs' status as the runner reads it; the string is RQ's. *)
Definition job_status_fn := option string → option string.

(** ** One disk *)
Definition _PHASE_A_DONE : list MigrationItemState :=
  [REBASED; REPAIRING; DB_UPDATED; RELEASED; SKIPPED; QUARANTINED].

Definition _DONE : list MigrationItemState := [RELEASED; SKIPPED; QUARANTINED].

Definition _TERMINAL_STATES : list MigrationItemState := [RELEASED; SKIPPED; FAILED; QUARANTINED].

Definition _COMMITTED_STATES : list MigrationItemState := [DB_UPDATED; RELEASED].

Definition _job_finished (status : option string) : bool := bool_decide (status = Some "finished").

Definition _job_failed (status : option string) : bool :=
  match status with Some s => mem s ["failed"; "stopped"; "canceled"] | None => false end.

Definition item_in_place (it : item) : bool :=
  opt_truthy (it_dst_path it) && bool_decide (it_dst_path it = it_src_path it).

Definition all_in_place (items : list item) : bool :=
  negb (bool_decide (items = [])) && forallb item_in_place items.

Definition decide_item_action (it : item) (jsf : job_status_fn) : action :=
  let is_root := (it_topo_index it =? 0)%Z || negb (opt_truthy (it_parent_dst_path it)) in
  match it_state it with
  | PENDING =>
      if opt_truthy (it_move_task_id it) then reconcile_pending
      else if item_in_place it then skip_move
      else if negb (opt_truthy (it_preflight_task_id it)) then start_preflight
      else
        let st := jsf (it_preflight_task_id it) in
        if _job_failed st then destination_exists
        else if _job_finished st then start_move
        else if bool_decide (st = None) then start_preflight
        else wait
  | MOVING =>
      let st := jsf (it_move_task_id it) in
      if _job_finished st then mark_moved
      else if _job_failed st then fail
      else if bool_decide (st = None) then start_move
      else wait
  | MOVED =>
      if is_root then skip_rebase
      else if negb (opt_truthy (it_rebase_task_id it)) then start_rebase
      else
        let st := jsf (it_rebase_task_id it) in
        if _job_finished st then mark_rebased
        else if _job_failed st then fail
        else if bool_decide (st = None) then start_rebase
        else wait
  | _ => noop
  end.

Inductive gate_state := gate_start | gate_wait | gate_fail | gate_passed.

Definition verify_gate_state (it : item) (jsf : job_status_fn) : gate_state :=
  if it_verify_passed it then gate_passed
  else if negb (opt_truthy (it_verify_task_id it)) then gate_start
  else
    let st := jsf (it_verify_task_id it) in
    if _job_finished st then gate_passed
    else if _job_failed st then gate_fail
    else if bool_decide (st = None) then gate_start
    else gate_wait.

(** ** One tree *)

(** What the scan of the rebased disks has seen so far: the first disk of each
    kind. *)
Record gate_seen := mkSeen {
  g_to_start : option item;
  g_to_mark : option item;
  g_waiting : option item;
}.

(** [x or y] on optional items *)
Definition first_of (x : option item) (y : item) : option item :=
  match x with Some i => Some i | None => Some y end.

(** The B1 loop over the rebased disks: [inl] is the early return of a failed
    gate. *)
Fixpoint gate_scan (jsf : job_status_fn) (seen : gate_seen) (l : list item) : item + gate_seen :=
  match l with
  | [] => inr seen
  | it :: l' =>
      if item_in_place it then gate_scan jsf seen l'
      else
        match verify_gate_state it jsf with
        | gate_fail => inl it
        | gate_start =>
            gate_scan jsf (mkSeen (first_of (g_to_start seen) it) (g_to_mark seen) (g_waiting seen)) l'
        | gate_passed =>
            if it_verify_passed it then gate_scan jsf seen l'
            else gate_scan jsf (mkSeen (g_to_start seen) (first_of (g_to_mark seen) it) (g_waiting seen)) l'
        | gate_wait =>
            gate_scan jsf (mkSeen (g_to_start seen) (g_to_mark seen) (first_of (g_waiting seen) it)) l'
        end
  end.

Definition in_state (s : MigrationItemState) (it : item) : bool := bool_decide (it_state it = s).

Definition topo_leb (a b : item) : bool := (it_topo_index a <=? it_topo_index b)%Z.

(** The part of [tree_next] that runs once every disk is moved and rebased. *)
Definition phase_b (items : list item) (jsf : job_status_fn) : option item * action :=
  match List.find (in_state REPAIRING) items with
  | Some it =>
      let st := jsf (it_repair_task_id it) in
      if _job_failed st then (Some it, repair_failed)
      else if _job_finished st then (Some it, mark_repaired)
      else (Some it, wait)
  | None =>
      let rebased := List.filter (in_state REBASED) items in
      let committed := List.filter (in_state DB_UPDATED) items in
      match gate_scan jsf (mkSeen None None None) rebased with
      | inl it => (Some it, fail)
      | inr seen =>
          match g_to_start seen, g_to_mark seen, g_waiting seen, rebased, committed with
          | Some it, _, _, _, _ => (Some it, start_verify)
          | None, Some it, _, _, _ => (Some it, mark_verified)
          | None, None, Some it, _, _ => (Some it, wait)
          | None, None, None, it :: _, _ => (Some it, db_update)
          | None, None, None, [], it :: _ =>
              (Some it, if item_in_place it then skip_release else release)
          | None, None, None, [], [] => (None, done)
          end
      end
  end.

Definition tree_next (tree_items : list item) (jsf : job_status_fn) : option item * action :=
  let items := py_sorted topo_leb tree_items in
  if negb (bool_decide (items = [])) && forallb (λ it, state_in (it_state it) _TERMINAL_STATES) items
  then (None, done)
  else
    match List.find (λ it, negb (state_in (it_state it) _PHASE_A_DONE)) items with
    | Some it =>
        if in_state FAILED it then (Some it, blocked) else (Some it, decide_item_action it jsf)
    | None => phase_b items jsf
    end.

(** [tree_phase(item_states)] *)
Inductive phase := ph_done | ph_not_started | ph_in_flight.

Definition tree_phase (states : list MigrationItemState) : phase :=
  if bool_decide (states = []) || forallb (λ s, state_in s _TERMINAL_STATES) states then ph_done
  else if forallb (λ s, bool_decide (s = PENDING)) states then ph_not_started
  else ph_in_flight.

(** ** Failure of a disk *)

(** The children of [sid], in ledger order ([by_parent.get(sid, [])]). *)
Definition children_of (items : list item) (sid : string) : list item :=
  List.filter (λ it, bool_decide (it_parent_storage_id it = Some sid)) items.

(** One visit of the walk: the children not yet in [result] are added to it and
    pushed. *)
Definition visit_children (children : list item) (result stack : list string)
    : list string * list string :=
  foldl (λ '(result, stack) child,
    if mem (it_id child) result then (result, stack)
    else (it_id child :: result, it_storage_id child :: stack)) (result, stack) children.

Fixpoint descend (fuel : nat) (items : list item) (result stack : list string) : list string :=
  match fuel with
  | O => result
  | S fuel' =>
      match stack with
      | [] => result
      | sid :: stack' =>
          let '(result', stack'') := visit_children (children_of items sid) result stack' in
          descend fuel' items result' stack''
      end
  end.

(** Every visit but the first was pushed by an id that had just entered the
    result, so one visit per row and one more empties the stack. *)
Definition descendant_item_ids (items : list item) (storage_id : string) (include_self : bool)
    : list string :=
  let self := if include_self
              then it_id <$> List.filter (λ it, (it_storage_id it =? storage_id)%string) items
              else [] in
  descend (S (length items)) items self [storage_id].

Definition plan_tree_failure (tree_items : list item) (failed_storage_id : string)
    (reason : option string) : list (item * MigrationItemState * string) :=
  let descendants := descendant_item_ids tree_items failed_storage_id false in
  flat_map (λ it,
    if state_in (it_state it) _TERMINAL_STATES then []
    else if (it_storage_id it =? failed_storage_id)%string then
      [(it, FAILED, if opt_truthy reason then default "" reason else "move/rebase task failed")]
    else if mem (it_id it) descendants then [(it, SKIPPED, "ancestor disk failed")]
    else [(it, SKIPPED, "tree abandoned after a disk in it failed")]) tree_items.

(** ** Cancel *)
Definition tree_has_committed_disk (tree_items : list item) : bool :=
  existsb (λ it, state_in (it_state it) _COMMITTED_STATES) tree_items.

Definition cancel_skips_tree (tree_items : list item) (a : action) (finishing : bool) : bool :=
  finishing
  && bool_decide (a = start_move ∨ a = start_rebase ∨ a = start_verify)
  && negb (tree_has_committed_disk tree_items).

(** ** Re-arming a tree at an occurrence edge *)
Definition plan_tree_rearm (tree_ledger : list item) (policy : string) (quarantine_after : Z)
    : list (item * Z) * list (item * Z) :=
  if existsb (in_state QUARANTINED) tree_ledger then ([], [])
  else
    let hits :=
      flat_map (λ it,
        if in_state FAILED it
           && (policy =? "retry_quarantine")%string
           && (quarantine_after <=? it_occurrence_failures it + 1)%Z
        then [(it, it_occurrence_failures it + 1)%Z] else []) tree_ledger in
    match hits with
    | _ :: _ => (hits, [])
    | [] =>
        ([], flat_map (λ it,
               if in_state FAILED it then [(it, it_occurrence_failures it + 1)%Z]
               else if in_state SKIPPED it then [(it, 0%Z)] else []) tree_ledger)
    end.

Definition plan_tree_return (tree_ledger : list item) : list item :=
  if existsb (λ it, negb (state_in (it_state it) [RELEASED; FAILED; SKIPPED])) tree_ledger then []
  else List.filter (in_state RELEASED) tree_ledger.

Definition reserving_items (items : list item) : list item :=
  let open_trees :=
    it_tree_id <$> List.filter
      (λ it, negb (state_in (it_state it) [RELEASED; FAILED; SKIPPED; QUARANTINED])) items in
  List.filter (λ it, negb (in_state RELEASED it) || mem (it_tree_id it) open_trees) items.

(** ** The order of a tree's work *)

Lemma topo_leb_total a b : topo_leb a b = true ∨ topo_leb b a = true.
Proof. unfold topo_leb. destruct (Z.leb_spec (it_topo_index a) (it_topo_index b)); [by left|].
  right. apply Z.leb_le. lia. Qed.

Lemma in_state_spec s it : in_state s it = true ↔ it_state it = s.
Proof. unfold in_state. apply bool_decide_eq_true. Qed.

Lemma gate_scan_clear jsf l seen seen' :
  gate_scan jsf seen l = inr seen' →
  g_to_start seen' = None → g_to_mark seen' = None → g_waiting seen' = None →
  (g_to_start seen = None ∧ g_to_mark seen = None ∧ g_waiting seen = None) ∧
  Forall (λ it, item_in_place it = true ∨ it_verify_passed it = true) l.
Proof.
  revert seen. induction l as [|it l IH]; simpl; intros seen H Hs Hm Hw.
  { by simplify_eq. }
  destruct (item_in_place it) eqn:Ei.
  { destruct (IH _ H) as [? ?]; auto. }
  destruct (verify_gate_state it jsf) eqn:Eg; [..|destruct (it_verify_passed it) eqn:Ev]; try done;
    destruct (IH _ H Hs Hm Hw) as [(Ha & Hb & Hc) ?]; simpl in *; auto;
    unfold first_of in *; repeat case_match; naive_solver.
Qed.

(** The disks of a tree whose phase A is over and none of which is being
    repaired: nothing below [rebased], nothing [failed]. *)
Definition phase_a_over (items : list item) : Prop :=
  Forall (λ it, it_state it ∈ [REBASED; DB_UPDATED; RELEASED; SKIPPED; QUARANTINED]) items.

Lemma tree_next_phase_b items jsf o a :
  tree_next items jsf = (o, a) → a ∈ [db_update; release; skip_release; start_verify; mark_verified] →
  phase_a_over items ∧ phase_b (py_sorted topo_leb items) jsf = (o, a).
Proof.
  unfold tree_next. intros H Ha.
  destruct (negb _ && _); [simplify_eq; set_solver|].
  destruct (List.find _ _) eqn:Ef.
  { exfalso. destruct (in_state FAILED i); simplify_eq; [set_solver|].
    revert Ha. unfold decide_item_action. repeat case_match; set_solver. }
  split; [|done]. unfold phase_b in H.
  destruct (List.find (in_state REPAIRING) _) eqn:Er.
  { exfalso. repeat case_match; simplify_eq; set_solver. }
  apply find_None_Forall in Ef. apply find_None_Forall in Er.
  unfold phase_a_over. rewrite <-(py_sorted_perm topo_leb items).
  eapply Forall_impl; [apply Forall_and; split; [exact Ef|exact Er]|].
  intros it [H1 H2]. cbn beta in *. apply negb_false_iff, state_in_spec in H1.
  unfold in_state in H2. apply bool_decide_eq_false in H2. unfold _PHASE_A_DONE in H1. set_solver.
Qed.

Lemma filter_in_state s items it :
  it ∈ List.filter (in_state s) items ↔ it_state it = s ∧ it ∈ items.
Proof. rewrite !list_elem_of_In, filter_In, in_state_spec. tauto. Qed.

Lemma phase_b_db_update items jsf it :
  phase_b items jsf = (Some it, db_update) →
  it ∈ items ∧ it_state it = REBASED ∧
  ∀ x, x ∈ items → it_state x = REBASED → item_in_place x = true ∨ it_verify_passed x = true.
Proof.
  unfold phase_b. destruct (List.find _ _); [intros; repeat case_match; simplify_eq|].
  destruct (gate_scan _ _ _) eqn:Eg; [done|].
  destruct (g_to_start g) eqn:Es; [done|]. destruct (g_to_mark g) eqn:Em; [done|].
  destruct (g_waiting g) eqn:Ew; [done|].
  destruct (List.filter (in_state REBASED) items) as [|y l] eqn:El.
  { destruct (List.filter (in_state DB_UPDATED) items); [done|].
    intros [= ->]. destruct (item_in_place it); congruence. }
  intros [= ->]. destruct (gate_scan_clear _ _ _ _ Eg Es Em Ew) as [_ Hall].
  assert (it ∈ List.filter (in_state REBASED) items) as Hit by (rewrite El; left).
  apply filter_in_state in Hit as [? ?]. split_and!; [done..|].
  intros x Hx Hs. rewrite Forall_forall in Hall. apply Hall.
  rewrite <-El. by apply filter_in_state.
Qed.

Lemma phase_b_release items jsf it a :
  a = release ∨ a = skip_release →
  phase_b items jsf = (Some it, a) →
  it ∈ items ∧ it_state it = DB_UPDATED ∧
  (a = release → item_in_place it = false) ∧ (a = skip_release → item_in_place it = true) ∧
  ∀ x, x ∈ items → it_state x ≠ REBASED.
Proof.
  intros Ha. unfold phase_b.
  destruct (List.find _ _); [intros; repeat case_match; naive_solver|].
  destruct (gate_scan _ _ _) eqn:Eg; [naive_solver|].
  destruct (g_to_start g) eqn:Es; [naive_solver|]. destruct (g_to_mark g) eqn:Em; [naive_solver|].
  destruct (g_waiting g) eqn:Ew; [naive_solver|].
  destruct (List.filter (in_state REBASED) items) as [|y l] eqn:El; [|naive_solver].
  destruct (List.filter (in_state DB_UPDATED) items) as [|y l] eqn:Ed; [naive_solver|].
  intros [= -> <-].
  assert (it ∈ List.filter (in_state DB_UPDATED) items) as Hit by (rewrite Ed; left).
  apply filter_in_state in Hit as [? ?]. split_and!; [done..| | |].
  - destruct (item_in_place it); naive_solver.
  - destruct (item_in_place it); naive_solver.
  - intros x Hx Hs. assert (x ∈ List.filter (in_state REBASED) items) as Hxx
      by (by apply filter_in_state). rewrite El in Hxx. set_solver.
Qed.

(** A disk phase A works on: the disks above it are moved and rebased. *)
Lemma topo_sorted_split items l1 it l2 x :
  py_sorted topo_leb items = l1 ++ it :: l2 → x ∈ items →
  (it_topo_index x < it_topo_index it)%Z → x ∈ l1.
Proof.
  intros Es Hx Hlt. rewrite <-(elem_of_py_sorted topo_leb), Es in Hx.
  apply elem_of_app in Hx as [?|[->|Hx]%elem_of_cons]; [done|lia|].
  assert (StronglySorted (λ a b, topo_leb a b = true) (l1 ++ it :: l2)) as Hs.
  { rewrite <-Es. apply Sorted_StronglySorted; [|apply py_sorted_Sorted, topo_leb_total].
    unfold topo_leb. intros a b c. rewrite !Z.leb_le. lia. }
  clear Es. induction l1 as [|y l1 IH]; simpl in Hs; apply StronglySorted_inv in Hs as [Hs Hf];
    [|right; auto].
  rewrite Forall_forall in Hf. apply Hf in Hx. unfold topo_leb in Hx. apply Z.leb_le in Hx. lia.
Qed.

Lemma tree_next_phase_a items jsf it a :
  tree_next items jsf = (Some it, a) →
  a ∈ [start_preflight; reconcile_pending; start_move; skip_move; mark_moved; start_rebase;
       mark_rebased; skip_rebase] →
  it ∈ items ∧ decide_item_action it jsf = a ∧
  ∀ x, x ∈ items → (it_topo_index x < it_topo_index it)%Z → it_state x ∈ _PHASE_A_DONE.
Proof.
  unfold tree_next. intros H Ha.
  destruct (negb _ && _); [simplify_eq|].
  destruct (List.find _ _) as [y|] eqn:Ef.
  - destruct (in_state FAILED y); simplify_eq; [set_solver|].
    apply find_Some_split in Ef as (l1 & l2 & Es & _ & Hl1).
    split_and!; [|done|].
    + apply (elem_of_py_sorted topo_leb). rewrite Es. set_solver.
    + intros x Hx Hlt. assert (x ∈ l1) as Hin by (by eapply topo_sorted_split).
      rewrite Forall_forall in Hl1. apply Hl1 in Hin. apply negb_false_iff in Hin.
      by apply state_in_spec.
  - exfalso. unfold phase_b in H. repeat case_match; simplify_eq; set_solver.
Qed.

(** ** Descendants *)

(** A row below the disk [sid] in the backing forest of the rows. *)
Inductive beneath (items : list item) (sid : string) : item → Prop :=
  | beneath_child it : it ∈ children_of items sid → beneath items sid it
  | beneath_step p it :
      beneath items sid p → it ∈ children_of items (it_storage_id p) → beneath items sid it.

Section descend.
Context (items : list item) (sid : string).
Hypothesis unique_ids : NoDup (it_id <$> items).

Definition unseen (result : list string) : nat :=
  length (List.filter (λ it, negb (mem (it_id it) result)) items).

(** [result] holds rows beneath [sid]; the children of the disks of [dn] are in it,
    and every disk known so far was visited ([kn]) or waits on the stack. *)
Record descend_inv (dn kn result stack : list string) : Prop := {
  di_sound x : x ∈ result → ∃ it, it_id it = x ∧ it ∈ items ∧ beneath items sid it;
  di_stack s : s ∈ stack → s = sid ∨ ∃ it, it ∈ items ∧ beneath items sid it ∧ it_storage_id it = s;
  di_known it : it ∈ items → it_id it ∈ result → it_storage_id it ∈ kn ∨ it_storage_id it ∈ stack;
  di_root : sid ∈ kn ∨ sid ∈ stack;
  di_done s it : s ∈ dn → it ∈ children_of items s → it_id it ∈ result;
}.

Lemma elem_of_children_of s it : it ∈ children_of items s → it ∈ items.
Proof. unfold children_of. rewrite !list_elem_of_In, filter_In. tauto. Qed.

Lemma unique_row it it' : it ∈ items → it' ∈ items → it_id it = it_id it' → it = it'.
Proof.
  intros [i Hi]%list_elem_of_lookup [j Hj]%list_elem_of_lookup Heq.
  assert (i = j) as <-; [|congruence].
  eapply (NoDup_lookup _ i j (it_id it)); [exact unique_ids| |]; rewrite list_lookup_fmap, ?Hi, ?Hj; simpl; congruence.
Qed.

Lemma filter_le {A} (f g : A → bool) l :
  (∀ y, f y = true → g y = true) → (length (List.filter f l) ≤ length (List.filter g l))%nat.
Proof.
  intros Hfg. induction l as [|y l IH]; simpl; [done|].
  destruct (f y) eqn:Ef; [rewrite (Hfg y Ef); simpl; lia|]. destruct (g y); simpl; lia.
Qed.

Lemma filter_lt {A} (f g : A → bool) l x :
  x ∈ l → g x = true → f x = false → (∀ y, f y = true → g y = true) →
  (S (length (List.filter f l)) ≤ length (List.filter g l))%nat.
Proof.
  intros Hx Hg Hf Hfg. induction Hx as [x l|x y l Hx IH]; simpl.
  - rewrite Hg, Hf. simpl. pose proof (filter_le f g l Hfg). lia.
  - specialize (IH Hg Hf). destruct (f y) eqn:Ef; [rewrite (Hfg y Ef); simpl; lia|].
    destruct (g y); simpl; lia.
Qed.

Lemma unseen_cons it result :
  it ∈ items → it_id it ∉ result → (S (unseen (it_id it :: result)) ≤ unseen result)%nat.
Proof.
  intros Hit Hn. unfold unseen. apply (filter_lt _ _ _ it Hit).
  - by apply negb_true_iff, mem_false.
  - apply negb_false_iff, mem_spec. set_solver.
  - intros y. rewrite !negb_true_iff, !mem_false. set_solver.
Qed.

(** The loop over the children of one disk. *)
Lemma visit_children_spec dn kn children result stack result' stack' :
  (∀ it, it ∈ children → it ∈ items ∧ beneath items sid it) →
  descend_inv dn kn result stack →
  visit_children children result stack = (result', stack') →
  descend_inv dn kn result' stack' ∧ (∀ it, it ∈ children → it_id it ∈ result')
  ∧ (∀ x, x ∈ result → x ∈ result') ∧ (∀ x, x ∈ stack → x ∈ stack')
  ∧ (length stack' + unseen result' ≤ length stack + unseen result)%nat.
Proof.
  revert result stack. induction children as [|c children IH]; intros result stack Hc Hi; cbn.
  { intros [= <- <-]. split_and!; [done|set_solver|done..]. }
  destruct (mem (it_id c) result) eqn:Em; intros Hv.
  - apply mem_spec in Em. apply IH in Hv as (? & Hcs & Hmono & ?); [|set_solver|done].
    split_and!; [done| |tauto..]. intros it [->|?]%elem_of_cons; auto.
  - apply mem_false in Em. destruct (Hc c) as [Hci Hcb]; [set_solver|].
    apply IH in Hv as (? & Hcs & Hmono & Hst & Hle); [|set_solver|].
    + pose proof (unseen_cons c result Hci Em). simpl in Hle.
      split_and!; [done| |set_solver|set_solver|lia]. intros it [->|?]%elem_of_cons; [|auto]. apply Hmono. set_solver.
    + destruct Hi as [H1 H2 H3 H4 H5]. split.
      * intros x [->|?]%elem_of_cons; [eauto|auto].
      * intros x [->|?]%elem_of_cons; [right; eauto|auto].
      * intros it Hit [Heq|?]%elem_of_cons; [|set_solver].
        rewrite (unique_row it c Hit Hci Heq). set_solver.
      * set_solver.
      * intros x it ??. apply elem_of_cons. right. eauto.
Qed.

Lemma descend_complete fuel dn result stack :
  (length stack + unseen result ≤ fuel)%nat → descend_inv dn dn result stack →
  ∃ dn', descend_inv dn' dn' (descend fuel items result stack) [].
Proof.
  revert dn result stack. induction fuel as [|fuel IH]; intros dn result stack Hf Hi;
    (destruct stack as [|s stack]; [by exists dn|simpl in Hf]); [lia|]. cbn [descend].
  destruct (visit_children (children_of items s) result stack) as [result' stack'] eqn:Ev.
  assert (Hs : s = sid ∨ ∃ it, it ∈ items ∧ beneath items sid it ∧ it_storage_id it = s)
    by (apply (di_stack _ _ _ _ Hi); set_solver).
  apply (visit_children_spec dn (s :: dn)) in Ev as (Hi' & Hc & Hmono & _ & Hle).
  - apply (IH (s :: dn)); [lia|]. destruct Hi' as [H1 H2 H3 H4 H5].
    split; [done..|]. intros x it [->|Hx]%elem_of_cons Hit; [auto|eauto].
  - intros it Hit. split; [by eapply elem_of_children_of|].
    destruct Hs as [->|(p & Hp & Hb & <-)]; [by constructor|by eapply beneath_step].
  - destruct Hi as [H1 H2 H3 H4 H5]. split; [done|set_solver| |set_solver|done].
    intros it Hit Hin. destruct (H3 it Hit Hin) as [?|[->|?]%elem_of_cons]; set_solver.
Qed.
End descend.

(** The cascade of a skip reaches exactly the rows below a disk: one visit per row and
    one more empties the stack. *)
Theorem descendants_are_the_rows_beneath items sid it :
  NoDup (it_id <$> items) → it ∈ items →
  it_id it ∈ descendant_item_ids items sid false ↔ beneath items sid it.
Proof.
  intros Hnd Hit. unfold descendant_item_ids.
  destruct (descend_complete items sid Hnd (S (length items)) [] [] [sid]) as [dn [H1 _ H3 H4 H5]].
  - unfold unseen. rewrite <-(List.filter_true items) at 2. simpl.
    apply le_n_S, filter_le. done.
  - split; set_solver.
  - set (result := descend _ _ _ _) in *. split.
    + intros (it' & Heq & Hin & Hb)%H1. by rewrite <-(unique_row items Hnd it' it).
    + assert (Hdone : ∀ x, x ∈ dn ∨ x ∈ [] → x ∈ dn) by set_solver.
      intros Hb. clear Hit. induction Hb as [it Hc|p it Hb IH Hc]; [eapply H5; [by apply Hdone|done]|].
      eapply H5; [|done]. apply Hdone, H3; [|done]. by destruct Hb; eapply elem_of_children_of.
Qed.
