(* ===== verification/MigrationRunner.v ===== *)
(** * The migration runner

    [MigrationRunner] of
    [component/_common/src/isardvdi_common/lib/storage/migration_run.py]: the
    handlers that carry out the actions the saga decides, and [_step_tree],
    which advances one tree by one step.

    A handler is a function of type [M A]: it reads and writes the [world]
    (the ledger rows, the runner's snapshot of them, the storage, media and
    domain rows, the tasks it has enqueued) and either returns or raises. A
    Python ledger dict is named by its [id]: the rows of [w_snap] are the dicts
    the handlers mutate, those of [w_db] the documents in the database; [_set]
    writes both, [claim] only the database. What the runner reads from the
    queue and from other services is the record [env], a parameter of every
    handler. *)
From Stdlib Require Import Ascii.
From stdpp Require Import pretty.
From S2P Require Import Prelude PyVal QueueTiers MigrationLedger MigrationSaga.

(** ** The state the runner works on *)
Record storage := mkStorage {
  st_status : option string;
  st_directory_path : option string;
  st_filename : option string;
  st_backing_filename : option string;
  st_full_backing_filename : option string;
  st_damage_reason : option string;
}.

Record domain := mkDomain {
  dm_id : string;
  dm_storage_ids : list string;
  dm_status : option string;
  dm_current_action : option string;
}.

(** The keyword arguments of the tasks the runner enqueues. *)
Inductive task_kwargs :=
  | PathArg (path : option string)
  | PreflightArgs (dst_path : option string)
  | MoveArgs (origin_path destination_path : option string) (bwlimit : Z)
      (remove_source_file trust_existing_destination : bool) (min_free_bytes : Z)
  | RebaseArgs (child_path new_backing_path : option string) (verify : bool)
  | VerifyArgs (dst_path expect_backing : option string) (expect_bytes : option Z)
      (src_path : option string)
  | RepairArgs (storage_path : option string) (what : string).

Record task := mkTask {
  tk_id : string;
  tk_task : string;
  tk_queue : pyval;
  tk_kwargs : task_kwargs;
  tk_tree : option string;
  tk_timeout : option Z;
}.

(** A task together with the rows as they were when it was enqueued. *)
Record enqueued := mkEnqueued {
  eq_task : task;
  eq_ledger : list item;
  eq_storages : gmap string storage;
  eq_media : gmap string (option string);
}.

Record world := mkWorld {
  w_db : list item;
  w_snap : list item;
  w_storages : gmap string storage;
  w_media : gmap string (option string);
  w_domains : list domain;
  w_tasks : list enqueued;
  w_next_id : N;
  w_claims : list (string * string);
  w_flags : list (string * string);
  w_totals : totals;
  w_budget_spent : option (string * Z);
  w_driving_tree : option string;
  w_space_deferred : bool;
  w_progressed : bool;
}.

(** The job's configuration, as [self.config.get] reads it. *)
Record config := mkConfig {
  c_dst_pool : string;
  c_force_stop_desktops : bool;
  c_bwlimit_kbs : Z;
  c_min_free_bytes : Z;
  c_verify : bool;
  c_on_damaged : option string;
  c_source_disposition : option string;
  c_failure_policy : option string;
  c_quarantine_after : Z;
  c_max_bytes_per_occurrence : Z;
}.

(** A row of the storage pools table, as [_pool_rows] plucks it. *)
Record pool_row := mkPool { pl_id : string; pl_mountpoint : option string; pl_enabled : bool }.

(** What a step reads from outside the ledger: the queue's view of the tasks,
    the live consumers of a lane, the pools, the clock. [None] stands for a
    read that raises, where the source catches it. *)
Record env := mkEnv {
  e_config : config;
  e_job_status : job_status_fn;
  e_lane_is_drainable : pyval → bool;
  e_enqueue_fails : string → option exn;
  e_exc_info : string → option string;
  e_leaks : string → Z;
  e_children : string → option bool;
  e_media_holders : string → option (list string);
  e_domains_readable : string → bool;
  e_system_delete_action : option string;
  e_pools : option (list pool_row);
  e_last_occurrence : option string;
  e_incremental : bool;
  e_now : Z;
}.

(** ** The handlers' monad *)
Definition M (A : Type) : Type := world → res A * world.

#[export] Instance M_ret : MRet M := λ A a w, (Ok a, w).
#[export] Instance M_bind : MBind M := λ A B f m w,
  match m w with
  | (Ok a, w') => f a w'
  | (Raise e, w') => (Raise e, w')
  end.

Definition gets {A} (f : world → A) : M A := λ w, (Ok (f w), w).
Definition modify (f : world → world) : M unit := λ w, (Ok tt, f w).
Definition raise {A} (e : exn) : M A := λ w, (Raise e, w).
Definition lift {A} (r : res A) : M A := λ w, (r, w).

Fixpoint for_each {A} (l : list A) (body : A → M unit) : M unit :=
  match l with
  | [] => mret tt
  | x :: l' => body x ≫= λ _, for_each l' body
  end.

(** The ledger dict named [id]. *)
Definition find_row (id : string) (rows : list item) : option item :=
  List.find (λ it, (it_id it =? id)%string) rows.

Definition row (id : string) : M item := λ w,
  match find_row id (w_snap w) with
  | Some it => (Ok it, w)
  | None => (Raise KeyError, w)
  end.

Definition update_row (id : string) (f : item → item) (rows : list item) : list item :=
  (λ it, if (it_id it =? id)%string then f it else it) <$> rows.

(** [f"{prefix}{uuid4()}"]: a fresh name *)
Definition fresh (prefix : string) : M string := λ w,
  (Ok (prefix +:+ pretty (w_next_id w)), w {{ w_next_id := N.succ (w_next_id w) }}).

(** ** Pools and lanes *)
Definition DEFAULT_STORAGE_POOL_ID : string := "00000000-0000-0000-0000-000000000000".
Definition DEFAULT_PRIORITY : string := "default".
Definition RSYNC_TIMEOUT : Z := 43200.
Definition RECYCLE_BIN_DIR : string := "deleted".
Definition QUIESCE_MAX_ATTEMPTS : Z := 60.
Definition MAX_ABANDON_RESTARTS : Z := 10.

(** [path == mountpoint or path.startswith(mountpoint.rstrip("/") + "/")] *)
Definition mountpoint_matches (path mountpoint : string) : bool :=
  (path =? mountpoint)%string || String.prefix (rstrip_of "/" mountpoint +:+ "/") path.

(** [cur_key < best_key] of the pairs [(disabled, id)] *)
Definition pool_key_lt (cur best : pool_row) : bool :=
  if Bool.eqb (pl_enabled cur) (pl_enabled best) then String.ltb (pl_id cur) (pl_id best)
  else pl_enabled cur.

Definition better_pool (path : string) (best : option pool_row) (pool : pool_row) : option pool_row :=
  match pl_mountpoint pool with
  | None => best
  | Some mountpoint =>
      if negb (mountpoint =? "")%string && mountpoint_matches path mountpoint then
        match best with
        | None => Some pool
        | Some b =>
            let cur_len := String.length mountpoint in
            let best_len := String.length (default "" (pl_mountpoint b)) in
            if (best_len <? cur_len)%nat then Some pool
            else if (cur_len =? best_len)%nat && pool_key_lt pool b then Some pool
            else best
        end
      else best
  end.

Definition _longest_mountpoint_row (path : string) (pools : list pool_row) : option pool_row :=
  foldl (better_pool path) None pools.

Definition get_by_path (pools : option (list pool_row)) (path : string) : list string :=
  match pools with
  | None => []
  | Some pools =>
      match _longest_mountpoint_row path pools with
      | Some best => [pl_id best]
      | None =>
          match List.find (λ p, (pl_id p =? DEFAULT_STORAGE_POOL_ID)%string) pools with
          | Some best => [pl_id best]
          | None => []
          end
      end
  end.

Definition get_queue_from_storage_pools (origin destination : string) : string :=
  if (origin =? destination)%string then origin
  else if String.ltb destination origin then destination +:+ ":" +:+ origin
  else origin +:+ ":" +:+ destination.

(** What the worker's traceback says. *)
Definition DAMAGED_SOURCE_MARK : string := "migration: damaged source".

Definition damage_from_reason (reason : option string) : option string :=
  match after_sub DAMAGED_SOURCE_MARK (default "" reason) with
  | None => None
  | Some rest =>
      let text := strip_of " :" rest in
      Some (if (text =? "")%string then "qemu-img check failed" else text)
  end.

Definition is_space_floor_refusal (reason : option string) : bool :=
  let text := default "" reason in
  is_sub "refusing to copy" text && is_sub "byte floor" text && is_sub "below the" text.

Definition task_error_line (exc_info : option string) (fallback : option string) : option string :=
  match last (stripped_lines (default "" exc_info)) with
  | Some l => Some l
  | None => fallback
  end.

(** Whether a domain lets its disk move. *)
Inductive quiesce := quiesce_ok | quiesce_force_stop | quiesce_skip.

Definition quiesce_decision (domain_status : option string) (force_stop : bool) : quiesce :=
  if match domain_status with
     | None => true
     | Some s => mem s ["Stopped"; "Failed"; "Maintenance"]
     end then quiesce_ok
  else if force_stop then quiesce_force_stop else quiesce_skip.

Definition build_audit_record (it : item) (result occurrence : string) (now : Z) : audit_record :=
  {| au_occurrence := occurrence;
     au_occurrence_time := now;
     au_storage_id := it_storage_id it;
     au_kind := it_kind it;
     au_tree_id := it_tree_id it;
     au_src_path := it_src_path it;
     au_dst_path := it_dst_path it;
     au_result := result;
     au_size_bytes := it_size_bytes it;
     au_error := it_error it;
     au_started_at := it_move_started_at it;
     au_finished_at := now;
     au_source_retained := it_source_retained it;
     au_source_retained_path := it_source_retained_path it;
     au_source_action := it_source_action it;
     au_source_action_reason := it_source_action_reason it;
     au_dst_action := it_dst_action it;
     au_dst_retained_path := it_dst_retained_path it;
     au_damaged := it_damaged it;
     au_damage_reason := it_damage_reason it |}.

Definition _BUDGET_SPENDING_RESULTS : list string := ["moved_ok"].

Definition _is_media (it : item) : bool := bool_decide (it_kind it = MEDIA).

(** A task id that is a reserved slot and not a task. *)
Definition is_fence (id : string) : bool := String.prefix "claim:" id.

(** [observed and not str(observed).startswith("claim:")] *)
Definition observed_real (observed : option string) : bool :=
  match observed with
  | Some id => negb (id =? "")%string && negb (is_fence id)
  | None => false
  end.

Definition opt_str_eqb (a b : option string) : bool := bool_decide (a = b).

Section runner.
Context (E : env).
Local Notation cfg := (e_config E).

(** ** Writes *)

(** [_set(item, **fields)]: the document and the dict take the fields; a change
    of state counts as progress and, in a per-event drive, is added to the
    job's totals. *)
Definition _set (id : string) (f : item → item) : M unit := λ w,
  match find_row id (w_snap w) with
  | None => (Raise KeyError, w)
  | Some old =>
      let w1 := w {{ w_db := update_row id f (w_db w); w_snap := update_row id f (w_snap w) }} in
      (Ok tt,
       if decide (it_state old = it_state (f old)) then w1
       else
         w1 {{ w_progressed := true;
               w_totals := if e_incremental E
                 then record_activity
                        (totals_delta (it_state old) (it_state (f old)) (it_size_bytes (f old)))
                        (w_totals w)
                 else w_totals w }})
  end.

(** [migration.add_budget_spent] *)
Definition add_budget_spent (occurrence : string) (size : Z) : M unit :=
  modify (λ w, w {{ w_budget_spent :=
    match w_budget_spent w with
    | Some (o, b) => if (o =? occurrence)%string then Some (o, b + size)%Z else Some (occurrence, size)
    | None => Some (occurrence, size)
    end }}).

Definition _audit (id result : string) : M unit :=
  it ← row id;
  let occurrence := if opt_truthy (e_last_occurrence E)
                    then default "" (e_last_occurrence E) else "initial" in
  let record := build_audit_record it result occurrence (e_now E) in
  _ ← modify (λ w,
    w {{ w_db := update_row id (λ it, it {{ it_audit := it_audit it ++ [record] }}) (w_db w);
         w_snap := update_row id (λ it, it {{ it_audit := it_audit it ++ [record] }}) (w_snap w) }});
  if e_incremental E && mem result _BUDGET_SPENDING_RESULTS
     && negb (c_max_bytes_per_occurrence cfg =? 0)%Z
  then add_budget_spent occurrence (au_size_bytes record)
  else mret tt.

(** [StorageMigrationItem.claim], on the document *)
Definition claim_row (when : list (item → bool)) (set_fields : item → item) (id : string) : M bool :=
  λ w, match claim when set_fields id (w_db w) with
       | Ok (won, db) => (Ok won, w {{ w_db := db }})
       | Raise e => (Raise e, w)
       end.

(** Fields the winner of a claim copies onto its dict. *)
Definition set_dict (id : string) (f : item → item) : M unit :=
  modify (λ w, w {{ w_snap := update_row id f (w_snap w) }}).

Definition update_storage (sid : string) (f : storage → storage) : M unit :=
  modify (λ w, w {{ w_storages := alter f sid (w_storages w) }}).

Definition update_media (mid : string) (path : option string) : M unit :=
  modify (λ w, w {{ w_media := alter (λ _, path) mid (w_media w) }}).

Definition update_domain (did : string) (f : domain → domain) : M unit :=
  modify (λ w, w {{ w_domains := (λ d, if (dm_id d =? did)%string then f d else d) <$> w_domains w }}).

(** ** Lanes and tasks *)
Definition _pool_of (path : option string) : res string :=
  match path with
  | None => Raise TypeError
  | Some p => Ok (match get_by_path (e_pools E) (dirname p) with
                  | pool :: _ => pool
                  | [] => c_dst_pool cfg
                  end)
  end.

Definition _move_queue (src_path : option string) : res pyval :=
  src_pool ← _pool_of src_path;
  Ok (retier_queue
        (PStr ("storage." +:+ get_queue_from_storage_pools src_pool (c_dst_pool cfg) +:+ "."
               +:+ DEFAULT_PRIORITY)) (Some "move") PNone).

Definition _pool_queue (path : option string) (action : string) : res pyval :=
  pool ← _pool_of path;
  Ok (retier_queue (PStr ("storage." +:+ pool +:+ "." +:+ DEFAULT_PRIORITY)) (Some action) PNone).

Definition _enqueue (name : string) (queue : pyval) (kwargs : task_kwargs) (timeout : option Z)
    : M string :=
  match e_enqueue_fails E name with
  | Some e => raise e
  | None =>
      id ← fresh "task-";
      _ ← modify (λ w,
        w {{ w_tasks := w_tasks w ++
               [mkEnqueued (mkTask id name queue kwargs (w_driving_tree w) timeout)
                  (w_db w) (w_storages w) (w_media w)] }});
      mret id
  end.

Definition _claim_storage_task (id task_id : string) : M unit :=
  it ← row id;
  if (task_id =? "")%string || (it_storage_id it =? "")%string then mret tt
  else modify (λ w, w {{ w_claims := w_claims w ++ [(it_storage_id it, task_id)] }}).

Definition _flag (id action : string) : M unit :=
  it ← row id;
  modify (λ w, w {{ w_flags := w_flags w ++ [(it_storage_id it, action)] }}).

(** ** Reads *)
Definition _domains (sid : string) (w : world) : list domain :=
  if e_domains_readable E sid
  then List.filter (λ d, mem sid (dm_storage_ids d)) (w_domains w) else [].

Definition failure_slot (slot : option string) (rest : option string) : option string :=
  match slot with
  | Some id =>
      if (id =? "")%string then rest
      else match e_exc_info E id with
           | Some exc => if (exc =? "")%string then rest else task_error_line (Some exc) None
           | None => rest
           end
  | None => rest
  end.

Definition _failure_reason (it : item) : option string :=
  failure_slot (it_verify_task_id it)
    (failure_slot (it_rebase_task_id it) (failure_slot (it_move_task_id it) None)).

Definition _row_at_destination (storages : gmap string storage)
    (media : gmap string (option string)) (it : item) : bool :=
  if _is_media it then
    match media !! it_storage_id it with
    | Some path => opt_str_eqb path (it_dst_path it)
    | None => false
    end
  else
    match storages !! it_storage_id it with
    | Some st => opt_str_eqb (st_directory_path st) (it_dst_dir it)
    | None => false
    end.

Definition _source_step_done (it : item) : bool :=
  it_source_retained it
  || opt_truthy (it_move_delete_task_id it)
     && _job_finished (e_job_status E (it_move_delete_task_id it)).

(** ** Maintenance of a disk and its desktops *)
Definition _restore_domains (id : string) : M unit :=
  it ← row id;
  for_each (default [] (it_maintenance_domains it)) (λ did,
    update_domain did (λ d,
      if bool_decide (dm_status d = Some "Maintenance")
      then d {{ dm_status := Some "Stopped"; dm_current_action := None }} else d)).

Definition _restore_storage_status (id : string) : M unit :=
  _ ← _restore_domains id;
  it ← row id;
  match it_storage_orig_status it with
  | None => mret tt
  | Some orig =>
      if _is_media it then mret tt
      else update_storage (it_storage_id it) (λ st, st {{ st_status := Some orig }})
  end.

Definition _park_domains (id : string) : M unit :=
  it ← row id;
  match it_maintenance_domains it with
  | Some _ => mret tt
  | None =>
      if _is_media it then mret tt
      else
        parked ← gets (λ w, List.filter (λ d, bool_decide (dm_status d = Some "Stopped"))
                              (_domains (it_storage_id it) w));
        _ ← _set id (λ it, it {{ it_maintenance_domains := Some (dm_id <$> parked) }});
        for_each parked (λ d,
          update_domain (dm_id d)
            (λ d, d {{ dm_current_action := Some "move"; dm_status := Some "Maintenance" }}))
  end.

(** The task that removes a file, and why it differs from what was asked. *)
Definition _source_action : string * option string :=
  let disposition := if opt_truthy (c_source_disposition cfg)
                     then default "" (c_source_disposition cfg) else "recycle_bin" in
  let after_system :=
    if negb (c_verify cfg) then ("move_delete", Some "verify_off") else ("delete", None) in
  if (disposition =? "recycle_bin")%string then ("move_delete", None)
  else if (disposition =? "system")%string then
    match e_system_delete_action E with
    | None => ("move_delete", Some "system_action_unreadable")
    | Some a => if (a =? "delete")%string then after_system else ("move_delete", None)
    end
  else after_system.

(** ** Abandoning a copy, a disk, a tree *)
Definition _COPIED_UNCOMMITTED : list MigrationItemState := [MOVING; MOVED; REBASED].

Definition retain_destination (id : string) (dst_path : option string) : M unit :=
  _set id (λ it, it {{ it_dst_retained := true; it_dst_retained_path := dst_path }}).

Definition _discard_destination (id : string) : M unit :=
  it ← row id;
  if negb (state_in (it_state it) _COPIED_UNCOMMITTED) then mret tt
  else if negb (opt_truthy (it_dst_path it)) then mret tt
  else if negb (it_dst_owned it) then retain_destination id (it_dst_path it)
  else
    at_destination ← gets (λ w, _row_at_destination (w_storages w) (w_media w) it);
    if at_destination : bool then mret tt
    else
      let '(action, reason) := _source_action in
      queue ← lift (_pool_queue (it_dst_path it) action);
      if negb (e_lane_is_drainable E queue) then retain_destination id (it_dst_path it)
      else
        task_id ← _enqueue action queue (PathArg (it_dst_path it)) None;
        _set id (λ it, it {{ it_dst_action := Some action; it_dst_action_reason := reason;
                             it_dst_task_id := Some task_id }}).

Definition _skip_tree (ids : list string) (state : MigrationItemState) (reason : string) : M unit :=
  for_each ids (λ id,
    _ ← _set id (λ it, it {{ it_state := state; it_error := Some reason }});
    _audit id (if bool_decide (state = SKIPPED) then "skipped" else "failed")).

Definition _cancel_skip_tree (ids : list string) (reason : string) : M unit :=
  for_each ids (λ id,
    _ ← _restore_storage_status id;
    _ ← _discard_destination id;
    _ ← _set id (λ it, it {{ it_state := SKIPPED; it_error := Some reason }});
    _audit id "skipped").

Definition _mark_damaged (id reason : string) : M unit :=
  _ ← _set id (λ it, it {{ it_damaged := true; it_damage_reason := Some reason }});
  it ← row id;
  if _is_media it then mret tt
  else
    _ ← update_storage (it_storage_id it)
          (λ st, st {{ st_status := Some "damaged"; st_damage_reason := Some reason }});
    _flag id "review_damage".

(** The rows of the tree of a disk, in ledger order. *)
Definition tree_rows (tree_id : string) (rows : list item) : list item :=
  List.filter (λ it, (it_tree_id it =? tree_id)%string) rows.

Definition mark_if_damaged (id : string) (damage : option string) : M unit :=
  match damage with Some d => _mark_damaged id d | None => mret tt end.

(** One disk of a tree that terminalizes. *)
Definition terminalize_disk (trigger : string) (damage : option string)
    (change : item * MigrationItemState * string) : M unit :=
  let '(it, new_state, why) := change in
  _ ← _restore_storage_status (it_id it);
  _ ← _discard_destination (it_id it);
  _ ← (if (it_id it =? trigger)%string then mark_if_damaged (it_id it) damage else mret tt);
  _ ← _set (it_id it) (λ it, it {{ it_state := new_state; it_error := Some why }});
  _audit (it_id it) (if bool_decide (new_state = FAILED) then "failed" else "skipped").

Definition _terminalize_tree_failure (id : string) (given : option string) : M unit :=
  it ← row id;
  tree_items ← gets (λ w, tree_rows (it_tree_id it) (w_snap w));
  if forallb (λ it, state_in (it_state it) _TERMINAL_STATES) tree_items then mret tt
  else
    _ ← _restore_storage_status id;
    let reason := match given with Some r => Some r | None => _failure_reason it end in
    let damage := damage_from_reason reason in
    let changes := plan_tree_failure tree_items (it_storage_id it) reason in
    _ ← (if negb (existsb (λ '(c, _, _), (it_id c =? id)%string) changes)
            && in_state FAILED it
         then _ ← mark_if_damaged id damage; _audit id "failed"
         else mret tt);
    for_each changes (terminalize_disk id damage).

(** [true] when the budget of abandonment-driven resumes is spent. *)
Definition _abandon_resume_blocked (id : string) : M bool :=
  n ← (λ w : world, let '(n, db) := incr_abandon_restarts id (w_db w) in
                    (Ok n, w {{ w_db := db }}));
  match n with
  | None => mret true
  | Some n =>
      _ ← set_dict id (λ it, it {{ it_abandon_restarts := n }});
      if (MAX_ABANDON_RESTARTS <? n)%Z
      then _ ← _terminalize_tree_failure id None; mret true
      else mret false
  end.

Definition _defer_for_space (id : string) (reason : option string) : M unit :=
  _ ← _restore_storage_status id;
  _ ← _set id (λ it, it {{ it_state := PENDING; it_move_task_id := None; it_dst_owned := false;
         it_maintenance_domains := None; it_storage_orig_status := None; it_error := reason;
         it_space_deferrals := (it_space_deferrals it + 1)%Z }});
  _ ← _audit id "deferred_space";
  modify (λ w, w {{ w_space_deferred := true }}).

Definition _has_descendants (it : item) : bool := default true (e_children E (it_storage_id it)).

Definition _skip_repair_has_descendants (id : string) : M unit :=
  _ ← _set id (λ it, it {{ it_repair_action := Some "skipped_has_descendants";
                           it_repair_attempted := true }});
  _ ← _audit id "repair_skipped_has_descendants";
  _ ← _terminalize_tree_failure id None;
  _flag id "review_damage".

Definition _try_repair (id what : string) : M bool :=
  it ← row id;
  queue ← lift (_pool_queue (it_dst_path it) "qemu_img_check_repair");
  if negb (e_lane_is_drainable E queue) then mret false
  else
    task_id ← _enqueue "qemu_img_check_repair" queue (RepairArgs (it_dst_path it) what) None;
    _ ← _set id (λ it, it {{ it_state := REPAIRING; it_repair_task_id := Some task_id;
           it_repair_action := Some what; it_repair_attempted := true }});
    _ ← _audit id "repair_started";
    mret true.

Definition on_damaged_knob : string :=
  if opt_truthy (c_on_damaged cfg) then default "" (c_on_damaged cfg) else "pause".

Definition _fail (id : string) : M unit :=
  it ← row id;
  let reason := if in_state MOVING it then _failure_reason it else None in
  if in_state MOVING it && is_space_floor_refusal reason then _defer_for_space id reason
  else if mem on_damaged_knob ["repair_leaks"; "repair_all"]
          && negb (it_repair_attempted it) && negb (_is_media it)
          && match damage_from_reason (_failure_reason it) with Some _ => true | None => false end
  then
    if _has_descendants it then _skip_repair_has_descendants id
    else
      repairing ← _try_repair id
        (if (on_damaged_knob =? "repair_leaks")%string then "leaks" else "all");
      if repairing : bool then mret tt else _terminalize_tree_failure id reason
  else _terminalize_tree_failure id reason.

(** ** The gate before a tree starts *)
Fixpoint _unmovable_disk (w : world) (tree_items : list item) : option string :=
  match tree_items with
  | [] => None
  | it :: l =>
      if _is_media it then _unmovable_disk w l
      else
        let sid := it_storage_id it in
        match w_storages w !! sid ≫= st_status with
        | Some "recycled" => Some ("disk " +:+ sid +:+ " is in the recycle bin")
        | Some "ready" => _unmovable_disk w l
        | status =>
            Some ("disk " +:+ sid +:+ " is "
                  +:+ (if opt_truthy status then default "" status else "gone") +:+ ", not ready")
        end
  end.

Definition max_attempts (tree_items : list item) : Z :=
  foldr (λ it m, Z.max (it_attempts it) m) 0%Z tree_items.

Definition _gate_tree (tree_id : string) : M bool :=
  tree_items ← gets (λ w, tree_rows tree_id (w_snap w));
  let ids := it_id <$> tree_items in
  if existsb (λ it, negb (in_state PENDING it)) tree_items then mret true
  else
    unmovable ← gets (λ w, _unmovable_disk w tree_items);
    match unmovable with
    | Some why => _ ← _skip_tree ids SKIPPED why; mret false
    | None =>
        let force := c_force_stop_desktops cfg in
        running ← gets (λ w,
          List.filter (λ d, negb (match quiesce_decision (dm_status d) force with
                                  | quiesce_ok => true | _ => false end))
            (flat_map (λ it, _domains (it_storage_id it) w) tree_items));
        if bool_decide (length running = 0) then mret true
        else if negb force then
          _ ← _skip_tree ids SKIPPED "tree has a running desktop and force-stop was not requested";
          mret false
        else
          _ ← for_each running (λ d,
                if bool_decide (dm_status d = Some "Started")
                then update_domain (dm_id d) (λ d, d {{ dm_status := Some "Stopping" }})
                else mret tt);
          let attempts := (max_attempts tree_items + 1)%Z in
          if (QUIESCE_MAX_ATTEMPTS <? attempts)%Z then
            _ ← _skip_tree ids FAILED "force-stop did not stop the tree's desktops in time";
            mret false
          else
            _ ← for_each ids (λ id, _set id (λ it, it {{ it_attempts := attempts }}));
            mret false
    end.

(** ** The actions on one disk *)

(** The bound on re-enqueueing, charged only for a real previous task. *)
Definition resume_blocked (id : string) (observed : option string) : M bool :=
  if observed_real observed then _abandon_resume_blocked id else mret false.

Definition _start_preflight (id : string) : M unit :=
  it ← row id;
  queue ← lift (_pool_queue (it_dst_path it) "migration_verify_destination_absent");
  if negb (e_lane_is_drainable E queue) then mret tt
  else
    let observed := it_preflight_task_id it in
    fence ← fresh "claim:";
    won ← claim_row [λ r, in_state PENDING r; λ r, opt_str_eqb (it_preflight_task_id r) observed]
            (λ r, r {{ it_preflight_task_id := Some fence }}) id;
    if negb won then mret tt
    else
      _ ← set_dict id (λ r, r {{ it_preflight_task_id := Some fence }});
      stop ← resume_blocked id observed;
      if stop : bool then mret tt
      else
        task_id ← _enqueue "migration_verify_destination_absent" queue
                    (PreflightArgs (it_dst_path it)) None;
        _ ← _claim_storage_task id task_id;
        _set id (λ r, r {{ it_preflight_task_id := Some task_id }}).

Definition _destination_exists (id : string) : M unit :=
  it ← row id;
  _ ← _set id (λ r, r {{ it_dst_retained_path := it_dst_path it }});
  _terminalize_tree_failure id
    (Some ("destination_exists: " +:+ default "None" (it_dst_path it))).

Definition refuse_unrecorded : string :=
  "cannot record the disk's pre-migration status; refusing to move it rather than risk restoring the wrong one".

Definition _prepare_disk_for_move (id : string) : M bool :=
  it ← row id;
  recorded ←
    match it_storage_orig_status it with
    | Some _ => mret true
    | None =>
        cur ← gets (λ w, w_storages w !! it_storage_id it ≫= st_status);
        if opt_truthy cur && negb (opt_str_eqb cur (Some "maintenance"))
        then _ ← _set id (λ r, r {{ it_storage_orig_status := cur }}); mret true
        else
          _ ← _set id (λ r, r {{ it_error := Some refuse_unrecorded }});
          _ ← _fail id;
          mret false
    end;
  if negb recorded then mret false
  else
    _ ← update_storage (it_storage_id it) (λ st, st {{ st_status := Some "maintenance" }});
    _ ← _park_domains id;
    mret true.

(** The atomic reservation of the move of a disk, fresh or resumed. *)
Definition claim_move (id fence : string) (observed : option string) : M bool :=
  match observed with
  | None =>
      claim_row [λ r, in_state PENDING r]
        (λ r, r {{ it_state := MOVING; it_move_task_id := Some fence; it_dst_owned := true }}) id
  | Some _ =>
      claim_row [λ r, in_state MOVING r; λ r, opt_str_eqb (it_move_task_id r) observed]
        (λ r, r {{ it_move_task_id := Some fence }}) id
  end.

Definition _start_move (id : string) : M unit :=
  it ← row id;
  let observed := it_move_task_id it in
  fence ← fresh "claim:";
  won ← claim_move id fence observed;
  if negb won then mret tt
  else
    _ ← (if opt_str_eqb observed None then set_dict id (λ r, r {{ it_dst_owned := true }})
         else mret tt);
    _ ← set_dict id (λ r, r {{ it_state := MOVING; it_move_task_id := Some fence }});
    stop ← resume_blocked id observed;
    if stop : bool then mret tt
    else
      ready ← (if _is_media it then mret true else _prepare_disk_for_move id);
      if negb ready then mret tt
      else
        queue ← lift (_move_queue (it_src_path it));
        if negb (e_lane_is_drainable E queue) then mret tt
        else
          task_id ← _enqueue "move" queue
            (MoveArgs (it_src_path it) (it_dst_path it) (c_bwlimit_kbs cfg) false
               (negb (it_recopy it)) (c_min_free_bytes cfg)) (Some RSYNC_TIMEOUT);
          _ ← _claim_storage_task id task_id;
          _set id (λ r, r {{ it_state := MOVING; it_move_task_id := Some task_id;
                             it_move_started_at := Some (e_now E) }}).

Definition _reconcile_regressed_pending (id : string) : M unit :=
  it ← row id;
  at_destination ← gets (λ w, _row_at_destination (w_storages w) (w_media w) it);
  if it_verify_passed it && at_destination then
    let target := if _source_step_done it then RELEASED else DB_UPDATED in
    _set id (λ r, r {{ it_state := target; it_move_task_id := None }})
  else
    let move_status := if opt_truthy (it_move_task_id it)
                       then e_job_status E (it_move_task_id it) else None in
    if _job_finished move_status then _set id (λ r, r {{ it_state := MOVED }})
    else if negb (opt_str_eqb move_status None) && negb (_job_failed move_status)
    then _set id (λ r, r {{ it_state := MOVING }})
    else
      _ ← _restore_storage_status id;
      _set id (λ r, r {{ it_preflight_task_id := None; it_move_task_id := None;
        it_move_started_at := None; it_move_delete_task_id := None; it_verify_task_id := None;
        it_verify_passed := false; it_dst_owned := false; it_storage_orig_status := None;
        it_maintenance_domains := None }}).

Definition _mark_moved (id : string) : M unit :=
  _set id (λ r, r {{ it_state := MOVED; it_abandon_restarts := 0%Z; it_recopy := false }}).

Definition _skip_move (id : string) : M unit := _set id (λ r, r {{ it_state := MOVED }}).

Definition _start_rebase (id : string) : M unit :=
  it ← row id;
  queue ← lift (_pool_queue (it_dst_path it) "rebase");
  if negb (e_lane_is_drainable E queue) then mret tt
  else
    let observed := it_rebase_task_id it in
    fence ← fresh "claim:";
    won ← claim_row [λ r, in_state MOVED r; λ r, opt_str_eqb (it_rebase_task_id r) observed]
            (λ r, r {{ it_rebase_task_id := Some fence }}) id;
    if negb won then mret tt
    else
      _ ← set_dict id (λ r, r {{ it_rebase_task_id := Some fence }});
      stop ← resume_blocked id observed;
      if stop : bool then mret tt
      else
        task_id ← _enqueue "rebase" queue
          (RebaseArgs (it_dst_path it) (it_parent_dst_path it) (c_verify cfg)) None;
        _ ← _claim_storage_task id task_id;
        _set id (λ r, r {{ it_rebase_task_id := Some task_id }}).

Definition _mark_rebased (id : string) : M unit :=
  _set id (λ r, r {{ it_state := REBASED; it_abandon_restarts := 0%Z }}).

Definition _skip_rebase (id : string) : M unit :=
  _set id (λ r, r {{ it_state := REBASED; it_abandon_restarts := 0%Z }}).

(** The row write of the commit: the media path, or the storage's location and,
    below the root, its backing file. *)
Definition repoint_row (it : item) : M unit :=
  if _is_media it then update_media (it_storage_id it) (it_dst_path it)
  else update_storage (it_storage_id it) (λ st,
    let st := st {{ st_directory_path := it_dst_dir it; st_filename := it_dst_path it }} in
    if opt_truthy (it_parent_dst_path it)
    then st {{ st_backing_filename := it_parent_dst_path it;
               st_full_backing_filename := it_parent_dst_path it }}
    else st).

Definition _db_update (id : string) : M unit :=
  it ← row id;
  _ ← repoint_row it;
  _set id (λ r, r {{ it_state := DB_UPDATED; it_abandon_restarts := 0%Z }}).

Definition _start_verify (id : string) : M unit :=
  it ← row id;
  queue ← lift (_pool_queue (it_dst_path it) "migration_verify_destination");
  if negb (e_lane_is_drainable E queue) then mret tt
  else
    let observed := it_verify_task_id it in
    fence ← fresh "claim:";
    won ← claim_row [λ r, in_state REBASED r; λ r, opt_str_eqb (it_verify_task_id r) observed]
            (λ r, r {{ it_verify_task_id := Some fence }}) id;
    if negb won then mret tt
    else
      _ ← set_dict id (λ r, r {{ it_verify_task_id := Some fence }});
      stop ← resume_blocked id observed;
      if stop : bool then mret tt
      else
        task_id ← _enqueue "migration_verify_destination" queue
          (VerifyArgs (it_dst_path it) (it_parent_dst_path it)
             (if _is_media it then Some (it_size_bytes it) else None) (it_src_path it)) None;
        _ ← _claim_storage_task id task_id;
        _set id (λ r, r {{ it_verify_task_id := Some task_id }}).

Definition _flag_leaks (id : string) : M unit :=
  it ← row id;
  if _is_media it then mret tt
  else match it_verify_task_id it with
       | Some t => if (e_leaks E t =? 0)%Z then mret tt else _flag id "repair_leaks"
       | None => mret tt
       end.

Definition _mark_verified (id : string) : M unit :=
  _ ← _set id (λ r, r {{ it_verify_passed := true }});
  _flag_leaks id.

(** A released disk whose source stays where it is. *)
Definition release_retaining (id : string) (src_path : option string) : M unit :=
  _ ← _set id (λ r, r {{ it_state := RELEASED; it_move_delete_task_id := None;
         it_source_retained := true; it_source_retained_path := src_path }});
  _audit id "moved_ok".

(** [holders is None or holders] for a media still mounted in a running guest. *)
Definition media_held (it : item) : bool :=
  _is_media it && match e_media_holders E (it_storage_id it) with
                  | None => true
                  | Some holders => negb (length holders =? 0)%nat
                  end.

Definition _release (id : string) : M unit :=
  _ ← _restore_storage_status id;
  it ← row id;
  if media_held it then release_retaining id (it_src_path it)
  else
    let '(action, reason) := _source_action in
    queue ← lift (_pool_queue (it_src_path it) action);
    if negb (e_lane_is_drainable E queue) then release_retaining id (it_src_path it)
    else
      del_task_id ← _enqueue action queue (PathArg (it_src_path it)) None;
      _ ← _set id (λ r, r {{ it_state := RELEASED; it_move_delete_task_id := Some del_task_id;
             it_source_action := Some action; it_source_action_reason := reason }});
      _ ← _flag id "delete_backup";
      _audit id "moved_ok".

Definition _skip_release (id : string) : M unit :=
  _ ← _set id (λ r, r {{ it_state := RELEASED }});
  _ ← _restore_storage_status id;
  _audit id "in_place".

Definition _mark_repaired (id : string) : M unit :=
  _ ← _set id (λ r, r {{ it_state := REBASED; it_verify_passed := false;
                         it_verify_task_id := None }});
  _audit id "repaired".

Definition _repair_failed (id : string) : M unit := _terminalize_tree_failure id None.

Definition _blocked (id : string) : M unit := _terminalize_tree_failure id None.

Definition _ACTIONS (a : action) : option (string → M unit) :=
  match a with
  | start_preflight => Some _start_preflight
  | destination_exists => Some _destination_exists
  | reconcile_pending => Some _reconcile_regressed_pending
  | start_move => Some _start_move
  | skip_move => Some _skip_move
  | mark_moved => Some _mark_moved
  | start_rebase => Some _start_rebase
  | mark_rebased => Some _mark_rebased
  | skip_rebase => Some _skip_rebase
  | db_update => Some _db_update
  | start_verify => Some _start_verify
  | mark_verified => Some _mark_verified
  | release => Some _release
  | skip_release => Some _skip_release
  | mark_repaired => Some _mark_repaired
  | repair_failed => Some _repair_failed
  | fail => Some _fail
  | blocked => Some _blocked
  | wait | noop | done => None
  end.

(** ** One step of one tree *)

(** What a step reports: its entry of [results] and whether it failed or was
    deferred for space. *)
Inductive step_result :=
  | gated
  | canceled
  | did (it : option string) (a : action)
  | space_deferred (it : option string).

Definition _step_tree (tree_id : string) (finishing : bool) : M (step_result * bool * bool) :=
  open ← _gate_tree tree_id;
  if negb open then mret (gated, false, false)
  else
    tree_items ← gets (λ w, tree_rows tree_id (w_snap w));
    let '(oit, a) := tree_next tree_items (e_job_status E) in
    if cancel_skips_tree tree_items a finishing then
      _ ← _cancel_skip_tree (it_id <$> tree_items) "canceled before tree committed";
      mret (canceled, false, false)
    else
      match _ACTIONS a, oit with
      | None, _ => mret (did (it_id <$> oit) a, false, false)
      | Some _, None => mret (did None a, false, false)
      | Some handler, Some it =>
          deferred_before ← gets w_space_deferred;
          _ ← modify (λ w, w {{ w_driving_tree := Some tree_id }});
          failed ← (λ w, match handler (it_id it) w with
                         | (Ok _, w') => (Ok false, w')
                         | (Raise _, w') =>
                             (_ ← _set (it_id it) (λ r, r {{ it_state := FAILED;
                                    it_error := Some ("action " +:+ action_str a +:+ " raised") }});
                              mret true) w'
                         end);
          _ ← modify (λ w, w {{ w_driving_tree := None }});
          deferred ← gets w_space_deferred;
          if deferred && negb deferred_before
          then mret (space_deferred (Some (it_id it)), failed, true)
          else mret (did (Some (it_id it)) a, failed, false)
      end.

(** ** Re-arming at an occurrence edge *)
Definition _rearm_item (id : string) (occurrence_failures : Z) : M unit :=
  _set id (λ r, r {{ it_state := PENDING; it_occurrence_failures := occurrence_failures;
    it_preflight_task_id := None; it_move_task_id := None; it_move_started_at := None;
    it_rebase_task_id := None; it_verify_task_id := None; it_verify_passed := false;
    it_move_delete_task_id := None; it_dst_owned := false; it_storage_orig_status := None;
    it_maintenance_domains := None; it_abandon_restarts := 0%Z; it_attempts := 0%Z;
    it_error := None; it_recopy := true }}).

(** [planned] is the row the re-plan proposes, every other field at its
    default. *)
Definition _rearm_returned (id : string) (planned : item) : M unit :=
  _ ← _set id (λ r, planned {{ it_id := it_id r; it_audit := it_audit r }});
  _rearm_item id 0.

Definition _storage_ready (w : world) (sid : string) : bool :=
  match w_storages w !! sid with
  | Some st => bool_decide (st_status st = Some "ready")
  | None => false
  end.

(** The ids of the trees of a ledger, in the order of their first row. *)
Definition tree_ids (rows : list item) : list string :=
  foldl (λ ids it, if mem (it_tree_id it) ids then ids else ids ++ [it_tree_id it]) [] rows.

Definition _skip_stale_trees (planned_sids : list string) : M unit :=
  trees ← gets (λ w, tree_ids (w_snap w));
  for_each trees (λ tree_id,
    tree_items ← gets (λ w, tree_rows tree_id (w_snap w));
    ready ← gets (λ w, forallb (λ it, _storage_ready w (it_storage_id it)) tree_items);
    if negb (match tree_phase (it_state <$> tree_items) with ph_not_started => true | _ => false end)
       || existsb (λ it, mem (it_storage_id it) planned_sids) tree_items
       || negb ready
    then mret tt
    else _skip_tree (it_id <$> tree_items) SKIPPED "no longer matches the selection").

(** One pass of the loop of [_rearm_for_occurrence] over the re-planned disks of
    a tree. *)
Definition failure_policy_knob : string :=
  if opt_truthy (c_failure_policy cfg) then default "" (c_failure_policy cfg)
  else "retry_quarantine".

Definition quarantine_error (occ : Z) : string :=
  "quarantined after " +:+ pretty occ +:+ " consecutive occurrence failures".

Definition find_sid (sid : string) (rows : list item) : option item :=
  List.find (λ it, (it_storage_id it =? sid)%string) rows.

(** [insert_absent(p)] for a disk the ledger did not have: a row whose id exists
    is left alone, and the snapshot is read again. *)
Definition insert_unknown (existing : list item) (p : item) : M unit :=
  if existsb (λ e, (it_storage_id e =? it_storage_id p)%string) existing then mret tt
  else modify (λ w,
    let db := if existsb (λ e, (it_id e =? it_id p)%string) (w_db w)
              then w_db w else w_db w ++ [p] in
    w {{ w_db := db; w_snap := db }}).

Definition rearm_tree (existing planned_items : list item) : M unit :=
  let ledger_of (w : world) :=
    omap (λ p, find_sid (it_storage_id p) existing ≫= λ e, find_row (it_id e) (w_snap w))
      planned_items in
  returned ← gets (λ w, plan_tree_return (ledger_of w));
  _ ← for_each returned (λ it,
        match find_sid (it_storage_id it) planned_items with
        | Some p => _rearm_returned (it_id it) p
        | None => raise KeyError
        end);
  plan ← gets (λ w, plan_tree_rearm (ledger_of w) failure_policy_knob (c_quarantine_after cfg));
  _ ← for_each plan.1 (λ '(it, occ),
        _ ← _set (it_id it) (λ r, r {{ it_state := QUARANTINED; it_occurrence_failures := occ;
               it_error := Some (quarantine_error occ) }});
        _audit (it_id it) "quarantined");
  _ ← for_each plan.2 (λ '(it, occ), _rearm_item (it_id it) occ);
  for_each planned_items (insert_unknown existing).

(** [_rearm_for_occurrence], given the rows the re-plan proposes. *)
Definition _rearm_for_occurrence (planned : list item) : M unit :=
  _ ← _skip_stale_trees (it_storage_id <$> planned);
  existing ← gets w_snap;
  for_each (tree_ids planned) (λ tree_id, rearm_tree existing (tree_rows tree_id planned)).

(** [_rescan_insert_new], given the rows the re-plan proposes. *)
Definition _rescan_insert_new (planned : list item) : M unit :=
  _ ← _skip_stale_trees (it_storage_id <$> planned);
  existing ← gets w_snap;
  for_each planned (insert_unknown existing).
End runner.
