(* ===== verification/MigrationExample.v ===== *)
(** * A concrete migration

    A tree of two disks, a template and a desktop backed by it, moving from the
    default pool to another one, and an environment in which every task ends
    well: the input on which the properties of the runner are exercised. *)
From S2P Require Import Prelude PyVal QueueTiers MigrationLedger MigrationSaga MigrationRunner.

(** The row a plan proposes: every field the saga writes at its default. *)
Definition planned_item (id sid tree : string) (topo : Z) (kind : MigrationItemKind)
    (src dst dst_dir : string) (parent parent_dst : option string) : item :=
  {| it_id := id; it_migration_id := "m"; it_storage_id := sid; it_tree_id := tree;
     it_topo_index := topo; it_kind := kind; it_src_path := Some src; it_dst_path := Some dst;
     it_dst_dir := Some dst_dir; it_size_bytes := 100; it_tree_order_key := None;
     it_parent_storage_id := parent; it_parent_dst_path := parent_dst; it_state := PENDING;
     it_preflight_task_id := None; it_move_task_id := None; it_move_started_at := None;
     it_rebase_task_id := None; it_verify_task_id := None; it_verify_passed := false;
     it_repair_task_id := None; it_repair_attempted := false; it_repair_action := None;
     it_move_delete_task_id := None; it_abandon_restarts := 0; it_storage_orig_status := None;
     it_maintenance_domains := None; it_attempts := 0; it_occurrence_failures := 0;
     it_space_deferrals := 0; it_recopy := false; it_audit := []; it_error := None;
     it_source_retained := false; it_source_retained_path := None; it_source_action := None;
     it_source_action_reason := None; it_dst_action := None; it_dst_action_reason := None;
     it_dst_task_id := None; it_dst_owned := false; it_dst_retained := false;
     it_dst_retained_path := None; it_damaged := false; it_damage_reason := None |}.

Definition ex_root : item :=
  planned_item "m--t0" "t0" "t0" 0 TEMPLATE "/isard/templates/t0.qcow2" "/fast/templates/t0.qcow2"
    "/fast/templates" None None.
Definition ex_child : item :=
  planned_item "m--d1" "d1" "t0" 1 DESKTOP "/isard/groups/d1.qcow2" "/fast/groups/d1.qcow2"
    "/fast/groups" (Some "t0") (Some "/fast/templates/t0.qcow2").

Definition ex_storage (dir file : string) : storage :=
  mkStorage (Some "ready") (Some dir) (Some file) None None None.

Definition ex_world : world :=
  {| w_db := [ex_root; ex_child]; w_snap := [ex_root; ex_child];
     w_storages := <["t0" := ex_storage "/isard/templates" "/isard/templates/t0.qcow2"]>
                   (<["d1" := ex_storage "/isard/groups" "/isard/groups/d1.qcow2"]> ∅);
     w_media := ∅; w_domains := [mkDomain "vm" ["d1"] (Some "Stopped") None]; w_tasks := [];
     w_next_id := 0; w_claims := []; w_flags := [];
     w_totals := build_totals (mkTotals ∅ ∅) [ex_root; ex_child]; w_budget_spent := None;
     w_driving_tree := None; w_space_deferred := false; w_progressed := false |}.

Definition ex_config : config :=
  {| c_dst_pool := "fast"; c_force_stop_desktops := false; c_bwlimit_kbs := 0;
     c_min_free_bytes := 0; c_verify := true; c_on_damaged := None; c_source_disposition := None;
     c_failure_policy := None; c_quarantine_after := 3; c_max_bytes_per_occurrence := 0 |}.

Definition ex_env : env :=
  {| e_config := ex_config;
     e_job_status := λ t, match t with Some _ => Some "finished" | None => None end;
     e_lane_is_drainable := λ _, true; e_enqueue_fails := λ _, None; e_exc_info := λ _, None;
     e_leaks := λ _, 0%Z; e_children := λ _, Some false; e_media_holders := λ _, Some [];
     e_domains_readable := λ _, true; e_system_delete_action := Some "move_delete";
     e_pools := Some [mkPool "default" (Some "/isard") true; mkPool "fast" (Some "/fast") true];
     e_last_occurrence := None; e_incremental := false; e_now := 1000 |}.
