(* ===== verification/MigrationSafety.v ===== *)
(** * Safety of the migration runner

    An invariant of the world the handlers of [MigrationRunner] work on, kept
    by every step of the runner and by the other services' writes, and what it
    says of the tasks the runner enqueues: a file is removed only when the
    disk's row does not point at it, the copies of a tree are made from the
    root down, and a tree is committed only once the whole of it is verified.
    The rules [hoare_*] are a small program logic in which the invariant is
    part of every judgement, so that a handler is verified by its text. *)
From Stdlib Require Import Ascii.
From S2P Require Import Prelude PyVal QueueTiers MigrationLedger MigrationSaga MigrationRunner.
From S2P Require Import MigrationExample.

(** ** The invariant *)

(** The row of the disk, if there still is one, points at the destination. *)
Definition at_destination (storages : gmap string storage) (media : gmap string (option string))
    (it : item) : Prop :=
  if _is_media it
  then ∀ p, media !! it_storage_id it = Some p → p = it_dst_path it
  else ∀ s, storages !! it_storage_id it = Some s → st_directory_path s = it_dst_dir it.

Definition row_ok (storages : gmap string storage) (media : gmap string (option string))
    (it : item) : Prop :=
  (it_state it = DB_UPDATED ∨ it_state it = RELEASED →
     item_in_place it = true ∨ it_verify_passed it = true) ∧
  (it_state it = DB_UPDATED → at_destination storages media it) ∧
  (item_in_place it = true → it_dst_owned it = false).

(** The rows of the tree of [it] that come before it are past phase A, that is, in
    [_PHASE_A_DONE]: copied and rebased (REBASED, REPAIRING, DB_UPDATED, RELEASED), or set
    aside (SKIPPED, QUARANTINED). *)
Definition ancestors_settled (ledger : list item) (it : item) : Prop :=
  ∀ x, x ∈ ledger → it_tree_id x = it_tree_id it → (it_topo_index x < it_topo_index it)%Z →
       it_state x ∈ _PHASE_A_DONE.

Definition tree_committed (ledger : list item) (it : item) : Prop :=
  ∀ x, x ∈ ledger → it_tree_id x = it_tree_id it →
       it_state x ∈ [DB_UPDATED; RELEASED; SKIPPED; QUARANTINED].

(** When a file may be removed: the source of a disk whose whole tree is
    committed, or a copy the runner itself wrote and then abandoned. *)
Definition source_removable (e : enqueued) (p : option string) (it : item) : Prop :=
  p = it_src_path it ∧ it_state it = DB_UPDATED ∧ item_in_place it = false ∧
  it_verify_passed it = true ∧ at_destination (eq_storages e) (eq_media e) it ∧
  tree_committed (eq_ledger e) it.

Definition copy_removable (e : enqueued) (p : option string) (it : item) : Prop :=
  p = it_dst_path it ∧ it_state it ∈ _COPIED_UNCOMMITTED ∧ it_dst_owned it = true ∧
  item_in_place it = false ∧ _row_at_destination (eq_storages e) (eq_media e) it = false.

Definition task_ok (e : enqueued) : Prop :=
  match tk_kwargs (eq_task e) with
  | PathArg p =>
      ∃ it, it ∈ eq_ledger e ∧ (source_removable e p it ∨ copy_removable e p it)
  | MoveArgs origin destination _ remove_source_file _ _ =>
      remove_source_file = false ∧
      ∃ it, it ∈ eq_ledger e ∧ it_src_path it = origin ∧ it_dst_path it = destination ∧
            it_state it = MOVING ∧ ancestors_settled (eq_ledger e) it
  | RebaseArgs child _ _ =>
      ∃ it, it ∈ eq_ledger e ∧ it_dst_path it = child ∧ it_state it = MOVED ∧
            ancestors_settled (eq_ledger e) it
  | PreflightArgs _ | VerifyArgs _ _ _ _ | RepairArgs _ _ => True
  end.

Record Inv (w : world) : Prop := mkInv {
  inv_sync : w_snap w = w_db w;
  inv_ids : NoDup (it_id <$> w_db w);
  inv_sids : NoDup (it_storage_id <$> w_db w);
  inv_rows : Forall (row_ok (w_storages w) (w_media w)) (w_db w);
  inv_tasks : Forall task_ok (w_tasks w);
}.

(** ** Rows *)
Lemma find_row_elem id rows it : find_row id rows = Some it → it ∈ rows ∧ it_id it = id.
Proof.
  unfold find_row. intros (l1 & l2 & -> & H & _)%find_Some_split.
  apply String.eqb_eq in H. split; [set_solver|done].
Qed.

Lemma find_row_unique rows it :
  NoDup (it_id <$> rows) → it ∈ rows → find_row (it_id it) rows = Some it.
Proof.
  unfold find_row. induction rows as [|x rows IH]; simpl; [set_solver|].
  intros [Hx Hnd]%NoDup_cons [->|Hin]%elem_of_cons; [by rewrite String.eqb_refl|].
  destruct (String.eqb_spec (it_id x) (it_id it)) as [E|]; [|auto].
  exfalso. apply Hx. rewrite E. by apply list_elem_of_fmap_2.
Qed.

Lemma ids_inj rows x y :
  NoDup (it_id <$> rows) → x ∈ rows → y ∈ rows → it_id x = it_id y → x = y.
Proof.
  intros Hnd Hx Hy E. apply find_row_unique in Hx; [|done]. apply find_row_unique in Hy; [|done].
  congruence.
Qed.

Lemma elem_of_update_row x id f rows :
  x ∈ update_row id f rows ↔
  ∃ y, y ∈ rows ∧ x = if (it_id y =? id)%string then f y else y.
Proof. unfold update_row. rewrite list_elem_of_fmap. naive_solver. Qed.

Lemma fmap_update_row {A} (g : item → A) id f rows :
  (∀ it, it ∈ rows → it_id it = id → g (f it) = g it) → g <$> update_row id f rows = g <$> rows.
Proof.
  intros H. unfold update_row. rewrite <-list_fmap_compose. apply list_fmap_ext.
  intros i x Hx. unfold compose. destruct (String.eqb_spec (it_id x) id); [|done].
  apply H; [by eapply list_elem_of_lookup_2|done].
Qed.

Lemma update_row_compose id f g rows :
  (∀ it, it_id (f it) = it_id it) →
  update_row id g (update_row id f rows) = update_row id (λ it, g (f it)) rows.
Proof.
  intros H. unfold update_row. rewrite <-list_fmap_compose. apply list_fmap_ext.
  intros i x Hx. unfold compose. destruct (String.eqb_spec (it_id x) id) as [E|E].
  - rewrite H, E, String.eqb_refl. done.
  - apply String.eqb_neq in E as ->. done.
Qed.

Lemma update_row_ext id f g rows :
  (∀ it, it ∈ rows → it_id it = id → f it = g it) → update_row id f rows = update_row id g rows.
Proof.
  intros H. unfold update_row. apply list_fmap_ext. intros i x Hx.
  destruct (String.eqb_spec (it_id x) id); [|done]. apply H; [by eapply list_elem_of_lookup_2|done].
Qed.

Lemma find_row_update id f rows :
  (∀ it, it_id (f it) = it_id it) → find_row id (update_row id f rows) = f <$> find_row id rows.
Proof.
  intros H. unfold find_row, update_row. induction rows as [|x rows IH]; [done|].
  rewrite fmap_cons. simpl. destruct (it_id x =? id)%string eqn:E; [by rewrite H, E|].
  by rewrite E, IH.
Qed.

Lemma find_row_update_ne id id' f rows :
  id ≠ id' → (∀ it, it_id (f it) = it_id it) → find_row id (update_row id' f rows) = find_row id rows.
Proof.
  intros Hne H. unfold find_row, update_row. induction rows as [|x rows IH]; [done|].
  rewrite fmap_cons. simpl. destruct (String.eqb_spec (it_id x) id') as [E|E].
  - rewrite H. destruct (String.eqb_spec (it_id x) id); [congruence|]. done.
  - by rewrite IH.
Qed.

(** ** The invariant under single writes *)

(** An update of a row that keeps its identity. *)
Definition keeps_key (f : item → item) : Prop :=
  ∀ it, it_id (f it) = it_id it ∧ it_storage_id (f it) = it_storage_id it.

Lemma keeps_key_id f : keeps_key f → ∀ it, it_id (f it) = it_id it.
Proof. intros H it. apply H. Qed.

Lemma Inv_update_row w w' id f :
  Inv w →
  (∀ it, find_row id (w_db w) = Some it →
     it_id (f it) = it_id it ∧ it_storage_id (f it) = it_storage_id it) →
  (∀ it, find_row id (w_db w) = Some it → row_ok (w_storages w) (w_media w) it →
         row_ok (w_storages w) (w_media w) (f it)) →
  w_snap w' = update_row id f (w_snap w) → w_db w' = update_row id f (w_db w) →
  w_storages w' = w_storages w → w_media w' = w_media w → w_tasks w' = w_tasks w → Inv w'.
Proof.
  intros [Hs Hi Hd Hr Ht] Hk Hf E1 E2 E3 E4 E5.
  assert (∀ x, x ∈ w_db w → it_id x = id → find_row id (w_db w) = Some x) as Hu.
  { intros x Hx <-. by apply find_row_unique. }
  constructor; rewrite ?E1, ?E2, ?E3, ?E4, ?E5.
  - by rewrite Hs.
  - rewrite fmap_update_row; [done|]. intros; by apply Hk, Hu.
  - rewrite fmap_update_row; [done|]. intros; by apply Hk, Hu.
  - rewrite Forall_forall in Hr |- *. intros x (y & Hy & ->)%elem_of_update_row.
    destruct (String.eqb_spec (it_id y) id) as [E'|]; [|auto]. apply Hf; auto.
  - done.
Qed.

Lemma Inv_update w w' id f :
  Inv w → keeps_key f →
  (∀ it, find_row id (w_db w) = Some it → row_ok (w_storages w) (w_media w) it →
         row_ok (w_storages w) (w_media w) (f it)) →
  w_snap w' = update_row id f (w_snap w) → w_db w' = update_row id f (w_db w) →
  w_storages w' = w_storages w → w_media w' = w_media w → w_tasks w' = w_tasks w → Inv w'.
Proof. intros Hw Hk. apply Inv_update_row; [done|]. intros; apply Hk. Qed.

Lemma set_effect E id f w it :
  find_row id (w_snap w) = Some it →
  ∃ w', _set E id f w = (Ok tt, w') ∧
    w_snap w' = update_row id f (w_snap w) ∧ w_db w' = update_row id f (w_db w) ∧
    w_storages w' = w_storages w ∧ w_media w' = w_media w ∧ w_tasks w' = w_tasks w ∧
    w_domains w' = w_domains w ∧ w_space_deferred w' = w_space_deferred w.
Proof.
  intros H. unfold _set. rewrite H. eexists. split; [reflexivity|].
  case_decide; destruct w; unfold constant; simpl; done.
Qed.

(** The effect of an audit record on a row. *)
Definition add_audit (record : audit_record) (r : item) : item :=
  r {{ it_audit := it_audit r ++ [record] }}.

Lemma audit_effect E id result w it :
  find_row id (w_snap w) = Some it →
  ∃ record w', _audit E id result w = (Ok tt, w') ∧
    w_snap w' = update_row id (add_audit record) (w_snap w) ∧
    w_db w' = update_row id (add_audit record) (w_db w) ∧
    w_storages w' = w_storages w ∧ w_media w' = w_media w ∧ w_tasks w' = w_tasks w ∧
    w_domains w' = w_domains w ∧ w_space_deferred w' = w_space_deferred w.
Proof.
  intros H. unfold _audit, row, mbind, M_bind. rewrite H.
  eexists (build_audit_record it result _ (e_now E)).
  destruct (_ && _); eexists; (split; [reflexivity|]); split_and!; reflexivity.
Qed.

(** ** The program logic *)
Definition hoare {A} (P : world → Prop) (m : M A) (Q : A → world → Prop) : Prop :=
  ∀ w, Inv w → P w → Inv (m w).2 ∧ ∀ a, (m w).1 = Ok a → Q a (m w).2.

Lemma hoare_bind {A B} P (m : M A) (k : A → M B) R Q :
  hoare P m R → (∀ a, hoare (R a) (k a) Q) → hoare P (m ≫= k) Q.
Proof.
  intros Hm Hk w Hw HP. destruct (Hm w Hw HP) as [HI HR].
  unfold mbind, M_bind. destruct (m w) as [[a|e] w']; simpl in *; [|done].
  apply Hk; auto.
Qed.

Lemma hoare_conseq {A} (P P' : world → Prop) (m : M A) (Q Q' : A → world → Prop) :
  hoare P' m Q' → (∀ w, P w → P' w) → (∀ a w, Q' a w → Q a w) → hoare P m Q.
Proof. intros H HP HQ w Hw Hp. destruct (H w Hw (HP w Hp)) as [? ?]. split; [done|]. naive_solver. Qed.

Lemma hoare_ret {A} P (a : A) Q : (∀ w, P w → Q a w) → hoare P (mret a) Q.
Proof. intros H w Hw HP. split; [done|]. intros b [= <-]. auto. Qed.

Lemma hoare_raise {A} P e (Q : A → world → Prop) : hoare P (raise e) Q.
Proof. intros w Hw HP. split; [done|]. intros b [=]. Qed.

Lemma hoare_gets {A} P (f : world → A) Q :
  (∀ w, Inv w → P w → Q (f w) w) → hoare P (gets f) Q.
Proof. intros H w Hw HP. split; [done|]. intros b [= <-]. auto. Qed.

Lemma hoare_lift {A} P (r : res A) Q : (∀ a w, P w → Q a w) → hoare P (lift r) Q.
Proof. intros H w Hw HP. split; [done|]. intros b Hb. simpl. auto. Qed.

Lemma hoare_row P id Q :
  (∀ it w, Inv w → P w → find_row id (w_db w) = Some it → Q it w) → hoare P (row id) Q.
Proof.
  intros H w Hw HP. unfold row. rewrite (inv_sync _ Hw).
  destruct (find_row id (w_db w)) eqn:E; (split; [done|]); intros b [=]; subst; auto.
Qed.

Lemma hoare_for_each {A} P (l : list A) body :
  (∀ x, x ∈ l → hoare P (body x) (λ _, P)) → hoare P (for_each l body) (λ _, P).
Proof.
  induction l as [|x l IH]; intros H; simpl; [by apply hoare_ret|].
  eapply hoare_bind; [apply H; set_solver|]. intros ?. apply IH. intros; apply H. set_solver.
Qed.

Lemma hoare_set E P id f Q :
  keeps_key f →
  (∀ w it, P w → find_row id (w_db w) = Some it →
     row_ok (w_storages w) (w_media w) it → row_ok (w_storages w) (w_media w) (f it)) →
  (∀ w w', Inv w → P w → w_db w' = update_row id f (w_db w) →
     w_storages w' = w_storages w → w_media w' = w_media w → w_tasks w' = w_tasks w → Q tt w') →
  hoare P (_set E id f) Q.
Proof.
  intros Hk Hf HQ w Hw HP. destruct (find_row id (w_snap w)) as [it|] eqn:Er.
  - destruct (set_effect E id f w it Er) as (w' & -> & ? & ? & ? & ? & ? & ? & ?). split.
    + eapply Inv_update; eauto.
    + intros [] _. eapply HQ; eauto.
  - unfold _set. rewrite Er. split; [done|]. by intros ? [=].
Qed.

(** A write outside the ledger and the places of the disks. *)
Definition quiet (f : world → world) : Prop :=
  ∀ w, w_snap (f w) = w_snap w ∧ w_db (f w) = w_db w ∧ w_media (f w) = w_media w ∧
       w_tasks (f w) = w_tasks w ∧
       ∀ sid s', w_storages (f w) !! sid = Some s' →
         ∃ s, w_storages w !! sid = Some s ∧ st_directory_path s' = st_directory_path s.

Lemma at_destination_mono st st' md it :
  (∀ sid s', st' !! sid = Some s' →
     ∃ s, st !! sid = Some s ∧ st_directory_path s' = st_directory_path s) →
  at_destination st md it → at_destination st' md it.
Proof.
  unfold at_destination. intros H Ha. destruct (_is_media it); [done|].
  intros s' (s & Hs & ->)%H. auto.
Qed.

Lemma row_ok_mono st st' md it :
  (∀ sid s', st' !! sid = Some s' →
     ∃ s, st !! sid = Some s ∧ st_directory_path s' = st_directory_path s) →
  row_ok st md it → row_ok st' md it.
Proof. intros H (? & ? & ?). split_and!; eauto using at_destination_mono. Qed.

Lemma Inv_quiet w f : quiet f → Inv w → Inv (f w).
Proof.
  intros Hq [Hs Hi Hd Hr Ht]. destruct (Hq w) as (E1 & E2 & E3 & E4 & E5).
  constructor; rewrite ?E1, ?E2, ?E3, ?E4; [done..| |done].
  eapply Forall_impl; [exact Hr|]. intros it. by apply row_ok_mono.
Qed.

Lemma hoare_modify P f (Q : unit → world → Prop) :
  quiet f → (∀ w, P w → Q tt (f w)) → hoare P (modify f) Q.
Proof. intros Hq HQ w Hw HP. split; [by apply Inv_quiet|]. intros [] ?. simpl. auto. Qed.

(** ** Handlers that keep the invariant from any state *)

Lemma row_ok_transfer st md it it' :
  it_storage_id it' = it_storage_id it → it_kind it' = it_kind it →
  it_src_path it' = it_src_path it → it_dst_path it' = it_dst_path it →
  it_dst_dir it' = it_dst_dir it →
  (it_state it' = it_state it ∧
     (it_verify_passed it' = it_verify_passed it ∨ it_verify_passed it' = true)
   ∨ it_state it' ≠ DB_UPDATED ∧ it_state it' ≠ RELEASED) →
  (it_dst_owned it' = it_dst_owned it ∨ it_dst_owned it' = false) →
  row_ok st md it → row_ok st md it'.
Proof.
  unfold row_ok, at_destination, item_in_place, _is_media.
  intros -> -> -> -> -> Hst Ho (H1 & H2 & H3). split_and!.
  - destruct Hst as [[-> [->| ->]]|?]; naive_solver.
  - destruct Hst as [[-> _]|?]; naive_solver.
  - destruct Ho as [->| ->]; auto.
Qed.

Ltac solve_transfer :=
  apply row_ok_transfer; try reflexivity;
  first [left; split; [reflexivity|first [left; reflexivity|right; reflexivity]]
        |right; split; (discriminate || assumption)
        |left; reflexivity|right; reflexivity].

Notation safe m := (hoare (λ _, True) m (λ _ _, True)).

Lemma safe_any {A} P (m : M A) : safe m → hoare P m (λ _ _, True).
Proof. intros H. by apply (hoare_conseq _ _ _ _ _ H). Qed.

Lemma safe_bind {A B} (m : M A) (k : A → M B) : safe m → (∀ a, safe (k a)) → safe (m ≫= k).
Proof. intros Hm Hk. eapply hoare_bind; [exact Hm|]. intros a. apply safe_any, Hk. Qed.

Lemma safe_row id : safe (row id).
Proof. by apply hoare_row. Qed.

Lemma safe_for_each {A} (l : list A) body :
  (∀ x, x ∈ l → safe (body x)) → safe (for_each l body).
Proof. intros H. apply hoare_for_each, H. Qed.

Lemma safe_set E id f :
  keeps_key f →
  (∀ st md it, row_ok st md it → row_ok st md (f it)) → safe (_set E id f).
Proof. intros Hk Hf. apply hoare_set; eauto. Qed.

Lemma quiet_domains f : quiet (λ w, w {{ w_domains := f w }}).
Proof. intros w. split_and!; eauto. Qed.

Lemma quiet_status sid f :
  (∀ s, st_directory_path (f s) = st_directory_path s) →
  quiet (λ w, w {{ w_storages := alter f sid (w_storages w) }}).
Proof.
  intros Hf w. split_and!; try done. intros sid' s' H. cbn in H. unfold constant in H.
  destruct (decide (sid = sid')) as [->|Hne].
  - rewrite lookup_alter in H. rewrite decide_True in H by done.
    destruct (w_storages w !! sid') as [s|]; simplify_eq/=. eauto.
  - rewrite lookup_alter_ne in H by done. eauto.
Qed.

#[export] Hint Resolve safe_bind safe_row safe_for_each hoare_raise quiet_domains : isard.

Ltac safe_step :=
  lazymatch goal with
  | |- hoare _ (mbind _ _) _ => apply safe_bind; [|intros ?]
  | |- hoare _ (mret _) _ => by apply hoare_ret
  | |- hoare _ (row _) _ => apply safe_row
  | |- hoare _ (gets _) _ => by apply hoare_gets
  | |- hoare _ (lift _) _ => by apply hoare_lift
  | |- hoare _ (raise _) _ => apply hoare_raise
  | |- hoare _ (for_each _ _) _ => apply safe_for_each; intros ? ?
  | |- hoare _ (_set _ _ _) _ =>
      apply safe_set; [intros ?; split; reflexivity|intros ???; solve_transfer]
  | |- hoare _ (update_domain _ _) _ => apply hoare_modify; [intros ?; split_and!; eauto|done]
  | |- hoare _ (update_storage _ _) _ =>
      apply hoare_modify; [apply quiet_status; reflexivity|done]
  | |- hoare _ (modify _) _ => apply hoare_modify; [intros ?; split_and!; eauto|done]
  | |- hoare _ (match ?x with _ => _ end) _ => destruct x eqn:?
  end.

Ltac safe_solve := repeat first [done | progress auto with isard | safe_step].

(** The conditions a won claim has checked. *)
Ltac claim_conds Hc :=
  cbn [forallb] in Hc; simp_bool;
  repeat match goal with Hs : in_state _ _ = true |- _ => apply in_state_spec in Hs end.

Section handlers.
Context (E : env).

Lemma hoare_audit P id result Q :
  (∀ w w' record, Inv w → P w → w_db w' = update_row id (add_audit record) (w_db w) →
     w_storages w' = w_storages w → Q tt w') →
  hoare P (_audit E id result) Q.
Proof.
  intros HQ w Hw HP. destruct (find_row id (w_snap w)) as [it|] eqn:Er.
  - destruct (audit_effect E id result w it Er) as (rec & w' & -> & ? & ? & ? & ? & ? & _). split.
    + eapply (Inv_update w _ id (add_audit rec)); try done.
    + intros [] _. eapply HQ; eauto.
  - unfold _audit, row, mbind, M_bind. rewrite Er. by split.
Qed.

Lemma safe_audit id result : safe (_audit E id result).
Proof. by apply hoare_audit. Qed.

Lemma safe_claim_storage_task id t : safe (_claim_storage_task id t).
Proof. unfold _claim_storage_task. safe_solve. Qed.

Lemma safe_flag id a : safe (_flag id a).
Proof. unfold _flag. safe_solve. Qed.

Lemma safe_restore_domains id : safe (_restore_domains id).
Proof. unfold _restore_domains. safe_solve. Qed.

Lemma safe_restore_storage_status id : safe (_restore_storage_status id).
Proof. unfold _restore_storage_status. safe_solve; apply safe_restore_domains. Qed.

Lemma safe_park_domains id : safe (_park_domains E id).
Proof. unfold _park_domains. safe_solve. Qed.

(** A new task keeps the invariant when it is in order at that moment. *)
Lemma hoare_enqueue P name queue kwargs timeout Q :
  (∀ w t, Inv w → P w → tk_kwargs t = kwargs →
     task_ok (mkEnqueued t (w_db w) (w_storages w) (w_media w))) →
  (∀ t w w', Inv w → P w → w_db w' = w_db w → Q t w') →
  hoare P (_enqueue E name queue kwargs timeout) Q.
Proof.
  intros Hok HQ w Hw HP. unfold _enqueue. destruct (e_enqueue_fails E name); [by split|].
  split; [|intros t [= <-]; by eapply HQ].
  pose proof Hw as [Hs Hi Hd Hr Ht]. constructor; [done..|]. cbn. unfold constant.
  apply Forall_app. split; [done|]. apply Forall_singleton. by apply (Hok w).
Qed.

Lemma safe_enqueue name queue kwargs timeout :
  match kwargs with PreflightArgs _ | VerifyArgs _ _ _ _ | RepairArgs _ _ => True | _ => False end →
  safe (_enqueue E name queue kwargs timeout).
Proof. intros H. apply hoare_enqueue; [|done]. intros w t _ _ Et. unfold task_ok. simpl. rewrite Et.
  by destruct kwargs. Qed.

Lemma find_row_state w id it :
  Inv w → find_row id (w_db w) = Some it → it ∈ w_db w ∧ row_ok (w_storages w) (w_media w) it.
Proof.
  intros Hw [Hin _]%find_row_elem. split; [done|].
  pose proof (inv_rows _ Hw) as Hr. rewrite Forall_forall in Hr. auto.
Qed.

Lemma safe_retain_destination id p : safe (retain_destination E id p).
Proof. unfold retain_destination. safe_solve. Qed.

Lemma safe_discard_destination id : safe (_discard_destination E id).
Proof.
  unfold _discard_destination.
  eapply hoare_bind; [apply (hoare_row _ _ (λ it w, find_row id (w_db w) = Some it)); auto|].
  intros it.
  destruct (state_in (it_state it) _COPIED_UNCOMMITTED) eqn:Es; cbn [negb]; [|by apply hoare_ret].
  destruct (opt_truthy (it_dst_path it)); cbn [negb]; [|by apply hoare_ret].
  destruct (it_dst_owned it) eqn:Eo; cbn [negb]; [|apply safe_any, safe_retain_destination].
  eapply hoare_bind; [apply (hoare_gets _ _ (λ b w, find_row id (w_db w) = Some it ∧
    b = _row_at_destination (w_storages w) (w_media w) it)); auto|].
  intros [|]; [by apply hoare_ret|]. destruct (_source_action E) as [action reason].
  eapply hoare_bind; [by apply (hoare_lift _ _ (λ _ w, find_row id (w_db w) = Some it ∧
    false = _row_at_destination (w_storages w) (w_media w) it))|].
  intros queue. case_match; [apply safe_any, safe_retain_destination|].
  eapply hoare_bind; [apply (hoare_enqueue _ _ _ _ _ (λ _ _, True)); [|done]|].
  - intros w t Hw [Hf Hd] Et. unfold task_ok. simpl. rewrite Et.
    destruct (find_row_state _ _ _ Hw Hf) as [Hin (_ & _ & Hp)].
    exists it. split; [done|]. right. apply state_in_spec in Es.
    split_and!; try done. apply not_true_is_false. intros ?%Hp. congruence.
  - intros t. safe_solve.
Qed.

#[local] Hint Resolve safe_audit safe_claim_storage_task safe_flag safe_restore_storage_status
  safe_park_domains safe_retain_destination safe_discard_destination : isard.

Lemma safe_skip_tree ids state reason :
  state ≠ DB_UPDATED → state ≠ RELEASED → safe (_skip_tree E ids state reason).
Proof. intros. unfold _skip_tree. safe_solve. Qed.

Lemma safe_cancel_skip_tree ids reason : safe (_cancel_skip_tree E ids reason).
Proof. unfold _cancel_skip_tree. safe_solve. Qed.

Lemma safe_mark_damaged id reason : safe (_mark_damaged E id reason).
Proof. unfold _mark_damaged. safe_solve. Qed.

Lemma plan_tree_failure_states tree sid reason it s why :
  (it, s, why) ∈ plan_tree_failure tree sid reason → s = FAILED ∨ s = SKIPPED.
Proof.
  unfold plan_tree_failure. rewrite list_elem_of_In, in_flat_map. intros (x & _ & H).
  repeat case_match; simpl in H; naive_solver.
Qed.

Lemma safe_terminalize_disk trigger damage it s why :
  s = FAILED ∨ s = SKIPPED → safe (terminalize_disk E trigger damage (it, s, why)).
Proof.
  intros Hs. assert (s ≠ DB_UPDATED ∧ s ≠ RELEASED) as [? ?] by naive_solver.
  unfold terminalize_disk, mark_if_damaged. safe_solve; apply safe_mark_damaged.
Qed.

Lemma safe_terminalize id given : safe (_terminalize_tree_failure E id given).
Proof.
  unfold _terminalize_tree_failure, mark_if_damaged. safe_solve; try apply safe_mark_damaged.
  destruct x as [[it s] why]. apply safe_terminalize_disk. by eapply plan_tree_failure_states.
Qed.
#[local] Hint Resolve safe_terminalize : isard.

(** The counter of abandonments, kept in step on the document and the dict. *)
Definition bump_abandon (r : item) : item := r {{ it_abandon_restarts := (it_abandon_restarts r + 1)%Z }}.

Lemma incr_abandon_run id rows :
  incr_abandon_restarts id rows =
  (it_abandon_restarts <$> (bump_abandon <$> find_row id rows), update_row id bump_abandon rows).
Proof.
  unfold incr_abandon_restarts. rewrite <-find_row_update by reflexivity. reflexivity.
Qed.

Definition abandon_world (id : string) (it : item) (w : world) : world :=
  (w {{ w_db := update_row id bump_abandon (w_db w) }}) {{ w_snap :=
    update_row id (λ r, r {{ it_abandon_restarts := (it_abandon_restarts it + 1)%Z }}) (w_snap w) }}.

Lemma abandon_run id w :
  _abandon_resume_blocked E id w =
  match find_row id (w_db w) with
  | None => (Ok true, w {{ w_db := update_row id bump_abandon (w_db w) }})
  | Some it =>
      if (MAX_ABANDON_RESTARTS <? it_abandon_restarts it + 1)%Z
      then (_ ← _terminalize_tree_failure E id None; mret true) (abandon_world id it w)
      else (Ok false, abandon_world id it w)
  end.
Proof.
  unfold _abandon_resume_blocked. unfold mbind at 1, M_bind at 1. rewrite incr_abandon_run.
  destruct (find_row id (w_db w)) as [it|]; [|reflexivity].
  cbn [fmap option_fmap option_map]. unfold mbind at 1, M_bind at 1, set_dict, modify.
  change (it_abandon_restarts (bump_abandon it)) with (it_abandon_restarts it + 1)%Z.
  destruct (MAX_ABANDON_RESTARTS <? it_abandon_restarts it + 1)%Z; reflexivity.
Qed.

Lemma abandon_world_rows id it w :
  Inv w → find_row id (w_db w) = Some it →
  w_snap (abandon_world id it w) = update_row id bump_abandon (w_snap w) ∧
  w_db (abandon_world id it w) = update_row id bump_abandon (w_db w).
Proof.
  intros Hw Er. split; [|reflexivity]. unfold abandon_world. cbn [w_snap].
  change (update_row id (λ r, r {{ it_abandon_restarts := (it_abandon_restarts it + 1)%Z }})
    (w_snap w) = update_row id bump_abandon (w_snap w)).
  rewrite (inv_sync _ Hw). apply update_row_ext. intros x Hx <-.
  rewrite (find_row_unique _ _ (inv_ids _ Hw) Hx) in Er. by simplify_eq.
Qed.

Lemma update_row_absent id f rows :
  NoDup (it_id <$> rows) → find_row id rows = None → update_row id f rows = rows.
Proof.
  intros Hnd Er. unfold update_row. rewrite <-(list_fmap_id rows) at 2. apply list_fmap_ext.
  intros i x Hx. simpl. destruct (String.eqb_spec (it_id x) id) as [<-|]; [|done].
  rewrite (find_row_unique _ x Hnd) in Er; [done|]. by eapply list_elem_of_lookup_2.
Qed.

(** Bumping the counter keeps whatever a ledger assertion says that is stable
    under it; a [true] answer promises nothing more. *)
Lemma hoare_abandon id (P : world → Prop) :
  (∀ w w', P w → w_db w' = update_row id bump_abandon (w_db w) → P w') →
  hoare P (_abandon_resume_blocked E id) (λ stop w, stop = false → P w).
Proof.
  intros HP w Hw Hp. rewrite abandon_run.
  destruct (find_row id (w_db w)) as [it|] eqn:Er.
  - destruct (abandon_world_rows id it w Hw Er) as [E1 E2].
    assert (Inv (abandon_world id it w)) as HI.
    { eapply (Inv_update w _ id bump_abandon); try done. }
    destruct (MAX_ABANDON_RESTARTS <? _)%Z.
    + destruct (safe_terminalize id None _ HI I) as [Ht _].
      unfold mbind, M_bind. destruct (_terminalize_tree_failure _ _ _ _) as [[?|?] ?]; simpl in *;
        (split; [done|]); intros ? [=]; subst; done.
    + split; [done|]. intros ? [= <-] _. simpl. by eapply HP.
  - split; [|intros ? [= <-]; done]. simpl.
    eapply (Inv_update w _ id bump_abandon); try done.
    change (w_snap w = update_row id bump_abandon (w_snap w)).
    rewrite (inv_sync _ Hw). symmetry. apply update_row_absent; [apply Hw|done].
Qed.

Lemma hoare_resume_blocked id observed (P : world → Prop) :
  (∀ w w', P w → w_db w' = update_row id bump_abandon (w_db w) → P w') →
  hoare P (resume_blocked E id observed) (λ stop w, stop = false → P w).
Proof.
  intros H. unfold resume_blocked. case_match; [by apply hoare_abandon|by apply hoare_ret].
Qed.

(** ** Claims *)
(** The row a claim addresses, when its conditions hold. *)
Definition claimable (when : list (item → bool)) (id : string) (rows : list item) : option item :=
  match find_row id rows with
  | Some it => if forallb (λ c, c it) when then Some it else None
  | None => None
  end.

Lemma claim_eq when g id rows :
  NoDup (it_id <$> rows) → when ≠ [] →
  claim when g id rows =
  Ok (match claimable when id rows with
      | Some _ => (true, update_row id g rows)
      | None => (false, rows)
      end).
Proof.
  intros Hnd Hwhen. unfold claim. destruct when as [|c cs]; [done|]. unfold claimable.
  set (ok := λ it, forallb (λ c, c it) (c :: cs)).
  assert (∀ x, x ∈ rows → it_id x = id → find_row id rows = Some x) as Hu.
  { intros x Hx <-. by apply find_row_unique. }
  assert (∀ x, x ∈ rows → ((it_id x =? id)%string && ok x = true ↔
    it_id x = id ∧ claimable (c :: cs) id rows = Some x)) as Hx.
  { intros x Hx. unfold claimable. destruct (String.eqb_spec (it_id x) id) as [Ei|]; [|naive_solver].
    rewrite (Hu x Hx Ei). fold (ok x). destruct (ok x); naive_solver. }
  fold (claimable (c :: cs) id rows). f_equal. f_equal.
  destruct (claimable (c :: cs) id rows) as [it|] eqn:Ec.
  - assert (find_row id rows = Some it) as Er.
    { revert Ec. unfold claimable. repeat case_match; congruence. }
    destruct (find_row_elem _ _ _ Er) as [Hin Hid]. f_equal.
    + apply existsb_exists. exists it. rewrite <-list_elem_of_In. split; [done|]. by apply Hx.
    + apply list_fmap_ext. intros i x Hi%list_elem_of_lookup_2.
      destruct (String.eqb_spec (it_id x) id) as [Ei|]; [|done].
      specialize (Hu x Hi Ei). assert (x = it) as -> by congruence.
      assert (ok it = true) as Eo by (revert Ec; unfold claimable; rewrite Er; fold (ok it);
        by destruct (ok it)).
      unfold ok in Eo. by rewrite Eo.
  - f_equal.
    + apply existsb_false_Forall, Forall_forall. intros x Hi.
      apply not_true_is_false. intros H%Hx; [naive_solver|done].
    + rewrite <-(list_fmap_id rows) at 2. apply list_fmap_ext. intros i x Hi%list_elem_of_lookup_2.
      case_match eqn:Eb; [|done]. apply Hx in Eb; [naive_solver|done].
Qed.

(** The world of a won claim, before the winner continues. *)
Definition claimed (P : world → Prop) (when : list (item → bool)) (g : item → item) (id : string)
    (w' : world) : Prop :=
  ∃ w it, Inv w ∧ P w ∧ find_row id (w_db w) = Some it ∧ forallb (λ c, c it) when = true ∧
    w_db w' = update_row id g (w_db w) ∧ w_storages w' = w_storages w ∧ w_media w' = w_media w.

Lemma hoare_claim P when g h id (k0 k : M unit) :
  when ≠ [] → keeps_key g →
  (∀ it, forallb (λ c, c it) when = true → h it = g it) →
  (∀ w it, Inv w → P w → find_row id (w_db w) = Some it → forallb (λ c, c it) when = true →
     row_ok (w_storages w) (w_media w) it → row_ok (w_storages w) (w_media w) (g it)) →
  (∀ w, k0 w = k (w {{ w_snap := update_row id h (w_snap w) }})) →
  hoare (claimed P when g id) k (λ _ _, True) →
  hoare P (claim_row when g id ≫= λ won, if negb won then mret tt else k0) (λ _ _, True).
Proof.
  intros Hwhen Hkey Hh Hok Hk0 Hk w Hw HP.
  unfold mbind at 1 2, M_bind at 1 2, claim_row.
  rewrite (claim_eq _ _ _ _ (inv_ids _ Hw) Hwhen).
  destruct (claimable when id (w_db w)) as [it|] eqn:Ec.
  - assert (find_row id (w_db w) = Some it ∧ forallb (λ c, c it) when = true) as [Er Ew].
    { revert Ec. unfold claimable. repeat case_match; naive_solver. }
    cbn [negb]. rewrite Hk0.
    assert (update_row id h (w_snap w) = update_row id g (w_snap w)) as Ehg.
    { rewrite (inv_sync _ Hw). apply update_row_ext. intros x Hx <-. apply Hh.
      rewrite (find_row_unique _ _ (inv_ids _ Hw) Hx) in Er. by simplify_eq. }
    apply Hk.
    + eapply (Inv_update w _ id g); try done. intros it' Er'. simplify_eq. eauto.
    + exists w, it. split_and!; done.
  - cbn [negb]. split; [|done].
    apply (Inv_quiet w (λ w, w {{ w_db := w_db w }})); [|exact Hw]. intros w'. split_and!; eauto.
Qed.

Lemma hoare_fresh prefix P Q :
  (∀ s w w', P w → w_db w' = w_db w → w_storages w' = w_storages w → Q s w') →
  hoare P (fresh prefix) Q.
Proof.
  intros H w Hw HP. split; [|intros s [= <-]; by eapply H].
  apply (Inv_quiet w (λ w, w {{ w_next_id := N.succ (w_next_id w) }})); [|done].
  intros ?; split_and!; eauto.
Qed.

(** ** Handlers that need no precondition *)
Lemma safe_defer_for_space id reason : safe (_defer_for_space E id reason).
Proof. unfold _defer_for_space. safe_solve. Qed.

Lemma safe_skip_repair id : safe (_skip_repair_has_descendants E id).
Proof. unfold _skip_repair_has_descendants. safe_solve. Qed.

Lemma safe_try_repair id what : safe (_try_repair E id what).
Proof. unfold _try_repair. safe_solve. by apply safe_enqueue. Qed.
#[local] Hint Resolve safe_defer_for_space safe_skip_repair safe_try_repair : isard.

Lemma safe_fail id : safe (_fail E id).
Proof. unfold _fail. safe_solve. Qed.

Lemma safe_gate_tree tree_id : safe (_gate_tree E tree_id).
Proof. unfold _gate_tree. safe_solve; by apply safe_skip_tree. Qed.

Lemma safe_resume_blocked id observed : safe (resume_blocked E id observed).
Proof.
  eapply hoare_conseq; [by apply (hoare_resume_blocked id observed (λ _, True))|done|done].
Qed.

Lemma safe_claim when g h id (k : unit → M unit) :
  when ≠ [] → keeps_key g → (∀ it, h it = g it) →
  (∀ st md it, row_ok st md it → row_ok st md (g it)) → (∀ u, safe (k u)) →
  safe (claim_row when g id ≫= λ won, if negb won then mret tt else set_dict id h ≫= k).
Proof. intros. apply (hoare_claim _ _ _ h _ _ (k tt)); auto using safe_any. Qed.

Lemma safe_start_preflight id : safe (_start_preflight E id).
Proof.
  unfold _start_preflight. safe_step; [safe_step|]. safe_step; [safe_step|].
  safe_step; [safe_step|]. safe_step; [by apply hoare_fresh|].
  apply safe_claim; [done|done|done|intros ???; solve_transfer|]. intros _.
  safe_step; [apply safe_resume_blocked|]. safe_step; [safe_step|].
  safe_step; [by apply safe_enqueue|]. safe_solve.
Qed.

Lemma safe_start_verify id : safe (_start_verify E id).
Proof.
  unfold _start_verify. safe_step; [safe_step|]. safe_step; [safe_step|].
  safe_step; [safe_step|]. safe_step; [by apply hoare_fresh|].
  apply safe_claim; [done|done|done|intros ???; solve_transfer|]. intros _.
  safe_step; [apply safe_resume_blocked|]. safe_step; [safe_step|].
  safe_step; [by apply safe_enqueue|]. safe_solve.
Qed.

Lemma safe_destination_exists id : safe (_destination_exists E id).
Proof. unfold _destination_exists. safe_solve. Qed.

Lemma safe_mark_moved id : safe (_mark_moved E id).
Proof. unfold _mark_moved. safe_solve. Qed.

Lemma safe_skip_move id : safe (_skip_move E id).
Proof. unfold _skip_move. safe_solve. Qed.

Lemma safe_mark_rebased id : safe (_mark_rebased E id).
Proof. unfold _mark_rebased. safe_solve. Qed.

Lemma safe_flag_leaks id : safe (_flag_leaks E id).
Proof. unfold _flag_leaks. safe_solve. Qed.

Lemma safe_mark_verified id : safe (_mark_verified E id).
Proof. unfold _mark_verified. safe_solve. apply safe_flag_leaks. Qed.

Lemma safe_mark_repaired id : safe (_mark_repaired E id).
Proof. unfold _mark_repaired. safe_solve. Qed.

Lemma safe_rearm_item id n : safe (_rearm_item E id n).
Proof. unfold _rearm_item. safe_solve. Qed.

(** ** Handlers that rely on what the saga decided *)

(** The disk is in state [st], its paths are known, and the disks above it are
    copied. *)
Definition staged (id : string) (st : MigrationItemState) (src dst : option string) (w : world) : Prop :=
  NoDup (it_id <$> w_db w) ∧
  ∃ it, find_row id (w_db w) = Some it ∧ it_state it = st ∧ it_src_path it = src ∧
        it_dst_path it = dst ∧ ancestors_settled (w_db w) it.

(** An update that keeps what [staged] reads, the state apart. *)
Definition keeps_place (f : item → item) : Prop :=
  ∀ it, it_id (f it) = it_id it ∧ it_tree_id (f it) = it_tree_id it ∧
        it_topo_index (f it) = it_topo_index it ∧ it_src_path (f it) = it_src_path it ∧
        it_dst_path (f it) = it_dst_path it.

Lemma ancestors_update id f rows it :
  NoDup (it_id <$> rows) → keeps_place f → find_row id rows = Some it →
  ancestors_settled rows it → ancestors_settled (update_row id f rows) (f it).
Proof.
  intros Hnd Hf Er Ha x (y & Hy & ->)%elem_of_update_row.
  destruct (Hf it) as (_ & -> & -> & _). destruct (String.eqb_spec (it_id y) id) as [<-|].
  - rewrite (find_row_unique _ _ Hnd Hy) in Er. simplify_eq. destruct (Hf it) as (_ & _ & -> & _). lia.
  - by apply Ha.
Qed.

Lemma staged_update id f st st' src dst w w' :
  keeps_place f → (∀ it, it_state it = st → it_state (f it) = st') →
  staged id st src dst w → w_db w' = update_row id f (w_db w) → staged id st' src dst w'.
Proof.
  intros Hf Hs (Hnd & it & Er & ? & <- & <- & Ha) Edb. unfold staged. rewrite Edb. split.
  - rewrite fmap_update_row; [done|]. intros. apply Hf.
  - exists (f it). rewrite find_row_update, Er by (intros; apply Hf).
    destruct (Hf it) as (_ & _ & _ & -> & ->). split_and!; auto using ancestors_update.
Qed.

Lemma staged_same id st src dst w w' :
  staged id st src dst w → w_db w' = w_db w → staged id st src dst w'.
Proof. unfold staged. by intros ? ->. Qed.

Lemma hoare_park id st src dst :
  hoare (staged id st src dst) (_park_domains E id) (λ _, staged id st src dst).
Proof.
  unfold _park_domains.
  eapply hoare_bind; [by apply (hoare_row _ _ (λ _, staged id st src dst))|]. intros it.
  case_match; [by apply hoare_ret|]. case_match; [by apply hoare_ret|].
  eapply hoare_bind; [by apply (hoare_gets _ _ (λ _, staged id st src dst))|]. intros parked.
  eapply hoare_bind.
  - apply (hoare_set _ _ _ _ (λ _, staged id st src dst)); [done|intros ???? ; solve_transfer|].
    intros w w' _ Hs Edb _ _ _. by eapply staged_update; [| |exact Hs|exact Edb].
  - intros ?. apply hoare_for_each. intros d _. apply hoare_modify.
    + intros w. split_and!; eauto.
    + intros w Hs. by eapply staged_same.
Qed.

Lemma hoare_prepare id src dst :
  hoare (staged id MOVING src dst) (_prepare_disk_for_move E id)
    (λ ready w, ready = true → staged id MOVING src dst w).
Proof.
  unfold _prepare_disk_for_move. set (P := staged id MOVING src dst).
  eapply hoare_bind; [by apply (hoare_row _ _ (λ _, P))|]. intros it.
  eapply (hoare_bind _ _ _ (λ ready w, ready = true → P w)).
  - destruct (it_storage_orig_status it); [by apply hoare_ret|].
    eapply hoare_bind; [by apply (hoare_gets _ _ (λ _, P))|]. intros cur. case_match.
    + eapply hoare_bind; [apply (hoare_set _ _ _ _ (λ _, P)); [done|intros ????; solve_transfer|]|].
      * intros w w' _ Hs Edb _ _ _. by eapply staged_update; [| |exact Hs|exact Edb].
      * intros ?. by apply hoare_ret.
    + eapply hoare_bind; [apply (hoare_set _ _ _ _ (λ _ _, True)); [done|intros ????; solve_transfer|done]|].
      intros ?. eapply hoare_bind; [apply safe_fail|]. intros ?. by apply hoare_ret.
  - intros [|]; cbn [negb]; [|by apply hoare_ret].
    eapply (hoare_bind _ _ _ (λ _, P)).
    + apply hoare_modify; [by apply quiet_status|]. intros w Hs.
      eapply staged_same; [by apply Hs|done].
    + intros ?. eapply hoare_bind; [apply hoare_park|]. intros ?. by apply hoare_ret.
Qed.

(** What the saga guarantees when it decides to start a move. *)
Definition movable (id : string) (w : world) : Prop :=
  NoDup (it_id <$> w_db w) ∧
  ∃ it, find_row id (w_db w) = Some it ∧ ancestors_settled (w_db w) it ∧
        (it_state it = PENDING → item_in_place it = false).

Lemma claimed_staged when g id (P : world → Prop) st src dst w :
  claimed P when g id w → keeps_place g →
  (∀ it, forallb (λ c, c it) when = true → it_state (g it) = st) →
  (∀ w, P w → ∃ it, find_row id (w_db w) = Some it ∧ ancestors_settled (w_db w) it ∧
                    it_src_path it = src ∧ it_dst_path it = dst) →
  staged id st src dst w.
Proof.
  intros (w0 & it & Hw0 & HP & Er & Ew & Edb & _ & _) Hg Hst Hpre.
  destruct (Hpre w0 HP) as (it' & Er' & Ha & <- & <-). simplify_eq.
  split; [rewrite Edb, fmap_update_row; [apply Hw0|]; intros; apply Hg|].
  exists (g it). rewrite Edb, find_row_update, Er by (intros; apply Hg).
  destruct (Hg it) as (_ & _ & _ & -> & ->).
  split_and!; auto using ancestors_update, inv_ids.
Qed.

Lemma hoare_move_task id src dst bw trust minf queue timeout :
  hoare (staged id MOVING src dst)
    (_enqueue E "move" queue (MoveArgs src dst bw false trust minf) timeout) (λ _ _, True).
Proof.
  apply hoare_enqueue; [|done]. intros w t Hw (Hnd & it & Er & Est & Esrc & Edst & Ha) Et.
  unfold task_ok. simpl. rewrite Et. split; [done|]. exists it.
  apply find_row_elem in Er as [Hin _]. done.
Qed.

(** The rest of a move once its slot is reserved. *)
Lemma hoare_move_rest id it observed :
  hoare (staged id MOVING (it_src_path it) (it_dst_path it))
    (stop ← resume_blocked E id observed;
     if stop : bool then mret tt
     else
       ready ← (if _is_media it then mret true else _prepare_disk_for_move E id);
       if negb ready then mret tt
       else
         queue ← lift (_move_queue E (it_src_path it));
         if negb (e_lane_is_drainable E queue) then mret tt
         else
           task_id ← _enqueue E "move" queue
             (MoveArgs (it_src_path it) (it_dst_path it) (c_bwlimit_kbs (e_config E)) false
                (negb (it_recopy it)) (c_min_free_bytes (e_config E))) (Some RSYNC_TIMEOUT);
           _ ← _claim_storage_task id task_id;
           _set E id (λ r, r {{ it_state := MOVING; it_move_task_id := Some task_id;
                                it_move_started_at := Some (e_now E) }})) (λ _ _, True).
Proof.
  set (P := staged id MOVING (it_src_path it) (it_dst_path it)).
  eapply hoare_bind; [apply (hoare_resume_blocked id observed P)|].
  { intros w w' Hs Edb. by eapply staged_update; [| |exact Hs|exact Edb]. }
  intros [|]; [by apply hoare_ret|].
  eapply (hoare_bind _ _ _ (λ ready w, ready = true → P w)).
  { case_match; [apply hoare_ret; auto|]. 
    eapply hoare_conseq; [apply hoare_prepare|intros w Hp; by apply Hp|intros r w Hp; exact Hp]. }
  intros [|]; cbn [negb]; [|by apply hoare_ret].
  eapply hoare_bind; [by apply (hoare_lift _ _ (λ _ w, P w)); auto|]. intros queue.
  case_match; [by apply hoare_ret|].
  eapply hoare_bind; [apply hoare_move_task|]. intros t. safe_solve.
Qed.

Lemma hoare_start_move id : hoare (movable id) (_start_move E id) (λ _ _, True).
Proof.
  unfold _start_move.
  eapply hoare_bind; [apply (hoare_row _ _ (λ it w, movable id w ∧ find_row id (w_db w) = Some it)); auto|].
  intros it. set (P := λ w, movable id w ∧ find_row id (w_db w) = Some it).
  eapply (hoare_bind _ _ _ (λ _, P)).
  { apply hoare_fresh. unfold P, movable. intros ? w w' H Edb _. by rewrite Edb. }
  intros fence.
  assert (∀ w, P w → ∃ it', find_row id (w_db w) = Some it' ∧ ancestors_settled (w_db w) it' ∧
    it_src_path it' = it_src_path it ∧ it_dst_path it' = it_dst_path it) as HP.
  { intros w [(_ & it' & Er & Ha & _) Er']. simplify_eq. eauto. }
  unfold claim_move. destruct (it_move_task_id it) as [o|].
  - eapply (hoare_claim _ _ _ (λ r, r {{ it_state := MOVING; it_move_task_id := Some fence }}));
      [done|done| | |intros w; reflexivity|].
    + intros r Hr. claim_conds Hr. destruct r; simpl in *; by subst.
    + intros w r _ _ _ _. solve_transfer.
    + eapply hoare_conseq; [apply (hoare_move_rest id it (Some o))| |done].
      intros w Hc. eapply claimed_staged; [exact Hc|done| |exact HP].
      intros r Hr. by claim_conds Hr.
  - eapply (hoare_claim _ _ _ (λ r, r {{ it_state := MOVING; it_move_task_id := Some fence;
                                         it_dst_owned := true }}));
      [done|done|done| | |].
    + intros w r Hw [(_ & it' & Er & _ & Hp) _] Er' H _. simplify_eq.
      cbn [forallb] in H. simp_bool. apply in_state_spec, Hp in H.
      split_and!; [by intros [[=]|[=]]|by intros [=]|]. intros Hin.
      change (item_in_place it' = true) in Hin. congruence.
    + intros w. unfold opt_str_eqb. rewrite bool_decide_true by done.
      unfold mbind at 1 2, M_bind at 1 2, set_dict, modify. 
      change (w_snap (w {{ w_snap := ?x }})) with x. rewrite update_row_compose by done. reflexivity.
    + eapply hoare_conseq; [apply (hoare_move_rest id it None)| |done].
      intros w Hc. eapply claimed_staged; [exact Hc|done|done|exact HP].
Qed.

Lemma hoare_start_rebase id src dst :
  hoare (staged id MOVED src dst) (_start_rebase E id) (λ _ _, True).
Proof.
  unfold _start_rebase.
  eapply hoare_bind; [apply (hoare_row _ _
    (λ it w, staged id MOVED src dst w ∧ it_src_path it = src ∧ it_dst_path it = dst))|].
  { intros it w _ Hs Er. split; [done|]. destruct Hs as (_ & it' & ? & _ & ? & ? & _). by simplify_eq. }
  intros it. set (P := λ w, staged id MOVED src dst w ∧ it_src_path it = src ∧ it_dst_path it = dst).
  eapply (hoare_bind _ _ _ (λ _, P)); [by apply hoare_lift|]. intros queue.
  case_match; [by apply hoare_ret|].
  eapply (hoare_bind _ _ _ (λ _, P)).
  { apply hoare_fresh. intros ? w w' [Hs Hp] Edb _. split; [by eapply staged_same|done]. }
  intros fence.
  eapply (hoare_claim _ _ _ (λ r, r {{ it_rebase_task_id := Some fence }}));
    [done|done|done|intros w r _ _ _ _; solve_transfer|intros w; reflexivity|].
  eapply hoare_bind.
  { eapply hoare_conseq; [apply (hoare_resume_blocked id _ P)| |intros stop w Hp; exact Hp].
    - intros w w' [Hs Hp] Edb. split; [|done]. by eapply staged_update; [| |exact Hs|exact Edb].
    - intros w Hc. split; [|by destruct Hc as (? & ? & _ & [_ ?] & _)].
      eapply claimed_staged; [exact Hc|done| |].
      + intros r Hr. by claim_conds Hr.
      + intros w0 [(_ & it' & ? & _ & ? & ? & ?) _]. eauto. }
  intros [|]; [by apply hoare_ret|].
  eapply hoare_bind; [|intros t; safe_solve].
  apply hoare_enqueue; [|done]. intros w t Hw Hp Et.
  destruct (Hp eq_refl) as [(_ & it' & Er & Est & _ & Edst & Ha) [_ Edst']].
  unfold task_ok. simpl. rewrite Et. exists it'. apply find_row_elem in Er as [Hin _].
  split_and!; congruence || done.
Qed.

(** A handler that writes no ledger row keeps what the ledger says. *)
Lemma hoare_restore id (P : world → Prop) :
  (∀ w w', P w → w_db w' = w_db w → P w') →
  hoare P (_restore_storage_status id) (λ _, P).
Proof.
  intros HP. unfold _restore_storage_status, _restore_domains.
  eapply (hoare_bind _ _ _ (λ _, P)).
  - eapply (hoare_bind _ _ _ (λ _, P)); [by apply hoare_row|]. intros it. apply hoare_for_each.
    intros d _. apply hoare_modify; [intros w; split_and!; eauto|]. intros w Hp. by eapply HP.
  - intros _. eapply (hoare_bind _ _ _ (λ _, P)); [by apply hoare_row|]. intros it.
    case_match; [|by apply hoare_ret]. case_match; [by apply hoare_ret|].
    apply hoare_modify; [by apply quiet_status|]. intros w Hp. by eapply HP.
Qed.

Lemma row_at_destination_spec st md it :
  _row_at_destination st md it = true → at_destination st md it.
Proof.
  unfold _row_at_destination, at_destination, opt_str_eqb.
  destruct (_is_media it); case_match; try done; intros Hb%bool_decide_eq_true ? [=]; by subst.
Qed.

Definition in_row_state (id : string) (st : MigrationItemState) (w : world) : Prop :=
  ∃ it, find_row id (w_db w) = Some it ∧ it_state it = st.

Lemma hoare_reconcile id :
  hoare (in_row_state id PENDING) (_reconcile_regressed_pending E id) (λ _ _, True).
Proof.
  unfold _reconcile_regressed_pending.
  eapply hoare_bind; [apply (hoare_row _ _
    (λ it w, find_row id (w_db w) = Some it ∧ it_state it = PENDING))|].
  { intros it w _ (it' & ? & ?) ?. by simplify_eq. }
  intros it.
  eapply hoare_bind; [apply (hoare_gets _ _ (λ b w, (find_row id (w_db w) = Some it ∧
    it_state it = PENDING) ∧ b = _row_at_destination (w_storages w) (w_media w) it)); auto|].
  intros b. case_match eqn:Eb.
  { apply andb_true_iff in Eb as [Ev ->]. apply hoare_set; [done| |done].
    intros w r [[Er _] Hd] Er' (_ & _ & Hp). simplify_eq. symmetry in Hd.
    apply row_at_destination_spec in Hd. split_and!; [intros _; by right|by intros _|done]. }
  cbv zeta. generalize (if opt_truthy (it_move_task_id it) then e_job_status E (it_move_task_id it)
    else None) as move_status. intros move_status.
  destruct (_job_finished move_status); [apply safe_any; safe_solve|].
  destruct (negb _ && negb _); [apply safe_any; safe_solve|].
  eapply (hoare_bind _ _ _ (λ _ w, find_row id (w_db w) = Some it ∧ it_state it = PENDING)).
  { eapply hoare_conseq; [apply (hoare_restore id
      (λ w, find_row id (w_db w) = Some it ∧ it_state it = PENDING))|by intros w [? _]|done].
    intros w w' H' Edb. by rewrite Edb. }
  intros ?. apply hoare_set; [done| |done]. intros w r [Er Es] Er'.
  rewrite Er in Er'. injection Er' as <-.
  assert (∀ s, s ≠ PENDING → it_state it ≠ s) as Hne by congruence.
  apply row_ok_transfer; try reflexivity; [right|by right].
  split; [by apply (Hne DB_UPDATED)|by apply (Hne RELEASED)].
Qed.

(** ** Commit and release *)
Lemma sids_inj rows x y :
  NoDup (it_storage_id <$> rows) → x ∈ rows → y ∈ rows →
  it_storage_id x = it_storage_id y → x = y.
Proof.
  induction rows as [|z rows IH]; simpl; [set_solver|].
  intros [Hz Hnd]%NoDup_cons Hx Hy Exy. apply elem_of_cons in Hx, Hy.
  destruct Hx as [->|Hx], Hy as [->|Hy]; auto; exfalso; apply Hz.
  - rewrite Exy. by apply list_elem_of_fmap_2.
  - rewrite <-Exy. by apply list_elem_of_fmap_2.
Qed.

(** Re-pointing the row of one disk at its destination disturbs no other. *)
Lemma Inv_repoint w w' it :
  Inv w → it ∈ w_db w → at_destination (w_storages w') (w_media w') it →
  w_snap w' = w_snap w → w_db w' = w_db w → w_tasks w' = w_tasks w →
  (∀ sid, sid ≠ it_storage_id it → w_storages w' !! sid = w_storages w !! sid) →
  (∀ sid, sid ≠ it_storage_id it → w_media w' !! sid = w_media w !! sid) →
  Inv w'.
Proof.
  intros [Hs Hi Hd Hr Ht] Hin Hat E1 E2 E3 Est Emd.
  constructor; rewrite ?E1, ?E2, ?E3; [done..| |done].
  rewrite Forall_forall in Hr |- *. intros x Hx. destruct (Hr x Hx) as (H1 & H2 & H3).
  split_and!; [done| |done]. intros Hst.
  destruct (decide (it_storage_id x = it_storage_id it)) as [Ex|Ex].
  - by rewrite (sids_inj _ x it Hd Hx Hin Ex).
  - specialize (H2 Hst). unfold at_destination in *. rewrite Est, Emd by done. done.
Qed.

Definition committable (id : string) (w : world) : Prop :=
  ∃ it, find_row id (w_db w) = Some it ∧ (item_in_place it = true ∨ it_verify_passed it = true).

Lemma hoare_db_update id : hoare (committable id) (_db_update E id) (λ _ _, True).
Proof.
  unfold _db_update.
  eapply hoare_bind; [apply (hoare_row _ _ (λ it w, find_row id (w_db w) = Some it ∧
    (item_in_place it = true ∨ it_verify_passed it = true)))|].
  { intros it w _ (it' & ? & ?) ?. by simplify_eq. }
  intros it.
  eapply (hoare_bind _ _ _ (λ _ w, (find_row id (w_db w) = Some it ∧
    (item_in_place it = true ∨ it_verify_passed it = true)) ∧
    at_destination (w_storages w) (w_media w) it)).
  - intros w Hw [Er Hv]. destruct (find_row_elem _ _ _ Er) as [Hin _].
    enough (∃ w', repoint_row it w = (Ok tt, w') ∧
      at_destination (w_storages w') (w_media w') it ∧
      w_snap w' = w_snap w ∧ w_db w' = w_db w ∧ w_tasks w' = w_tasks w ∧
      (∀ sid, sid ≠ it_storage_id it → w_storages w' !! sid = w_storages w !! sid) ∧
      (∀ sid, sid ≠ it_storage_id it → w_media w' !! sid = w_media w !! sid))
      as (w' & -> & Hat & E1 & E2 & E3 & E4 & E5).
    { split; [by eapply Inv_repoint|]. intros [] _. cbn [snd]. rewrite E2. done. }
    unfold at_destination, repoint_row. destruct (_is_media it); eexists; (split; [reflexivity|]); split_and!;
      try reflexivity; try (intros sid Hne; by apply lookup_alter_ne).
    + intros p Hp. cbn in Hp. unfold constant in Hp. rewrite lookup_alter, decide_True in Hp by done.
      destruct (w_media w !! _); by simplify_eq/=.
    + intros p Hp. cbn in Hp. unfold constant in Hp. rewrite lookup_alter, decide_True in Hp by done.
      destruct (w_storages w !! _); simplify_eq/=. by case_match.
  - intros ?. apply hoare_set; [done| |done].
    intros w r [[Er Hv] Hat] Er' (_ & _ & Hp). rewrite Er in Er'. injection Er' as <-.
    split_and!; [by intros _|by intros _|done].
Qed.

Definition releasable (id : string) (w : world) : Prop :=
  ∃ it, find_row id (w_db w) = Some it ∧ it_state it = DB_UPDATED ∧ item_in_place it = false ∧
        tree_committed (w_db w) it.

Lemma row_ok_release st md it it' :
  row_ok st md it → it_state it = DB_UPDATED → it_state it' = RELEASED →
  item_in_place it' = item_in_place it → it_verify_passed it' = it_verify_passed it →
  it_dst_owned it' = it_dst_owned it → row_ok st md it'.
Proof.
  intros (H1 & _ & H3) Hs Hs' Hp Hv Ho. unfold row_ok. rewrite Hs', Hp, Hv, Ho.
  split_and!; [intros _; apply H1; by left|done|done].
Qed.

Lemma hoare_release_retaining id p :
  hoare (in_row_state id DB_UPDATED) (release_retaining E id p) (λ _ _, True).
Proof.
  unfold release_retaining. eapply hoare_bind; [|intros ?; apply safe_audit].
  apply hoare_set; [done| |done]. intros w r (it & Er & Es) Er' Hok. simplify_eq.
  by eapply row_ok_release.
Qed.

Lemma hoare_release id : hoare (releasable id) (_release E id) (λ _ _, True).
Proof.
  unfold _release.
  eapply (hoare_bind _ _ _ (λ _, releasable id)).
  { apply hoare_restore. intros w w' Hr Edb. unfold releasable. by rewrite Edb. }
  intros ?. eapply hoare_bind; [apply (hoare_row _ _ (λ it w, releasable id w ∧
    find_row id (w_db w) = Some it)); auto|].
  intros it. set (P := λ w, releasable id w ∧ find_row id (w_db w) = Some it).
  assert (∀ w, P w → in_row_state id DB_UPDATED w) as HP.
  { intros w [(it' & ? & ? & _) _]. by exists it'. }
  assert (∀ p, hoare P (release_retaining E id p) (λ _ _, True)) as Hret.
  { intros p. eapply hoare_conseq; [apply hoare_release_retaining|exact HP|done]. }
  case_match; [apply Hret|]. destruct (_source_action E) as [action reason].
  eapply (hoare_bind _ _ _ (λ _, P)); [by apply hoare_lift|]. intros queue.
  case_match; [apply Hret|].
  eapply (hoare_bind _ _ _ (λ _, in_row_state id DB_UPDATED)).
  - apply hoare_enqueue.
    + intros w t Hw [(it' & Er' & Es & Hp & Htc) Er] Et. rewrite Er' in Er. injection Er as <-.
      destruct (find_row_state _ _ _ Hw Er') as [Hin (H1 & H2 & _)].
      unfold task_ok. simpl. rewrite Et. exists it'. split; [done|]. left.
      split_and!; auto. destruct H1; [by left|congruence|done].
    + intros t w w' _ Hp Edb. destruct (HP w Hp) as (x & Hx & ?). exists x. by rewrite Edb.
  - intros t. eapply hoare_bind; [|intros ?; safe_solve].
    apply hoare_set; [done| |done]. intros w r (x & Er & Es) Er' Hok. simplify_eq.
    by eapply row_ok_release.
Qed.

Lemma hoare_skip_release id : hoare (in_row_state id DB_UPDATED) (_skip_release E id) (λ _ _, True).
Proof.
  unfold _skip_release. eapply hoare_bind; [|intros ?; safe_solve].
  apply hoare_set; [done| |done]. intros w r (x & Er & Es) Er' Hok. simplify_eq.
  by eapply row_ok_release.
Qed.

(** ** One step *)
Lemma elem_of_tree_rows x t rows : x ∈ tree_rows t rows ↔ x ∈ rows ∧ it_tree_id x = t.
Proof. unfold tree_rows. rewrite !list_elem_of_In, filter_In, String.eqb_eq. tauto. Qed.

Lemma ancestors_of_tree t rows it :
  it_tree_id it = t →
  (∀ x, x ∈ tree_rows t rows → (it_topo_index x < it_topo_index it)%Z → it_state x ∈ _PHASE_A_DONE) →
  ancestors_settled rows it.
Proof. intros <- H x Hx Ht. apply H, elem_of_tree_rows. done. Qed.

Lemma decide_start_move it jsf :
  decide_item_action it jsf = start_move → it_state it = PENDING → item_in_place it = false.
Proof.
  unfold decide_item_action. intros H Es. rewrite Es in H.
  destruct (opt_truthy (it_move_task_id it)); [done|]. by destruct (item_in_place it).
Qed.

Lemma decide_state it jsf a :
  decide_item_action it jsf = a →
  (a = start_rebase → it_state it = MOVED) ∧ (a = reconcile_pending → it_state it = PENDING).
Proof. unfold decide_item_action. intros <-. split; intros H; repeat case_match; done. Qed.

Lemma hoare_from_db {A} (db : list item) (P : world → Prop) (m : M A) Q :
  hoare P m Q → (∀ w, w_db w = db → P w) → hoare (λ w, w_db w = db) m Q.
Proof. intros H HP. eapply hoare_conseq; eauto. Qed.

Lemma hoare_action db t jsf it a handler :
  NoDup (it_id <$> db) → tree_next (tree_rows t db) jsf = (Some it, a) →
  _ACTIONS E a = Some handler →
  hoare (λ w, w_db w = db) (handler (it_id it)) (λ _ _, True).
Proof.
  intros Hnd Hn Ha.
  assert (∀ x, x ∈ tree_rows t db → find_row (it_id x) db = Some x ∧ it_tree_id x = t) as Hf.
  { intros x [Hx Ht]%elem_of_tree_rows. split; [by apply find_row_unique|done]. }
  destruct a; simplify_eq/=; try (apply safe_any; first
    [apply safe_start_preflight|apply safe_destination_exists|apply safe_skip_move|apply safe_mark_moved
    |apply safe_mark_rebased|apply safe_start_verify|apply safe_mark_verified|apply safe_mark_repaired
    |apply safe_terminalize|apply safe_fail]).
  - destruct (tree_next_phase_a _ _ _ _ Hn) as (Hin & Hd & _); [set_solver|].
    destruct (Hf _ Hin) as [Er _]. apply (hoare_from_db _ _ _ _ (hoare_reconcile _)).
    intros w Ew. unfold in_row_state, committable, releasable. rewrite Ew. exists it. split; [done|]. by eapply decide_state.
  - destruct (tree_next_phase_a _ _ _ _ Hn) as (Hin & Hd & Ha); [set_solver|].
    destruct (Hf _ Hin) as [Er Et]. apply (hoare_from_db _ _ _ _ (hoare_start_move _)).
    intros w Ew. unfold movable. rewrite Ew. split; [done|]. exists it.
    split_and!; eauto using ancestors_of_tree, decide_start_move.
  - destruct (tree_next_phase_a _ _ _ _ Hn) as (Hin & Hd & Ha); [set_solver|].
    destruct (Hf _ Hin) as [Er Et].
    apply (hoare_from_db _ _ _ _ (hoare_start_rebase _ (it_src_path it) (it_dst_path it))).
    intros w Ew. unfold staged. rewrite Ew. split; [done|]. exists it.
    split_and!; eauto using ancestors_of_tree. by eapply decide_state.
  - destruct (tree_next_phase_b _ _ _ _ Hn) as [_ Hb]; [set_solver|].
    apply phase_b_db_update in Hb as (Hin & Es & Hv). rewrite elem_of_py_sorted in Hin.
    destruct (Hf _ Hin) as [Er _]. apply (hoare_from_db _ _ _ _ (hoare_db_update _)).
    intros w Ew. unfold in_row_state, committable, releasable. rewrite Ew. exists it. split; [done|]. apply Hv; [by rewrite elem_of_py_sorted|done].
  - destruct (tree_next_phase_b _ _ _ _ Hn) as [Ho Hb]; [set_solver|].
    apply phase_b_release in Hb as (Hin & Es & Hp & _ & Hr); [|by left].
    rewrite elem_of_py_sorted in Hin. destruct (Hf _ Hin) as [Er Et].
    apply (hoare_from_db _ _ _ _ (hoare_release _)). intros w Ew. unfold in_row_state, committable, releasable. rewrite Ew. exists it.
    split_and!; auto. intros x Hx Ex. rewrite Et in Ex.
    assert (x ∈ tree_rows t db) as Hxt by (by apply elem_of_tree_rows).
    unfold phase_a_over in Ho. rewrite Forall_forall in Ho. specialize (Ho x Hxt).
    specialize (Hr x). rewrite elem_of_py_sorted in Hr. specialize (Hr Hxt). set_solver.
  - destruct (tree_next_phase_b _ _ _ _ Hn) as [_ Hb]; [set_solver|].
    apply phase_b_release in Hb as (Hin & Es & _); [|by right].
    rewrite elem_of_py_sorted in Hin. destruct (Hf _ Hin) as [Er _].
    apply (hoare_from_db _ _ _ _ (hoare_skip_release _)). intros w Ew. unfold in_row_state. rewrite Ew. by exists it.
Qed.

Lemma hoare_gets_db {A B} P (f : world → A) (k : A → M B) Q :
  (∀ w, Inv w → P w → hoare (λ w', w_db w' = w_db w) (k (f w)) Q) →
  hoare P (gets f ≫= k) Q.
Proof. intros H w Hw HP. by apply (H w Hw HP w Hw). Qed.

(** A handler that raises leaves its disk failed. *)
Lemma hoare_guarded db (m : M unit) id f :
  hoare (λ w, w_db w = db) m (λ _ _, True) → safe (_set E id f) →
  hoare (λ w, w_db w = db)
    (λ w, match m w with
          | (Ok _, w') => (Ok false, w')
          | (Raise _, w') => (_ ← _set E id f; mret true) w'
          end) (λ _ _, True).
Proof.
  intros Hm Hset w Hw Hdb. destruct (Hm w Hw Hdb) as [HI _].
  destruct (m w) as [[?|?] w']; simpl in HI; [by split|].
  apply (safe_bind _ (λ _, mret true)); [done|intros; by apply hoare_ret|done|done].
Qed.

Lemma safe_step_tree t finishing : safe (_step_tree E t finishing).
Proof.
  unfold _step_tree. apply safe_bind; [apply safe_gate_tree|]. intros open. case_match; [safe_step|].
  apply hoare_gets_db. intros w Hw _. rewrite (inv_sync _ Hw).
  destruct (tree_next (tree_rows t (w_db w)) (e_job_status E)) as [oit a] eqn:En.
  case_match.
  { apply safe_any, safe_bind; [apply safe_cancel_skip_tree|]. intros ?. safe_step. }
  destruct (_ACTIONS E a) as [handler|] eqn:Ea; [|by apply hoare_ret].
  destruct oit as [it|]; [|by apply hoare_ret].
  eapply (hoare_bind _ _ _ (λ _ w', w_db w' = w_db w)); [by apply hoare_gets|]. intros before.
  eapply (hoare_bind _ _ _ (λ _ w', w_db w' = w_db w)).
  { apply hoare_modify; [|done]. intros w'. split_and!; eauto. }
  intros ?. eapply (hoare_bind _ _ _ (λ _ _, True)).
  { apply hoare_guarded; [|safe_step]. by eapply hoare_action; [apply Hw|..]. }
  intros failed. safe_solve.
Qed.

(** ** Re-arming *)

(** The identities a ledger holds: no write of a row changes them. *)
Definition keys (rows : list item) : list (string * string) :=
  (λ it, (it_id it, it_storage_id it)) <$> rows.

Lemma keys_update id f rows :
  (∀ it, it ∈ rows → it_id it = id → it_id (f it) = it_id it ∧ it_storage_id (f it) = it_storage_id it) →
  keys (update_row id f rows) = keys rows.
Proof. intros H. apply fmap_update_row. intros it Hin Hid. destruct (H it Hin Hid) as [-> ->]. done. Qed.

Lemma keys_row id it w (K : list (string * string)) :
  Inv w → keys (w_db w) = K → find_row id (w_db w) = Some it →
  ∀ s, (id, s) ∈ K → s = it_storage_id it.
Proof.
  intros Hw <- Er s Hs. apply list_elem_of_fmap in Hs as (y & [= -> ->] & Hy).
  rewrite (find_row_unique _ _ (inv_ids _ Hw) Hy) in Er. by simplify_eq.
Qed.

Lemma keys_set K id f :
  keeps_key f → (∀ st md it, row_ok st md it → row_ok st md (f it)) →
  hoare (λ w, keys (w_db w) = K) (_set E id f) (λ _ w, keys (w_db w) = K).
Proof.
  intros Hk Hf. apply hoare_set; [done|auto|]. intros w w' Hw HK Edb _ _ _.
  rewrite Edb, keys_update; [done|]. intros; apply Hk.
Qed.

Lemma keys_audit K id result :
  hoare (λ w, keys (w_db w) = K) (_audit E id result) (λ _ w, keys (w_db w) = K).
Proof. apply hoare_audit. intros w w' rec Hw HK Edb _. by rewrite Edb, keys_update. Qed.

Lemma keys_rearm K id n :
  hoare (λ w, keys (w_db w) = K) (_rearm_item E id n) (λ _ w, keys (w_db w) = K).
Proof. apply keys_set; [done|]. intros ???. solve_transfer. Qed.

(** What the steps below assume of the rows a plan proposes: no storage twice (the trees of
    one selection are disjoint; explicit tree ids that overlap are left out), and every row
    pending and without a destination file of its own. *)
Definition planned_ok (planned : list item) : Prop :=
  NoDup (it_storage_id <$> planned) ∧
  Forall (λ p, it_state p = PENDING ∧ it_dst_owned p = false) planned.

Lemma pending_row_ok st md it : it_state it = PENDING → it_dst_owned it = false → row_ok st md it.
Proof. unfold row_ok. intros -> ->. split_and!; [by intros [|]|done|done]. Qed.

Lemma keys_rearm_returned K id p :
  it_state p = PENDING → it_dst_owned p = false → (id, it_storage_id p) ∈ K →
  hoare (λ w, keys (w_db w) = K) (_rearm_returned E id p) (λ _ w, keys (w_db w) = K).
Proof.
  intros Hs Ho HK. unfold _rearm_returned. eapply hoare_bind; [|intros ?; apply keys_rearm].
  set (f := λ r : item, p {{ it_id := it_id r; it_audit := it_audit r }}).
  intros w Hw Hkw. destruct (find_row id (w_snap w)) as [it|] eqn:Er.
  - assert (∀ it, find_row id (w_db w) = Some it →
      it_id (f it) = it_id it ∧ it_storage_id (f it) = it_storage_id it) as Hf.
    { intros r Hr. split; [done|]. by apply (keys_row id r w K Hw Hkw Hr). }
    destruct (set_effect E id f w it Er) as (w' & -> & ? & Edb & ? & ? & ? & _). split.
    + eapply (Inv_update_row w _ id f); try done. intros r _ _. by apply pending_row_ok.
    + intros [] _. cbn [snd]. rewrite Edb, keys_update; [done|]. intros r Hr <-.
      apply Hf, find_row_unique; [apply Hw|done].
  - unfold _set. rewrite Er. by split.
Qed.

(** A row that shares its storage with a proposed one is an old row, or is that
    proposed row. *)
Definition known (existing planned : list item) (K : list (string * string)) : Prop :=
  ∀ i s p, (i, s) ∈ K → p ∈ planned → s = it_storage_id p →
    s ∈ it_storage_id <$> existing ∨ i = it_id p.

Lemma hoare_insert existing planned p :
  planned_ok planned → p ∈ planned →
  hoare (λ w, known existing planned (keys (w_db w))) (insert_unknown existing p)
    (λ _ w, known existing planned (keys (w_db w))).
Proof.
  intros [Hnd Hpl] Hp. unfold insert_unknown.
  destruct (existsb _ existing) eqn:Ex; [by apply hoare_ret|].
  rewrite Forall_forall in Hpl. destruct (Hpl p Hp) as [Hst Hown].
  assert (it_storage_id p ∉ it_storage_id <$> existing) as Hnew.
  { rewrite existsb_false_Forall, Forall_forall in Ex. intros (e & Hes & He)%list_elem_of_fmap.
    apply Ex in He. apply String.eqb_neq in He. congruence. }
  intros w [Hs Hi Hd Hr Ht] HK. unfold modify.
  destruct (existsb (λ e, (it_id e =? it_id p)%string) (w_db w)) eqn:Ei.
  { split; [by constructor|]. by intros [] _. }
  assert (it_id p ∉ it_id <$> w_db w) as Hid.
  { rewrite existsb_false_Forall, Forall_forall in Ei. intros (e & Hes & He)%list_elem_of_fmap.
    apply Ei in He. apply String.eqb_neq in He. congruence. }
  assert (it_storage_id p ∉ it_storage_id <$> w_db w) as Hsid.
  { intros (x & Hxs & Hx)%list_elem_of_fmap.
    destruct (HK (it_id x) (it_storage_id x) p) as [?|Hx']; try done; [|congruence|].
    - apply (list_elem_of_fmap_2 (λ it, (it_id it, it_storage_id it)) _ _ Hx).
    - apply Hid. rewrite <-Hx'. by apply list_elem_of_fmap_2. }
  split.
  - constructor; [done|..|done].
    + change (NoDup (it_id <$> (w_db w ++ [p]))). rewrite fmap_app. apply NoDup_app.
      split_and!; [done|set_solver|apply NoDup_singleton].
    + change (NoDup (it_storage_id <$> (w_db w ++ [p]))). rewrite fmap_app. apply NoDup_app.
      split_and!; [done|set_solver|apply NoDup_singleton].
    + change (Forall (row_ok (w_storages w) (w_media w)) (w_db w ++ [p])).
      apply Forall_app. split; [done|]. apply Forall_singleton. by apply pending_row_ok.
  - intros [] _ i s q Hin Hq ->. cbn [snd] in Hin.
    change ((i, it_storage_id q) ∈ keys (w_db w ++ [p])) in Hin. unfold keys in Hin.
    rewrite fmap_app, elem_of_app in Hin. destruct Hin as [Hin|Hin]; [by eapply HK|].
    apply list_elem_of_singleton in Hin as [= -> Es]. right. f_equal. symmetry.
    by eapply (sids_inj planned).
Qed.

Lemma known_same existing planned w0 :
  known existing planned (keys (w_db w0)) →
  ∀ w, keys (w_db w) = keys (w_db w0) → known existing planned (keys (w_db w)).
Proof. by intros H w ->. Qed.

Lemma hoare_rearm_tree existing planned items :
  planned_ok planned → (∀ p, p ∈ items → p ∈ planned) →
  hoare (λ w, known existing planned (keys (w_db w))) (rearm_tree E existing items)
    (λ _ w, known existing planned (keys (w_db w))).
Proof.
  intros Hpl Hsub. unfold rearm_tree. apply hoare_gets_db. intros w Hw HK.
  set (K := keys (w_db w)).
  assert (∀ l : list item, (∀ it, it ∈ l → it ∈ w_db w) →
    hoare (λ w', keys (w_db w') = K) (for_each l (λ it,
      match find_sid (it_storage_id it) items with
      | Some p => _rearm_returned E (it_id it) p
      | None => raise KeyError
      end)) (λ _ w', keys (w_db w') = K)) as Hret.
  { intros l Hl. apply hoare_for_each. intros it Hit. destruct (find_sid _ items) as [p|] eqn:Ep;
      [|apply hoare_raise].
    apply find_Some_split in Ep as (l1 & l2 & -> & Hs & _). apply String.eqb_eq in Hs.
    destruct Hpl as [_ Hpl]. rewrite Forall_forall in Hpl.
    destruct (Hpl p) as [? ?]; [apply Hsub; set_solver|]. apply keys_rearm_returned; [done..|].
    rewrite Hs. apply (list_elem_of_fmap_2 (λ it, (it_id it, it_storage_id it))). auto. }
  eapply (hoare_bind _ _ _ (λ _ w', keys (w_db w') = K)).
  { eapply hoare_conseq; [apply Hret|intros w' Ew; cbn beta in *; by rewrite Ew|done]. intros it Hit.
    rewrite <-(inv_sync _ Hw). revert Hit. unfold plan_tree_return.
    case_match; [set_solver|]. intros [_ Hit]%filter_in_state.
    apply list_elem_of_omap in Hit as (p & _ & Hp). destruct (find_sid _ existing) as [e|]; [|done].
    simpl in Hp. by apply find_row_elem in Hp as [? _]. }
  intros ?. eapply (hoare_bind _ _ _ (λ _ w', keys (w_db w') = K)); [by apply hoare_gets|].
  intros plan. eapply (hoare_bind _ _ _ (λ _ w', keys (w_db w') = K)).
  { apply hoare_for_each. intros [it occ] _. eapply hoare_bind; [|intros ?; apply keys_audit].
    apply keys_set; [done|]. intros ???. solve_transfer. }
  intros ?. eapply (hoare_bind _ _ _ (λ _ w', keys (w_db w') = K)).
  { apply hoare_for_each. intros [it occ] _. apply keys_rearm. }
  intros ?. eapply hoare_conseq; [|intros w' Hk; exact (known_same existing planned w HK w' Hk)|intros ? ? Hq; exact Hq].
  apply hoare_for_each. intros p Hp. apply hoare_insert; auto.
Qed.

Lemma safe_skip_stale_trees sids : safe (_skip_stale_trees E sids).
Proof. unfold _skip_stale_trees. safe_solve. by apply safe_skip_tree. Qed.

Lemma known_initial planned w : Inv w → known (w_snap w) planned (keys (w_db w)).
Proof.
  intros Hw i s p Hin _ _. left. rewrite (inv_sync _ Hw).
  apply list_elem_of_fmap in Hin as (x & [= -> ->] & Hx). by apply list_elem_of_fmap_2.
Qed.

Lemma safe_rearm_for_occurrence planned : planned_ok planned → safe (_rearm_for_occurrence E planned).
Proof.
  intros Hpl. unfold _rearm_for_occurrence. apply safe_bind; [apply safe_skip_stale_trees|].
  intros _. apply hoare_gets_db. intros w Hw _.
  eapply hoare_conseq; [apply (hoare_for_each (λ w', known (w_snap w) planned (keys (w_db w'))))| |done].
  - intros t _. apply hoare_rearm_tree; [done|]. by intros p [? _]%elem_of_tree_rows.
  - intros w' Ew. cbn beta in *. rewrite Ew. by apply known_initial.
Qed.

Lemma safe_rescan_insert_new planned : planned_ok planned → safe (_rescan_insert_new E planned).
Proof.
  intros Hpl. unfold _rescan_insert_new. apply safe_bind; [apply safe_skip_stale_trees|].
  intros _. apply hoare_gets_db. intros w Hw _.
  eapply hoare_conseq; [apply (hoare_for_each (λ w', known (w_snap w) planned (keys (w_db w'))))| |done].
  - intros p Hp. by apply hoare_insert.
  - intros w' Ew. cbn beta in *. rewrite Ew. by apply known_initial.
Qed.
End handlers.

(** ** The runner as a transition system *)

(** What other services may do meanwhile: change the status of a storage, take a
    storage or a media away, drive the desktops. That nobody else relocates a disk meanwhile is an assumption. *)
Definition outside_write (w w' : world) : Prop :=
  w_snap w' = w_snap w ∧ w_db w' = w_db w ∧ w_tasks w' = w_tasks w ∧
  (∀ sid s', w_storages w' !! sid = Some s' →
     ∃ s, w_storages w !! sid = Some s ∧ st_directory_path s' = st_directory_path s) ∧
  (∀ mid p, w_media w' !! mid = Some p → w_media w !! mid = Some p).

(** The environment, the configuration included, may differ at every step. *)
Inductive runner_step : world → world → Prop :=
  | rs_step_tree E tree_id finishing w :
      runner_step w (_step_tree E tree_id finishing w).2
  | rs_cancel_unstarted E tree_id w :
      tree_phase (it_state <$> tree_rows tree_id (w_snap w)) = ph_not_started →
      runner_step w (_skip_tree E (it_id <$> tree_rows tree_id (w_snap w)) SKIPPED
                       "canceled before tree started" w).2
  | rs_rearm E planned w :
      planned_ok planned → runner_step w (_rearm_for_occurrence E planned w).2
  | rs_rescan E planned w :
      planned_ok planned → runner_step w (_rescan_insert_new E planned w).2
  | rs_outside w w' : outside_write w w' → runner_step w w'.

(** A ledger as the plan leaves it. *)
Definition initial (w : world) : Prop :=
  w_snap w = w_db w ∧ NoDup (it_id <$> w_db w) ∧ planned_ok (w_db w) ∧ w_tasks w = [].

Lemma initial_Inv w : initial w → Inv w.
Proof.
  intros (Hs & Hi & [Hd Hp] & Ht). constructor; [done..| |by rewrite Ht].
  eapply Forall_impl; [exact Hp|]. intros it [? ?]. by apply pending_row_ok.
Qed.

Lemma outside_write_Inv w w' : outside_write w w' → Inv w → Inv w'.
Proof.
  intros (E1 & E2 & E3 & Hst & Hmd) [Hs Hi Hd Hr Ht].
  constructor; rewrite ?E1, ?E2, ?E3; [done..| |done].
  eapply Forall_impl; [exact Hr|]. intros it (H1 & H2 & H3).
  split_and!; [done| |done]. intros Hst'. specialize (H2 Hst'). unfold at_destination in *.
  destruct (_is_media it); [by intros p ?%Hmd; auto|]. intros s' (s & Hss & ->)%Hst. auto.
Qed.

Lemma runner_step_Inv w w' : runner_step w w' → Inv w → Inv w'.
Proof.
  intros Hstep Hw. destruct Hstep as [E t f w|E t w _|E pl w Hp|E pl w Hp|w w' Hout].
  - by apply (safe_step_tree E t f w).
  - by apply (safe_skip_tree E _ SKIPPED _ ltac:(done) ltac:(done) w).
  - by apply (safe_rearm_for_occurrence E pl Hp w).
  - by apply (safe_rescan_insert_new E pl Hp w).
  - by eapply outside_write_Inv.
Qed.

Lemma reachable_Inv w w' : initial w → steps runner_step w w' → Inv w'.
Proof. intros Hi Hs. eapply steps_invariant; [apply runner_step_Inv|done|by apply initial_Inv]. Qed.

(** Steps on one tree under one environment, for concrete runs. *)
Fixpoint drive (n : nat) (E : env) (tree_id : string) (finishing : bool) (w : world) : world :=
  match n with
  | O => w
  | S n => drive n E tree_id finishing (_step_tree E tree_id finishing w).2
  end.

Lemma drive_steps n E t f w : steps runner_step w (drive n E t f w).
Proof.
  revert w. induction n as [|n IH]; intros w; simpl; [constructor|].
  eapply steps_cons; [apply rs_step_tree|apply IH].
Qed.

Lemma ex_initial : initial ex_world.
Proof.
  split_and!; [done| |split|done].
  - apply (bool_decide_unpack _). by vm_compute.
  - apply (bool_decide_unpack _). by vm_compute.
  - by repeat constructor.
Qed.

(** The seventh task of the concrete run is the removal of the template's
    source; the second is its move. *)
Lemma ex_task i kw :
  (λ e, tk_kwargs (eq_task e)) <$> (w_tasks (drive 17 ex_env "t0" false ex_world) !! i) = Some kw →
  ∃ e, e ∈ w_tasks (drive 17 ex_env "t0" false ex_world) ∧ tk_kwargs (eq_task e) = kw.
Proof.
  intros (e & Hi & He)%fmap_Some. exists e. split; [by eapply list_elem_of_lookup_2|done].
Qed.

(** ** Properties *)



(** C15: Take any run of the saga from a ledger as the plan leaves it (the steps of a tree,
    cancelling trees that have not started, re-arming, rescanning, and other services that
    do not relocate disks; plans name no storage twice). When a move or a rebase is enqueued
    for a disk, every row before it in its tree is past phase A of the saga: its state is
    REBASED, REPAIRING, DB_UPDATED or RELEASED, or the disk was set aside as SKIPPED or
    QUARANTINED; the row itself is MOVING or MOVED; and a move always keeps its source. *)
Theorem copies_run_root_down w0 w e :
  initial w0 → steps runner_step w0 w → e ∈ w_tasks w →
  match tk_kwargs (eq_task e) with
  | MoveArgs origin destination _ remove_source_file _ _ =>
      remove_source_file = false ∧
      ∃ it, it ∈ eq_ledger e ∧ it_src_path it = origin ∧ it_dst_path it = destination ∧
            it_state it = MOVING ∧ ancestors_settled (eq_ledger e) it
  | RebaseArgs child _ _ =>
      ∃ it, it ∈ eq_ledger e ∧ it_dst_path it = child ∧ it_state it = MOVED ∧
            ancestors_settled (eq_ledger e) it
  | _ => True
  end.
Proof.
  intros Hi Hs He. pose proof (inv_tasks _ (reachable_Inv _ _ Hi Hs)) as Ht.
  rewrite Forall_forall in Ht. specialize (Ht e He). unfold task_ok in Ht.
  by destruct (tk_kwargs (eq_task e)).
Qed.

Lemma copies_run_root_down_witness :
  ∃ e it, e ∈ w_tasks (drive 17 ex_env "t0" false ex_world) ∧ it ∈ eq_ledger e ∧
    it_dst_path it = Some "/fast/groups/d1.qcow2" ∧ ancestors_settled (eq_ledger e) it.
Proof.
  destruct (ex_task 4 (RebaseArgs (Some "/fast/groups/d1.qcow2") (Some "/fast/templates/t0.qcow2") true))
    as (e & He & Hk); [vm_compute; reflexivity|].
  pose proof (copies_run_root_down ex_world _ e ex_initial
    (drive_steps 17 ex_env "t0" false ex_world) He) as Hc.
  rewrite Hk in Hc. destruct Hc as (it & Hin & Hd & _ & Ha).
  exists e, it. split; [exact He|split; [exact Hin|split; [exact Hd|exact Ha]]].
Defined.


