(* ===== verification/MigrationLiveness.v ===== *)
(** * A healthy migration finishes

    The runner makes progress: with workers that finish every task, lanes that
    are served and disks that are ready, each step of [_step_tree] brings one
    disk of the tree strictly closer to [released], so that a bounded number of
    steps releases the whole tree. [total] is a small logic of total
    correctness for the handlers: a handler returns, and leaves the world in a
    described state. *)
From S2P Require Import Prelude PyVal QueueTiers MigrationLedger MigrationSaga MigrationRunner.
From S2P Require Import MigrationExample MigrationSafety.

(** ** Total correctness *)
Definition total {A} (w : world) (m : M A) (Q : A → world → Prop) : Prop :=
  ∃ a w', m w = (Ok a, w') ∧ Q a w'.

Lemma total_bind {A B} w (m : M A) (k : A → M B) Q :
  total w m (λ a w', total w' (k a) Q) → total w (m ≫= k) Q.
Proof.
  intros (a & w' & E1 & b & w'' & E2 & HQ). exists b, w''. split; [|done].
  unfold mbind, M_bind. by rewrite E1.
Qed.

Lemma total_ret {A} w (a : A) (Q : A → world → Prop) : Q a w → total w (mret a) Q.
Proof. by exists a, w. Qed.

Lemma total_modify w f (Q : unit → world → Prop) : Q tt (f w) → total w (modify f) Q.
Proof. by exists tt, (f w). Qed.

Lemma total_gets {A} w (f : world → A) (Q : A → world → Prop) : Q (f w) w → total w (gets f) Q.
Proof. by exists (f w), w. Qed.

Lemma total_lift {A} w (a : A) r (Q : A → world → Prop) : r = Ok a → Q a w → total w (lift r) Q.
Proof. intros -> ?. by exists a, w. Qed.

Lemma total_for_each {A} (l : list A) body (P : world → Prop) w :
  P w → (∀ x w', P w' → total w' (body x) (λ _, P)) → total w (for_each l body) (λ _, P).
Proof.
  intros HP H. revert w HP. induction l as [|x l IH]; intros w HP; simpl.
  - by apply total_ret.
  - apply total_bind. destruct (H x w HP) as (a & w' & E & HP'). exists a, w'. eauto.
Qed.

(** ** A run of a handler on one row

    [at_row w0 id d s S Md D w]: [w] is [w0] with the document of [id] now [d],
    its dict [s], and the storages, media and domains [S], [Md], [D]. *)
Record at_row (w0 : world) (id : string) (d s : item) (S : gmap string storage)
    (Md : gmap string (option string)) (D : list domain) (w : world) : Prop := {
  ar_db : w_db w = update_row id (λ _, d) (w_db w0);
  ar_snap : w_snap w = update_row id (λ _, s) (w_snap w0);
  ar_d : it_id d = id;
  ar_s : it_id s = id;
  ar_storages : w_storages w = S;
  ar_media : w_media w = Md;
  ar_domains : w_domains w = D;
}.

Lemma update_row_const id f d rows :
  it_id d = id → update_row id f (update_row id (λ _, d) rows) = update_row id (λ _, f d) rows.
Proof.
  intros H. unfold update_row. rewrite <-list_fmap_compose. apply list_fmap_ext.
  intros i x _. unfold compose. destruct (String.eqb_spec (it_id x) id) as [E|E].
  - by rewrite H, String.eqb_refl.
  - by apply String.eqb_neq in E as ->.
Qed.

Lemma update_row_self rows it :
  NoDup (it_id <$> rows) → it ∈ rows → update_row (it_id it) (λ _, it) rows = rows.
Proof.
  intros Hnd Hin. unfold update_row. rewrite <-(list_fmap_id rows) at 2. apply list_fmap_ext.
  intros i x Hx%list_elem_of_lookup_2. destruct (String.eqb_spec (it_id x) (it_id it)) as [E|]; [|done].
  symmetry. by eapply ids_inj.
Qed.

Lemma find_row_const id d rows x :
  it_id d = id → find_row id rows = Some x → find_row id (update_row id (λ _, d) rows) = Some d.
Proof.
  intros <-. unfold find_row, update_row. induction rows as [|y rows IH]; simpl; [done|].
  destruct (it_id y =? it_id d)%string eqn:E; [|by rewrite E].
  by rewrite String.eqb_refl.
Qed.

Section rules.
Context (E : env) (w0 : world) (id : string) (it0 : item).
Hypothesis Hdb : find_row id (w_db w0) = Some it0.
Hypothesis Hsnap : find_row id (w_snap w0) = Some it0.
Local Notation here := (at_row w0 id).

Lemma here_snap d s S Md D w : here d s S Md D w → find_row id (w_snap w) = Some s.
Proof. intros [_ -> _ Hs _ _ _]. by eapply find_row_const. Qed.

Lemma here_db d s S Md D w : here d s S Md D w → find_row id (w_db w) = Some d.
Proof. intros [-> _ Hd _ _ _ _]. by eapply find_row_const. Qed.

Lemma total_row d s S Md D w (Q : item → world → Prop) :
  here d s S Md D w → Q s w → total w (row id) Q.
Proof. intros Hw HQ. unfold row. exists s, w. by rewrite (here_snap _ _ _ _ _ _ Hw). Qed.

Lemma total_set d s S Md D w f (Q : unit → world → Prop) :
  here d s S Md D w → it_id (f d) = it_id d → it_id (f s) = it_id s →
  (∀ w', here (f d) (f s) S Md D w' → Q tt w') → total w (_set E id f) Q.
Proof.
  intros Hw Hd Hs HQ. destruct (set_effect E id f w s (here_snap _ _ _ _ _ _ Hw))
    as (w' & Ew & E1 & E2 & E3 & E4 & E5 & E6 & _). exists tt, w'. split; [done|]. apply HQ.
  destruct Hw as [H1 H2 H3 H4 H5 H6 H7].
  constructor; rewrite ?E1, ?E2, ?E3, ?E4, ?E6; try congruence.
  - rewrite H1. by apply update_row_const.
  - rewrite H2. by apply update_row_const.
Qed.

Lemma total_audit d s S Md D w result (Q : unit → world → Prop) :
  here d s S Md D w →
  (∀ r w', here (add_audit r d) (add_audit r s) S Md D w' → Q tt w') →
  total w (_audit E id result) Q.
Proof.
  intros Hw HQ. destruct (audit_effect E id result w s (here_snap _ _ _ _ _ _ Hw))
    as (r & w' & Ew & E1 & E2 & E3 & E4 & E5 & E6 & _). exists tt, w'. split; [done|]. apply (HQ r).
  destruct Hw as [H1 H2 H3 H4 H5 H6 H7].
  constructor; rewrite ?E1, ?E2, ?E3, ?E4, ?E6; try done.
  - rewrite H1. by apply update_row_const.
  - rewrite H2. by apply update_row_const.
Qed.

Lemma total_set_dict d s S Md D w f (Q : unit → world → Prop) :
  here d s S Md D w → it_id (f s) = it_id s →
  (∀ w', here d (f s) S Md D w' → Q tt w') → total w (set_dict id f) Q.
Proof.
  intros [H1 H2 H3 H4 H5 H6 H7] Hs HQ. apply total_modify, HQ.
  constructor; try done; [|by rewrite Hs].
  unfold constant; simpl. rewrite H2. by apply update_row_const.
Qed.

(** A write of the tasks, claims, flags and other fields the rows do not
    depend on. *)
Lemma here_quiet d s S Md D w w' :
  here d s S Md D w → w_db w' = w_db w → w_snap w' = w_snap w → w_storages w' = w_storages w →
  w_media w' = w_media w → w_domains w' = w_domains w → here d s S Md D w'.
Proof. intros [] E1 E2 E3 E4 E5. constructor; congruence. Qed.

Lemma total_fresh d s S Md D w prefix (Q : string → world → Prop) :
  here d s S Md D w → (∀ n w', here d s S Md D w' → Q (prefix +:+ n) w') → total w (fresh prefix) Q.
Proof.
  intros Hw HQ. eexists _, _. split; [reflexivity|]. apply HQ. by apply (here_quiet _ _ _ _ _ w).
Qed.

Lemma total_enqueue d s S Md D w name queue kwargs timeout (Q : string → world → Prop) :
  here d s S Md D w → e_enqueue_fails E name = None →
  (∀ n w', here d s S Md D w' → Q ("task-" +:+ n) w') →
  total w (_enqueue E name queue kwargs timeout) Q.
Proof.
  intros Hw He HQ. unfold _enqueue. rewrite He. apply total_bind.
  apply (total_fresh _ _ _ _ _ _ _ _ Hw). intros n w' Hw'. apply total_bind, total_modify, total_ret, HQ.
  by apply (here_quiet _ _ _ _ _ w').
Qed.

Lemma total_claim_storage d s S Md D w t (Q : unit → world → Prop) :
  here d s S Md D w → (∀ w', here d s S Md D w' → Q tt w') → total w (_claim_storage_task id t) Q.
Proof.
  intros Hw HQ. unfold _claim_storage_task. apply total_bind, (total_row _ _ _ _ _ _ _ Hw).
  destruct (_ || _); [by apply total_ret, HQ|]. apply total_modify, HQ.
  by apply (here_quiet _ _ _ _ _ w).
Qed.

Lemma total_flag d s S Md D w a (Q : unit → world → Prop) :
  here d s S Md D w → (∀ w', here d s S Md D w' → Q tt w') → total w (_flag id a) Q.
Proof.
  intros Hw HQ. unfold _flag. apply total_bind, (total_row _ _ _ _ _ _ _ Hw).
  apply total_modify, HQ. by apply (here_quiet _ _ _ _ _ w).
Qed.

Lemma total_claim d s S Md D w when f (Q : bool → world → Prop) :
  NoDup (it_id <$> w_db w0) →
  here d s S Md D w → when ≠ [] → forallb (λ c, c d) when = true → it_id (f d) = it_id d →
  (∀ w', here (f d) s S Md D w' → Q true w') → total w (claim_row when f id) Q.
Proof.
  intros Hnd Hw Hne Hc Hf HQ. pose proof (here_db _ _ _ _ _ _ Hw) as Hrow.
  pose proof Hw as [H1 H2 H3 H4 H5 H6 H7].
  assert (NoDup (it_id <$> w_db w)) as Hnd'.
  { rewrite H1, fmap_update_row; [done|]. intros x _ <-. done. }
  destruct (find_row_elem _ _ _ Hrow) as [Hin _].
  unfold claim_row, claim. destruct when as [|c when]; [done|].
  eexists true, _. split.
  { repeat f_equal. apply existsb_exists. exists d. split; [by apply list_elem_of_In|].
    by rewrite H3, String.eqb_refl, Hc. }
  apply HQ. constructor; try done; [|by rewrite Hf].
  unfold constant; simpl. rewrite <-(update_row_const id f d _ H3), <-H1.
  apply list_fmap_ext. intros i x Hx%list_elem_of_lookup_2.
  destruct (String.eqb_spec (it_id x) id) as [Ex|]; [|done].
  assert (x = d) as -> by (eapply ids_inj; eauto; congruence). cbn [forallb] in Hc. by rewrite Hc.
Qed.
Lemma total_domains d s S Md D w did f (Q : unit → world → Prop) :
  here d s S Md D w → (∀ D' w', here d s S Md D' w' → Q tt w') → total w (update_domain did f) Q.
Proof. intros [] HQ. eapply total_modify, HQ. by constructor. Qed.

Lemma total_storage d s S Md D w sid f (Q : unit → world → Prop) :
  here d s S Md D w → (∀ w', here d s (alter f sid S) Md D w' → Q tt w') →
  total w (update_storage sid f) Q.
Proof.
  intros [????<-??] HQ. apply total_modify, HQ. by constructor.
Qed.

Lemma total_media d s S Md D w mid path (Q : unit → world → Prop) :
  here d s S Md D w → (∀ w', here d s S (alter (λ _, path) mid Md) D w' → Q tt w') →
  total w (update_media mid path) Q.
Proof.
  intros [?????<-?] HQ. apply total_modify, HQ. by constructor.
Qed.

Lemma total_restore_domains d s S Md D w (Q : unit → world → Prop) :
  here d s S Md D w → (∀ D' w', here d s S Md D' w' → Q tt w') → total w (_restore_domains id) Q.
Proof.
  intros Hw HQ. unfold _restore_domains. apply total_bind, (total_row _ _ _ _ _ _ _ Hw).
  destruct (total_for_each (default [] (it_maintenance_domains s)) (λ did,
    update_domain did (λ d,
      if bool_decide (dm_status d = Some "Maintenance")
      then d {{ dm_status := Some "Stopped"; dm_current_action := None }} else d))
    (λ w, ∃ D', here d s S Md D' w) w) as ([] & w' & Ew & D' & Hw'); [by exists D| |].
  - intros x w' [D' Hw']. eapply total_domains; [exact Hw'|]. eauto.
  - exists tt, w'. split; [exact Ew|]. eauto.
Qed.

(** Only the status of the disk's own storage row changes. *)
Definition status_only (sid : string) (S S' : gmap string storage) : Prop :=
  (∀ x, x ≠ sid → S' !! x = S !! x) ∧
  (∀ x st', S' !! x = Some st' →
     ∃ st, S !! x = Some st ∧ st_directory_path st' = st_directory_path st).

Lemma status_only_refl sid S : status_only sid S S.
Proof. split; [done|]. eauto. Qed.

Lemma status_only_alter sid f S :
  (∀ st, st_directory_path (f st) = st_directory_path st) → status_only sid S (alter f sid S).
Proof.
  intros Hf. split; [intros x ?; by rewrite lookup_alter_ne|].
  intros x st'. destruct (decide (x = sid)) as [->|Hx].
  - rewrite lookup_alter_eq. intros (st & ? & ->)%fmap_Some. eauto.
  - rewrite lookup_alter_ne by done. eauto.
Qed.

Lemma total_restore d s S Md D w (Q : unit → world → Prop) :
  here d s S Md D w →
  (∀ S' D' w', here d s S' Md D' w' → status_only (it_storage_id s) S S' → Q tt w') →
  total w (_restore_storage_status id) Q.
Proof.
  intros Hw HQ. unfold _restore_storage_status. apply total_bind.
  eapply total_restore_domains; [exact Hw|]. intros D1 w1 H1.
  apply total_bind, (total_row _ _ _ _ _ _ _ H1).
  destruct (it_storage_orig_status s) as [orig|];
    [|apply total_ret; eauto using status_only_refl].
  destruct (_is_media s); [apply total_ret; eauto using status_only_refl|].
  eapply total_storage; [exact H1|]. intros w2 H2. eapply HQ; [exact H2|].
  by apply status_only_alter.
Qed.

Lemma total_park d s S Md D w (Q : unit → world → Prop) :
  here d s S Md D w →
  (∀ o D' w', here (d {{ it_maintenance_domains := o }}) (s {{ it_maintenance_domains := o }}) S Md D' w'
     ∨ here d s S Md D w' → Q tt w') →
  total w (_park_domains E id) Q.
Proof.
  intros Hw HQ. unfold _park_domains. apply total_bind, (total_row _ _ _ _ _ _ _ Hw).
  destruct (it_maintenance_domains s); [apply total_ret, (HQ None D); by right|].
  destruct (_is_media s); [apply total_ret, (HQ None D); by right|].
  apply total_bind, total_gets. set (parked := List.filter _ _). apply total_bind.
  eapply total_set; [exact Hw|done|done|]. intros w1 H1.
  destruct (total_for_each parked (λ d, update_domain (dm_id d)
       (λ d, d {{ dm_current_action := Some "move"; dm_status := Some "Maintenance" }}))
    (λ w, ∃ D', here (d {{ it_maintenance_domains := Some (dm_id <$> parked) }})
                  (s {{ it_maintenance_domains := Some (dm_id <$> parked) }}) S Md D' w) w1)
    as ([] & w' & Ew & D' & Hw'); [by exists D| |].
  - intros x w' [D' Hw']. eapply total_domains; [exact Hw'|]. eauto.
  - exists tt, w'. split; [exact Ew|]. eapply HQ. left. exact Hw'.
Qed.
End rules.

(** ** Progress of one disk *)

(** What no handler of a healthy saga changes. *)
Definition key (it : item) :=
  (it_id it, it_storage_id it, it_tree_id it, it_topo_index it, it_kind it, it_src_path it,
   it_dst_path it, it_dst_dir it, it_parent_dst_path it).

(** How many steps a disk is away from [released]. *)
Definition rank (it : item) : nat :=
  match it_state it with
  | PENDING => if opt_truthy (it_preflight_task_id it) then 8 else 9
  | MOVING => 7
  | MOVED => if opt_truthy (it_rebase_task_id it) then 5 else 6
  | REBASED => if it_verify_passed it then 2 else if opt_truthy (it_verify_task_id it) then 3 else 4
  | DB_UPDATED => 1
  | _ => 0
  end.

(** A storage whose status a move can record. *)
Definition recordable (S : gmap string storage) (sid : string) : Prop :=
  ∃ st, S !! sid ≫= st_status = Some st ∧ st ≠ "" ∧ st ≠ "maintenance".

(** A disk on its way: nothing has gone wrong with it so far. *)
Definition on_track (S : gmap string storage) (Md : gmap string (option string)) (it : item) : Prop :=
  is_Some (it_src_path it) ∧ opt_truthy (it_dst_path it) = true ∧
  match it_state it with
  | PENDING =>
      it_move_task_id it = None ∧
      (_is_media it = true ∨ is_Some (it_storage_orig_status it) ∨ recordable S (it_storage_id it))
  | MOVING => is_Some (it_move_task_id it)
  | MOVED | REBASED => True
  | DB_UPDATED | RELEASED =>
      (item_in_place it = true ∨ it_verify_passed it = true) ∧ at_destination S Md it
  | _ => False
  end.

(** The workers finish every task and every lane is served. *)
Record healthy (E : env) : Prop := {
  hl_jobs : ∀ t, e_job_status E (Some t) = Some "finished";
  hl_lanes : ∀ q, e_lane_is_drainable E q = true;
  hl_enqueue : ∀ name, e_enqueue_fails E name = None;
}.

(** A run of a handler that brings the disk [it] closer to [released] and
    touches no other disk. *)
Definition advances (w0 : world) (it : item) (w' : world) : Prop :=
  ∃ it',
    w_db w' = update_row (it_id it) (λ _, it') (w_db w0) ∧
    w_snap w' = update_row (it_id it) (λ _, it') (w_snap w0) ∧
    key it' = key it ∧ rank it' < rank it ∧ on_track (w_storages w') (w_media w') it' ∧
    (∀ sid, sid ≠ it_storage_id it → w_storages w' !! sid = w_storages w0 !! sid) ∧
    (∀ sid, sid ≠ it_storage_id it → w_media w' !! sid = w_media w0 !! sid) ∧
    (it_state it' = PENDING → w_storages w' = w_storages w0 ∧ w_domains w' = w_domains w0).

Lemma advance w0 it it' S Md D w' :
  at_row w0 (it_id it) it' it' S Md D w' → key it' = key it → rank it' < rank it →
  on_track S Md it' →
  (∀ sid, sid ≠ it_storage_id it → S !! sid = w_storages w0 !! sid) →
  (∀ sid, sid ≠ it_storage_id it → Md !! sid = w_media w0 !! sid) →
  (it_state it' = PENDING → S = w_storages w0 ∧ D = w_domains w0) → advances w0 it w'.
Proof. intros [E1 E2 _ _ <- <- <-] ??????. by exists it'. Qed.

Lemma task_truthy n : opt_truthy (Some ("task-" +:+ n)) = true.
Proof. done. Qed.

Lemma falsy_unblocked E id o : opt_truthy o = false → resume_blocked E id o = mret false.
Proof.
  unfold resume_blocked, observed_real. destruct o as [t|]; [|done]. simpl.
  by destruct (t =? "")%string.
Qed.

Lemma pool_queue_ok E p a : is_Some p → ∃ q, _pool_queue E p a = Ok q.
Proof. intros [x ->]. by eexists. Qed.

Lemma move_queue_ok E p : is_Some p → ∃ q, _move_queue E p = Ok q.
Proof. intros [x ->]. by eexists. Qed.

Lemma truthy_some o : opt_truthy o = true → is_Some o.
Proof. destruct o; [eauto|done]. Qed.

Section handlers.
Context (E : env) (w0 : world) (it : item).
Hypothesis HE : healthy E.
Hypothesis Hsync : w_snap w0 = w_db w0.
Hypothesis Hnd : NoDup (it_id <$> w_db w0).
Hypothesis Hin : it ∈ w_db w0.
Hypothesis Htrack : on_track (w_storages w0) (w_media w0) it.
Local Notation id := (it_id it).
Local Notation start := (at_row w0 id it it (w_storages w0) (w_media w0) (w_domains w0) w0).

Lemma row_db : find_row id (w_db w0) = Some it.
Proof. by apply find_row_unique. Qed.

Lemma row_snap : find_row id (w_snap w0) = Some it.
Proof. rewrite Hsync. apply row_db. Qed.

Lemma started : start.
Proof. constructor; try done; rewrite ?Hsync; by rewrite update_row_self. Qed.

Lemma src_some : is_Some (it_src_path it).
Proof. apply Htrack. Qed.

Lemma dst_some : is_Some (it_dst_path it).
Proof. apply truthy_some, Htrack. Qed.

(** A handler that is a single write of the row. *)
Lemma run_set f :
  key (f it) = key it → rank (f it) < rank it → on_track (w_storages w0) (w_media w0) (f it) →
  total w0 (_set E id f) (λ _ w', advances w0 it w').
Proof.
  intros Hk Hr Ht. assert (it_id (f it) = id) as Hid by (by inversion Hk).
  eapply (total_set E w0 id it row_snap); [apply started|done|done|].
  intros w' Hw'. by eapply advance.
Qed.

Lemma run_mark_moved : it_state it = MOVING → total w0 (_mark_moved E id) (λ _ w', advances w0 it w').
Proof.
  intros Hst. apply run_set; [done| |].
  - unfold rank. rewrite Hst. unfold constant; simpl. case_match; lia.
  - destruct Htrack as (? & ? & _). by split_and!.
Qed.

Lemma run_skip_move : it_state it = PENDING → total w0 (_skip_move E id) (λ _ w', advances w0 it w').
Proof.
  intros Hst. apply run_set; [done| |].
  - unfold rank. rewrite Hst. unfold constant; simpl. repeat case_match; lia.
  - destruct Htrack as (? & ? & _). by split_and!.
Qed.

Lemma run_mark_rebased : it_state it = MOVED → total w0 (_mark_rebased E id) (λ _ w', advances w0 it w').
Proof.
  intros Hst. apply run_set; [done| |].
  - unfold rank. rewrite Hst. unfold constant; simpl. repeat case_match; lia.
  - destruct Htrack as (? & ? & _). by split_and!.
Qed.

(** The text of the three handlers that check a lane, reserve the slot of a
    task with a fence, enqueue it and record its id. *)
Lemma run_reserved (slot : item → option string) (put : option string → item → item)
    (st : MigrationItemState) (q : pyval) (name : string) (kwargs : task_kwargs) :
  it_state it = st → opt_truthy (slot it) = false →
  (∀ o r, it_id (put o r) = it_id r) → (∀ o o' r, put o (put o' r) = put o r) →
  key (put (slot it) it) = key it →
  (∀ n, key (put (Some ("task-" +:+ n)) it) = key it ∧
        rank (put (Some ("task-" +:+ n)) it) < rank it ∧
        on_track (w_storages w0) (w_media w0) (put (Some ("task-" +:+ n)) it)) →
  total w0
    (if negb (e_lane_is_drainable E q) then mret tt
     else
       fence ← fresh "claim:";
       won ← claim_row [λ r, in_state st r; λ r, opt_str_eqb (slot r) (slot it)]
               (put (Some fence)) id;
       if negb won then mret tt
       else
         _ ← set_dict id (put (Some fence));
         stop ← resume_blocked E id (slot it);
         if stop : bool then mret tt
         else
           task_id ← _enqueue E name q kwargs None;
           _ ← _claim_storage_task id task_id;
           _set E id (put (Some task_id))) (λ _ w', advances w0 it w').
Proof.
  intros Hst Hslot Hput Hpp _ Hdone. rewrite (hl_lanes _ HE). cbn [negb].
  apply total_bind. eapply total_fresh; [apply started|]. intros n w1 H1.
  apply total_bind. eapply (total_claim w0 id it row_db row_snap); [exact Hnd|exact H1|done| |apply Hput|].
  { cbn [forallb]. unfold in_state, opt_str_eqb. by rewrite !bool_decide_true. }
  intros w2 H2. cbn [negb]. apply total_bind.
  eapply (total_set_dict w0 id); [exact H2|apply Hput|]. intros w3 H3.
  rewrite (falsy_unblocked E id _ Hslot). apply total_bind, total_ret.
  apply total_bind. eapply (total_enqueue E w0 id); [exact H3|apply HE|]. intros t w4 H4.
  apply total_bind. eapply (total_claim_storage w0 id it row_snap); [exact H4|]. intros w5 H5.
  eapply (total_set E w0 id it row_snap); [exact H5|by rewrite !Hput..|]. intros w6 H6.
  rewrite Hpp in H6. destruct (Hdone t) as (Hk & Hr & Ht). by eapply advance.
Qed.

Lemma run_start_preflight :
  it_state it = PENDING → opt_truthy (it_preflight_task_id it) = false →
  total w0 (_start_preflight E id) (λ _ w', advances w0 it w').
Proof.
  intros Hst Hslot. unfold _start_preflight.
  apply total_bind. eapply (total_row w0 id it row_snap); [apply started|].
  destruct (pool_queue_ok E _ "migration_verify_destination_absent" dst_some) as [q Hq].
  apply total_bind. eapply total_lift; [exact Hq|].
  apply (run_reserved it_preflight_task_id (λ o r, r {{ it_preflight_task_id := o }})); try done.
  intros n. split_and!; [done| |].
  - unfold rank. change (it_state (it {{ it_preflight_task_id := _ }})) with (it_state it).
    rewrite Hst, Hslot. unfold constant; simpl. lia.
  - destruct Htrack as (? & ? & Ht). rewrite Hst in Ht. split_and!; [done..|].
    change (it_state (it {{ it_preflight_task_id := _ }})) with (it_state it). by rewrite Hst.
Qed.

Lemma run_start_rebase :
  it_state it = MOVED → opt_truthy (it_rebase_task_id it) = false →
  total w0 (_start_rebase E id) (λ _ w', advances w0 it w').
Proof.
  intros Hst Hslot. unfold _start_rebase.
  apply total_bind. eapply (total_row w0 id it row_snap); [apply started|].
  destruct (pool_queue_ok E _ "rebase" dst_some) as [q Hq].
  apply total_bind. eapply total_lift; [exact Hq|].
  apply (run_reserved it_rebase_task_id (λ o r, r {{ it_rebase_task_id := o }})); try done.
  intros n. split_and!; [done| |].
  - unfold rank. change (it_state (it {{ it_rebase_task_id := _ }})) with (it_state it).
    rewrite Hst, Hslot. unfold constant; simpl. lia.
  - destruct Htrack as (? & ? & Ht). split_and!; [done..|].
    change (it_state (it {{ it_rebase_task_id := _ }})) with (it_state it). by rewrite Hst.
Qed.

Lemma run_start_verify :
  it_state it = REBASED → opt_truthy (it_verify_task_id it) = false → it_verify_passed it = false →
  total w0 (_start_verify E id) (λ _ w', advances w0 it w').
Proof.
  intros Hst Hslot Hvp. unfold _start_verify.
  apply total_bind. eapply (total_row w0 id it row_snap); [apply started|].
  destruct (pool_queue_ok E _ "migration_verify_destination" dst_some) as [q Hq].
  apply total_bind. eapply total_lift; [exact Hq|].
  apply (run_reserved it_verify_task_id (λ o r, r {{ it_verify_task_id := o }})); try done.
  intros n. split_and!; [done| |].
  - unfold rank. change (it_state (it {{ it_verify_task_id := _ }})) with (it_state it).
    change (it_verify_passed (it {{ it_verify_task_id := _ }})) with (it_verify_passed it).
    rewrite Hst, Hslot, Hvp. unfold constant; simpl. lia.
  - destruct Htrack as (? & ? & Ht). split_and!; [done..|].
    change (it_state (it {{ it_verify_task_id := _ }})) with (it_state it). by rewrite Hst.
Qed.

Lemma run_mark_verified :
  it_state it = REBASED → it_verify_passed it = false →
  total w0 (_mark_verified E id) (λ _ w', advances w0 it w').
Proof.
  intros Hst Hvp. unfold _mark_verified. apply total_bind.
  eapply (total_set E w0 id it row_snap); [apply started|done|done|]. intros w1 H1.
  assert (∀ w', at_row w0 id (it {{ it_verify_passed := true }}) (it {{ it_verify_passed := true }})
            (w_storages w0) (w_media w0) (w_domains w0) w' → advances w0 it w') as Hend.
  { intros w' Hw'. eapply advance; [exact Hw'|done| | |done|done|].
    - unfold rank. change (it_state (it {{ it_verify_passed := true }})) with (it_state it).
      rewrite Hst, Hvp. unfold constant; simpl. case_match; lia.
    - destruct Htrack as (? & ? & Ht). split_and!; [done..|].
      change (it_state (it {{ it_verify_passed := true }})) with (it_state it). by rewrite Hst.
    - done. }
  unfold _flag_leaks. apply total_bind. eapply (total_row w0 id it row_snap); [exact H1|].
  destruct (_is_media _); [apply total_ret; auto|].
  destruct (it_verify_task_id _); [|apply total_ret; auto].
  destruct (_ =? _)%Z; [apply total_ret; auto|].
  eapply (total_flag w0 id it row_snap); [exact H1|auto].
Qed.

(** *** The move *)

(** The disk in the course of [_start_move], the storages changed at most in
    its own row. *)
Definition moving_now (w : world) : Prop :=
  ∃ d S D, at_row w0 id d d S (w_media w0) D w ∧ key d = key it ∧ it_state d = MOVING ∧
    (∀ sid, sid ≠ it_storage_id it → S !! sid = w_storages w0 !! sid).

Lemma key_sid d : key d = key it → it_storage_id d = it_storage_id it.
Proof. intros H. by inversion H. Qed.

Lemma key_id d : key d = key it → it_id d = id.
Proof. intros H. by inversion H. Qed.

Lemma total_prepare d w (Q : bool → world → Prop) :
  at_row w0 id d d (w_storages w0) (w_media w0) (w_domains w0) w → key d = key it →
  it_state d = MOVING → it_storage_orig_status d = it_storage_orig_status it →
  is_Some (it_storage_orig_status it) ∨ recordable (w_storages w0) (it_storage_id it) →
  (∀ w', moving_now w' → Q true w') → total w (_prepare_disk_for_move E id) Q.
Proof.
  intros Hw Hk Hst Ho Hrec HQ. unfold _prepare_disk_for_move.
  apply total_bind. eapply (total_row w0 id it row_snap); [exact Hw|].
  assert (∀ d' w', at_row w0 id d' d' (w_storages w0) (w_media w0) (w_domains w0) w' →
    key d' = key it → it_state d' = MOVING →
    total w' (if negb true then mret false else
       _ ← update_storage (it_storage_id d) (λ st, st {{ st_status := Some "maintenance" }});
       _ ← _park_domains E id; mret true) Q) as Hrest.
  { intros d' w' Hw' Hk' Hst'. cbn [negb]. apply total_bind.
    eapply (total_storage w0 id); [exact Hw'|]. intros w2 H2. apply total_bind.
    assert (∀ sid, sid ≠ it_storage_id it →
      alter (λ st, st {{ st_status := Some "maintenance" }}) (it_storage_id d) (w_storages w0) !! sid
      = w_storages w0 !! sid) as Hoff.
    { intros sid Hs. apply lookup_alter_ne. by rewrite (key_sid d Hk). }
    eapply (total_park E w0 id it row_snap); [exact H2|]. intros o D' w3 [H3|H3];
      apply total_ret, HQ; [|by eexists d', _, _].
    by eexists (d' {{ it_maintenance_domains := o }}), _, _. }
  apply total_bind. rewrite Ho. destruct (it_storage_orig_status it) as [x|] eqn:Eo.
  { apply total_ret. by apply (Hrest d). }
  destruct Hrec as [[? [=]]|(cur & Hcur & Hc1 & Hc2)].
  apply total_bind, total_gets.
  rewrite (ar_storages _ _ _ _ _ _ _ _ Hw), (key_sid d Hk), Hcur. unfold opt_str_eqb.
  rewrite bool_decide_false by congruence. apply String.eqb_neq in Hc1. cbn [opt_truthy]. rewrite Hc1.
  cbn [negb andb]. apply total_bind.
  eapply (total_set E w0 id it row_snap); [exact Hw|done|done|]. intros w1 H1.
  apply total_ret. rewrite <-(key_sid d Hk). by apply (Hrest (d {{ it_storage_orig_status := Some cur }})).
Qed.

Lemma run_start_move : it_state it = PENDING → total w0 (_start_move E id) (λ _ w', advances w0 it w').
Proof.
  intros Hst. destruct Htrack as (Hsrc & Hdst & Ht). rewrite Hst in Ht. destruct Ht as [Hm Hrec].
  unfold _start_move. apply total_bind. eapply (total_row w0 id it row_snap); [apply started|].
  rewrite Hm. apply total_bind. eapply total_fresh; [apply started|]. intros n w1 H1.
  apply total_bind. unfold claim_move.
  eapply (total_claim w0 id it row_db row_snap); [exact Hnd|exact H1|done| |done|].
  { cbn [forallb]. unfold in_state. by rewrite bool_decide_true. }
  intros w2 H2. cbn [negb]. apply total_bind. change (opt_str_eqb None None) with true.
  eapply (total_set_dict w0 id); [exact H2|done|]. intros w3 H3.
  apply total_bind. eapply (total_set_dict w0 id); [exact H3|done|]. intros w4 H4.
  apply total_bind. change (resume_blocked E id None) with (mret (M := M) false). apply total_ret.
  set (d := it {{ it_state := MOVING; it_move_task_id := Some ("claim:" +:+ n); it_dst_owned := true }}) in *.
  change (at_row w0 id d d (w_storages w0) (w_media w0) (w_domains w0) w4) in H4.
  apply total_bind.
  enough (∀ w', moving_now w' → total w'
    (queue ← lift (_move_queue E (it_src_path it));
     if negb (e_lane_is_drainable E queue) then mret tt
     else
       task_id ← _enqueue E "move" queue
         (MoveArgs (it_src_path it) (it_dst_path it) (c_bwlimit_kbs (e_config E)) false
            (negb (it_recopy it)) (c_min_free_bytes (e_config E))) (Some RSYNC_TIMEOUT);
       _ ← _claim_storage_task id task_id;
       _set E id (λ r, r {{ it_state := MOVING; it_move_task_id := Some task_id;
                          it_move_started_at := Some (e_now E) }}))
    (λ _ w', advances w0 it w')) as Hrest.
  { destruct (_is_media it) eqn:Em.
    - apply total_ret. cbn [negb]. apply Hrest. by eexists d, _, _.
    - eapply (total_prepare d); [exact H4|done..|naive_solver|]. intros w' Hw'. cbn [negb]. auto. }
  intros w' (d' & S & D & Hw' & Hk & Hs & Hoff).
  destruct (move_queue_ok E _ src_some) as [q Hq]. apply total_bind. eapply total_lift; [exact Hq|].
  rewrite (hl_lanes _ HE). cbn [negb]. apply total_bind.
  eapply (total_enqueue E w0 id); [exact Hw'|apply HE|]. intros t w5 H5.
  apply total_bind. eapply (total_claim_storage w0 id it row_snap); [exact H5|]. intros w6 H6.
  eapply (total_set E w0 id it row_snap); [exact H6|done|done|]. intros w7 H7.
  eapply advance; [exact H7|exact Hk| | |exact Hoff|done|done].
  - unfold rank. rewrite Hst. unfold constant; simpl. case_match; lia.
  - assert (it_src_path d' = it_src_path it ∧ it_dst_path d' = it_dst_path it) as [E1 E2] by (by inversion Hk).
    split_and!; [by rewrite <-E1 in Hsrc|by rewrite <-E2 in Hdst|by eexists].
Qed.

(** *** The commit and the release *)
Lemma at_destination_key S Md d : key d = key it → at_destination S Md it → at_destination S Md d.
Proof.
  intros Hk. inversion Hk as [[E1 E2 E3 E4 E5 E6 E7 E8 E9]].
  unfold at_destination, _is_media. by rewrite E5, E2, E7, E8.
Qed.

Lemma in_place_key d : key d = key it → item_in_place d = item_in_place it.
Proof. intros Hk. inversion Hk as [[E1 E2 E3 E4 E5 E6 E7 E8 E9]]. unfold item_in_place. by rewrite E6, E7. Qed.

Lemma paths_key d :
  key d = key it → is_Some (it_src_path d) ∧ opt_truthy (it_dst_path d) = true.
Proof.
  intros Hk. inversion Hk as [[E1 E2 E3 E4 E5 E6 E7 E8 E9]]. rewrite E6, E7.
  destruct Htrack as (? & ? & _). done.
Qed.

Lemma run_db_update :
  it_state it = REBASED → item_in_place it = true ∨ it_verify_passed it = true →
  total w0 (_db_update E id) (λ _ w', advances w0 it w').
Proof.
  intros Hst Hv. unfold _db_update. apply total_bind.
  eapply (total_row w0 id it row_snap); [apply started|]. apply total_bind. unfold repoint_row.
  assert (∀ S Md w', at_row w0 id it it S Md (w_domains w0) w' →
    (∀ sid, sid ≠ it_storage_id it → S !! sid = w_storages w0 !! sid) →
    (∀ sid, sid ≠ it_storage_id it → Md !! sid = w_media w0 !! sid) → at_destination S Md it →
    total w' (_set E id (λ r, r {{ it_state := DB_UPDATED; it_abandon_restarts := 0%Z }}))
      (λ _ w', advances w0 it w')) as Hend.
  { intros S Md w' Hw' Hs Hm Hd. eapply (total_set E w0 id it row_snap); [exact Hw'|done|done|].
    intros w2 H2. eapply advance; [exact H2|done| | |done|done|done].
    - unfold rank. rewrite Hst. unfold constant; simpl. repeat case_match; lia.
    - destruct Htrack as (? & ? & _). by split_and!. }
  destruct (_is_media it) eqn:Em.
  - eapply (total_media w0 id); [apply started|]. intros w1 H1. eapply Hend; [exact H1|done| |].
    + intros sid Hs. by apply lookup_alter_ne.
    + unfold at_destination. rewrite Em. intros p. rewrite lookup_alter_eq.
      intros (? & ? & ->)%fmap_Some. done.
  - eapply (total_storage w0 id); [apply started|]. intros w1 H1. eapply Hend; [exact H1| |done|].
    + intros sid Hs. by apply lookup_alter_ne.
    + unfold at_destination. rewrite Em. intros s. rewrite lookup_alter_eq.
      intros (? & ? & ->)%fmap_Some. by destruct (opt_truthy (it_parent_dst_path it)).
Qed.

(** A released disk, whatever happened to its source. *)
Lemma released d S D w' :
  at_row w0 id d d S (w_media w0) D w' → key d = key it → it_state it = DB_UPDATED →
  it_state d = RELEASED → it_verify_passed d = it_verify_passed it →
  status_only (it_storage_id it) (w_storages w0) S → advances w0 it w'.
Proof.
  intros Hw' Hk Hst Hd Hv [Hoff Hdir]. eapply advance; [exact Hw'|done| | |done|done|by rewrite Hd].
  - unfold rank. rewrite Hd, Hst. lia.
  - destruct (paths_key d Hk) as [? ?]. destruct Htrack as (_ & _ & Ht). rewrite Hst in Ht.
    unfold on_track. rewrite Hd, Hv, (in_place_key d Hk).
    split_and!; [done..|apply Ht|]. eapply at_destination_key; [done|].
    eapply at_destination_mono; [exact Hdir|apply Ht].
Qed.

Lemma run_release : it_state it = DB_UPDATED → total w0 (_release E id) (λ _ w', advances w0 it w').
Proof.
  intros Hst. unfold _release. apply total_bind.
  eapply (total_restore w0 id it row_snap); [apply started|]. intros S D w1 H1 HS.
  apply total_bind. eapply (total_row w0 id it row_snap); [exact H1|].
  assert (total w1 (release_retaining E id (it_src_path it)) (λ _ w', advances w0 it w')) as Hret.
  { unfold release_retaining. apply total_bind.
    eapply (total_set E w0 id it row_snap); [exact H1|done|done|]. intros w2 H2.
    eapply (total_audit E w0 id it row_snap); [exact H2|]. intros r w3 H3.
    by eapply released. }
  destruct (media_held E it); [done|]. destruct (_source_action E) as [action reason].
  destruct (pool_queue_ok E _ action src_some) as [q Hq]. apply total_bind. eapply total_lift; [exact Hq|].
  rewrite (hl_lanes _ HE). cbn [negb]. apply total_bind.
  eapply (total_enqueue E w0 id); [exact H1|apply HE|]. intros t w2 H2. apply total_bind.
  eapply (total_set E w0 id it row_snap); [exact H2|done|done|]. intros w3 H3. apply total_bind.
  eapply (total_flag w0 id it row_snap); [exact H3|]. intros w4 H4.
  eapply (total_audit E w0 id it row_snap); [exact H4|]. intros r w5 H5. by eapply released.
Qed.

Lemma run_skip_release :
  it_state it = DB_UPDATED → total w0 (_skip_release E id) (λ _ w', advances w0 it w').
Proof.
  intros Hst. unfold _skip_release. apply total_bind.
  eapply (total_set E w0 id it row_snap); [apply started|done|done|]. intros w1 H1. apply total_bind.
  eapply (total_restore w0 id it row_snap); [exact H1|]. intros S D w2 H2 HS.
  eapply (total_audit E w0 id it row_snap); [exact H2|]. intros r w3 H3. by eapply released.
Qed.
End handlers.

(** ** The choice of the step *)
Section choice.
Context (E : env) (HE : healthy E).
Local Notation jsf := (e_job_status E).

(** The handler of an action, run on the disk it was chosen for. *)
Definition productive (a : action) (it : item) : Prop :=
  ∀ w, w_snap w = w_db w → NoDup (it_id <$> w_db w) → it ∈ w_db w →
       on_track (w_storages w) (w_media w) it →
       ∃ handler, _ACTIONS E a = Some handler ∧ total w (handler (it_id it)) (λ _, advances w it).

Lemma decide_productive S Md it :
  on_track S Md it → it_state it ∈ [PENDING; MOVING; MOVED] →
  productive (decide_item_action it jsf) it.
Proof.
  intros (Hsrc & Hdst & Ht) Hst w Hsync Hnd Hin Hw. unfold decide_item_action.
  rewrite !elem_of_cons, elem_of_nil in Hst. destruct Hst as [Hst|[Hst|[Hst|[]]]]; rewrite Hst in *.
  - destruct Ht as [-> _]. cbn [opt_truthy].
    destruct (item_in_place it); [eexists; split; [reflexivity|by apply run_skip_move]|].
    destruct (it_preflight_task_id it) as [p|] eqn:Ep; cbn [opt_truthy].
    + rewrite (hl_jobs _ HE). destruct (p =? "")%string eqn:E0; cbn [negb].
      * eexists; split; [reflexivity|]. apply run_start_preflight; auto. by rewrite Ep; cbn; rewrite E0.
      * eexists; split; [reflexivity|by apply run_start_move].
    + eexists; split; [reflexivity|]. apply run_start_preflight; auto. by rewrite Ep.
  - destruct Ht as [t ->]. rewrite (hl_jobs _ HE). eexists; split; [reflexivity|by apply run_mark_moved].
  - destruct (_ || _); [eexists; split; [reflexivity|by apply run_mark_rebased]|].
    destruct (it_rebase_task_id it) as [p|] eqn:Ep; cbn [opt_truthy].
    + rewrite (hl_jobs _ HE). destruct (p =? "")%string eqn:E0; cbn [negb].
      * eexists; split; [reflexivity|]. apply run_start_rebase; auto. by rewrite Ep; cbn; rewrite E0.
      * eexists; split; [reflexivity|by apply run_mark_rebased].
    + eexists; split; [reflexivity|]. apply run_start_rebase; auto. by rewrite Ep.
Qed.

(** What the scan of the verify gate finds when every task finishes. *)
Definition seen_ok (items : list item) (s : gate_seen) : Prop :=
  g_waiting s = None ∧
  (∀ it, g_to_start s = Some it →
     it ∈ items ∧ opt_truthy (it_verify_task_id it) = false ∧ it_verify_passed it = false) ∧
  (∀ it, g_to_mark s = Some it → it ∈ items ∧ it_verify_passed it = false).

Lemma gate_scan_healthy items l seen :
  l ⊆ items → seen_ok items seen → ∃ seen', gate_scan jsf seen l = inr seen' ∧ seen_ok items seen'.
Proof.
  revert seen. induction l as [|it l IH]; intros seen Hl Hs; simpl; [eauto|].
  assert (it ∈ items) as Hit by set_solver. assert (l ⊆ items) as Hl' by set_solver.
  destruct (item_in_place it); [auto|]. unfold verify_gate_state.
  destruct (it_verify_passed it) eqn:Ev; [auto|].
  destruct Hs as (Hw & Hst & Hm).
  destruct (it_verify_task_id it) as [p|] eqn:Ep; cbn [opt_truthy negb];
    [rewrite (hl_jobs _ HE); destruct (p =? "")%string eqn:E0; cbn|];
    (apply IH; [done|]); (split; [done|]); cbn; unfold first_of; split; try done; intros x;
    repeat case_match; intros [= <-]; auto; rewrite Ep; cbn; rewrite ?E0; done.
Qed.

Lemma phase_b_productive items S Md :
  Forall (on_track S Md) items →
  Forall (λ it, it_state it ∈ [REBASED; DB_UPDATED; RELEASED]) items →
  ¬ Forall (λ it, it_state it = RELEASED) items →
  ∃ it a, phase_b items jsf = (Some it, a) ∧ it ∈ items ∧ productive a it.
Proof.
  intros Htr Hst Hnot. destruct (phase_b items jsf) as [o a] eqn:Eb. pose proof Eb as Eb'.
  unfold phase_b in Eb.
  assert (List.find (in_state REPAIRING) items = None) as Hr.
  { apply find_None_Forall. eapply Forall_impl; [exact Hst|]. intros it Hi.
    unfold in_state. apply bool_decide_eq_false. intros Hrep. cbn beta in Hi. rewrite Hrep in Hi.
    rewrite !elem_of_cons, elem_of_nil in Hi. naive_solver. }
  rewrite Hr in Eb.
  set (rebased := List.filter (in_state REBASED) items) in *.
  destruct (gate_scan_healthy rebased rebased (mkSeen None None None)) as (seen & Hg & Hw & Hs & Hm);
    [done|by split_and!|].
  rewrite Hg, Hw in Eb.
  destruct (g_to_start seen) as [x|] eqn:E1.
  { injection Eb as <- <-. destruct (Hs x eq_refl) as (Hx & ? & ?). apply filter_in_state in Hx as [? ?].
    exists x, start_verify. split_and!; [done..|]. intros w ????.
    eexists; split; [reflexivity|]. by apply run_start_verify. }
  destruct (g_to_mark seen) as [x|] eqn:E2.
  { injection Eb as <- <-. destruct (Hm x eq_refl) as (Hx & ?). apply filter_in_state in Hx as [? ?].
    exists x, mark_verified. split_and!; [done..|]. intros w ????.
    eexists; split; [reflexivity|]. by apply run_mark_verified. }
  destruct rebased as [|x rebased'] eqn:E3.
  - destruct (List.filter (in_state DB_UPDATED) items) as [|x l] eqn:E4.
    + exfalso. apply Hnot, Forall_forall. intros x Hx. rewrite Forall_forall in Hst.
      specialize (Hst x Hx). rewrite !elem_of_cons, elem_of_nil in Hst.
      destruct Hst as [Hst|[Hst|[Hst|[]]]]; [| |done]; exfalso.
      * apply (not_elem_of_nil x). rewrite <-E3. by apply filter_in_state.
      * apply (not_elem_of_nil x). rewrite <-E4. by apply filter_in_state.
    + injection Eb as <- <-.
      assert (it_state x = DB_UPDATED ∧ x ∈ items) as [??] by (apply filter_in_state; rewrite E4; left).
      eexists x, _. split_and!; [done..|]. intros w ????. destruct (item_in_place x).
      * eexists; split; [reflexivity|]. by apply run_skip_release.
      * eexists; split; [reflexivity|]. by apply run_release.
  - injection Eb as <- <-.
    assert (it_state x = REBASED ∧ x ∈ items) as [??]
      by (apply filter_in_state; fold rebased; rewrite E3; left).
    exists x, db_update. split_and!; [done..|]. intros w ????.
    eexists; split; [reflexivity|]. apply run_db_update; [done..|].
    destruct (gate_scan_clear _ _ _ _ Hg E1 E2 Hw) as [_ Hall]. by inversion Hall.
Qed.

Definition healthy_states : list MigrationItemState :=
  [PENDING; MOVING; MOVED; REBASED; DB_UPDATED; RELEASED].

Lemma on_track_state S Md it : on_track S Md it → it_state it ∈ healthy_states.
Proof.
  intros (_ & _ & Ht). unfold healthy_states. rewrite !elem_of_cons.
  destruct (it_state it); tauto.
Qed.

Lemma tree_next_productive rows S Md :
  Forall (on_track S Md) rows → ¬ Forall (λ it, it_state it = RELEASED) rows →
  ∃ it a, tree_next rows jsf = (Some it, a) ∧ it ∈ rows ∧ productive a it.
Proof.
  intros Htr Hnot. unfold tree_next. set (items := py_sorted topo_leb rows).
  assert (items ≡ₚ rows) as Hp by apply py_sorted_perm.
  assert (Forall (on_track S Md) items) as Htr' by (by rewrite Hp).
  assert (¬ Forall (λ it, it_state it = RELEASED) items) as Hnot' by (by rewrite Hp).
  assert (forallb (λ it, state_in (it_state it) _TERMINAL_STATES) items = false) as ->.
  { apply not_true_iff_false. intros Hall%forallb_Forall. apply Hnot'.
    rewrite Forall_forall in Hall, Htr' |- *. intros x Hx. specialize (Hall x Hx). cbn beta in Hall.
    apply state_in_spec in Hall. specialize (on_track_state _ _ _ (Htr' x Hx)) as Hs.
    unfold healthy_states, _TERMINAL_STATES in *. destruct (it_state x); set_solver. }
  rewrite andb_false_r.
  destruct (List.find _ items) as [it|] eqn:Ef.
  - apply find_Some_split in Ef as (l1 & l2 & Ei & Hit & _).
    assert (it ∈ items) as Hin by (rewrite Ei; set_solver).
    rewrite Forall_forall in Htr'. specialize (Htr' it Hin).
    assert (it_state it ∈ [PENDING; MOVING; MOVED]) as Hst.
    { specialize (on_track_state _ _ _ Htr') as Hs. apply negb_true_iff in Hit.
      apply not_true_iff_false in Hit. rewrite state_in_spec in Hit.
      unfold healthy_states, _PHASE_A_DONE in *. destruct (it_state it); set_solver. }
    assert (in_state FAILED it = false) as ->.
    { apply bool_decide_eq_false. intros HF. rewrite HF in Hst. set_solver. }
    exists it, (decide_item_action it jsf). rewrite <-Hp. split_and!; [done..|].
    by eapply decide_productive.
  - apply find_None_Forall in Ef. destruct (phase_b_productive items S Md Htr') as (it & a & ? & ? & ?).
    + rewrite Forall_forall in Ef, Htr' |- *. intros x Hx. specialize (Ef x Hx).
      apply negb_false_iff, state_in_spec in Ef.
      specialize (on_track_state _ _ _ (Htr' x Hx)) as Hs. unfold healthy_states, _PHASE_A_DONE in *.
      destruct (it_state x); set_solver.
    + done.
    + exists it, a. rewrite <-Hp. done.
Qed.

Lemma tree_next_released rows :
  Forall (λ it, it_state it = RELEASED) rows → tree_next rows jsf = (None, done).
Proof.
  intros Hall. unfold tree_next. set (items := py_sorted topo_leb rows).
  assert (items ≡ₚ rows) as Hp by apply py_sorted_perm. rewrite <-Hp in Hall. clearbody items. clear Hp.
  destruct items as [|x items]; [done|].
  assert (forallb (λ it, state_in (it_state it) _TERMINAL_STATES) (x :: items) = true) as ->; [|done].
  apply forallb_Forall. eapply Forall_impl; [exact Hall|]. intros y Hy. cbn beta in *. by rewrite Hy.
Qed.
End choice.

(** ** The tree *)

(** The tree has started, or its disks are ready and its desktops quiet. *)
Definition gate_passes (E : env) (t : string) (w : world) : Prop :=
  existsb (λ it, negb (in_state PENDING it)) (tree_rows t (w_snap w)) = true ∨
  _unmovable_disk w (tree_rows t (w_snap w)) = None ∧
  List.filter (λ d, negb (match quiesce_decision (dm_status d) (c_force_stop_desktops (e_config E)) with
                          | quiesce_ok => true | _ => false end))
    (flat_map (λ it, _domains E (it_storage_id it) w) (tree_rows t (w_snap w))) = [].

Record tracked (E : env) (t : string) (w : world) : Prop := {
  tr_sync : w_snap w = w_db w;
  tr_ids : NoDup (it_id <$> w_db w);
  tr_sids : NoDup (it_storage_id <$> w_db w);
  tr_rows : Forall (on_track (w_storages w) (w_media w)) (tree_rows t (w_db w));
  tr_gate : gate_passes E t w;
}.

Definition distance (t : string) (w : world) : nat := sum_list (rank <$> tree_rows t (w_db w)).

Lemma gate_tree_open E t w : gate_passes E t w → _gate_tree E t w = (Ok true, w).
Proof.
  unfold _gate_tree, gate_passes, gets, mbind, M_bind. intros [->|[Hu Hr]]; [done|].
  destruct (existsb _ _); [done|]. by rewrite Hu, Hr.
Qed.

Lemma tree_rows_update t it it' rows :
  NoDup (it_id <$> rows) → it ∈ rows → it_tree_id it' = it_tree_id it →
  tree_rows t (update_row (it_id it) (λ _, it') rows)
  = update_row (it_id it) (λ _, it') (tree_rows t rows).
Proof.
  intros Hnd Hin Ht. unfold tree_rows, update_row.
  assert (∀ x, x ∈ rows → it_id x = it_id it → it_tree_id x = it_tree_id it') as Hx.
  { intros x Hx Hid. rewrite Ht. f_equal. by eapply ids_inj. }
  clear Hnd Hin. induction rows as [|x rows IH]; [done|]. rewrite fmap_cons. cbn [List.filter].
  rewrite IH by (intros; apply Hx; set_solver).
  destruct (String.eqb_spec (it_id x) (it_id it)) as [Eid|Eid].
  - rewrite <-(Hx x) by (set_solver || done). destruct (it_tree_id x =? t)%string; [|done].
    rewrite fmap_cons, Eid, String.eqb_refl. done.
  - destruct (it_tree_id x =? t)%string; [|done]. rewrite fmap_cons.
    by apply String.eqb_neq in Eid as ->.
Qed.

Lemma sum_rank_update it it' rows :
  NoDup (it_id <$> rows) → it ∈ rows → rank it' < rank it →
  sum_list (rank <$> update_row (it_id it) (λ _, it') rows) < sum_list (rank <$> rows).
Proof.
  intros Hnd Hin Hr. induction rows as [|x rows IH]; [set_solver|].
  rewrite fmap_cons, NoDup_cons in Hnd. destruct Hnd as [Hx Hnd].
  unfold update_row. rewrite !fmap_cons. cbn [sum_list fold_right].
  destruct (String.eqb_spec (it_id x) (it_id it)) as [Eid|Eid].
  - assert (x = it) as ->.
    { apply elem_of_cons in Hin as [->|Hin]; [done|]. exfalso. apply Hx. rewrite Eid.
      by apply list_elem_of_fmap_2. }
    rewrite (list_fmap_ext _ id rows); [rewrite list_fmap_id; cbn; lia|].
    intros i y Hy%list_elem_of_lookup_2. destruct (String.eqb_spec (it_id y) (it_id it)) as [Ey|]; [|done].
    exfalso. apply Hx. rewrite <-Ey. by apply list_elem_of_fmap_2.
  - assert (it ∈ rows) as Hin' by (apply elem_of_cons in Hin as [->|]; done).
    specialize (IH Hnd Hin'). unfold update_row in IH. cbn. lia.
Qed.

Lemma rank_bound it : rank it ≤ 9.
Proof. unfold rank. repeat case_match; lia. Qed.

Lemma distance_bound t w : distance t w ≤ 9 * length (tree_rows t (w_db w)).
Proof.
  unfold distance. induction (tree_rows t (w_db w)) as [|x l IH]; [simpl; lia|].
  rewrite fmap_cons. cbn [sum_list fold_right length]. pose proof (rank_bound x). cbn in *. lia.
Qed.

Lemma released_distance S Md rows :
  Forall (on_track S Md) rows → sum_list (rank <$> rows) = 0 → Forall (λ it, it_state it = RELEASED) rows.
Proof.
  induction 1 as [|x l Hx Hl IH]; [done|]. rewrite fmap_cons. cbn. intros Hs.
  constructor; [|apply IH; unfold sum_list, sum_list_with in *; lia].
  assert (rank x = 0) as Hr by lia. destruct Hx as (_ & _ & Ht). unfold rank in Hr.
  destruct (it_state x); repeat case_match; try lia; done.
Qed.

(** The parts of a row the gate reads. *)
Definition gate_key (it : item) := (it_kind it, it_storage_id it).

Lemma unmovable_ext w w' rows rows' :
  w_storages w' = w_storages w → gate_key <$> rows' = gate_key <$> rows →
  _unmovable_disk w' rows' = _unmovable_disk w rows.
Proof.
  intros Hs. revert rows'. induction rows as [|x rows IH]; intros [|y rows'] Hk; try done.
  rewrite !fmap_cons in Hk. injection Hk as Hkind Hsid Hk. cbn [_unmovable_disk].
  unfold _is_media. rewrite Hkind, Hsid, Hs, (IH _ Hk). done.
Qed.

Lemma domains_ext E w w' rows rows' :
  w_domains w' = w_domains w → gate_key <$> rows' = gate_key <$> rows →
  flat_map (λ it, _domains E (it_storage_id it) w') rows'
  = flat_map (λ it, _domains E (it_storage_id it) w) rows.
Proof.
  intros Hd. revert rows'. induction rows as [|x rows IH]; intros [|y rows'] Hk; try done.
  rewrite !fmap_cons in Hk. injection Hk as Hkind Hsid Hk. cbn [flat_map].
  unfold _domains at 1 3. by rewrite Hsid, Hd, (IH _ Hk).
Qed.

Lemma pending_rank it : it_state it = PENDING ↔ 8 ≤ rank it.
Proof. unfold rank. split; [intros ->; case_match; lia|]. destruct (it_state it); repeat case_match; (done || lia). Qed.

Lemma advances_gate E t w it w' :
  tracked E t w → it ∈ tree_rows t (w_db w) → advances w it w' → gate_passes E t w'.
Proof.
  intros [Hsync Hids Hsids Hrows Hgate] Hin (it' & Edb & Esnap & Hk & Hr & _ & _ & _ & Hp).
  pose proof (proj1 (elem_of_tree_rows _ _ _) Hin) as [Hin' _]. inversion Hk as [[K1 K2 K3 K4 K5 K6 K7 K8 K9]].
  unfold gate_passes in *. rewrite Esnap, Hsync, (tree_rows_update t it it') by done.
  rewrite Hsync in Hgate. set (rows := tree_rows t (w_db w)) in *.
  destruct (decide (it_state it' = PENDING)) as [Hpend|Hnp]; last first.
  { left. apply existsb_exists. exists it'. split.
    - apply list_elem_of_In, elem_of_update_row. exists it. split; [done|]. by rewrite String.eqb_refl.
    - apply negb_true_iff. by apply bool_decide_eq_false. }
  destruct (Hp Hpend) as [Hst Hdom].
  assert (it_state it = PENDING) as Hpit by (apply pending_rank; apply pending_rank in Hpend; lia).
  destruct Hgate as [(x & Hx & Hxp)%existsb_exists|[Hu Hd]].
  - left. apply existsb_exists. exists x. split; [|done].
    apply list_elem_of_In in Hx. apply list_elem_of_In, elem_of_update_row. exists x. split; [done|].
    destruct (String.eqb_spec (it_id x) (it_id it)) as [Eid|]; [|done]. exfalso.
    apply elem_of_tree_rows in Hx as [Hx _]. rewrite (ids_inj _ _ _ Hids Hx Hin' Eid) in Hxp.
    unfold in_state in Hxp. by rewrite Hpit in Hxp.
  - right. assert (gate_key <$> update_row (it_id it) (λ _, it') rows = gate_key <$> rows) as Hgk.
    { apply fmap_update_row. intros x Hx Eid. apply elem_of_tree_rows in Hx as [Hx _].
      rewrite (ids_inj _ _ _ Hids Hx Hin' Eid). unfold gate_key. congruence. }
    by rewrite (unmovable_ext _ _ _ _ Hst Hgk), (domains_ext E _ _ _ _ Hdom Hgk).
Qed.

Lemma on_track_frame S S' Md Md' it :
  S' !! it_storage_id it = S !! it_storage_id it → Md' !! it_storage_id it = Md !! it_storage_id it →
  on_track S Md it → on_track S' Md' it.
Proof.
  intros Es Em (? & ? & Ht). split_and!; [done..|]. unfold recordable, at_destination in *.
  by rewrite Es, Em.
Qed.

Lemma advances_tracked E t w it w' :
  tracked E t w → it ∈ tree_rows t (w_db w) → advances w it w' →
  tracked E t w' ∧ distance t w' < distance t w ∧ it_id <$> tree_rows t (w_db w') = it_id <$> tree_rows t (w_db w).
Proof.
  intros Htr Hin Hadv. pose proof (advances_gate _ _ _ _ _ Htr Hin Hadv) as Hgate'.
  destruct Htr as [Hsync Hids Hsids Hrows Hgate].
  destruct Hadv as (it' & Edb & Esnap & Hk & Hr & Ht & Hs & Hm & _).
  pose proof (proj1 (elem_of_tree_rows _ _ _) Hin) as [Hin' _]. inversion Hk as [[K1 K2 K3 K4 K5 K6 K7 K8 K9]].
  assert (∀ x, x ∈ w_db w → it_id x = it_id it → x = it) as Huniq by (intros; by eapply ids_inj).
  assert (tree_rows t (w_db w') = update_row (it_id it) (λ _, it') (tree_rows t (w_db w))) as Erows
    by (by rewrite Edb, tree_rows_update).
  split_and!; [constructor| |].
  - congruence.
  - rewrite Edb, fmap_update_row; [done|]. intros x Hx Eid. by rewrite (Huniq x Hx Eid).
  - rewrite Edb, fmap_update_row; [done|]. intros x Hx Eid. by rewrite (Huniq x Hx Eid).
  - rewrite Erows. apply Forall_forall. intros x (y & Hy & ->)%elem_of_update_row.
    destruct (String.eqb_spec (it_id y) (it_id it)) as [|Eid]; [done|].
    rewrite Forall_forall in Hrows. pose proof (proj1 (elem_of_tree_rows _ _ _) Hy) as [Hy' _].
    assert (it_storage_id y ≠ it_storage_id it) as Hne.
    { intros Es. apply Eid. f_equal. by eapply (sids_inj (w_db w)). }
    eapply on_track_frame; [by apply Hs|by apply Hm|auto].
  - done.
  - unfold distance. rewrite Erows. apply sum_rank_update; [|done|done].
    unfold tree_rows. clear -Hids. induction (w_db w) as [|x l IH]; [constructor|].
    rewrite fmap_cons in Hids. apply NoDup_cons in Hids as [Hx Hl]. cbn [List.filter].
    destruct (_ =? t)%string; [|auto]. rewrite fmap_cons. constructor; [|auto].
    intros (y & Hy & [Hy' _]%elem_of_tree_rows)%list_elem_of_fmap. apply Hx. rewrite Hy.
    by apply list_elem_of_fmap_2.
  - rewrite Erows, fmap_update_row; [done|]. intros x [Hx _]%elem_of_tree_rows Eid.
    by rewrite (Huniq x Hx Eid).
Qed.

(** One step of a healthy tree that is not yet released advances one of its
    disks, and raises nothing. *)
Lemma step_advances E t w :
  healthy E → tracked E t w → ¬ Forall (λ it, it_state it = RELEASED) (tree_rows t (w_db w)) →
  ∃ r w' it, _step_tree E t false w = (Ok r, w') ∧ it ∈ tree_rows t (w_db w) ∧ advances w it w'.
Proof.
  intros HE [Hsync Hids Hsids Hrows Hgate] Hnot.
  destruct (tree_next_productive E HE _ _ _ Hrows Hnot) as (it & a & Hnext & Hin & Hprod).
  pose proof (proj1 (elem_of_tree_rows _ _ _) Hin) as [Hin' _].
  rewrite Forall_forall in Hrows. specialize (Hrows it Hin).
  pose (w1 := w {{ w_driving_tree := Some t }}).
  destruct (Hprod w1 Hsync Hids Hin' Hrows)
    as (handler & Ha & [] & w' & Ew & Hadv).
  assert (advances w it (w' {{ w_driving_tree := None }})) as Hadv' by exact Hadv.
  unfold _step_tree, mbind, M_bind, gets, modify. rewrite (gate_tree_open E t w Hgate).
  cbn [negb]. rewrite <-Hsync in Hnext. rewrite Hnext.
  change (cancel_skips_tree (tree_rows t (w_snap w)) a false) with false. cbv iota beta.
  rewrite Ha. cbv beta iota. fold w1. rewrite Ew.
  destruct (_ && negb (w_space_deferred w)); eexists _, _, it; split_and!;
    [reflexivity|done|exact Hadv'|reflexivity|done|exact Hadv'].
Qed.

Lemma step_released E t w :
  tracked E t w → Forall (λ it, it_state it = RELEASED) (tree_rows t (w_db w)) →
  (_step_tree E t false w).2 = w.
Proof.
  intros [Hsync Hids Hsids Hrows Hgate] Hall. unfold _step_tree, mbind, M_bind, gets.
  rewrite (gate_tree_open E t w Hgate). cbn [negb]. rewrite Hsync, (tree_next_released E _ Hall). done.
Qed.

Lemma drive_tracked E t n w :
  healthy E → tracked E t w → distance t w ≤ n →
  tracked E t (drive n E t false w) ∧
  Forall (λ it, it_state it = RELEASED) (tree_rows t (w_db (drive n E t false w))) ∧
  it_id <$> tree_rows t (w_db (drive n E t false w)) = it_id <$> tree_rows t (w_db w).
Proof.
  intros HE. revert w. induction n as [|n IH]; intros w Htr Hd; cbn [drive].
  - split_and!; [done| |done]. eapply released_distance; [apply Htr|]. unfold distance in Hd. lia.
  - destruct (decide (Forall (λ it, it_state it = RELEASED) (tree_rows t (w_db w)))) as [Hall|Hnot].
    + rewrite (step_released E t w Htr Hall). apply IH; [done|].
      assert (distance t w = 0) as ->; [|lia]. unfold distance. clear -Hall.
      induction Hall as [|x l Hx _ IHl]; [done|]. rewrite fmap_cons. cbn. unfold rank at 1. rewrite Hx.
      exact IHl.
    + destruct (step_advances E t w HE Htr Hnot) as (r & w' & it & Es & Hin & Hadv). rewrite Es.
      cbn [snd]. destruct (advances_tracked _ _ _ _ _ Htr Hin Hadv) as (Htr' & Hlt & Hids).
      destruct (IH w' Htr' ltac:(lia)) as (? & ? & ?). split_and!; [done..|congruence].
Qed.

(** ** The property *)

(** C2: A healthy migration finishes. When the workers finish every task, the
    lanes are served and no enqueue fails, a tree whose disks are on their way
    (in particular a freshly planned one whose disks are ready and whose
    desktops are stopped) is released whole after at most nine steps per disk:
    no row is lost, every disk passed the verify gate unless it never had to
    move, and the row of every disk points at its destination. *)
Theorem healthy_tree_is_released E t w n :
  healthy E → tracked E t w → 9 * length (tree_rows t (w_db w)) ≤ n →
  let w' := drive n E t false w in
  it_id <$> tree_rows t (w_db w') = it_id <$> tree_rows t (w_db w) ∧
  Forall (λ it, it_state it = RELEASED ∧ (item_in_place it = true ∨ it_verify_passed it = true) ∧
                at_destination (w_storages w') (w_media w') it) (tree_rows t (w_db w')).
Proof.
  intros HE Htr Hn w'. pose proof (distance_bound t w) as Hb.
  destruct (drive_tracked E t n w HE Htr ltac:(lia)) as ([_ _ _ Hrows _] & Hall & Hids).
  split; [done|]. rewrite Forall_forall in Hall, Hrows |- *. intros it Hin.
  specialize (Hall it Hin). destruct (Hrows it Hin) as (_ & _ & Ht). rewrite Hall in Ht. done.
Qed.

Lemma ex_healthy : healthy ex_env.
Proof. by constructor. Qed.

Lemma ex_tracked : tracked ex_env "t0" ex_world.
Proof.
  constructor; [done| | | |].
  - apply (bool_decide_unpack _). by vm_compute.
  - apply (bool_decide_unpack _). by vm_compute.
  - repeat constructor; try (by eexists); right; right; exists "ready"; split_and!; done.
  - right. by split; vm_compute.
Qed.

Lemma healthy_tree_is_released_witness :
  Forall (λ it, it_state it = RELEASED) (tree_rows "t0" (w_db (drive 18 ex_env "t0" false ex_world))).
Proof.
  destruct (healthy_tree_is_released ex_env "t0" ex_world 18 ex_healthy ex_tracked) as [_ H].
  - vm_compute. lia.
  - rewrite Forall_forall in H |- *. intros it Hin. apply (H it Hin).
Defined.
