(* ===== verification/MigrationOutcome.v ===== *)
(** * What a step of the migration runner achieves

    Functional properties of the handlers of [MigrationRunner], beyond the
    safety of [MigrationSafety]: the lanes their tasks land on, the race of two
    drivers for one move, the end of a tree a disk of which failed, and the
    bookkeeping of a per-event drive. *)
From Stdlib Require Import Ascii.
From stdpp Require Import pretty.
From S2P Require Import Prelude PyVal QueueTiers MigrationLedger MigrationSaga MigrationRunner.
From S2P Require Import MigrationExample MigrationSafety.

(** ** Lanes *)

(** No pool id holds a dot (they are uuids). *)
Definition dot_free_pools (E : env) : Prop :=
  contains "." (c_dst_pool (e_config E)) = false ∧
  ∀ pools, e_pools E = Some pools → Forall (λ p, contains "." (pl_id p) = false) pools.

Lemma longest_mountpoint_elem path pools p :
  _longest_mountpoint_row path pools = Some p → p ∈ pools.
Proof.
  unfold _longest_mountpoint_row.
  enough (∀ l best, foldl (better_pool path) best l = Some p → best = Some p ∨ p ∈ l) as H.
  { intros [?|?]%H; done. }
  induction l as [|x l IH]; simpl; intros best H; [by left|].
  apply IH in H as [H|H]; [|right; by right]. revert H. unfold better_pool.
  repeat case_match; intros; simplify_eq; set_solver.
Qed.

Lemma get_by_path_elem pools path pool l :
  get_by_path pools path = pool :: l → ∃ ps p, pools = Some ps ∧ p ∈ ps ∧ pl_id p = pool.
Proof.
  unfold get_by_path. destruct pools as [ps|]; [|done].
  destruct (_longest_mountpoint_row path ps) as [p|] eqn:El.
  - intros [= <- _]. exists ps, p. eauto using longest_mountpoint_elem.
  - destruct (List.find _ ps) as [p|] eqn:Ef; [|done]. intros [= <- _].
    apply find_Some_split in Ef as (l1 & l2 & -> & _). exists (l1 ++ p :: l2), p. set_solver.
Qed.

Lemma pool_of_dot_free E path pool :
  dot_free_pools E → _pool_of E path = Ok pool → contains "." pool = false.
Proof.
  intros [Hd Hp]. unfold _pool_of. destruct path as [p|]; [|done]. intros [= <-].
  destruct (get_by_path (e_pools E) (dirname p)) as [|pool l] eqn:Eg; [done|].
  apply get_by_path_elem in Eg as (ps & x & Eps & Hx & <-).
  specialize (Hp ps Eps). rewrite Forall_forall in Hp. auto.
Qed.

Lemma queue_key_dot_free a b :
  contains "." a = false → contains "." b = false →
  contains "." (get_queue_from_storage_pools a b) = false.
Proof.
  unfold get_queue_from_storage_pools. intros Ha Hb.
  repeat case_match; rewrite ?contains_app; rewrite ?Ha, ?Hb; done.
Qed.

(** The actions of the runner the tier rules name. *)
Definition floored_actions : list string :=
  ["migration_verify_destination_absent"; "rebase"; "migration_verify_destination";
   "move_delete"; "delete"].

(** ** Racing drivers *)
Lemma claim_all_false when g id rows :
  when ≠ [] →
  Forall (λ it, (it_id it =? id)%string && forallb (λ c, c it) when = false) rows →
  claim when g id rows = Ok (false, rows).
Proof.
  intros Hw Hall. unfold claim. destruct when as [|c cs]; [done|].
  rewrite (proj2 (existsb_false_Forall _ _) Hall). do 2 f_equal.
  rewrite <-(list_fmap_id rows) at 2. apply list_fmap_ext.
  intros i x Hx%list_elem_of_lookup_2. rewrite Forall_forall in Hall.
  specialize (Hall x Hx). cbn beta in *. by rewrite Hall.
Qed.

Lemma claim_then_lose when g g' id rows won rows' :
  when ≠ [] → (∀ it, it_id (g it) = it_id it) →
  (∀ it, forallb (λ c, c it) when = true → forallb (λ c, c (g it)) when = false) →
  claim when g id rows = Ok (won, rows') → claim when g' id rows' = Ok (false, rows').
Proof.
  intros Hw Hid Hg H. apply claim_all_false; [done|].
  set (ok := λ it, forallb (λ c, c it) when) in *.
  assert (rows' = (λ it, if (it_id it =? id)%string && ok it then g it else it) <$> rows) as ->.
  { unfold claim in H. destruct when; [done|]. unfold ok. congruence. }
  apply Forall_fmap, Forall_forall. intros it _. unfold compose. fold (ok it).
  destruct ((it_id it =? id)%string && ok it) eqn:Eb; [|exact Eb].
  apply andb_true_iff in Eb as [Ei Ec]. rewrite Hid, Ei. by apply Hg.
Qed.

(** ** The end of a failed tree *)

(** What an assertion on the progress of a tree reads of a row. *)
Definition shape (it : item) : string * string * MigrationItemState :=
  (it_id it, it_tree_id it, it_state it).

Definition shape_stable (P : world → Prop) : Prop :=
  ∀ w w', shape <$> w_db w' = shape <$> w_db w → P w → P w'.

Section shapes.
Context (E : env) (P : world → Prop) (HP : shape_stable P).

Lemma shape_same w w' : w_db w' = w_db w → P w → P w'.
Proof. intros Edb. apply HP. by rewrite Edb. Qed.

Lemma shape_update id f w w' :
  (∀ it, shape (f it) = shape it) → w_db w' = update_row id f (w_db w) → P w → P w'.
Proof. intros Hf Edb. apply HP. rewrite Edb. apply fmap_update_row. auto. Qed.

Lemma shape_set id f :
  keeps_key f → (∀ st md it, row_ok st md it → row_ok st md (f it)) →
  (∀ it, shape (f it) = shape it) → hoare P (_set E id f) (λ _, P).
Proof. intros Hk Hr Hf. apply hoare_set; [done|auto|]. intros. by eapply shape_update. Qed.

Lemma shape_audit id result : hoare P (_audit E id result) (λ _, P).
Proof. apply hoare_audit. intros w w' rec _ Hp Edb _. by eapply (shape_update id (add_audit rec)). Qed.

Lemma shape_restore id : hoare P (_restore_storage_status id) (λ _, P).
Proof. apply hoare_restore. intros. by eapply shape_same. Qed.

Lemma shape_retain id p : hoare P (retain_destination E id p) (λ _, P).
Proof. apply shape_set; [done|intros ???; solve_transfer|done]. Qed.

(** The invariant of a handler is known; what is left is its effect on [P]. *)
Lemma shape_of_safe {A} (m : M A) :
  safe m → (∀ w, shape <$> w_db (m w).2 = shape <$> w_db w) → hoare P m (λ _, P).
Proof. intros Hm Hs w Hw Hp. split; [by apply Hm|]. intros a _. by eapply HP; [apply Hs|]. Qed.

Lemma shape_discard id : hoare P (_discard_destination E id) (λ _, P).
Proof.
  apply shape_of_safe; [apply safe_discard_destination|].
  assert (∀ f w, (∀ it, shape (f it) = shape it) →
    shape <$> w_db (_set E id f w).2 = shape <$> w_db w) as Hset.
  { intros f w Hf. destruct (find_row id (w_snap w)) as [it|] eqn:Er.
    - destruct (set_effect E id f w it Er) as (w' & -> & _ & Edb & _). simpl. rewrite Edb.
      apply fmap_update_row. auto.
    - unfold _set. by rewrite Er. }
  intros w. unfold _discard_destination, mbind, M_bind, row, gets, lift.
  destruct (find_row id (w_snap w)) as [it|]; [|done].
  destruct (negb (state_in _ _)); [done|]. destruct (negb (opt_truthy _)); [done|].
  destruct (negb (it_dst_owned it)); [by apply Hset|].
  destruct (_row_at_destination _ _ _); [done|]. destruct (_source_action E) as [action reason].
  destruct (_pool_queue E (it_dst_path it) action) as [queue|]; [|done].
  destruct (negb _); [by apply Hset|].
  unfold _enqueue. destruct (e_enqueue_fails E action); [done|].
  etransitivity; [by apply Hset|reflexivity].
Qed.

Lemma shape_mark_damaged id reason : hoare P (_mark_damaged E id reason) (λ _, P).
Proof.
  unfold _mark_damaged. eapply hoare_bind; [apply shape_set; [done|intros ???; solve_transfer|done]|].
  intros ?. eapply (hoare_bind _ _ _ (λ _, P)); [by apply hoare_row|]. intros it.
  case_match; [by apply hoare_ret|]. eapply (hoare_bind _ _ _ (λ _, P)).
  - apply hoare_modify; [by apply quiet_status|]. intros w. by apply shape_same.
  - intros ?. unfold _flag. eapply (hoare_bind _ _ _ (λ _, P)); [by apply hoare_row|]. intros it'.
    apply hoare_modify; [intros ?; split_and!; eauto|]. intros w. by apply shape_same.
Qed.
End shapes.

(** The rows of tree [t] are settled, but for those still to be processed. *)
Definition settled_but (t : string) (todo : list string) (w : world) : Prop :=
  ∀ x, x ∈ w_db w → it_tree_id x = t → it_state x ∈ _TERMINAL_STATES ∨ it_id x ∈ todo.

Lemma settled_but_stable t todo : shape_stable (settled_but t todo).
Proof.
  intros w w' Hsh Hw x Hx Ht.
  assert (shape x ∈ shape <$> w_db w) as (y & Hy & Hin)%list_elem_of_fmap.
  { rewrite <-Hsh. by apply list_elem_of_fmap_2. }
  injection Hy as -> Et ->. apply Hw; [done|congruence].
Qed.

Lemma terminalize_disk_settles E t trigger damage it s why todo :
  s = FAILED ∨ s = SKIPPED →
  hoare (settled_but t (it_id it :: todo)) (terminalize_disk E trigger damage (it, s, why))
    (λ _, settled_but t todo).
Proof.
  intros Hs. pose proof (settled_but_stable t (it_id it :: todo)) as Hst.
  unfold terminalize_disk.
  eapply hoare_bind; [by apply shape_restore|]. intros ?.
  eapply hoare_bind; [by apply shape_discard|]. intros ?.
  eapply (hoare_bind _ _ _ (λ _, settled_but t (it_id it :: todo))).
  { unfold mark_if_damaged. repeat case_match; try by apply hoare_ret. by apply shape_mark_damaged. }
  intros ?. eapply (hoare_bind _ _ _ (λ _, settled_but t todo)).
  - apply hoare_set; [done|intros w r _ _; apply row_ok_transfer; try reflexivity; [right|by left]|].
    { destruct Hs as [-> | ->]; done. }
    intros w w' _ Hw Edb _ _ _ x Hx Ht. rewrite Edb in Hx.
    apply elem_of_update_row in Hx as (y & Hy & ->).
    destruct (String.eqb_spec (it_id y) (it_id it)) as [Ei|Ei].
    + left. change (s ∈ _TERMINAL_STATES). unfold _TERMINAL_STATES. destruct Hs as [-> | ->]; set_solver.
    + destruct (Hw y Hy Ht) as [?|[?|?]%elem_of_cons]; [by left|done|by right].
  - intros ?. apply shape_audit, settled_but_stable.
Qed.

(** ** Properties *)

(** Every task the runner places on a pool of dot-free id lands on a lane the
    governor paces: the copy on a heavy tier, the checks and the rebase on
    maintenance, the removals on reclaim, each on the lane of the pool its path
    belongs to. *)
Theorem saga_tasks_land_on_governed_lanes E path action queue :
  dot_free_pools E →
  (_pool_queue E path action = Ok queue → action ∈ floored_actions →
     ∃ pool tier, _pool_of E path = Ok pool ∧ parse_storage_queue queue = Some (pool, None, tier) ∧
       tier = if mem action _RECLAIM_ACTIONS then "reclaim" else "maintenance") ∧
  (_move_queue E path = Ok queue →
     ∃ pool tier, _pool_of E path = Ok pool ∧
       parse_storage_queue queue
       = Some (get_queue_from_storage_pools pool (c_dst_pool (e_config E)), None, tier) ∧
       tier ∈ HEAVY_TIERS).
Proof.
  intros Hd. unfold _pool_queue, _move_queue, DEFAULT_PRIORITY.
  destruct (_pool_of E path) as [pool|] eqn:Ep; cbn [mbind res_bind]; [|by split].
  pose proof (pool_of_dot_free _ _ _ Hd Ep) as Hp. split.
  - rewrite retier_queue_storage by done. intros [= <-] Ha.
    exists pool, (retier_tier "default" (Some action)).
    rewrite parse_flat by (auto using tier_no_dot, retier_tier_in_TIERS).
    split_and!; [done..|]. unfold floored_actions in Ha.
    repeat (apply elem_of_cons in Ha as [->|Ha]; [reflexivity|]). set_solver.
  - pose proof (queue_key_dot_free _ _ Hp (proj1 Hd)) as Hk.
    rewrite retier_queue_storage by done. intros [= <-].
    exists pool, (retier_tier "default" (Some "move")).
    rewrite parse_flat by (auto using tier_no_dot, retier_tier_in_TIERS).
    split_and!; [done..|]. by apply (retier_tier_floors "default" (Some "move")).
Qed.

Lemma saga_tasks_land_on_governed_lanes_witness :
  ∃ queue pool tier, _pool_queue ex_env (Some "/fast/templates/t0.qcow2") "rebase" = Ok queue ∧
    parse_storage_queue queue = Some (pool, None, tier) ∧ tier = "maintenance".
Proof.
  assert (dot_free_pools ex_env) as Hd.
  { split; [reflexivity|]. intros pools [= <-]. repeat constructor. }
  destruct (saga_tasks_land_on_governed_lanes ex_env (Some "/fast/templates/t0.qcow2") "rebase"
    (PStr "storage.fast.maintenance") Hd) as [Hq _].
  destruct Hq as (pool & tier & _ & Hp & Ht); [vm_compute; reflexivity| |].
  - right. left.
  - exists (PStr "storage.fast.maintenance"), pool, tier.
    split; [vm_compute; reflexivity|]. split; [exact Hp|exact Ht].
Defined.

(** The in-flight repair of a damaged copy escapes those rules: its action is
    in none of the tier sets, so on every pool of dot-free id it lands on the
    interactive lane, the one desktops start on, whatever it repairs. *)
Theorem repair_lands_on_the_interactive_lane E path queue :
  dot_free_pools E → _pool_queue E path "qemu_img_check_repair" = Ok queue →
  ∃ pool, parse_storage_queue queue = Some (pool, None, "interactive") ∧
          repair_tier "all" = "maintenance".
Proof.
  intros Hd. unfold _pool_queue, DEFAULT_PRIORITY.
  destruct (_pool_of E path) as [pool|] eqn:Ep; cbn [mbind res_bind]; [|done].
  pose proof (pool_of_dot_free _ _ _ Hd Ep) as Hp. rewrite retier_queue_storage by done.
  intros [= <-].
  exists pool. by rewrite parse_flat.
Qed.

Lemma repair_lands_on_the_interactive_lane_witness :
  ∃ pool, parse_storage_queue (PStr "storage.fast.interactive") = Some (pool, None, "interactive") ∧
          repair_tier "all" = "maintenance".
Proof.
  apply (repair_lands_on_the_interactive_lane ex_env (Some "/fast/templates/t0.qcow2")).
  - split; [reflexivity|]. intros pools [= <-]. repeat constructor.
  - vm_compute; reflexivity.
Defined.

(** Two drivers that read the same row race for its move: once the first has
    won its claim, the second, which still holds the row as both read it,
    enqueues nothing and writes neither the ledger nor a storage. *)
Theorem racing_drivers_enqueue_one_move E id fence w w1 wB it :
  claim_move id fence (it_move_task_id it) w = (Ok true, w1) →
  it_move_task_id it ≠ Some fence →
  find_row id (w_snap wB) = Some it → w_db wB = w_db w1 →
  ∃ w', _start_move E id wB = (Ok tt, w') ∧ w_tasks w' = w_tasks wB ∧
        w_db w' = w_db wB ∧ w_storages w' = w_storages wB.
Proof.
  intros Hclaim Hfence Hrow Hdb. unfold _start_move, mbind, M_bind, row. rewrite Hrow.
  unfold fresh. set (fence' := "claim:" +:+ pretty (w_next_id wB)).
  set (w2 := wB {{ w_next_id := N.succ (w_next_id wB) }}).
  assert (w_db w2 = w_db w1) as Hdb2 by done.
  assert (claim_move id fence' (it_move_task_id it) w2 = (Ok false, w2 {{ w_db := w_db w2 }})) as ->.
  { revert Hclaim. unfold claim_move. destruct (it_move_task_id it) as [o|]; unfold claim_row.
    all: destruct (claim _ _ id (w_db w)) as [[won rows]|] eqn:Ec; [|done]; intros [= -> <-].
    all: eapply claim_then_lose in Ec as Hl; [|done|done|].
    all: try (rewrite Hdb2; cbn [w_db]; unfold constant; rewrite Hl; reflexivity).
    - intros r _. cbn [forallb]. apply andb_false_iff. right. apply andb_false_iff. left.
      apply bool_decide_eq_false. intros Heq. apply Hfence. symmetry. exact Heq.
    - intros r _. done. }
  cbn [negb]. eexists. split; [reflexivity|]. done.
Qed.

(** A world of a second driver: the database the first one wrote, its own copy
    of the rows from before. *)
Definition ex_race : world := (claim_move "m--t0" "claim:a" None ex_world).2.

Lemma racing_drivers_enqueue_one_move_witness :
  ∃ w', _start_move ex_env "m--t0" ex_race = (Ok tt, w') ∧ w_tasks w' = w_tasks ex_race ∧
        w_db w' = w_db ex_race ∧ w_storages w' = w_storages ex_race.
Proof.
  apply (racing_drivers_enqueue_one_move ex_env "m--t0" "claim:a" ex_world ex_race ex_race ex_root).
  - vm_compute; reflexivity.
  - discriminate.
  - vm_compute; reflexivity.
  - reflexivity.
Defined.

Lemma plan_covers_tree tree sid reason x :
  x ∈ tree → it_state x ∉ _TERMINAL_STATES →
  ∃ s why, (x, s, why) ∈ plan_tree_failure tree sid reason.
Proof.
  intros Hx Hs. unfold plan_tree_failure. setoid_rewrite list_elem_of_In. setoid_rewrite in_flat_map.
  assert (state_in (it_state x) _TERMINAL_STATES = false) as Hf.
  { apply not_true_is_false. by rewrite state_in_spec. }
  destruct (it_storage_id x =? sid)%string eqn:E1;
    [|destruct (mem (it_id x) (descendant_item_ids tree sid false)) eqn:E2];
    eexists _, _; exists x; (split; [by apply list_elem_of_In|]); rewrite Hf, E1, ?E2; by left.
Qed.

Lemma terminalize_settles E id given t :
  hoare (λ w, ∃ it, find_row id (w_db w) = Some it ∧ it_tree_id it = t)
    (_terminalize_tree_failure E id given) (λ _, settled_but t []).
Proof.
  unfold _terminalize_tree_failure.
  eapply hoare_bind; [apply (hoare_row _ _ (λ it w, find_row id (w_db w) = Some it ∧ it_tree_id it = t))|].
  { intros it w _ (it' & ? & ?) ?. by simplify_eq. }
  intros it. apply hoare_gets_db. intros w Hw [Er Ht]. rewrite (inv_sync _ Hw), Ht.
  set (tree := tree_rows t (w_db w)). case_match eqn:Et.
  { apply hoare_ret. intros w' Edb x Hx Hxt. left. rewrite Edb in Hx.
    rewrite forallb_Forall, Forall_forall in Et. apply state_in_spec, Et. by apply elem_of_tree_rows. }
  set (reason := match given with Some r => Some r | None => _failure_reason E it end).
  set (changes := plan_tree_failure tree (it_storage_id it) reason).
  set (todo := (λ c, it_id c.1.1) <$> changes).
  assert (settled_but t todo w) as Hw0.
  { intros x Hx Hxt. destruct (decide (it_state x ∈ _TERMINAL_STATES)) as [|Hns]; [by left|right].
    destruct (plan_covers_tree tree (it_storage_id it) reason x) as (s & why & Hc);
      [by apply elem_of_tree_rows|done|]. by apply (list_elem_of_fmap_2 (λ c, it_id c.1.1)) in Hc. }
  pose proof (settled_but_stable t todo) as Hst.
  eapply (hoare_bind _ _ _ (λ _, settled_but t todo)).
  { eapply hoare_conseq; [by apply (shape_restore (settled_but t todo))| |done].
    intros w' Edb. eapply shape_same; [done|exact Edb|done]. }
  intros ?. cbv zeta. eapply (hoare_bind _ _ _ (λ _, settled_but t todo)).
  { case_match; [|by apply hoare_ret].
    eapply (hoare_bind _ _ _ (λ _, settled_but t todo)); [|intros ?; by apply shape_audit].
    unfold mark_if_damaged. case_match; [by apply shape_mark_damaged|by apply hoare_ret]. }
  intros ?. fold reason. fold changes.
  assert (Forall (λ c, c.1.2 = FAILED ∨ c.1.2 = SKIPPED) changes) as Hall.
  { apply Forall_forall. intros [[x s] why] Hc. by eapply plan_tree_failure_states. }
  unfold todo. clearbody changes. clear -Hall.
  induction Hall as [|[[x s] why] l Hc _ IH]; simpl; [by apply hoare_ret|].
  eapply hoare_bind; [by apply terminalize_disk_settles|]. intros ?. exact IH.
Qed.

Lemma find_row_shape id db db' : shape <$> db' = shape <$> db → shape <$> find_row id db' = shape <$> find_row id db.
Proof.
  revert db. induction db' as [|x db' IH]; intros [|y db]; try done. intros [= H1 H2 H3 H4]. unfold find_row in *. cbn [List.find].
  rewrite H1. destruct (it_id y =? id)%string; [cbn; unfold shape; congruence|]. by apply IH.
Qed.

Lemma in_row_state_stable id st : shape_stable (in_row_state id st).
Proof.
  intros w w' Hsh (it & Hf & <-). pose proof (find_row_shape id _ _ Hsh) as H. rewrite Hf in H.
  unfold in_row_state. destruct (find_row id (w_db w')) as [it'|]; [|done]. injection H as _ _ ?. by exists it'.
Qed.

Definition in_tree (id t : string) (w : world) : Prop := ∃ it, find_row id (w_db w) = Some it ∧ it_tree_id it = t.

Lemma in_tree_stable id t : shape_stable (in_tree id t).
Proof.
  intros w w' Hsh (it & Hf & <-). pose proof (find_row_shape id _ _ Hsh) as H. rewrite Hf in H.
  unfold in_tree. destruct (find_row id (w_db w')) as [it'|]; [|done]. injection H as _ ? _. by exists it'.
Qed.

(** A write of the state of a row. *)
Lemma set_state E id t f st :
  keeps_key f → (∀ st md it, row_ok st md it → row_ok st md (f it)) → (∀ it, it_state (f it) = st) →
  hoare (in_tree id t) (_set E id f) (λ _, in_row_state id st).
Proof.
  intros Hk Hr Hst. apply hoare_set; [done|auto|]. intros w w' _ (it & Hf & _) Edb _ _ _.
  exists (f it). rewrite Edb. split; [|done]. rewrite find_row_update by (by apply keeps_key_id). by rewrite Hf.
Qed.

Lemma defer_spec E id t reason : hoare (in_tree id t) (_defer_for_space E id reason) (λ _, in_row_state id PENDING).
Proof.
  pose proof (in_tree_stable id t) as Ht. pose proof (in_row_state_stable id PENDING) as Hp.
  unfold _defer_for_space. eapply hoare_bind; [by apply shape_restore|]. intros ?.
  eapply hoare_bind; [apply (set_state E id t _ PENDING); [done|intros ???; solve_transfer|done]|]. intros ?.
  eapply hoare_bind; [by apply shape_audit|]. intros ?.
  apply hoare_modify; [intros w; split_and!; eauto|]. intros w. by apply shape_same.
Qed.

Lemma try_repair_spec E id t what :
  hoare (in_tree id t) (_try_repair E id what)
    (λ repairing, if repairing : bool then in_row_state id REPAIRING else in_tree id t).
Proof.
  pose proof (in_tree_stable id t) as Ht. pose proof (in_row_state_stable id REPAIRING) as Hp.
  unfold _try_repair. eapply (hoare_bind _ _ _ (λ _, in_tree id t)); [by apply hoare_row|]. intros it.
  eapply (hoare_bind _ _ _ (λ _, in_tree id t)); [by apply hoare_lift|]. intros queue.
  case_match; [by apply hoare_ret|].
  eapply (hoare_bind _ _ _ (λ _, in_tree id t)); [apply hoare_enqueue; [intros w tk _ _ Htk; unfold task_ok; cbn; by rewrite Htk|intros ? w w' _ HP Edb; by eapply shape_same]|].
  intros task. eapply hoare_bind; [apply (set_state E id t _ REPAIRING); [done|intros ???; solve_transfer|done]|]. intros ?.
  eapply hoare_bind; [by apply shape_audit|]. intros ?. by apply hoare_ret.
Qed.

(** What becomes of the tree of a failed disk. *)
Definition failure_outcome (E : env) (id : string) (it : item) (w : world) : Prop :=
  if in_state MOVING it && is_space_floor_refusal (_failure_reason E it) then in_row_state id PENDING w
  else settled_but (it_tree_id it) [] w ∨
       (in_row_state id REPAIRING w ∧ on_damaged_knob E ∈ ["repair_leaks"; "repair_all"] ∧
        it_repair_attempted it = false ∧ _is_media it = false ∧ _has_descendants E it = false ∧
        damage_from_reason (_failure_reason E it) ≠ None).

Lemma skip_repair_settles E id t :
  hoare (in_tree id t) (_skip_repair_has_descendants E id) (λ _, settled_but t []).
Proof.
  pose proof (in_tree_stable id t) as Ht. pose proof (settled_but_stable t []) as Hs.
  unfold _skip_repair_has_descendants.
  eapply hoare_bind; [apply (shape_set E _ Ht); [done|intros ???; solve_transfer|done]|]. intros ?.
  eapply hoare_bind; [by apply shape_audit|]. intros ?.
  eapply hoare_bind; [apply terminalize_settles|]. intros ?.
  unfold _flag. eapply (hoare_bind _ _ _ (λ _, settled_but t [])); [by apply hoare_row|]. intros it.
  apply hoare_modify; [intros ?; split_and!; eauto|]. intros w. by apply shape_same.
Qed.

Lemma fail_spec E id it0 :
  hoare (λ w, find_row id (w_db w) = Some it0) (_fail E id) (λ _, failure_outcome E id it0).
Proof.
  unfold _fail.
  eapply hoare_bind; [apply (hoare_row _ _ (λ it w, find_row id (w_db w) = Some it0 ∧ it = it0))|].
  { intros it w _ H1 H2. split; [done|]. congruence. }
  intros it w Hw [Hf ->]. revert w Hw Hf.
  change (hoare (λ w, find_row id (w_db w) = Some it0)
    (let reason := if in_state MOVING it0 then _failure_reason E it0 else None in
     if in_state MOVING it0 && is_space_floor_refusal reason then _defer_for_space E id reason
     else if mem (on_damaged_knob E) ["repair_leaks"; "repair_all"]
             && negb (it_repair_attempted it0) && negb (_is_media it0)
             && match damage_from_reason (_failure_reason E it0) with Some _ => true | None => false end
     then if _has_descendants E it0 then _skip_repair_has_descendants E id
          else repairing ← _try_repair E id (if (on_damaged_knob E =? "repair_leaks")%string then "leaks" else "all");
               if repairing : bool then mret tt else _terminalize_tree_failure E id reason
     else _terminalize_tree_failure E id reason) (λ _, failure_outcome E id it0)).
  cbv zeta. set (reason := if in_state MOVING it0 then _failure_reason E it0 else None).
  assert (Hr : in_state MOVING it0 && is_space_floor_refusal reason
               = in_state MOVING it0 && is_space_floor_refusal (_failure_reason E it0)).
  { unfold reason. by destruct (in_state MOVING it0). }
  assert (Hin : ∀ w, find_row id (w_db w) = Some it0 → in_tree id (it_tree_id it0) w) by (intros w ?; by exists it0).
  unfold failure_outcome. rewrite Hr.
  destruct (in_state MOVING it0 && is_space_floor_refusal (_failure_reason E it0)) eqn:Espace.
  { eapply hoare_conseq; [apply defer_spec|exact Hin|done]. }
  assert (Hterm : hoare (in_tree id (it_tree_id it0)) (_terminalize_tree_failure E id reason)
                    (λ _, settled_but (it_tree_id it0) [])) by apply terminalize_settles.
  destruct (mem _ _ && _ && _ && _) eqn:Erep.
  2: { eapply hoare_conseq; [exact Hterm|exact Hin|by left]. }
  simp_bool. destruct (_has_descendants E it0) eqn:Ed.
  { eapply hoare_conseq; [apply skip_repair_settles|exact Hin|by left]. }
  eapply hoare_bind; [eapply hoare_conseq; [apply try_repair_spec|exact Hin|done]|]. intros [].
  - apply hoare_ret. intros w Hrow. right. split_and!; try done; [by apply mem_spec|].
    by destruct (damage_from_reason (_failure_reason E it0)).
  - eapply hoare_conseq; [exact Hterm|done|by left].
Qed.

(** C30: In any state a run of the saga reaches from a planned ledger (see
    [copies_run_root_down]), when the runner handles the failure of a disk ([_fail]) and the
    handler returns without an exception, then: a disk whose copy the worker refused for lack of room is pending again, and its tree goes on; a
    damaged disk without descendants, whose one repair was not yet tried and which the job
    is told to repair, may be under repair; and in every other case no disk of the tree is
    left in flight: each is released, failed, skipped or quarantined. *)
Theorem failure_settles_the_whole_tree E w0 w id it :
  initial w0 → steps runner_step w0 w → find_row id (w_db w) = Some it →
  (_fail E id w).1 = Ok tt →
  let w' := (_fail E id w).2 in
  if in_state MOVING it && is_space_floor_refusal (_failure_reason E it) then in_row_state id PENDING w'
  else (∀ x, x ∈ w_db w' → it_tree_id x = it_tree_id it → it_state x ∈ _TERMINAL_STATES) ∨
       (in_row_state id REPAIRING w' ∧ on_damaged_knob E ∈ ["repair_leaks"; "repair_all"] ∧
        it_repair_attempted it = false ∧ _is_media it = false ∧ _has_descendants E it = false ∧
        damage_from_reason (_failure_reason E it) ≠ None).
Proof.
  intros Hi Hs Er Hok. destruct (fail_spec E id it w (reachable_Inv _ _ Hi Hs) Er) as [_ Hpost].
  specialize (Hpost tt Hok). unfold failure_outcome in Hpost. cbv zeta.
  destruct (in_state MOVING it && is_space_floor_refusal (_failure_reason E it)); [done|].
  destruct Hpost as [Hset|?]; [left|by right].
  intros x Hx Ht. destruct (Hset x Hx Ht) as [?|?]; [done|set_solver].
Qed.

Lemma failure_settles_the_whole_tree_witness :
  Forall (λ x, it_tree_id x = "t0" → it_state x ∈ _TERMINAL_STATES)
    (w_db (_fail ex_env "m--t0" (drive 6 ex_env "t0" false ex_world)).2).
Proof.
  apply Forall_forall.
  destruct (find_row "m--t0" (w_db (drive 6 ex_env "t0" false ex_world))) as [it|] eqn:Er;
    [|vm_compute in Er; discriminate].
  assert (it_tree_id it = "t0" ∧ in_state MOVING it && is_space_floor_refusal (_failure_reason ex_env it) = false
          ∧ mem (on_damaged_knob ex_env) ["repair_leaks"; "repair_all"] = false) as (Ht & Hm & Hk)
    by (vm_compute in Er; injection Er as <-; vm_compute; auto).
  pose proof (failure_settles_the_whole_tree ex_env ex_world _ "m--t0" it ex_initial
    (drive_steps 6 ex_env "t0" false ex_world) Er ltac:(vm_compute; reflexivity)) as H.
  cbv zeta in H. rewrite Hm, Ht in H. destruct H as [H|(_ & H & _)]; [exact H|].
  apply mem_spec in H. rewrite Hk in H. discriminate.
Defined.

(** ** Two gaps the model shows *)

(** The same environment in a per-event drive. *)
Definition ex_env_incremental : env := ex_env {{ e_incremental := true }}.

(** In a per-event drive the start of a move is not reported to the totals:
    the claim writes the new state itself, so the [_set] that follows sees no
    change. Two steps into the concrete run the ledger holds one pending and one
    moving disk, while the totals still count two pending and none moving; the
    next transition takes the moving count below zero. *)
Theorem start_move_is_missing_from_the_totals :
  let w2 := drive 2 ex_env_incremental "t0" false ex_world in
  let w3 := drive 3 ex_env_incremental "t0" false ex_world in
  it_state <$> w_db w2 = [MOVING; PENDING] ∧
  t_state_counts (w_totals w2) !! "pending" = Some 2%Z ∧
  t_state_counts (w_totals w2) !! "moving" = None ∧
  t_state_counts (build_totals (w_totals w2) (w_db w2)) !! "pending" = Some 1%Z ∧
  t_state_counts (build_totals (w_totals w2) (w_db w2)) !! "moving" = Some 1%Z ∧
  t_state_counts (w_totals w3) !! "moving" = Some (-1)%Z.
Proof. vm_compute. done. Qed.

(** A disk rewound to pending that still carries the ids of its last attempt:
    its move is gone, its rebase is still recorded as finished. *)
Definition ex_rewound : item :=
  ex_child {{ it_move_task_id := Some "old-move"; it_rebase_task_id := Some "old-rebase" }}.

Definition ex_rewound_world : world :=
  ex_world {{ w_db := [ex_root {{ it_state := RELEASED; it_verify_passed := true }}; ex_rewound];
              w_snap := [ex_root {{ it_state := RELEASED; it_verify_passed := true }}; ex_rewound] }}.

Definition ex_env_rewound : env :=
  ex_env {{ e_job_status := λ t, match t with
                                 | None | Some "old-move" => None
                                 | Some _ => Some "finished"
                                 end }}.

(** Settling a rewound disk clears its preflight, move and verify ids but not
    its rebase id, so the disk's fresh copy is taken for rebased on the strength
    of the previous attempt's task: the disk reaches the verify gate without a
    rebase having been enqueued for the new copy. *)
Theorem rewound_disk_skips_its_rebase :
  let w := drive 5 ex_env_rewound "t0" false ex_rewound_world in
  it_state <$> w_db w = [RELEASED; REBASED] ∧
  (tk_task ∘ eq_task) <$> w_tasks w = ["migration_verify_destination_absent"; "move"].
Proof. vm_compute. done. Qed.
