(* ===== verification/MigrationWindow.v ===== *)
(** * The maintenance window of a migration

    The window arithmetic of
    [component/_common/src/isardvdi_common/lib/storage/migration.py]: a daily
    range in minutes, possibly overnight, restricted to weekdays. The functions
    take the time of day and the weekday, as the code does; the theorems read
    them at an absolute minute [t] (midnight of a Monday is 0) and compare them
    with what a window means: a set of occurrences, each starting on a selected
    day. *)
From Stdlib Require Import Ascii.
From S2P Require Import Prelude PyVal.

(** ** The daily range *)
Definition parse_hhmm (value : pyval) : option Z :=
  match value with
  | PStr s =>
      match split_on ":" s with
      | [hs; ms] =>
          match int_of_string hs, int_of_string ms with
          | Ok h, Ok m =>
              if ((0 <=? h) && (h <? 24) && ((0 <=? m) && (m <? 60)))%Z then Some (h * 60 + m)%Z
              else None
          | _, _ => None
          end
      | _ => None
      end
  | _ => None
  end.

Definition window_is_open (start_min end_min : option Z) (now_min : Z) : bool :=
  match start_min, end_min with
  | Some s, Some e =>
      if (s =? e)%Z then true
      else if (s <? e)%Z then (s <=? now_min)%Z && (now_min <? e)%Z
      else (s <=? now_min)%Z || (now_min <? e)%Z
  | _, _ => true
  end.

(** [None] is [float("inf")]. *)
Definition window_remaining_seconds (start_min end_min : option Z) (now_min : Z) : option Z :=
  match start_min, end_min with
  | Some s, Some e =>
      if (s =? e)%Z then None
      else if negb (window_is_open start_min end_min now_min) then Some 0%Z
      else Some ((if now_min <? e then e - now_min else (24 * 60 - now_min) + e) * 60)%Z
  | _, _ => None
  end.

(** ** Weekdays *)

(** [int(d)] for an entry of the day list; an entry that is no integer, or out
    of range, is skipped. An infinite float is not caught by the source and is
    outside the values a day list holds. *)
Definition day_of (d : pyval) : list Z :=
  match py_int d with
  | Ok di => if (0 <=? di)%Z && (di <=? 6)%Z then [di] else []
  | Raise _ => []
  end.

Definition normalize_days (days : list pyval) : option (list Z) :=
  match flat_map day_of days with
  | [] => None
  | l => Some l
  end.

Definition _occurrence_weekday (start_min end_min : option Z) (weekday now_min : Z) : Z :=
  match start_min, end_min with
  | Some s, Some e => if (e <? s)%Z && (now_min <? e)%Z then ((weekday - 1) mod 7)%Z else weekday
  | _, _ => weekday
  end.

Definition day_in (wd : Z) (dset : list Z) : bool := existsb (Z.eqb wd) dset.

Definition window_is_open_days (start_min end_min : option Z) (days : list pyval)
    (weekday : option Z) (now_min : Z) : bool :=
  if negb (window_is_open start_min end_min now_min) then false
  else match normalize_days days, weekday with
       | Some dset, Some wd => day_in (_occurrence_weekday start_min end_min wd now_min) dset
       | _, _ => true
       end.

Definition window_remaining_seconds_days (start_min end_min : option Z) (days : list pyval)
    (weekday : option Z) (now_min : Z) : option Z :=
  if negb (window_is_open_days start_min end_min days weekday now_min) then Some 0%Z
  else window_remaining_seconds start_min end_min now_min.

(** [occurrence_key], as the ordinal of the date it formats. *)
Definition occurrence_key (day now_min : Z) (start_min end_min : option Z) : Z :=
  match start_min, end_min with
  | Some s, Some e => if (e <? s)%Z && (now_min <? e)%Z then (day - 1)%Z else day
  | _, _ => day
  end.

(** The scan of [for k in range(0, 8)]. *)
Fixpoint scan_days (dset : option (list Z)) (wd0 open_at now_min : Z) (ks : list Z) : option Z :=
  match ks with
  | [] => None
  | k :: ks' =>
      let wd := ((wd0 + k) mod 7)%Z in
      let delta := (k * 1440 + open_at - now_min)%Z in
      if match dset with Some l => negb (day_in wd l) | None => false end
      then scan_days dset wd0 open_at now_min ks'
      else if (0 <? delta)%Z then Some (delta * 60)%Z
      else scan_days dset wd0 open_at now_min ks'
  end.

Definition next_occurrence_seconds (start_min end_min : option Z) (days : list pyval)
    (weekday : option Z) (now_min : Z) : option Z :=
  let dset := normalize_days days in
  let no_time := match start_min, end_min with Some _, Some _ => false | _, _ => true end in
  if no_time && match dset with None => true | Some _ => false end then None
  else if window_is_open_days start_min end_min days weekday now_min then Some 0%Z
  else scan_days dset (default 0%Z weekday) (default 0%Z start_min) now_min
         [0; 1; 2; 3; 4; 5; 6; 7]%Z.

(** The window document of a job and the clock, in the window's time zone. *)
Record window := mkWindow { win_start : pyval; win_end : pyval; win_days : list pyval }.

Definition next_run_for_window (w : option window) (weekday hour minute : Z) : option Z :=
  match w with
  | None => None
  | Some w =>
      next_occurrence_seconds (parse_hhmm (win_start w)) (parse_hhmm (win_end w)) (win_days w)
        (Some weekday) (hour * 60 + minute)%Z
  end.

(** ** What a window means *)

(** The day [d] is selected. *)
Definition selected (days : list pyval) (d : Z) : Prop :=
  match normalize_days days with Some dset => (d mod 7)%Z ∈ dset | None => True end.

(** The occurrence that starts on day [d] covers the minute [t]. *)
Definition covers (s e d t : Z) : Prop :=
  (d * 1440 + s ≤ t < d * 1440 + (if s <? e then e else e + 1440))%Z.

(** The code's answer at the minute [t]. *)
Definition open_at (s e : Z) (days : list pyval) (t : Z) : bool :=
  window_is_open_days (Some s) (Some e) days (Some ((t / 1440) mod 7)%Z) (t mod 1440)%Z.

(** Both bounds are times of day and the window is not empty. *)
Definition proper (s e : Z) : Prop := (0 ≤ s < 1440 ∧ 0 ≤ e < 1440 ∧ s ≠ e)%Z.

Lemma day_in_spec wd dset : day_in wd dset = true ↔ wd ∈ dset.
Proof.
  unfold day_in. rewrite existsb_exists. setoid_rewrite Z.eqb_eq. setoid_rewrite <-list_elem_of_In.
  naive_solver.
Qed.

Lemma pred_mod7 d : ((d mod 7 - 1) mod 7 = (d - 1) mod 7)%Z.
Proof. rewrite (Zminus_mod (d mod 7)), Z.mod_mod by lia. by rewrite <-Zminus_mod. Qed.

(** The occurrence a minute can belong to. *)
Lemma covers_day s e d t :
  proper s e → covers s e d t →
  d = (if (e <? s) && (t mod 1440 <? e) then t / 1440 - 1 else t / 1440)%Z ∧
  window_is_open (Some s) (Some e) (t mod 1440) = true.
Proof.
  unfold proper, covers, window_is_open. intros Hp Hc.
  pose proof (Z.div_mod t 1440 ltac:(lia)). pose proof (Z.mod_pos_bound t 1440 ltac:(lia)).
  generalize dependent (t / 1440)%Z. generalize dependent (t mod 1440)%Z. intros m Hm q Hq.
  destruct (Z.eqb_spec s e); [lia|].
  destruct (Z.ltb_spec s e), (Z.ltb_spec e s), (Z.ltb_spec m e), (Z.leb_spec s m); simpl; lia.
Qed.

Lemma open_covers s e t :
  proper s e → window_is_open (Some s) (Some e) (t mod 1440) = true →
  covers s e (if (e <? s) && (t mod 1440 <? e) then t / 1440 - 1 else t / 1440)%Z t.
Proof.
  unfold proper, covers, window_is_open. intros Hp Hc.
  pose proof (Z.div_mod t 1440 ltac:(lia)). pose proof (Z.mod_pos_bound t 1440 ltac:(lia)).
  generalize dependent (t / 1440)%Z. generalize dependent (t mod 1440)%Z. intros m Hm Hc q Hq.
  destruct (Z.eqb_spec s e); [lia|].
  destruct (Z.ltb_spec s e), (Z.ltb_spec e s), (Z.ltb_spec m e), (Z.leb_spec s m);
    simpl in *; try done; lia.
Qed.

Lemma occurrence_weekday_mod s e t :
  (_occurrence_weekday (Some s) (Some e) ((t / 1440) mod 7) (t mod 1440)
   = (if (e <? s) && (t mod 1440 <? e) then t / 1440 - 1 else t / 1440) mod 7)%Z.
Proof. unfold _occurrence_weekday. case_match; [apply pred_mod7|done]. Qed.

Lemma open_at_spec s e days t :
  proper s e → open_at s e days t = true ↔ ∃ d, selected days d ∧ covers s e d t.
Proof.
  intros Hp. unfold open_at, window_is_open_days. split.
  - destruct (window_is_open (Some s) (Some e) (t mod 1440)) eqn:Ew; cbn [negb]; [|done].
    intros Hd. eexists. split; [|by apply open_covers]. unfold selected.
    destruct (normalize_days days) as [dset|]; [|done].
    by rewrite <-occurrence_weekday_mod, <-day_in_spec.
  - intros (d & Hs & Hc). destruct (covers_day _ _ _ _ Hp Hc) as [Ed ->]. cbn [negb].
    unfold selected in Hs. destruct (normalize_days days) as [dset|]; [|done].
    rewrite occurrence_weekday_mod, <-Ed. by apply day_in_spec.
Qed.

(** The first day of the scan that gives an opening in the future. *)
Lemma scan_days_first dset wd0 open m ks :
  match scan_days dset wd0 open m ks with
  | Some r => ∃ l1 k l2, ks = l1 ++ k :: l2 ∧ r = ((k * 1440 + open - m) * 60)%Z ∧
      (0 < k * 1440 + open - m)%Z ∧
      match dset with Some l => ((wd0 + k) mod 7)%Z ∈ l | None => True end ∧
      Forall (λ k', match dset with Some l => ((wd0 + k') mod 7)%Z ∈ l | None => True end →
                    (k' * 1440 + open - m ≤ 0)%Z) l1
  | None =>
      Forall (λ k', match dset with Some l => ((wd0 + k') mod 7)%Z ∈ l | None => True end →
                    (k' * 1440 + open - m ≤ 0)%Z) ks
  end.
Proof.
  set (sel := λ k, match dset with Some l => ((wd0 + k) mod 7)%Z ∈ l | None => True end).
  induction ks as [|k ks IH]; cbn [scan_days]; [done|].
  assert (match dset with Some l => negb (day_in ((wd0 + k) mod 7) l) | None => false end = true
          → ¬ sel k) as Hsel.
  { unfold sel. destruct dset as [l|]; [|done]. rewrite negb_true_iff, <-not_true_iff_false, day_in_spec.
    done. }
  assert (match dset with Some l => negb (day_in ((wd0 + k) mod 7) l) | None => false end = false
          → sel k) as Hsel'.
  { unfold sel. destruct dset as [l|]; [|done]. by rewrite negb_false_iff, day_in_spec. }
  destruct (match dset with Some l => _ | None => false end) eqn:Ed.
  - destruct (scan_days dset wd0 open m ks) as [r|].
    + destruct IH as (l1 & k' & l2 & -> & Hr & Hpos & Hs & Hl).
      exists (k :: l1), k', l2. split_and!; auto. constructor; [|done]. intros ?. by destruct Hsel.
    + constructor; [|done]. intros ?. by destruct Hsel.
  - destruct (Z.ltb_spec 0 (k * 1440 + open - m)) as [Hlt|Hge].
    + exists [], k, ks. split_and!; [done|done|done|by apply Hsel'|by constructor].
    + destruct (scan_days dset wd0 open m ks) as [r|]; [|by constructor].
      destruct IH as (l1 & k' & l2 & -> & Hr & Hpos & Hs & Hl).
      exists (k :: l1), k', l2. split_and!; [done|done|done|done|by constructor].
Qed.

Lemma selected_shift days day k :
  selected days (day + k) ↔
  match normalize_days days with Some l => ((day mod 7 + k) mod 7)%Z ∈ l | None => True end.
Proof. unfold selected. destruct (normalize_days days); [|done]. by rewrite Zplus_mod_idemp_l. Qed.

Lemma week_prefix l1 k l2 x :
  [0; 1; 2; 3; 4; 5; 6; 7]%Z = l1 ++ k :: l2 → (0 ≤ x < k)%Z → x ∈ l1.
Proof.
  intros Ek Hx.
  destruct l1 as [|x1 [|x2 [|x3 [|x4 [|x5 [|x6 [|x7 [|x8 l1]]]]]]]]; simplify_list_eq;
    rewrite ?elem_of_cons, ?elem_of_nil; try lia; by destruct l1.
Qed.

(** Some day of the coming week is selected. *)
Lemma some_day_selected days day :
  ∃ k, (0 ≤ k ≤ 6)%Z ∧ selected days (day + k).
Proof.
  unfold selected. destruct (normalize_days days) as [l|] eqn:En; [|exists 0%Z; split; [lia|done]].
  unfold normalize_days in En. destruct (flat_map day_of days) as [|x l'] eqn:Ef; [done|]. simplify_eq.
  assert (0 ≤ x ≤ 6)%Z as Hx.
  { assert (In x (flat_map day_of days)) as Hin by (rewrite Ef; by left).
    apply in_flat_map in Hin as (d & _ & Hd). unfold day_of in Hd.
    destruct (py_int d); [|done]. case_match eqn:Eb; [|done]. destruct Hd as [<-|[]].
    simp_bool. lia. }
  exists ((x - day) mod 7)%Z. pose proof (Z.mod_pos_bound (x - day) 7 ltac:(lia)).
  split; [lia|]. rewrite Zplus_mod_idemp_r. replace (day + (x - day))%Z with x by lia.
  rewrite Z.mod_small by lia. left.
Qed.

(** ** Properties *)

(** For a window with two distinct times of day, overnight or not, the code
    says "open" at a minute exactly when an occurrence that starts on a selected
    weekday covers it; the tail of an overnight occurrence belongs to the day it
    started on. *)
Theorem window_open_iff_an_occurrence_covers s e days t :
  proper s e →
  window_is_open_days (Some s) (Some e) days (Some ((t / 1440) mod 7)%Z) (t mod 1440)%Z = true
  ↔ ∃ d, selected days d ∧ covers s e d t.
Proof. apply open_at_spec. Qed.

Lemma window_open_iff_an_occurrence_covers_witness :
  window_is_open_days (Some 1320%Z) (Some 360%Z) [PInt 4] (Some 5%Z) 60 = true
  ↔ ∃ d, selected [PInt 4] d ∧ covers 1320 360 d (5 * 1440 + 60).
Proof.
  apply (window_open_iff_an_occurrence_covers 1320 360 [PInt 4] (5 * 1440 + 60)).
  unfold proper. lia.
Defined.

(** When the window is closed, the look-ahead is exact: the window does open
    after the seconds it reports, and is closed at every minute before. *)
Theorem next_occurrence_is_the_next_opening s e days t :
  proper s e → open_at s e days t = false →
  ∃ delta, next_occurrence_seconds (Some s) (Some e) days (Some ((t / 1440) mod 7)%Z) (t mod 1440)%Z
             = Some (delta * 60)%Z ∧
    (0 < delta)%Z ∧ open_at s e days (t + delta) = true ∧
    ∀ x, (0 ≤ x < delta)%Z → open_at s e days (t + x) = false.
Proof.
  intros Hp Ho. unfold next_occurrence_seconds. cbn [andb].
  unfold open_at in Ho at 1. rewrite Ho. cbn [default].
  set (m := (t mod 1440)%Z). set (day := (t / 1440)%Z).
  pose proof (Z.div_mod t 1440 ltac:(lia)) as Ht. fold m day in Ht.
  pose proof (Z.mod_pos_bound t 1440 ltac:(lia)) as Hm. fold m in Hm.
  pose proof (scan_days_first (normalize_days days) (day mod 7) s m [0; 1; 2; 3; 4; 5; 6; 7]%Z) as Hscan.
  destruct (scan_days _ _ _ _ _) as [r|].
  - destruct Hscan as (l1 & k & l2 & Ek & -> & Hpos & Hsel & Hl1).
    apply selected_shift in Hsel. exists (k * 1440 + s - m)%Z. split_and!; [done|done|..].
    + apply open_at_spec; [done|]. exists (day + k)%Z. split; [done|]. unfold covers, proper in *.
      destruct (Z.ltb_spec s e); lia.
    + intros x Hx. apply not_true_is_false. rewrite open_at_spec by done. intros (d & Hd & Hc).
      assert (¬ covers s e d t) as Hnc.
      { intros Hc'. assert (open_at s e days t = true) as Hc2 by (apply open_at_spec; eauto).
        unfold open_at in Hc2. congruence. }
      assert (0 < (d - day) * 1440 + s - m)%Z as Hd' by (unfold covers in *; lia).
      assert ((d - day)%Z ∈ l1) as Hin.
      { eapply week_prefix; [exact Ek|]. unfold covers, proper in *. lia. }
      rewrite Forall_forall in Hl1. specialize (Hl1 _ Hin).
      enough ((d - day) * 1440 + s - m ≤ 0)%Z by lia. apply Hl1.
      apply (selected_shift days day (d - day)).
      replace (day + (d - day))%Z with d by lia. done.
  - exfalso. destruct (some_day_selected days (day + 1)) as (k & Hk & Hsel).
    rewrite Forall_forall in Hscan. specialize (Hscan (k + 1)%Z).
    enough ((k + 1) * 1440 + s - m ≤ 0)%Z by (unfold proper in Hp; lia). apply Hscan.
    + rewrite !elem_of_cons. lia.
    + apply (selected_shift days day (k + 1)).
      replace (day + (k + 1))%Z with (day + 1 + k)%Z by lia. done.
Qed.

Lemma next_occurrence_is_the_next_opening_witness :
  ∃ delta, next_occurrence_seconds (Some 1320%Z) (Some 360%Z) [PInt 4] (Some 0%Z) 600
             = Some (delta * 60)%Z ∧ (0 < delta)%Z.
Proof.
  destruct (next_occurrence_is_the_next_opening 1320 360 [PInt 4] 600) as (delta & Hd & Hpos & _).
  - unfold proper. lia.
  - reflexivity.
  - exists delta. split; [exact Hd|exact Hpos].
Defined.

(** While a window is open, the seconds it reports as left are exact: it stays
    open for that long and is closed at the end. *)
Theorem window_remaining_is_exact s e days t :
  proper s e → open_at s e days t = true →
  ∃ rem, window_remaining_seconds_days (Some s) (Some e) days (Some ((t / 1440) mod 7)%Z)
           (t mod 1440)%Z = Some (rem * 60)%Z ∧
    (0 < rem)%Z ∧ (∀ x, (0 ≤ x < rem)%Z → open_at s e days (t + x) = true) ∧
    open_at s e days (t + rem) = false.
Proof.
  intros Hp Ho. unfold window_remaining_seconds_days.
  pose proof Ho as Ho'. unfold open_at in Ho'. rewrite Ho'. cbn [negb].
  apply open_at_spec in Ho as (d & Hd & Hc); [|done].
  destruct (covers_day _ _ _ _ Hp Hc) as [Ed Hw]. unfold window_remaining_seconds. rewrite Hw.
  cbn [negb]. destruct (Z.eqb_spec s e) as [->|Hne]; [by destruct Hp as (_ & _ & ?)|].
  exists (d * 1440 + (if s <? e then e else e + 1440) - t)%Z.
  pose proof (Z.div_mod t 1440 ltac:(lia)). pose proof (Z.mod_pos_bound t 1440 ltac:(lia)).
  unfold proper in Hp. split_and!.
  - do 2 f_equal. unfold window_is_open in Hw. revert Hw Ed.
    destruct (Z.eqb_spec s e), (Z.ltb_spec s e), (Z.ltb_spec e s), (Z.ltb_spec (t mod 1440) e),
      (Z.leb_spec s (t mod 1440)); simpl; intros; try done; lia.
  - unfold covers in Hc. lia.
  - intros x Hx. apply open_at_spec; [done|]. exists d. split; [done|]. unfold covers in *. lia.
  - apply not_true_is_false. rewrite open_at_spec by done. intros (d' & _ & Hc').
    unfold covers in *. destruct (Z.ltb_spec s e); nia.
Qed.

Lemma window_remaining_is_exact_witness :
  ∃ rem, window_remaining_seconds_days (Some 1320%Z) (Some 360%Z) [PInt 4] (Some 4%Z) 1380
           = Some (rem * 60)%Z ∧ (0 < rem)%Z.
Proof.
  destruct (window_remaining_is_exact 1320 360 [PInt 4] (4 * 1440 + 1380)) as (rem & Hr & Hpos & _).
  - unfold proper. lia.
  - reflexivity.
  - exists rem. split; [exact Hr|exact Hpos].
Defined.

(** The key of an occurrence is the day it started on, at every minute it
    covers: one occurrence has one key, and two different ones have two. *)
Theorem occurrence_key_is_its_start_day s e d t :
  proper s e → covers s e d t → occurrence_key (t / 1440) (t mod 1440) (Some s) (Some e) = d.
Proof.
  intros Hp Hc. destruct (covers_day _ _ _ _ Hp Hc) as [-> _]. unfold occurrence_key. done.
Qed.

Lemma occurrence_key_is_its_start_day_witness :
  occurrence_key 5 60 (Some 1320%Z) (Some 360%Z) = 4%Z.
Proof.
  apply (occurrence_key_is_its_start_day 1320 360 4 (5 * 1440 + 60)); unfold proper, covers; simpl; lia.
Defined.

(** The look-ahead is not exact for a window that is open all day on selected
    days (equal bounds): it reports the configured start, although the window is
    already open at the midnight before. Here a Monday noon, days = Tuesday: 22
    hours are reported, and the window opens after 12. *)
Theorem whole_day_window_opens_before_the_reported_time :
  next_occurrence_seconds (Some 600%Z) (Some 600%Z) [PInt 1] (Some 0%Z) 720 = Some (22 * 3600)%Z ∧
  window_is_open_days (Some 600%Z) (Some 600%Z) [PInt 1] (Some 0%Z) 1439 = false ∧
  window_is_open_days (Some 600%Z) (Some 600%Z) [PInt 1] (Some 1%Z) 0 = true.
Proof. done. Qed.
