(* ===== verification/MigrationPlan.v ===== *)
(** * Planning a migration

    The pure planner of
    [component/_common/src/isardvdi_common/lib/storage/migration.py]: the walk of
    a backing tree, its split when only some kinds of disk move, the rows of the
    ledger, the order in which trees start and the prefix a byte budget admits.
    The children of a node, its parent and its facts are function arguments, as
    in the source. *)
From Stdlib Require Import Ascii.
From S2P Require Import Prelude PyVal MigrationLedger MigrationSaga MigrationRunner.
From S2P Require Import MigrationExample MigrationSafety.

(** ** The walk *)
Section walk.
Context (get_children : string → list string).

(** The loop of [walk_tree_topo]: [seen] is the set of [order]. *)
Fixpoint walk (fuel : nat) (order queue : list string) : list string :=
  match fuel with
  | O => order
  | S fuel' =>
      match queue with
      | [] => order
      | nid :: queue' =>
          if mem nid order then walk fuel' order queue'
          else
            let order' := order ++ [nid] in
            walk fuel' order'
              (queue' ++ List.filter (λ cid, negb (mem cid order')) (get_children nid))
      end
  end.

Definition walk_tree_topo (fuel : nat) (root_id : string) : list string := walk fuel [] [root_id].

(** Pops that are enough for a universe of nodes. *)
Definition walk_fuel (nodes : list string) : nat :=
  S (S (sum_list_with (λ n, length (get_children n)) nodes)).

(** Reachability from the root. *)
Inductive below (root : string) : string → Prop :=
  | below_root : below root root
  | below_child p c : below root p → c ∈ get_children p → below root c.

(** The loop invariant: what is emitted follows one of its parents, what waits
    has an emitted parent, and no child of an emitted node is forgotten. *)
Record walk_inv (root : string) (order queue : list string) : Prop := {
  wi_nodup : NoDup order;
  wi_below : ∀ x, x ∈ order ++ queue → below root x;
  wi_order : ∀ l1 x l2, order = l1 ++ x :: l2 → x = root ∨ ∃ p, p ∈ l1 ∧ x ∈ get_children p;
  wi_queue : ∀ x, x ∈ queue → x = root ∨ ∃ p, p ∈ order ∧ x ∈ get_children p;
  wi_closed : ∀ p c, p ∈ order → c ∈ get_children p → c ∈ order ∨ c ∈ queue;
  wi_root : root ∈ order ++ queue;
}.

Lemma walk_inv_skip root order nid queue :
  nid ∈ order → walk_inv root order (nid :: queue) → walk_inv root order queue.
Proof.
  intros Hn [H1 H2 H3 H4 H5 H6]. split; auto.
  - intros x Hx. apply H2. set_solver.
  - intros x Hx. apply H4. set_solver.
  - intros p c Hp Hc. destruct (H5 p c Hp Hc) as [?|[->|?]%elem_of_cons]; auto.
  - set_solver.
Qed.

Lemma walk_inv_emit root order nid queue :
  nid ∉ order → walk_inv root order (nid :: queue) →
  walk_inv root (order ++ [nid])
    (queue ++ List.filter (λ cid, negb (mem cid (order ++ [nid]))) (get_children nid)).
Proof.
  intros Hn [H1 H2 H3 H4 H5 H6].
  assert (∀ c, c ∈ List.filter (λ cid, negb (mem cid (order ++ [nid]))) (get_children nid) ↔
    c ∈ get_children nid ∧ c ∉ order ++ [nid]) as Hf.
  { intros c. rewrite !list_elem_of_In, filter_In, negb_true_iff, mem_false, list_elem_of_In. done. }
  split.
  - apply NoDup_app. split_and!; [done|set_solver|apply NoDup_singleton].
  - intros x. rewrite !elem_of_app, list_elem_of_singleton, Hf.
    intros [[?| ->]|[?|[Hc _]]]; [apply H2; set_solver..|]. eapply below_child; [|exact Hc].
    apply H2. set_solver.
  - intros l1 x l2 El. destruct (decide (l2 = [])) as [->|Hl2].
    + apply app_inj_tail in El as [-> [= ->]]. apply H4. set_solver.
    + destruct (exists_last Hl2) as (l2' & y & ->).
      rewrite app_comm_cons, app_assoc in El. apply app_inj_tail in El as [-> _]. by eapply H3.
  - intros x. rewrite elem_of_app, Hf. intros [Hx|[Hx _]]; [|right; set_solver].
    destruct (H4 x) as [?|(p & ? & ?)]; set_solver.
  - intros p c Hp Hc. rewrite !elem_of_app, Hf, list_elem_of_singleton.
    apply elem_of_app in Hp as [Hp|Hp%list_elem_of_singleton].
    + destruct (H5 p c Hp Hc) as [?|[->|?]%elem_of_cons]; auto.
    + subst p. destruct (decide (c ∈ order ++ [nid])) as [Hin|]; [|auto].
      apply elem_of_app in Hin. set_solver.
  - set_solver.
Qed.

(** What is left to do: the queue, and the children of the nodes not emitted. *)
Definition pending_work (nodes order queue : list string) : nat :=
  length queue + sum_list_with (λ n, length (get_children n)) (filter (λ n, n ∉ order) nodes).

Lemma pending_work_initial nodes root :
  pending_work nodes [] [root] = S (sum_list_with (λ n, length (get_children n)) nodes).
Proof.
  unfold pending_work. cbn [length]. simpl. do 2 f_equal.
  induction nodes as [|n nodes IH]; [done|]. rewrite filter_cons, IH.
  rewrite decide_True; [done|]. set_solver.
Qed.

Lemma sum_filter_drop (nodes order : list string) nid :
  NoDup nodes → nid ∈ nodes → nid ∉ order →
  sum_list_with (λ n, length (get_children n)) (filter (λ n, n ∉ order) nodes)
  = length (get_children nid)
    + sum_list_with (λ n, length (get_children n)) (filter (λ n, n ∉ order ++ [nid]) nodes).
Proof.
  intros Hnd Hin Ho. apply list_elem_of_split in Hin as (l1 & l2 & ->).
  apply NoDup_app in Hnd as (Hl1 & Hd & Hl2). apply NoDup_cons in Hl2 as [Hn2 Hl2].
  rewrite !filter_app, !filter_cons. rewrite decide_True by done. rewrite decide_False by set_solver.
  assert (∀ l : list string, nid ∉ l → filter (λ n, n ∉ order ++ [nid]) l = filter (λ n, n ∉ order) l) as Hsame.
  { induction l as [|x l IH]; intros Hl; [done|]. apply not_elem_of_cons in Hl as [Hx Hl].
    rewrite !filter_cons, IH by done. repeat case_decide; set_solver. }
  rewrite !Hsame by (set_solver || (intros Hx; apply (Hd nid Hx); left)).
  rewrite !sum_list_with_app. simpl. lia.
Qed.

Lemma walk_complete nodes root fuel order queue :
  NoDup nodes → (∀ x, below root x → x ∈ nodes) →
  (pending_work nodes order queue < fuel)%nat → walk_inv root order queue →
  walk_inv root (walk fuel order queue) [].
Proof.
  intros Hnd Hnodes. revert order queue.
  induction fuel as [|fuel IH]; intros order queue Hfuel Hi; [lia|].
  simpl. destruct queue as [|nid queue]; [done|].
  destruct (mem nid order) eqn:Em; [apply mem_spec in Em|apply mem_false in Em].
  - apply IH; [|by eapply walk_inv_skip]. unfold pending_work in *. simpl in Hfuel. lia.
  - apply IH; [|by apply walk_inv_emit]. unfold pending_work in *.
    rewrite (sum_filter_drop nodes order nid) in Hfuel; [|done| |done].
    + rewrite length_app. simpl in Hfuel.
      pose proof (List.filter_length_le (λ cid, negb (mem cid (order ++ [nid]))) (get_children nid)). lia.
    + apply Hnodes. apply (wi_below _ _ _ Hi). set_solver.
Qed.

Lemma walk_tree_topo_inv nodes root fuel :
  NoDup nodes → (∀ x, below root x → x ∈ nodes) → (walk_fuel nodes ≤ fuel)%nat →
  walk_inv root (walk_tree_topo fuel root) [].
Proof.
  intros Hnd Hnodes Hfuel. unfold walk_tree_topo.
  eapply walk_complete; [exact Hnd|exact Hnodes| |].
  - rewrite pending_work_initial. unfold walk_fuel in Hfuel. lia.
  - split; try set_solver; [constructor| |].
    + intros x Hx. apply list_elem_of_singleton in Hx as ->. constructor.
    + intros l1 x l2 H. by destruct l1.
Qed.

Lemma walk_tree_topo_elem nodes root fuel x :
  NoDup nodes → (∀ x, below root x → x ∈ nodes) → (walk_fuel nodes ≤ fuel)%nat →
  x ∈ walk_tree_topo fuel root ↔ below root x.
Proof.
  intros Hnd Hnodes Hfuel.
  destruct (walk_tree_topo_inv nodes root fuel Hnd Hnodes Hfuel) as [_ H2 _ _ H5 H6].
  rewrite app_nil_r in H2, H6. split; [apply H2|]. induction 1 as [|p c _ IH Hc]; [done|].
  destruct (H5 p c IH Hc) as [?|?]; [done|set_solver].
Qed.
End walk.

(** ** Classification and splitting *)
Definition classify_kind (has_children : bool) (domain_kinds : list string)
    (path_usage : option string) : string * string :=
  if has_children then ("template", "children")
  else if mem "template" domain_kinds then ("template", "domain")
  else if mem "desktop" domain_kinds then ("desktop", "domain")
  else match path_usage with
       | Some u => if mem u ["desktop"; "template"] then (u, "path") else ("template", "default")
       | None => ("template", "default")
       end.

(** [groups.setdefault(root, []).append(nid)] on a dict in insertion order *)
Fixpoint group_append (root nid : string) (groups : list (string * list string))
    : list (string * list string) :=
  match groups with
  | [] => [(root, [nid])]
  | (r, l) :: groups' =>
      if (r =? root)%string then (r, l ++ [nid]) :: groups'
      else (r, l) :: group_append root nid groups'
  end.

Definition split_step (parent_of : string → option string) (moves : string → bool)
    (st : gmap string string * list (string * list string)) (nid : string)
    : gmap string string * list (string * list string) :=
  let '(sub_root, groups) := st in
  if negb (moves nid) then st
  else
    let root := match parent_of nid with
                | Some parent => default nid (sub_root !! parent)
                | None => nid
                end in
    (<[nid := root]> sub_root, group_append root nid groups).

Definition split_moving_subtrees (order : list string) (parent_of : string → option string)
    (moves : string → bool) : list (string * list string) :=
  (foldl (split_step parent_of moves) (∅, []) order).2.

Definition stranded_by_selection (order : list string) (parent_of : string → option string)
    (moves : string → bool) : list (option string * string) :=
  flat_map (λ nid,
    match parent_of nid with
    | Some p => if negb (moves nid) && moves p then [(Some p, nid)] else []
    | None => []
    end) order.

(** ** The order in which trees start *)
Definition tree_order_key (moving_ids : list string) (descendants_of : string → list string)
    (accessed_of : string → option Z) : option Z :=
  foldl (λ best candidate,
    match accessed_of candidate with
    | Some value =>
        if negb (value =? 0)%Z && match best with None => true | Some b => (b <? value)%Z end
        then Some value else best
    | None => best
    end) None (flat_map (λ sid, sid :: descendants_of sid) moving_ids).

(** [(k1, t1) <= (k2, t2)] *)
Definition tree_key_leb (a b : Z * string) : bool :=
  (a.1 <? b.1)%Z || (a.1 =? b.1)%Z && String.leb a.2 b.2.

Definition sort_tree_ids (tree_keys : list (string * option Z)) (order : string) : list string :=
  if negb (mem order ["oldest_first"; "newest_first"]) then tree_keys.*1
  else
    let known := flat_map (λ '(t, k), match k with Some k => [(k, t)] | None => [] end) tree_keys in
    let unknown := flat_map (λ '(t, k), match k with Some _ => [] | None => [t] end) tree_keys in
    let sorted_known :=
      if (order =? "newest_first")%string then py_sorted (λ a b, tree_key_leb b a) known
      else py_sorted tree_key_leb known in
    sorted_known.*2 ++ py_sorted String.leb unknown.

Fixpoint budget_scan (bytes_of : string → Z) (budget spent : Z) (trees : list string) : list string :=
  match trees with
  | [] => []
  | t :: trees' =>
      if (budget <=? spent)%Z then []
      else t :: budget_scan bytes_of budget (spent + bytes_of t)%Z trees'
  end.

Definition budget_prefix (ordered_trees : list string) (bytes_of : string → Z) (budget : Z)
    : list string :=
  if (budget =? 0)%Z then ordered_trees else budget_scan bytes_of budget 0 ordered_trees.

Definition _USAGE_AGE_DAY_SECONDS : Z := 86400.

Definition tree_within_age_threshold (order_key : option Z) (order : string) (now usage_age_days : Z)
    (include_never_used : bool) : bool :=
  if (usage_age_days =? 0)%Z || negb (mem order ["oldest_first"; "newest_first"]) then true
  else match order_key with
       | None => include_never_used
       | Some key =>
           let cutoff := (now - usage_age_days * _USAGE_AGE_DAY_SECONDS)%Z in
           if (order =? "oldest_first")%string then (key <? cutoff)%Z else (cutoff <=? key)%Z
       end.

(** ** The rows of the ledger *)

(** What [node_info] says of a disk. *)
Record node := mkNode {
  nd_kind : MigrationItemKind;
  nd_src_path : option string;
  nd_dst_path : option string;
  nd_dst_dir : option string;
  nd_parent_storage_id : option string;
  nd_parent_dst_path : option string;
  nd_size_bytes : Z;
}.

(** A pending row, every other column at its default. *)
Definition pending_row (migration_id sid tree : string) (topo : Z) (kind : MigrationItemKind)
    (src dst dst_dir parent parent_dst : option string) (size : Z) : item :=
  (planned_item (migration_id +:+ "--" +:+ sid) sid tree topo kind "" "" "" parent parent_dst)
    {{ it_migration_id := migration_id; it_src_path := src; it_dst_path := dst;
       it_dst_dir := dst_dir; it_size_bytes := size }}.

Definition build_tree_items (migration_id root_id : string) (node_info : string → node)
    (order : list string) : list item :=
  imap (λ idx nid,
    let info := node_info nid in
    pending_row migration_id nid root_id (Z.of_nat idx) (nd_kind info) (nd_src_path info)
      (nd_dst_path info) (nd_dst_dir info) (nd_parent_storage_id info)
      (if (idx =? 0)%nat then None else nd_parent_dst_path info) (nd_size_bytes info)) order.

Definition kind_selected (kind : string) (item_kinds : list string) : bool :=
  (length item_kinds =? 0)%nat || mem kind item_kinds.

(** A media row, as the planner reads it. *)
Record media_row := mkMedia {
  md_id : string;
  md_path_downloaded : option string;
  md_pool_id : option string;
  md_category : option string;
  md_total_bytes : Z;
}.

Definition media_size_bytes (r : media_row) : Z := md_total_bytes r.

Definition media_for_selection (rows : list media_row) (kind : string)
    (src_pool_id category_id path_prefix : option string) (tree_ids : list string) : list media_row :=
  List.filter (λ r,
    match md_path_downloaded r with
    | None | Some EmptyString => false
    | Some path =>
        if negb (length tree_ids =? 0)%nat then mem (md_id r) tree_ids
        else if (kind =? "pool")%string && opt_truthy src_pool_id
                && negb (opt_str_eqb (md_pool_id r) src_pool_id) then false
        else if (kind =? "category")%string && opt_truthy category_id
                && negb (opt_str_eqb (md_category r) category_id) then false
        else if (kind =? "path")%string && opt_truthy path_prefix
                && negb (String.prefix (default "" path_prefix) path) then false
        else true
    end) rows.

Definition build_media_items (migration_id : string) (dst_dir_of : media_row → string)
    (size_of : media_row → Z) (rows : list media_row) : list item :=
  (λ r,
    let src := default "" (md_path_downloaded r) in
    let dst_dir := dst_dir_of r in
    pending_row migration_id (md_id r) (md_id r) 0 MEDIA (Some src)
      (Some (dst_dir +:+ "/" +:+ basename src)) (Some dst_dir) None None (size_of r)) <$> rows.

Definition pool_is_drained (categories disks media queued : bool) : bool :=
  negb (categories || disks || media || queued).

(** ** Facts *)
Lemma tree_key_leb_total a b : tree_key_leb a b = true ∨ tree_key_leb b a = true.
Proof.
  unfold tree_key_leb. destruct (Z.lt_trichotomy a.1 b.1) as [H|[H|H]].
  - left. apply Z.ltb_lt in H as ->. done.
  - rewrite H, Z.ltb_irrefl, Z.eqb_refl. simpl. apply String.leb_total.
  - right. apply Z.ltb_lt in H as ->. done.
Qed.

Lemma tree_key_leb_antisym a b : tree_key_leb a b = true → tree_key_leb b a = true → a = b.
Proof.
  unfold tree_key_leb. destruct a as [k t], b as [k' t']; simpl.
  rewrite !orb_true_iff, !andb_true_iff, !Z.ltb_lt, !Z.eqb_eq.
  intros [?|[-> H1]] [?|[? H2]]; try lia. f_equal. by apply String.leb_antisym.
Qed.

Lemma group_append_concat root nid groups :
  flat_map snd (group_append root nid groups) ≡ₚ nid :: flat_map snd groups.
Proof.
  induction groups as [|[r l] groups IH]; simpl; [done|]. destruct (r =? root)%string; simpl.
  - rewrite <-app_assoc. simpl. by rewrite Permutation_middle.
  - rewrite IH. by rewrite Permutation_middle.
Qed.

#[export] Instance tree_key_trans : Transitive (λ a b, tree_key_leb a b = true).
Proof.
  intros [k1 t1] [k2 t2] [k3 t3]. unfold tree_key_leb. simpl.
  rewrite !orb_true_iff, !andb_true_iff, !Z.ltb_lt, !Z.eqb_eq.
  intros [?|[-> H1]] [?|[-> H2]]; [left; lia|by left|by left|right; split; [done|]].
  apply Is_true_true. apply Is_true_true in H1, H2. by trans t2.
Qed.

#[export] Instance tree_key_antisymm : AntiSymm (=) (λ a b, tree_key_leb a b = true).
Proof. intros a b. apply tree_key_leb_antisym. Qed.

Lemma sorted_reverse (l : list (Z * string)) :
  py_sorted (λ a b, tree_key_leb b a) l = reverse (py_sorted tree_key_leb l).
Proof.
  assert (AntiSymm (=) (flip (λ a b, tree_key_leb a b = true))).
  { intros a b ??. by apply tree_key_leb_antisym. }
  apply (Sorted_unique (flip (λ a b, tree_key_leb a b = true))).
  - apply py_sorted_Sorted. intros x y. destruct (tree_key_leb_total x y); auto.
  - apply Sorted_reverse, py_sorted_Sorted, tree_key_leb_total.
  - by rewrite py_sorted_perm, reverse_Permutation, py_sorted_perm.
Qed.

Lemma known_unknown_perm (keys : list (string * option Z)) :
  (flat_map (λ '(t, k), match k with Some k => [(k, t)] | None => [] end) keys).*2
  ++ flat_map (λ '(t, k), match k with Some _ => [] | None => [t] end) keys ≡ₚ keys.*1.
Proof.
  induction keys as [|[t [k|]] keys IH]; simpl; [done|by rewrite IH|].
  rewrite <-IH. symmetry. apply Permutation_middle.
Qed.

(** The walk of the moving disks: what the fold has grouped so far. *)
Record split_inv (moves : string → bool) (parent_of : string → option string) (seen : list string)
    (sub_root : gmap string string) (groups : list (string * list string)) : Prop := {
  sp_perm : flat_map snd groups ≡ₚ List.filter moves seen;
  sp_keys : NoDup groups.*1;
  sp_root : ∀ n r, sub_root !! n = Some r ↔ ∃ l, (r, l) ∈ groups ∧ n ∈ l;
  sp_head : ∀ r l, (r, l) ∈ groups → head l = Some r;
  sp_parent : ∀ r l n, (r, l) ∈ groups → n ∈ l → n ≠ r →
    ∃ p, parent_of n = Some p ∧ p ∈ l;
}.

Lemma elem_of_group_append r l root nid groups :
  NoDup groups.*1 →
  (r, l) ∈ group_append root nid groups ↔
  (r ≠ root ∧ (r, l) ∈ groups) ∨
  (r = root ∧ ((∃ l0, (root, l0) ∈ groups ∧ l = l0 ++ [nid]) ∨ (root ∉ groups.*1 ∧ l = [nid]))).
Proof.
  intros Hnd. induction groups as [|[r0 l0] groups IH]; simpl.
  - rewrite list_elem_of_singleton. set_solver.
  - simpl in Hnd. apply NoDup_cons in Hnd as [Hr0 Hnd].
    assert (∀ l', (r0, l') ∈ groups → False) as Hno.
    { intros l' Hl. apply Hr0. by apply (list_elem_of_fmap_2 fst) in Hl. }
    destruct (String.eqb_spec r0 root) as [->|Hne].
    + rewrite !elem_of_cons. split.
      * intros [[= -> ->]|Hin]; [right; split; [done|left; exists l0; set_solver]|].
        destruct (decide (r = root)) as [->|]; [by apply Hno in Hin|left; auto].
      * intros [[? [[= ? ?]|?]]|[-> [(l' & [[= ->]|Hl]%elem_of_cons & ->)|[Hni ->]]]];
          [done|by right|by left|by apply Hno in Hl|set_solver].
    + rewrite elem_of_cons, IH by done. split.
      * intros [[= -> ->]|[[? ?]|[-> [(l' & ? & ->)|[? ->]]]]].
        -- left. split; [done|by left].
        -- left. split; [done|by right].
        -- right. split; [done|]. left. exists l'. split; [by right|done].
        -- right. split; [done|]. right. split; [set_solver|done].
      * intros [[? [[= -> ->]|?]%elem_of_cons]|[-> [(l' & [[= -> ->]|?]%elem_of_cons & ->)|[Hni ->]]]];
          [by left|right; left; auto|done| |].
        -- right; right. split; [done|]. left. eauto.
        -- right; right. split; [done|]. right. split; [set_solver|done].
Qed.

Lemma group_append_keys root nid groups :
  NoDup groups.*1 → NoDup (group_append root nid groups).*1 ∧
  ∀ x, x ∈ (group_append root nid groups).*1 ↔ x = root ∨ x ∈ groups.*1.
Proof.
  induction groups as [|[r l] groups IH]; simpl; intros Hnd.
  - split; [apply NoDup_singleton|set_solver].
  - apply NoDup_cons in Hnd as [Hr Hnd]. destruct (IH Hnd) as [H1 H2].
    destruct (String.eqb_spec r root) as [->|Hne]; simpl.
    + split; [by constructor|]. intros x. rewrite !elem_of_cons. naive_solver.
    + split; [constructor; [|done]; rewrite H2; by intros [?|?]|].
      intros x. rewrite !elem_of_cons, H2. naive_solver.
Qed.

Lemma groups_functional (groups : list (string * list string)) r l l' :
  NoDup groups.*1 → (r, l) ∈ groups → (r, l') ∈ groups → l = l'.
Proof.
  induction groups as [|[r0 l0] groups IH]; simpl; [by intros _ ?%not_elem_of_nil|].
  intros [Hr Hnd]%NoDup_cons Hg Hg'. apply elem_of_cons in Hg, Hg'.
  destruct Hg as [Hg|Hg], Hg' as [Hg'|Hg']; simplify_eq; auto.
  - by apply (list_elem_of_fmap_2 fst) in Hg'.
  - by apply (list_elem_of_fmap_2 fst) in Hg.
Qed.

(** The root of the group a moving disk joins. *)
Definition group_root (parent_of : string → option string) (sub_root : gmap string string)
    (nid : string) : string :=
  match parent_of nid with Some parent => default nid (sub_root !! parent) | None => nid end.

Lemma split_inv_step moves parent_of seen sub_root groups nid :
  nid ∉ seen → moves nid = true → split_inv moves parent_of seen sub_root groups →
  let root := group_root parent_of sub_root nid in
  split_inv moves parent_of (seen ++ [nid]) (<[nid := root]> sub_root) (group_append root nid groups).
Proof.
  intros Hn Hm [H1 H2 H3 H4 H5] root.
  assert (∀ r l x, (r, l) ∈ groups → x ∈ l → x ∈ seen) as Hseen.
  { intros r l x Hg Hx. assert (x ∈ List.filter moves seen) as Hin.
    { rewrite <-H1. apply list_elem_of_In, in_flat_map. exists (r, l). rewrite <-!list_elem_of_In. done. }
    apply list_elem_of_In, filter_In in Hin as [Hin _]. by apply list_elem_of_In. }
  assert (∀ r l, (r, l) ∈ groups → r ∈ l) as Hhead.
  { intros r l Hg. apply H4 in Hg. destruct l; simplify_eq/=. left. }
  assert (root = nid ∧ nid ∉ groups.*1 ∨
    ∃ p l0, parent_of nid = Some p ∧ (root, l0) ∈ groups ∧ p ∈ l0) as Hroot.
  { assert (nid ∉ groups.*1) as Hng.
    { intros ([r l] & -> & Hg)%list_elem_of_fmap. apply Hn. eauto. }
    unfold root, group_root. destruct (parent_of nid) as [p|]; [|by left].
    destruct (sub_root !! p) as [r|] eqn:Er; [|by left]. right.
    apply H3 in Er as (l0 & ? & ?). simpl. eauto 10. }
  destruct (group_append_keys root nid groups H2) as [Hk1 Hk2].
  assert (∀ l0, (root, l0) ∈ groups → root ∈ groups.*1) as Hkey.
  { intros l0 Hg. by apply (list_elem_of_fmap_2 fst) in Hg. }
  split.
  - rewrite group_append_concat, H1, List.filter_app. simpl. rewrite Hm.
    apply Permutation_cons_append.
  - done.
  - intros n r. rewrite lookup_insert_Some, H3. setoid_rewrite (elem_of_group_append _ _ _ _ _ H2).
    split.
    + intros [[<- <-]|[Hne (l & Hg & Hl)]].
      * destruct Hroot as [[Er Hng]|(p & l0 & _ & Hg & _)].
        -- exists [nid]. rewrite Er in *. split; [right; auto|set_solver].
        -- exists (l0 ++ [nid]). split; [right; split; [done|left; eauto]|set_solver].
      * destruct (decide (r = root)) as [->|Hr]; [|exists l; auto].
        exists (l ++ [nid]). split; [right; split; [done|left; eauto]|set_solver].
    + intros (l & [[Hr Hg]|[-> [(l0 & Hg & ->)|[Hng ->]]]] & Hl).
      * right. split; [|eauto]. intros ->. apply Hn. eauto.
      * apply elem_of_app in Hl as [Hl|Hl%list_elem_of_singleton]; [|by left].
        right. split; [|eauto]. intros ->. apply Hn. eauto.
      * apply list_elem_of_singleton in Hl. by left.
  - intros r l. rewrite elem_of_group_append by done.
    intros [[_ Hg]|[-> [(l0 & Hg & ->)|[Hng ->]]]]; [by apply H4| |].
    + apply H4 in Hg. destruct l0; simplify_eq/=. done.
    + destruct Hroot as [[-> _]|(p & l0 & _ & Hg & _)]; [done|]. by apply Hkey in Hg.
  - intros r l n. rewrite elem_of_group_append by done.
    intros [[_ Hg]|[-> [(l0 & Hg & ->)|[Hng ->]]]] Hl Hne; [by eapply H5| |].
    + apply elem_of_app in Hl as [Hl|Hl%list_elem_of_singleton].
      * destruct (H5 _ _ _ Hg Hl Hne) as (p & ? & ?). exists p. set_solver.
      * subst n. destruct Hroot as [[Er _]|(p & l1 & Hp & Hg' & Hpl)]; [congruence|].
        exists p. split; [done|].
        assert (l1 = l0) as ->; [|set_solver].
        exact (groups_functional groups root l1 l0 H2 Hg' Hg).
    + apply list_elem_of_singleton in Hl as ->.
      destruct Hroot as [[-> _]|(p & l0 & _ & Hg & _)]; [done|]. by apply Hkey in Hg.
Qed.

Lemma split_fold moves parent_of seen rest sub_root groups :
  NoDup (seen ++ rest) → split_inv moves parent_of seen sub_root groups →
  ∃ sub_root', split_inv moves parent_of (seen ++ rest) sub_root'
    (foldl (split_step parent_of moves) (sub_root, groups) rest).2.
Proof.
  revert seen sub_root groups. induction rest as [|n rest IH]; intros seen sub_root groups Hnd Hi.
  { exists sub_root. by rewrite app_nil_r. }
  cbn [foldl]. replace (seen ++ n :: rest) with ((seen ++ [n]) ++ rest) in * by (by rewrite <-app_assoc).
  assert (n ∉ seen) as Hn.
  { apply NoDup_app in Hnd as [Hnd _]. apply NoDup_app in Hnd as (_ & Hd & _). set_solver. }
  unfold split_step at 2. destruct (moves n) eqn:Hm; cbn [negb].
  - apply IH; [done|]. by apply split_inv_step.
  - apply IH; [done|]. destruct Hi as [H1 H2 H3 H4 H5]. split; auto.
    rewrite H1, List.filter_app. simpl. by rewrite Hm, app_nil_r.
Qed.

Lemma budget_scan_spec bytes_of budget spent trees :
  ∃ rest, trees = budget_scan bytes_of budget spent trees ++ rest ∧
    (∀ l1 t l2, budget_scan bytes_of budget spent trees = l1 ++ t :: l2 →
       (spent + sum_by bytes_of l1 < budget)%Z) ∧
    (rest ≠ [] → (budget ≤ spent + sum_by bytes_of (budget_scan bytes_of budget spent trees))%Z).
Proof.
  revert spent. induction trees as [|t trees IH]; intros spent; cbn [budget_scan].
  { exists []. split_and!; [done| |done]. intros l1 t l2 H. by destruct l1. }
  destruct (Z.leb_spec budget spent) as [Hle|Hlt].
  { exists (t :: trees). split_and!; [done|intros l1 ? ? H; by destruct l1|]. simpl. lia. }
  destruct (IH (spent + bytes_of t)%Z) as (rest & Ht & Hpre & Hrest).
  exists rest. split_and!; [by rewrite Ht at 1| |].
  - intros [|t' l1] x l2; simpl; [intros _; lia|]. intros [= <- H]. apply Hpre in H. lia.
  - intros Hr. specialize (Hrest Hr). simpl. lia.
Qed.

Lemma build_tree_items_sids m root info order :
  it_storage_id <$> build_tree_items m root info order = order.
Proof.
  apply list_eq. intros i. unfold build_tree_items. rewrite list_lookup_fmap, list_lookup_imap.
  by destruct (order !! i).
Qed.

Lemma build_tree_items_ids m root info order :
  it_id <$> build_tree_items m root info order = (λ nid, m +:+ "--" +:+ nid) <$> order.
Proof.
  apply list_eq. intros i. unfold build_tree_items. rewrite !list_lookup_fmap, list_lookup_imap.
  by destruct (order !! i).
Qed.

Lemma elem_of_build_tree_items m root info order x :
  x ∈ build_tree_items m root info order →
  ∃ i, order !! i = Some (it_storage_id x) ∧ it_topo_index x = Z.of_nat i ∧
       it_state x = PENDING ∧ it_dst_owned x = false ∧ it_tree_id x = root ∧
       (it_topo_index x = 0%Z → it_parent_dst_path x = None).
Proof.
  intros (i & nid & -> & Hi)%elem_of_lookup_imap. exists i. split_and!; try done.
  intros Ht. change (Z.of_nat i = 0%Z) in Ht. assert (i = 0) as -> by lia. done.
Qed.

(** ** Properties *)

(** Over any finite backing graph closed under [get_children], the walk with
    enough fuel returns every disk below the root exactly once, the root first,
    and every other disk after one of its parents; a cycle does not stop it. *)
Theorem walk_lists_every_disk_after_a_parent get_children nodes root fuel :
  NoDup nodes → (∀ x, below get_children root x → x ∈ nodes) →
  (walk_fuel get_children nodes ≤ fuel)%nat →
  let order := walk_tree_topo get_children fuel root in
  NoDup order ∧ (∀ x, x ∈ order ↔ below get_children root x) ∧ head order = Some root ∧
  ∀ l1 x l2, order = l1 ++ x :: l2 → x = root ∨ ∃ p, p ∈ l1 ∧ x ∈ get_children p.
Proof.
  intros Hnd Hnodes Hfuel order.
  destruct (walk_tree_topo_inv get_children nodes root fuel Hnd Hnodes Hfuel) as [H1 _ H3 _ _ H6].
  split_and!; [done|intros x; by apply (walk_tree_topo_elem get_children nodes)| |done].
  fold order in H3, H6. destruct order as [|x order]; [set_solver|].
  destruct (H3 [] x order eq_refl) as [->|(p & ? & _)]; [done|set_solver].
Qed.

(** The children of a small graph: a template with two desktops. *)
Definition ex_children (n : string) : list string :=
  if (n =? "t")%string then ["a"; "b"] else [].

Lemma ex_children_below x : below ex_children "t" x → x ∈ ["t"; "a"; "b"].
Proof.
  induction 1 as [|p c _ IH Hc]; [set_solver|]. unfold ex_children in Hc.
  destruct (p =? "t")%string; set_solver.
Qed.

Lemma walk_lists_every_disk_after_a_parent_witness :
  NoDup (walk_tree_topo ex_children 10 "t") ∧ head (walk_tree_topo ex_children 10 "t") = Some "t".
Proof.
  destruct (walk_lists_every_disk_after_a_parent ex_children ["t"; "a"; "b"] "t" 10)
    as (Hnd & _ & Hh & _).
  - apply (bool_decide_unpack _). vm_compute. exact I.
  - exact ex_children_below.
  - vm_compute. lia.
  - split; [exact Hnd|exact Hh].
Defined.

(** When only some disks of a tree move, the sub-trees are a partition of the
    disks that move: every group starts with its root, and any other member is
    in the group of its parent, which moves with it. *)
Theorem moving_subtrees_partition_the_movers order parent_of moves :
  NoDup order →
  let groups := split_moving_subtrees order parent_of moves in
  flat_map snd groups ≡ₚ List.filter moves order ∧ NoDup groups.*1 ∧
  ∀ r l, (r, l) ∈ groups →
    head l = Some r ∧ ∀ n, n ∈ l → n ≠ r → ∃ p, parent_of n = Some p ∧ p ∈ l.
Proof.
  intros Hnd groups.
  destruct (split_fold moves parent_of [] order ∅ []) as (sub_root & [H1 H2 H3 H4 H5]); [done| |].
  - split; try set_solver. constructor.
  - split_and!; [done|done|]. intros r l Hg. split; [by apply H4|]. intros n Hn Hne. by eapply H5.
Qed.

Lemma moving_subtrees_partition_the_movers_witness :
  flat_map snd (split_moving_subtrees ["t"; "a"; "b"] (λ n, if (n =? "t")%string then None else Some "t")
    (λ n, negb (n =? "t")%string)) ≡ₚ ["a"; "b"].
Proof.
  apply (moving_subtrees_partition_the_movers ["t"; "a"; "b"]
    (λ n, if (n =? "t")%string then None else Some "t") (λ n, negb (n =? "t")%string)).
  apply (bool_decide_unpack _). vm_compute. exact I.
Defined.

(** The rows the planner writes for a tree are a legal start for the runner:
    one pending row per disk of the walk, ids and storages unique, no
    destination owned, and the root rebases onto nothing. *)
Theorem planned_tree_is_a_legal_ledger m root info order :
  NoDup order →
  let rows := build_tree_items m root info order in
  NoDup (it_id <$> rows) ∧ planned_ok rows ∧ it_storage_id <$> rows = order ∧
  ∀ x, x ∈ rows → it_tree_id x = root ∧ order !! Z.to_nat (it_topo_index x) = Some (it_storage_id x) ∧
                  (it_topo_index x = 0%Z → it_parent_dst_path x = None).
Proof.
  intros Hnd rows. pose proof (build_tree_items_sids m root info order) as Hsid. split_and!.
  - unfold rows. rewrite build_tree_items_ids. apply NoDup_fmap_2; [|done].
    intros a b H. by do 2 apply app_inj_l in H.
  - split; [unfold rows; by rewrite Hsid|]. apply Forall_forall. intros x Hx.
    by apply elem_of_build_tree_items in Hx as (i & _ & _ & ? & ? & _).
  - done.
  - intros x Hx. apply elem_of_build_tree_items in Hx as (i & Hi & Ht & _ & _ & ? & ?).
    split_and!; [done| |done]. by rewrite Ht, Nat2Z.id.
Qed.

Lemma planned_tree_is_a_legal_ledger_witness :
  planned_ok (build_tree_items "m" "t" (λ _, mkNode DESKTOP None None None None None 0) ["t"; "a"]).
Proof.
  apply (planned_tree_is_a_legal_ledger "m" "t" (λ _, mkNode DESKTOP None None None None None 0) ["t"; "a"]).
  apply (bool_decide_unpack _). vm_compute. exact I.
Defined.

(** Ordering the trees loses and invents none; trees without usage data come
    last in both directions, and over the others newest-first is exactly the
    reverse of oldest-first. *)
Theorem tree_orders_are_inverse keys order :
  (sort_tree_ids keys order ≡ₚ keys.*1) ∧
  ∃ known unknown,
    unknown ≡ₚ flat_map (λ '(t, k), match k with Some _ => [] | None => [t] end) keys ∧
    sort_tree_ids keys "oldest_first" = known ++ unknown ∧
    sort_tree_ids keys "newest_first" = reverse known ++ unknown.
Proof.
  split.
  - unfold sort_tree_ids. case_match; [done|]. rewrite (py_sorted_perm String.leb).
    rewrite <-(known_unknown_perm keys). f_equiv. by case_match; rewrite py_sorted_perm.
  - eexists _, _. split_and!; [apply py_sorted_perm|reflexivity|].
    unfold sort_tree_ids. cbn [mem existsb negb orb]. eval_strings. cbn [negb orb].
    by rewrite sorted_reverse, fmap_reverse.
Qed.

(** The plan's preview of a byte budget is what the runner admits: a prefix of
    the order, every tree of it starting while the bytes before it are below the
    budget, and cut only once the budget is spent (0 is no budget). *)
Theorem budget_prefix_is_what_fits trees bytes_of budget :
  ∃ rest, trees = budget_prefix trees bytes_of budget ++ rest ∧
    (budget ≠ 0%Z → ∀ l1 t l2, budget_prefix trees bytes_of budget = l1 ++ t :: l2 →
       (sum_by bytes_of l1 < budget)%Z) ∧
    (rest ≠ [] → budget ≠ 0%Z ∧ (budget ≤ sum_by bytes_of (budget_prefix trees bytes_of budget))%Z).
Proof.
  unfold budget_prefix. destruct (Z.eqb_spec budget 0) as [->|Hb].
  - exists []. rewrite app_nil_r. done.
  - destruct (budget_scan_spec bytes_of budget 0 trees) as (rest & H1 & H2 & H3).
    exists rest. split_and!; [done|intros _; exact H2|]. intros Hr. split; [done|by apply H3].
Qed.
