(* ===== verification/MigrationScope.v ===== *)
(** * The scope of a migration

    What a selection reserves, from
    [component/_common/src/isardvdi_common/lib/storage/migration.py]: the roots
    of the selected disks, the closure of disks a job will touch, and the two
    tests that keep two jobs apart, on the resolved disks and on the pool and
    path descriptors. *)
From Stdlib Require Import Ascii.
From S2P Require Import Prelude PyVal MigrationLedger MigrationSaga MigrationRunner.
From S2P Require Import MigrationExample MigrationSafety MigrationPlan.

(** ** The selection *)

(** A light storage row. *)
Record light_row := mkLight {
  lr_id : string;
  lr_parent : option string;
  lr_pool_id : option string;
  lr_category : option string;
  lr_directory_path : option string;
}.

(** The keys of a selection; [sel_kind] defaults to ["pool"]. *)
Record selection := mkSelection {
  sel_kind : string;
  sel_src_pool_id : option string;
  sel_category_id : option string;
  sel_path_prefix : option string;
  sel_tree_ids : list string;
}.

(** Whether the selection covers a row. *)
Definition selects (sel : selection) (s : light_row) : bool :=
  if (sel_kind sel =? "pool")%string then bool_decide (lr_pool_id s = sel_src_pool_id sel)
  else if (sel_kind sel =? "category")%string then bool_decide (lr_category s = sel_category_id sel)
  else if (sel_kind sel =? "path")%string then
    String.prefix (default "" (sel_path_prefix sel)) (default "" (lr_directory_path s))
  else false.

Definition _selection_members (storages : list light_row) (sel : selection) : gset string :=
  list_to_set (lr_id <$> List.filter (selects sel) storages).

(** [for t in tree_ids: if t in ids and t not in seen: ...] *)
Fixpoint dedup_existing (ids : gset string) (seen : list string) (tree_ids : list string)
    : list string :=
  match tree_ids with
  | [] => []
  | t :: l =>
      if bool_decide (t ∈ ids) && negb (mem t seen)
      then t :: dedup_existing ids (t :: seen) l
      else dedup_existing ids seen l
  end.

Definition compute_roots (storages : list light_row) (sel : selection) : list string :=
  let ids : gset string := list_to_set (lr_id <$> storages) in
  match sel_tree_ids sel with
  | _ :: _ => dedup_existing ids [] (sel_tree_ids sel)
  | [] =>
      let members := _selection_members storages sel in
      lr_id <$> List.filter (λ s,
        bool_decide (lr_id s ∈ members) &&
        match lr_parent s with
        | None => true
        | Some p => negb (bool_decide (p ∈ members))
        end) storages
  end.

Definition resolved_ids_from_rows (fuel : nat) (rows : list light_row)
    (children_of : string → list string) (sel : selection) : gset string :=
  ⋃ ((λ root, list_to_set (walk_tree_topo children_of fuel root)) <$> compute_roots rows sel).

(** ** Overlap *)
Definition scopes_overlap (a b : gset string) : bool := negb (bool_decide (a ∩ b = ∅)).

(** A claim: a pool, [None] when it could not be resolved, and a path prefix,
    [None] for the whole pool. *)
Definition claim_t : Type := option string * option string.

Definition descriptor_claims (kind : string) (src_pool_id path_prefix : option string)
    (category_pools : list string) : list claim_t :=
  if (kind =? "pool")%string then
    if opt_truthy src_pool_id then [(src_pool_id, None)] else []
  else if (kind =? "path")%string then [(src_pool_id, Some (default "" path_prefix))]
  else if (kind =? "category")%string then (λ p, (Some p, None)) <$> category_pools
  else [].

Definition _claim_overlap (a b : claim_t) : bool :=
  let '(pa, prefa) := a in
  let '(pb, prefb) := b in
  if match pa, pb with Some x, Some y => negb (x =? y)%string | _, _ => false end then false
  else match prefa, prefb with
       | Some x, Some y => String.prefix y x || String.prefix x y
       | _, _ => true
       end.

Definition descriptors_overlap (claims_a claims_b : list claim_t) : bool :=
  existsb (λ a, existsb (λ b, _claim_overlap a b) claims_b) claims_a.

Record job := mkJob {
  jb_id : string;
  jb_recurring : bool;
  jb_reserved_ids : gset string;
  jb_claims : list claim_t;
}.

Definition job_conflicts (new_ids : gset string) (new_claims : list claim_t) (new_recurring : bool)
    (j : job) : bool :=
  (new_recurring || jb_recurring j) && descriptors_overlap new_claims (jb_claims j)
  || scopes_overlap new_ids (jb_reserved_ids j).

Fixpoint scope_conflict (new_ids : gset string) (new_claims : list claim_t) (new_recurring : bool)
    (existing_jobs : list job) : option string :=
  match existing_jobs with
  | [] => None
  | j :: l =>
      if job_conflicts new_ids new_claims new_recurring j then Some (jb_id j)
      else scope_conflict new_ids new_claims new_recurring l
  end.

(** ** Lemmas *)
Lemma prefix_refl s : String.prefix s s = true.
Proof. induction s as [|a s IH]; simpl; [done|]. by destruct (ascii_dec a a). Qed.

(** Two prefixes of one string are comparable. *)
Lemma prefix_comparable p q s :
  String.prefix p s = true → String.prefix q s = true →
  String.prefix p q = true ∨ String.prefix q p = true.
Proof.
  revert q s. induction p as [|a p IH]; intros q s Hp Hq; [left; by destruct q|].
  destruct q as [|b q]; [right; done|]. destruct s as [|c s]; [done|]. simpl in *.
  destruct (ascii_dec a c) as [->|]; [|done]. destruct (ascii_dec b c) as [->|]; [|done].
  destruct (ascii_dec c c); [|done]. by eapply IH.
Qed.

Lemma elem_of_selection_members storages sel x :
  x ∈ _selection_members storages sel ↔ ∃ s, s ∈ storages ∧ selects sel s = true ∧ lr_id s = x.
Proof.
  unfold _selection_members. rewrite elem_of_list_to_set, list_elem_of_fmap. split.
  - intros (s & -> & Hs). apply list_elem_of_In, filter_In in Hs as [Hs ?].
    exists s. split_and!; [by apply list_elem_of_In|done|done].
  - intros (s & Hs & ? & <-). exists s. split; [done|].
    apply list_elem_of_In, filter_In. split; [by apply list_elem_of_In|done].
Qed.

Lemma elem_of_compute_roots storages sel x :
  sel_tree_ids sel = [] →
  x ∈ compute_roots storages sel ↔
  ∃ s, s ∈ storages ∧ lr_id s = x ∧ x ∈ _selection_members storages sel ∧
       ∀ p, lr_parent s = Some p → p ∉ _selection_members storages sel.
Proof.
  intros Ht. unfold compute_roots. rewrite Ht, list_elem_of_fmap.
  setoid_rewrite list_elem_of_In. setoid_rewrite filter_In. setoid_rewrite <-list_elem_of_In.
  setoid_rewrite andb_true_iff. setoid_rewrite bool_decide_eq_true. split.
  - intros (s & -> & Hs & Hm & Hp). exists s. split_and!; [done..|]. intros p Ep. rewrite Ep in Hp.
    apply negb_true_iff, bool_decide_eq_false in Hp. done.
  - intros (s & Hs & <- & Hm & Hp). exists s. split_and!; [done..|].
    destruct (lr_parent s) as [p|]; [|done]. by apply negb_true_iff, bool_decide_eq_false, Hp.
Qed.

Lemma elem_of_resolved fuel rows children_of sel x :
  x ∈ resolved_ids_from_rows fuel rows children_of sel ↔
  ∃ root, root ∈ compute_roots rows sel ∧ x ∈ walk_tree_topo children_of fuel root.
Proof.
  unfold resolved_ids_from_rows. rewrite elem_of_union_list. split.
  - intros (X & (root & -> & Hr)%list_elem_of_fmap & Hx). exists root.
    by rewrite elem_of_list_to_set in Hx.
  - intros (root & Hr & Hx). exists (list_to_set (walk_tree_topo children_of fuel root)).
    split; [apply list_elem_of_fmap; eauto|by rewrite elem_of_list_to_set].
Qed.

(** A place on a pool that a claim covers. *)
Definition claim_covers (c : claim_t) (pool dir : string) : Prop :=
  (∀ p, c.1 = Some p → p = pool) ∧ (∀ pref, c.2 = Some pref → String.prefix pref dir = true).

Lemma claim_overlap_spec a b :
  _claim_overlap a b = true ↔ ∃ pool dir, claim_covers a pool dir ∧ claim_covers b pool dir.
Proof.
  destruct a as [pa fa], b as [pb fb]. unfold claim_covers. cbn [fst snd].
  assert ((match pa, pb with Some x, Some y => negb (x =? y)%string | _, _ => false end = false) ↔
    ∃ pool, (∀ p, pa = Some p → p = pool) ∧ (∀ p, pb = Some p → p = pool)) as Hpool.
  { destruct pa as [x|], pb as [y|].
    - rewrite negb_false_iff, String.eqb_eq. split; [intros ->; naive_solver|].
      intros (pool & Hx & Hy). by rewrite (Hx x), (Hy y).
    - split; [|done]. intros _. exists x. naive_solver.
    - split; [|done]. intros _. exists y. naive_solver.
    - split; [|done]. intros _. exists "". naive_solver. }
  assert ((match fa, fb with Some x, Some y => String.prefix y x || String.prefix x y | _, _ => true end
           = true) ↔
    ∃ dir, (∀ f, fa = Some f → String.prefix f dir = true) ∧
           (∀ f, fb = Some f → String.prefix f dir = true)) as Hdir.
  { destruct fa as [x|], fb as [y|].
    - rewrite orb_true_iff. split.
      + intros [H|H]; [exists x|exists y]; split; intros ? [= <-]; auto using prefix_refl.
      + intros (dir & Hx & Hy). destruct (prefix_comparable x y dir); auto.
    - split; [|done]. intros _. exists x. split; intros ? [=]; subst; apply prefix_refl.
    - split; [|done]. intros _. exists y. split; intros ? [=]; subst; apply prefix_refl.
    - split; [|done]. intros _. exists "". naive_solver. }
  unfold _claim_overlap. destruct (match pa, pb with Some x, Some y => _ | _, _ => _ end).
  - split; [done|]. intros (pool & dir & [H1 _] & [H2 _]). exfalso.
    enough (true = false) by done. apply Hpool. eauto.
  - rewrite Hdir. split.
    + intros (dir & ? & ?). destruct (proj1 Hpool eq_refl) as (pool & ? & ?). by exists pool, dir.
    + intros (pool & dir & [_ ?] & [_ ?]). by exists dir.
Qed.

Lemma descriptors_overlap_spec a b :
  descriptors_overlap a b = true ↔
  ∃ ca cb pool dir, ca ∈ a ∧ cb ∈ b ∧ claim_covers ca pool dir ∧ claim_covers cb pool dir.
Proof.
  unfold descriptors_overlap. rewrite existsb_exists. setoid_rewrite existsb_exists.
  setoid_rewrite <-list_elem_of_In. setoid_rewrite claim_overlap_spec. naive_solver.
Qed.

Lemma scopes_overlap_false a b : scopes_overlap a b = false ↔ a ## b.
Proof.
  unfold scopes_overlap. rewrite negb_false_iff, bool_decide_eq_true. set_solver.
Qed.

Lemma scope_conflict_None ids claims rec jobs :
  scope_conflict ids claims rec jobs = None ↔ Forall (λ j, job_conflicts ids claims rec j = false) jobs.
Proof.
  induction jobs as [|j l IH]; simpl; [by split|]. rewrite Forall_cons.
  destruct (job_conflicts ids claims rec j); naive_solver.
Qed.

(** The descriptor of a selection, as the guard computes it. *)
Definition claims_of (sel : selection) (category_pools : list string) : list claim_t :=
  descriptor_claims (sel_kind sel) (sel_src_pool_id sel) (sel_path_prefix sel) category_pools.

(** A disk of pool [p] where the selection expects its disks: a path selection
    names the pool of the path or none, and the pools of a category hold its
    disks. *)
Definition placed (sel : selection) (category_pools : list string) (s : light_row) (p : string) : Prop :=
  lr_pool_id s = Some p ∧ p ≠ "" ∧
  (sel_kind sel = "path" → sel_src_pool_id sel = None ∨ sel_src_pool_id sel = Some p) ∧
  (sel_kind sel = "category" → p ∈ category_pools).

Lemma claims_cover_selected sel pools s p :
  selects sel s = true → placed sel pools s p →
  ∃ c, c ∈ claims_of sel pools ∧ claim_covers c p (default "" (lr_directory_path s)).
Proof.
  unfold selects, claims_of, descriptor_claims. intros Hs (Hp & Hne & Hpath & Hcat).
  destruct (String.eqb_spec (sel_kind sel) "pool") as [Ek|_].
  { apply bool_decide_eq_true in Hs. exists (Some p, None). rewrite <-Hs, Hp. cbn [opt_truthy].
    apply String.eqb_neq in Hne. rewrite Hne. split; [left|]. split; naive_solver. }
  destruct (String.eqb_spec (sel_kind sel) "category") as [Ek|_].
  { rewrite Ek. cbn. exists (Some p, None). split; [|split; naive_solver].
    apply list_elem_of_fmap. eauto. }
  destruct (String.eqb_spec (sel_kind sel) "path") as [Ek|_]; [|done].
  eexists. split; [left|]. split; cbn; [|naive_solver].
  intros q Hq. destruct (Hpath Ek); congruence.
Qed.

(** ** Properties *)

(** Every selected disk is in the closure the selection resolves to, and the
    roots are exactly the selected disks whose parent stays: over backing chains
    without cycles, with the children the database reports, the walk from the
    roots misses no selected disk. *)
Theorem selected_disks_are_resolved rows children_of sel nodes fuel depth :
  sel_tree_ids sel = [] →
  (∀ s p, s ∈ rows → lr_parent s = Some p → lr_id s ∈ children_of p ∧ depth p < depth (lr_id s)) →
  NoDup nodes → (∀ r x, r ∈ compute_roots rows sel → below children_of r x → x ∈ nodes) →
  walk_fuel children_of nodes ≤ fuel →
  (∀ s, s ∈ rows → selects sel s = true →
        lr_id s ∈ resolved_ids_from_rows fuel rows children_of sel) ∧
  (∀ r, r ∈ compute_roots rows sel ↔
        ∃ s, s ∈ rows ∧ lr_id s = r ∧ r ∈ _selection_members rows sel ∧
             ∀ p, lr_parent s = Some p → p ∉ _selection_members rows sel).
Proof.
  intros Ht Hpar Hnd Hnodes Hfuel. split; [|intros r; by apply elem_of_compute_roots].
  intros s Hs Hsel.
  enough (∃ r, r ∈ compute_roots rows sel ∧ below children_of r (lr_id s)) as (r & Hr & Hb).
  { apply elem_of_resolved. exists r. split; [done|].
    apply (walk_tree_topo_elem children_of nodes); eauto. }
  assert (∃ n, depth (lr_id s) < n) as [n Hn] by (eexists; apply Nat.lt_succ_diag_r).
  revert s Hs Hsel Hn. induction n as [|n IH]; intros s Hs Hsel Hn; [lia|].
  assert (lr_id s ∈ _selection_members rows sel) as Hm by (apply elem_of_selection_members; eauto).
  assert ((∃ p, lr_parent s = Some p ∧ p ∈ _selection_members rows sel) ∨
          ∀ p, lr_parent s = Some p → p ∉ _selection_members rows sel) as [(p & Ep & Hp)|Hno].
  { destruct (lr_parent s) as [p|]; [|by right]. destruct (decide (p ∈ _selection_members rows sel));
      [left; eauto|right; by intros ? [= <-]]. }
  - apply elem_of_selection_members in Hp as (s' & Hs' & Hsel' & <-).
    destruct (Hpar s _ Hs Ep) as [Hc Hd]. destruct (IH s' Hs' Hsel' ltac:(lia)) as (r & Hr & Hb).
    exists r. split; [done|]. by eapply below_child.
  - exists (lr_id s). split; [|constructor]. apply elem_of_compute_roots; [done|].
    by exists s.
Qed.

Definition ex_rows : list light_row :=
  [mkLight "t" None (Some "p") None (Some "/isard/templates");
   mkLight "a" (Some "t") (Some "p") None (Some "/isard/groups");
   mkLight "b" (Some "t") (Some "q") None (Some "/fast/groups")].

Definition ex_pool_selection : selection := mkSelection "pool" (Some "p") None None [].

Lemma selected_disks_are_resolved_witness :
  "a" ∈ resolved_ids_from_rows 10 ex_rows ex_children ex_pool_selection.
Proof.
  destruct (selected_disks_are_resolved ex_rows ex_children ex_pool_selection ["t"; "a"; "b"] 10
    (λ x, if (x =? "t")%string then 0 else 1)) as [H _].
  - reflexivity.
  - intros s p Hs Hp. unfold ex_rows in Hs. rewrite !elem_of_cons, elem_of_nil in Hs.
    destruct Hs as [->|[->|[->|[]]]]; [discriminate Hp| |]; injection Hp as <-; vm_compute;
      (split; [apply list_elem_of_In; simpl; tauto|lia]).
  - apply (bool_decide_unpack _). vm_compute. exact I.
  - intros r x Hr Hb. vm_compute in Hr. apply list_elem_of_singleton in Hr as ->.
    exact (ex_children_below x Hb).
  - vm_compute. lia.
  - apply (H (mkLight "a" (Some "t") (Some "p") None (Some "/isard/groups"))).
    + right. left.
    + reflexivity.
Defined.

(** The descriptor test is exact and symmetric: two claims overlap iff some
    place, a pool and a directory, is covered by both; an unresolved pool covers
    every pool. *)
Theorem claim_overlap_is_exact a b :
  (_claim_overlap a b = true ↔ ∃ pool dir, claim_covers a pool dir ∧ claim_covers b pool dir) ∧
  _claim_overlap a b = _claim_overlap b a.
Proof.
  split; [apply claim_overlap_spec|]. apply eq_true_iff_eq. rewrite !claim_overlap_spec. naive_solver.
Qed.

(** C23: When [scope_conflict] admits a new job, the disks it resolves to now are disjoint
    from the disks every active job has reserved; when it refuses, the job it names is the
    first one in conflict. And when the new job or the active one is recurring, no disk,
    present or future, is covered by the selections of both themselves, provided it lies
    where each of the two expects its disks ([placed]: it has a pool; a path selection names
    that pool or none; a category selection lists it among the pools of the category). This
    second part is on the disks a selection covers by its pool, category or path. It does
    not extend to the children that a job moves along with them, nor to explicit tree ids:
    a later child may join two admitted jobs ([later_child_joins_two_jobs]). *)
Theorem admitted_jobs_are_kept_apart new_ids sel pools recurring jobs :
  (∀ j, scope_conflict new_ids (claims_of sel pools) recurring jobs = None → j ∈ jobs →
     new_ids ## jb_reserved_ids j ∧
     ∀ sel' pools' s p, jb_claims j = claims_of sel' pools' → recurring || jb_recurring j = true →
       placed sel pools s p → placed sel' pools' s p →
       selects sel s = true → selects sel' s = true → False) ∧
  (∀ x, scope_conflict new_ids (claims_of sel pools) recurring jobs = Some x →
     ∃ l1 j l2, jobs = l1 ++ j :: l2 ∧ jb_id j = x ∧
       job_conflicts new_ids (claims_of sel pools) recurring j = true ∧
       Forall (λ i, job_conflicts new_ids (claims_of sel pools) recurring i = false) l1).
Proof.
  split.
  - intros j Hc Hj. apply scope_conflict_None in Hc. rewrite Forall_forall in Hc.
    specialize (Hc j Hj). unfold job_conflicts in Hc. apply orb_false_iff in Hc as [Hd Hs].
    split; [by apply scopes_overlap_false|]. intros sel' pools' s p Ej Hrec Hp Hp' H1 H2.
    rewrite Hrec, Ej in Hd. cbn [andb] in Hd.
    enough (descriptors_overlap (claims_of sel pools) (claims_of sel' pools') = true) by congruence.
    apply descriptors_overlap_spec.
    destruct (claims_cover_selected sel pools s p H1 Hp) as (c & ? & ?).
    destruct (claims_cover_selected sel' pools' s p H2 Hp') as (c' & ? & ?). by exists c, c', p, (default "" (lr_directory_path s)).
  - intros x. induction jobs as [|j l IH]; [done|]. simpl.
    destruct (job_conflicts _ _ _ j) eqn:Ej.
    + intros [= <-]. exists [], j, l. auto.
    + intros (l1 & j' & l2 & -> & ? & ? & ?)%IH. exists (j :: l1), j', l2. auto.
Qed.

(** Two recurring jobs, one for pool [p] and one for pool [q], are admitted together. A
    child of a template of [p] that is made in [q] later is then a disk of both: the first
    moves it with its template, the second because it is in its pool. *)
Lemma later_child_joins_two_jobs :
  let old := [mkLight "t" None (Some "p") None (Some "/isard/templates")] in
  let new := old ++ [mkLight "b" (Some "t") (Some "q") None (Some "/fast/groups")] in
  let no_children := λ _ : string, [] : list string in
  let children := λ s : string, if (s =? "t")%string then ["b"] else [] in
  let of_pool := λ p, mkSelection "pool" (Some p) None None [] in
  let active := mkJob "j1" true (resolved_ids_from_rows 10 old no_children (of_pool "p")) (claims_of (of_pool "p") []) in
  scope_conflict (resolved_ids_from_rows 10 old no_children (of_pool "q")) (claims_of (of_pool "q") []) true [active] = None ∧
  "b" ∈ resolved_ids_from_rows 10 new children (of_pool "p") ∧
  "b" ∈ resolved_ids_from_rows 10 new children (of_pool "q").
Proof. split; [vm_compute; reflexivity|]. split; apply (bool_decide_unpack _); vm_compute; exact I. Qed.
