(* ===== verification/MigrationPolicy.v ===== *)
(** * The job's policies

    The decisions of
    [component/_common/src/isardvdi_common/lib/storage/migration.py] about a
    whole migration job: how many trees may start, where a cancel leads, the
    status at the end of a tick, the byte budget and the cadence of the re-scan,
    the configuration changes a live job accepts, and the adaptive load loop. *)
From S2P Require Import Prelude PyVal MigrationLedger MigrationSaga MigrationRunner.

(** ** Ticks and slots *)
Definition PROGRESS_ACTIONS : list action :=
  [reconcile_pending; start_move; skip_move; mark_moved; start_rebase; mark_rebased; skip_rebase;
   db_update; start_verify; mark_verified; release; skip_release].

Definition tick_made_progress (results : list (string * option string * action)) : bool :=
  existsb (λ '(_, _, a), bool_decide (a ∈ PROGRESS_ACTIONS)) results.

Definition drive_is_stalled (active_count parallelism : Z) (progressed awaiting : bool) : bool :=
  (Z.max 1 (if parallelism =? 0 then 1 else parallelism) <=? active_count)%Z
  && negb progressed && negb awaiting.

Definition admission_slots (tree_phases : list phase) (parallelism : Z) : Z :=
  let p := Z.max 1 (if (parallelism =? 0)%Z then 1 else parallelism) in
  let in_flight := count_if (λ ph, match ph with ph_in_flight => true | _ => false end) tree_phases in
  Z.max 0 (p - in_flight).

(** ** The status of the job *)
Definition cancel_target (s : MigrationStatus) : MigrationStatus :=
  match s with
  | RUNNING | WINDOW_CLOSED | PAUSED | FINISHING_TREE | SCHEDULED | BUDGET_REACHED => FINISHING_TREE
  | _ => CANCELED
  end.

Definition TERMINAL_STATUSES : list MigrationStatus :=
  [COMPLETED; COMPLETED_WITH_SKIPS; FAILED_JOB; CANCELED].

Definition admin_action_allowed (s : MigrationStatus) (action : string) (pause_reason : option string)
    : bool :=
  if bool_decide (s ∈ TERMINAL_STATUSES) then false
  else if (action =? "start")%string then
    match s with RUNNING | FINISHING_TREE => false | _ => true end
  else if (action =? "pause")%string then
    match s with
    | RUNNING | WINDOW_CLOSED => true
    | PAUSED => match pause_reason with Some r => mem r ["load"; "space"] | None => false end
    | _ => false
    end
  else (action =? "cancel")%string.

Definition recurring_status_target
    (is_complete any_in_flight win_open finishing any_failed recurring any_skipped : bool)
    : option MigrationStatus :=
  if finishing then (if is_complete then Some CANCELED else None)
  else if recurring then
    if is_complete then Some SCHEDULED
    else Some (if win_open || any_in_flight then RUNNING else SCHEDULED)
  else if is_complete then
    if any_failed then Some FAILED_JOB
    else Some (if any_skipped then COMPLETED_WITH_SKIPS else COMPLETED)
  else None.

(** ** Budget and re-scan *)
Definition occurrence_bytes_moved (items : list item) (occurrence : string) : Z :=
  sum_by (λ it, sum_by (λ rec,
    if (au_occurrence rec =? occurrence)%string && mem (au_result rec) _BUDGET_SPENDING_RESULTS
    then au_size_bytes rec else 0%Z) (it_audit it)) items.

Definition budget_allows_new_tree (bytes_moved max_bytes : Z) : bool :=
  (max_bytes =? 0)%Z || (bytes_moved <? max_bytes)%Z.

Definition should_rescan (cadence : string) (occurrence_key : string) (last_occurrence : option string)
    (is_drained window_open : bool) : bool :=
  if negb window_open then false
  else
    let is_edge := negb (bool_decide (Some occurrence_key = last_occurrence)) in
    if mem cadence ["edge_on_drain"; "continuous"] then is_edge || is_drained else is_edge.

(** ** Configuration changes of a live job *)
Inductive field_policy := hot | hot_weakening | frozen.

Definition CONFIG_FIELD_POLICY : list (string * field_policy) :=
  [("bwlimit_kbs", hot); ("parallelism", hot); ("window", hot); ("recurring", hot);
   ("rescan_cadence", hot); ("quarantine_after", hot); ("max_bytes_per_occurrence", hot);
   ("order", hot); ("usage_age_days", hot); ("include_never_used", hot); ("on_damaged", hot);
   ("min_free_bytes", hot_weakening); ("min_free_pct", hot_weakening);
   ("failure_policy", hot_weakening); ("force_stop_desktops", hot_weakening);
   ("source_disposition", hot_weakening); ("verify", frozen); ("load_policy", hot)].

Definition config_is_live (s : MigrationStatus) : bool :=
  match s with
  | RUNNING | PAUSED | WINDOW_CLOSED | BUDGET_REACHED | FINISHING_TREE | SCHEDULED => true
  | _ => false
  end.

(** [int(v or 0)] *)
Definition int_or_0 (v : pyval) : res Z := py_int (if truthy v then v else PInt 0).

Definition _weakens (field : string) (old new : pyval) : res bool :=
  if mem field ["min_free_bytes"; "min_free_pct"] then
    n ← int_or_0 new; o ← int_or_0 old; Ok (n <? o)%Z
  else if (field =? "failure_policy")%string then
    Ok (py_eqb old (PStr "pause") && negb (py_eqb new (PStr "pause")))
  else if (field =? "force_stop_desktops")%string then Ok (truthy new && negb (truthy old))
  else if (field =? "source_disposition")%string then
    Ok (py_eqb new (PStr "delete") && negb (py_eqb old (PStr "delete")))
  else Ok false.

Inductive verdict := v_frozen | v_weakening.

Fixpoint config_change_verdicts (current changes : list (string * pyval))
    : res (list (string * verdict)) :=
  match changes with
  | [] => Ok []
  | (field, new) :: changes' =>
      let old := dict_get current field in
      here ←
        (if py_eqb new old then Ok []
         else match default hot (assoc field CONFIG_FIELD_POLICY) with
              | frozen => Ok [(field, v_frozen)]
              | hot_weakening =>
                  w ← _weakens field old new; Ok (if w : bool then [(field, v_weakening)] else [])
              | hot => Ok []
              end);
      rest ← config_change_verdicts current changes';
      Ok (here ++ rest)
  end.

(** ** The adaptive load loop *)
Definition LOAD_RAISE_AFTER_CLEAN_TICKS : Z := 3.

(** The part of a load policy the loop reads, after [normalize_load_policy]. *)
Record load_policy := mkLoadPolicy {
  lp_parallelism_min : Z;
  lp_parallelism_max : Z;
  lp_pause_above : Z;
}.

Definition LOAD_POLICY_DEFAULTS : load_policy := mkLoadPolicy 1 4 0.

(** The keys of a partial policy that are set replace the defaults. *)
Definition normalize_load_policy (pmin pmax pause_above : option Z) : load_policy :=
  mkLoadPolicy (default (lp_parallelism_min LOAD_POLICY_DEFAULTS) pmin)
    (default (lp_parallelism_max LOAD_POLICY_DEFAULTS) pmax)
    (default (lp_pause_above LOAD_POLICY_DEFAULTS) pause_above).

Inductive vote := busy | idle.
#[export] Instance vote_eq_dec : EqDecision vote.
Proof. solve_decision. Defined.

(** A sample of the signals. The NFS signal is the answer of [_nfs_vote], a
    comparison of measured rates. *)
Record sample := mkSample {
  s_governor_busy : option bool;
  s_nfs_vote : option vote;
  s_desktops_started : option Z;
}.

Definition _governor_vote (s : sample) : option vote :=
  (λ b : bool, if b then busy else idle) <$> s_governor_busy s.

(** [0.75 * ceiling] and [0.5 * ceiling], compared exactly. *)
Definition _desktop_vote (s : sample) (policy : load_policy) : option vote :=
  match s_desktops_started s with
  | None => None
  | Some started =>
      let ceiling := lp_pause_above policy in
      if (ceiling <=? 0)%Z then None
      else if (3 * ceiling <=? 4 * started)%Z then Some busy
      else if (2 * started <=? ceiling)%Z then Some idle
      else None
  end.

Inductive load_level := lv_busy | lv_idle | lv_neutral.

Definition classify_load (s : sample) (policy : load_policy) : load_level :=
  let votes := omap (λ v, v) [_governor_vote s; s_nfs_vote s; _desktop_vote s policy] in
  match votes with
  | [] => lv_neutral
  | _ => if bool_decide (busy ∈ votes) then lv_busy else lv_idle
  end.

Definition load_over_hard_limit (s : sample) (policy : load_policy) : bool :=
  match s_desktops_started s with
  | Some started => (0 <? lp_pause_above policy)%Z && (lp_pause_above policy <=? started)%Z
  | None => false
  end.

Inductive load_action := la_hold | la_lower | la_raise | la_pause | la_resume.
#[export] Instance load_action_eq_dec : EqDecision load_action.
Proof. solve_decision. Defined.

Record load_decision := mkDecision { ld_parallelism : Z; ld_action : load_action; ld_clean_ticks : Z }.

Record load_state := mkLoadState { ls_parallelism : Z; ls_clean_ticks : Z; ls_paused_by_load : bool }.

Definition clamp (low high x : Z) : Z := Z.max low (Z.min high x).

Definition decide_load (s : sample) (st : load_state) (policy : load_policy) : load_decision :=
  let low := lp_parallelism_min policy in
  let high := lp_parallelism_max policy in
  let par := clamp low high (if (ls_parallelism st =? 0)%Z then low else ls_parallelism st) in
  let clean := ls_clean_ticks st in
  let level := classify_load s policy in
  let hard := load_over_hard_limit s policy in
  if ls_paused_by_load st then
    if hard || match level with lv_busy => true | _ => false end then mkDecision par la_hold 0
    else if (LOAD_RAISE_AFTER_CLEAN_TICKS <=? clean + 1)%Z then mkDecision par la_resume 0
    else mkDecision par la_hold (clean + 1)
  else if hard then mkDecision par la_pause 0
  else match level with
       | lv_busy => if (low <? par)%Z then mkDecision (par - 1) la_lower 0 else mkDecision par la_hold 0
       | lv_idle =>
           if (LOAD_RAISE_AFTER_CLEAN_TICKS <=? clean + 1)%Z && (par <? high)%Z
           then mkDecision (par + 1) la_raise 0
           else mkDecision par la_hold (clean + 1)
       | lv_neutral => mkDecision par la_hold 0
       end.

(** What [_apply_load_policy] keeps between two ticks. *)
Definition next_load_state (st : load_state) (d : load_decision) : load_state :=
  {| ls_parallelism := match ld_action d with
                       | la_lower | la_raise => ld_parallelism d
                       | _ => ls_parallelism st
                       end;
     ls_clean_ticks := ld_clean_ticks d;
     ls_paused_by_load := match ld_action d with
                          | la_pause => true
                          | la_resume => false
                          | _ => ls_paused_by_load st
                          end |}.

Fixpoint load_run (policy : load_policy) (st : load_state) (samples : list sample)
    : list load_decision * load_state :=
  match samples with
  | [] => ([], st)
  | s :: samples' =>
      let d := decide_load s st policy in
      let '(ds, st') := load_run policy (next_load_state st d) samples' in
      (d :: ds, st')
  end.

(** ** Facts *)
Definition is_raise (d : load_decision) : bool := bool_decide (ld_action d = la_raise).

Lemma decide_load_clean s st policy :
  (0 ≤ ls_clean_ticks st)%Z →
  let d := decide_load s st policy in
  (0 ≤ ld_clean_ticks d)%Z ∧
  (ld_clean_ticks d ≤ ls_clean_ticks st + 1)%Z ∧
  (ld_action d = la_raise → 2 ≤ ls_clean_ticks st ∧ ld_clean_ticks d = 0)%Z.
Proof.
  unfold decide_load, LOAD_RAISE_AFTER_CLEAN_TICKS. intros Hc.
  repeat case_match; simpl; simp_bool; split_and!; try lia; try done.
Qed.

Lemma count_raises policy st samples :
  (0 ≤ ls_clean_ticks st)%Z →
  (3 * count_if is_raise (load_run policy st samples).1
   ≤ Z.of_nat (length samples) + ls_clean_ticks st)%Z.
Proof.
  revert st. induction samples as [|s samples IH]; intros st Hc; cbn [load_run]; [simpl; lia|].
  destruct (decide_load_clean s st policy Hc) as (H0 & H1 & H2).
  set (d := decide_load s st policy) in *.
  specialize (IH (next_load_state st d) H0). cbn [ls_clean_ticks next_load_state] in IH.
  destruct (load_run policy (next_load_state st d) samples) as [ds st'].
  cbn [fst count_if length] in *. unfold is_raise at 1.
  destruct (bool_decide_reflect (ld_action d = la_raise)) as [Hr|]; [destruct (H2 Hr)|]; lia.
Qed.

Lemma verdict_rest current c changes v :
  config_change_verdicts current (c :: changes) = Ok v →
  ∃ here rest, config_change_verdicts current changes = Ok rest ∧ v = here ++ rest.
Proof.
  destruct c as [f new]. cbn [config_change_verdicts]. unfold mbind, res_bind.
  destruct (if py_eqb _ _ then _ else _) as [here|]; [|done].
  destruct (config_change_verdicts current changes) as [rest|]; [|done].
  intros [= <-]. eauto.
Qed.

(** ** Properties *)

(** One decision of the load loop keeps the parallelism inside the policy's
    range and moves it by at most one; it goes down at once when a signal is
    busy, and up only after three clean ticks in a row with no signal busy; a
    job at the hard ceiling is paused, never raised, and resumes only after
    three clean ticks below it. *)
Theorem load_decision_is_bounded s st policy :
  (lp_parallelism_min policy ≤ lp_parallelism_max policy)%Z → (ls_parallelism st ≠ 0)%Z →
  let d := decide_load s st policy in
  let par := clamp (lp_parallelism_min policy) (lp_parallelism_max policy) (ls_parallelism st) in
  (lp_parallelism_min policy ≤ ld_parallelism d ≤ lp_parallelism_max policy)%Z ∧
  (Z.abs (ld_parallelism d - par) ≤ 1)%Z ∧
  (classify_load s policy = lv_busy → load_over_hard_limit s policy = false →
     ls_paused_by_load st = false → (lp_parallelism_min policy < par)%Z →
     ld_action d = la_lower ∧ ld_parallelism d = (par - 1)%Z) ∧
  (ld_action d = la_raise ∨ ld_action d = la_resume →
     (3 ≤ ls_clean_ticks st + 1)%Z ∧ classify_load s policy ≠ lv_busy ∧
     load_over_hard_limit s policy = false) ∧
  (load_over_hard_limit s policy = true → ls_paused_by_load st = false → ld_action d = la_pause).
Proof.
  intros Hr Hp d par.
  assert (lp_parallelism_min policy ≤ par ≤ lp_parallelism_max policy)%Z as Hpar.
  { unfold par, clamp. lia. }
  unfold d, decide_load, LOAD_RAISE_AFTER_CLEAN_TICKS. apply Z.eqb_neq in Hp. rewrite Hp. fold par.
  clearbody par. clear d.
  destruct (ls_paused_by_load st), (load_over_hard_limit s policy), (classify_load s policy);
    cbn [orb]; repeat case_match; simpl; simp_bool; split_and!; try done; try lia; intros;
    simp_bool; split_and!; try done; try lia; naive_solver lia.
Qed.

Lemma load_decision_is_bounded_witness :
  (1 ≤ ld_parallelism (decide_load (mkSample (Some true) None None) (mkLoadState 3 0 false)
         LOAD_POLICY_DEFAULTS) ≤ 4)%Z.
Proof.
  apply (load_decision_is_bounded (mkSample (Some true) None None) (mkLoadState 3 0 false)
    LOAD_POLICY_DEFAULTS); simpl; lia.
Defined.

(** Over any run of the loop, whatever the samples, the parallelism is raised
    at most once in three ticks. *)
Theorem load_raises_are_rare policy st samples :
  ls_clean_ticks st = 0%Z →
  (3 * count_if is_raise (load_run policy st samples).1 ≤ Z.of_nat (length samples))%Z.
Proof. intros Hc. pose proof (count_raises policy st samples). lia. Qed.

Lemma load_raises_are_rare_witness :
  (3 * count_if is_raise
     (load_run LOAD_POLICY_DEFAULTS (mkLoadState 1 0 false)
        (replicate 7 (mkSample (Some false) None None))).1 ≤ 7)%Z.
Proof.
  apply (load_raises_are_rare LOAD_POLICY_DEFAULTS (mkLoadState 1 0 false)
    (replicate 7 (mkSample (Some false) None None))). reflexivity.
Defined.

(** The status of a job at the end of a tick: a recurring job that is not
    being cancelled never ends by itself, a cancelled job ends exactly when it is
    complete, a one-shot job ends exactly when it is complete, as failed iff a
    disk failed; and no admin action applies to a job that ended, while a cancel
    of a job that may hold disks always lets its current tree finish. *)
Theorem job_status_rules is_complete in_flight win_open finishing any_failed recurring any_skipped :
  let target := recurring_status_target is_complete in_flight win_open finishing any_failed
                  recurring any_skipped in
  (finishing = false → recurring = true → target = Some RUNNING ∨ target = Some SCHEDULED) ∧
  (finishing = true → target = if is_complete then Some CANCELED else None) ∧
  (finishing = false → recurring = false →
     (is_complete = true ↔ ∃ s, target = Some s) ∧
     (∀ s, target = Some s → s ∈ TERMINAL_STATUSES ∧ (s = FAILED_JOB ↔ any_failed = true))) ∧
  (∀ s a r, s ∈ TERMINAL_STATUSES → admin_action_allowed s a r = false) ∧
  (∀ s r, admin_action_allowed s "cancel" r = true → cancel_target s = CANCELED →
          s = DRAFT ∨ s = PLANNED).
Proof.
  intros target. unfold target, recurring_status_target. split_and!.
  - intros -> ->. destruct is_complete, win_open, in_flight; auto.
  - intros ->. done.
  - intros -> ->. split.
    + destruct is_complete, any_failed, any_skipped; naive_solver.
    + intros s. destruct is_complete, any_failed, any_skipped; intros [= <-]; unfold TERMINAL_STATUSES;
        set_solver.
  - intros s a r Hs. unfold admin_action_allowed. by rewrite bool_decide_true.
  - intros [] r; vm_compute; naive_solver.
Qed.

(** On a live job, changing the verify gate is always reported as frozen, and
    the change that makes a source deletable, or that lowers a free-space floor,
    as weakening: none of them can slip through beside other changes. *)
Theorem dangerous_config_changes_are_reported current changes verdicts field new :
  config_change_verdicts current changes = Ok verdicts → (field, new) ∈ changes →
  py_eqb new (dict_get current field) = false →
  (field = "verify" → (field, v_frozen) ∈ verdicts) ∧
  (field = "source_disposition" → new = PStr "delete" →
     py_eqb (dict_get current field) (PStr "delete") = false → (field, v_weakening) ∈ verdicts) ∧
  (field ∈ ["min_free_bytes"; "min_free_pct"] →
     ∀ n o, int_or_0 new = Ok n → int_or_0 (dict_get current field) = Ok o → (n < o)%Z →
            (field, v_weakening) ∈ verdicts).
Proof.
  intros Hv Hin Hne. revert verdicts Hv.
  induction changes as [|[f0 new0] changes IH]; intros verdicts Hv; [set_solver|].
  apply elem_of_cons in Hin as [[= <- <-]|Hin].
  - cbn [config_change_verdicts] in Hv. rewrite Hne in Hv. unfold mbind, res_bind in Hv.
    split_and!.
    + intros ->. cbn in Hv. repeat case_match; simplify_eq; left.
    + intros -> -> Ho.
      assert (_weakens "source_disposition" (dict_get current "source_disposition") (PStr "delete")
              = Ok true) as Hw.
      { unfold _weakens. rewrite Ho. reflexivity. }
      assert (assoc "source_disposition" CONFIG_FIELD_POLICY = Some hot_weakening) as Ha by done.
      rewrite Ha in Hv. cbn [default] in Hv. rewrite Hw in Hv. repeat case_match; simplify_eq; left.
    + intros Hf n o Hn Ho Hlt. apply Z.ltb_lt in Hlt.
      assert (_weakens field (dict_get current field) new = Ok true ∧
        assoc field CONFIG_FIELD_POLICY = Some hot_weakening) as [Hw Ha].
      { split; [unfold _weakens; rewrite (proj2 (mem_spec _ _) Hf), Hn, Ho; cbn; by rewrite Hlt|].
        rewrite !elem_of_cons, elem_of_nil in Hf. destruct Hf as [->|[->|[]]]; done. }
      rewrite Ha in Hv. cbn [default] in Hv. rewrite Hw in Hv. repeat case_match; simplify_eq; left.
  - destruct (verdict_rest _ _ _ _ Hv) as (here & rest & Hr & ->).
    destruct (IH Hin rest Hr) as (H1 & H2 & H3). split_and!; intros; apply elem_of_app; right; eauto.
Qed.

Lemma dangerous_config_changes_are_reported_witness :
  ("verify", v_frozen) ∈ [("verify", v_frozen)].
Proof.
  apply (dangerous_config_changes_are_reported [("verify", PBool true)]
    [("parallelism", PInt 2); ("verify", PBool false)] [("verify", v_frozen)] "verify" (PBool false)).
  - reflexivity.
  - right. left.
  - reflexivity.
  - reflexivity.
Defined.
