(* ===== verification/GovernorConfig.v ===== *)
(** * The governor's knobs

    What a governed storage worker reads on every poll:
    - [component/_common/src/isardvdi_common/lib/governor_schedule.py], the time
      of day profiles of the heavy cap;
    - the coercions and [_merge_live_config] of
      [component/_common/src/isardvdi_common/lib/governed_worker.py];
    - [should_defer_heavy] of
      [component/_common/src/isardvdi_common/lib/resource_governor.py].

    The local time of a named zone comes from the time zone database; it is the
    parameter [local_time] of the schedule: the weekday and the minute of the
    day, or [None] for a zone [zone] does not know. *)
From Stdlib Require Import Ascii QArith.
From S2P Require Import Prelude PyVal MigrationWindow.

(** ** Schedule profiles *)
Module Schedule.

Definition MAX_PROFILES : nat := 16.
Definition MAX_HEAVY_MIN : Z := 1.
Definition MAX_HEAVY_MAX : Z := 64.

(** [parse_hhmm]: two integers around one colon *)
Definition parse_hhmm (value : pyval) : option Z :=
  match value with
  | PStr s =>
      match split_on ":" s with
      | [hs; ms] =>
          match int_of_string hs, int_of_string ms with
          | Ok h, Ok m =>
              if ((0 <=? h) && (h <? 24) && ((0 <=? m) && (m <? 60)))%Z then Some (h * 60 + m)%Z
              else None
          | _, _ => None
          end
      | _ => None
      end
  | _ => None
  end.

(** The weekdays of a list, [None] when an entry is no weekday. *)
Fixpoint days_of (l : list pyval) : option (list Z) :=
  match l with
  | [] => Some []
  | PInt d :: l' =>
      if (0 <=? d)%Z && (d <=? 6)%Z then
        out ← days_of l';
        Some (if existsb (Z.eqb d) out then out else d :: out)
      else None
  | _ :: _ => None
  end.

Definition _clean_days (days : pyval) : option (list Z) :=
  match days with
  | PNone => Some []
  | PList l => py_sorted Z.leb <$> days_of l
  | _ => None
  end.

Record profile := mkProfile {
  pf_start : pyval;
  pf_end : pyval;
  pf_days : list Z;
  pf_max_heavy : Z;
}.

(** The normalised entry, or the reason it is rejected. *)
Definition clean_profile (raw : pyval) : string + profile :=
  match raw with
  | PDict d =>
      match parse_hhmm (dict_get d "start"), parse_hhmm (dict_get d "end") with
      | Some s, Some e =>
          if (s =? e)%Z then inl "start and end must differ"
          else
            match _clean_days (dict_get d "days") with
            | None => inl "days must be a list of weekdays 0 (Monday) to 6 (Sunday)"
            | Some days =>
                match dict_get d "max_heavy" with
                | PInt value =>
                    if (MAX_HEAVY_MIN <=? value)%Z && (value <=? MAX_HEAVY_MAX)%Z
                    then inr (mkProfile (dict_get d "start") (dict_get d "end") days value)
                    else inl "max_heavy must be between 1 and 64"
                | _ => inl "max_heavy must be an integer"
                end
            end
      | _, _ => inl "start and end must be HH:MM"
      end
  | _ => inl "each schedule entry must be an object"
  end.

Definition _is_open (s e : Z) (days : list Z) (weekday now_min : Z) : bool :=
  let on_days (started_on : Z) := bool_decide (days = []) || existsb (Z.eqb started_on) days in
  if (s <? e)%Z then
    if (s <=? now_min)%Z && (now_min <? e)%Z then on_days weekday else false
  else if (s <=? now_min)%Z || (now_min <? e)%Z then
    on_days (if (now_min <? e)%Z then (weekday - 1) mod 7 else weekday)%Z
  else false.

(** An entry that is accepted and open. *)
Definition entry_open (raw : pyval) (weekday now_min : Z) : bool :=
  match clean_profile raw with
  | inl _ => false
  | inr p =>
      match parse_hhmm (pf_start p), parse_hhmm (pf_end p) with
      | Some s, Some e => _is_open s e (pf_days p) weekday now_min
      | _, _ => false
      end
  end.

Fixpoint first_open (index : nat) (entries : list pyval) (weekday now_min : Z) : option nat :=
  match entries with
  | [] => None
  | raw :: l =>
      if entry_open raw weekday now_min then Some index else first_open (S index) l weekday now_min
  end.

Section local.
Context (local_time : pyval → option (Z * Z)).

Definition active_profile (block : list (string * pyval)) : option nat :=
  match dict_get block "schedule" with
  | PList ((_ :: _) as schedule) =>
      match local_time (dict_get block "schedule_tz") with
      | None => None
      | Some (weekday, now_min) => first_open 0 (take MAX_PROFILES schedule) weekday now_min
      end
  | _ => None
  end.

(** [block["schedule"][index]["max_heavy"]], which [clean_profile] has checked. *)
Definition entry_max_heavy (block : list (string * pyval)) (index : nat) : res Z :=
  match dict_get block "schedule" with
  | PList schedule =>
      match schedule !! index with
      | Some (PDict d) =>
          match dict_get d "max_heavy" with PInt z => Ok z | _ => Raise KeyError end
      | _ => Raise KeyError
      end
  | _ => Raise KeyError
  end.

Definition effective_max_heavy (block : list (string * pyval)) (base : Z) : res (Z * option nat) :=
  match active_profile block with
  | None => Ok (base, None)
  | Some index => cap ← entry_max_heavy block index; Ok (cap, Some index)
  end.
End local.
End Schedule.

(** ** Node pressure *)
Module Pressure.

(** The value of the first token [avg10=] of a stripped [some] line. *)
Definition avg10_of_line (line : string) : option pyfloat :=
  match List.find (String.prefix "avg10=") (split_words line) with
  | None => None
  | Some token =>
      match split_max "=" 1 token with
      | [_; v] => match float_of_string v with Ok f => Some f | Raise _ => Some (float_of_Z 0) end
      | _ => None
      end
  end.

Fixpoint some_line (lines : list string) : pyfloat :=
  match lines with
  | [] => float_of_Z 0
  | line :: l =>
      let line := strip line in
      if String.prefix "some " line then
        match avg10_of_line line with
        | Some f => f
        | None => some_line l
        end
      else some_line l
  end.

Definition parse_psi_some_avg10 (text : string) : pyfloat := some_line (split_lines text).

Definition should_defer_heavy (cpu_psi io_psi : pyfloat) (running_heavy : Z) (psi_limit : pyfloat)
    (max_heavy : Z) (mem_psi : pyfloat) : bool :=
  (max_heavy <=? running_heavy)%Z
  || existsb (λ psi, negb (isfinite psi) || float_gt psi psi_limit) [cpu_psi; io_psi; mem_psi].
End Pressure.

(** ** Coercion of the knobs *)
Module Knobs.

Definition _as_bool (value : pyval) (dflt : bool) : bool :=
  match value with
  | PNone => dflt
  | PBool b => b
  | PInt _ | PFloat _ => truthy value
  | PStr s => mem (lower (strip s)) ["1"; "true"; "yes"; "on"]
  | PList _ | PDict _ => dflt
  end.

(** [try: v = m except (TypeError, ValueError): None] *)
Definition coerced {A} (m : res A) : res (option A) :=
  match m with
  | Ok v => Ok (Some v)
  | Raise e => catch (Raise e) [TypeError; ValueError] None
  end.

Definition _as_float (value : pyval) (dflt : pyfloat) : res pyfloat :=
  v ← coerced (py_float value);
  Ok (match v with
      | Some v => if float_ge v (float_of_Z 0) then v else dflt
      | None => dflt
      end).

Definition _as_int (value : pyval) (dflt : Z) : res Z :=
  v ← coerced (py_int value);
  Ok (match v with
      | Some v => if (1 <=? v)%Z then v else dflt
      | None => dflt
      end).

Definition _as_opt_int (value : pyval) (dflt : option Z) : res (option Z) :=
  match value with
  | PNone => Ok dflt
  | _ =>
      v ← coerced (py_int value);
      Ok (match v with
          | Some v => if (1 <=? v)%Z then Some v else dflt
          | None => dflt
          end)
  end.

Fixpoint int_items (d : list (string * pyval)) : res (list (string * Z)) :=
  match d with
  | [] => Ok []
  | (k, v) :: d' =>
      iv ← coerced (py_int v);
      rest ← int_items d';
      Ok (match iv with
          | Some iv => if (1 <=? iv)%Z then (k, iv) :: rest else rest
          | None => rest
          end)
  end.

Definition _as_int_map (value : pyval) : res (list (string * Z)) :=
  match value with
  | PDict d => int_items d
  | _ => Ok []
  end.

(** The fallback values and the effective knobs. *)
Record fallback := mkFallback {
  fb_enabled : bool;
  fb_psi_limit : pyfloat;
  fb_max_heavy : Z;
  fb_backoff : Z;
  fb_category_default_max_inflight : option Z;
}.

Record knobs := mkKnobs {
  k_enabled : bool;
  k_psi_limit : pyfloat;
  k_max_heavy : Z;
  k_max_heavy_profile : option nat;
  k_backoff : Z;
  k_category_weights : list (string * Z);
  k_category_max_inflight : list (string * Z);
  k_category_default_max_inflight : option Z;
}.

Section local.
Context (local_time : pyval → option (Z * Z)).

Definition _merge_live_config (block : list (string * pyval)) (env : fallback) : res knobs :=
  base ← _as_int (dict_get block "max_heavy") (fb_max_heavy env);
  heavy ← Schedule.effective_max_heavy local_time block base;
  psi_limit ← _as_float (dict_get block "psi_limit") (fb_psi_limit env);
  backoff ← _as_int (dict_get block "backoff") (fb_backoff env);
  weights ← _as_int_map (dict_get block "category_weights");
  max_inflight ← _as_int_map (dict_get block "category_max_inflight");
  default_max ← _as_opt_int (dict_get block "category_default_max_inflight")
                  (fb_category_default_max_inflight env);
  Ok {| k_enabled := _as_bool (dict_get block "enabled") (fb_enabled env);
        k_psi_limit := psi_limit;
        k_max_heavy := heavy.1;
        k_max_heavy_profile := heavy.2;
        k_backoff := backoff;
        k_category_weights := weights;
        k_category_max_inflight := max_inflight;
        k_category_default_max_inflight := default_max |}.
End local.

(** The defaults [GovernedWorker.__init__] starts from. *)
Definition startup_fallback : fallback := mkFallback true (float_of_Z 40) 2 3 None.
End Knobs.

(** ** Lemmas *)
Lemma days_of_elems l out : Schedule.days_of l = Some out → Forall (λ d, 0 ≤ d ≤ 6)%Z out.
Proof.
  revert out. induction l as [|v l IH]; intros out; simpl; [intros [= <-]; constructor|].
  destruct v; try done. case_match eqn:Eb; [|done]. simp_bool.
  destruct (Schedule.days_of l) as [o|]; simpl; [|done]. specialize (IH o eq_refl).
  intros [= <-]. case_match; [done|]. by constructor.
Qed.

Lemma clean_days_elems v days : Schedule._clean_days v = Some days → Forall (λ d, 0 ≤ d ≤ 6)%Z days.
Proof.
  destruct v; simpl; try done; [intros [= <-]; constructor|].
  destruct (Schedule.days_of l) as [o|] eqn:Eo; simpl; [|done]. intros [= <-].
  rewrite py_sorted_perm. by eapply days_of_elems.
Qed.

(** The weekdays of a profile, as a migration window reads them. *)
Lemma normalize_clean_days days :
  Forall (λ d, 0 ≤ d ≤ 6)%Z days →
  normalize_days (PInt <$> days) = if decide (days = []) then None else Some days.
Proof.
  intros Hd. unfold normalize_days.
  assert (flat_map day_of (PInt <$> days) = days) as ->.
  { induction Hd as [|d l Hd _ IH]; [done|]. rewrite fmap_cons. cbn [flat_map]. rewrite IH.
    unfold day_of. cbn. replace ((0 <=? d)%Z && (d <=? 6)%Z) with true by lia. done. }
  destruct days; [by rewrite decide_True|by rewrite decide_False].
Qed.

(** A profile is open when the window of the migrations with the same bounds
    is. *)
Lemma is_open_window s e days wd m :
  s ≠ e → Forall (λ d, 0 ≤ d ≤ 6)%Z days →
  Schedule._is_open s e days wd m = window_is_open_days (Some s) (Some e) (PInt <$> days) (Some wd) m.
Proof.
  intros Hne Hd. unfold window_is_open_days, Schedule._is_open, window_is_open, _occurrence_weekday, day_in.
  rewrite (normalize_clean_days days Hd).
  replace (s =? e)%Z with false by lia.
  destruct (Z.ltb_spec s e); [replace (e <? s)%Z with false by lia|replace (e <? s)%Z with true by lia];
    cbn [andb]; destruct (decide (days = [])) as [->|Hn].
  - by destruct (_ && _).
  - rewrite (bool_decide_false (days = [])) by done. by destruct (_ && _).
  - by destruct (_ || _).
  - rewrite (bool_decide_false (days = [])) by done. by destruct (_ || _).
Qed.

Lemma parse_hhmm_bounds v m : Schedule.parse_hhmm v = Some m → (0 ≤ m < 1440)%Z.
Proof.
  destruct v; try done. simpl. repeat case_match; intros [= <-]; simp_bool; lia.
Qed.

Lemma clean_profile_ok raw p :
  Schedule.clean_profile raw = inr p →
  ∃ d s e, raw = PDict d ∧ Schedule.parse_hhmm (Schedule.pf_start p) = Some s ∧
    Schedule.parse_hhmm (Schedule.pf_end p) = Some e ∧ proper s e ∧
    Forall (λ d, 0 ≤ d ≤ 6)%Z (Schedule.pf_days p) ∧ (1 ≤ Schedule.pf_max_heavy p ≤ 64)%Z ∧
    dict_get d "max_heavy" = PInt (Schedule.pf_max_heavy p).
Proof.
  destruct raw as [| | | | | |d]; try done. unfold Schedule.clean_profile.
  destruct (Schedule.parse_hhmm (dict_get d "start")) as [s|] eqn:Es; [|done].
  destruct (Schedule.parse_hhmm (dict_get d "end")) as [e|] eqn:Ee; [|done].
  destruct (Z.eqb_spec s e); [done|].
  destruct (Schedule._clean_days (dict_get d "days")) as [days|] eqn:Ed; [|done].
  destruct (dict_get d "max_heavy") as [| |z| | | |] eqn:Em; try done.
  case_match eqn:Eb; [|done]. intros [= <-]. exists d, s, e. simp_bool.
  pose proof (parse_hhmm_bounds _ _ Es). pose proof (parse_hhmm_bounds _ _ Ee).
  split_and!; simpl; try done; try lia. by eapply clean_days_elems.
Qed.

(** What it means for an entry of the schedule to be in force at the minute
    [t]: it is well formed and one of its occurrences covers [t]. *)
Definition in_force (raw : pyval) (t : Z) : Prop :=
  ∃ p s e d, Schedule.clean_profile raw = inr p ∧
    Schedule.parse_hhmm (Schedule.pf_start p) = Some s ∧
    Schedule.parse_hhmm (Schedule.pf_end p) = Some e ∧
    selected (PInt <$> Schedule.pf_days p) d ∧ covers s e d t.

Lemma entry_open_spec raw t :
  Schedule.entry_open raw ((t / 1440) mod 7) (t mod 1440) = true ↔ in_force raw t.
Proof.
  unfold Schedule.entry_open, in_force.
  destruct (Schedule.clean_profile raw) as [why|p] eqn:Ep; [naive_solver|].
  destruct (clean_profile_ok _ _ Ep) as (d & s & e & -> & Es & Ee & Hp & Hd & _). rewrite Es, Ee.
  rewrite (is_open_window s e) by (done || apply Hp).
  fold (open_at s e (PInt <$> Schedule.pf_days p) t). rewrite open_at_spec by done. split.
  - intros (d' & ? & ?). by exists p, s, e, d'.
  - intros (p' & s' & e' & d' & [= <-] & ? & ? & ? & ?). exists d'. naive_solver.
Qed.

Lemma first_open_spec k l wd m :
  match Schedule.first_open k l wd m with
  | Some i => ∃ l1 raw l2, l = l1 ++ raw :: l2 ∧ i = k + length l1 ∧
      Schedule.entry_open raw wd m = true ∧ Forall (λ r, Schedule.entry_open r wd m = false) l1
  | None => Forall (λ r, Schedule.entry_open r wd m = false) l
  end.
Proof.
  revert k. induction l as [|raw l IH]; intros k; simpl; [done|].
  destruct (Schedule.entry_open raw wd m) eqn:Eo.
  - exists [], raw, l. split_and!; simpl; [done|lia|done|constructor].
  - specialize (IH (S k)). destruct (Schedule.first_open (S k) l wd m); [|by constructor].
    destruct IH as (l1 & r & l2 & -> & -> & ? & ?). exists (raw :: l1), r, l2.
    split_and!; simpl; [done|lia|done|by constructor].
Qed.

(** The exceptions the coercions catch. *)
Definition caught (e : exn) : Prop := e = TypeError ∨ e = ValueError.

(** Values whose conversion stays within what the coercions catch: everything
    but an infinity, or an integer too large for a float. *)
Definition tame (v : pyval) : Prop :=
  (∀ e, py_int v = Raise e → caught e) ∧ (∀ e, py_float v = Raise e → caught e).

Lemma coerced_ok {A} (m : res A) : (∀ e, m = Raise e → caught e) → ∃ o, Knobs.coerced m = Ok o.
Proof.
  intros H. destruct m as [a|e]; [by eexists|]. simpl.
  destruct (H e eq_refl) as [->| ->]; rewrite decide_True by set_solver; by eexists.
Qed.

Lemma as_int_ok v dflt :
  (∀ e, py_int v = Raise e → caught e) → (1 ≤ dflt)%Z →
  ∃ z, Knobs._as_int v dflt = Ok z ∧ (1 ≤ z)%Z.
Proof.
  intros Hv Hd. destruct (coerced_ok _ Hv) as [o Ho]. unfold Knobs._as_int, mbind, res_bind. rewrite Ho.
  eexists. split; [reflexivity|]. destruct o; [|done]. case_match eqn:E; simp_bool; lia.
Qed.

Lemma as_float_ok v dflt :
  (∀ e, py_float v = Raise e → caught e) → float_ge dflt (float_of_Z 0) = true →
  ∃ f, Knobs._as_float v dflt = Ok f ∧ float_ge f (float_of_Z 0) = true.
Proof.
  intros Hv Hd. destruct (coerced_ok _ Hv) as [o Ho]. unfold Knobs._as_float, mbind, res_bind. rewrite Ho.
  eexists. split; [reflexivity|]. destruct o; [|done]. by case_match.
Qed.

Lemma as_opt_int_ok v dflt :
  (∀ e, py_int v = Raise e → caught e) → (∀ z, dflt = Some z → (1 ≤ z)%Z) →
  ∃ o, Knobs._as_opt_int v dflt = Ok o ∧ ∀ z, o = Some z → (1 ≤ z)%Z.
Proof.
  intros Hv Hd. destruct (coerced_ok _ Hv) as [o Ho].
  assert (∃ o', (v ← Knobs.coerced (py_int v); Ok match v with
    | Some v => if (1 <=? v)%Z then Some v else dflt | None => dflt end) = Ok o' ∧
    ∀ z, o' = Some z → (1 ≤ z)%Z) as H.
  { unfold mbind, res_bind. rewrite Ho. eexists. split; [reflexivity|]. intros z.
    destruct o as [x|]; [|auto]. destruct (Z.leb_spec 1 x); [|auto]. by intros [= <-]. }
  unfold Knobs._as_opt_int. destruct v; [eauto|exact H..].
Qed.

Lemma int_items_ok d :
  Forall (λ kv, ∀ e, py_int kv.2 = Raise e → caught e) d →
  ∃ m, Knobs.int_items d = Ok m ∧ Forall (λ kv, (1 ≤ kv.2)%Z) m.
Proof.
  induction 1 as [|[k v] d Hv _ (m & Hm & Hall)]; [by exists []|].
  destruct (coerced_ok _ Hv) as [o Ho]. cbn in Ho. cbn [Knobs.int_items]. unfold mbind, res_bind.
  rewrite Ho, Hm. eexists. split; [reflexivity|]. destruct o as [x|]; [|done].
  destruct (Z.leb_spec 1 x); [|done]. by constructor.
Qed.

Definition tame_map (v : pyval) : Prop :=
  match v with PDict d => Forall (λ kv, ∀ e, py_int kv.2 = Raise e → caught e) d | _ => True end.

Lemma as_int_map_ok v :
  tame_map v → ∃ m, Knobs._as_int_map v = Ok m ∧ Forall (λ kv, (1 ≤ kv.2)%Z) m.
Proof. destruct v; simpl; intros H; try (by exists []). by apply int_items_ok. Qed.

(** A configuration block without infinite numbers. *)
Definition tame_block (block : list (string * pyval)) : Prop :=
  (∀ k, k ∈ ["max_heavy"; "psi_limit"; "backoff"; "category_default_max_inflight"] →
        tame (dict_get block k)) ∧
  tame_map (dict_get block "category_weights") ∧ tame_map (dict_get block "category_max_inflight").

Lemma effective_max_heavy_ok local_time block base :
  ∃ cap o, Schedule.effective_max_heavy local_time block base = Ok (cap, o) ∧
    match o with
    | None => cap = base
    | Some i => (1 ≤ cap ≤ 64)%Z ∧ i < 16
    end.
Proof.
  unfold Schedule.effective_max_heavy, Schedule.active_profile.
  destruct (dict_get block "schedule") as [| | | | |schedule|] eqn:Es; try (by exists base, None).
  destruct schedule as [|x l]; [by exists base, None|].
  destruct (local_time _) as [[wd m]|]; [|by exists base, None].
  pose proof (first_open_spec 0 (take Schedule.MAX_PROFILES (x :: l)) wd m) as Hf.
  destruct (Schedule.first_open 0 (take Schedule.MAX_PROFILES (x :: l)) wd m) as [i|];
    [|exists base, None; split; done].
  destruct Hf as (l1 & raw & l2 & El & -> & Ho & _).
  assert ((x :: l) !! (0 + length l1) = Some raw ∧ 0 + length l1 < 16) as [Hi Hlt].
  { assert (take Schedule.MAX_PROFILES (x :: l) !! (0 + length l1) = Some raw) as Ht.
    { rewrite El, lookup_app_r by lia. by replace (0 + length l1 - length l1) with 0 by lia. }
    split; [|apply lookup_lt_Some in Ht; rewrite length_take in Ht; unfold Schedule.MAX_PROFILES in *; lia].
    by apply lookup_take_Some in Ht as [? _]. }
  unfold Schedule.entry_open in Ho. destruct (Schedule.clean_profile raw) as [|p] eqn:Ep; [done|].
  destruct (clean_profile_ok _ _ Ep) as (d & s & e & -> & _ & _ & _ & _ & Hb & Hm).
  exists (Schedule.pf_max_heavy p), (Some (0 + length l1)). split; [|done].
  unfold Schedule.entry_max_heavy, mbind, res_bind. rewrite Es, Hi, Hm. done.
Qed.

(** ** Properties *)

(** The schedule in force: the cap comes from the first of the sixteen first
    entries that is well formed and whose weekly range covers the minute, with
    the tail of an overnight range on the day it started; with none in force,
    or a zone nobody knows, the flat cap stands. *)
Theorem scheduled_cap_is_the_first_in_force local_time block schedule t base :
  dict_get block "schedule" = PList schedule →
  local_time (dict_get block "schedule_tz") = Some ((t / 1440) mod 7, t mod 1440)%Z →
  match Schedule.active_profile local_time block with
  | Some i => ∃ l1 raw l2 cap, schedule = l1 ++ raw :: l2 ∧ i = length l1 ∧ i < 16 ∧
      in_force raw t ∧ Forall (λ r, ¬ in_force r t) l1 ∧ (1 ≤ cap ≤ 64)%Z ∧
      Schedule.effective_max_heavy local_time block base = Ok (cap, Some i)
  | None => Forall (λ r, ¬ in_force r t) (take 16 schedule) ∧
      Schedule.effective_max_heavy local_time block base = Ok (base, None)
  end.
Proof.
  intros Hs Hl. destruct (effective_max_heavy_ok local_time block base) as (cap & o & He & Ho).
  assert (Schedule.active_profile local_time block
          = Schedule.first_open 0 (take 16 schedule) ((t / 1440) mod 7) (t mod 1440)) as Ha.
  { unfold Schedule.active_profile. rewrite Hs. destruct schedule; [done|]. by rewrite Hl. }
  pose proof (first_open_spec 0 (take 16 schedule) ((t / 1440) mod 7) (t mod 1440)) as Hf.
  rewrite <-Ha in Hf. unfold Schedule.effective_max_heavy in He |- *.
  assert (∀ l, Forall (λ r, Schedule.entry_open r ((t / 1440) mod 7) (t mod 1440) = false) l →
               Forall (λ r, ¬ in_force r t) l) as Hno.
  { intros l Hl'. eapply Forall_impl; [exact Hl'|]. intros r Hr. cbn beta in Hr. by rewrite <-entry_open_spec, Hr. }
  destruct (Schedule.active_profile local_time block) as [i|]; [|by auto].
  destruct Hf as (l1 & raw & l2 & El & -> & Hop & Hl1). apply entry_open_spec in Hop.
  unfold mbind, res_bind in He |- *. destruct (Schedule.entry_max_heavy block (0 + length l1)); [|done].
  injection He as -> <-. destruct Ho as [Hb Hlt].
  exists l1, raw, (l2 ++ drop 16 schedule), cap. split.
  { rewrite app_comm_cons, app_assoc, <-El. by rewrite take_drop. }
  split_and!; auto; lia.
Qed.

Definition ex_schedule : list pyval :=
  [PDict [("start", PStr "22:00"); ("end", PStr "06:00"); ("max_heavy", PInt 0)];
   PDict [("start", PStr "22:00"); ("end", PStr "06:00"); ("days", PList [PInt 4]);
          ("max_heavy", PInt 12)]].

Lemma scheduled_cap_is_the_first_in_force_witness :
  ∃ cap, Schedule.effective_max_heavy (λ _, Some (5, 60)%Z) [("schedule", PList ex_schedule)] 2
         = Ok (cap, Some 1) ∧ (1 ≤ cap ≤ 64)%Z.
Proof.
  pose proof (scheduled_cap_is_the_first_in_force (λ _, Some (5, 60)%Z)
    [("schedule", PList ex_schedule)] ex_schedule (5 * 1440 + 60) 2 eq_refl eq_refl) as H.
  assert (Schedule.active_profile (λ _, Some (5, 60)%Z) [("schedule", PList ex_schedule)] = Some 1)
    as Ha by (vm_compute; reflexivity).
  rewrite Ha in H. destruct H as (l1 & raw & l2 & cap & _ & _ & _ & _ & _ & Hb & He).
  exists cap. split; [exact He|exact Hb].
Defined.

(** Whatever an admin stores short of an infinite number, the merge gives
    usable knobs: at least one heavy slot, a positive poll, a pressure limit
    that is not negative, and caps and weights of at least one. *)
Theorem merged_knobs_are_usable local_time block env :
  tame_block block →
  (1 ≤ Knobs.fb_max_heavy env)%Z → (1 ≤ Knobs.fb_backoff env)%Z →
  float_ge (Knobs.fb_psi_limit env) (float_of_Z 0) = true →
  (∀ z, Knobs.fb_category_default_max_inflight env = Some z → (1 ≤ z)%Z) →
  ∃ k, Knobs._merge_live_config local_time block env = Ok k ∧
    (1 ≤ Knobs.k_max_heavy k)%Z ∧ (1 ≤ Knobs.k_backoff k)%Z ∧
    float_ge (Knobs.k_psi_limit k) (float_of_Z 0) = true ∧
    Forall (λ kv, (1 ≤ kv.2)%Z) (Knobs.k_category_weights k) ∧
    Forall (λ kv, (1 ≤ kv.2)%Z) (Knobs.k_category_max_inflight k) ∧
    (∀ z, Knobs.k_category_default_max_inflight k = Some z → (1 ≤ z)%Z).
Proof.
  intros (Ht & Hw & Hm) H1 H2 H3 H4.
  destruct (as_int_ok (dict_get block "max_heavy") _ (proj1 (Ht "max_heavy" ltac:(set_solver))) H1)
    as (base & Eb & Hb).
  destruct (effective_max_heavy_ok local_time block base) as (cap & o & Eh & Ho).
  destruct (as_float_ok (dict_get block "psi_limit") _ (proj2 (Ht "psi_limit" ltac:(set_solver))) H3)
    as (psi & Ep & Hp).
  destruct (as_int_ok (dict_get block "backoff") _ (proj1 (Ht "backoff" ltac:(set_solver))) H2)
    as (bo & Ebo & Hbo).
  destruct (as_int_map_ok _ Hw) as (ws & Ews & Hws). destruct (as_int_map_ok _ Hm) as (ms & Ems & Hms).
  destruct (as_opt_int_ok (dict_get block "category_default_max_inflight") _
    (proj1 (Ht "category_default_max_inflight" ltac:(set_solver))) H4) as (dm & Edm & Hdm).
  unfold Knobs._merge_live_config, mbind, res_bind. rewrite Eb, Eh, Ep, Ebo, Ews, Ems, Edm.
  eexists. split; [reflexivity|]. simpl. split_and!; [|done..]. destruct o; lia.
Qed.

Definition ex_block : list (string * pyval) :=
  [("max_heavy", PStr "many"); ("backoff", PInt 0); ("category_weights", PDict [("c", PInt 3)])].

Lemma ex_block_tame : tame_block ex_block.
Proof.
  split; [|split; [repeat constructor; by intros|exact I]]. intros k Hk.
  rewrite !elem_of_cons, elem_of_nil in Hk.
  destruct Hk as [->|[->|[->|[->|[]]]]]; split; intros e He; vm_compute in He;
    first [discriminate He|injection He as <-; first [by left|by right]].
Qed.

Lemma merged_knobs_are_usable_witness :
  ∃ k, Knobs._merge_live_config (λ _, None) ex_block Knobs.startup_fallback = Ok k ∧
       (1 ≤ Knobs.k_max_heavy k)%Z.
Proof.
  destruct (merged_knobs_are_usable (λ _, None) ex_block Knobs.startup_fallback ex_block_tame)
    as (k & Hk & Hm & _).
  - vm_compute. discriminate.
  - vm_compute. discriminate.
  - reflexivity.
  - intros z [=].
  - exists k. split; [exact Hk|exact Hm].
Defined.

(** An infinite number is not covered by the fallback: [int] raises an
    overflow the coercions do not catch, so the merge of a block with
    [Infinity] for the poll raises out of the worker's dequeue loop. *)
Theorem infinite_knob_escapes_the_fallback local_time v :
  v ∈ ["backoff"; "max_heavy"; "category_default_max_inflight"] →
  Knobs._merge_live_config local_time [(v, PFloat (FInf false))] Knobs.startup_fallback
  = Raise OverflowError.
Proof. rewrite !elem_of_cons, elem_of_nil. intros [->|[->|[->|[]]]]; reflexivity. Qed.

Lemma infinite_knob_escapes_the_fallback_witness :
  Knobs._merge_live_config (λ _, None) [("backoff", PFloat (FInf false))] Knobs.startup_fallback
  = Raise OverflowError.
Proof. apply (infinite_knob_escapes_the_fallback (λ _, None) "backoff"). left. Defined.
