(* ===== verification/Governor.v ===== *)
(** * The governed storage worker

    [GovernedWorker] of
    [component/_common/src/isardvdi_common/lib/governed_worker.py]: the slots a
    worker reserves before it runs a heavy or a per-category job, how leaked
    slots are pruned, the order in which it serves its lanes and the admission
    of the job it popped.

    The broker is a service. What the code relies on of it, its sets, strings
    and lists under one key each, is the class [Redis], with the documented
    effect of every command the code sends as the laws [RedisLaws]; a finite map
    per type implements it. A call that raises is the argument [up]: the code
    catches every error of the broker, and each operation says what it answers
    then. *)
From stdpp Require Import pretty.
From S2P Require Import Prelude PyVal QueueTiers GovernorConfig.

(** ** The broker *)
Class Redis (R : Type) := {
  smembers : R → string → gset string;
  sadd : string → string → R → R;
  srem : string → string → R → R;
  get : R → string → option string;
  set_key : string → string → R → R;
  delete_key : string → R → R;
  lrange : R → string → list string;
  lpush : string → string → R → R;
}.

Class RedisLaws (R : Type) `{Redis R} := {
  smembers_sadd r k m k' :
    smembers (sadd k m r) k' = if decide (k = k') then {[m]} ∪ smembers r k' else smembers r k';
  smembers_srem r k m k' :
    smembers (srem k m r) k' = if decide (k = k') then smembers r k' ∖ {[m]} else smembers r k';
  smembers_set r k v k' : smembers (set_key k v r) k' = smembers r k';
  smembers_delete r k k' : smembers (delete_key k r) k' = smembers r k';
  smembers_lpush r k v k' : smembers (lpush k v r) k' = smembers r k';
  get_sadd r k m k' : get (sadd k m r) k' = get r k';
  get_srem r k m k' : get (srem k m r) k' = get r k';
  get_set r k v k' : get (set_key k v r) k' = if decide (k = k') then Some v else get r k';
  get_delete r k k' : get (delete_key k r) k' = if decide (k = k') then None else get r k';
  lrange_sadd r k m k' : lrange (sadd k m r) k' = lrange r k';
  lrange_lpush r k v k' : lrange (lpush k v r) k' = if decide (k = k') then v :: lrange r k' else lrange r k';
}.

(** The broker as three finite maps. *)
Record store := mkStore {
  so_sets : gmap string (gset string);
  so_strings : gmap string string;
  so_lists : gmap string (list string);
}.

#[export] Instance store_redis : Redis store := {
  smembers r k := default ∅ (so_sets r !! k);
  sadd k m r := mkStore (<[k := {[m]} ∪ default ∅ (so_sets r !! k)]> (so_sets r)) (so_strings r) (so_lists r);
  srem k m r := mkStore (<[k := default ∅ (so_sets r !! k) ∖ {[m]}]> (so_sets r)) (so_strings r) (so_lists r);
  get r k := so_strings r !! k;
  set_key k v r := mkStore (so_sets r) (<[k := v]> (so_strings r)) (so_lists r);
  delete_key k r := mkStore (so_sets r) (delete k (so_strings r)) (so_lists r);
  lrange r k := default [] (so_lists r !! k);
  lpush k v r := mkStore (so_sets r) (so_strings r) (<[k := v :: default [] (so_lists r !! k)]> (so_lists r));
}.

#[export] Instance store_laws : RedisLaws store.
Proof.
  split; intros; simpl; try done; case_decide; subst;
    rewrite ?lookup_insert_eq, ?lookup_insert_ne, ?lookup_delete_eq, ?lookup_delete_ne by done; done.
Qed.

(** ** Keys *)
Definition HEAVY_RUNNING_KEY : string := "governor:heavy_running".
Definition CATEGORY_RUNNING_PREFIX : string := "governor:running".
Definition RESERVED_BY_PREFIX : string := "governor:reserved_by".
Definition RQ_QUEUES : string := "rq:queues".

Definition category_running_key (pool category : string) : string :=
  CATEGORY_RUNNING_PREFIX +:+ ":" +:+ pool +:+ ":" +:+ category.

Definition reserved_by_key (job_id : string) : string := RESERVED_BY_PREFIX +:+ ":" +:+ job_id.

Definition _LIVE_STATUSES : list string := ["started"; "queued"; "deferred"; "scheduled"].

Definition is_heavy_queue (name : string) : bool :=
  match parse_storage_queue (PStr name) with
  | Some (_, _, tier) => mem (effective_tier tier) HEAVY_TIERS
  | None => false
  end.

Definition is_deferrable_queue (name : string) : bool :=
  match parse_storage_queue (PStr name) with
  | Some (_, _, tier) => mem (effective_tier tier) DEFERRABLE_TIERS
  | None => false
  end.

(** ** A worker *)
Record worker := mkWorker {
  wk_name : string;
  wk_floor : bool;
  wk_multitenancy : bool;
  wk_knobs : Knobs.knobs;
  wk_base : list string;      (** the names of [_ordered_queues] *)
  wk_cursor : Z;              (** [_wrr_cursor] *)
}.

Definition _is_governing (wk : worker) : bool :=
  Knobs.k_enabled (wk_knobs wk) && negb (wk_floor wk).

Definition gov_max_heavy (wk : worker) : Z := Knobs.k_max_heavy (wk_knobs wk).

Section broker.
Context {R : Type} `{Redis R}.

Definition scard (r : R) (k : string) : Z := Z.of_nat (size (smembers r k)).

(** [_RESERVE_LUA]: one atomic script. The expiry that it and the next one refresh
    ([EXPIRE], a day) is not modelled: a running set never lapses here. *)
Definition _RESERVE_LUA (job_id : string) (max_heavy : Z) (r : R) : bool * R :=
  if (scard r HEAVY_RUNNING_KEY <? max_heavy)%Z
  then (true, sadd HEAVY_RUNNING_KEY job_id r) else (false, r).

(** [_FAIR_RESERVE_LUA]: one atomic script; [-1] is "no category cap" *)
Definition _FAIR_RESERVE_LUA (category_key job_id : string) (catcap : Z) (isbg : bool) (maxh : Z)
    (r : R) : bool * R :=
  if (0 <=? catcap)%Z && (catcap <=? scard r category_key)%Z then (false, r)
  else if isbg && (maxh <=? scard r HEAVY_RUNNING_KEY)%Z then (false, r)
  else
    let r := sadd category_key job_id r in
    (true, if isbg then sadd HEAVY_RUNNING_KEY job_id r else r).

(** ** Reservations *)
Definition _record_reservation_owner (up : bool) (wk : worker) (job_id : string) (r : R) : R :=
  if up then set_key (reserved_by_key job_id) (wk_name wk) r else r.

Definition _reserve_heavy (up up' : bool) (wk : worker) (job_id : string) (r : R) : bool * R :=
  if negb up then (true, r)
  else
    let '(ok, r) := _RESERVE_LUA job_id (gov_max_heavy wk) r in
    (ok, if ok then _record_reservation_owner up' wk job_id r else r).

Definition _release_heavy (up : bool) (job_id : string) (r : R) : R :=
  if up then delete_key (reserved_by_key job_id) (srem HEAVY_RUNNING_KEY job_id r) else r.

Definition _category_cap (wk : worker) (category : string) : option Z :=
  match assoc category (Knobs.k_category_max_inflight (wk_knobs wk)) with
  | Some cap => Some cap
  | None => Knobs.k_category_default_max_inflight (wk_knobs wk)
  end.

Definition _reserve_fair (up up' : bool) (wk : worker) (job_id pool category : string)
    (is_heavy : bool) (r : R) : bool * R :=
  if negb up then (true, r)
  else
    let '(ok, r) := _FAIR_RESERVE_LUA (category_running_key pool category) job_id
                      (default (-1)%Z (_category_cap wk category)) is_heavy (gov_max_heavy wk) r in
    (ok, if ok then _record_reservation_owner up' wk job_id r else r).

Definition _release_fair (up : bool) (job_id pool category : string) (is_heavy : bool) (r : R) : R :=
  let r := if up then srem (category_running_key pool category) job_id r else r in
  if is_heavy then _release_heavy up job_id r
  else if up then delete_key (reserved_by_key job_id) r else r.

(** ** Pruning *)

(** [worker_key] is the existence of a worker's heartbeat key, [status] the
    status of a job, [None] when it cannot be fetched. *)
Definition _reservation_owner_alive (up : bool) (worker_key : string → bool) (job_id : string) (r : R)
    : bool :=
  if negb up then true
  else match get r (reserved_by_key job_id) with
       | Some owner => if (owner =? "")%string then true else worker_key owner
       | None => true
       end.

Definition job_stale (up : bool) (status : string → option string) (worker_key : string → bool)
    (job_id : string) (r : R) : bool :=
  negb (match status job_id with Some s => mem s _LIVE_STATUSES | None => false end)
  || negb (_reservation_owner_alive up worker_key job_id r).

Definition prune_member (up : bool) (status : string → option string) (worker_key : string → bool)
    (key : string) (r : R) (job_id : string) : R :=
  if job_stale up status worker_key job_id r && up
  then delete_key (reserved_by_key job_id) (srem key job_id r) else r.

Definition _prune_stale_members (up : bool) (status : string → option string)
    (worker_key : string → bool) (key : string) (r : R) : R :=
  if negb up then r
  else foldl (prune_member up status worker_key key) r (elements (smembers r key)).

Definition _reconcile_heavy (up : bool) (status : string → option string)
    (worker_key : string → bool) (r : R) : R :=
  _prune_stale_members up status worker_key HEAVY_RUNNING_KEY r.

Definition _heavy_at_cap (up : bool) (wk : worker) (r : R) : bool :=
  up && (gov_max_heavy wk <=? scard r HEAVY_RUNNING_KEY)%Z.

Definition _category_inflight (up : bool) (pool category : string) (r : R) : Z :=
  if up then scard r (category_running_key pool category) else 0.

Definition _category_at_cap (up : bool) (status : string → option string)
    (worker_key : string → bool) (wk : worker) (pool category : string) (r : R) : bool * R :=
  match _category_cap wk category with
  | None => (false, r)
  | Some cap =>
      if (_category_inflight up pool category r <? cap)%Z then (false, r)
      else
        let r := _prune_stale_members up status worker_key (category_running_key pool category) r in
        ((cap <=? _category_inflight up pool category r)%Z, r)
  end.
End broker.

(** ** The order of the lanes *)

(** [[c] * max(1, weight)] *)
Definition weight_of (weights : list (string * Z)) (c : string) : nat :=
  Z.to_nat (Z.max 1 (default 1%Z (assoc c weights))).

Fixpoint dedup_first (seen l : list string) : list string :=
  match l with
  | [] => []
  | c :: l' => if mem c seen then dedup_first seen l' else c :: dedup_first (c :: seen) l'
  end.

(** The ring of a set of categories: each repeated by its weight. *)
Definition ring (categories : list string) (weights : list (string * Z)) : list string :=
  flat_map (λ c, replicate (weight_of weights c) c) (py_sorted String.leb categories).

Definition _weighted_rotation (categories : list string) (weights : list (string * Z)) (cursor : Z)
    : list string :=
  let expanded := ring categories weights in
  match expanded with
  | [] => []
  | _ =>
      let off := Z.to_nat (cursor mod Z.of_nat (length expanded)) in
      dedup_first [] (drop off expanded ++ take off expanded)
  end.

(** The flat lane of a governed tier: pool and tier. *)
Definition fair_base (name : string) : option (string * string) :=
  match parse_storage_queue (PStr name) with
  | Some (pool, None, tier) => if mem tier _FAIR_TIERS then Some (pool, tier) else None
  | _ => None
  end.

Definition _derive_fair_targets (wk : worker) : list (string * string) :=
  omap fair_base (wk_base wk).

Definition lane_name (pool category tier : string) : string :=
  "storage." +:+ pool +:+ "." +:+ category +:+ "." +:+ tier.

Definition QUEUE_PREFIX : string := "rq:queue:".

(** The pool, category and tier of a registered per-category lane the worker
    serves. *)
Definition discovered_lane (wk : worker) (member : string) : option (string * string * string) :=
  if String.prefix QUEUE_PREFIX member then
    match parse_storage_queue (PStr (String.substring (String.length QUEUE_PREFIX) (String.length member) member)) with
    | Some (pool, Some category, tier) =>
        if bool_decide ((pool, tier) ∈ _derive_fair_targets wk) then Some (pool, category, tier) else None
    | _ => None
    end
  else None.

(** A rotation of the static base set by [_wrr_cursor] for the floor worker. *)
Definition _ordered_base_for_poll (wk : worker) : list string :=
  let base := wk_base wk in
  if negb (wk_floor wk) || (length base <? 2)%nat then base
  else
    let off := Z.to_nat (wk_cursor wk mod Z.of_nat (length base)) in
    drop off base ++ take off base.

Section lanes.
Context {R : Type} `{Redis R}.

(** The active per-category lanes; a Python dict of lists in the order of
    [SMEMBERS]. *)
Definition _discover_fair_queues (up : bool) (wk : worker) (r : R) : list (string * string * string) :=
  if bool_decide (_derive_fair_targets wk = []) || negb up then []
  else omap (discovered_lane wk) (elements (smembers r RQ_QUEUES)).

(** [active.get((pool, tier), [])] *)
Definition categories_of (active : list (string * string * string)) (pool tier : string) : list string :=
  omap (λ '(p, c, t), if (p =? pool)%string && (t =? tier)%string then Some c else None) active.

(** The categories below their cap, pruning the ones at it. *)
Fixpoint drop_at_cap (up : bool) (status : string → option string) (worker_key : string → bool)
    (wk : worker) (pool : string) (cats : list string) (r : R) : list string * R :=
  match cats with
  | [] => ([], r)
  | c :: l =>
      let '(full, r) := _category_at_cap up status worker_key wk pool c r in
      let '(rest, r) := drop_at_cap up status worker_key wk pool l r in
      (if full then rest else c :: rest, r)
  end.

(** The lanes one lane of the base set stands for in this poll. *)
Definition lanes_of_base (up : bool) (status : string → option string) (worker_key : string → bool)
    (wk : worker) (active : list (string * string * string)) (defer_bg : bool) (q : string) (r : R)
    : list string * R :=
  match fair_base q with
  | None => (if defer_bg && is_deferrable_queue q then [] else [q], r)
  | Some (pool, tier) =>
      if mem tier DEFERRABLE_TIERS && defer_bg then ([], r)
      else
        let cats := categories_of active pool tier in
        let '(cats, r) := if _is_governing wk then drop_at_cap up status worker_key wk pool cats r
                          else (cats, r) in
        let lanes := (λ c, lane_name pool c tier) <$>
          _weighted_rotation cats (Knobs.k_category_weights (wk_knobs wk)) (wk_cursor wk) in
        let '(full, r) := if _is_governing wk
                          then _category_at_cap up status worker_key wk pool NULL_CATEGORY r
                          else (false, r) in
        (lanes ++ (if full then [] else [q]), r)
  end.

Fixpoint order_lanes (up : bool) (status : string → option string) (worker_key : string → bool)
    (wk : worker) (active : list (string * string * string)) (defer_bg : bool) (base : list string)
    (r : R) : list string * R :=
  match base with
  | [] => ([], r)
  | q :: l =>
      let '(here, r) := lanes_of_base up status worker_key wk active defer_bg q r in
      let '(rest, r) := order_lanes up status worker_key wk active defer_bg l r in
      (here ++ rest, r)
  end.

Definition bump_cursor (wk : worker) : worker :=
  mkWorker (wk_name wk) (wk_floor wk) (wk_multitenancy wk) (wk_knobs wk) (wk_base wk) (wk_cursor wk + 1).

Definition _fair_ordered_queues (up : bool) (status : string → option string)
    (worker_key : string → bool) (wk : worker) (defer_bg : bool) (r : R) : worker * list string * R :=
  let active := _discover_fair_queues up wk r in
  let wk := bump_cursor wk in
  let '(ordered, r) :=
    order_lanes up status worker_key wk active defer_bg (_ordered_base_for_poll wk) r in
  (wk, ordered, r).

(** The keys of the discovery dict in first-seen order. *)
Definition targets_of (active : list (string * string * string)) : list (string * string) :=
  foldl (λ acc '(p, _, t), if bool_decide ((p, t) ∈ acc) then acc else acc ++ [(p, t)]) [] active.

Definition _flat_ordered_queues (up : bool) (wk : worker) (defer_bg : bool) (r : R)
    : worker * list string :=
  let wk := bump_cursor wk in
  let base := List.filter (λ q, negb (defer_bg && is_deferrable_queue q)) (_ordered_base_for_poll wk) in
  let active := _discover_fair_queues up wk r in
  let strays := flat_map (λ '(pool, tier),
    if defer_bg && mem tier DEFERRABLE_TIERS then []
    else (λ c, lane_name pool c tier) <$> py_sorted String.leb (categories_of active pool tier))
    (targets_of active) in
  (wk, base ++ strays).

(** ** Admission *)

(** [_gov_reserved] *)
Inductive reservation :=
  | NoSlot
  | FairSlot (pool category : string) (heavy : bool)
  | HeavySlot.

#[export] Instance reservation_eq_dec : EqDecision reservation.
Proof. solve_decision. Defined.

(** [queue.push_job_id(job_id, at_front=True)] and the lane's re-registration. *)
Definition _push_back (up : bool) (queue job_id : string) (r : R) : R :=
  let r := lpush (QUEUE_PREFIX +:+ queue) job_id r in
  if up then sadd RQ_QUEUES (QUEUE_PREFIX +:+ queue) r else r.

Definition _admit (up up' : bool) (wk : worker) (pressure_high : bool) (job_id queue : string)
    (defer_bg : bool) (r : R) : bool * reservation * R :=
  let parsed := parse_storage_queue (PStr queue) in
  let governing := _is_governing wk in
  let fair := wk_multitenancy wk && match parsed with Some (_, _, tier) => mem tier _FAIR_TIERS | None => false end in
  match parsed, fair && governing with
  | Some (pool, cat, tier), true =>
      let category := default NULL_CATEGORY cat in
      let capped := mem tier HEAVY_TIERS in
      if mem tier DEFERRABLE_TIERS && (defer_bg || pressure_high)
      then (false, NoSlot, _push_back up queue job_id r)
      else
        let '(ok, r) := _reserve_fair up up' wk job_id pool category capped r in
        if ok then (true, FairSlot pool category capped, r)
        else (false, NoSlot, _push_back up queue job_id r)
  | _, _ =>
      if negb fair && governing && is_deferrable_queue queue then
        if defer_bg || pressure_high then (false, NoSlot, _push_back up queue job_id r)
        else if is_heavy_queue queue then
          let '(ok, r) := _reserve_heavy up up' wk job_id r in
          if ok then (true, HeavySlot, r) else (false, NoSlot, _push_back up queue job_id r)
        else (true, NoSlot, r)
      else (true, NoSlot, r)
  end.

(** The [finally] of [execute_job]. *)
Definition execute_job_release (up : bool) (job_id : string) (res : reservation) (r : R) : R :=
  match res with
  | NoSlot => r
  | FairSlot pool category heavy => _release_fair up job_id pool category heavy r
  | HeavySlot => _release_heavy up job_id r
  end.

(** ** Deferral *)
Definition _defer_background (up : bool) (status : string → option string)
    (worker_key : string → bool) (wk : worker) (pressure_high : bool) (r : R) : option string * R :=
  if negb (_is_governing wk) then (None, r)
  else if pressure_high then (Some "psi", r)
  else if _heavy_at_cap up wk r then
    let r := _reconcile_heavy up status worker_key r in
    (if _heavy_at_cap up wk r then Some "at_cap" else None, r)
  else (None, r).

(** The state of the worker after the poll and whether the event is counted:
    only the rising edge is. *)
Definition _note_defer (was_deferring : bool) (reason : option string) : bool * bool :=
  let deferring := match reason with Some _ => true | None => false end in
  (deferring, deferring && negb was_deferring).

(** ** Re-enabling the governor *)

(** A lane of the seeding pass: its started registry, pool, category and tier. *)
Definition seed_lane (started : string → list string) (r : R) (lane : string * string * option string * string)
    : R :=
  let '(qname, pool, category, tier) := lane in
  foldl (λ r jid,
    let r := if mem tier HEAVY_TIERS then sadd HEAVY_RUNNING_KEY jid r else r in
    match category with
    | Some c => sadd (category_running_key pool c) jid r
    | None => r
    end) r (started qname).

Definition _seed_running_from_registries (up : bool) (started : string → list string) (wk : worker)
    (r : R) : R :=
  if negb up then r
  else
    let flat := omap (λ q, (λ '(pool, tier),
      (q, pool, if wk_multitenancy wk then Some NULL_CATEGORY else None, tier)) <$> fair_base q)
      (wk_base wk) in
    let cats := (λ '(pool, c, tier), (lane_name pool c tier, pool, Some c, tier))
                <$> _discover_fair_queues up wk r in
    foldl (seed_lane started) r (flat ++ cats).
End lanes.

(** ** Pruning: what is left *)
Lemma reserved_by_inj i j : reserved_by_key i = reserved_by_key j → i = j.
Proof. unfold reserved_by_key, RESERVED_BY_PREFIX. intros H. by simplify_eq/=. Qed.

Section laws.
Context {R : Type} `{RedisLaws R}.

Lemma owner_alive_ext up wkey j r r' :
  get r' (reserved_by_key j) = get r (reserved_by_key j) →
  _reservation_owner_alive up wkey j r' = _reservation_owner_alive up wkey j r.
Proof. unfold _reservation_owner_alive. by intros ->. Qed.

(** A pass over a list of members removes the stale ones from the set, and
    touches no other set nor the tag of another job. *)
Lemma prune_fold status wkey key l r :
  NoDup l →
  let r' := foldl (prune_member true status wkey key) r l in
  (∀ x, x ∈ smembers r' key ↔ x ∈ smembers r key ∧ ¬ (x ∈ l ∧ job_stale true status wkey x r = true)) ∧
  (∀ k, k ≠ key → smembers r' k = smembers r k) ∧
  (∀ j, get r' (reserved_by_key j)
        = if bool_decide (j ∈ l) && job_stale true status wkey j r then None else get r (reserved_by_key j)).
Proof.
  revert r. induction l as [|j l IH]; intros r Hnd; simpl.
  { split_and!; [set_solver|done|done]. }
  apply NoDup_cons in Hnd as [Hj Hnd].
  set (r1 := prune_member true status wkey key r j).
  assert (∀ i, i ≠ j → get r1 (reserved_by_key i) = get r (reserved_by_key i)) as Hget.
  { intros i Hi. unfold r1, prune_member. destruct (job_stale _ _ _ _ _); [|done]. cbn [andb].
    rewrite get_delete, get_srem. rewrite decide_False; [done|]. by intros ?%reserved_by_inj. }
  assert (∀ i, i ≠ j → job_stale true status wkey i r1 = job_stale true status wkey i r) as Hst.
  { intros i Hi. unfold job_stale. by rewrite (owner_alive_ext true wkey i r r1 (Hget i Hi)). }
  destruct (IH r1 Hnd) as (I1 & I2 & I3). split_and!.
  - intros x. rewrite I1. unfold r1 at 1, prune_member.
    assert (x ∈ l → job_stale true status wkey x r1 = job_stale true status wkey x r) as Hx
      by (intros ?; apply Hst; set_solver).
    destruct (job_stale true status wkey j r) eqn:Es; cbn [andb].
    + rewrite smembers_delete, smembers_srem, decide_True by done.
      rewrite elem_of_difference, elem_of_singleton, elem_of_cons. split.
      * intros [[? ?] Hn]. split; [done|]. intros [[->|Hl] ?]; [done|]. apply Hn. rewrite Hx; auto.
      * intros [? Hn]. split; [split; [done|]|].
        -- intros ->. apply Hn. auto.
        -- intros [Hl ?]. apply Hn. rewrite <-(Hx Hl). auto.
    + rewrite elem_of_cons. split.
      * intros [? Hn]. split; [done|]. intros [[->|Hl] ?]; [congruence|]. apply Hn. rewrite Hx; auto.
      * intros [? Hn]. split; [done|]. intros [Hl ?]. apply Hn. rewrite <-(Hx Hl). auto.
  - intros k Hk. rewrite I2 by done. unfold r1, prune_member. destruct (_ && _); [|done].
    by rewrite smembers_delete, smembers_srem, decide_False by done.
  - intros i. rewrite I3. destruct (decide (i = j)) as [->|Hi].
    + rewrite (bool_decide_false (j ∈ l)) by done. rewrite (bool_decide_true (j ∈ j :: l)) by left.
      cbn [andb]. unfold r1, prune_member. destruct (job_stale true status wkey j r) eqn:Es; [|done].
      cbn [andb]. rewrite get_delete. by rewrite decide_True.
    + rewrite (Hget i Hi), (Hst i Hi).
      by rewrite (bool_decide_ext (i ∈ j :: l) (i ∈ l)) by set_solver.
Qed.

Lemma prune_spec status wkey key r :
  let r' := _prune_stale_members true status wkey key r in
  (∀ x, x ∈ smembers r' key ↔ x ∈ smembers r key ∧ job_stale true status wkey x r = false) ∧
  (∀ k, k ≠ key → smembers r' k = smembers r k).
Proof.
  unfold _prune_stale_members. cbn [negb].
  destruct (prune_fold status wkey key (elements (smembers r key)) r (NoDup_elements _)) as (H1 & H2 & _).
  split; [|done]. intros x. rewrite H1, elem_of_elements.
  destruct (job_stale true status wkey x r); naive_solver.
Qed.
End laws.
