(* ===== verification/GovernorFleet.v ===== *)
(** * A fleet of governed workers

    The workers of the storage nodes share one broker and reserve, release and
    prune slots concurrently. A state of the fleet is the broker, the live
    workers, the heartbeat keys, the job each worker holds, and the members a
    pruning pass has found stale and is about to remove. Every command of a
    worker that is atomic at the broker is one step, so that the gap between
    the reservation script and the owner tag, and the gap between the reads of
    a pruning pass and its removal, are interleaved with everything else. *)
From Stdlib Require Import Ascii.
From S2P Require Import Prelude PyVal QueueTiers GovernorConfig Governor.

(** ** The fleet *)
Section fleet.
Context {R : Type} `{RedisLaws R}.

(** What a worker holds: a job, its slots, and whether the owner tag is
    written. *)
Record hold := mkHold { h_job : string; h_slots : reservation; h_tagged : bool }.

Record fleet := mkFleet {
  fl_redis : R;
  fl_alive : gset string;
  fl_keys : gset string;
  fl_held : gmap string hold;
  fl_doomed : list (string * string);
}.

(** The running sets a reservation takes a place in. *)
Definition slots (res : reservation) : list string :=
  match res with
  | NoSlot => []
  | FairSlot pool category heavy =>
      category_running_key pool category :: if heavy then [HEAVY_RUNNING_KEY] else []
  | HeavySlot => [HEAVY_RUNNING_KEY]
  end.

(** The script a worker sends for a reservation. *)
Definition reserve_script (wk : worker) (job_id : string) (res : reservation) (r : R) : bool * R :=
  match res with
  | NoSlot => (true, r)
  | FairSlot pool category heavy =>
      _FAIR_RESERVE_LUA (category_running_key pool category) job_id
        (default (-1)%Z (_category_cap wk category)) heavy (gov_max_heavy wk) r
  | HeavySlot => _RESERVE_LUA job_id (gov_max_heavy wk) r
  end.

Definition holds (f : fleet) (w : string) (h : hold) : Prop := fl_held f !! w = Some h.

Definition held_job (f : fleet) (j : string) : Prop := ∃ w h, holds f w h ∧ h_job h = j.

(** A category as a lane name carries it. *)
Definition plain_category (res : reservation) : Prop :=
  match res with FairSlot _ category _ => contains ":" category = false | _ => True end.

(** A job that comes to a worker for the first time since it last lost a slot:
    no owner tag is left of it and no pruning pass is about to remove it. *)
Definition unsuspected (f : fleet) (j : string) : Prop :=
  ¬ held_job f j ∧ get (fl_redis f) (reserved_by_key j) = None ∧ j ∉ (fl_doomed f).*2.

(** [M] bounds the heavy cap of every worker's configuration, [K] the cap of a
    category. *)
Context (M : Z) (K : string → option Z).

Definition configured (wk : worker) : Prop :=
  (gov_max_heavy wk ≤ M)%Z ∧
  ∀ c n, K c = Some n → ∃ n', _category_cap wk c = Some n' ∧ (0 ≤ n' ≤ n)%Z.

Inductive fleet_step : fleet → fleet → Prop :=
  | fs_reserve f wk j res r' :
      wk_name wk ∈ fl_alive f → fl_held f !! wk_name wk = None → unsuspected f j →
      res ≠ NoSlot → plain_category res → configured wk → reserve_script wk j res (fl_redis f) = (true, r') →
      fleet_step f (mkFleet r' (fl_alive f) (fl_keys f)
                      (<[wk_name wk := mkHold j res false]> (fl_held f)) (fl_doomed f))
  | fs_tag f wk j res :
      holds f (wk_name wk) (mkHold j res false) →
      fleet_step f (mkFleet (_record_reservation_owner true wk j (fl_redis f)) (fl_alive f) (fl_keys f)
                      (<[wk_name wk := mkHold j res true]> (fl_held f)) (fl_doomed f))
  | fs_finish f w j res :
      holds f w (mkHold j res true) →
      fleet_step f (mkFleet (execute_job_release true j res (fl_redis f)) (fl_alive f) (fl_keys f)
                      (delete w (fl_held f)) (fl_doomed f))
  | fs_die f w :
      fleet_step f (mkFleet (fl_redis f) (fl_alive f ∖ {[w]}) (fl_keys f) (delete w (fl_held f))
                      (fl_doomed f))
  | fs_expire f w :
      w ∉ fl_alive f →
      fleet_step f (mkFleet (fl_redis f) (fl_alive f) (fl_keys f ∖ {[w]}) (fl_held f) (fl_doomed f))
  | fs_birth f w :
      w ∉ fl_alive f →
      fleet_step f (mkFleet (fl_redis f) ({[w]} ∪ fl_alive f) ({[w]} ∪ fl_keys f) (fl_held f)
                      (fl_doomed f))
  | fs_suspect f status k m :
      (held_job f m → ∃ s, status m = Some s ∧ s ∈ _LIVE_STATUSES) →
      job_stale true status (λ o, bool_decide (o ∈ fl_keys f)) m (fl_redis f) = true →
      fleet_step f (mkFleet (fl_redis f) (fl_alive f) (fl_keys f) (fl_held f) ((k, m) :: fl_doomed f))
  | fs_prune f k m l1 l2 :
      fl_doomed f = l1 ++ (k, m) :: l2 →
      fleet_step f (mkFleet (delete_key (reserved_by_key m) (srem k m (fl_redis f))) (fl_alive f)
                      (fl_keys f) (fl_held f) (l1 ++ l2)).

Record fleet_inv (f : fleet) : Prop := {
  fi_alive : fl_alive f ⊆ fl_keys f;
  fi_holds : ∀ w h, holds f w h →
    w ∈ fl_alive f ∧ h_slots h ≠ NoSlot ∧
    (∀ k, k ∈ slots (h_slots h) → h_job h ∈ smembers (fl_redis f) k) ∧
    h_job h ∉ (fl_doomed f).*2 ∧ get (fl_redis f) (reserved_by_key (h_job h)) = (if h_tagged h then Some w else None);
  fi_distinct : ∀ w w' h h', holds f w h → holds f w' h' → h_job h = h_job h' → w = w';
  fi_heavy : (scard (fl_redis f) HEAVY_RUNNING_KEY ≤ M)%Z;
  fi_category : ∀ p c n, contains ":" c = false → K c = Some n →
    (scard (fl_redis f) (category_running_key p c) ≤ n)%Z;
}.

(** ** Keys and sets *)
Lemma category_key_inj p c p' c' :
  contains ":" c = false → contains ":" c' = false →
  category_running_key p c = category_running_key p' c' → c = c'.
Proof.
  unfold category_running_key, CATEGORY_RUNNING_PREFIX. intros Hc Hc' E.
  apply (inj (String.append _)), (inj (String.append _)) in E.
  pose proof (rpartition_at_app ":" p c Hc) as E1. pose proof (rpartition_at_app ":" p' c' Hc') as E2.
  change (p +:+ String ":" c = p' +:+ String ":" c') in E. rewrite E, E2 in E1. congruence.
Qed.

Lemma heavy_not_category p c : HEAVY_RUNNING_KEY ≠ category_running_key p c.
Proof. done. Qed.

Lemma scard_sadd_other r k m k' : k ≠ k' → scard (sadd k m r) k' = scard r k'.
Proof.
  clear M K. intros Hk. unfold scard. by rewrite smembers_sadd, decide_False. Qed.

Lemma scard_sadd r k m : (scard (sadd k m r) k ≤ scard r k + 1)%Z.
Proof.
  clear M K.
  unfold scard. rewrite smembers_sadd, decide_True by done.
  pose proof (size_union_alt {[m]} (smembers r k)) as E. rewrite size_singleton in E.
  pose proof (subseteq_size (smembers r k ∖ {[m]}) (smembers r k) ltac:(set_solver)). lia.
Qed.

Lemma scard_mono r r' k : smembers r' k ⊆ smembers r k → (scard r' k ≤ scard r k)%Z.
Proof.
  clear M K. intros Hs%subseteq_size. unfold scard. lia. Qed.

(** ** The effect of the scripts *)

(** A granted reservation adds the job to its slots and nothing else, and each
    capped slot was below its cap. *)
Lemma reserve_script_spec wk j res r r' :
  reserve_script wk j res r = (true, r') →
  (∀ k, smembers r' k = if decide (k ∈ slots res) then {[j]} ∪ smembers r k else smembers r k) ∧
  (∀ i, get r' i = get r i) ∧
  (HEAVY_RUNNING_KEY ∈ slots res → (scard r HEAVY_RUNNING_KEY < gov_max_heavy wk)%Z) ∧
  (∀ p c h n, res = FairSlot p c h → _category_cap wk c = Some n → (0 ≤ n)%Z →
     (scard r (category_running_key p c) < n)%Z).
Proof.
  clear M K.
  destruct res as [|p c h|]; cbn [reserve_script slots].
  - intros [= <-]. split_and!; [|done|set_solver|done]. intros k. by rewrite decide_False by set_solver.
  - unfold _FAIR_RESERVE_LUA. destruct (_ && _) eqn:E1; [done|].
    destruct (h && _) eqn:E2; [done|]. intros [= <-].
    assert (∀ n, _category_cap wk c = Some n → (0 ≤ n)%Z → (scard r (category_running_key p c) < n)%Z) as Hcap.
    { intros n Hn H0n. rewrite Hn in E1. change (default (-1)%Z (Some n)) with n in E1.
      apply andb_false_iff in E1 as [E1|E1]; simp_bool; lia. }
    destruct h; cbn [andb] in E2.
    + split_and!; [| |simp_bool; lia|intros p' c' h' n [= <- <- <-]; apply Hcap].
      * intros k. rewrite !smembers_sadd. repeat case_decide; subst; set_solver.
      * intros i. by rewrite !get_sadd.
    + split_and!; [| | |intros p' c' h' n [= <- <- <-]; apply Hcap].
      * intros k. rewrite smembers_sadd. repeat case_decide; subst; set_solver.
      * intros i. by rewrite get_sadd.
      * intros Hin%list_elem_of_singleton. by destruct (heavy_not_category p c).
  - unfold _RESERVE_LUA. destruct (_ <? _)%Z eqn:E; [|done]. intros [= <-]. simp_bool.
    split_and!; [|intros i; by rewrite get_sadd|done|done].
    intros k. rewrite smembers_sadd. repeat case_decide; subst; set_solver.
Qed.

(** A release only removes the job itself from its slots, and its tag. *)
Lemma release_spec j res r :
  res ≠ NoSlot →
  (∀ k, smembers (execute_job_release true j res r) k
        = if decide (k ∈ slots res) then smembers r k ∖ {[j]} else smembers r k) ∧
  (∀ i, get (execute_job_release true j res r) (reserved_by_key i)
        = if decide (i = j) then None else get r (reserved_by_key i)).
Proof.
  clear M K.
  intros Hres.
  assert (∀ r' : R, (∀ i, get r' i = get r i) → ∀ i,
    get (delete_key (reserved_by_key j) r') (reserved_by_key i)
    = if decide (i = j) then None else get r (reserved_by_key i)) as Htag.
  { intros r' Hr' i. rewrite get_delete, Hr'. destruct (decide (i = j)) as [->|Hi]; [by rewrite decide_True|].
    rewrite decide_False; [done|]. intros ?%reserved_by_inj. congruence. }
  destruct res as [|p c h|]; [done| |].
  - cbn [execute_job_release slots]. unfold _release_fair, _release_heavy. destruct h.
    + split; [|apply Htag; intros; by rewrite !get_srem].
      intros k. rewrite smembers_delete, !smembers_srem. repeat case_decide; subst; set_solver.
    + split; [|apply Htag; intros; by rewrite get_srem].
      intros k. rewrite smembers_delete, smembers_srem. repeat case_decide; subst; set_solver.
  - cbn [execute_job_release slots]. unfold _release_heavy. split; [|apply Htag; intros; by rewrite get_srem].
    intros k. rewrite smembers_delete, smembers_srem. repeat case_decide; subst; set_solver.
Qed.

(** ** The invariant *)
Lemma scard_add r r' k j :
  smembers r' k = {[j]} ∪ smembers r k → (scard r' k ≤ scard r k + 1)%Z.
Proof.
  clear M K.
  intros E. pose proof (scard_sadd r k j) as Hs. unfold scard in *.
  rewrite smembers_sadd, decide_True in Hs by done. by rewrite E.
Qed.

Lemma inv_reserve f wk j res r' :
  wk_name wk ∈ fl_alive f → fl_held f !! wk_name wk = None → unsuspected f j →
  res ≠ NoSlot → plain_category res → configured wk →
  reserve_script wk j res (fl_redis f) = (true, r') → fleet_inv f →
  fleet_inv (mkFleet r' (fl_alive f) (fl_keys f)
               (<[wk_name wk := mkHold j res false]> (fl_held f)) (fl_doomed f)).
Proof.
  intros Hal Hfree (Hnh & Htag & Hdoom) Hres Hplain [HM HK] Hs [I1 I2 I3 I4 I5].
  destruct (reserve_script_spec _ _ _ _ _ Hs) as (Hm & Hg & Hh & Hc).
  assert (∀ w h, holds f w h → h_job h ≠ j) as Hother by (intros w h Hw <-; apply Hnh; by exists w, h).
  constructor; simpl.
  - done.
  - unfold holds. simpl. intros w h. destruct (decide (w = wk_name wk)) as [->|Hw].
    + rewrite lookup_insert_eq. intros [= <-]. simpl. split_and!; [done..| |done|by rewrite Hg].
      intros k Hk. rewrite Hm, decide_True by done. set_solver.
    + rewrite lookup_insert_ne by done. intros Hh'. destruct (I2 w h Hh') as (? & ? & Hin & ? & ?).
      split_and!; [done..| |done|by rewrite Hg]. intros k Hk. rewrite Hm. case_decide; set_solver.
  - unfold holds. simpl. intros w w' h h'.
    destruct (decide (w = wk_name wk)) as [->|Hw], (decide (w' = wk_name wk)) as [->|Hw'];
      rewrite ?lookup_insert_eq, ?lookup_insert_ne by done; intros E1 E2 Ej; simplify_eq/=;
      [done|by destruct (Hother w' h' E2)|by destruct (Hother w h E1)|by eapply I3].
  - destruct (decide (HEAVY_RUNNING_KEY ∈ slots res)) as [Hin|Hin].
    + specialize (Hh Hin). pose proof (scard_add (fl_redis f) r' HEAVY_RUNNING_KEY j) as Hadd.
      rewrite Hm, decide_True in Hadd by done. specialize (Hadd eq_refl). lia.
    + unfold scard in *. rewrite Hm, decide_False by done. done.
  - intros p c n Hpc Hn. destruct (decide (category_running_key p c ∈ slots res)) as [Hin|Hin];
      [|unfold scard in *; rewrite Hm, decide_False by done; by apply I5].
    pose proof (scard_add (fl_redis f) r' (category_running_key p c) j) as Hadd.
    rewrite Hm, decide_True in Hadd by done. specialize (Hadd eq_refl).
    destruct res as [|p' c' h|]; [done| |by apply list_elem_of_singleton in Hin].
    apply elem_of_cons in Hin as [Ek|Hin]; [|destruct h; [by apply list_elem_of_singleton in Hin|set_solver]].
    pose proof (category_key_inj p c p' c' Hpc Hplain Ek) as ->.
    destruct (HK c' n Hn) as (n' & Hn' & ?). specialize (Hc p' c' h n' eq_refl Hn' ltac:(lia)).
    rewrite <-Ek in Hc. lia.
Qed.

(** A step that lets go of jobs, shrinks sets and drops tags only of jobs no
    worker keeps. *)
Lemma inv_shrink f f' :
  fleet_inv f → fl_alive f' ⊆ fl_keys f' →
  (∀ w h, holds f' w h → holds f w h ∧ w ∈ fl_alive f' ∧
     (∀ k, h_job h ∈ smembers (fl_redis f) k → h_job h ∈ smembers (fl_redis f') k) ∧
     get (fl_redis f') (reserved_by_key (h_job h)) = get (fl_redis f) (reserved_by_key (h_job h)) ∧
     h_job h ∉ (fl_doomed f').*2) →
  (∀ k, smembers (fl_redis f') k ⊆ smembers (fl_redis f) k) → fleet_inv f'.
Proof.
  intros [I1 I2 I3 I4 I5] Ha Hh Hs. constructor.
  - done.
  - intros w h Hw. destruct (Hh w h Hw) as (Hold & ? & Hk & Hg & ?).
    destruct (I2 w h Hold) as (? & ? & Hin & ? & Htag). split_and!; [done|done|auto|done|by rewrite Hg].
  - intros w w' h h' Hw Hw' Ej. apply Hh in Hw as [Hw _]. apply Hh in Hw' as [Hw' _]. by eapply I3.
  - pose proof (scard_mono _ _ _ (Hs HEAVY_RUNNING_KEY)). lia.
  - intros p c n Hp Hn. specialize (I5 p c n Hp Hn).
    pose proof (scard_mono _ _ _ (Hs (category_running_key p c))). lia.
Qed.

Lemma inv_tag f wk j res :
  holds f (wk_name wk) (mkHold j res false) → fleet_inv f →
  fleet_inv (mkFleet (_record_reservation_owner true wk j (fl_redis f)) (fl_alive f) (fl_keys f)
               (<[wk_name wk := mkHold j res true]> (fl_held f)) (fl_doomed f)).
Proof.
  intros Hold [I1 I2 I3 I4 I5]. unfold _record_reservation_owner.
  destruct (I2 _ _ Hold) as (? & ? & Hin & ? & _). simpl in *.
  constructor; simpl; unfold scard in *; try done.
  - unfold holds. simpl. intros w h. destruct (decide (w = wk_name wk)) as [->|Hw].
    + rewrite lookup_insert_eq. intros [= <-]. simpl. split_and!; [done..| |done|].
      * intros k Hk. rewrite smembers_set. auto.
      * by rewrite get_set, decide_True.
    + rewrite lookup_insert_ne by done. intros Hh. destruct (I2 w h Hh) as (? & ? & Hin' & ? & Ht).
      split_and!; [done..| |done|].
      * intros k Hk. rewrite smembers_set. auto.
      * rewrite get_set, decide_False; [done|]. intros E%reserved_by_inj.
        apply Hw. eapply (I3 _ _ _ _ Hh Hold). by simpl.
  - unfold holds. simpl. intros w w' h h'.
    destruct (decide (w = wk_name wk)) as [->|Hw], (decide (w' = wk_name wk)) as [->|Hw'];
      rewrite ?lookup_insert_eq, ?lookup_insert_ne by done; intros E1 E2 Ej; simplify_eq/=; [done|..|by eapply I3].
    + symmetry. apply (I3 _ _ _ _ E2 Hold). by simpl.
    + apply (I3 _ _ _ _ E1 Hold). by simpl.
  - by rewrite smembers_set.
  - intros p c n. rewrite smembers_set. apply I5.
Qed.

(** A job a live worker holds is never stale. *)
Lemma held_not_stale f status m :
  fleet_inv f → held_job f m → (∃ s, status m = Some s ∧ s ∈ _LIVE_STATUSES) →
  job_stale true status (λ o, bool_decide (o ∈ fl_keys f)) m (fl_redis f) = false.
Proof.
  intros [I1 I2 I3 I4 I5] (w & h & Hh & <-) (s & Hs & Hl). destruct (I2 w h Hh) as (Ha & _ & _ & _ & Ht).
  unfold job_stale, _reservation_owner_alive. rewrite Hs, (proj2 (mem_spec _ _) Hl), Ht. cbn [negb orb].
  destruct (h_tagged h); [|done]. destruct (w =? "")%string; [done|].
  by rewrite bool_decide_true by set_solver.
Qed.

Lemma fleet_step_inv f f' : fleet_step f f' → fleet_inv f → fleet_inv f'.
Proof.
  intros Hstep Hf. destruct Hstep as
    [f wk j res r' ??????? |f wk j res Hh|f w j res Hh|f w|f w Hw|f w Hw|f status k m Hs Hst|f k m l1 l2 Hd].
  - by eapply inv_reserve.
  - by eapply inv_tag.
  - destruct Hf as [I1 I2 I3 I4 I5]. destruct (I2 _ _ Hh) as (_ & Hres & _). simpl in Hres.
    destruct (release_spec j res (fl_redis f) Hres) as [Hm Hg].
    eapply (inv_shrink f); [by constructor|done| |].
    + unfold holds. simpl. intros w' h (Hne & Hw')%lookup_delete_Some. split; [done|].
      destruct (I2 w' h Hw') as (? & ? & ? & ? & ?).
      assert (h_job h ≠ j) as Hj by (intros E; apply Hne; symmetry; by apply (I3 _ _ _ _ Hw' Hh)).
      split_and!; [done| |rewrite Hg; by rewrite decide_False|done].
      intros k Hk. rewrite Hm. case_decide; set_solver.
    + simpl. intros k. rewrite Hm. case_decide; set_solver.
  - eapply (inv_shrink f); [done|destruct Hf; set_solver| |done].
    unfold holds. simpl. intros w' h (Hne & Hw')%lookup_delete_Some.
    destruct (fi_holds _ Hf w' h Hw') as (? & ? & ? & ? & ?). split_and!; [done|set_solver|done..].
  - eapply (inv_shrink f); [done|destruct Hf; set_solver| |done].
    intros w' h Hw'. destruct (fi_holds _ Hf w' h Hw') as (? & ? & ? & ? & ?). by split_and!.
  - eapply (inv_shrink f); [done|destruct Hf; set_solver| |done].
    intros w' h Hw'. destruct (fi_holds _ Hf w' h Hw') as (? & ? & ? & ? & ?).
    split_and!; [done|set_solver|done..].
  - eapply (inv_shrink f); [done|by destruct Hf| |done].
    intros w' h Hw'. destruct (fi_holds _ Hf w' h Hw') as (? & ? & ? & Hdm & ?).
    split_and!; [done..|]. simpl. apply not_elem_of_cons. split; [|done]. intros Em.
    assert (held_job f m) as Hheld by (exists w', h; done).
    rewrite (held_not_stale f status m Hf Hheld (Hs Hheld)) in Hst. done.
  - eapply (inv_shrink f); [done|by destruct Hf| |].
    + intros w' h Hw'. destruct (fi_holds _ Hf w' h Hw') as (? & ? & ? & Hdm & ?).
      rewrite Hd, fmap_app, fmap_cons in Hdm. simpl in Hdm.
      assert (h_job h ≠ m) as Hne by set_solver.
      split_and!; [done..| | |simpl; rewrite fmap_app; set_solver].
      * intros k' Hk. simpl. rewrite smembers_delete, smembers_srem. case_decide; set_solver.
      * simpl. rewrite get_delete, get_srem, decide_False; [done|]. intros ?%reserved_by_inj. congruence.
    + intros k'. simpl. rewrite smembers_delete, smembers_srem. case_decide; set_solver.
Qed.
End fleet.

(** ** Counting the work in flight *)
Section count.
Context {R : Type} `{RedisLaws R}.

(** The jobs held under the running set [k], one per worker. *)
Definition jobs_under (f : fleet (R := R)) (k : string) : list string :=
  (λ wh, h_job wh.2) <$> filter (λ wh, k ∈ slots (h_slots wh.2)) (map_to_list (fl_held f)).

Lemma jobs_under_nodup M K (f : fleet (R := R)) k : fleet_inv M K f → NoDup (jobs_under f k).
Proof.
  intros Hf. unfold jobs_under. apply NoDup_fmap_2_strong.
  - intros [w h] [w' h'] [_ Hw]%list_elem_of_filter [_ Hw']%list_elem_of_filter Ej.
    apply elem_of_map_to_list in Hw, Hw'. simpl in Ej.
    pose proof (fi_distinct _ _ _ Hf w w' h h' Hw Hw' Ej) as <-. congruence.
  - apply NoDup_filter, NoDup_map_to_list.
Qed.

Lemma jobs_under_members M K (f : fleet (R := R)) k :
  fleet_inv M K f → (Z.of_nat (length (jobs_under f k)) ≤ scard (fl_redis f) k)%Z.
Proof.
  intros Hf. unfold scard. rewrite <-(size_list_to_set (C := gset string) (jobs_under f k))
    by by eapply jobs_under_nodup.
  apply inj_le, subseteq_size. intros j. rewrite elem_of_list_to_set. unfold jobs_under.
  intros ([w h] & -> & [Hk Hw%elem_of_map_to_list]%list_elem_of_filter)%list_elem_of_fmap.
  destruct (fi_holds _ _ _ Hf w h Hw) as (_ & _ & Hin & _). auto.
Qed.
End count.

(** ** Properties *)

(** C7: Take workers that interleave their reservation scripts, owner tags, releases and
    pruning passes at one broker, and that die and restart, under the following conditions:
    the broker answers every command and no running set reaches its expiry; a job a worker
    reserves is unsuspected, that is, no other worker holds it, no owner tag is left of it
    and no pruning pass is about to remove it; a worker that lives keeps its heartbeat key,
    and the job a worker holds reads as live; every heavy cap configured is at most [M], and
    every category cap of a category [c] with [K c = Some n] is between 0 and [n]; nobody
    holds a job at the start and the running sets are within the caps. Then at every moment
    at most [M] workers hold heavy jobs, and at most [n] hold jobs of such a category in a
    pool (for categories whose name has no colon). A job that is retried while the tag of
    its dead worker is still there is outside these conditions, and does overrun the cap
    ([retried_orphan_overruns_the_cap]). *)
Theorem caps_hold_for_unsuspected_jobs {R} `{RedisLaws R} M K (f0 f : fleet (R := R)) :
  fl_held f0 = ∅ → fl_alive f0 ⊆ fl_keys f0 → (scard (fl_redis f0) HEAVY_RUNNING_KEY ≤ M)%Z →
  (∀ p c n, contains ":" c = false → K c = Some n →
     (scard (fl_redis f0) (category_running_key p c) ≤ n)%Z) →
  steps (fleet_step M K) f0 f →
  (Z.of_nat (length (jobs_under f HEAVY_RUNNING_KEY)) ≤ M)%Z ∧
  ∀ p c n, contains ":" c = false → K c = Some n →
    (Z.of_nat (length (jobs_under f (category_running_key p c))) ≤ n)%Z.
Proof.
  intros Hheld Hal HM HK Hsteps.
  assert (fleet_inv M K f) as Hf.
  { eapply steps_invariant; [apply fleet_step_inv|exact Hsteps|].
    constructor; [done| | |done|done]; unfold holds; rewrite Hheld; intros *; by rewrite lookup_empty. }
  split.
  - pose proof (jobs_under_members _ _ f HEAVY_RUNNING_KEY Hf). pose proof (fi_heavy _ _ _ Hf). lia.
  - intros p c n Hp Hn. pose proof (jobs_under_members _ _ f (category_running_key p c) Hf).
    pose proof (fi_category _ _ _ Hf p c n Hp Hn). lia.
Qed.

Definition ex_knobs : Knobs.knobs :=
  Knobs.mkKnobs true (float_of_Z 40) 2 None 3 [] [("c", 1%Z)] None.

Definition ex_worker (name : string) : worker :=
  mkWorker name false true ex_knobs ["storage.p.interactive"; "storage.p.maintenance"; "storage.p.bulk"] 0.

Definition ex_fleet : fleet (R := store) :=
  mkFleet (mkStore ∅ ∅ ∅) {["a"]} {["a"]} ∅ [].

Definition ex_caps (c : string) : option Z := if (c =? "c")%string then Some 1%Z else None.

Lemma caps_hold_for_unsuspected_jobs_witness :
  ∃ f, fl_held (R := store) f !! "a" = Some (mkHold "j" (FairSlot "p" "c" true) false) ∧
       (Z.of_nat (length (jobs_under f HEAVY_RUNNING_KEY)) ≤ 2)%Z.
Proof.
  eexists (mkFleet _ _ _ _ _). split; [shelve|].
  apply (caps_hold_for_unsuspected_jobs 2 ex_caps ex_fleet).
  - reflexivity.
  - reflexivity.
  - vm_compute. discriminate.
  - intros p c n _ Hn. unfold ex_caps in Hn. destruct (c =? "c")%string; [|discriminate Hn].
    injection Hn as <-. vm_compute. discriminate.
  - eapply steps_cons; [|apply steps_refl].
    apply (fs_reserve 2 ex_caps ex_fleet (ex_worker "a") "j" (FairSlot "p" "c" true)).
    + apply elem_of_singleton. reflexivity.
    + reflexivity.
    + split; [|split; [reflexivity|apply not_elem_of_nil]]. intros (w & h & Hw & _). discriminate Hw.
    + discriminate.
    + reflexivity.
    + split; [vm_compute; discriminate|]. intros c n Hn. unfold ex_caps in Hn.
      destruct (String.eqb_spec c "c") as [->|]; [|discriminate Hn]. injection Hn as <-.
      exists 1%Z. split; [reflexivity|lia].
    + reflexivity.
  Unshelve. reflexivity.
Defined.

(** A pruning pass reclaims exactly the leaked slots: what is left of the set
    are the members whose job is still live and whose owner, when one is known,
    still beats; the slots of a worker whose heartbeat expired are freed, those
    of a live job whose owner is unknown are kept, and no other set changes. *)
Theorem pruning_reclaims_exactly_the_leaks {R} `{RedisLaws R} status worker_key key (r : R) :
  let r' := _prune_stale_members true status worker_key key r in
  (∀ j, j ∈ smembers r' key ↔
        j ∈ smembers r key ∧ (∃ s, status j = Some s ∧ s ∈ _LIVE_STATUSES) ∧
        ∀ owner, get r (reserved_by_key j) = Some owner → owner ≠ "" → worker_key owner = true) ∧
  (∀ k, k ≠ key → smembers r' k = smembers r k) ∧ (scard r' key ≤ scard r key)%Z.
Proof.
  intros r'. destruct (prune_spec status worker_key key r) as [H1 H2]. fold r' in H1, H2.
  split_and!; [|done|].
  - intros j. rewrite H1. f_equiv. unfold job_stale, _reservation_owner_alive. cbn [negb].
    rewrite orb_false_iff, !negb_false_iff. f_equiv.
    + destruct (status j) as [s|]; [|naive_solver]. rewrite mem_spec. naive_solver.
    + destruct (get r (reserved_by_key j)) as [o|]; [|naive_solver].
      destruct (String.eqb_spec o ""); naive_solver.
  - apply scard_mono. intros j Hj. by apply H1 in Hj as [? _].
Qed.

Lemma pruning_reclaims_exactly_the_leaks_witness :
  "j" ∉ smembers (_prune_stale_members true (λ _, Some "started") (λ _, false) HEAVY_RUNNING_KEY
    (mkStore {[HEAVY_RUNNING_KEY := {["j"]}]} {[reserved_by_key "j" := "a"]} ∅)) HEAVY_RUNNING_KEY.
Proof.
  destruct (pruning_reclaims_exactly_the_leaks (λ _, Some "started") (λ _, false) HEAVY_RUNNING_KEY
    (mkStore {[HEAVY_RUNNING_KEY := {["j"]}]} {[reserved_by_key "j" := "a"]} ∅)) as [H _].
  intros Hin. apply H in Hin as (_ & _ & Ho).
  assert (false = true) as Hf by (apply (Ho "a"); [vm_compute; reflexivity|discriminate]).
  discriminate Hf.
Defined.

(** A run on one broker in which the job [j] is retried after the worker that
    held it died. *)
Definition retried_orphan : list bool :=
  let live (_ : string) := Some "queued" in
  let beats (w : string) := negb (w =? "a")%string in
  let r := mkStore ∅ ∅ ∅ in
  let '(ok1, r) := _reserve_heavy true true (ex_worker "a") "j" r in
  (* worker a is killed and its heartbeat key expires; j is queued again *)
  let '(ok2, r) := _RESERVE_LUA "j" (gov_max_heavy (ex_worker "b")) r in
  let r := _reconcile_heavy true live beats r in
  let r := _record_reservation_owner true (ex_worker "b") "j" r in
  let '(ok3, r) := _reserve_heavy true true (ex_worker "c") "x" r in
  let '(ok4, r) := _reserve_heavy true true (ex_worker "d") "y" r in
  [ok2; ok3; ok4].

(** The owner tag is written after the reservation, so the tag of a dead
    worker outlives it on a job that is retried: a pruning pass that runs
    between the new owner's script and its tag frees the slot the new owner is
    about to use. With a heavy cap of two, three workers then run heavy jobs. *)
Theorem retried_orphan_overruns_the_cap :
  retried_orphan = [true; true; true] ∧ gov_max_heavy (ex_worker "b") = 2%Z.
Proof. split; vm_compute; reflexivity. Qed.
