(* ===== verification/GovernorLanes.v ===== *)
(** * Which lane a governed worker serves next

    The rotation of the categories, the order of the lanes of a poll and the
    admission of the job a worker popped, from [Governor]: no category and no
    tier is starved by the order, deferral hides exactly the deferrable lanes,
    and a job that is not admitted goes back where it came from. *)
From Stdlib Require Import Ascii.
From S2P Require Import Prelude PyVal QueueTiers GovernorConfig Governor GovernorFleet.

(** ** Rotations *)
Definition rotate {A} (l : list A) (cursor : Z) : list A :=
  let off := Z.to_nat (cursor mod Z.of_nat (length l)) in drop off l ++ take off l.

Lemma rotate_perm {A} (l : list A) cursor : rotate l cursor ≡ₚ l.
Proof. unfold rotate. rewrite Permutation_app_comm. by rewrite take_drop. Qed.

Lemma rotate_head {A} (l : list A) cursor :
  l ≠ [] → head (rotate l cursor) = l !! Z.to_nat (cursor mod Z.of_nat (length l)).
Proof.
  intros Hl. assert (0 < Z.of_nat (length l))%Z as Hn by (destruct l; simpl; [done|lia]).
  unfold rotate. set (off := Z.to_nat (cursor mod Z.of_nat (length l))).
  pose proof (Z.mod_pos_bound cursor (Z.of_nat (length l)) Hn).
  assert (off < length l) as Hoff by (unfold off; lia).
  rewrite head_lookup, lookup_app_l by (rewrite length_drop; lia).
  rewrite lookup_drop. f_equal. lia.
Qed.

(** The residues of [n] consecutive cursors are all the offsets. *)
Lemma residues_perm (n cursor : Z) :
  (0 < n)%Z → (λ k, (cursor + k) mod n)%Z <$> seqZ 0 n ≡ₚ seqZ 0 n.
Proof.
  intros Hn. apply submseteq_length_Permutation; [|by rewrite length_fmap].
  apply NoDup_submseteq.
  - apply NoDup_fmap_2_strong; [|apply NoDup_seqZ].
    intros x y Hx%elem_of_seqZ Hy%elem_of_seqZ E.
    assert (n | x - y)%Z as [q Hq].
    { apply Z.mod_divide; [lia|]. replace (x - y)%Z with ((cursor + x) - (cursor + y))%Z by lia.
      rewrite Zminus_mod, E, Z.sub_diag. by apply Zmod_0_l. }
    assert (q = 0)%Z by nia. lia.
  - intros z (k & -> & _)%list_elem_of_fmap. apply elem_of_seqZ.
    pose proof (Z.mod_pos_bound (cursor + k) n Hn). lia.
Qed.

(** Over as many consecutive polls as a list has entries, each entry leads
    once. *)
Lemma rotate_heads {A} (l : list A) cursor :
  l ≠ [] →
  (λ k, head (rotate l (cursor + k))) <$> seqZ 0 (Z.of_nat (length l)) ≡ₚ Some <$> l.
Proof.
  intros Hl. set (n := Z.of_nat (length l)).
  assert (0 < n)%Z as Hn by (unfold n; destruct l; simpl; [done|lia]).
  transitivity ((λ z, l !! Z.to_nat z) <$> seqZ 0 n).
  - rewrite <-(residues_perm n cursor Hn) at 2. rewrite <-list_fmap_compose.
    apply reflexive_eq, list_fmap_ext. intros i k _. simpl. by apply rotate_head.
  - apply reflexive_eq. apply list_eq. intros i. rewrite !list_lookup_fmap.
    destruct (decide (i < length l)) as [Hi|Hi].
    + rewrite lookup_seqZ_lt by lia. simpl. replace (Z.to_nat (0 + Z.of_nat i)) with i by lia.
      by destruct (lookup_lt_is_Some_2 l i Hi) as [x ->].
    + rewrite lookup_seqZ_ge by lia. by rewrite (proj2 (lookup_ge_None l i)) by lia.
Qed.

(** ** Weighted rotation *)
Lemma filter_none {A} (P : A → Prop) `{∀ x, Decision (P x)} l :
  (∀ x, x ∈ l → ¬ P x) → filter P l = [].
Proof.
  induction l as [|x l IH]; intros Hl; [done|]. rewrite filter_cons, decide_False by (apply Hl; left).
  apply IH. intros y Hy. apply Hl. by right.
Qed.

Lemma length_filter_fmap {A B} (P : B → Prop) `{∀ x, Decision (P x)} (f : A → B) l :
  length (filter P (f <$> l)) = length (filter (λ x, P (f x)) l).
Proof.
  induction l as [|x l IH]; [done|]. rewrite fmap_cons, !filter_cons. case_decide; simpl; by rewrite IH.
Qed.
Lemma elem_of_dedup_first seen l x : x ∈ dedup_first seen l ↔ x ∈ l ∧ x ∉ seen.
Proof.
  revert seen. induction l as [|c l IH]; intros seen; simpl; [set_solver|].
  destruct (mem c seen) eqn:E; [apply mem_spec in E|apply mem_false in E].
  - rewrite IH. set_solver.
  - rewrite elem_of_cons, IH. destruct (decide (x = c)); set_solver.
Qed.

Lemma dedup_first_nodup seen l : NoDup (dedup_first seen l).
Proof.
  revert seen. induction l as [|c l IH]; intros seen; simpl; [constructor|].
  destruct (mem c seen); [done|]. constructor; [|done]. rewrite elem_of_dedup_first. set_solver.
Qed.

Lemma head_dedup_first l : head (dedup_first [] l) = head l.
Proof. by destruct l. Qed.

Lemma weight_pos ws c : 0 < weight_of ws c.
Proof. unfold weight_of. lia. Qed.

Lemma elem_of_ring cats ws c : c ∈ ring cats ws ↔ c ∈ cats.
Proof.
  unfold ring. rewrite list_elem_of_In, in_flat_map. setoid_rewrite <-list_elem_of_In.
  setoid_rewrite elem_of_py_sorted. setoid_rewrite elem_of_replicate.
  pose proof (weight_pos ws c). split; [by intros (x & ? & -> & _)|]. intros ?. exists c.
  split_and!; [done|done|lia].
Qed.

Lemma rotation_eq cats ws cursor :
  _weighted_rotation cats ws cursor = dedup_first [] (rotate (ring cats ws) cursor).
Proof. unfold _weighted_rotation, rotate. destruct (ring cats ws) eqn:E; [|done]. by rewrite take_nil, drop_nil. Qed.

Lemma count_replicate (n : nat) (c x : string) :
  length (filter (λ y, y = x) (replicate n c)) = if decide (c = x) then n else 0.
Proof.
  induction n as [|n IH]; simpl; [by case_decide|]. rewrite filter_cons.
  case_decide; simpl; [|done]. by rewrite IH.
Qed.

Lemma count_ring cats ws c :
  NoDup cats → c ∈ cats → length (filter (λ x, x = c) (ring cats ws)) = weight_of ws c.
Proof.
  intros Hnd Hc. unfold ring.
  assert (NoDup (py_sorted String.leb cats)) as Hnd' by (by rewrite py_sorted_perm).
  assert (c ∈ py_sorted String.leb cats) as Hc' by (by apply elem_of_py_sorted).
  revert Hnd' Hc'. generalize (py_sorted String.leb cats). clear Hnd Hc cats.
  induction l as [|x l IH]; intros Hnd Hc; [set_solver|]. cbn [flat_map].
  rewrite filter_app, length_app, count_replicate. apply NoDup_cons in Hnd as [Hx Hnd].
  apply elem_of_cons in Hc as [->|Hc].
  - rewrite decide_True by done. rewrite filter_none; [simpl; lia|]. intros y Hy ->. apply list_elem_of_In, in_flat_map in Hy as (z & Hz & Hy).
    apply list_elem_of_In, elem_of_replicate in Hy as [-> _]. apply Hx. by apply list_elem_of_In.
  - rewrite decide_False by (by intros ->). by rewrite IH.
Qed.

(** ** Properties of the order *)

(** The weighted rotation is fair: every poll lists each active category
    exactly once, and over one round of as many polls as the weights sum to,
    starting anywhere, a category leads exactly as many polls as its weight. *)
Theorem weighted_rotation_is_fair categories weights cursor c :
  NoDup categories → c ∈ categories →
  _weighted_rotation categories weights cursor ≡ₚ categories ∧
  length (filter (λ k, head (_weighted_rotation categories weights (cursor + k)) = Some c)
            (seqZ 0 (Z.of_nat (length (ring categories weights))))) = weight_of weights c.
Proof.
  intros Hnd Hc. split.
  - apply NoDup_Permutation; [rewrite rotation_eq; apply dedup_first_nodup|done|].
    intros x. rewrite rotation_eq, elem_of_dedup_first, rotate_perm, elem_of_ring. set_solver.
  - set (l := ring categories weights).
    assert (l ≠ []) as Hl.
    { intros E. apply (not_elem_of_nil c). rewrite <-E. by apply elem_of_ring. }
    rewrite <-(count_ring categories weights c Hnd Hc). fold l.
    transitivity (length (filter (λ o, o = Some c)
      ((λ k, head (rotate l (cursor + k))) <$> seqZ 0 (Z.of_nat (length l))))).
    + rewrite length_filter_fmap. f_equal. apply list_filter_iff. intros k. simpl.
      by rewrite rotation_eq, head_dedup_first.
    + rewrite (rotate_heads l cursor Hl), length_filter_fmap. f_equal.
      apply list_filter_iff. intros x. simpl. split; [by intros [= ->]|by intros ->].
Qed.

Lemma weighted_rotation_is_fair_witness :
  length (filter (λ k, head (_weighted_rotation ["b"; "a"] [("a", 3%Z)] (7 + k)) = Some "a")
            (seqZ 0 4)) = 3.
Proof.
  apply (weighted_rotation_is_fair ["b"; "a"] [("a", 3%Z)] 7 "a").
  - apply (bool_decide_unpack _). vm_compute. exact I.
  - right. left.
Defined.

(** ** The lanes of a poll *)
Lemma parse_no_dot s pool cat tier :
  parse_storage_queue (PStr s) = Some (pool, cat, tier) →
  contains "." pool = false ∧ contains "." tier = false ∧
  ∀ c, cat = Some c → contains "." c = false.
Proof.
  unfold parse_storage_queue. destruct (String.prefix _ s); [|done].
  destruct (split_on "." s) as [|x [|p [|c [|t [|y l]]]]] eqn:Es; try done; intros [= <- <- <-];
    (split_and!; [| |intros ? [=]; subst]); apply (split_on_parts "." s); rewrite Es; set_solver.
Qed.

Lemma discovered_lane_spec wk m p c t :
  discovered_lane wk m = Some (p, c, t) →
  (p, t) ∈ _derive_fair_targets wk ∧ contains "." p = false ∧ contains "." c = false ∧
  contains "." t = false.
Proof.
  unfold discovered_lane. destruct (String.prefix _ m); [|done].
  destruct (parse_storage_queue _) as [[[pool [cat|]] tier]|] eqn:Ep; try done.
  case_bool_decide; [|done]. intros [= <- <- <-].
  destruct (parse_no_dot _ _ _ _ Ep) as (? & ? & Hc). auto.
Qed.

Lemma deferrable_lane_name p c t :
  contains "." p = false → contains "." c = false → contains "." t = false →
  is_deferrable_queue (lane_name p c t) = mem (effective_tier t) DEFERRABLE_TIERS.
Proof.
  intros Hp Hc Ht. unfold is_deferrable_queue, lane_name. by rewrite parse_category.
Qed.

Lemma fair_base_spec q p t :
  fair_base q = Some (p, t) → parse_storage_queue (PStr q) = Some (p, None, t) ∧ t ∈ _FAIR_TIERS.
Proof.
  unfold fair_base. destruct (parse_storage_queue (PStr q)) as [[[pool [cat|]] tier]|]; try done.
  destruct (mem tier _FAIR_TIERS) eqn:Em; [|done]. intros [= <- <-]. by apply mem_spec in Em.
Qed.

Lemma fair_tier_effective t : t ∈ _FAIR_TIERS → effective_tier t = t.
Proof. unfold _FAIR_TIERS, _GOVERNED_TIERS. rewrite !elem_of_cons, elem_of_nil. naive_solver. Qed.

Lemma elem_of_categories active p t c : c ∈ categories_of active p t ↔ (p, c, t) ∈ active.
Proof.
  unfold categories_of. rewrite list_elem_of_omap. split.
  - intros ([[p' c'] t'] & Hin & Hc). destruct (_ && _) eqn:E; [|done]. simp_bool. by simplify_eq.
  - intros Hin. exists (p, c, t). split; [done|]. by rewrite !String.eqb_refl.
Qed.

Section order.
Context {R : Type} `{RedisLaws R} (status : string → option string) (worker_key : string → bool).
Context (wk : worker) (active : list (string * string * string)).

(** Pruning only shrinks the sets. *)
Definition shrinks (r r' : R) : Prop := ∀ k, smembers r' k ⊆ smembers r k.

Lemma shrinks_refl r : shrinks r r.
Proof. by intros k x. Qed.

Lemma shrinks_trans r1 r2 r3 : shrinks r1 r2 → shrinks r2 r3 → shrinks r1 r3.
Proof. intros H1 H2 k x Hx. by apply H1, H2. Qed.

Lemma at_cap_spec pool c r :
  shrinks r (_category_at_cap true status worker_key wk pool c r).2 ∧
  (match _category_cap wk c with
   | None => True
   | Some cap => (scard r (category_running_key pool c) < cap)%Z
   end → (_category_at_cap true status worker_key wk pool c r).1 = false).
Proof.
  unfold _category_at_cap. destruct (_category_cap wk c) as [cap|]; [|by split; [apply shrinks_refl|]].
  unfold _category_inflight. destruct (Z.ltb_spec (scard r (category_running_key pool c)) cap);
    [by split; [apply shrinks_refl|]|].
  simpl. split; [|lia]. intros k.
  destruct (prune_spec status worker_key (category_running_key pool c) r) as [P1 P2].
  destruct (decide (k = category_running_key pool c)) as [->|Hk]; [|by rewrite P2].
  intros x Hx. by apply P1 in Hx as [? _].
Qed.

(** Whether a category is below its cap. *)
Definition below_cap (r : R) (pool c : string) : Prop :=
  match _category_cap wk c with
  | None => True
  | Some cap => (scard r (category_running_key pool c) < cap)%Z
  end.

Lemma below_cap_shrinks r r' pool c : shrinks r r' → below_cap r pool c → below_cap r' pool c.
Proof.
  unfold below_cap. intros Hs. destruct (_category_cap wk c); [|done].
  pose proof (scard_mono _ _ _ (Hs (category_running_key pool c))). lia.
Qed.

Lemma drop_at_cap_spec pool cats r :
  let '(kept, r') := drop_at_cap true status worker_key wk pool cats r in
  shrinks r r' ∧ kept ⊆ cats ∧ ∀ c, c ∈ cats → below_cap r pool c → c ∈ kept.
Proof.
  revert r. induction cats as [|c cats IH]; intros r; simpl; [split_and!; [apply shrinks_refl|done|set_solver]|].
  destruct (at_cap_spec pool c r) as [Hs Hc].
  destruct (_category_at_cap true status worker_key wk pool c r) as [full r1]. simpl in *.
  specialize (IH r1). destruct (drop_at_cap true status worker_key wk pool cats r1) as [rest r2].
  destruct IH as (I1 & I2 & I3). split_and!.
  - by eapply shrinks_trans.
  - destruct full; set_solver.
  - intros c' [->|Hc']%elem_of_cons Hb.
    + rewrite (Hc Hb). left.
    + specialize (I3 c' Hc' (below_cap_shrinks _ _ _ _ Hs Hb)). destruct full; set_solver.
Qed.

Hypothesis Hactive : ∀ p c t, (p, c, t) ∈ active →
  contains "." p = false ∧ contains "." c = false ∧ contains "." t = false.

(** What one lane of the base set contributes. *)
Lemma lanes_of_base_spec defer_bg q r :
  let '(lanes, r') := lanes_of_base true status worker_key wk active defer_bg q r in
  shrinks r r' ∧
  (defer_bg = true → ∀ x, x ∈ lanes → is_deferrable_queue x = false) ∧
  (defer_bg && is_deferrable_queue q = false →
     (∀ p t, fair_base q = Some (p, t) → below_cap r p NULL_CATEGORY) → q ∈ lanes) ∧
  (∀ p t c, fair_base q = Some (p, t) → defer_bg && mem t DEFERRABLE_TIERS = false →
     (p, c, t) ∈ active → below_cap r p c → lane_name p c t ∈ lanes).
Proof.
  unfold lanes_of_base. destruct (fair_base q) as [[p t]|] eqn:Ef; last first.
  { split_and!; [apply shrinks_refl| | |done].
    - intros -> x. simpl. destruct (is_deferrable_queue q) eqn:Ed; [set_solver|].
      by intros ->%list_elem_of_singleton.
    - intros -> _. left. }
  destruct (fair_base_spec _ _ _ Ef) as [Eq Ht].
  assert (is_deferrable_queue q = mem t DEFERRABLE_TIERS) as Hq.
  { unfold is_deferrable_queue. by rewrite Eq, (fair_tier_effective t Ht). }
  destruct (mem t DEFERRABLE_TIERS && defer_bg) eqn:Eskip.
  { apply andb_true_iff in Eskip as [E1 ->]. rewrite Hq, E1.
    split_and!; [apply shrinks_refl|set_solver|done|]. intros p' t' c [= <- <-]. by rewrite E1. }
  set (cats := categories_of active p t).
  assert (let '(kept, r1) := if _is_governing wk then drop_at_cap true status worker_key wk p cats r
                             else (cats, r) in
          shrinks r r1 ∧ kept ⊆ cats ∧ ∀ c, c ∈ cats → below_cap r p c → c ∈ kept) as H1.
  { destruct (_is_governing wk); [apply drop_at_cap_spec|]. split_and!; [apply shrinks_refl|done|done]. }
  destruct (if _is_governing wk then drop_at_cap true status worker_key wk p cats r else (cats, r))
    as [kept r1]. destruct H1 as (Hs1 & Hsub & Hkept).
  assert (let '(full, r2) := if _is_governing wk
            then _category_at_cap true status worker_key wk p NULL_CATEGORY r1 else (false, r1) in
          shrinks r1 r2 ∧ (below_cap r1 p NULL_CATEGORY → full = false)) as H2.
  { destruct (_is_governing wk); [|split; [apply shrinks_refl|done]].
    pose proof (at_cap_spec p NULL_CATEGORY r1) as [? ?].
    destruct (_category_at_cap true status worker_key wk p NULL_CATEGORY r1). by split. }
  destruct (if _is_governing wk then _category_at_cap true status worker_key wk p NULL_CATEGORY r1
            else (false, r1)) as [full r2]. destruct H2 as [Hs2 Hfull].
  assert (∀ c, c ∈ _weighted_rotation kept (Knobs.k_category_weights (wk_knobs wk)) (wk_cursor wk)
               ↔ c ∈ kept) as Hrot.
  { intros c. rewrite rotation_eq, elem_of_dedup_first, rotate_perm, elem_of_ring. set_solver. }
  split_and!.
  - by eapply shrinks_trans.
  - intros -> x. rewrite andb_true_r in Eskip. rewrite elem_of_app, list_elem_of_fmap.
    intros [(c & -> & Hc)|Hx].
    + apply Hrot, Hsub, elem_of_categories in Hc. destruct (Hactive _ _ _ Hc) as (? & ? & ?).
      by rewrite deferrable_lane_name, (fair_tier_effective t Ht).
    + destruct full; [set_solver|]. apply list_elem_of_singleton in Hx as ->. by rewrite Hq.
  - intros _ Hb. rewrite Hfull; [apply elem_of_app; right; left|].
    eapply below_cap_shrinks; [exact Hs1|]. by apply (Hb p t).
  - intros p' t' c [= <- <-] _ Hin Hb. apply elem_of_app. left. apply list_elem_of_fmap. exists c.
    split; [done|]. apply Hrot, Hkept; [|done]. by apply elem_of_categories.
Qed.

Lemma order_lanes_spec defer_bg base r :
  let '(ordered, r') := order_lanes true status worker_key wk active defer_bg base r in
  shrinks r r' ∧
  (defer_bg = true → ∀ x, x ∈ ordered → is_deferrable_queue x = false) ∧
  (∀ q, q ∈ base → defer_bg && is_deferrable_queue q = false →
     (∀ p t, fair_base q = Some (p, t) → below_cap r p NULL_CATEGORY) → q ∈ ordered) ∧
  (∀ q p t c, q ∈ base → fair_base q = Some (p, t) → defer_bg && mem t DEFERRABLE_TIERS = false →
     (p, c, t) ∈ active → below_cap r p c → lane_name p c t ∈ ordered).
Proof.
  revert r. induction base as [|q base IH]; intros r; simpl.
  { split_and!; [apply shrinks_refl|set_solver..]. }
  pose proof (lanes_of_base_spec defer_bg q r) as Hq.
  destruct (lanes_of_base true status worker_key wk active defer_bg q r) as [lanes r1].
  destruct Hq as (Q1 & Q2 & Q3 & Q4). specialize (IH r1).
  destruct (order_lanes true status worker_key wk active defer_bg base r1) as [rest r2].
  destruct IH as (I1 & I2 & I3 & I4). split_and!.
  - by eapply shrinks_trans.
  - intros Hd x [Hx|Hx]%elem_of_app; auto.
  - intros x [->|Hx]%elem_of_cons Hd Hb; apply elem_of_app; [left; auto|right].
    apply I3; [done..|]. intros p t Ef. eapply below_cap_shrinks; eauto.
  - intros x p t c [->|Hx]%elem_of_cons Ef Hd Ha Hb; apply elem_of_app; [left; eauto|right].
    eapply I4; eauto. by eapply below_cap_shrinks.
Qed.
End order.

(** The lanes of one poll. While background work is deferred no deferrable
    lane is in the order; every base lane that is not deferred is, unless the
    jobs without a category are at their cap; and so is every registered lane of
    a category that is below its cap. The pass itself only frees slots. *)
Theorem poll_serves_exactly_what_it_may {R} `{RedisLaws R} status worker_key wk defer_bg (r : R) :
  let '(_, ordered, r') := _fair_ordered_queues true status worker_key wk defer_bg r in
  (defer_bg = true → ∀ q, q ∈ ordered → is_deferrable_queue q = false) ∧
  (∀ q, q ∈ wk_base wk → defer_bg && is_deferrable_queue q = false →
     (∀ p t, fair_base q = Some (p, t) → below_cap wk r p NULL_CATEGORY) → q ∈ ordered) ∧
  (∀ member p c t, member ∈ smembers r RQ_QUEUES → discovered_lane wk member = Some (p, c, t) →
     defer_bg && mem t DEFERRABLE_TIERS = false → below_cap wk r p c → lane_name p c t ∈ ordered) ∧
  (∀ k, smembers r' k ⊆ smembers r k).
Proof.
  unfold _fair_ordered_queues. set (active := _discover_fair_queues true wk r).
  assert (∀ p c t, (p, c, t) ∈ active → contains "." p = false ∧ contains "." c = false ∧
    contains "." t = false) as Ha.
  { intros p c t. unfold active, _discover_fair_queues. destruct (_ || _); [set_solver|].
    intros (m & _ & Hm)%list_elem_of_omap. by apply discovered_lane_spec in Hm as (_ & ? & ? & ?). }
  pose proof (order_lanes_spec status worker_key (bump_cursor wk) active Ha defer_bg
    (_ordered_base_for_poll (bump_cursor wk)) r) as Ho.
  destruct (order_lanes _ _ _ _ _ _ _ r) as [ordered r']. destruct Ho as (O1 & O2 & O3 & O4).
  assert (∀ q, q ∈ _ordered_base_for_poll (bump_cursor wk) ↔ q ∈ wk_base wk) as Hbase.
  { intros q. unfold _ordered_base_for_poll. destruct (_ || _); [done|].
    change (q ∈ rotate (wk_base wk) (wk_cursor wk + 1) ↔ q ∈ wk_base wk). by rewrite rotate_perm. }
  split_and!; [exact O2| | |exact O1].
  - intros q Hq. apply O3. by apply Hbase.
  - intros m p c t Hm Hd Hdef Hb. destruct (discovered_lane_spec _ _ _ _ _ Hd) as [Ht _].
    pose proof Ht as (q & Hq & Ef)%list_elem_of_omap.
    eapply (O4 q); [by apply Hbase|exact Ef|exact Hdef| |exact Hb].
    unfold active, _discover_fair_queues. rewrite bool_decide_false by (intros E; rewrite E in Ht; set_solver).
    apply list_elem_of_omap. exists m. split; [by apply elem_of_elements|done].
Qed.

Lemma poll_serves_exactly_what_it_may_witness :
  "storage.p.interactive" ∈
    (_fair_ordered_queues true (λ _, None) (λ _, true) (ex_worker "a") true (mkStore ∅ ∅ ∅)).1.2.
Proof.
  pose proof (poll_serves_exactly_what_it_may (λ _, None) (λ _, true) (ex_worker "a") true
    (mkStore ∅ ∅ ∅)) as H.
  destruct (_fair_ordered_queues true (λ _, None) (λ _, true) (ex_worker "a") true (mkStore ∅ ∅ ∅))
    as [[wk ordered] r'].
  destruct H as (_ & H & _). apply (H "storage.p.interactive"); [left|reflexivity|].
  intros p t Hf. vm_compute in Hf. discriminate Hf.
Defined.

(** The same worker at another poll. *)
Definition at_cursor (wk : worker) (cursor : Z) : worker :=
  mkWorker (wk_name wk) (wk_floor wk) (wk_multitenancy wk) (wk_knobs wk) (wk_base wk) cursor.

(** The floor worker starves no tier: over as many consecutive polls as it
    has lanes, starting at any cursor, each of its lanes comes first exactly
    once; a governed worker keeps the order it was started with. *)
Theorem floor_takes_every_lane_in_turn wk cursor :
  (wk_floor wk = true →
     (λ k, head (_ordered_base_for_poll (at_cursor wk (cursor + k))))
       <$> seqZ 0 (Z.of_nat (length (wk_base wk))) ≡ₚ Some <$> wk_base wk) ∧
  (wk_floor wk = false → _ordered_base_for_poll (at_cursor wk cursor) = wk_base wk).
Proof.
  unfold _ordered_base_for_poll, at_cursor. simpl. split; intros ->; simpl; [|done].
  destruct (Nat.ltb_spec (length (wk_base wk)) 2) as [Hl|Hl].
  - destruct (wk_base wk) as [|q [|]]; simpl in *; [done|done|lia].
  - apply (rotate_heads (wk_base wk) cursor). destruct (wk_base wk); [simpl in Hl; lia|done].
Qed.

(** ** Admission *)
Section admission.
Context {R : Type} `{RedisLaws R}.

(** The reservation functions are the scripts followed by the tag. *)
Lemma reserve_fair_script up' wk j pool c heavy (r : R) :
  ∃ r1, reserve_script wk j (FairSlot pool c heavy) r
        = ((_reserve_fair true up' wk j pool c heavy r).1, r1) ∧
    ∀ k, smembers (_reserve_fair true up' wk j pool c heavy r).2 k = smembers r1 k.
Proof.
  unfold _reserve_fair, reserve_script. cbn [negb].
  destruct (_FAIR_RESERVE_LUA _ _ _ _ _ r) as [ok r1]. exists r1. split; [done|]. intros k. simpl.
  destruct ok; [|done]. unfold _record_reservation_owner. destruct up'; [apply smembers_set|done].
Qed.

Lemma reserve_heavy_script up' wk j (r : R) :
  ∃ r1, reserve_script wk j HeavySlot r = ((_reserve_heavy true up' wk j r).1, r1) ∧
    ∀ k, smembers (_reserve_heavy true up' wk j r).2 k = smembers r1 k.
Proof.
  unfold _reserve_heavy, reserve_script. cbn [negb].
  destruct (_RESERVE_LUA _ _ r) as [ok r1]. exists r1. split; [done|]. intros k. simpl.
  destruct ok; [|done]. unfold _record_reservation_owner. destruct up'; [apply smembers_set|done].
Qed.

Lemma reserve_fair_denied up' wk j pool c heavy (r : R) :
  (_reserve_fair true up' wk j pool c heavy r).1 = false →
  (_reserve_fair true up' wk j pool c heavy r).2 = r.
Proof. unfold _reserve_fair, _FAIR_RESERVE_LUA. cbn [negb]. by repeat case_match; simplify_eq. Qed.

Lemma reserve_heavy_denied up' wk j (r : R) :
  (_reserve_heavy true up' wk j r).1 = false → (_reserve_heavy true up' wk j r).2 = r.
Proof. unfold _reserve_heavy, _RESERVE_LUA. cbn [negb]. by repeat case_match; simplify_eq. Qed.

Lemma push_back_spec queue j (r : R) :
  lrange (_push_back true queue j r) (QUEUE_PREFIX +:+ queue) = j :: lrange r (QUEUE_PREFIX +:+ queue) ∧
  QUEUE_PREFIX +:+ queue ∈ smembers (_push_back true queue j r) RQ_QUEUES ∧
  ∀ k, k ≠ RQ_QUEUES → smembers (_push_back true queue j r) k = smembers r k.
Proof.
  unfold _push_back. split_and!.
  - by rewrite lrange_sadd, lrange_lpush, decide_True.
  - rewrite smembers_sadd, decide_True by done. set_solver.
  - intros k Hk. by rewrite smembers_sadd, decide_False, smembers_lpush by done.
Qed.

(** A job sent back: its lane starts with it and is registered, and no slot is
    taken. *)
Definition sent_back (queue j : string) (r r' : R) : Prop :=
  lrange r' (QUEUE_PREFIX +:+ queue) = j :: lrange r (QUEUE_PREFIX +:+ queue) ∧
  QUEUE_PREFIX +:+ queue ∈ smembers r' RQ_QUEUES ∧
  ∀ k, k ≠ RQ_QUEUES → smembers r' k = smembers r k.

Definition slots_taken (j : string) (res : reservation) (r r' : R) : Prop :=
  ∀ k, smembers r' k = if decide (k ∈ slots res) then {[j]} ∪ smembers r k else smembers r k.

(** The three outcomes of an admission. *)
Definition admitted (j queue : string) (quiet : Prop) (r : R) (out : bool * reservation * R) : Prop :=
  match out with
  | (true, res, r') => slots_taken j res r r' ∧ quiet
  | (false, res, r') => res = NoSlot ∧ sent_back queue j r r'
  end.

Lemma no_slot_taken j (r : R) : slots_taken j NoSlot r r.
Proof. intros k. by rewrite decide_False by set_solver. Qed.

Lemma reserved_outcome wk j res queue (quiet : Prop) (r r1 : R) (out : bool * R) :
  quiet → reserve_script wk j res r = (out.1, r1) → (∀ k, smembers out.2 k = smembers r1 k) →
  (out.1 = false → out.2 = r) →
  admitted j queue quiet r
    (if out.1 then (true, res, out.2) else (false, NoSlot, _push_back true queue j out.2)).
Proof.
  intros Hq Hs Hm Hl. destruct out as [[] r2]; simpl in *.
  - split; [|done]. intros k. rewrite Hm. eapply reserve_script_spec in Hs as [Hs _]. apply Hs.
  - split; [done|]. rewrite (Hl eq_refl). apply push_back_spec.
Qed.

(** What the admission of a job of this lane required of the node. *)
Definition node_quiet (wk : worker) (queue : string) (defer_bg pressure_high : bool) : Prop :=
  _is_governing wk = true → is_deferrable_queue queue = true → defer_bg = false ∧ pressure_high = false.

Lemma admit_outcome up' wk pressure_high j queue defer_bg (r : R) :
  admitted j queue (node_quiet wk queue defer_bg pressure_high) r
    (_admit true up' wk pressure_high j queue defer_bg r).
Proof.
  unfold _admit. destruct (parse_storage_queue (PStr queue)) as [[[pool cat] tier]|] eqn:Ep; last first.
  { rewrite andb_false_r. cbn [andb negb].
    assert (is_deferrable_queue queue = false) as Hd by (unfold is_deferrable_queue; by rewrite Ep).
    rewrite Hd, andb_false_r. split; [apply no_slot_taken|]. intros _. by rewrite Hd. }
  destruct (wk_multitenancy wk && mem tier _FAIR_TIERS) eqn:Ef; cbn [andb negb].
  - destruct (_is_governing wk) eqn:Eg; [|split; [apply no_slot_taken|]; unfold node_quiet; by rewrite Eg].
    apply andb_true_iff in Ef as [_ Et%mem_spec].
    assert (is_deferrable_queue queue = mem tier DEFERRABLE_TIERS) as Hd.
    { unfold is_deferrable_queue. by rewrite Ep, (fair_tier_effective tier Et). }
    destruct (mem tier DEFERRABLE_TIERS && (defer_bg || pressure_high)) eqn:Eq;
      [split; [done|apply push_back_spec]|].
    assert (node_quiet wk queue defer_bg pressure_high) as Hquiet.
    { intros _. rewrite Hd. intros Hm. rewrite Hm in Eq. cbn [andb] in Eq. by apply orb_false_iff in Eq. }
    destruct (reserve_fair_script up' wk j pool (default NULL_CATEGORY cat) (mem tier HEAVY_TIERS) r)
      as (r1 & Hs & Hm).
    pose proof (reserve_fair_denied up' wk j pool (default NULL_CATEGORY cat) (mem tier HEAVY_TIERS) r) as Hden.
    pose proof (reserved_outcome wk j _ queue _ r r1 _ Hquiet Hs Hm Hden) as Hout.
    by destruct (_reserve_fair true up' wk j pool (default NULL_CATEGORY cat) (mem tier HEAVY_TIERS) r).
  - destruct (_is_governing wk) eqn:Eg; cbn [andb];
      [|split; [apply no_slot_taken|]; unfold node_quiet; by rewrite Eg].
    destruct (is_deferrable_queue queue) eqn:Ed;
      [|split; [apply no_slot_taken|]; unfold node_quiet; by rewrite Ed].
    destruct (defer_bg || pressure_high) eqn:Eq; [split; [done|apply push_back_spec]|].
    apply orb_false_iff in Eq as [-> ->].
    destruct (is_heavy_queue queue); [|split; [apply no_slot_taken|done]].
    destruct (reserve_heavy_script up' wk j r) as (r1 & Hs & Hm).
    pose proof (reserve_heavy_denied up' wk j r) as Hden.
    pose proof (reserved_outcome wk j HeavySlot queue (node_quiet wk queue false false) r r1 _
      ltac:(by intros) Hs Hm Hden) as Hout.
    by destruct (_reserve_heavy true up' wk j r).
Qed.
End admission.

(** C16: Admission is all or nothing, and the release undoes it. A job that is
    admitted has exactly the slots that are recorded for it, and on a governed
    worker a deferrable lane passed neither under pressure nor while deferring;
    a job that is denied is back at the front of its lane, the lane is
    registered, and no slot is taken. Running an admitted job that held no slot
    before and releasing it leaves every running set as it was. *)
Theorem admission_round_trip {R} `{RedisLaws R} up' wk pressure_high j queue defer_bg (r : R) :
  match _admit true up' wk pressure_high j queue defer_bg r with
  | (true, res, r') =>
      slots_taken j res r r' ∧ node_quiet wk queue defer_bg pressure_high ∧
      ((∀ k, j ∉ smembers r k) → ∀ k, smembers (execute_job_release true j res r') k = smembers r k)
  | (false, res, r') => res = NoSlot ∧ sent_back queue j r r'
  end.
Proof.
  pose proof (admit_outcome up' wk pressure_high j queue defer_bg r) as Ho.
  destruct (_admit true up' wk pressure_high j queue defer_bg r) as [[[] res] r']; [|done].
  destruct Ho as [Hs Hq]. split_and!; [done..|]. intros Hj k.
  destruct (decide (res = NoSlot)) as [->|Hres].
  { simpl. rewrite Hs, decide_False by set_solver. done. }
  destruct (release_spec j res r' Hres) as [Hrel _]. rewrite Hrel, Hs. specialize (Hj k).
  case_decide; [|done]. apply set_eq. set_solver.
Qed.

Lemma admission_round_trip_witness :
  ∃ r' : store,
    slots_taken "j" (FairSlot "p" "c" true) (mkStore ∅ ∅ ∅) r' ∧
    ∀ k, smembers (execute_job_release true "j" (FairSlot "p" "c" true) r') k
         = smembers (mkStore ∅ ∅ ∅) k.
Proof.
  pose proof (admission_round_trip true (ex_worker "a") false "j" "storage.p.c.maintenance" false
    (mkStore ∅ ∅ ∅)) as H.
  destruct (_admit true true (ex_worker "a") false "j" "storage.p.c.maintenance" false (mkStore ∅ ∅ ∅))
    as [[ok res] r'] eqn:E.
  assert (ok = true ∧ res = FairSlot "p" "c" true) as [-> ->].
  { apply (f_equal fst) in E. vm_compute in E. injection E as <- <-. split; reflexivity. }
  destruct H as (Hs & _ & Hr). exists r'. split; [exact Hs|]. apply Hr. intros k. apply not_elem_of_empty.
Defined.
