(* ===== verification/LaneGc.v ===== *)
(** * The collector of idle lanes

    [component/_common/src/isardvdi_common/lib/queue_lane_gc.py]: RQ registers a
    lane in [rq:queues] when a job is enqueued on it and never takes it out;
    [collect_empty_lanes] unregisters the storage lanes that stayed idle, while
    producers, workers and other passes go on. The older collector of a worker,
    [_gc_drained_category_lanes] of [governed_worker.py], is here too.

    A pass is a program ([prog]) of the calls it makes to the broker: each call
    (a command, a script, or a pipeline, which is a transaction) is atomic, and
    anything may happen between two of them. [run] executes a pass alone;
    [gc_step] interleaves any number of passes with the rest of the system.
    Instants are rationals of seconds. *)
From Stdlib Require Import QArith Lqa.
From S2P Require Import Prelude PyVal QueueTiers.

Definition RQ_QUEUES_KEY : string := "rq:queues".
Definition _QUEUE_PREFIX : string := "rq:queue:".
Definition _STORAGE_PREFIX : string := _QUEUE_PREFIX +:+ "storage.".
Definition _REGISTRY_PREFIXES : list string := ["rq:wip:"; "rq:deferred:"; "rq:scheduled:"; "rq:failed:"].
Definition _WORKERS_BY_QUEUE : string := "rq:workers:".
Definition LANE_GC_GRACE_SECONDS : Q := 3600.
Definition LANE_GC_WATCH_SECONDS : Q := 86400.

(** ** The keys the collector reads and writes *)
Record lane_store := mkLanes {
  ls_queues : gset string;                  (** [rq:queues] *)
  ls_lists : gmap string (list string);     (** the job lists *)
  ls_zsets : gmap string (gset string);     (** the members of the registries *)
  ls_listeners : gmap string (gset string); (** the [rq:workers:<lane>] sets *)
  ls_alive : gset string;                   (** the worker hashes that exist *)
  ls_idle_since : gmap string Q;            (** [LANE_GC_IDLE_SINCE_KEY] *)
  ls_removed : gmap string Q;               (** [LANE_GC_REMOVED_KEY], a sorted set *)
  ls_locked : bool;                         (** [LANE_GC_LOCK_KEY] exists *)
}.

Definition llen (b : lane_store) (k : string) : nat := length (default [] (ls_lists b !! k)).
Definition zcard (b : lane_store) (k : string) : nat := size (default ∅ (ls_zsets b !! k)).
Definition listeners (b : lane_store) (k : string) : list string :=
  elements (default ∅ (ls_listeners b !! k)).

Definition set_queues (b : lane_store) (q : gset string) : lane_store :=
  mkLanes q (ls_lists b) (ls_zsets b) (ls_listeners b) (ls_alive b) (ls_idle_since b) (ls_removed b) (ls_locked b).
Definition set_idle (b : lane_store) (i : gmap string Q) : lane_store :=
  mkLanes (ls_queues b) (ls_lists b) (ls_zsets b) (ls_listeners b) (ls_alive b) i (ls_removed b) (ls_locked b).
Definition set_removed (b : lane_store) (m : gmap string Q) : lane_store :=
  mkLanes (ls_queues b) (ls_lists b) (ls_zsets b) (ls_listeners b) (ls_alive b) (ls_idle_since b) m (ls_locked b).
Definition set_locked (b : lane_store) (l : bool) : lane_store :=
  mkLanes (ls_queues b) (ls_lists b) (ls_zsets b) (ls_listeners b) (ls_alive b) (ls_idle_since b) (ls_removed b) l.

(** [key[len(_QUEUE_PREFIX):]] *)
Definition lane_name (key : string) : string :=
  String.substring (String.length _QUEUE_PREFIX) (String.length key) key.

(** The list and the four registries of a lane. *)
Definition _lane_keys (lane_key : string) : string * list string :=
  (lane_key, (λ p, p +:+ lane_name lane_key) <$> _REGISTRY_PREFIXES).

(** ** The scripts *)
Definition has_work (b : lane_store) (key : string) : bool :=
  let '(list_key, registries) := _lane_keys key in
  (0 <? llen b list_key)%nat || existsb (λ k, (0 <? zcard b k)%nat) registries.

Definition has_listener (b : lane_store) (key : string) : bool :=
  existsb (λ w, bool_decide (w ∈ ls_alive b)) (listeners b (_WORKERS_BY_QUEUE +:+ lane_name key)).

Definition _REMOVE_IDLE_LANE_LUA (key : string) (now : Q) (b : lane_store) : bool * lane_store :=
  let idle := negb (has_work b key) && negb (has_listener b key) in
  let b := set_idle b (delete key (ls_idle_since b)) in
  if negb idle then (false, b)
  else
    let removed := bool_decide (key ∈ ls_queues b) in
    let b := set_queues b (ls_queues b ∖ {[key]}) in
    (removed, if removed then set_removed b (<[key := now]> (ls_removed b)) else b).

Definition _RESTORE_LANE_LUA (key : string) (b : lane_store) : bool * lane_store :=
  if bool_decide (key ∈ ls_queues b) then (false, set_removed b (delete key (ls_removed b)))
  else if negb (has_work b key) then (false, b)
  else (true, set_removed (set_queues b ({[key]} ∪ ls_queues b)) (delete key (ls_removed b))).

(** [_GC_LANE_LUA] of the worker: no failed registry, no listener, no record of
    the removal. *)
Definition _GC_LANE_LUA (key : string) (b : lane_store) : lane_store :=
  let name := lane_name key in
  if ((llen b key =? 0) && (zcard b ("rq:wip:" +:+ name) =? 0)
      && (zcard b ("rq:deferred:" +:+ name) =? 0) && (zcard b ("rq:scheduled:" +:+ name) =? 0))%nat
  then set_queues b (ls_queues b ∖ {[key]}) else b.

(** ** Calls and programs *)
Inductive idle_op := HDel (key : string) | HSet (key : string) (now : Q).

Definition apply_idle (op : idle_op) (m : gmap string Q) : gmap string Q :=
  match op with HDel k => delete k m | HSet k t => <[k := t]> m end.

Inductive cmd : Type → Type :=
  | SetLockNx : cmd bool
  | ZRemRangeRemoved (max : Q) : cmd unit
  | ZRangeRemoved : cmd (list string)
  | EvalRestore (key : string) : cmd bool
  | SMembersQueues : cmd (list string)
  | PipeProbe (lanes : list string) : cmd (list (string * (bool * list string)))
  | PipeExists (workers : list string) : cmd (list (string * bool))
  | HGetAllIdle : cmd (list (string * Q))
  | PipeIdle (ops : list idle_op) : cmd unit
  | EvalRemove (key : string) (now : Q) : cmd bool.

Definition score_leb (x y : string * Q) : bool :=
  if Qeq_bool x.2 y.2 then String.leb x.1 y.1 else Qle_bool x.2 y.2.

(** The row of a lane in the first pipeline is whether any of its counts is not
    zero, and its listeners. *)
Definition exec {B} (c : cmd B) (b : lane_store) : B * lane_store :=
  match c with
  | SetLockNx => (negb (ls_locked b), set_locked b true)
  | ZRemRangeRemoved max => (tt, set_removed b (filter (λ kv, Qle_bool kv.2 max = false) (ls_removed b)))
  | ZRangeRemoved => ((py_sorted score_leb (map_to_list (ls_removed b))).*1, b)
  | EvalRestore key => _RESTORE_LANE_LUA key b
  | SMembersQueues => (elements (ls_queues b), b)
  | PipeProbe lanes =>
      ((λ key, (key, (has_work b key, listeners b (_WORKERS_BY_QUEUE +:+ lane_name key)))) <$> lanes, b)
  | PipeExists workers => ((λ w, (w, bool_decide (w ∈ ls_alive b))) <$> workers, b)
  | HGetAllIdle => (map_to_list (ls_idle_since b), b)
  | PipeIdle ops => (tt, set_idle b (foldl (λ m op, apply_idle op m) (ls_idle_since b) ops))
  | EvalRemove key now => _REMOVE_IDLE_LANE_LUA key now b
  end.

Inductive prog (A : Type) : Type :=
  | Ret (a : A)
  | Call (B : Type) (c : cmd B) (k : B → prog A).
Arguments Ret {A} a.
Arguments Call {A B} c k.

Definition call {B} (c : cmd B) : prog B := Call c Ret.

#[export] Instance prog_ret : MRet prog := @Ret.
#[export] Instance prog_bind : MBind prog := λ A B f,
  fix go m := match m with Ret a => f a | Call c k => Call c (λ r, go (k r)) end.

(** A pass nothing interferes with. *)
Fixpoint run {A} (p : prog A) (b : lane_store) : A * lane_store :=
  match p with
  | Ret a => (a, b)
  | Call c k => let '(r, b) := exec c b in run (k r) b
  end.

(** ** The pass *)
Definition is_storage_lane (key : string) : bool :=
  String.prefix _STORAGE_PREFIX key
  && match parse_storage_queue (PStr (lane_name key)) with Some _ => true | None => false end.

Definition _storage_lanes : prog (list string) :=
  members ← call SMembersQueues;
  mret (py_sorted String.leb (List.filter is_storage_lane members)).

Fixpoint restore_each (keys : list string) : prog nat :=
  match keys with
  | [] => mret O
  | key :: keys =>
      ok ← call (EvalRestore key);
      n ← restore_each keys;
      mret (if ok : bool then S n else n)
  end.

Definition _restore_removed_lanes (now : Q) : prog nat :=
  _ ← call (ZRemRangeRemoved (now - LANE_GC_WATCH_SECONDS));
  keys ← call ZRangeRemoved;
  restore_each keys.

Definition _idle_lanes (lanes : list string) : prog (list (string * bool)) :=
  rows ← call (PipeProbe lanes);
  let workers := py_sorted String.leb (remove_dups (concat ((λ row, row.2.2) <$> rows))) in
  flags ← (if bool_decide (workers = []) then mret [] else call (PipeExists workers));
  let alive := (List.filter snd flags).*1 in
  mret ((λ row, (row.1, negb row.2.1 && negb (existsb (λ w, mem w alive) row.2.2))) <$> rows).

Record summary := mkSummary {
  sm_lanes : nat; sm_busy : nat; sm_waiting : nat; sm_removed : nat; sm_restored : nat }.

(** What the pass does with one lane before the removals. *)
Inductive verdict := Busy | Waiting | Due.
#[export] Instance verdict_eq_dec : EqDecision verdict.
Proof. solve_decision. Defined.

Definition lane_verdict (now grace : Q) (idle_since : list (string * Q)) (row : string * bool)
    : verdict * list idle_op :=
  let '(key, idle) := row in
  if negb idle then
    (Busy, match assoc key idle_since with Some _ => [HDel key] | None => [] end)
  else match assoc key idle_since with
       | None => (Waiting, [HSet key now])
       | Some t => if Qle_bool grace (now - t) then (Due, []) else (Waiting, [])
       end.

Fixpoint remove_each (now : Q) (keys : list string) : prog nat :=
  match keys with
  | [] => mret O
  | key :: keys =>
      ok ← call (EvalRemove key now);
      n ← remove_each now keys;
      mret (if ok : bool then S n else n)
  end.

Definition _collect (now grace : Q) : prog summary :=
  restored ← _restore_removed_lanes now;
  lanes ← _storage_lanes;
  idle ← (if bool_decide (lanes = []) then mret [] else _idle_lanes lanes);
  idle_since ← call HGetAllIdle;
  let verdicts := (λ row, (row.1, lane_verdict now grace idle_since row)) <$> idle in
  let count v := length (List.filter (λ kv, bool_decide (kv.2.1 = v)) verdicts) in
  let due := (List.filter (λ kv, bool_decide (kv.2.1 = Due)) verdicts).*1 in
  _ ← call (PipeIdle (concat ((λ kv, kv.2.2) <$> verdicts)
              ++ (HDel <$> List.filter (λ k, negb (mem k lanes)) idle_since.*1)));
  removed ← remove_each now due;
  again ← (if (0 <? removed)%nat then _restore_removed_lanes now else mret O);
  mret (mkSummary (length lanes) (count Busy + (length due - removed)) (count Waiting) removed
          (restored + again)).

(** [None] is a pass the lock skipped. *)
Definition collect_empty_lanes (now grace : Q) : prog (option summary) :=
  won ← call SetLockNx;
  if (won : bool) then s ← _collect now grace; mret (Some s) else mret None.

(** The collector of a worker, over the fair targets of the worker. *)
Definition drained_target (fair_targets : list (string * string)) (member : string) : bool :=
  String.prefix _QUEUE_PREFIX member &&
  match parse_storage_queue (PStr (lane_name member)) with
  | Some (pool, Some _, tier) => bool_decide ((pool, tier) ∈ fair_targets)
  | _ => false
  end.

Definition _gc_drained_category_lanes (fair_targets : list (string * string)) (b : lane_store)
    : lane_store :=
  foldl (λ b member, if drained_target fair_targets member then _GC_LANE_LUA member b else b)
    b (elements (ls_queues b)).

(** ** The system around the passes

    A pass may be paused for [d] seconds at most between its clock reading and
    its last call. A call that raises ends its pass ([pass_raises]): the error
    is caught and logged. [outside] is everything else, RQ and the workers: it
    changes jobs, registries, workers at will, and may register lanes; it never
    unregisters one. So the older collector of the workers, [_gc_drained_category_lanes],
    is not among these steps. *)
Record gc_system := mkSystem {
  gc_store : lane_store;
  gc_clock : Q;
  gc_passes : list (Q * prog (option summary));
}.

Inductive gc_step (grace d : Q) : gc_system → gc_system → Prop :=
  | tick b t t' ps :
      (t <= t')%Q → gc_step grace d (mkSystem b t ps) (mkSystem b t' ps)
  | pass_starts b t ps :
      gc_step grace d (mkSystem b t ps) (mkSystem b t ((t, collect_empty_lanes t grace) :: ps))
  | pass_calls b t ps1 ps2 now B (c : cmd B) k :
      (t - now <= d)%Q →
      gc_step grace d (mkSystem b t (ps1 ++ (now, Call c k) :: ps2))
        (let '(r, b') := exec c b in mkSystem b' t (ps1 ++ (now, k r) :: ps2))
  | pass_raises b t ps1 ps2 p :
      gc_step grace d (mkSystem b t (ps1 ++ p :: ps2)) (mkSystem b t (ps1 ++ ps2))
  | lock_expires b t ps : gc_step grace d (mkSystem b t ps) (mkSystem (set_locked b false) t ps)
  | outside b b' t ps :
      ls_queues b ⊆ ls_queues b' → ls_removed b = ls_removed b' →
      gc_step grace d (mkSystem b t ps) (mkSystem b' t ps).

(** ** Programs and the calls they make *)
Fixpoint issues {A} (P : ∀ B, cmd B → Prop) (p : prog A) : Prop :=
  match p with
  | Ret _ => True
  | Call c k => P _ c ∧ ∀ r, issues P (k r)
  end.

Lemma issues_bind {A B} (P : ∀ B, cmd B → Prop) (m : prog A) (f : A → prog B) :
  issues P m → (∀ a, issues P (f a)) → issues P (m ≫= f).
Proof. intros Hm Hf. induction m as [a|B' c k IH]; [apply Hf|]. destruct Hm. split; [done|]. intros r. by apply IH. Qed.

Lemma run_bind {A B} (m : prog A) (f : A → prog B) b :
  run (m ≫= f) b = let '(a, b1) := run m b in run (f a) b1.
Proof.
  revert b. induction m as [a|B' c k IH]; intros b; [done|].
  change (run (Call c k ≫= f) b) with (let '(r, b1) := exec c b in run (k r ≫= f) b1).
  cbn [run]. destruct (exec c b) as [r b1]. apply IH.
Qed.

(** A pass that read the clock at [now] prunes the removals of a day before,
    and dates its own removals [now]. *)
Definition dated (now : Q) {B} (c : cmd B) : Prop :=
  match c with
  | ZRemRangeRemoved max => max = now - LANE_GC_WATCH_SECONDS
  | EvalRemove _ t => t = now
  | _ => True
  end%Q.

Lemma issues_call {A B} (P : ∀ B, cmd B → Prop) (c : cmd A) (f : A → prog B) :
  P A c → (∀ r, issues P (f r)) → issues P (call c ≫= f).
Proof. by split. Qed.

Lemma restore_dated now : issues (@dated now) (_restore_removed_lanes now).
Proof.
  unfold _restore_removed_lanes. apply issues_call; [done|]. intros _. apply issues_call; [done|].
  intros keys. induction keys as [|k keys IH]; [done|]. cbn [restore_each].
  apply issues_call; [done|]. intros ok. by apply issues_bind.
Qed.

Lemma remove_each_dated now due : issues (@dated now) (remove_each now due).
Proof.
  induction due as [|k due IH]; [done|]. cbn [remove_each].
  apply issues_call; [done|]. intros ok. by apply issues_bind.
Qed.

Lemma collect_dated now grace : issues (@dated now) (collect_empty_lanes now grace).
Proof.
  unfold collect_empty_lanes. apply issues_call; [done|]. intros [|]; [|done].
  apply issues_bind; [|done]. unfold _collect.
  apply issues_bind; [apply restore_dated|]. intros n.
  apply issues_bind; [by apply issues_call|]. intros lanes. apply issues_bind.
  { case_bool_decide; [done|]. unfold _idle_lanes. apply issues_call; [done|]. intros rows.
    apply issues_bind; [|done]. case_bool_decide; [done|by split]. }
  intros idle. apply issues_call; [done|]. intros since. apply issues_call; [done|]. intros _.
  apply issues_bind; [apply remove_each_dated|]. intros removed.
  apply issues_bind; [|done]. destruct (0 <? removed)%nat; [apply restore_dated|done].
Qed.

(** ** A registered lane is never lost *)
Definition watched (since : Q) (key : string) (b : lane_store) : Prop :=
  key ∈ ls_queues b ∨ ∃ t, ls_removed b !! key = Some t ∧ (since <= t)%Q.

Lemma exec_watched {B} (c : cmd B) b now since key :
  dated now c → (since <= now)%Q → (now < since + LANE_GC_WATCH_SECONDS)%Q →
  watched since key b → watched since key (exec c b).2.
Proof.
  intros Hc Hnow Hday [Hq|(t & Hrem & Ht)].
  - destruct c; try by left.
    + simpl. unfold _RESTORE_LANE_LUA. case_bool_decide; [by left|].
      destruct (negb _); [by left|]. left. simpl. set_solver.
    + simpl in *. subst. unfold _REMOVE_IDLE_LANE_LUA. destruct (negb _); [by left|].
      destruct (decide (key = key0)) as [->|Hne].
      * rewrite bool_decide_true by done. right. exists now. split; [apply lookup_insert_eq|done].
      * left. case_bool_decide; simpl; set_solver.
  - destruct c; try (right; exists t; by split).
    + simpl in *. subst. right. exists t. split; [|done]. apply map_lookup_filter_Some.
      split; [done|]. simpl. apply not_true_is_false. rewrite Qle_bool_iff. lra.
    + simpl. unfold _RESTORE_LANE_LUA. destruct (decide (key = key0)) as [->|Hne].
      * case_bool_decide; [by left|]. destruct (negb _); [right; by exists t|]. left. simpl. set_solver.
      * right. exists t. split; [|done]. case_bool_decide; [by simpl; rewrite lookup_delete_ne|].
        destruct (negb _); [done|]. simpl. by rewrite lookup_delete_ne.
    + simpl in *. subst. unfold _REMOVE_IDLE_LANE_LUA. destruct (negb _); [right; by exists t|].
      destruct (decide (key = key0)) as [->|Hne].
      * right. case_bool_decide; simpl; [|by exists t]. exists now. by rewrite lookup_insert_eq.
      * right. exists t. split; [|done]. case_bool_decide; simpl; [by rewrite lookup_insert_ne|done].
Qed.

(** The jobs, registries and workers are the same. *)
Definition same_jobs (b b' : lane_store) : Prop :=
  ls_lists b = ls_lists b' ∧ ls_zsets b = ls_zsets b' ∧
  ls_listeners b = ls_listeners b' ∧ ls_alive b = ls_alive b'.

#[export] Instance same_jobs_equiv : Equivalence same_jobs.
Proof.
  split; [intros b|intros b b' (?&?&?&?)|intros b b' b'' (?&?&?&?) (?&?&?&?)]; split_and!; congruence.
Qed.

#[export] Instance has_work_proper : Proper (same_jobs ==> eq ==> eq) has_work.
Proof. intros b b' (Hl&Hz&_&_) k ? <-. unfold has_work, llen, zcard. by rewrite Hl, Hz. Qed.

#[export] Instance has_listener_proper : Proper (same_jobs ==> eq ==> eq) has_listener.
Proof. intros b b' (_&_&Hl&Ha) k ? <-. unfold has_listener, listeners. by rewrite Hl, Ha. Qed.

Lemma exec_same_jobs {B} (c : cmd B) b : same_jobs b (exec c b).2.
Proof.
  destruct c; try done; simpl.
  - unfold _RESTORE_LANE_LUA. by repeat case_match.
  - unfold _REMOVE_IDLE_LANE_LUA. repeat case_match; simplify_eq; done.
Qed.

Lemma run_same_jobs {A} (p : prog A) b : same_jobs b (run p b).2.
Proof.
  revert b. induction p as [a|B c k IH]; intros b; [done|]. cbn [run].
  pose proof (exec_same_jobs c b) as Hb. destruct (exec c b) as [r b1]. etrans; [exact Hb|apply IH].
Qed.

Lemma run_call {A B} (c : cmd A) (f : A → prog B) b :
  run (call c ≫= f) b = run (f (exec c b).1) (exec c b).2.
Proof. rewrite run_bind. cbn [call run]. by destruct (exec c b). Qed.

(** The sweep registers exactly the lanes of its list that have work. *)
Lemma restore_each_queues keys b x :
  x ∈ ls_queues (run (restore_each keys) b).2 ↔
  x ∈ ls_queues b ∨ x ∈ keys ∧ has_work b x = true.
Proof.
  revert b. induction keys as [|k keys IH]; intros b; [set_solver|]. cbn [restore_each].
  rewrite run_call, run_bind.
  assert (Hb : has_work (exec (EvalRestore k) b).2 x = has_work b x)
    by (by rewrite <-(exec_same_jobs (EvalRestore k) b)).
  specialize (IH (exec (EvalRestore k) b).2). destruct (run (restore_each keys) _) as [n b2].
  cbn [snd] in *. rewrite IH, Hb. clear IH Hb. cbn [exec]. unfold _RESTORE_LANE_LUA.
  rewrite elem_of_cons. case_bool_decide; simpl; [naive_solver|].
  destruct (has_work b k) eqn:E; simpl; [|naive_solver congruence].
  rewrite elem_of_union, elem_of_singleton. naive_solver.
Qed.

Lemma zrange_removed b x : x ∈ (exec ZRangeRemoved b).1 ↔ is_Some (ls_removed b !! x).
Proof.
  simpl. rewrite list_elem_of_fmap. setoid_rewrite elem_of_py_sorted. split.
  - intros ([y t] & -> & H%elem_of_map_to_list). eauto.
  - intros [t H]. exists (x, t). split; [done|]. by apply elem_of_map_to_list.
Qed.

(** A lane is on watch at [now] when it was removed less than a day before. *)
Definition on_watch (now : Q) (b : lane_store) (x : string) : Prop :=
  ∃ t, ls_removed b !! x = Some t ∧ Qle_bool t (now - LANE_GC_WATCH_SECONDS) = false.

Lemma restore_queues now b x :
  x ∈ ls_queues (run (_restore_removed_lanes now) b).2 ↔
  x ∈ ls_queues b ∨ on_watch now b x ∧ has_work b x = true.
Proof.
  unfold _restore_removed_lanes. rewrite !run_call.
  set (b1 := (exec (ZRemRangeRemoved _) b).2).
  change ((exec ZRangeRemoved b1).2) with b1. rewrite restore_each_queues, zrange_removed.
  assert (Hw : has_work b1 x = has_work b x) by done. rewrite Hw.
  assert (Hq : ls_queues b1 = ls_queues b) by done. rewrite Hq. clear Hw Hq.
  assert (is_Some (ls_removed b1 !! x) ↔ on_watch now b x) as ->; [|done].
  unfold b1, on_watch. cbn [exec snd set_removed ls_removed]. split.
  - intros [t [H1 H2]%map_lookup_filter_Some]. eauto.
  - intros (t & H1 & H2). exists t. by apply map_lookup_filter_Some.
Qed.

(** The invariant of the interleavings. *)
Definition passes_dated (s : gc_system) : Prop :=
  Forall (λ np : Q * prog (option summary),
    (np.1 <= gc_clock s)%Q ∧ issues (@dated np.1) np.2) (gc_passes s).

Lemma step_passes_dated grace d s s' : gc_step grace d s s' → passes_dated s → passes_dated s'.
Proof.
  unfold passes_dated. destruct 1 as [b t t' ps Ht|b t ps|b t ps1 ps2 now B c k Hd|b t ps1 ps2 p|b t ps|b b' t ps Hq Hr];
    simpl; intros H; try done.
  - eapply Forall_impl; [exact H|]. simpl. intros [n p] [? ?]. split; [simpl in *; lra|done].
  - constructor; [|done]. split; [simpl; lra|apply collect_dated].
  - destruct (exec c b) as [r b']. simpl. rewrite Forall_app, Forall_cons in *.
    destruct H as (? & (? & ? & Hk) & ?). split_and!; [done|done|apply Hk|done].
  - rewrite Forall_app, Forall_cons in *. by destruct H as (? & ? & ?); split.
Qed.

Lemma step_clock grace d s s' : gc_step grace d s s' → (gc_clock s <= gc_clock s')%Q.
Proof. destruct 1; simpl; try lra. destruct (exec c b). simpl. lra. Qed.

Lemma step_watched grace d key since s s' :
  gc_step grace d s s' → passes_dated s → (since + d <= gc_clock s)%Q →
  (gc_clock s' < since + LANE_GC_WATCH_SECONDS)%Q →
  watched since key (gc_store s) → watched since key (gc_store s').
Proof.
  destruct 1 as [b t t' ps Ht|b t ps|b t ps1 ps2 now B c k Hd|b t ps1 ps2 p|b t ps|b b' t ps Hq Hr];
    simpl; intros Hp Hs Hday Hw; try done.
  - assert (Hnow : dated now c ∧ (now <= t)%Q).
    { unfold passes_dated in Hp. simpl in Hp. rewrite Forall_app, Forall_cons in Hp.
      by destruct Hp as (_ & (? & ? & _) & _). }
    destruct Hnow as [Hc Hle]. pose proof (exec_watched c b now since key Hc) as H.
    destruct (exec c b) as [r b']. simpl in *. apply H; [lra|lra|done].
  - destruct Hw as [?|?]; [left; set_solver|right; by rewrite <-Hr].
Qed.

Lemma steps_watched grace d key since s s' :
  steps (gc_step grace d) s s' → passes_dated s → (since + d <= gc_clock s)%Q →
  (gc_clock s' < since + LANE_GC_WATCH_SECONDS)%Q →
  watched since key (gc_store s) → watched since key (gc_store s').
Proof.
  induction 1 as [s|s1 s2 s3 H1 H2 IH]; intros Hp Hs Hday Hw; [done|].
  assert (Hc : (gc_clock s2 <= gc_clock s3)%Q).
  { clear -H2. induction H2 as [|a b c Hab]; [lra|]. apply step_clock in Hab. lra. }
  pose proof (step_clock _ _ _ _ H1). apply IH; [by eapply step_passes_dated|lra|done|].
  eapply step_watched; [done|done|done|lra|done].
Qed.

(** C21: Let passes of the fleet-wide collector interleave call by call with each other and
    with producers and workers that may change anything except unregister a lane or touch
    the watch list ([outside]), each call of a pass at most [d] seconds after its start.
    Then a lane registered at some moment (the first half of an enqueue) is, for
    LANE_GC_WATCH_SECONDS less [d] after it, still registered or on the watch list with a
    date that the sweep honours; and if it has work by then, the sweep of the next pass
    registers it. The older collector that a worker runs itself is outside these conditions,
    since it unregisters lanes without a record, and does lose such a job
    ([worker_collector_hides_a_straddling_job]). *)
Theorem registered_lane_is_never_lost grace d key s0 s s' :
  gc_passes s0 = [] → steps (gc_step grace d) s0 s → key ∈ ls_queues (gc_store s) →
  steps (gc_step grace d) s s' → (gc_clock s' < gc_clock s - d + LANE_GC_WATCH_SECONDS)%Q →
  watched (gc_clock s - d) key (gc_store s') ∧
  (has_work (gc_store s') key = true →
   key ∈ ls_queues (run (_restore_removed_lanes (gc_clock s')) (gc_store s')).2).
Proof.
  intros H0 Hinit Hkey Hsteps Hday.
  assert (Hp : passes_dated s).
  { eapply steps_invariant; [intros a b; apply step_passes_dated|exact Hinit|].
    unfold passes_dated. rewrite H0. constructor. }
  assert (Hw : watched (gc_clock s - d) key (gc_store s')).
  { eapply steps_watched; [done|done|lra|lra|by left]. }
  split; [done|]. intros Hwork. apply restore_queues. destruct Hw as [?|(t & Ht & Hle)]; [by left|].
  right. split; [|done]. exists t. split; [done|]. apply not_true_is_false. rewrite Qle_bool_iff. lra.
Qed.

(** A pass that is never interrupted is one of the interleavings. *)
Lemma pass_alone grace d t (p : prog (option summary)) b :
  (0 <= d)%Q →
  steps (gc_step grace d) (mkSystem b t [(t, p)]) (mkSystem (run p b).2 t [(t, Ret (run p b).1)]).
Proof.
  intros Hd. revert b. induction p as [a|B c k IH]; intros b; [constructor|].
  eapply steps_cons; [apply (pass_calls grace d b t [] [] t B c k); lra|].
  cbn [run]. destruct (exec c b) as [r b1]. apply IH.
Qed.

Definition ex_lane : string := "rq:queue:storage.p.cat.bulk".
Definition ex_idle_store : lane_store :=
  mkLanes {[ex_lane]} ∅ ∅ ∅ ∅ {[ex_lane := 0%Q]} ∅ false.
(** The push of a job on a lane. *)
Definition push_job (key job : string) (b : lane_store) : lane_store :=
  mkLanes (ls_queues b) (<[key := default [] (ls_lists b !! key) ++ [job]]> (ls_lists b)) (ls_zsets b)
    (ls_listeners b) (ls_alive b) (ls_idle_since b) (ls_removed b) (ls_locked b).
Definition ex_straddled : lane_store :=
  push_job ex_lane "j" (run (collect_empty_lanes 7200 LANE_GC_GRACE_SECONDS) ex_idle_store).2.

(** The enqueue straddles the removal: its registration is undone by the pass,
    then the job is pushed. *)
Lemma registered_lane_is_never_lost_witness :
  ex_lane ∉ ls_queues ex_straddled ∧ has_work ex_straddled ex_lane = true ∧
  ex_lane ∈ ls_queues (run (_restore_removed_lanes 7200) ex_straddled).2.
Proof.
  assert (H : steps (gc_step LANE_GC_GRACE_SECONDS 60) (mkSystem ex_idle_store 7200 [])
                (mkSystem ex_straddled 7200
                   [(7200%Q, Ret (run (collect_empty_lanes 7200 LANE_GC_GRACE_SECONDS) ex_idle_store).1)])).
  { eapply steps_cons; [apply pass_starts|]. eapply steps_trans; [apply pass_alone; lra|].
    eapply steps_cons; [|constructor]. by apply outside. }
  split_and!; [by apply (bool_decide_unpack _); vm_compute|by vm_compute|].
  refine (proj2 (registered_lane_is_never_lost LANE_GC_GRACE_SECONDS 60 ex_lane (mkSystem ex_idle_store 7200 [])
    (mkSystem ex_idle_store 7200 []) _ _ _ _ H _) _); [done|constructor| |by vm_compute|by vm_compute].
  simpl. set_solver.
Defined.

(** The collector of a worker unregisters a drained lane without a record:
    when an enqueue registers its lane and pushes its job in two calls, as the
    fleet-wide collector assumes, the job ends on a lane that is neither
    registered nor on watch, and no sweep finds it. *)
Theorem worker_collector_hides_a_straddling_job :
  let registered := set_queues ex_idle_store ({[ex_lane]} ∪ ls_queues ex_idle_store) in
  let lost := push_job ex_lane "j" (_gc_drained_category_lanes [("p", "bulk")] registered) in
  has_work lost ex_lane = true ∧ ex_lane ∉ ls_queues lost ∧
  ∀ now, ex_lane ∉ ls_queues (run (_restore_removed_lanes now) lost).2.
Proof.
  split_and!; [by vm_compute|by apply (bool_decide_unpack _); vm_compute|]. intros now.
  rewrite restore_queues. intros [H|[(t & H & _) _]]; [|by vm_compute in H].
  apply (bool_decide_pack _) in H. by vm_compute in H.
Qed.

(** ** What one undisturbed pass does *)
Definition lane_idle (b : lane_store) (key : string) : bool :=
  negb (has_work b key) && negb (has_listener b key).

Lemma run_idle_lanes lanes b :
  run (_idle_lanes lanes) b = ((λ key, (key, lane_idle b key)) <$> lanes, b).
Proof.
  unfold _idle_lanes. rewrite run_call. cbn [exec fst snd]. rewrite run_bind.
  set (rows := _ <$> lanes).
  set (workers := py_sorted String.leb _).
  assert (Hflags : run (if bool_decide (workers = []) then mret [] else call (PipeExists workers)) b
                   = ((λ w, (w, bool_decide (w ∈ ls_alive b))) <$> workers, b)).
  { case_bool_decide as E; [|done]. by rewrite E. }
  rewrite Hflags. cbn [run mret prog_ret]. f_equal. unfold rows. rewrite <-list_fmap_compose.
  apply list_fmap_ext. intros i key Hi%list_elem_of_lookup_2. simpl. f_equal. unfold lane_idle. f_equal.
  unfold has_listener. f_equal. set (ws := listeners b _).
  assert (Hin : ∀ w, w ∈ ws → w ∈ workers).
  { intros w Hw. apply elem_of_py_sorted, elem_of_remove_dups, list_elem_of_In, in_concat.
    exists ws. split; [|by apply list_elem_of_In]. apply list_elem_of_In, list_elem_of_fmap. eexists. split; [|apply list_elem_of_fmap; eauto]. done. }
  apply eq_true_iff_eq. rewrite !existsb_exists. split; intros (w & Hw & H); exists w; (split; [done|]).
  - apply mem_spec, list_elem_of_fmap in H as ([w' f] & -> & H). apply list_elem_of_In, filter_In in H as [H Hf].
    apply list_elem_of_In, list_elem_of_fmap in H as (w2 & [= -> ->] & _). exact Hf.
  - apply mem_spec, list_elem_of_fmap. exists (w, true). split; [done|]. apply list_elem_of_In, filter_In.
    split; [|done]. apply list_elem_of_In, list_elem_of_fmap. exists w. rewrite H. split; [done|].
    apply Hin. by apply list_elem_of_In.
Qed.

Lemma assoc_map_to_list {A} (m : gmap string A) k : assoc k (map_to_list m) = m !! k.
Proof.
  assert (H : ∀ l : list (string * A), NoDup l.*1 → ∀ v, assoc k l = Some v ↔ (k, v) ∈ l).
  { induction l as [|[k' v'] l IH]; intros Hnd v; simpl; [set_solver|].
    apply NoDup_cons in Hnd as [Hk' Hnd]. rewrite elem_of_cons.
    destruct (k =? k')%string eqn:E.
    - apply String.eqb_eq in E as ->. split; [intros [= ->]; by left|]. intros [[= ->]|H]; [done|].
      destruct Hk'. apply list_elem_of_fmap. by exists (k', v).
    - apply String.eqb_neq in E. rewrite IH by done. split; [by right|]. by intros [[= -> ->]|]. }
  apply option_eq. intros v. rewrite H by apply NoDup_fst_map_to_list. apply elem_of_map_to_list.
Qed.

(** The commands of the sweep leave the idle clocks alone. *)
Lemma restore_each_idle keys b : ls_idle_since (run (restore_each keys) b).2 = ls_idle_since b.
Proof.
  revert b. induction keys as [|k keys IH]; intros b; [done|]. cbn [restore_each].
  rewrite run_call, run_bind. specialize (IH (exec (EvalRestore k) b).2).
  destruct (run (restore_each keys) _) as [n b2]. cbn [snd run] in *. etrans; [exact IH|].
  cbn [exec]. unfold _RESTORE_LANE_LUA. by repeat case_match.
Qed.

Lemma restore_idle now b : ls_idle_since (run (_restore_removed_lanes now) b).2 = ls_idle_since b.
Proof. unfold _restore_removed_lanes. rewrite !run_call, restore_each_idle. done. Qed.

(** The removals take the idle lanes of their list out, with their clocks. *)
Lemma remove_each_queues now due b x :
  x ∈ ls_queues (run (remove_each now due) b).2 ↔
  x ∈ ls_queues b ∧ ¬ (x ∈ due ∧ lane_idle b x = true).
Proof.
  revert b. induction due as [|k due IH]; intros b; [set_solver|]. cbn [remove_each].
  rewrite run_call, run_bind.
  assert (Hb : lane_idle (exec (EvalRemove k now) b).2 x = lane_idle b x).
  { unfold lane_idle. by rewrite <-(exec_same_jobs (EvalRemove k now) b). }
  specialize (IH (exec (EvalRemove k now) b).2). destruct (run (remove_each now due) _) as [n b2].
  cbn [snd run mret prog_ret] in *. rewrite IH, Hb, elem_of_cons. clear IH Hb. cbn [exec].
  unfold _REMOVE_IDLE_LANE_LUA. fold (lane_idle b k). destruct (lane_idle b k) eqn:E; cbn [negb].
  - assert (Hq : ls_queues (if bool_decide (k ∈ ls_queues b)
       then set_removed (set_queues b (ls_queues b ∖ {[k]})) (<[k:=now]> (ls_removed b))
       else set_queues b (ls_queues b ∖ {[k]})) = ls_queues b ∖ {[k]}) by (by case_bool_decide).
    assert (x ∈ ls_queues b ∖ {[k]} ↔ x ∈ ls_queues b ∧ x ≠ k) as Hx by set_solver.
    cbn [snd set_idle ls_queues ls_removed]. case_bool_decide; cbn [set_removed set_queues ls_queues];
      rewrite Hx; naive_solver.
  - cbn [snd set_idle ls_queues]. naive_solver congruence.
Qed.

(** The lanes a pass at [now] removes. *)
Definition due_lane (now grace : Q) (b : lane_store) (x : string) : Prop :=
  is_storage_lane x = true ∧ lane_idle b x = true ∧
  ∃ t, ls_idle_since b !! x = Some t ∧ (grace <= now - t)%Q.

Lemma verdict_due now grace m x idle :
  (lane_verdict now grace (map_to_list m) (x, idle)).1 = Due ↔
  idle = true ∧ ∃ t, m !! x = Some t ∧ (grace <= now - t)%Q.
Proof.
  unfold lane_verdict. rewrite assoc_map_to_list. destruct idle; cbn [negb]; [|naive_solver].
  destruct (m !! x) as [t|]; [|naive_solver]. destruct (Qle_bool grace (now - t)) eqn:E.
  - apply Qle_bool_iff in E. naive_solver.
  - assert (~ (grace <= now - t)%Q) by (rewrite <-Qle_bool_iff; congruence). naive_solver.
Qed.

(** Only a removal adds to the watch list. *)
Lemma restore_removed now b x t :
  ls_removed (run (_restore_removed_lanes now) b).2 !! x = Some t → ls_removed b !! x = Some t.
Proof.
  assert (Heach : ∀ keys b, ls_removed (run (restore_each keys) b).2 !! x = Some t → ls_removed b !! x = Some t).
  { clear b. intros keys. induction keys as [|k keys IH]; intros b; [done|]. cbn [restore_each].
    rewrite run_call, run_bind. specialize (IH (exec (EvalRestore k) b).2).
    destruct (run (restore_each keys) _) as [n b2]. cbn [snd run mret prog_ret] in *. intros H%IH. revert H.
    cbn [exec]. unfold _RESTORE_LANE_LUA.
    case_bool_decide; [|destruct (negb _)]; cbn [snd set_removed ls_removed]; try done;
      by intros [_ ?]%lookup_delete_Some. }
  unfold _restore_removed_lanes. rewrite !run_call. intros H%Heach. revert H.
  cbn [exec snd set_removed ls_removed]. by intros [? _]%map_lookup_filter_Some.
Qed.

Lemma remove_each_removed now due b x t :
  ls_removed (run (remove_each now due) b).2 !! x = Some t →
  ls_removed b !! x = Some t ∨ lane_idle b x = true.
Proof.
  revert b. induction due as [|k due IH]; intros b; [by left|]. cbn [remove_each].
  rewrite run_call, run_bind.
  assert (Hb : lane_idle (exec (EvalRemove k now) b).2 x = lane_idle b x).
  { unfold lane_idle. by rewrite <-(exec_same_jobs (EvalRemove k now) b). }
  specialize (IH (exec (EvalRemove k now) b).2). destruct (run (remove_each now due) _) as [n b2].
  cbn [snd run mret prog_ret] in *. intros H. apply IH in H as [H|H]; [|right; congruence]. revert H. clear.
  cbn [exec]. unfold _REMOVE_IDLE_LANE_LUA. fold (lane_idle b k).
  destruct (lane_idle b k) eqn:E; cbn [negb]; [|by left].
  case_bool_decide; [|by left]. cbn [snd set_removed set_queues set_idle ls_removed].
  intros [[-> _]|[_ ?]]%lookup_insert_Some; [by right|by left].
Qed.

Lemma run_storage_lanes b :
  run _storage_lanes b = (py_sorted String.leb (List.filter is_storage_lane (elements (ls_queues b))), b).
Proof. done. Qed.

Lemma elem_of_due now grace m (idle : string → bool) lanes y :
  y ∈ (List.filter (λ kv, bool_decide (kv.2.1 = Due))
         ((λ row, (row.1, lane_verdict now grace (map_to_list m) row)) <$>
          ((λ key, (key, idle key)) <$> lanes))).*1 ↔
  y ∈ lanes ∧ idle y = true ∧ ∃ t, m !! y = Some t ∧ (grace <= now - t)%Q.
Proof.
  rewrite list_elem_of_fmap. split.
  - intros ([y' v] & -> & H). apply list_elem_of_In, filter_In in H as [H Hv]. simp_bool.
    apply list_elem_of_In, list_elem_of_fmap in H as ([y2 i] & [= -> ->] & H).
    apply list_elem_of_fmap in H as (y3 & [= -> ->] & H). by apply verdict_due in Hv.
  - intros (Hl & Hv%verdict_due). eexists (y, _). split; [done|]. apply list_elem_of_In, filter_In.
    split; [|by apply bool_decide_eq_true_2; exact Hv]. apply list_elem_of_In, list_elem_of_fmap. exists (y, idle y).
    split; [done|]. apply list_elem_of_fmap. eauto.
Qed.

(** The end of a pass: the removals, and the sweep after them. *)
Lemma removals_then_sweep now due b x :
  let '(removed, b1) := run (remove_each now due) b in
  x ∈ ls_queues (run (if (0 <? removed)%nat then _restore_removed_lanes now else mret O) b1).2 ↔
  x ∈ ls_queues b1 ∨ (0 < removed)%nat ∧ on_watch now b1 x ∧ has_work b x = true.
Proof.
  pose proof (run_same_jobs (remove_each now due) b) as Hj.
  destruct (run (remove_each now due) b) as [removed b1]. cbn [snd] in *.
  assert (Hw : has_work b x = has_work b1 x) by (by rewrite Hj). rewrite Hw.
  destruct (0 <? removed)%nat eqn:E.
  - apply Nat.ltb_lt in E. rewrite restore_queues. naive_solver.
  - apply Nat.ltb_ge in E. cbn [run mret prog_ret snd]. split; [by left|]. intros [?|[? _]]; [done|lia].
Qed.

(** An undisturbed pass keeps every registered lane but the storage lanes
    that have no job, no registry entry and no live listener, and that the
    passes have seen idle for the grace time; it registers again the lanes on
    watch that have work; and it never touches a job. *)
Theorem pass_removes_exactly_the_idle_lanes now grace b :
  let b' := (run (_collect now grace) b).2 in
  same_jobs b b' ∧
  ∀ x, x ∈ ls_queues b' ↔
       (x ∈ ls_queues b ∨ on_watch now b x ∧ has_work b x = true) ∧ ¬ due_lane now grace b x.
Proof.
  cbv zeta. split; [apply run_same_jobs|]. intros x. unfold _collect. rewrite run_bind.
  pose proof (restore_queues now b x) as Hres. pose proof (restore_idle now b) as Hidle.
  pose proof (run_same_jobs (_restore_removed_lanes now) b) as Hjobs.
  pose proof (restore_removed now b x) as Hkept.
  destruct (run (_restore_removed_lanes now) b) as [n b1]. cbn [snd] in *.
  rewrite run_bind, run_storage_lanes. set (lanes := py_sorted _ _). rewrite run_bind.
  assert (Hrun : run (if bool_decide (lanes = []) then mret [] else _idle_lanes lanes) b1
                 = ((λ key, (key, lane_idle b1 key)) <$> lanes, b1)).
  { case_bool_decide as E; [by rewrite E|apply run_idle_lanes]. }
  rewrite Hrun, !run_call. cbn [exec fst]. clear Hrun. rewrite run_bind.
  match goal with |- context [run (remove_each now ?l) ?c] => set (due := l); set (b2 := c) end.
  assert (Hlane : ∀ y, lane_idle b2 y = lane_idle b y ∧ lane_idle b1 y = lane_idle b y).
  { intros y. unfold lane_idle. split; by rewrite Hjobs. }
  assert (Hdue : x ∈ due ↔ x ∈ ls_queues b1 ∧ due_lane now grace b x).
  { unfold due, due_lane, lanes. rewrite <-Hidle, elem_of_due, elem_of_py_sorted, list_elem_of_In, filter_In.
    rewrite <-list_elem_of_In, elem_of_elements, (proj2 (Hlane x)). naive_solver. }
  pose proof (remove_each_queues now due b2 x) as Hq. pose proof (removals_then_sweep now due b2 x) as Hsweep.
  pose proof (remove_each_removed now due b2 x) as Hrem.
  destruct (run (remove_each now due) b2) as [removed b3]. cbn [snd] in *. rewrite run_bind.
  destruct (run (if (0 <? removed)%nat then _ else _) b3) as [again b4]. cbn [run mret prog_ret snd] in *.
  rewrite Hsweep, Hq, (proj1 (Hlane x)), Hdue, <-Hres.
  change (ls_queues b2) with (ls_queues b1).
  assert (Hb2 : has_work b2 x = has_work b x) by (by rewrite Hjobs). rewrite Hb2.
  assert (Hclose : on_watch now b3 x → has_work b x = true → x ∈ ls_queues b1 ∧ ¬ due_lane now grace b x).
  { intros (t & Ht & Hday) Hwork. assert (Hni : lane_idle b x = false).
    { unfold lane_idle. by rewrite Hwork. }
    split; [|intros (_ & ? & _); congruence]. apply Hres. right. split; [|done]. exists t. split; [|done].
    apply Hrem in Ht as [Ht|?]; [|rewrite (proj1 (Hlane x)) in *; congruence].
    exact (Hkept t Ht). }
  unfold due_lane in *. naive_solver.
Qed.
