(* ===== verification/QueueCoverage.v ===== *)
(** * Consumer coverage and the shed gate

    [component/_common/src/isardvdi_common/lib/queue_coverage.py] and the
    counters of [governor_counters.py]: which lanes the fleet of workers serves,
    and whether a producer may put a task on a lane.

    [fleet_store] holds the keys the module reads; a computation of type [C]
    threads it. Every call to the broker may raise: [fs_down] says, call by
    call, which ones do, so one run covers one pattern of failures. The clock
    is a sequence of readings. The environment, RQ's [utcparse] (with RQ's
    worker TTL) and Python's [repr] of floats and containers are parameters. *)
From Stdlib Require Import Ascii QArith Qround Lqa.
From stdpp Require Import pretty.
From S2P Require Import Prelude PyVal QueueTiers.

(** ** The keys *)
(** A field of a governor hash that holds JSON: the empty text, a document, or
    a text [json.loads] rejects. *)
Inductive json_field := JEmpty | JDoc (v : pyval) | JBad.

Record counters := mkCounters {
  ct_total : Z;
  ct_fields : gmap string Z;        (** [reason:<r>] and [tier:<t>] *)
  ct_last : gmap string string;     (** [last_reason], [last_pool], [last_tier] *)
  ct_buckets : gmap Z Z;            (** one counter per minute *)
}.

Record fleet_store := mkFleet {
  fs_workers : gset string;                        (** [rq:workers] *)
  fs_worker_hash : gmap string (gmap string string);  (** [rq:worker:<name>] *)
  fs_gov_hash : gmap string (gmap string json_field); (** [governor:worker:<name>] *)
  fs_cov : gmap string (gmap string Q);            (** the coverage sorted sets *)
  fs_lists : gmap string (list string);            (** [rq:queue:<name>] *)
  fs_seen : option (option pyfloat);               (** the fleet sighting: absent, garbage, a float *)
  fs_shed : counters;
  fs_last_note : Q;                                (** [_last_lane_fleet_note] of the process *)
  fs_down : list bool;                             (** the next calls: does the call raise? *)
  fs_clock : nat → Q;
  fs_reads : nat;
}.

Definition with_cov (m : gmap string (gmap string Q)) (s : fleet_store) : fleet_store :=
  mkFleet (fs_workers s) (fs_worker_hash s) (fs_gov_hash s) m (fs_lists s) (fs_seen s) (fs_shed s)
    (fs_last_note s) (fs_down s) (fs_clock s) (fs_reads s).
Definition with_seen (t : option (option pyfloat)) (s : fleet_store) : fleet_store :=
  mkFleet (fs_workers s) (fs_worker_hash s) (fs_gov_hash s) (fs_cov s) (fs_lists s) t (fs_shed s)
    (fs_last_note s) (fs_down s) (fs_clock s) (fs_reads s).
Definition with_shed (c : counters) (s : fleet_store) : fleet_store :=
  mkFleet (fs_workers s) (fs_worker_hash s) (fs_gov_hash s) (fs_cov s) (fs_lists s) (fs_seen s) c
    (fs_last_note s) (fs_down s) (fs_clock s) (fs_reads s).
Definition with_note (t : Q) (s : fleet_store) : fleet_store :=
  mkFleet (fs_workers s) (fs_worker_hash s) (fs_gov_hash s) (fs_cov s) (fs_lists s) (fs_seen s) (fs_shed s)
    t (fs_down s) (fs_clock s) (fs_reads s).
Definition with_down (l : list bool) (s : fleet_store) : fleet_store :=
  mkFleet (fs_workers s) (fs_worker_hash s) (fs_gov_hash s) (fs_cov s) (fs_lists s) (fs_seen s) (fs_shed s)
    (fs_last_note s) l (fs_clock s) (fs_reads s).
Definition with_reads (n : nat) (s : fleet_store) : fleet_store :=
  mkFleet (fs_workers s) (fs_worker_hash s) (fs_gov_hash s) (fs_cov s) (fs_lists s) (fs_seen s) (fs_shed s)
    (fs_last_note s) (fs_down s) (fs_clock s) n.

(** ** Computations *)
Definition C (A : Type) : Type := fleet_store → res A * fleet_store.
#[export] Instance C_ret : MRet C := λ A a s, (Ok a, s).
#[export] Instance C_bind : MBind C := λ A B f m s,
  let '(r, s) := m s in match r with Ok a => f a s | Raise e => (Raise e, s) end.

Definition raiseC {A} (e : exn) : C A := λ s, (Raise e, s).

(** [try: m except Exception: h] *)
Definition tryC {A} (m h : C A) : C A := λ s,
  let '(r, s) := m s in match r with Ok a => (Ok a, s) | Raise _ => h s end.

(** One call to the broker. *)
Definition rcall {A} (f : fleet_store → A * fleet_store) : C A := λ s,
  match fs_down s with
  | true :: l => (Raise RedisError, with_down l s)
  | _ => let '(a, s) := f (with_down (tail (fs_down s)) s) in (Ok a, s)
  end.

Definition rread {A} (f : fleet_store → A) : C A := rcall (λ s, (f s, s)).
Definition rwrite (f : fleet_store → fleet_store) : C unit := rcall (λ s, (tt, f s)).

(** [time.time()] *)
Definition time_time : C Q := λ s, (Ok (fs_clock s (fs_reads s)), with_reads (S (fs_reads s)) s).

(** ** Constants *)
Definition _RQ_WORKER_PREFIX : string := "rq:worker:".
Definition _RQ_QUEUE_PREFIX : string := "rq:queue:".
Definition _COV_PREFIX : string := "governor:cov:".
Definition REASON_NON_STORAGE_QUEUE : string := "non_storage_queue".
Definition REASON_FLEET_GAP : string := "fleet_gap".
Definition REASON_COVERAGE_UNREADABLE : string := "coverage_unreadable".
Definition REASON_NO_CONSUMER : string := "no_consumer".
Definition REASON_OVERLOADED : string := "overloaded".
Definition REASON_BACKLOG : string := "backlog".
Definition BLIND_REASONS : list string := [REASON_COVERAGE_UNREADABLE].
Definition FOREGROUND_TIERS : list string := ["interactive"; "standard"].
Definition _HARD_CAP_DEFAULTS : list (string * Z) := [("interactive", 60); ("standard", 150)]%Z.
Definition _WARN_DEFAULTS : list (string * Z) :=
  [("interactive", 20); ("standard", 50); ("template", 10); ("bulk", 500); ("maintenance", 100);
   ("reclaim", 200); ("background", 1000)]%Z.

(** ** Counters *)
Definition _SHED_REASONS : list string := ["no_consumer"; "overloaded"; "coverage_unreadable"].

Definition _reason (reason : string) : string := if mem reason _SHED_REASONS then reason else "other".

Definition incr {K} `{Countable K} (k : K) (m : gmap K Z) : gmap K Z := <[k := (default 0 (m !! k) + 1)%Z]> m.

(** The pipeline of [_record], one transaction. *)
Definition count_event (reason : string) (pool tier : option string) (ts : Q) (c : counters) : counters :=
  let reason := _reason reason in
  let fields := incr ("reason:" +:+ reason) (ct_fields c) in
  let fields := match tier with
                | Some t => if mem t TIERS then incr ("tier:" +:+ t) fields else fields
                | None => fields
                end in
  let last := <["last_reason" := reason]> (ct_last c) in
  let last := match pool with Some p => <["last_pool" := p]> last | None => last end in
  let last := match tier with Some t => <["last_tier" := t]> last | None => last end in
  mkCounters (ct_total c + 1) fields last (incr (Qfloor (ts / 60)) (ct_buckets c)).

Definition record_shed (reason : string) (pool tier : option string) : C unit :=
  ts ← time_time;
  tryC (rwrite (λ s, with_shed (count_event reason pool tier ts (fs_shed s)) s)) (mret tt).

Section coverage.
Context (environ : string → option string).
Context (utcparse : option (string → option Q)) (RQ_WORKER_TTL : Q).
Context (py_repr : pyval → string).

Definition _env_int (name : string) (default : Z) : Z :=
  match environ name with
  | None => default
  | Some raw =>
      if (raw =? "")%string then default
      else match int_of_string raw with Ok n => n | Raise _ => default end
  end.

Definition hard_cap (tier : string) : option Z :=
  match assoc tier _HARD_CAP_DEFAULTS with
  | None => None
  | Some d => Some (_env_int ("STORAGE_SHED_HARD_" +:+ upper tier) d)
  end.

Definition warn_backlog (tier : string) : Z :=
  _env_int ("STORAGE_SHED_WARN_" +:+ upper tier) (default (10 ^ 9)%Z (assoc tier _WARN_DEFAULTS)).

Definition COV_TTL_S : Z := _env_int "STORAGE_COV_TTL_S" 15.
Definition FLEET_GONE_GRACE_S : Z := _env_int "STORAGE_FLEET_GONE_GRACE_S" 120.
Definition FLEET_SEEN_MIN_INTERVAL_S : Z := _env_int "STORAGE_FLEET_SEEN_MIN_INTERVAL_S" 5.

(** ** The live index *)
Definition cov_key (pool tier : string) : string := _COV_PREFIX +:+ pool +:+ ":" +:+ tier.

Definition note_fleet_seen (now : Q) : C unit := rwrite (with_seen (Some (Some (FFin now)))).

Definition fleet_last_seen : C (option pyfloat) :=
  raw ← rread fs_seen;
  mret (match raw with Some (Some f) => Some f | _ => None end).

Definition zadd (key member : string) (score : Q) (s : fleet_store) : fleet_store :=
  with_cov (<[key := <[member := score]> (default ∅ (fs_cov s !! key))]> (fs_cov s)) s.

(** The process-wide [_last_lane_fleet_note]. *)
Definition last_note : C Q := λ s, (Ok (fs_last_note s), s).
Definition set_last_note (now : Q) : C unit := λ s, (Ok tt, with_note now s).

(** The expiry of the key only drops members whose score is stale already. *)
Definition publish_lane (pool tier worker : string) (now : Q) : C unit :=
  _ ← rwrite (zadd (cov_key pool tier) worker now);
  _ ← rwrite id;
  last ← last_note;
  let gap := (now - last)%Q in
  if negb (Qle_bool 0 gap && negb (Qle_bool (inject_Z FLEET_SEEN_MIN_INTERVAL_S) gap)) then
    _ ← note_fleet_seen now; set_last_note now
  else mret tt.

Definition unpublish_worker (pool tier worker : string) : C unit :=
  rwrite (λ s, with_cov (<[cov_key pool tier := delete worker (default ∅ (fs_cov s !! cov_key pool tier))]> (fs_cov s)) s).

(** [edge] is exclusive in both commands: the prune drops the scores below it,
    the count takes those above. *)
Definition below (edge score : Q) : bool := negb (Qle_bool edge score).
Definition above (edge score : Q) : bool := negb (Qle_bool score edge).

Definition pool_live_workers (pool tier : string) : C nat :=
  now ← time_time;
  let edge := (now - inject_Z COV_TTL_S)%Q in
  let key := cov_key pool tier in
  _ ← rwrite (λ s, with_cov (<[key := filter (λ kv, below edge kv.2 = false) (default ∅ (fs_cov s !! key))]> (fs_cov s)) s);
  rread (λ s, size (filter (λ kv, above edge kv.2 = true) (default ∅ (fs_cov s !! key)))).

(** ** The fleet scan *)
Definition _worker_up (worker_hash : gmap string string) (gov_hash : gmap string json_field) (now_ts : Q)
    : bool :=
  if negb (bool_decide (gov_hash = ∅)) then true
  else match worker_hash !! "last_heartbeat", utcparse with
       | Some hb, Some parse =>
           if (hb =? "")%string then false
           else match parse hb with
                | Some t => negb (Qle_bool RQ_WORKER_TTL (now_ts - t))
                | None => false
                end
       | _, _ => false
       end.

Definition py_str (v : pyval) : string :=
  match v with
  | PStr s => s
  | PNone => "None"
  | PBool b => if b then "True" else "False"
  | PInt z => pretty z
  | _ => py_repr v
  end.

Definition birth_lanes (worker_hash : gmap string string) : list string :=
  List.filter (λ lane, negb (lane =? "")%string) (split_on ","%char (default "" (worker_hash !! "queues"))).

Definition worker_lanes (worker_hash : gmap string string) (gov_hash : gmap string json_field)
    : list string * bool :=
  let birth := (birth_lanes worker_hash, bool_decide (gov_hash = ∅)) in
  match gov_hash !! "served_lanes" with
  | Some JEmpty => ([], true)
  | Some (JDoc (PList l)) => (py_str <$> l, true)
  | _ => birth
  end.

Definition coverage := (gmap (string * string) nat * gset string)%type.

Definition lane_pair (lane : string) : option (string * string) :=
  match parse_storage_queue (PStr lane) with
  | Some (pool, _, tier) => Some (pool, tier)
  | None => None
  end.

Definition cover (c : gmap (string * string) nat) (p : string * string) : gmap (string * string) nat :=
  <[p := S (default O (c !! p))]> c.

Definition add_entry (acc : coverage) (entry : list string * bool) : coverage :=
  let '(covered, opaque_pools) := acc in
  let '(lanes, known) := entry in
  let pairs := omap lane_pair lanes in
  let covered := foldl cover covered pairs in
  match pairs with
  | (birth_pool, _) :: _ =>
      (covered, if negb known && negb (birth_pool =? "")%string then {[birth_pool]} ∪ opaque_pools else opaque_pools)
  | [] => (covered, opaque_pools)
  end.

Definition coverage_from_lane_sets (entries : list (list string * bool)) : coverage :=
  foldl add_entry (∅, ∅) entries.

Definition worker_name (key : string) : string :=
  String.substring (String.length _RQ_WORKER_PREFIX) (String.length key) key.

Definition worker_row (s : fleet_store) (key : string) : gmap string string * gmap string json_field :=
  (default ∅ (fs_worker_hash s !! key), default ∅ (fs_gov_hash s !! worker_name key)).

Definition served_coverage : C coverage :=
  members ← rread (λ s, elements (fs_workers s));
  let worker_keys := List.filter (String.prefix _RQ_WORKER_PREFIX) members in
  if bool_decide (worker_keys = []) then mret (∅, ∅)
  else
    results ← rread (λ s, worker_row s <$> worker_keys);
    now_ts ← time_time;
    mret (coverage_from_lane_sets
      ((λ row, worker_lanes row.1 row.2) <$> List.filter (λ row, _worker_up row.1 row.2 now_ts) results)).

(** ** The shed decision *)
Inductive decision := ok | warn | reject.
#[local] Instance decision_eq_dec : EqDecision decision.
Proof. solve_decision. Defined.

Record shed_ctx := mkCtx {
  cx_reason : option string;
  cx_pool : option string;
  cx_category : option string;
  cx_tier : option string;
  cx_backlog : option Z;
  cx_has_consumer : option bool;
  cx_stranded : option bool;
}.

Definition brief_ctx (reason pool : string) (category : option string) (tier : string) : shed_ctx :=
  mkCtx (Some reason) (Some pool) category (Some tier) None None None.

(** [seen is not None and now - seen <= FLEET_GONE_GRACE_S] *)
Definition recently (seen : option pyfloat) (now : Q) : bool :=
  match seen with
  | Some (FFin t) => Qle_bool (now - t) (inject_Z FLEET_GONE_GRACE_S)
  | Some (FInf negative) => negb negative
  | Some FNan | None => false
  end.

(** The scan when the index is empty: [None] is the early answer of a fleet gap,
    else whether the lane has a consumer and whether its pool is opaque. *)
Definition scan_lane (pool tier : string) (now : Q) : C (option (bool * bool)) :=
  c ← served_coverage;
  let '(covered, opaque_pools) := (c : coverage) in
  let here := (bool_decide (is_Some (covered !! (pool, tier))), bool_decide (pool ∈ opaque_pools)) in
  if negb (bool_decide (covered = ∅)) || negb (bool_decide (opaque_pools = ∅)) then
    _ ← note_fleet_seen now; mret (Some here)
  else
    seen ← fleet_last_seen;
    mret (if recently seen now then None else Some here).

(** The reads of the [try] block, with the backlog of the lane. *)
Definition read_lane (queue pool tier : string) (now : Q) : C (option (bool * bool * Z)) :=
  live ← pool_live_workers pool tier;
  facts ← (if (0 <? live)%nat then _ ← note_fleet_seen now; mret (Some (true, false))
           else scan_lane pool tier now);
  match facts with
  | None => mret None
  | Some (has_consumer, opaque) =>
      backlog ← rread (λ s, Z.of_nat (length (default [] (fs_lists s !! (_RQ_QUEUE_PREFIX +:+ queue)))));
      mret (Some (has_consumer, opaque, backlog))
  end.

Definition judge (pool : string) (category : option string) (tier : string) (has_consumer opaque : bool)
    (backlog : Z) : decision * shed_ctx :=
  let stranded := negb has_consumer && negb opaque in
  let ctx reason := mkCtx reason (Some pool) category (Some tier) (Some backlog) (Some has_consumer) (Some stranded) in
  if stranded then (reject, ctx (Some REASON_NO_CONSUMER))
  else if mem tier FOREGROUND_TIERS
          && match hard_cap tier with Some cap => (cap <=? backlog)%Z | None => false end
  then (reject, ctx (Some REASON_OVERLOADED))
  else if (warn_backlog tier <=? backlog)%Z then (warn, ctx (Some REASON_BACKLOG))
  else (ok, ctx None).

Definition lane_shed_decision (queue : string) : C (decision * shed_ctx) :=
  match parse_storage_queue (PStr queue) with
  | None => mret (ok, mkCtx (Some REASON_NON_STORAGE_QUEUE) None None None None None None)
  | Some (pool, category, tier) =>
      now ← time_time;
      tryC
        (facts ← read_lane queue pool tier now;
         mret (match facts with
               | None => (ok, brief_ctx REASON_FLEET_GAP pool category tier)
               | Some (has_consumer, opaque, backlog) => judge pool category tier has_consumer opaque backlog
               end))
        (mret (reject, brief_ctx REASON_COVERAGE_UNREADABLE pool category tier))
  end.

(** ** The gates *)
Definition no_consumer_reason (ctx : shed_ctx) : bool :=
  match cx_reason ctx with
  | Some r => mem r [REASON_NO_CONSUMER; REASON_COVERAGE_UNREADABLE]
  | None => false
  end.

Definition _raise_lane_429 (ctx : shed_ctx) : C unit :=
  _ ← record_shed (default "" (cx_reason ctx)) (cx_pool ctx) (cx_tier ctx);
  raiseC (Error429 (if no_consumer_reason ctx then "storage_no_consumer_retry_later"
                    else "storage_overloaded_retry_later")).

Definition check_no_consumer (queue : string) : C unit :=
  dc ← lane_shed_decision queue;
  let '(d, ctx) := (dc : decision * shed_ctx) in
  if bool_decide (d = reject) && no_consumer_reason ctx then _raise_lane_429 ctx else mret tt.

Definition lane_has_consumer (queue : string) : C (bool * shed_ctx) :=
  dc ← lane_shed_decision queue;
  let '(d, ctx) := (dc : decision * shed_ctx) in
  let allowed := negb (bool_decide (d = reject) && no_consumer_reason ctx) in
  _ ← (if negb allowed then record_shed (default "" (cx_reason ctx)) (cx_pool ctx) (cx_tier ctx) else mret tt);
  mret (allowed, ctx).

Definition check_shed (queue : string) : C unit :=
  dc ← lane_shed_decision queue;
  let '(d, ctx) := (dc : decision * shed_ctx) in
  if bool_decide (d = reject) then _raise_lane_429 ctx else mret tt.

(** [queue = kwargs.get("queue")]; the deprecated [shed] keyword is dropped. *)
Definition enforce_shed (queue : option string) : C unit :=
  match queue with
  | None => mret tt
  | Some q => if (q =? "")%string then mret tt else check_shed q
  end.

Record lane_health := mkHealth {
  lh_pool : string; lh_tier : string; lh_live : nat; lh_backlog : Z;
  lh_no_consumer : bool; lh_overloaded : bool; lh_degraded : bool }.

Definition _lane_health (pool tier : string) : C lane_health :=
  tryC
    (dc ← lane_shed_decision ("storage." +:+ pool +:+ "." +:+ tier);
     let '(d, ctx) := (dc : decision * shed_ctx) in
     live ← pool_live_workers pool tier;
     let because r := bool_decide (d = reject) && bool_decide (cx_reason ctx = Some r) in
     mret (mkHealth pool tier live (default 0%Z (cx_backlog ctx)) (because REASON_NO_CONSUMER)
             (because REASON_OVERLOADED)
             match cx_reason ctx with Some r => mem r BLIND_REASONS | None => false end))
    (mret (mkHealth pool tier 0 0 false false true)).

Fixpoint all_lanes (lanes : list (string * string)) : C (list lane_health) :=
  match lanes with
  | [] => mret []
  | (pool, tier) :: lanes =>
      h ← _lane_health pool tier;
      hs ← all_lanes lanes;
      mret (h :: hs)
  end.

(** [pool_ids] is what [category_pools] answered, [[]] when it raised. *)
Definition category_storage_health (pool_ids : list string) : C (bool * list lane_health) :=
  pools ← all_lanes (flat_map (λ pool, (λ tier, (pool, tier)) <$> py_sorted String.leb FOREGROUND_TIERS) pool_ids);
  let available := existsb (λ h, (lh_tier h =? "interactive")%string && negb (lh_no_consumer h)
                                 && negb (lh_overloaded h) && negb (lh_degraded h)) pools in
  mret (available, pools).

(** ** The specification *)

(** A heartbeat of the live index is fresh. *)
Definition index_live (s : fleet_store) (now : Q) (pool tier : string) : Prop :=
  ∃ worker score, default ∅ (fs_cov s !! cov_key pool tier) !! worker = Some score ∧
                  (now - inject_Z COV_TTL_S < score)%Q.

(** The lanes of the workers that are up. *)
Definition live_worker (s : fleet_store) (now : Q) (entry : list string * bool) : Prop :=
  ∃ key, key ∈ fs_workers s ∧ String.prefix _RQ_WORKER_PREFIX key = true ∧
         _worker_up (worker_row s key).1 (worker_row s key).2 now = true ∧
         entry = worker_lanes (worker_row s key).1 (worker_row s key).2.

Definition fleet_serves (s : fleet_store) (now : Q) (pool tier : string) : Prop :=
  ∃ entry, live_worker s now entry ∧ ∃ lane, lane ∈ entry.1 ∧ lane_pair lane = Some (pool, tier).

(** A worker that is up and whose lanes are not known was born in the pool. *)
Definition fleet_opaque (s : fleet_store) (now : Q) (pool : string) : Prop :=
  ∃ entry tier, live_worker s now entry ∧ entry.2 = false ∧
                head (omap lane_pair entry.1) = Some (pool, tier) ∧ pool ≠ "".

(** The stored sighting is at most the grace time old. *)
Definition seen_within (seen : option (option pyfloat)) (now : Q) : Prop :=
  match seen with
  | Some (Some (FFin t)) => (now - t <= inject_Z FLEET_GONE_GRACE_S)%Q
  | Some (Some (FInf false)) => True
  | _ => False
  end.

(** No worker serves any storage lane, but one was seen a moment ago. *)
Definition fleet_gap (s : fleet_store) (now0 now2 : Q) : Prop :=
  (∀ pool tier, ¬ fleet_serves s now2 pool tier) ∧ seen_within (fs_seen s) now0.

Definition backlog_of (s : fleet_store) (queue : string) : Z :=
  Z.of_nat (length (default [] (fs_lists s !! (_RQ_QUEUE_PREFIX +:+ queue)))).

Inductive shed_spec (indexed served opaque gap : Prop) (tier : string) (backlog : Z)
    : decision → option string → Prop :=
  | spec_gap :
      ¬ indexed → gap → shed_spec indexed served opaque gap tier backlog ok (Some REASON_FLEET_GAP)
  | spec_stranded :
      ¬ indexed → ¬ served → ¬ opaque → ¬ gap →
      shed_spec indexed served opaque gap tier backlog reject (Some REASON_NO_CONSUMER)
  | spec_overloaded cap :
      indexed ∨ served ∨ opaque → tier ∈ FOREGROUND_TIERS → hard_cap tier = Some cap → (cap ≤ backlog)%Z →
      shed_spec indexed served opaque gap tier backlog reject (Some REASON_OVERLOADED)
  | spec_backed_up :
      indexed ∨ served ∨ opaque → (∀ cap, hard_cap tier = Some cap → (backlog < cap)%Z) →
      (warn_backlog tier ≤ backlog)%Z →
      shed_spec indexed served opaque gap tier backlog warn (Some REASON_BACKLOG)
  | spec_free :
      indexed ∨ served ∨ opaque → (∀ cap, hard_cap tier = Some cap → (backlog < cap)%Z) →
      (backlog < warn_backlog tier)%Z →
      shed_spec indexed served opaque gap tier backlog ok None.

(** ** Lemmas *)
Lemma foldl_cover pairs c p :
  is_Some (foldl cover c pairs !! p) ↔ is_Some (c !! p) ∨ p ∈ pairs.
Proof.
  revert c. induction pairs as [|q pairs IH]; intros c; simpl; [set_solver|].
  rewrite IH, elem_of_cons. unfold cover. destruct (decide (q = p)) as [->|Hne].
  - rewrite lookup_insert_eq. naive_solver.
  - rewrite lookup_insert_ne by done. naive_solver.
Qed.

Lemma add_entry_spec acc e p pool :
  (is_Some ((add_entry acc e).1 !! p) ↔ is_Some (acc.1 !! p) ∨ p ∈ omap lane_pair e.1) ∧
  (pool ∈ (add_entry acc e).2 ↔
   pool ∈ acc.2 ∨ e.2 = false ∧ pool ≠ "" ∧ ∃ t, head (omap lane_pair e.1) = Some (pool, t)).
Proof.
  destruct acc as [c o], e as [lanes known]. unfold add_entry. cbn [fst snd].
  destruct (omap lane_pair lanes) as [|[bp bt] pairs] eqn:E.
  - cbn [foldl fst snd]. set_solver.
  - cbn [fst snd head]. split; [apply foldl_cover|].
    destruct known; cbn [negb andb]; [naive_solver|].
    destruct (bp =? "")%string eqn:Eb; simp_bool; cbn [negb].
    + subst. naive_solver.
    + rewrite elem_of_union, elem_of_singleton. naive_solver.
Qed.

Lemma coverage_spec entries p pool :
  (is_Some ((coverage_from_lane_sets entries).1 !! p) ↔ ∃ e, e ∈ entries ∧ p ∈ omap lane_pair e.1) ∧
  (pool ∈ (coverage_from_lane_sets entries).2 ↔
   ∃ e, e ∈ entries ∧ e.2 = false ∧ pool ≠ "" ∧ ∃ t, head (omap lane_pair e.1) = Some (pool, t)).
Proof.
  unfold coverage_from_lane_sets.
  assert (H : ∀ acc, (is_Some ((foldl add_entry acc entries).1 !! p) ↔
                        is_Some (acc.1 !! p) ∨ ∃ e, e ∈ entries ∧ p ∈ omap lane_pair e.1) ∧
                     (pool ∈ (foldl add_entry acc entries).2 ↔
                        pool ∈ acc.2 ∨ ∃ e, e ∈ entries ∧ e.2 = false ∧ pool ≠ "" ∧
                                            ∃ t, head (omap lane_pair e.1) = Some (pool, t))).
  { induction entries as [|e entries IH]; intros acc; cbn [foldl]; [set_solver|].
    destruct (IH (add_entry acc e)) as [-> ->]. destruct (add_entry_spec acc e p pool) as [-> ->].
    setoid_rewrite elem_of_cons. split; naive_solver. }
  destruct (H (∅, ∅)) as [-> ->]. cbn [fst snd]. rewrite lookup_empty, elem_of_empty.
  split; (split; [intros [?|?]; [|done]|by right]); [by destruct H0 as [? ?]|done].
Qed.

(** The broker answers, and nothing but the index and the clock reading moved. *)
Record reads_of (s : fleet_store) (n : nat) (s' : fleet_store) : Prop := {
  ro_workers : fs_workers s' = fs_workers s;
  ro_worker_hash : fs_worker_hash s' = fs_worker_hash s;
  ro_gov_hash : fs_gov_hash s' = fs_gov_hash s;
  ro_lists : fs_lists s' = fs_lists s;
  ro_seen : fs_seen s' = fs_seen s;
  ro_clock : fs_clock s' = fs_clock s;
  ro_down : fs_down s' = [];
  ro_reads : fs_reads s' = (fs_reads s + n)%nat;
}.

Lemma rcall_up {A} (f : fleet_store → A * fleet_store) s :
  fs_down s = [] → rcall f s = (Ok (f s).1, (f s).2).
Proof. unfold rcall. destruct s. simpl. intros ->. by destruct (f _). Qed.

Lemma pool_live_run pool tier s :
  fs_down s = [] →
  ∃ n s', pool_live_workers pool tier s = (Ok n, s') ∧ reads_of s 1 s' ∧
          ((0 < n)%nat ↔ index_live s (fs_clock s (fs_reads s)) pool tier).
Proof.
  intros Hd. unfold pool_live_workers, mbind, C_bind, time_time. cbn [fst snd].
  unfold rwrite, rread. rewrite rcall_up by done. cbn [fst snd]. rewrite rcall_up by done. cbn [fst snd].
  eexists _, _. split; [done|]. split; [split; simpl; try done; lia|].
  unfold index_live. set (edge := (_ - _)%Q). cbn [with_cov with_reads fs_cov fs_clock fs_reads].
  rewrite lookup_insert_eq. change (default ∅ (Some ?m)) with m.
  rewrite <-Nat.neq_0_lt_0, (map_size_non_empty_iff (M := gmap string)). split.
  - intros H. apply map_choose in H as (w & sc & [[H1 _]%map_lookup_filter_Some H2]%map_lookup_filter_Some).
    exists w, sc. split; [done|]. unfold above in H2. cbn [snd] in H2. apply negb_true_iff in H2.
    assert (~ (sc <= edge)%Q) by (rewrite <-Qle_bool_iff; congruence). lra.
  - intros (w & sc & H1 & H2). intros H. apply (f_equal (lookup w)) in H.
    rewrite lookup_empty, (map_lookup_filter_Some_2 _ _ w sc) in H; [done| |].
    + apply map_lookup_filter_Some. split; [done|]. unfold below. cbn [snd]. apply negb_false_iff, Qle_bool_iff. lra.
    + unfold above. cbn [snd]. apply negb_true_iff, not_true_is_false. rewrite Qle_bool_iff. lra.
Qed.

Lemma served_coverage_run s :
  fs_down s = [] →
  ∃ c n s', served_coverage s = (Ok c, s') ∧ reads_of s n s' ∧
    (∀ pool tier, is_Some (c.1 !! (pool, tier)) ↔ fleet_serves s (fs_clock s (fs_reads s)) pool tier) ∧
    (∀ pool, pool ∈ c.2 ↔ fleet_opaque s (fs_clock s (fs_reads s)) pool).
Proof.
  intros Hd. unfold served_coverage, mbind, C_bind, rread. rewrite rcall_up by done. cbn [fst snd].
  set (keys := List.filter _ _). set (now := fs_clock s (fs_reads s)).
  assert (Hkeys : ∀ key, key ∈ keys ↔ key ∈ fs_workers s ∧ String.prefix _RQ_WORKER_PREFIX key = true).
  { intros key. unfold keys. rewrite list_elem_of_In, filter_In, <-list_elem_of_In, elem_of_elements. done. }
  set (entries := (λ row, worker_lanes row.1 row.2) <$>
     List.filter (λ row, _worker_up row.1 row.2 now) (worker_row s <$> keys)).
  assert (Hlive : ∀ e, e ∈ entries ↔ live_worker s now e).
  { intros e. unfold entries, live_worker. rewrite list_elem_of_fmap. split.
    - intros (row & -> & H). apply list_elem_of_In, filter_In in H as [H ?].
      apply list_elem_of_In, list_elem_of_fmap in H as (key & -> & []%Hkeys). eauto.
    - intros (key & Hk & Hp & Hu & ->). exists (worker_row s key). split; [done|].
      apply list_elem_of_In, filter_In. split; [|done]. apply list_elem_of_In, list_elem_of_fmap.
      exists key. split; [done|]. by apply Hkeys. }
  assert (Hcov : ∀ pool tier, (is_Some ((coverage_from_lane_sets entries).1 !! (pool, tier)) ↔ fleet_serves s now pool tier)
                 ∧ (pool ∈ (coverage_from_lane_sets entries).2 ↔ fleet_opaque s now pool)).
  { intros pool tier. destruct (coverage_spec entries (pool, tier) pool) as [-> ->].
    unfold fleet_serves, fleet_opaque. setoid_rewrite Hlive. setoid_rewrite list_elem_of_omap. naive_solver. }
  case_bool_decide as E.
  - exists (∅, ∅), O, s. split; [done|]. split; [split; try done; lia|].
    unfold entries in Hcov. rewrite E in Hcov. split; intros; by apply Hcov.
  - rewrite rcall_up by done. cbn [fst snd]. exists (coverage_from_lane_sets entries), 1%nat.
    eexists. split; [done|]. split; [split; simpl; try done; lia|]. split; intros; by apply Hcov.
Qed.

Lemma opaque_serves s now pool : fleet_opaque s now pool → ∃ p t, fleet_serves s now p t.
Proof.
  intros (e & t & He & _ & Hh & _). exists pool, t, e. split; [done|].
  destruct (omap lane_pair e.1) as [|q l] eqn:E; [done|]. simpl in Hh. simplify_eq.
  assert ((pool, t) ∈ omap lane_pair e.1) as (lane & ? & ?)%list_elem_of_omap by (rewrite E; left). eauto.
Qed.

(** The facts that do not depend on what the index read moved. *)
Lemma reads_of_fleet s n s' now :
  reads_of s n s' →
  (∀ pool tier, fleet_serves s' now pool tier ↔ fleet_serves s now pool tier) ∧
  (∀ pool, fleet_opaque s' now pool ↔ fleet_opaque s now pool).
Proof.
  intros []. unfold fleet_serves, fleet_opaque, live_worker, worker_row.
  by rewrite ro_workers0, ro_worker_hash0, ro_gov_hash0.
Qed.

Lemma recently_spec seen now :
  recently (match seen with Some (Some f) => Some f | _ => None end) now = true ↔ seen_within seen now.
Proof.
  destruct seen as [[[|[]|t]|]|]; cbn [recently seen_within negb]; try done. apply Qle_bool_iff.
Qed.

Lemma scan_lane_run pool tier now s :
  fs_down s = [] → let clk := fs_clock s (fs_reads s) in
  ∃ f s', scan_lane pool tier now s = (Ok f, s') ∧ fs_down s' = [] ∧ fs_lists s' = fs_lists s ∧
    match f with
    | None => fleet_gap s now clk
    | Some (h, o) => ¬ fleet_gap s now clk ∧
        (h = true ↔ fleet_serves s clk pool tier) ∧ (o = true ↔ fleet_opaque s clk pool)
    end.
Proof.
  intros Hd clk. unfold scan_lane, mbind, C_bind.
  destruct (served_coverage_run s Hd) as ([c o] & n & s1 & -> & Hr & Hserves & Hopaque). fold clk in Hserves, Hopaque.
  cbn [fst snd] in *. unfold note_fleet_seen, fleet_last_seen, rwrite, rread, mbind, C_bind.
  destruct (negb (bool_decide (c = ∅)) || negb (bool_decide (o = ∅))) eqn:E.
  - rewrite rcall_up by apply Hr. cbn [fst snd]. eexists _, _. split; [done|]. split; [apply Hr|].
    split; [apply Hr|]. rewrite !bool_decide_eq_true, Hserves, Hopaque. split; [|done].
    intros [Hnone _]. apply orb_true_iff in E as [E|E]; simp_bool; apply E.
    + apply map_empty. intros [p t]. apply eq_None_not_Some. rewrite Hserves. apply Hnone.
    + apply set_eq. intros x. rewrite Hopaque. split; [|set_solver].
      intros (p & t & ?)%opaque_serves. by destruct (Hnone p t).
  - simp_bool. subst c o. rewrite rcall_up by apply Hr. cbn [fst snd].
    assert (Hnone : ∀ p t, ¬ fleet_serves s clk p t).
    { intros p t Hs%Hserves. rewrite lookup_empty in Hs. by destruct Hs. }
    assert (Hs1 : fs_seen s1 = fs_seen s) by apply Hr. rewrite Hs1.
    eexists _, _. split; [done|]. split; [apply Hr|]. split; [apply Hr|].
    destruct (recently _ now) eqn:Erec.
    + split; [done|]. by apply recently_spec.
    + rewrite !bool_decide_eq_true, Hserves, Hopaque. split; [|done]. intros [_ Hseen%recently_spec]. congruence.
Qed.

Lemma read_lane_run queue pool tier now s :
  fs_down s = [] → let clk k := fs_clock s (fs_reads s + k)%nat in
  ∃ f s', read_lane queue pool tier now s = (Ok f, s') ∧
    match f with
    | None => ¬ index_live s (clk 0%nat) pool tier ∧ fleet_gap s now (clk 1%nat)
    | Some (h, o, b) =>
        b = backlog_of s queue ∧
        (h || o = true ↔ index_live s (clk 0%nat) pool tier ∨ fleet_serves s (clk 1%nat) pool tier
                         ∨ fleet_opaque s (clk 1%nat) pool) ∧
        (h || o = false → ¬ fleet_gap s now (clk 1%nat))
    end.
Proof.
  intros Hd clk. unfold read_lane, mbind, C_bind.
  destruct (pool_live_run pool tier s Hd) as (n & s1 & -> & Hr & Hlive).
  assert (H0 : fs_clock s (fs_reads s) = clk 0%nat) by (unfold clk; by rewrite Nat.add_0_r). rewrite H0 in Hlive.
  destruct (0 <? n)%nat eqn:En.
  - apply Nat.ltb_lt, Hlive in En. unfold note_fleet_seen, rwrite, rread. rewrite rcall_up by apply Hr.
    cbn [fst snd]. cbn [mret C_ret]. rewrite rcall_up by apply Hr. eexists _, _. split; [done|].
    unfold backlog_of. cbn [fst snd with_seen fs_lists]. rewrite (ro_lists _ _ _ Hr). naive_solver.
  - apply Nat.ltb_ge in En. assert (Hnot : ¬ index_live s (clk 0%nat) pool tier) by (rewrite <-Hlive; lia).
    destruct (scan_lane_run pool tier now s1 (ro_down _ _ _ Hr)) as (f & s2 & -> & Hd2 & Hl2 & Hf).
    rewrite (ro_clock _ _ _ Hr), (ro_reads _ _ _ Hr) in Hf. fold (clk 1%nat) in Hf.
    destruct (reads_of_fleet s 1 s1 (clk 1%nat) Hr) as [Hs Ho].
    assert (Hgap : fleet_gap s1 now (clk 1%nat) ↔ fleet_gap s now (clk 1%nat)).
    { unfold fleet_gap. setoid_rewrite Hs. by rewrite (ro_seen _ _ _ Hr). }
    destruct f as [[h o]|]; cbn beta zeta in Hf; rewrite Hgap in Hf; [rewrite Hs, Ho in Hf|].
    + unfold rread. rewrite rcall_up by done. eexists _, _. split; [done|]. cbn [fst snd]. unfold backlog_of.
      rewrite Hl2, (ro_lists _ _ _ Hr). rewrite orb_true_iff. naive_solver.
    + eexists _, _. split; [done|]. naive_solver.
Qed.

Lemma hard_cap_foreground tier cap : hard_cap tier = Some cap → tier ∈ FOREGROUND_TIERS.
Proof.
  unfold hard_cap, _HARD_CAP_DEFAULTS, FOREGROUND_TIERS. cbn [assoc].
  destruct (tier =? "interactive")%string eqn:E1; [simp_bool; set_solver|].
  destruct (tier =? "standard")%string eqn:E2; [simp_bool; set_solver|done].
Qed.

Lemma judge_spec (indexed served opaque gap : Prop) pool cat tier h o b :
  (h || o = true ↔ indexed ∨ served ∨ opaque) → (h || o = false → ¬ gap) →
  let '(d, ctx) := judge pool cat tier h o b in
  shed_spec indexed served opaque gap tier b d (cx_reason ctx).
Proof.
  intros Hc Hg. unfold judge. rewrite <-negb_orb. destruct (h || o); cbn [negb].
  - assert (Hok : indexed ∨ served ∨ opaque) by (by apply Hc).
    destruct (mem tier FOREGROUND_TIERS && _) eqn:E.
    + simp_bool. destruct (hard_cap tier) as [cap|] eqn:Ec; [|done]. simp_bool.
      eapply spec_overloaded; [done|by apply mem_spec|done|done].
    + assert (Hcap : ∀ cap, hard_cap tier = Some cap → (b < cap)%Z).
      { intros cap Ecap. pose proof (hard_cap_foreground _ _ Ecap) as Hm. apply mem_spec in Hm.
        rewrite Hm, Ecap in E. cbn [andb] in E. simp_bool. done. }
      destruct (warn_backlog tier <=? b)%Z eqn:Ew; simp_bool; [by apply spec_backed_up|by apply spec_free].
  - assert (Hno : ¬ (indexed ∨ served ∨ opaque)) by (intros ?%Hc; done).
    apply spec_stranded; [tauto|tauto|tauto|by apply Hg].
Qed.

(** C33: Whenever the broker answers, the shed gate decides a storage lane as the
    specification of the fleet says: refused for want of a consumer exactly when
    no heartbeat of the index is fresh, no live worker serves the pool and tier,
    no live worker of unknown lanes sits in the pool, and the whole fleet is not
    in the gap of a restart; refused for overload only on a foreground tier at
    its cap; admitted in every other case. *)
Theorem shed_gate_refines_the_fleet_spec queue pool cat tier s :
  parse_storage_queue (PStr queue) = Some (pool, cat, tier) → fs_down s = [] →
  let clk k := fs_clock s (fs_reads s + k)%nat in
  ∃ d ctx s', lane_shed_decision queue s = (Ok (d, ctx), s') ∧
    shed_spec (index_live s (clk 1%nat) pool tier) (fleet_serves s (clk 2%nat) pool tier)
      (fleet_opaque s (clk 2%nat) pool) (fleet_gap s (clk 0%nat) (clk 2%nat)) tier (backlog_of s queue)
      d (cx_reason ctx).
Proof.
  intros Hq Hd clk. unfold lane_shed_decision. rewrite Hq. unfold mbind at 1, C_bind at 1.
  cbn [time_time]. set (s1 := with_reads _ s).
  destruct (read_lane_run queue pool tier (fs_clock s (fs_reads s)) s1 Hd) as (f & s2 & Hrun & Hf).
  unfold tryC, mbind, C_bind. rewrite Hrun. clear Hrun.
  assert (E0 : fs_clock s (fs_reads s) = clk 0%nat) by (unfold clk; by rewrite Nat.add_0_r). rewrite E0 in *.
  assert (E1 : fs_clock s1 (fs_reads s1 + 0)%nat = clk 1%nat) by (unfold clk; simpl; f_equal; lia). rewrite E1 in *.
  assert (E2 : fs_clock s1 (fs_reads s1 + 1)%nat = clk 2%nat) by (unfold clk; simpl; f_equal; lia). rewrite E2 in *.
  destruct f as [[[h o] b]|].
  - destruct Hf as (-> & Hc & Hg). pose proof (judge_spec _ _ _ _ pool cat tier h o (backlog_of s queue) Hc Hg) as Hj.
    change (backlog_of s1 queue) with (backlog_of s queue).
    destruct (judge pool cat tier h o (backlog_of s queue)) as [d ctx]. eexists _, _, _. split; [done|]. exact Hj.
  - eexists _, _, _. split; [done|]. apply spec_gap; apply Hf.
Qed.

(** ** Failures of the broker *)

(** With some calls failing, a computation gives the answer it gives with none,
    or raises the error of the broker. *)
Definition degrades {A} (m : C A) : Prop := ∀ s,
  let '(r, s1) := m s in
  let '(r0, s0) := m (with_down [] s) in
  (r = r0 ∧ s0 = with_down [] s1) ∨ r = Raise RedisError.

Lemma degrades_ret {A} (a : A) : degrades (mret a).
Proof. intros s. by left. Qed.

Lemma degrades_bind {A B} (m : C A) (f : A → C B) :
  degrades m → (∀ a, degrades (f a)) → degrades (m ≫= f).
Proof.
  intros Hm Hf s. unfold mbind, C_bind. specialize (Hm s).
  destruct (m s) as [r s1], (m (with_down [] s)) as [r0 s0]. destruct Hm as [[-> ->]| ->].
  - destruct r0 as [a|e]; [apply Hf|by left].
  - destruct r0 as [a|e]; [destruct (f a s0)|]; by right.
Qed.

Lemma degrades_rcall {A} (f : fleet_store → A * fleet_store) :
  (∀ l s, f (with_down l s) = ((f s).1, with_down l (f s).2)) → degrades (rcall f).
Proof.
  intros Hf s. unfold rcall. cbn [with_down fs_down tail].
  assert (Hno : with_down [] (with_down [] s) = with_down [] s) by done.
  destruct (fs_down s) as [|[|] l]; cbn [tail]; rewrite Hno.
  - rewrite Hf. by left.
  - rewrite (Hf []). by right.
  - rewrite !Hf. by left.
Qed.

Lemma degrades_time : degrades time_time.
Proof. intros s. by left. Qed.

Lemma degrades_read {A} (f : fleet_store → A) :
  (∀ l s, f (with_down l s) = f s) → degrades (rread f).
Proof. intros Hf. apply degrades_rcall. intros l s. cbn [fst snd]. by rewrite Hf. Qed.

Lemma degrades_write (f : fleet_store → fleet_store) :
  (∀ l s, f (with_down l s) = with_down l (f s)) → degrades (rwrite f).
Proof. intros Hf. apply degrades_rcall. intros l s. cbn [fst snd]. by rewrite Hf. Qed.

Lemma degrades_pool_live pool tier : degrades (pool_live_workers pool tier).
Proof.
  unfold pool_live_workers. apply degrades_bind; [apply degrades_time|]. intros now.
  apply degrades_bind; [by apply degrades_write|]. intros _. by apply degrades_read.
Qed.

Lemma degrades_served : degrades served_coverage.
Proof.
  unfold served_coverage. apply degrades_bind; [by apply degrades_read|]. intros members.
  case_bool_decide; [apply degrades_ret|]. apply degrades_bind; [by apply degrades_read|]. intros rows.
  apply degrades_bind; [apply degrades_time|]. intros now. apply degrades_ret.
Qed.

Lemma degrades_scan pool tier now : degrades (scan_lane pool tier now).
Proof.
  unfold scan_lane. apply degrades_bind; [apply degrades_served|]. intros [covered opaque].
  destruct (_ || _).
  - apply degrades_bind; [by apply degrades_write|]. intros _. apply degrades_ret.
  - apply degrades_bind; [|intros; apply degrades_ret]. unfold fleet_last_seen.
    apply degrades_bind; [by apply degrades_read|]. intros. apply degrades_ret.
Qed.

Lemma degrades_read_lane queue pool tier now : degrades (read_lane queue pool tier now).
Proof.
  unfold read_lane. apply degrades_bind; [apply degrades_pool_live|]. intros live.
  apply degrades_bind.
  - destruct (0 <? live)%nat; [|apply degrades_scan]. apply degrades_bind; [by apply degrades_write|].
    intros _. apply degrades_ret.
  - intros [[h o]|]; [|apply degrades_ret]. apply degrades_bind; [by apply degrades_read|].
    intros. apply degrades_ret.
Qed.

(** The answer once the reads are done. *)
Definition answer (pool : string) (cat : option string) (tier : string) (r : res (option (bool * bool * Z)))
    : decision * shed_ctx :=
  match r with
  | Ok None => (ok, brief_ctx REASON_FLEET_GAP pool cat tier)
  | Ok (Some (h, o, b)) => judge pool cat tier h o b
  | Raise _ => (reject, brief_ctx REASON_COVERAGE_UNREADABLE pool cat tier)
  end.

Lemma decision_unfold queue pool cat tier s :
  parse_storage_queue (PStr queue) = Some (pool, cat, tier) →
  lane_shed_decision queue s =
  let '(r, s2) := read_lane queue pool tier (fs_clock s (fs_reads s)) (with_reads (S (fs_reads s)) s) in
  (Ok (answer pool cat tier r), s2).
Proof.
  intros Hq. unfold lane_shed_decision. rewrite Hq. unfold mbind, C_bind, tryC, time_time.
  destruct (read_lane _ _ _ _ _) as [[[[[h o] b]|]|e] s2]; done.
Qed.

Lemma shed_decision_degrades queue s :
  ∃ d ctx s', lane_shed_decision queue s = (Ok (d, ctx), s') ∧
    ((lane_shed_decision queue (with_down [] s)).1 = Ok (d, ctx) ∨
     d = reject ∧ cx_reason ctx = Some REASON_COVERAGE_UNREADABLE).
Proof.
  destruct (parse_storage_queue (PStr queue)) as [[[pool cat] tier]|] eqn:Hq.
  2: { unfold lane_shed_decision. rewrite Hq. eexists _, _, _. split; [done|]. by left. }
  rewrite !(decision_unfold queue pool cat tier) by done.
  pose proof (degrades_read_lane queue pool tier (fs_clock s (fs_reads s)) (with_reads (S (fs_reads s)) s)) as Hd.
  assert (Hsame : with_reads (S (fs_reads (with_down [] s))) (with_down [] s)
                  = with_down [] (with_reads (S (fs_reads s)) s)) by done.
  rewrite Hsame. change (fs_clock (with_down [] s) (fs_reads (with_down [] s))) with (fs_clock s (fs_reads s)).
  destruct (read_lane _ _ _ _ (with_reads _ s)) as [r s2], (read_lane _ _ _ _ (with_down [] _)) as [r0 s3].
  destruct Hd as [[-> ->]| ->].
  - destruct (answer pool cat tier r0) as [d ctx] eqn:E. exists d, ctx, s2. split; [done|]. by left.
  - eexists _, _, _. split; [done|]. by right.
Qed.

(** Whatever calls to the broker fail, the shed decision never raises: it
    answers what it answers when none fails, or it refuses the lane as
    unreadable. A failure never admits work. *)
Theorem shed_gate_fails_closed queue s :
  ∃ d ctx s', lane_shed_decision queue s = (Ok (d, ctx), s') ∧
    ((lane_shed_decision queue (with_down [] s)).1 = Ok (d, ctx) ∨
     d = reject ∧ cx_reason ctx = Some REASON_COVERAGE_UNREADABLE).
Proof. apply shed_decision_degrades. Qed.

(** The two postures are one decision: the refusing gate raises its typed
    error exactly when the declining gate answers no, both leave the same keys
    and the same counted shed; every such refusal is one of the enqueue gate,
    which raises exactly on the decision to reject. *)
Theorem postures_share_one_decision queue s :
  let '(r, s1) := check_no_consumer queue s in
  let '(a, s2) := lane_has_consumer queue s in
  let '(g, s3) := enforce_shed (Some queue) s in
  s1 = s2 ∧
  ∃ d ctx allowed, (lane_shed_decision queue s).1 = Ok (d, ctx) ∧ a = Ok (allowed, ctx) ∧
    (allowed = true ∧ r = Ok tt ∨
     allowed = false ∧ r = Raise (Error429 "storage_no_consumer_retry_later") ∧ g = r ∧ s3 = s1) ∧
    (d = reject ∧ (∃ code, g = Raise (Error429 code)) ∨ d ≠ reject ∧ g = Ok tt).
Proof.
  unfold check_no_consumer, lane_has_consumer, enforce_shed.
  destruct (queue =? "")%string eqn:Eq.
  { simp_bool. subst. cbn. split; [done|]. eexists _, _, true. naive_solver. }
  unfold check_shed, mbind, C_bind.
  destruct (shed_decision_degrades queue s) as (d & ctx & s' & E & _). rewrite E. clear E.
  unfold _raise_lane_429, mbind, C_bind, raiseC.
  destruct (record_shed (default "" (cx_reason ctx)) (cx_pool ctx) (cx_tier ctx) s') as [rr sr] eqn:Er.
  assert (rr = Ok tt) as ->.
  { revert Er. unfold record_shed, mbind, C_bind, tryC, time_time. destruct (rwrite _ _) as [[[]|e] ?]; by intros [= <- <-]. }
  destruct d; cbn [bool_decide]; try (rewrite bool_decide_false by done; cbn; split; [done|]; eexists _, _, true; naive_solver).
  rewrite bool_decide_true by done. cbn [andb].
  destruct (no_consumer_reason ctx) eqn:Ec; cbn [negb mret C_ret].
  - rewrite Er. split; [done|]. eexists _, _, false. naive_solver.
  - rewrite Er. split; [done|]. eexists _, _, true. naive_solver.
Qed.

(** ** The heartbeat of a governed worker

    [_served_lanes], [_coverage_beat] and [_stop_coverage_heartbeat] of
    [governed_worker.py], over the names of the queues of the worker. *)
Fixpoint first_seen (seen : list (string * string)) (pairs : list (string * string)) : list (string * string) :=
  match pairs with
  | [] => []
  | p :: pairs => if bool_decide (p ∈ seen) then first_seen seen pairs else p :: first_seen (p :: seen) pairs
  end.

Definition _served_lanes (ordered_queues : list string) : list (string * string) :=
  first_seen [] (omap lane_pair ordered_queues).

Fixpoint beat_each (name : string) (now : Q) (lanes : list (string * string)) : C unit :=
  match lanes with
  | [] => mret tt
  | (pool, tier) :: lanes =>
      _ ← tryC (publish_lane pool tier name now) (mret tt);
      beat_each name now lanes
  end.

Definition _coverage_beat (name : string) (ordered_queues : list string) : C unit :=
  now ← time_time;
  beat_each name now (_served_lanes ordered_queues).

Fixpoint stop_each (name : string) (lanes : list (string * string)) : C unit :=
  match lanes with
  | [] => mret tt
  | (pool, tier) :: lanes =>
      _ ← tryC (unpublish_worker pool tier name) (mret tt);
      stop_each name lanes
  end.

Definition _stop_coverage_heartbeat (name : string) (ordered_queues : list string) : C unit :=
  stop_each name (_served_lanes ordered_queues).

Lemma elem_of_first_seen seen pairs p : p ∈ first_seen seen pairs ↔ p ∈ pairs ∧ p ∉ seen.
Proof.
  revert seen. induction pairs as [|q pairs IH]; intros seen; simpl; [set_solver|].
  case_bool_decide as E; rewrite ?elem_of_cons, IH; [|rewrite elem_of_cons];
    destruct (decide (p = q)) as [->|]; naive_solver.
Qed.

Lemma elem_of_served_lanes names pool tier :
  (pool, tier) ∈ _served_lanes names ↔ ∃ lane, lane ∈ names ∧ lane_pair lane = Some (pool, tier).
Proof. unfold _served_lanes. rewrite elem_of_first_seen, list_elem_of_omap. set_solver. Qed.

(** The score of a member of the index. *)
Definition score (s : fleet_store) (pool tier name : string) : option Q :=
  default ∅ (fs_cov s !! cov_key pool tier) !! name.

Lemma publish_score pool tier name now s :
  fs_down s = [] →
  ∃ s', publish_lane pool tier name now s = (Ok tt, s') ∧ fs_down s' = [] ∧
    (∀ p t, score s' p t name = if decide (cov_key p t = cov_key pool tier) then Some now else score s p t name).
Proof.
  intros Hd. unfold publish_lane, mbind, C_bind, rwrite. rewrite rcall_up by done. cbn [fst snd].
  rewrite rcall_up by done. cbn [fst snd last_note id].
  set (s1 := zadd _ _ _ s). assert (Hs1 : fs_down s1 = []) by done.
  assert (Hscore : ∀ p t, score s1 p t name
            = if decide (cov_key p t = cov_key pool tier) then Some now else score s p t name).
  { intros p t. unfold score, s1, zadd. cbn [with_cov fs_cov]. case_decide as E.
    - rewrite E, lookup_insert_eq. apply lookup_insert_eq.
    - by rewrite lookup_insert_ne. }
  destruct (negb _).
  - unfold note_fleet_seen, rwrite. rewrite rcall_up by done. eexists. split; [done|]. by split.
  - eexists. split; [done|]. by split.
Qed.

Lemma beat_each_score name now lanes s :
  fs_down s = [] →
  let s' := (beat_each name now lanes s).2 in
  fs_down s' = [] ∧ ∀ p t, ((p, t) ∈ lanes ∨ score s p t name = Some now) → score s' p t name = Some now.
Proof.
  revert s. induction lanes as [|[pool tier] lanes IH]; intros s Hd; [split; [done|]; set_solver|].
  cbv zeta. cbn [beat_each]. unfold mbind, C_bind, tryC.
  destruct (publish_score pool tier name now s Hd) as (s1 & -> & Hd1 & Hs1).
  destruct (IH s1 Hd1) as [Hd2 Hs2]. split; [done|]. intros p t H. apply Hs2.
  rewrite elem_of_cons in H. destruct H as [[[= -> ->]|H]|H]; [right|by left|right]; rewrite Hs1; case_decide; done.
Qed.

Lemma stop_each_score name lanes s :
  fs_down s = [] →
  let s' := (stop_each name lanes s).2 in
  ∀ p t, ((p, t) ∈ lanes ∨ score s p t name = None) → score s' p t name = None.
Proof.
  revert s. induction lanes as [|[pool tier] lanes IH]; intros s Hd; [set_solver|].
  cbv zeta. cbn [stop_each]. unfold mbind, C_bind, tryC, unpublish_worker, rwrite. rewrite rcall_up by done.
  intros p t H. apply IH; [done|]. rewrite elem_of_cons in H. cbn [snd]. unfold score in *. cbn [with_cov fs_cov].
  destruct (decide (cov_key p t = cov_key pool tier)) as [E|E].
  - right. rewrite E, lookup_insert_eq. apply lookup_delete_eq.
  - rewrite lookup_insert_ne by done. naive_solver.
Qed.

(** A heartbeat covers exactly what the worker promised: one beat makes every
    lane the worker is subscribed to live in the index until the TTL runs out,
    so the gate finds a consumer there, and a clean stop takes the worker out of
    every one of them. *)
Theorem heartbeat_covers_the_served_lanes name queues lane pool tier s :
  fs_down s = [] → lane ∈ queues → lane_pair lane = Some (pool, tier) →
  let beat := fs_clock s (fs_reads s) in
  let s1 := (_coverage_beat name queues s).2 in
  (∀ now, (now < beat + inject_Z COV_TTL_S)%Q → index_live s1 now pool tier) ∧
  default ∅ (fs_cov (_stop_coverage_heartbeat name queues s1).2 !! cov_key pool tier) !! name = None.
Proof.
  intros Hd Hl Hp beat. cbv zeta. assert (Hin : (pool, tier) ∈ _served_lanes queues) by (apply elem_of_served_lanes; eauto).
  unfold _coverage_beat, mbind, C_bind. cbn [time_time].
  destruct (beat_each_score name beat (_served_lanes queues) (with_reads (S (fs_reads s)) s) Hd) as [Hd1 Hs1].
  fold beat. split.
  - intros now Hnow. exists name, beat. split; [apply Hs1; by left|lra].
  - apply (stop_each_score name (_served_lanes queues) _ Hd1). by left.
Qed.
End coverage.

(** ** Examples *)
Definition ex_environ (name : string) : option string := None.
Definition ex_utcparse : option (string → option Q) := Some (λ _, None).
Definition ex_repr (v : pyval) : string := "".
Definition ex_fleet : fleet_store :=
  mkFleet {["rq:worker:w1"]} ∅
    {["w1" := {["served_lanes" := JDoc (PList [PStr "storage.p.bulk"])]}]}
    ∅ ∅ None (mkCounters 0 ∅ ∅ ∅) 0 [] (λ n, inject_Z (1000 + Z.of_nat n)) 0.

(** A fleet that serves only the bulk tier of a pool refuses a desktop action
    there, and accepts bulk work. *)
Lemma shed_gate_refines_the_fleet_spec_witness :
  (∃ ctx s', lane_shed_decision ex_environ ex_utcparse 420 ex_repr "storage.p.standard" ex_fleet
             = (Ok (reject, ctx), s')) ∧
  ∃ d ctx s', lane_shed_decision ex_environ ex_utcparse 420 ex_repr "storage.p.cat.bulk" ex_fleet
              = (Ok (d, ctx), s') ∧
    shed_spec ex_environ
      (index_live ex_environ ex_fleet (inject_Z 1001) "p" "bulk")
      (fleet_serves ex_utcparse 420 ex_repr ex_fleet (inject_Z 1002) "p" "bulk")
      (fleet_opaque ex_utcparse 420 ex_repr ex_fleet (inject_Z 1002) "p")
      (fleet_gap ex_environ ex_utcparse 420 ex_repr ex_fleet (inject_Z 1000) (inject_Z 1002))
      "bulk" (backlog_of ex_fleet "storage.p.cat.bulk") d (cx_reason ctx).
Proof.
  split; [eexists _, _; vm_compute; reflexivity|].
  refine (shed_gate_refines_the_fleet_spec ex_environ ex_utcparse 420 ex_repr "storage.p.cat.bulk" "p"
            (Some "cat") "bulk" ex_fleet _ _); reflexivity.
Defined.

Lemma heartbeat_covers_the_served_lanes_witness :
  let s1 := (_coverage_beat ex_environ "w1" ["storage.p.bulk"; "storage.p.cat.bulk"] ex_fleet).2 in
  index_live ex_environ s1 (inject_Z 1010) "p" "bulk" ∧
  default ∅ (fs_cov (_stop_coverage_heartbeat "w1" ["storage.p.bulk"; "storage.p.cat.bulk"] s1).2
               !! cov_key "p" "bulk") !! "w1" = None.
Proof.
  destruct (heartbeat_covers_the_served_lanes ex_environ "w1" ["storage.p.bulk"; "storage.p.cat.bulk"]
              "storage.p.cat.bulk" "p" "bulk" ex_fleet) as [Hlive Hgone];
    [reflexivity|right; left|reflexivity|].
  split; [|exact Hgone]. apply Hlive. reflexivity.
Defined.
