(* ===== verification/QcowHeader.v ===== *)
(** * qcow2 headers

    [component/_common/src/isardvdi_common/lib/storage/qcow_header.py] reads the
    header of a disk image without [qemu-img].

    A file is its list of bytes. [f.read(n)] of a position is [ztake n] of the
    rest, [struct.unpack_from] of a field is [unpack], which fails when the
    buffer is too short ([struct.error]); a decoded text is kept as the string
    of its UTF-8 bytes. *)
From Stdlib Require Import Ascii.
From stdpp Require Import pretty.
From S2P Require Import Prelude PyVal.

Open Scope Z_scope.

(** ** Errors *)
Inductive header_error :=
  | Qcow2HeaderError (message : string)
  | StructError.

Inductive hres (A : Type) :=
  | HOk (a : A)
  | HErr (e : header_error).
Arguments HOk {A} a.
Arguments HErr {A} e.

#[export] Instance hres_ret : MRet hres := @HOk.
#[export] Instance hres_bind : MBind hres := λ A B f m, match m with HOk a => f a | HErr e => HErr e end.

Definition refuse {A} (message : string) : hres A := HErr (Qcow2HeaderError message).

(** ** Bytes *)
Definition byte_val (b : ascii) : Z := Z.of_N (N_of_ascii b).

Fixpoint ztake {A} (n : Z) (l : list A) : list A :=
  match l with
  | [] => []
  | x :: l' => if n <=? 0 then [] else x :: ztake (n - 1) l'
  end.

Fixpoint zdrop {A} (n : Z) (l : list A) : list A :=
  match l with
  | [] => []
  | x :: l' => if n <=? 0 then l else zdrop (n - 1) l'
  end.

(** [data[a:b]] for [0 <= a <= b] *)
Definition slice {A} (l : list A) (a b : Z) : list A := ztake (b - a) (zdrop a l).

Definition zlen {A} (l : list A) : Z := Z.of_nat (length l).

(** A big-endian number. *)
Definition be_val (l : list ascii) : Z := foldl (λ acc b, acc * 256 + byte_val b) 0 l.

(** [struct.unpack_from] of a big-endian field of [width] bytes at [offset] *)
Definition unpack (width : Z) (data : list ascii) (offset : Z) : hres Z :=
  let field := slice data offset (offset + width) in
  if zlen field <? width then HErr StructError else HOk (be_val field).

(** ** UTF-8, as [bytes.decode("utf-8")] checks it *)
Definition in_range (lo hi : Z) (b : ascii) : bool := (lo <=? byte_val b) && (byte_val b <=? hi).
Definition is_cont (b : ascii) : bool := in_range 128 191 b.

Fixpoint utf8_valid (l : list ascii) : bool :=
  match l with
  | [] => true
  | a :: l1 =>
      if byte_val a <=? 127 then utf8_valid l1
      else match l1 with
           | [] => false
           | b :: l2 =>
               if in_range 194 223 a then is_cont b && utf8_valid l2
               else match l2 with
                    | [] => false
                    | c :: l3 =>
                        if in_range 224 239 a then
                          (if byte_val a =? 224 then in_range 160 191 b
                           else if byte_val a =? 237 then in_range 128 159 b
                           else is_cont b) && is_cont c && utf8_valid l3
                        else match l3 with
                             | [] => false
                             | d :: l4 =>
                                 in_range 240 244 a
                                 && (if byte_val a =? 240 then in_range 144 191 b
                                     else if byte_val a =? 244 then in_range 128 143 b
                                     else is_cont b)
                                 && is_cont c && is_cont d && utf8_valid l4
                             end
                    end
           end
  end.

Fixpoint text_of (l : list ascii) : string :=
  match l with [] => EmptyString | a :: l' => String a (text_of l') end.

Definition NUL : ascii := "000".

Definition _decode (raw : list ascii) (what : string) : hres string :=
  if existsb (Ascii.eqb NUL) raw then refuse (what +:+ " contains a NUL byte")
  else if utf8_valid raw then HOk (text_of raw)
  else refuse (what +:+ " is not valid UTF-8").

(** ** The header *)
Definition QCOW2_MAGIC : list ascii := ["Q"; "F"; "I"; "251"]%char.
Definition EXT_END : Z := 0.
Definition EXT_BACKING_FORMAT : Z := 0xE2792ACA.
Definition KNOWN_INCOMPATIBLE : Z := 0x1F.
Definition INCOMPAT_DIRTY : Z := 0x1.
Definition INCOMPAT_CORRUPT : Z := 0x2.
Definition V2_HEADER_LENGTH : Z := 72.
Definition MAX_BACKING_NAME : Z := 1023.

Record Qcow2Header := mkQcow2Header {
  version : Z;
  backing_file : option string;
  backing_format : option string;
  virtual_size : Z;
  dirty : bool;
  corrupt : bool;
}.

(** [(ext_len + 7) & ~7] *)
Definition round8 (n : Z) : Z := Z.land (n + 7) (Z.lnot 7).

(** The loop of [_read_extensions]; [None] is a fuel that ran out. *)
Fixpoint extensions (fuel : nat) (data : list ascii) (stop offset : Z) (backing_format : option string)
    : option (hres (option string)) :=
  match fuel with
  | O => None
  | S fuel =>
      if stop <? offset + 8 then Some (refuse "header extensions overrun")
      else
        match unpack 4 data offset, unpack 4 data (offset + 4) with
        | HOk ext_type, HOk ext_len =>
            let offset := offset + 8 in
            if ext_type =? EXT_END then Some (HOk backing_format)
            else if stop <? offset + ext_len then Some (refuse "header extension overruns its area")
            else if ext_type =? EXT_BACKING_FORMAT then
              match _decode (slice data offset (offset + ext_len)) "backing format" with
              | HOk t => extensions fuel data stop (offset + round8 ext_len) (Some t)
              | HErr e => Some (HErr e)
              end
            else extensions fuel data stop (offset + round8 ext_len) backing_format
        | _, _ => Some (HErr StructError)
        end
  end.

(** Every round reads eight bytes of the area at least. *)
Definition _read_extensions (data : list ascii) (start stop : Z) : option (hres (option string)) :=
  extensions (S (Z.to_nat ((stop - start) / 8))) data stop start None.

(** The fields after the version-dependent part: header length, dirty, corrupt. *)
Definition read_features (version cluster_size : Z) (head : list ascii) : hres (Z * bool * bool) :=
  if version =? 2 then HOk (V2_HEADER_LENGTH, false, false)
  else if zlen head <? 104 then refuse "truncated qcow2 v3 header"
  else
    incompatible ← unpack 8 head 72;
    if negb (Z.land incompatible (Z.lnot KNOWN_INCOMPATIBLE) =? 0) then refuse "unknown incompatible features"
    else
      let dirty := negb (Z.land incompatible INCOMPAT_DIRTY =? 0) in
      let corrupt := negb (Z.land incompatible INCOMPAT_CORRUPT =? 0) in
      header_length ← unpack 4 head 100;
      if (header_length <? 104) || (cluster_size <? header_length) then
        refuse ("invalid header_length " +:+ pretty header_length)
      else HOk (header_length, dirty, corrupt).

(** The range checks of the name of the backing file. *)
Definition check_backing (backing_offset backing_size cluster_size : Z) : hres unit :=
  if backing_offset =? 0 then HOk tt
  else if (backing_size =? 0) || (MAX_BACKING_NAME <? backing_size) then
    refuse ("invalid backing_file_size " +:+ pretty backing_size)
  else if cluster_size - backing_size <? backing_offset then
    refuse "backing file name outside the first cluster"
  else HOk tt.

(** The text at the backing offset, [None] without one. *)
Definition read_backing (data : list ascii) (backing_offset backing_size : Z) : hres (option string) :=
  if backing_offset =? 0 then HOk None
  else
    let raw := slice data backing_offset (backing_offset + backing_size) in
    if negb (zlen raw =? backing_size) then refuse "backing file name is truncated"
    else t ← _decode raw "backing file name"; HOk (Some t).

(** [data.ljust(n, b"\0")] *)
Definition ljust (n : Z) (data : list ascii) : list ascii :=
  data ++ replicate (Z.to_nat (n - zlen data)) NUL.

Definition bytes_eqb (a b : list ascii) : bool := bool_decide (a = b).

(** What [read_header] knows before it reads the extensions. *)
Record fixed_part := mkFixed {
  fx_header : option string → Qcow2Header;   (** the result, but for the backing format *)
  fx_header_length : Z;
  fx_ext_end : Z;
  fx_data : list ascii;
}.

(** The checks after the version and the cluster size. *)
Definition read_variable (file head : list ascii) (version backing_offset backing_size cluster_size virtual_size : Z)
    : hres fixed_part :=
  let head := if version =? 2 then head else head ++ ztake (104 - V2_HEADER_LENGTH) (zdrop V2_HEADER_LENGTH file) in
  features ← read_features version cluster_size head;
  let '(header_length, dirty, corrupt) := (features : Z * bool * bool) in
  _ ← check_backing backing_offset backing_size cluster_size;
  let ext_end := if backing_offset =? 0 then cluster_size else backing_offset in
  let data := ztake (Z.max ext_end (backing_offset + backing_size)) file in
  backing ← read_backing data backing_offset backing_size;
  HOk (mkFixed (λ backing_format, mkQcow2Header version backing backing_format virtual_size dirty corrupt)
         header_length ext_end data).

Definition read_fixed (file : list ascii) : hres fixed_part :=
  let head := ztake V2_HEADER_LENGTH file in
  if zlen head <? V2_HEADER_LENGTH then refuse "file is shorter than a qcow2 header"
  else if negb (bytes_eqb (slice head 0 4) QCOW2_MAGIC) then refuse "not a qcow2 image"
  else
    version ← unpack 4 head 4;
    backing_offset ← unpack 8 head 8;
    backing_size ← unpack 4 head 16;
    cluster_bits ← unpack 4 head 20;
    virtual_size ← unpack 8 head 24;
    if negb ((version =? 2) || (version =? 3)) then refuse ("unsupported qcow2 version " +:+ pretty version)
    else if negb ((9 <=? cluster_bits) && (cluster_bits <=? 21)) then
      refuse ("invalid cluster_bits " +:+ pretty cluster_bits)
    else read_variable file head version backing_offset backing_size (Z.shiftl 1 cluster_bits) virtual_size.

(** [None] is a fuel that ran out. *)
Definition read_header (file : list ascii) : option (hres Qcow2Header) :=
  match read_fixed file with
  | HErr e => Some (HErr e)
  | HOk fx =>
      if fx_header_length fx <? fx_ext_end fx then
        match _read_extensions (ljust (fx_ext_end fx) (fx_data fx)) (fx_header_length fx) (fx_ext_end fx) with
        | Some (HOk f) => Some (HOk (fx_header fx f))
        | Some (HErr e) => Some (HErr e)
        | None => None
        end
      else Some (HOk (fx_header fx None))
  end.

(** ** The backing file of an image *)
Fixpoint _has_protocol (name : string) : bool :=
  match name with
  | EmptyString => false
  | String ch name => if Ascii.eqb ch "/" then false else if Ascii.eqb ch ":" then true else _has_protocol name
  end.

Definition full_backing_filename (image_path backing_file : string) : string :=
  if String.prefix "/" backing_file || _has_protocol backing_file then backing_file
  else match rpartition_at "/" image_path with
       | Some (dir, _) => dir +:+ "/" +:+ backing_file
       | None => backing_file
       end.

(** [backing_file(path)] *)
Definition backing_file_of (path : string) (file : list ascii) : option (hres (option string)) :=
  match read_header file with
  | Some (HOk h) => Some (HOk (full_backing_filename path <$> backing_file h))
  | Some (HErr e) => Some (HErr e)
  | None => None
  end.

(** ** Lemmas on buffers *)
Lemma ztake_take {A} n (l : list A) : ztake n l = take (Z.to_nat n) l.
Proof.
  revert n. induction l as [|x l IH]; intros n; simpl; [by destruct (Z.to_nat n)|].
  destruct (n <=? 0) eqn:E; simp_bool.
  - by replace (Z.to_nat n) with O by lia.
  - rewrite IH. by replace (Z.to_nat n) with (S (Z.to_nat (n - 1))) by lia.
Qed.

Lemma zdrop_drop {A} n (l : list A) : zdrop n l = drop (Z.to_nat n) l.
Proof.
  revert n. induction l as [|x l IH]; intros n; simpl; [by destruct (Z.to_nat n)|].
  destruct (n <=? 0) eqn:E; simp_bool.
  - by replace (Z.to_nat n) with O by lia.
  - rewrite IH. by replace (Z.to_nat n) with (S (Z.to_nat (n - 1))) by lia.
Qed.

Lemma slice_len {A} (l : list A) a b :
  0 ≤ a ≤ b → zlen (slice l a b) = Z.max 0 (Z.min (b - a) (zlen l - a)).
Proof.
  intros H. unfold slice, zlen. rewrite ztake_take, zdrop_drop, length_take, length_drop. lia.
Qed.

Lemma zlen_app {A} (l k : list A) : zlen (l ++ k) = zlen l + zlen k.
Proof. unfold zlen. rewrite length_app. lia. Qed.

Lemma zlen_nonneg {A} (l : list A) : 0 ≤ zlen l.
Proof. unfold zlen. lia. Qed.

(** The middle part of a buffer. *)
Lemma slice_middle {A} (p m s : list A) : slice (p ++ m ++ s) (zlen p) (zlen p + zlen m) = m.
Proof.
  unfold slice, zlen. rewrite ztake_take, zdrop_drop.
  replace (Z.to_nat (Z.of_nat (length p))) with (length p) by lia. rewrite drop_app_length.
  replace (Z.to_nat (Z.of_nat (length p) + Z.of_nat (length m) - Z.of_nat (length p))) with (length m) by lia.
  by rewrite take_app_length.
Qed.

Lemma byte_val_bound b : 0 ≤ byte_val b < 256.
Proof. unfold byte_val. pose proof (N_ascii_bounded b). lia. Qed.

Lemma be_val_nonneg l : 0 ≤ be_val l.
Proof.
  unfold be_val. assert (H : ∀ acc, 0 ≤ acc → 0 ≤ foldl (λ acc b, acc * 256 + byte_val b) acc l).
  { induction l as [|b l IH]; intros acc Hacc; simpl; [done|]. apply IH. pose proof (byte_val_bound b). lia. }
  by apply H.
Qed.

Lemma unpack_inside w data o :
  0 ≤ o → 0 ≤ w → o + w ≤ zlen data → ∃ v, unpack w data o = HOk v ∧ 0 ≤ v.
Proof.
  intros Ho Hw Hlen. unfold unpack. rewrite slice_len by lia.
  destruct (_ <? w) eqn:E; simp_bool; [lia|]. eexists. split; [done|]. apply be_val_nonneg.
Qed.

Lemma round8_bounds n : 0 ≤ n → n ≤ round8 n < n + 8.
Proof.
  intros Hn. unfold round8.
  assert (E : Z.land (n + 7) (Z.lnot 7) = (n + 7) - (n + 7) mod 8).
  { change 7 with (Z.ones 3) at 2. rewrite <-Z.ldiff_land, Z.ldiff_ones_r by lia.
    rewrite Z.shiftl_mul_pow2, Z.shiftr_div_pow2 by lia. change (2 ^ 3) with 8.
    pose proof (Z.div_mod (n + 7) 8). lia. }
  rewrite E. pose proof (Z.mod_pos_bound (n + 7) 8). lia.
Qed.

(** What a parser may answer: a value or its own error. *)
Definition well_behaved {A} (r : hres A) : Prop := r ≠ HErr StructError.

Lemma error_well_behaved {A B} e : well_behaved (@HErr A e) → well_behaved (@HErr B e).
Proof. intros H [= ->]. by apply H. Qed.

Lemma decode_well_behaved raw what : well_behaved (_decode raw what).
Proof. unfold _decode, refuse. by repeat case_match. Qed.

Lemma extensions_total fuel data stop o f :
  0 ≤ o → stop ≤ zlen data → (0 < fuel)%nat → stop - o < 8 * Z.of_nat fuel →
  ∃ r, extensions fuel data stop o f = Some r ∧ well_behaved r.
Proof.
  revert o f. induction fuel as [|fuel IH]; intros o f Ho Hlen Hpos Hfuel; [lia|]. cbn [extensions].
  destruct (stop <? o + 8) eqn:E; simp_bool; [by eexists|].
  destruct (unpack_inside 4 data o) as (t & -> & Ht); [lia..|].
  destruct (unpack_inside 4 data (o + 4)) as (n & -> & Hn); [lia..|].
  destruct (t =? EXT_END); [by eexists|]. destruct (stop <? o + 8 + n) eqn:E2; simp_bool; [by eexists|].
  pose proof (round8_bounds n Hn) as Hr.
  destruct (t =? EXT_BACKING_FORMAT); [|apply IH; lia].
  pose proof (decode_well_behaved (slice data (o + 8) (o + 8 + n)) "backing format").
  destruct (_decode _ _) as [text|e]; [apply IH; lia|]. exists (HErr e). split; [done|].
  by eapply error_well_behaved.
Qed.

Lemma zlen_ljust n data : 0 ≤ n → n ≤ zlen (ljust n data).
Proof. intros Hn. unfold ljust. rewrite zlen_app. unfold zlen at 2. rewrite length_replicate. pose proof (zlen_nonneg data). lia. Qed.

Lemma zlen_ztake {A} n (l : list A) : 0 ≤ n → zlen (ztake n l) = Z.min n (zlen l).
Proof. intros Hn. unfold zlen. rewrite ztake_take, length_take. lia. Qed.

Lemma shiftl_cluster bits : 9 ≤ bits ≤ 21 → 512 ≤ Z.shiftl 1 bits ≤ 2097152.
Proof.
  intros H. rewrite Z.shiftl_mul_pow2, Z.mul_1_l by lia.
  pose proof (Z.pow_le_mono_r 2 9 bits). pose proof (Z.pow_le_mono_r 2 bits 21).
  change (2 ^ 9) with 512 in *. change (2 ^ 21) with 2097152 in *. lia.
Qed.

Lemma features_well_behaved v c head :
  well_behaved (read_features v c head) ∧
  ∀ n d k, read_features v c head = HOk (n, d, k) → 0 ≤ n.
Proof.
  unfold read_features. destruct (v =? 2); [by split; [|intros ??? [= <- _ _]]|].
  destruct (zlen head <? 104) eqn:E; simp_bool; [done|].
  destruct (unpack_inside 8 head 72) as (i & -> & Hi); [lia..|]. cbn [mbind hres_bind].
  destruct (negb _); [done|].
  destruct (unpack_inside 4 head 100) as (n & -> & Hn); [lia..|]. cbn [mbind hres_bind].
  destruct (_ || _); [done|]. split; [done|]. by intros ??? [= <- _ _].
Qed.

Lemma backing_well_behaved data o n : well_behaved (read_backing data o n).
Proof.
  unfold read_backing. destruct (o =? 0); [done|]. destruct (negb _); [done|].
  pose proof (decode_well_behaved (slice data o (o + n)) "backing file name").
  destruct (_decode _ _); [done|]. by eapply error_well_behaved.
Qed.

Lemma variable_well_behaved file head v o n c size :
  0 ≤ o → 0 ≤ n → 0 ≤ c →
  well_behaved (read_variable file head v o n c size) ∧
  ∀ fx, read_variable file head v o n c size = HOk fx → 0 ≤ fx_header_length fx ∧ 0 ≤ fx_ext_end fx.
Proof.
  intros Ho Hn Hc. unfold read_variable. set (head' := if v =? 2 then _ else _).
  destruct (features_well_behaved v c head') as [Hf Hpos].
  destruct (read_features v c head') as [[[hl d] k]|e]; cbn [mbind hres_bind]; [|by split; [eapply error_well_behaved|]].
  assert (Hcheck : well_behaved (check_backing o n c)) by (unfold check_backing; by repeat case_match).
  destruct (check_backing o n c) as [[]|e]; cbn [mbind hres_bind]; [|by split; [eapply error_well_behaved|]].
  set (data := ztake _ file). pose proof (backing_well_behaved data o n) as Hb.
  destruct (read_backing data o n) as [b|e]; cbn [mbind hres_bind]; [|by split; [eapply error_well_behaved|]].
  split; [done|]. intros fx [= <-]. cbn [fx_header_length fx_ext_end].
  split; [by eapply Hpos|]. by destruct (o =? 0).
Qed.

Lemma fixed_well_behaved file :
  well_behaved (read_fixed file) ∧
  ∀ fx, read_fixed file = HOk fx → 0 ≤ fx_header_length fx ∧ 0 ≤ fx_ext_end fx.
Proof.
  unfold read_fixed. set (head := ztake V2_HEADER_LENGTH file).
  destruct (zlen head <? V2_HEADER_LENGTH) eqn:E0; [done|]. simp_bool. unfold V2_HEADER_LENGTH in E0.
  destruct (negb _); [done|].
  destruct (unpack_inside 4 head 4) as (v & -> & _); [lia..|].
  destruct (unpack_inside 8 head 8) as (o & -> & Ho); [lia..|].
  destruct (unpack_inside 4 head 16) as (n & -> & Hn); [lia..|].
  destruct (unpack_inside 4 head 20) as (bits & -> & _); [lia..|].
  destruct (unpack_inside 8 head 24) as (size & -> & _); [lia..|]. cbn [mbind hres_bind].
  destruct (negb ((v =? 2) || (v =? 3))); [done|].
  destruct (negb ((9 <=? bits) && (bits <=? 21))) eqn:Eb; [done|]. simp_bool.
  pose proof (shiftl_cluster bits ltac:(lia)). apply variable_well_behaved; lia.
Qed.

(** C39: The header reader answers on every file, whatever its bytes: it returns a
    header or raises its own error; no field is read outside the buffer, and the
    loop over the extensions always ends. *)
Theorem read_header_is_total file :
  ∃ r, read_header file = Some r ∧ well_behaved r.
Proof.
  unfold read_header. destruct (fixed_well_behaved file) as [Hw Hpos].
  destruct (read_fixed file) as [fx|e]; [|exists (HErr e); split; [done|by eapply error_well_behaved]].
  destruct (Hpos fx eq_refl) as [Hl He]. destruct (fx_header_length fx <? fx_ext_end fx) eqn:E; [|by eexists].
  simp_bool. unfold _read_extensions.
  set (n := Z.to_nat ((fx_ext_end fx - fx_header_length fx) / 8)).
  destruct (extensions_total (S n) (ljust (fx_ext_end fx) (fx_data fx)) (fx_ext_end fx) (fx_header_length fx) None)
    as (r & -> & Hr); [done|by apply zlen_ljust|lia| |].
  - pose proof (Z.div_mod (fx_ext_end fx - fx_header_length fx) 8).
    pose proof (Z.mod_pos_bound (fx_ext_end fx - fx_header_length fx) 8).
    pose proof (Z.div_pos (fx_ext_end fx - fx_header_length fx) 8). lia.
  - destruct r as [f|e]; eexists; (split; [done|]); [done|]. by eapply error_well_behaved.
Qed.

(** ** The format

    A reference writer of the first cluster of an image, from the layout of the
    qcow2 format: magic, fixed fields, the version 3 fields, the extensions, the
    end marker, and the name of the backing file right after. *)
Fixpoint be (width : nat) (v : Z) : list ascii :=
  match width with
  | O => []
  | S w => be w (v / 256) ++ [ascii_of_N (Z.to_N (v mod 256))]
  end.

Record image := mkImage {
  im_version : Z;
  im_cluster_bits : Z;
  im_virtual_size : Z;
  im_middle : list ascii;        (** the fields from offset 32 to 72 *)
  im_features : Z;               (** incompatible features, version 3 *)
  im_filler : list ascii;        (** the fields from offset 80 to 100 *)
  im_extensions : list (Z * list ascii);
  im_backing : option (list ascii);
}.

Definition encode_ext (e : Z * list ascii) : list ascii :=
  be 4 e.1 ++ be 4 (zlen e.2) ++ e.2 ++ replicate (Z.to_nat (round8 (zlen e.2) - zlen e.2)) NUL.

Definition encode_exts (l : list (Z * list ascii)) : list ascii := concat (encode_ext <$> l) ++ be 4 0 ++ be 4 0.

Definition header_len (im : image) : Z := if im_version im =? 2 then 72 else 104.

Definition backing_offset_of (im : image) : Z :=
  match im_backing im with
  | None => 0
  | Some _ => header_len im + zlen (encode_exts (im_extensions im))
  end.

Definition encode (im : image) : list ascii :=
  QCOW2_MAGIC ++ be 4 (im_version im) ++ be 8 (backing_offset_of im)
  ++ be 4 (zlen (default [] (im_backing im))) ++ be 4 (im_cluster_bits im) ++ be 8 (im_virtual_size im)
  ++ im_middle im
  ++ (if im_version im =? 2 then [] else be 8 (im_features im) ++ im_filler im ++ be 4 104)
  ++ encode_exts (im_extensions im) ++ default [] (im_backing im).

Definition clean_text (raw : list ascii) : bool := negb (existsb (Ascii.eqb NUL) raw) && utf8_valid raw.

Definition good_ext (e : Z * list ascii) : Prop :=
  0 < e.1 < 2 ^ 32 ∧ (e.1 = EXT_BACKING_FORMAT → clean_text e.2 = true).

Record good_image (im : image) : Prop := {
  gi_version : im_version im = 2 ∨ im_version im = 3;
  gi_bits : 9 ≤ im_cluster_bits im ≤ 21;
  gi_size : 0 ≤ im_virtual_size im < 2 ^ 64;
  gi_middle : zlen (im_middle im) = 40;
  gi_features : 0 ≤ im_features im < 32;
  gi_filler : zlen (im_filler im) = 20;
  gi_exts : Forall good_ext (im_extensions im);
  gi_backing : ∀ b, im_backing im = Some b → 0 < zlen b ≤ 1023 ∧ clean_text b = true;
  gi_fits : header_len im + zlen (encode_exts (im_extensions im)) + zlen (default [] (im_backing im))
            ≤ Z.shiftl 1 (im_cluster_bits im);
}.

(** The format named by the last such extension. *)
Definition format_step (f : option string) (e : Z * list ascii) : option string :=
  if e.1 =? EXT_BACKING_FORMAT then Some (text_of e.2) else f.

Definition header_of (im : image) : Qcow2Header :=
  mkQcow2Header (im_version im) (text_of <$> im_backing im)
    (foldl format_step None (im_extensions im)) (im_virtual_size im)
    ((im_version im =? 3) && Z.testbit (im_features im) 0)
    ((im_version im =? 3) && Z.testbit (im_features im) 1).

Lemma be_length w v : zlen (be w v) = Z.of_nat w.
Proof. revert v. induction w as [|w IH]; intros v; [done|]. cbn [be]. rewrite zlen_app, IH. unfold zlen. simpl. lia. Qed.

Lemma be_val_app l b : be_val (l ++ [b]) = be_val l * 256 + byte_val b.
Proof. unfold be_val. by rewrite foldl_app. Qed.

Lemma be_val_be w v : 0 ≤ v < 256 ^ Z.of_nat w → be_val (be w v) = v.
Proof.
  revert v. induction w as [|w IH]; intros v Hv; [change (256 ^ Z.of_nat 0) with 1 in Hv; unfold be_val; simpl; lia|].
  cbn [be]. rewrite be_val_app. rewrite Nat2Z.inj_succ, Z.pow_succ_r in Hv by lia.
  pose proof (Z.div_mod v 256 ltac:(lia)). pose proof (Z.mod_pos_bound v 256 ltac:(lia)).
  rewrite IH.
  - unfold byte_val. rewrite N_ascii_embedding by lia. rewrite Z2N.id by lia. lia.
  - split; [apply Z.div_pos; lia|]. apply Z.div_lt_upper_bound; lia.
Qed.

Lemma unpack_be p w v s o n :
  zlen p = o → Z.of_nat w = n → 0 ≤ v < 256 ^ n → unpack n (p ++ be w v ++ s) o = HOk v.
Proof.
  intros <- <- Hv. unfold unpack.
  assert (slice (p ++ be w v ++ s) (zlen p) (zlen p + Z.of_nat w) = be w v) as ->.
  { rewrite <-(be_length w v). apply slice_middle. }
  rewrite be_length, Z.ltb_irrefl. by rewrite be_val_be.
Qed.

Lemma zlen_replicate {A} n (x : A) : 0 ≤ n → zlen (replicate (Z.to_nat n) x) = n.
Proof. intros Hn. unfold zlen. rewrite length_replicate. lia. Qed.

Lemma encode_ext_len e : zlen (encode_ext e) = 8 + round8 (zlen e.2).
Proof.
  unfold encode_ext. rewrite !zlen_app, !be_length. unfold zlen at 2. rewrite length_replicate.
  pose proof (round8_bounds (zlen e.2) (zlen_nonneg _)). lia.
Qed.

Lemma encode_exts_cons e l :
  encode_exts (e :: l) = be 4 e.1 ++ be 4 (zlen e.2) ++ e.2
    ++ replicate (Z.to_nat (round8 (zlen e.2) - zlen e.2)) NUL ++ encode_exts l ∧
  zlen (encode_exts (e :: l)) = 8 + round8 (zlen e.2) + zlen (encode_exts l).
Proof.
  split.
  - unfold encode_exts. cbn [fmap list_fmap concat]. unfold encode_ext at 1. by rewrite <-!app_assoc.
  - rewrite <-encode_ext_len. unfold encode_exts. cbn [fmap list_fmap concat]. rewrite !zlen_app. lia.
Qed.

Lemma decode_clean raw what : clean_text raw = true → _decode raw what = HOk (text_of raw).
Proof. unfold clean_text, _decode. intros H. simp_bool. by rewrite H, H0. Qed.

(** The loop reads back the extensions the writer laid out. *)
Lemma extensions_encode fuel l p s stop f :
  Forall good_ext l → (length l < fuel)%nat → zlen (encode_exts l) < 2 ^ 32 →
  zlen p + zlen (encode_exts l) ≤ stop →
  extensions fuel (p ++ encode_exts l ++ s) stop (zlen p) f = Some (HOk (foldl format_step f l)).
Proof.
  revert fuel p f. induction l as [|e l IH]; intros fuel p f Hgood Hfuel Hbig Hstop;
    (destruct fuel as [|fuel]; [simpl in Hfuel; lia|]); cbn [extensions].
  - unfold encode_exts in *. cbn [fmap list_fmap concat app] in *. rewrite zlen_app, !be_length in Hstop.
    destruct (stop <? zlen p + 8) eqn:E; simp_bool; [lia|].
    rewrite <-!app_assoc. rewrite (unpack_be p 4 0) by done.
    rewrite (app_assoc p (be 4 0)), (unpack_be (p ++ be 4 0) 4 0) by (rewrite ?zlen_app, ?be_length; done). done.
  - apply Forall_cons in Hgood as [[Ht Hclean] Hgood].
    pose proof (encode_exts_cons e l) as [Hcons Hlen].
    pose proof (round8_bounds (zlen e.2) (zlen_nonneg _)). pose proof (zlen_nonneg (encode_exts l)).
    pose proof (zlen_nonneg e.2).
    destruct (stop <? zlen p + 8) eqn:E; simp_bool; [lia|].
    set (pad := replicate _ NUL) in *.
    rewrite Hcons, <-!app_assoc, (unpack_be p 4 e.1) by (done || (change (256 ^ 4) with (2 ^ 32); lia)).
    rewrite (app_assoc p (be 4 e.1)), (unpack_be (p ++ be 4 e.1) 4 (zlen e.2))
      by (rewrite ?zlen_app, ?be_length; done || (change (256 ^ 4) with (2 ^ 32); lia)).
    destruct (e.1 =? EXT_END) eqn:E1; simp_bool; [unfold EXT_END in *; lia|].
    destruct (stop <? zlen p + 8 + zlen e.2) eqn:E2; simp_bool; [lia|].
    set (q := (p ++ be 4 e.1) ++ be 4 (zlen e.2)).
    assert (Hq : zlen q = zlen p + 8) by (unfold q; rewrite !zlen_app, !be_length; lia).
    assert (Hdata : (p ++ be 4 e.1) ++ be 4 (zlen e.2) ++ e.2 ++ pad ++ encode_exts l ++ s
                    = (q ++ e.2 ++ pad) ++ encode_exts l ++ s) by (unfold q; by rewrite <-!app_assoc).
    assert (Hnext : zlen p + 8 + round8 (zlen e.2) = zlen (q ++ e.2 ++ pad)).
    { unfold pad. rewrite !zlen_app, Hq, zlen_replicate; lia. }
    assert (Hslice : slice ((p ++ be 4 e.1) ++ be 4 (zlen e.2) ++ e.2 ++ pad ++ encode_exts l ++ s)
                       (zlen p + 8) (zlen p + 8 + zlen e.2) = e.2).
    { rewrite <-Hq. rewrite (app_assoc (p ++ be 4 e.1)). fold q. apply slice_middle. }
    rewrite Hslice, Hnext, Hdata. cbn [foldl]. unfold format_step at 2.
    simpl in Hfuel. rewrite Hlen in *.
    destruct (e.1 =? EXT_BACKING_FORMAT) eqn:E3; simp_bool.
    + rewrite decode_clean by auto. apply IH; [done|lia|lia|]. rewrite <-Hnext. lia.
    + apply IH; [done|lia|lia|]. rewrite <-Hnext. lia.
Qed.

(** The first 72 bytes, and the 32 of version 3. *)
Definition head72 (im : image) : list ascii :=
  QCOW2_MAGIC ++ be 4 (im_version im) ++ be 8 (backing_offset_of im)
  ++ be 4 (zlen (default [] (im_backing im))) ++ be 4 (im_cluster_bits im) ++ be 8 (im_virtual_size im)
  ++ im_middle im.
Definition head_v3 (im : image) : list ascii :=
  if im_version im =? 2 then [] else be 8 (im_features im) ++ im_filler im ++ be 4 104.

Lemma encode_split im :
  encode im = head72 im ++ head_v3 im ++ encode_exts (im_extensions im) ++ default [] (im_backing im).
Proof. unfold encode, head72, head_v3. by rewrite <-!app_assoc. Qed.

Lemma header_len_pos im : 72 ≤ header_len im ≤ 104.
Proof. unfold header_len. destruct (_ =? _); lia. Qed.

Section good.
Context (im : image) (G : good_image im).

Lemma head72_len : zlen (head72 im) = 72.
Proof. unfold head72. rewrite !zlen_app, !be_length, (gi_middle _ G). done. Qed.

Lemma head_len : zlen (head72 im ++ head_v3 im) = header_len im.
Proof.
  rewrite zlen_app, head72_len. unfold head_v3, header_len. destruct (im_version im =? 2); [done|].
  rewrite !zlen_app, !be_length, (gi_filler _ G). done.
Qed.

Lemma exts_len_pos l : 8 * (Z.of_nat (length l) + 1) ≤ zlen (encode_exts l).
Proof.
  clear. induction l as [|e l IH]; [done|]. rewrite (proj2 (encode_exts_cons e l)).
  pose proof (round8_bounds (zlen e.2) (zlen_nonneg _)). pose proof (zlen_nonneg e.2). simpl length. lia.
Qed.

Lemma cluster_bound : Z.shiftl 1 (im_cluster_bits im) ≤ 2097152.
Proof. apply shiftl_cluster, G. Qed.

Lemma offset_bound : 0 ≤ backing_offset_of im ≤ 2097152.
Proof.
  pose proof cluster_bound. pose proof (gi_fits _ G). pose proof (zlen_nonneg (default [] (im_backing im))).
  pose proof (exts_len_pos (im_extensions im)). unfold backing_offset_of, header_len in *.
  destruct (im_backing im), (im_version im =? 2); lia.
Qed.

Lemma backing_len : 0 ≤ zlen (default [] (im_backing im)) ≤ 1023.
Proof. pose proof (gi_backing _ G) as Hb. destruct (im_backing im) as [b|]; [|done]. destruct (Hb b eq_refl).
  change (default [] (Some b)) with b. lia. Qed.

(** The five fields of the fixed header. *)
Lemma fixed_fields :
  unpack 4 (head72 im) 4 = HOk (im_version im) ∧
  unpack 8 (head72 im) 8 = HOk (backing_offset_of im) ∧
  unpack 4 (head72 im) 16 = HOk (zlen (default [] (im_backing im))) ∧
  unpack 4 (head72 im) 20 = HOk (im_cluster_bits im) ∧
  unpack 8 (head72 im) 24 = HOk (im_virtual_size im).
Proof.
  pose proof offset_bound. pose proof backing_len. pose proof (gi_bits _ G). pose proof (gi_size _ G).
  assert (0 ≤ im_version im < 4) by (destruct (gi_version _ G); lia).
  unfold head72. split_and!.
  - by apply unpack_be; [..|change (256 ^ 4) with 4294967296; lia].
  - rewrite (app_assoc QCOW2_MAGIC). apply unpack_be; [by rewrite zlen_app, be_length|done|].
    change (256 ^ 8) with 18446744073709551616. lia.
  - rewrite !(app_assoc QCOW2_MAGIC), (app_assoc (_ ++ _) (be 8 (backing_offset_of im))).
    apply unpack_be; [by rewrite !zlen_app, !be_length|done|]. change (256 ^ 4) with 4294967296. lia.
  - rewrite !(app_assoc QCOW2_MAGIC), (app_assoc (_ ++ _) (be 8 (backing_offset_of im))),
      (app_assoc (_ ++ _) (be 4 (zlen _))).
    apply unpack_be; [by rewrite !zlen_app, !be_length|done|]. change (256 ^ 4) with 4294967296. lia.
  - rewrite !(app_assoc QCOW2_MAGIC), (app_assoc (_ ++ _) (be 8 (backing_offset_of im))),
      (app_assoc (_ ++ _) (be 4 (zlen _))), (app_assoc (_ ++ _) (be 4 (im_cluster_bits im))).
    apply unpack_be; [by rewrite !zlen_app, !be_length|done|]. change (256 ^ 8) with 18446744073709551616. lia.
Qed.

Lemma features_bits f :
  0 ≤ f < 32 →
  Z.land f (Z.lnot KNOWN_INCOMPATIBLE) = 0 ∧
  negb (Z.land f INCOMPAT_DIRTY =? 0) = Z.testbit f 0 ∧ negb (Z.land f INCOMPAT_CORRUPT =? 0) = Z.testbit f 1.
Proof.
  clear. intros Hf.
  assert (H : Forall (λ f, Z.land f (Z.lnot KNOWN_INCOMPATIBLE) = 0 ∧
    negb (Z.land f INCOMPAT_DIRTY =? 0) = Z.testbit f 0 ∧ negb (Z.land f INCOMPAT_CORRUPT =? 0) = Z.testbit f 1)
    (seqZ 0 32)) by (vm_compute; repeat constructor).
  rewrite Forall_forall in H. apply H. apply elem_of_seqZ. lia.
Qed.

Lemma read_features_encode :
  read_features (im_version im) (Z.shiftl 1 (im_cluster_bits im))
    (if im_version im =? 2 then head72 im else head72 im ++ head_v3 im) =
  HOk (header_len im, (im_version im =? 3) && Z.testbit (im_features im) 0,
       (im_version im =? 3) && Z.testbit (im_features im) 1).
Proof.
  pose proof (shiftl_cluster _ (gi_bits _ G)). pose proof (gi_features _ G) as Hf.
  unfold read_features, header_len, head_v3. destruct (gi_version _ G) as [-> | ->]; [done|].
  change (3 =? 2) with false. change (3 =? 3) with true. cbv iota.
  set (v3 := be 8 (im_features im) ++ im_filler im ++ be 4 104).
  assert (Hlen : zlen (head72 im ++ v3) = 104).
  { unfold v3. rewrite !zlen_app, head72_len, !be_length, (gi_filler _ G). done. }
  rewrite Hlen. change (104 <? 104) with false. cbv iota. unfold v3 at 1 2.
  rewrite (unpack_be (head72 im) 8 (im_features im) _ 72 8); [|by rewrite head72_len|done|change (256 ^ 8) with 18446744073709551616; lia].
  cbn [mbind hres_bind]. destruct (features_bits _ Hf) as (-> & -> & ->). cbn [negb Z.eqb].
  rewrite (app_assoc (head72 im)), (app_assoc (head72 im ++ _) (im_filler im)).
  rewrite <-(app_nil_r (be 4 104)), (unpack_be _ 4 104)
    by (rewrite ?zlen_app, ?head72_len, ?be_length, ?(gi_filler _ G); done).
  cbn [mbind hres_bind]. destruct (_ || _) eqn:E; [|done]. apply orb_true_iff in E as [E|E]; simp_bool; lia.
Qed.

(** The buffer the extensions are read from: the header, the extensions, and
    what follows them up to the end of the area. *)
Lemma area_of_file n m rest :
  header_len im + zlen (encode_exts (im_extensions im)) ≤ m →
  ∃ s, ljust n (ztake m (encode im ++ rest))
       = (head72 im ++ head_v3 im) ++ encode_exts (im_extensions im) ++ s.
Proof.
  intros Hn. rewrite encode_split. set (a := head72 im ++ head_v3 im). set (x := encode_exts _) in *.
  pose proof head_len as Ha. fold a in Ha. unfold ljust. rewrite ztake_take.
  replace ((head72 im ++ head_v3 im ++ x ++ default [] (im_backing im)) ++ rest)
    with ((a ++ x) ++ default [] (im_backing im) ++ rest) by (unfold a; by rewrite <-!app_assoc).
  rewrite take_app_ge by (rewrite length_app; unfold zlen in *; lia). rewrite <-!app_assoc. eauto.
Qed.

Lemma read_backing_encode n rest :
  (∀ b, im_backing im = Some b → backing_offset_of im + zlen b ≤ n) →
  read_backing (ztake n (encode im ++ rest)) (backing_offset_of im) (zlen (default [] (im_backing im)))
  = HOk (text_of <$> im_backing im).
Proof.
  intros Hn. unfold read_backing. pose proof (gi_backing _ G) as Hb.
  pose proof head_len as Ha. pose proof (exts_len_pos (im_extensions im)).
  rewrite encode_split. unfold backing_offset_of in *. destruct (im_backing im) as [b|]; [|done].
  specialize (Hn b eq_refl). destruct (Hb b eq_refl) as [Hlen Hclean]. change (default [] (Some b)) with b.
  set (a := head72 im ++ head_v3 im) in *. set (x := encode_exts _) in *.
  pose proof (header_len_pos im).
  destruct (header_len im + zlen x =? 0) eqn:E; simp_bool; [lia|].
  replace ((head72 im ++ head_v3 im ++ x ++ b) ++ rest) with ((a ++ x ++ b) ++ rest) by (unfold a; by rewrite <-!app_assoc).
  rewrite ztake_take, take_app_ge by (rewrite !length_app; unfold zlen in *; lia).
  assert (Hs : ∀ s, slice ((a ++ x ++ b) ++ s) (header_len im + zlen x) (header_len im + zlen x + zlen b) = b).
  { intros s. rewrite <-Ha, <-zlen_app, (app_assoc a x), <-app_assoc. apply slice_middle. }
  rewrite Hs, Z.eqb_refl. cbn [negb]. by rewrite decode_clean.
Qed.

Lemma check_backing_encode :
  check_backing (backing_offset_of im) (zlen (default [] (im_backing im))) (Z.shiftl 1 (im_cluster_bits im)) = HOk tt.
Proof.
  unfold check_backing, backing_offset_of. pose proof (gi_backing _ G) as Hb. pose proof (gi_fits _ G) as Hfit.
  destruct (im_backing im) as [b|]; [|done]. destruct (Hb b eq_refl) as [Hlen _].
  change (default [] (Some b)) with b in *. destruct (_ =? 0); [done|].
  destruct ((zlen b =? 0) || (MAX_BACKING_NAME <? zlen b)) eqn:E.
  - unfold MAX_BACKING_NAME in E. apply orb_true_iff in E as [E|E]; simp_bool; lia.
  - rewrite (proj2 (Z.ltb_ge _ _)) by lia. done.
Qed.

Lemma file_head rest : ztake V2_HEADER_LENGTH (encode im ++ rest) = head72 im.
Proof.
  rewrite encode_split, <-app_assoc, ztake_take.
  replace (Z.to_nat V2_HEADER_LENGTH) with (length (head72 im)); [by rewrite take_app_length|].
  pose proof head72_len. unfold zlen, V2_HEADER_LENGTH in *. lia.
Qed.

Lemma file_v3 rest :
  (if im_version im =? 2 then head72 im
   else head72 im ++ ztake (104 - V2_HEADER_LENGTH) (zdrop V2_HEADER_LENGTH (encode im ++ rest)))
  = if im_version im =? 2 then head72 im else head72 im ++ head_v3 im.
Proof.
  destruct (im_version im =? 2) eqn:E; [done|]. f_equal. rewrite encode_split, <-!app_assoc, zdrop_drop.
  pose proof head72_len. pose proof head_len as Hl. rewrite zlen_app, head72_len in Hl. unfold header_len in Hl.
  rewrite E in Hl.
  replace (Z.to_nat V2_HEADER_LENGTH) with (length (head72 im)) by (unfold zlen, V2_HEADER_LENGTH in *; lia).
  rewrite drop_app_length, ztake_take.
  replace (Z.to_nat (104 - V2_HEADER_LENGTH)) with (length (head_v3 im)); [by rewrite take_app_length|].
  unfold zlen, V2_HEADER_LENGTH in *. lia.
Qed.

(** The end of the area of the extensions, and the bytes read. *)
Lemma area_bounds :
  let o := backing_offset_of im in
  let n := zlen (default [] (im_backing im)) in
  let stop := if o =? 0 then Z.shiftl 1 (im_cluster_bits im) else o in
  header_len im + zlen (encode_exts (im_extensions im)) ≤ stop ∧
  (∀ b, im_backing im = Some b → o + zlen b ≤ Z.max stop (o + n)).
Proof.
  cbv zeta. pose proof (gi_fits _ G) as Hfit. pose proof (zlen_nonneg (default [] (im_backing im))).
  pose proof (exts_len_pos (im_extensions im)). unfold backing_offset_of.
  pose proof (header_len_pos im).
  destruct (im_backing im) as [b|]; change (default [] None) with (@nil ascii) in *.
  - change (default [] (Some b)) with b in *. split; [|intros ? [= <-]; lia]. destruct (_ =? 0) eqn:E; simp_bool; lia.
  - split; [|done]. change (0 =? 0) with true. cbv iota. lia.
Qed.

Lemma read_fixed_encode rest :
  ∃ fx, read_fixed (encode im ++ rest) = HOk fx ∧
    (∀ f, fx_header fx f = mkQcow2Header (im_version im) (text_of <$> im_backing im) f (im_virtual_size im)
            ((im_version im =? 3) && Z.testbit (im_features im) 0)
            ((im_version im =? 3) && Z.testbit (im_features im) 1)) ∧
    fx_header_length fx = header_len im ∧
    header_len im + zlen (encode_exts (im_extensions im)) ≤ fx_ext_end fx ∧
    ∃ s, ljust (fx_ext_end fx) (fx_data fx)
         = (head72 im ++ head_v3 im) ++ encode_exts (im_extensions im) ++ s.
Proof.
  unfold read_fixed. rewrite file_head, head72_len. change (72 <? V2_HEADER_LENGTH) with false. cbv iota.
  assert (Hmagic : slice (head72 im) 0 4 = QCOW2_MAGIC).
  { unfold head72. change QCOW2_MAGIC with ([] ++ QCOW2_MAGIC) at 1. rewrite <-app_assoc. apply (slice_middle [] QCOW2_MAGIC). }
  rewrite Hmagic. unfold bytes_eqb. rewrite bool_decide_true by done. cbn [negb].
  destruct fixed_fields as (-> & -> & -> & -> & ->). cbn [mbind hres_bind].
  assert (Hver : negb ((im_version im =? 2) || (im_version im =? 3)) = false)
    by (destruct (gi_version _ G) as [-> | ->]; done). rewrite Hver.
  assert (Hbits : negb ((9 <=? im_cluster_bits im) && (im_cluster_bits im <=? 21)) = false).
  { apply negb_false_iff, andb_true_iff. rewrite !Z.leb_le. apply G. } rewrite Hbits.
  unfold read_variable. rewrite file_v3, read_features_encode. cbn [mbind hres_bind].
  rewrite check_backing_encode. cbn [mbind hres_bind]. destruct area_bounds as [Hstop Hback].
  rewrite read_backing_encode by exact Hback. cbn [mbind hres_bind].
  eexists. split; [done|]. cbn [fx_header fx_header_length fx_ext_end fx_data].
  split_and!; [done|done|exact Hstop|]. apply area_of_file. lia.
Qed.
End good.

(** C37: The reader is a left inverse of the format: of every image laid out as the
    qcow2 format prescribes, with any extensions, any backing file that fits the
    first cluster and any bytes after it, it returns exactly the version, the
    backing file, the backing format, the virtual size and the two state bits. *)
Theorem read_header_reads_back_the_image im rest :
  good_image im → read_header (encode im ++ rest) = Some (HOk (header_of im)).
Proof.
  intros G. destruct (read_fixed_encode im G rest) as (fx & Hrun & Hfx & Hl & Hend & s & Harea).
  pose proof (exts_len_pos (im_extensions im)) as Hx. unfold read_header. rewrite Hrun, Hl.
  rewrite (proj2 (Z.ltb_lt _ _)) by lia.
  assert (Hr : _read_extensions (ljust (fx_ext_end fx) (fx_data fx)) (header_len im) (fx_ext_end fx)
               = Some (HOk (foldl format_step None (im_extensions im)))).
  { unfold _read_extensions. rewrite Harea, <-(head_len im G). pose proof (head_len im G) as Hh.
    apply extensions_encode; [apply G| | |lia].
    - assert (Z.of_nat (length (im_extensions im)) < (fx_ext_end fx - zlen (head72 im ++ head_v3 im)) / 8 + 1); [|lia].
      assert (Z.of_nat (length (im_extensions im)) + 1 ≤ (fx_ext_end fx - zlen (head72 im ++ head_v3 im)) / 8); [|lia].
      apply Z.div_le_lower_bound; lia.
    - pose proof (cluster_bound im G). pose proof (gi_fits im G). pose proof (zlen_nonneg (default [] (im_backing im))).
      pose proof (header_len_pos im). change (2 ^ 32) with 4294967296. lia. }
  rewrite Hr, Hfx. done.
Qed.

(** A version 3 image with a backing file and its format, and one of version 2
    with neither. *)
Definition bytes_of (s : string) : list ascii := String.list_ascii_of_string s.
Definition ex_image : image :=
  mkImage 3 9 10737418240 (replicate 40 NUL) 1 (replicate 20 NUL)
    [(EXT_BACKING_FORMAT, bytes_of "qcow2"); (0x6803F857, replicate 48 NUL)] (Some (bytes_of "base.qcow2")).

Lemma read_header_reads_back_the_image_witness :
  read_header (encode ex_image ++ bytes_of "data")
  = Some (HOk (mkQcow2Header 3 (Some "base.qcow2") (Some "qcow2") 10737418240 true false)).
Proof.
  refine (read_header_reads_back_the_image ex_image (bytes_of "data") _).
  split; [by right|done|done|done|done|done| | |].
  - by repeat constructor.
  - intros b [= <-]. done.
  - vm_compute. discriminate.
Defined.
