(* ===== verification/QcowGeometry.v ===== *)
(** * The geometry of new images

    [component/_common/src/isardvdi_common/helpers/qcow2_geometry.py]: the
    installation-wide qcow2 policy, read from the environment of the process
    that enqueues, checked, and turned into the options of [qemu-img]. The
    values are strings, as the environment gives them; [Qcow2PolicyError] is a
    [ValueError]. *)
From Stdlib Require Import Ascii.
From S2P Require Import Prelude PyVal QcowHeader.

Definition KEYS : list string := ["cluster_size"; "extended_l2"; "lazy_refcounts"; "preallocation"].

Definition _ENV : list (string * string) :=
  [("cluster_size", "QCOW2_CLUSTER_SIZE"); ("extended_l2", "QCOW2_EXTENDED_L2");
   ("lazy_refcounts", "QCOW2_LAZY_REFCOUNTS"); ("preallocation", "QCOW2_PREALLOCATION")].

Definition _DEFAULTS : list (string * string) :=
  [("cluster_size", "128k"); ("extended_l2", "on"); ("lazy_refcounts", "off"); ("preallocation", "off")].

Definition _ON_OFF : list string := ["on"; "off"].
Definition _PREALLOCATION : list string := ["off"; "metadata"; "falloc"; "full"].
Definition _MIN_CLUSTER : Z := 512.
Definition _MAX_CLUSTER : Z := 2 * 1024 * 1024.
Definition _EXTENDED_L2_MIN_CLUSTER : Z := 16384.

(** A mapping from keys to texts. *)
Definition geometry := list (string * string).

Fixpoint filter_chars (P : ascii → bool) (s : string) : string :=
  match s with
  | EmptyString => EmptyString
  | String a s' => if P a then String a (filter_chars P s') else filter_chars P s'
  end.

Definition multipliers : list (string * Z) := [("K", 1024); ("M", 1024 ^ 2)]%Z.

Definition parse_cluster_size (value : string) : res Z :=
  let s := strip (upper value) in
  let digits := filter_chars is_digit s in
  let unit := filter_chars is_alpha s in
  if (digits =? "")%string then Raise ValueError
  else n ← int_of_string digits; Ok (n * default 1 (assoc unit multipliers))%Z.

(** [geometry.get(k) in (None, "")] *)
Definition absent (g : geometry) (k : string) : bool :=
  match assoc k g with None => true | Some v => (v =? "")%string end.

Definition field (g : geometry) (k : string) : string := default "" (assoc k g).

Definition validate (g : geometry) : res geometry :=
  if existsb (absent g) KEYS then Raise ValueError
  else if negb (mem (field g "extended_l2") _ON_OFF) then Raise ValueError
  else if negb (mem (field g "lazy_refcounts") _ON_OFF) then Raise ValueError
  else if negb (mem (field g "preallocation") _PREALLOCATION) then Raise ValueError
  else
    cluster ← parse_cluster_size (field g "cluster_size");
    if ((cluster <? _MIN_CLUSTER) || (_MAX_CLUSTER <? cluster)
        || negb (Z.land cluster (cluster - 1) =? 0))%Z then Raise ValueError
    else if (field g "extended_l2" =? "on")%string && (cluster <? _EXTENDED_L2_MIN_CLUSTER)%Z then Raise ValueError
    else Ok g.

(** [env.get(_ENV[k]) or _DEFAULTS[k]] *)
Definition env_value (env : string → option string) (k : string) : string :=
  match env (default "" (assoc k _ENV)) with
  | Some v => if (v =? "")%string then default "" (assoc k _DEFAULTS) else v
  | None => default "" (assoc k _DEFAULTS)
  end.

Definition from_env (env : string → option string) : res geometry :=
  validate ((λ k, (k, env_value env k)) <$> KEYS).

Definition env_sources (env : string → option string) : list (string * string) :=
  (λ k, (k, match env (default "" (assoc k _ENV)) with
            | Some v => if (v =? "")%string then "default" else "env"
            | None => "default"
            end)) <$> KEYS.

(** [policy()]: the memo of the process is the state. *)
Definition policy (env : string → option string) (cached : option geometry) : res geometry * option geometry :=
  match cached with
  | Some g => (Ok g, Some g)
  | None => match from_env env with
            | Ok g => (Ok g, Some g)
            | Raise e => (Raise e, None)
            end
  end.

Definition create_options (g : geometry) (has_backing_file : bool) (with_preallocation : option bool) : res string :=
  _ ← validate g;
  let options := "cluster_size=" +:+ field g "cluster_size" +:+ ",extended_l2=" +:+ field g "extended_l2"
                 +:+ ",lazy_refcounts=" +:+ field g "lazy_refcounts" in
  let pre := match with_preallocation with
             | None => negb has_backing_file || (field g "extended_l2" =? "on")%string
             | Some b => b
             end in
  Ok (if pre then options +:+ ",preallocation=" +:+ field g "preallocation" else options).

(** ** Lemmas *)
Lemma land_pred_pow2 x : (0 < x)%Z → Z.land x (x - 1) = 0%Z ↔ ∃ k, (0 ≤ k ∧ x = 2 ^ k)%Z.
Proof.
  intros Hx. split.
  - intros H. exists (Z.log2 x). split; [apply Z.log2_nonneg|].
    destruct (Z.log2_spec x Hx) as [Hlo Hhi]. destruct (decide (x = 2 ^ Z.log2 x)%Z) as [|Hne]; [done|].
    assert (Hl : Z.log2 (x - 1) = Z.log2 x).
    { apply Z.log2_unique; [apply Z.log2_nonneg|lia]. }
    pose proof (Z.pow_pos_nonneg 2 (Z.log2 x) ltac:(lia) (Z.log2_nonneg x)).
    assert (Hb : Z.testbit (Z.land x (x - 1)) (Z.log2 x) = true).
    { rewrite Z.land_spec, Z.bit_log2 by lia. rewrite <-Hl at 1. by rewrite Z.bit_log2 by lia. }
    by rewrite H, Z.bits_0 in Hb.
  - intros (k & Hk & ->). replace (2 ^ k - 1)%Z with (Z.ones k) by (rewrite Z.ones_equiv; lia).
    rewrite Z.land_ones by done. apply Z.mod_same. pose proof (Z.pow_pos_nonneg 2 k). lia.
Qed.

Definition cluster_ok (c : Z) : Prop := ∃ k, (9 ≤ k ≤ 21 ∧ c = 2 ^ k)%Z.

Lemma cluster_test c :
  ((c <? _MIN_CLUSTER) || (_MAX_CLUSTER <? c) || negb (Z.land c (c - 1) =? 0))%Z = false ↔ cluster_ok c.
Proof.
  unfold _MIN_CLUSTER, _MAX_CLUSTER. split.
  - intros H. simp_bool. apply land_pred_pow2 in H0 as (k & Hk & ->); [|lia].
    exists k. split; [|done]. split.
    + apply (Z.pow_le_mono_r_iff 2); lia.
    + apply (Z.pow_le_mono_r_iff 2); lia.
  - intros (k & Hk & ->). pose proof (Z.pow_le_mono_r 2 9 k). pose proof (Z.pow_le_mono_r 2 k 21).
    rewrite (proj2 (Z.ltb_ge (2 ^ k) 512)), (proj2 (Z.ltb_ge (2 * 1024 * 1024) (2 ^ k))) by lia. simpl.
    apply negb_false_iff, Z.eqb_eq, land_pred_pow2; [lia|]. exists k. split; [lia|done].
Qed.

(** What [qemu-img] accepts: a cluster of [2 ^ bits] bytes in the range the
    header reader takes, and with extended L2 entries 32 subclusters of at least
    512 bytes. *)
Definition legal (g : geometry) : Prop :=
  Forall (λ k, absent g k = false) KEYS ∧
  field g "extended_l2" ∈ _ON_OFF ∧ field g "lazy_refcounts" ∈ _ON_OFF ∧
  field g "preallocation" ∈ _PREALLOCATION ∧
  ∃ bits, (9 ≤ bits ≤ 21)%Z ∧ parse_cluster_size (field g "cluster_size") = Ok (Z.shiftl 1 bits) ∧
          (field g "extended_l2" = "on" → (512 ≤ Z.shiftl 1 bits / 32)%Z).

Lemma subcluster_test bits :
  (9 ≤ bits ≤ 21)%Z → (Z.shiftl 1 bits <? _EXTENDED_L2_MIN_CLUSTER)%Z = false ↔ (512 ≤ Z.shiftl 1 bits / 32)%Z.
Proof.
  intros H. unfold _EXTENDED_L2_MIN_CLUSTER. rewrite Z.ltb_ge.
  pose proof (Z.div_mod (Z.shiftl 1 bits) 32). pose proof (Z.mod_pos_bound (Z.shiftl 1 bits) 32). lia.
Qed.

Lemma shiftl_pow bits : (0 ≤ bits)%Z → Z.shiftl 1 bits = (2 ^ bits)%Z.
Proof. intros H. rewrite Z.shiftl_mul_pow2 by done. lia. Qed.

Lemma validate_ok g : validate g = Ok g ↔ legal g.
Proof.
  unfold validate, legal. rewrite <-existsb_false_Forall, <-!mem_spec.
  destruct (existsb (absent g) KEYS); [naive_solver|].
  destruct (mem (field g "extended_l2") _ON_OFF); cbn [negb]; [|naive_solver].
  destruct (mem (field g "lazy_refcounts") _ON_OFF); cbn [negb]; [|naive_solver].
  destruct (mem (field g "preallocation") _PREALLOCATION); cbn [negb]; [|naive_solver].
  destruct (parse_cluster_size (field g "cluster_size")) as [c|e]; cbn [mbind res_bind]; [|naive_solver].
  destruct (_ || _ || _)%bool eqn:E.
  - split; [done|]. intros (_ & _ & _ & _ & bits & Hb & [= ->] & _).
    assert (Hok : cluster_ok (Z.shiftl 1 bits)) by (exists bits; split; [done|apply shiftl_pow; lia]).
    apply cluster_test in Hok. congruence.
  - apply cluster_test in E as (bits & Hb & ->). rewrite <-shiftl_pow by lia.
    destruct (field g "extended_l2" =? "on")%string eqn:Eo; cbn [andb].
    + apply String.eqb_eq in Eo. pose proof (subcluster_test bits Hb) as Hs.
      destruct (Z.shiftl 1 bits <? _EXTENDED_L2_MIN_CLUSTER)%Z.
      * split; [done|]. intros (_ & _ & _ & _ & bits' & Hb' & [= Heq] & Hon). rewrite Heq in Hs. specialize (Hon Eo).
        by apply Hs in Hon.
      * split; [|done]. intros _. split_and!; [done..|]. exists bits. split; [done|]. split; [done|]. intros _. by apply Hs.
    + apply String.eqb_neq in Eo. split; [|done]. intros _. split_and!; [done..|]. by exists bits.
Qed.

Lemma parse_cluster_error v e : parse_cluster_size v = Raise e → e = ValueError.
Proof.
  unfold parse_cluster_size, int_of_string. destruct (_ =? "")%string; [by intros [= <-]|].
  repeat case_match; cbn [mbind res_bind]; congruence.
Qed.

Lemma validate_total g : validate g = Ok g ∨ validate g = Raise ValueError.
Proof.
  unfold validate. destruct (existsb _ _); [by right|]. do 3 (destruct (negb _); [by right|]).
  destruct (parse_cluster_size _) as [c|e] eqn:E; cbn [mbind res_bind].
  - destruct (_ || _ || _)%bool; [by right|]. destruct (_ && _); [by right|by left].
  - right. by rewrite (parse_cluster_error _ _ E).
Qed.

(** The geometry check and the options of [qemu-img create] accept exactly the
    legal policies: all four keys set, each switch one of its values, a cluster
    size that the parser reads as a power of two from 512 bytes to 2 MiB, and subclusters of at least 512 bytes when the L2 entries
    are extended; every other policy raises the policy error. *)
Theorem geometry_check_is_exact g :
  (legal g → validate g = Ok g ∧ ∀ b p, ∃ o, create_options g b p = Ok o) ∧
  (¬ legal g → validate g = Raise ValueError ∧ ∀ b p, create_options g b p = Raise ValueError).
Proof.
  unfold create_options. rewrite <-validate_ok. split; intros H.
  - rewrite H. cbn [mbind res_bind]. eauto.
  - destruct (validate_total g) as [?|E]; [done|]. by rewrite E.
Qed.

Lemma geometry_check_is_exact_witness :
  Forall (λ g, ∃ o, create_options g true None = Ok o)
    [[("cluster_size", "128k"); ("extended_l2", "on"); ("lazy_refcounts", "off"); ("preallocation", "off")]].
Proof.
  constructor; [|constructor]. apply geometry_check_is_exact. apply validate_ok. reflexivity.
Defined.

(** The documented defaults are a legal policy. *)
Lemma defaults_are_legal : from_env (λ _, None) = Ok _DEFAULTS.
Proof. reflexivity. Qed.

(** The size parser collects the digits and the letters of the text apart, so
    a text [qemu-img] does not read as a size passes the check, and is handed to
    [qemu-img] as it is. *)
Theorem scrambled_size_passes_the_check :
  let g := [("cluster_size", "-1k28"); ("extended_l2", "off"); ("lazy_refcounts", "off"); ("preallocation", "off")] in
  parse_cluster_size "-1k28" = Ok 131072%Z ∧ validate g = Ok g ∧
  create_options g true None = Ok "cluster_size=-1k28,extended_l2=off,lazy_refcounts=off".
Proof. by split_and!. Qed.
