(* ===== verification/Alloweds.v ===== *)
(** * Who may use a shared item

    [component/_common/src/isardvdi_common/helpers/alloweds.py]: the [allowed]
    field of templates, media, desktops and settings shares them by role,
    category, group or user. [is_allowed] decides one item in Python,
    [build_shared_items_filter] is the same rule as a database filter, and
    [get_users_allowed] lists the users a setting is shared with.

    The tables are finite maps from ids to rows. The caches in front of the
    queries are left out: the queries are taken on the current tables. The
    expressions of the filter are evaluated as the documentation of the database
    defines them. *)
From S2P Require Import Prelude PyVal.

(** ** Rows *)
Record user_row := mkUser {
  u_role : string;
  u_category : string;
  u_group : string;
  u_secondary_groups : list string;   (** [[]] when the field is absent *)
}.

Record tables := mkTables {
  t_users : gmap string user_row;
  t_linked_groups : gmap string (list string);   (** the linked groups of each group *)
}.

Record payload := mkPayload {
  p_user_id : string;
  p_role_id : string;
  p_category_id : string;
  p_group_id : string;
}.

(** [False], or a list of ids *)
Inductive axis := AFalse | AList (ids : list string).

Record alloweds := mkAlloweds {
  a_roles : axis;
  a_categories : axis;
  a_groups : axis;
  a_users : axis;
}.

Definition nobody : alloweds := mkAlloweds AFalse AFalse AFalse AFalse.

Record shared_item := mkItem {
  i_id : string;
  i_user : option string;
  i_category : option string;
  i_allowed : option alloweds;
}.

Section alloweds.
Context (db : tables).

(** ** Groups *)
Definition get_all_linked_groups (groups : list string) : list string :=
  remove_dups (groups ++ concat ((λ g, default [] (t_linked_groups db !! g)) <$> groups)).

Definition check_secondary_groups (user_id user_group_id : string) (item_allowed_groups : list string)
    : res bool :=
  match t_users db !! user_id with
  | None => Raise ReqlError
  | Some u =>
      Ok (existsb (λ g, mem g item_allowed_groups)
            (get_all_linked_groups (user_group_id :: u_secondary_groups u)))
  end.

(** ** One item *)
Definition opt_is (a : option string) (b : string) : bool := bool_decide (a = Some b).

(** The rule of an axis: everyone on an empty list, else the members. *)
Definition axis_allows (a : axis) (everyone : bool) (member : list string → bool) : bool :=
  match a with
  | AFalse => false
  | AList l => if bool_decide (l = []) then everyone else member l
  end.

Definition shared_tables : list string := ["domains"; "media"].

Definition is_allowed (p : payload) (it : shared_item) (table : string) (ignore_role : bool) : res bool :=
  if (p_user_id p =? "")%string then Ok false
  else if negb ignore_role
          && ((p_role_id p =? "admin")%string || opt_is (i_user it) (p_user_id p)
              || ((p_role_id p =? "manager")%string && opt_is (i_category it) (p_category_id p)))
  then Ok true
  else
    let allowed := default nobody (i_allowed it) in
    let same_category := opt_is (i_category it) (p_category_id p) in
    let everyone := if mem table shared_tables then same_category else true in
    if axis_allows (a_roles allowed) true (mem (p_role_id p)) then Ok true
    else if axis_allows (a_categories allowed) true (mem (p_category_id p)) then Ok true
    else
      by_group ← match a_groups allowed with
                 | AList ((_ :: _) as l) => check_secondary_groups (p_user_id p) (p_group_id p) l
                 | a => Ok (axis_allows a everyone (λ _, false))
                 end;
      if by_group : bool then Ok true
      else Ok (axis_allows (a_users allowed) everyone (mem (p_user_id p))).

(** ** The same rule as a filter over the rows of a shared table *)
Record shared_row := mkRow {
  r_id : string;
  r_user : string;
  r_category : string;
  r_allowed : alloweds;
}.

Definition build_shared_items_filter (user_role user_category user_group user_id : string)
    (include_own consider_user_role : bool) (row : shared_row) : bool :=
  if consider_user_role && (user_role =? "admin")%string then true
  else
    let secondary := match t_users db !! user_id with Some u => u_secondary_groups u | None => [] end in
    let user_groups := get_all_linked_groups
      (List.filter (λ g, negb (g =? "")%string) (user_group :: secondary)) in
    let same_category := (r_category row =? user_category)%string in
    let allowed := r_allowed row in
    (consider_user_role && (user_role =? "manager")%string && same_category)
    || axis_allows (a_roles allowed) true (mem user_role)
    || axis_allows (a_categories allowed) true (mem user_category)
    || axis_allows (a_groups allowed) same_category (λ l, existsb (λ g, mem g user_groups) l)
    || axis_allows (a_users allowed) same_category (mem user_id)
    || (include_own && (r_user row =? user_id)%string).

Definition item_of_row (row : shared_row) : shared_item :=
  mkItem (r_id row) (Some (r_user row)) (Some (r_category row)) (Some (r_allowed row)).

(** ** Listings *)
Definition editable (p : payload) (it : shared_item) : bool :=
  (p_role_id p =? "admin")%string
  || ((p_role_id p =? "manager")%string && opt_is (i_category it) (p_category_id p))
  || opt_is (i_user it) (p_user_id p).

(** The loop over the rows of the query: the listed items with their [editable]
    mark. *)
Fixpoint listed_items (p : payload) (items : list shared_item) (table : string)
    (extra_ids_allowed : list string) (only_in_allowed : bool) : res (list (shared_item * bool)) :=
  match items with
  | [] => Ok []
  | it :: items =>
      keep ← (if mem (i_id it) extra_ids_allowed then Ok true
              else is_allowed p it table only_in_allowed);
      rest ← listed_items p items table extra_ids_allowed only_in_allowed;
      Ok (if keep : bool then (it, editable p it) :: rest else rest)
  end.

(** Any error of the loop becomes the generic error of the API. *)
Definition get_items_allowed (p : payload) (items : list shared_item) (table : string)
    (extra_ids_allowed : list string) (only_in_allowed : bool) : res (list (shared_item * bool)) :=
  match listed_items p items table extra_ids_allowed only_in_allowed with
  | Ok l => Ok l
  | Raise _ => Raise InternalServerError
  end.

(** ** The users of a setting *)
Definition users_where (P : string → user_row → bool) : list string :=
  (List.filter (λ ku, P ku.1 ku.2) (map_to_list (t_users db))).*1.

Definition axis_users (a : axis) (index : string → user_row → string) : list string :=
  match a with
  | AFalse => []
  | AList [] => users_where (λ _ _, true)
  | AList l => users_where (λ id u, mem (index id u) l)
  end.

Definition get_users_allowed (allowed : alloweds) : list string :=
  axis_users (a_roles allowed) (λ _ u, u_role u)
  ++ axis_users (a_categories allowed) (λ _ u, u_category u)
  ++ axis_users (a_groups allowed) (λ _ u, u_group u)
  ++ axis_users (a_users allowed) (λ id _, id).

Record target := mkTarget { tg_id : string; tg_user_id : string }.

(** The ids of the targets taken away, and the targets left. *)
Definition remove_disallowed_bastion_targets (bastion_alloweds : alloweds) (targets : list target)
    : list string * list target :=
  let allowed_users := get_users_allowed bastion_alloweds in
  let disallowed := tg_id <$> List.filter (λ t, negb (mem (tg_user_id t) allowed_users)) targets in
  (disallowed, List.filter (λ t, negb (mem (tg_id t) disallowed)) targets).

(** [can_use_bastion] of [helpers.py]: the setting as an item, [None] when the
    document is missing. *)
Definition can_use_bastion (p : payload) (bastion_enabled : bool) (bastion : option alloweds) : res bool :=
  if negb bastion_enabled then Ok false
  else match bastion with
       | None => Ok false
       | Some a => is_allowed p (mkItem "" None None (Some a)) "config" true
       end.

(** The token of a user. *)
Definition payload_of (id : string) (u : user_row) : payload := mkPayload id (u_role u) (u_category u) (u_group u).

(** ** Lemmas *)
Lemma filter_nonempty l : "" ∉ l → List.filter (λ g, negb (g =? "")%string) l = l.
Proof.
  induction l as [|g l IH]; intros H; [done|]. apply not_elem_of_cons in H as [Hg Hl]. simpl.
  rewrite IH by done. destruct (g =? "")%string eqn:E; simp_bool; [congruence|done].
Qed.

(** The two tests of a common group. *)
Lemma common_group (l k : list string) : existsb (λ g, mem g k) l = existsb (λ g, mem g l) k.
Proof.
  apply eq_true_iff_eq. rewrite !existsb_exists. setoid_rewrite mem_spec. setoid_rewrite list_elem_of_In. naive_solver.
Qed.

Lemma opt_is_Some a b : opt_is (Some a) b = (a =? b)%string.
Proof.
  unfold opt_is. destruct (a =? b)%string eqn:E; simp_bool.
  - subst. by apply bool_decide_eq_true_2.
  - apply bool_decide_eq_false_2. congruence.
Qed.

Lemma is_allowed_axes p it table ignore_role u :
  p_user_id p ≠ "" → t_users db !! p_user_id p = Some u →
  let allowed := default nobody (i_allowed it) in
  let same := opt_is (i_category it) (p_category_id p) in
  let everyone := if mem table shared_tables then same else true in
  is_allowed p it table ignore_role = Ok (
    negb ignore_role && editable p it
    || axis_allows (a_roles allowed) true (mem (p_role_id p))
    || axis_allows (a_categories allowed) true (mem (p_category_id p))
    || axis_allows (a_groups allowed) everyone
         (λ l, existsb (λ g, mem g l) (get_all_linked_groups (p_group_id p :: u_secondary_groups u)))
    || axis_allows (a_users allowed) everyone (mem (p_user_id p))).
Proof.
  intros Hid Hu. cbv zeta. unfold is_allowed, editable. apply String.eqb_neq in Hid. rewrite Hid.
  set (own := opt_is (i_user it) (p_user_id p)). set (same := opt_is (i_category it) (p_category_id p)).
  replace ((p_role_id p =? "admin")%string || (p_role_id p =? "manager")%string && same || own)
    with ((p_role_id p =? "admin")%string || own || (p_role_id p =? "manager")%string && same)
    by (destruct (p_role_id p =? "admin")%string, own, ((p_role_id p =? "manager")%string && same); done).
  destruct (negb ignore_role && _); [done|].
  destruct (axis_allows (a_roles _) _ _); [done|]. destruct (axis_allows (a_categories _) _ _); [done|].
  destruct (a_groups (default nobody (i_allowed it))) as [|[|g l]]; cbn [orb].
  - done.
  - cbn [mbind res_bind]. by destruct (axis_allows (AList []) _ _).
  - unfold check_secondary_groups. rewrite Hu. cbn [mbind res_bind axis_allows]. rewrite bool_decide_false by done.
    by destruct (existsb _ _).
Qed.

(** C31: The database filter of shared rows and the Python check are one rule, for a user
    that exists and has a group (none of the ids empty), and on templates and media: with the rights of the role and
    of the owner, or with neither, they accept the same rows, the secondary and linked
    groups of the user included. With one of the two the filter leaves out just what the
    other adds: with the role alone, as the listings of templates and media ask for it, the
    check accepts the rows of the filter and the user's own; with the owner alone, those and
    what an administrator, or a manager in the category of the row, may use. *)
Theorem shared_filter_agrees_with_is_allowed p row table u :
  p_user_id p ≠ "" → t_users db !! p_user_id p = Some u →
  p_group_id p ≠ "" → "" ∉ u_secondary_groups u → table ∈ shared_tables →
  let filter := build_shared_items_filter (p_role_id p) (p_category_id p) (p_group_id p) (p_user_id p) in
  let own := (r_user row =? p_user_id p)%string in
  let by_role := (p_role_id p =? "admin")%string
                 || (p_role_id p =? "manager")%string && (r_category row =? p_category_id p)%string in
  is_allowed p (item_of_row row) table false = Ok (filter true true row) ∧
  is_allowed p (item_of_row row) table true = Ok (filter false false row) ∧
  is_allowed p (item_of_row row) table false = Ok (filter false true row || own) ∧
  is_allowed p (item_of_row row) table false = Ok (filter true false row || by_role).
Proof.
  intros Hid Hu Hg Hs Ht. cbv zeta. rewrite !(is_allowed_axes _ _ _ _ u Hid Hu).
  unfold build_shared_items_filter, editable. apply mem_spec in Ht. rewrite Hu, Ht.
  rewrite (filter_nonempty (p_group_id p :: u_secondary_groups u)) by set_solver.
  cbn [item_of_row i_user i_category i_allowed]. change (default nobody (Some (r_allowed row))) with (r_allowed row).
  rewrite !opt_is_Some. set (groups := get_all_linked_groups _).
  assert (Hgroups : ∀ b, axis_allows (a_groups (r_allowed row)) b (λ l, existsb (λ g, mem g l) groups)
                    = axis_allows (a_groups (r_allowed row)) b (λ l, existsb (λ g, mem g groups) l)).
  { intros b. destruct (a_groups (r_allowed row)) as [|l]; [done|]. cbn [axis_allows]. by rewrite common_group. }
  rewrite !Hgroups.
  generalize (axis_allows (a_roles (r_allowed row)) true (mem (p_role_id p))) as roles,
    (axis_allows (a_categories (r_allowed row)) true (mem (p_category_id p))) as cats,
    (axis_allows (a_groups (r_allowed row)) (r_category row =? p_category_id p)%string
       (λ l, existsb (λ g, mem g groups) l)) as grps,
    (axis_allows (a_users (r_allowed row)) (r_category row =? p_category_id p)%string (mem (p_user_id p))) as users.
  destruct (p_role_id p =? "admin")%string, (p_role_id p =? "manager")%string,
    (r_category row =? p_category_id p)%string, (r_user row =? p_user_id p)%string; by intros [] [] [] [].
Qed.

Lemma listed_items_spec p items table extra only u :
  p_user_id p ≠ "" → t_users db !! p_user_id p = Some u →
  ∃ listed, listed_items p items table extra only = Ok listed ∧
    ∀ it e, (it, e) ∈ listed ↔
       it ∈ items ∧ e = editable p it ∧ (i_id it ∈ extra ∨ is_allowed p it table only = Ok true).
Proof.
  intros Hid Hu. induction items as [|it items (rest & IH & Hrest)]; [exists []; set_solver|]. cbn [listed_items].
  rewrite IH. pose proof (is_allowed_axes p it table only u Hid Hu) as Hax.
  assert (Hkeep : ∃ keep : bool, (if mem (i_id it) extra then Ok true else is_allowed p it table only) = Ok keep ∧
            (keep = true ↔ i_id it ∈ extra ∨ is_allowed p it table only = Ok true)).
  { setoid_rewrite <-(mem_spec (i_id it) extra). rewrite Hax. destruct (mem (i_id it) extra); eexists; (split; [done|]).
    - split; [by left|done].
    - split; [intros ->; by right|]. by intros [?|[= ?]]. }
  clear Hax. destruct Hkeep as (keep & -> & Hk). cbn [mbind res_bind]. destruct keep.
  - eexists. split; [done|]. intros it' e. rewrite !elem_of_cons, Hrest. split.
    + intros [[= -> ->]|(? & ? & ?)]; [|by auto]. split_and!; [by left|done|by apply Hk].
    + intros ([->|?] & -> & ?); [by left|by right].
  - eexists. split; [done|]. intros it' e. rewrite elem_of_cons, Hrest. split.
    + intros (? & ? & ?). by auto.
    + intros ([->|Hin] & He & Hor); [|done]. by apply Hk in Hor.
Qed.

(** A listing shows an item exactly when it is named or the caller may use it,
    and marks as editable exactly the items the role or the ownership of the
    caller makes editable: no editable item is ever missing from a listing that
    considers the role. *)
Theorem listing_is_exact p items table extra only u :
  p_user_id p ≠ "" → t_users db !! p_user_id p = Some u →
  ∃ listed, get_items_allowed p items table extra only = Ok listed ∧
    (∀ it e, (it, e) ∈ listed ↔
       it ∈ items ∧ e = editable p it ∧ (i_id it ∈ extra ∨ is_allowed p it table only = Ok true)) ∧
    (only = false → ∀ it, it ∈ items → editable p it = true → (it, true) ∈ listed).
Proof.
  intros Hid Hu. destruct (listed_items_spec p items table extra only u Hid Hu) as (listed & Hrun & Hl).
  exists listed. unfold get_items_allowed. rewrite Hrun. split; [done|]. split; [done|]. intros -> it Hit He.
  apply Hl. rewrite He. split_and!; [done|done|]. right. rewrite (is_allowed_axes p it table false u Hid Hu), He. done.
Qed.

(** ** The users of the bastion *)
Lemma elem_of_users_where P id :
  id ∈ users_where P ↔ ∃ u, t_users db !! id = Some u ∧ P id u = true.
Proof.
  unfold users_where. rewrite list_elem_of_fmap. split.
  - intros ([k u] & -> & H). apply list_elem_of_In, filter_In in H as [H HP].
    apply list_elem_of_In, elem_of_map_to_list in H. eauto.
  - intros (u & Hu & HP). exists (id, u). split; [done|]. apply list_elem_of_In, filter_In.
    split; [|done]. by apply list_elem_of_In, elem_of_map_to_list.
Qed.

Lemma elem_of_axis_users a index id :
  id ∈ axis_users a index ↔
  ∃ u, t_users db !! id = Some u ∧ axis_allows a true (mem (index id u)) = true.
Proof.
  destruct a as [|[|x l]]; cbn [axis_users axis_allows]; [set_solver|rewrite elem_of_users_where; done|].
  rewrite elem_of_users_where, bool_decide_false by done. done.
Qed.

Lemma get_users_allowed_spec a id :
  id ∈ get_users_allowed a ↔
  ∃ u, t_users db !! id = Some u ∧
    (axis_allows (a_roles a) true (mem (u_role u)) = true ∨
     axis_allows (a_categories a) true (mem (u_category u)) = true ∨
     axis_allows (a_groups a) true (mem (u_group u)) = true ∨
     axis_allows (a_users a) true (mem id) = true).
Proof. unfold get_users_allowed. rewrite !elem_of_app, !elem_of_axis_users. naive_solver. Qed.

(** After the clean-up of the bastion every target left belongs to a user who
    may use the bastion: no disallowed user keeps a target. *)
Theorem bastion_clean_up_leaves_allowed_users a targets t :
  t ∈ (remove_disallowed_bastion_targets a targets).2 → tg_user_id t ≠ "" →
  ∃ u, t_users db !! tg_user_id t = Some u ∧
       can_use_bastion (payload_of (tg_user_id t) u) true (Some a) = Ok true.
Proof.
  unfold remove_disallowed_bastion_targets. cbn [snd]. rewrite list_elem_of_In, filter_In, <-list_elem_of_In.
  intros [Ht Hkept] Hid. apply negb_true_iff, mem_false in Hkept.
  assert (Hin : tg_user_id t ∈ get_users_allowed a).
  { destruct (mem (tg_user_id t) (get_users_allowed a)) eqn:E; [by apply mem_spec|]. destruct Hkept.
    apply list_elem_of_fmap. exists t. split; [done|]. apply list_elem_of_In, filter_In. rewrite E.
    split; [by apply list_elem_of_In|done]. }
  apply get_users_allowed_spec in Hin as (u & Hu & Hax). exists u. split; [done|].
  unfold can_use_bastion. cbn [negb]. rewrite (is_allowed_axes _ _ _ _ u) by done.
  change (mem "config" shared_tables) with false. cbn [negb andb orb payload_of p_role_id p_category_id p_group_id p_user_id i_allowed].
  change (default nobody (Some a)) with a. f_equal.
  destruct Hax as [-> |[-> |[Hgrp| ->]]]; [done|by rewrite orb_true_r|..]; last by rewrite !orb_true_r.
  assert (axis_allows (a_groups a) true (λ l, existsb (λ g, mem g l)
            (get_all_linked_groups (u_group u :: u_secondary_groups u))) = true) as ->; [|by rewrite !orb_true_r].
  destruct (a_groups a) as [|l]; [done|]. cbn [axis_allows] in *. case_bool_decide; [done|].
  apply existsb_exists. exists (u_group u). split; [|done]. apply list_elem_of_In.
  unfold get_all_linked_groups. apply elem_of_remove_dups. set_solver.
Qed.
End alloweds.

(** ** Examples *)
Definition ex_tables : tables :=
  mkTables {["u1" := mkUser "user" "c1" "g1" ["g2"]; "u2" := mkUser "user" "c1" "g2" []]} {["g2" := ["g3"]]}.
Definition ex_payload : payload := mkPayload "u1" "user" "c1" "g1".
Definition ex_row (allowed : alloweds) : shared_row := mkRow "t1" "u9" "c2" allowed.

Lemma shared_filter_agrees_with_is_allowed_witness :
  let row := ex_row (mkAlloweds AFalse AFalse (AList ["g3"]) AFalse) in
  is_allowed ex_tables ex_payload (item_of_row row) "domains" true = Ok true ∧
  build_shared_items_filter ex_tables "user" "c1" "g1" "u1" false false row = true.
Proof.
  set (row := ex_row (mkAlloweds AFalse AFalse (AList ["g3"]) AFalse)).
  destruct (shared_filter_agrees_with_is_allowed ex_tables ex_payload row "domains" (mkUser "user" "c1" "g1" ["g2"]))
    as (_ & H & _); [done|reflexivity|done|set_solver|set_solver|].
  split; [rewrite H; reflexivity|reflexivity].
Defined.

Lemma listing_is_exact_witness :
  ∃ listed, get_items_allowed ex_tables ex_payload
    [item_of_row (ex_row nobody); mkItem "t2" (Some "u1") (Some "c1") None] "media" [] false = Ok listed ∧
    (mkItem "t2" (Some "u1") (Some "c1") None, true) ∈ listed.
Proof.
  destruct (listing_is_exact ex_tables ex_payload [item_of_row (ex_row nobody); mkItem "t2" (Some "u1") (Some "c1") None]
              "media" [] false (mkUser "user" "c1" "g1" ["g2"])) as (listed & Hrun & _ & Hedit); [done|reflexivity|].
  exists listed. split; [exact Hrun|]. apply Hedit; [reflexivity|right; left|reflexivity].
Defined.

Lemma bastion_clean_up_leaves_allowed_users_witness :
  ∃ u, t_users ex_tables !! "u2" = Some u ∧
       can_use_bastion ex_tables (payload_of "u2" u) true (Some (mkAlloweds AFalse AFalse (AList ["g2"]) AFalse)) = Ok true.
Proof.
  apply (bastion_clean_up_leaves_allowed_users ex_tables (mkAlloweds AFalse AFalse (AList ["g2"]) AFalse)
           [mkTarget "x" "u2"] (mkTarget "x" "u2")); [|done]. vm_compute. left.
Defined.

(** The clean-up of the bastion reads only the primary group of a user: a user
    whom the gate lets in through a secondary group loses the target, while the
    gate still answers yes. *)
Theorem clean_up_drops_a_secondary_member :
  let a := mkAlloweds AFalse AFalse (AList ["g2"]) AFalse in
  can_use_bastion ex_tables ex_payload true (Some a) = Ok true ∧
  remove_disallowed_bastion_targets ex_tables a [mkTarget "x" "u1"] = (["x"], []).
Proof. by split; vm_compute. Qed.
