(* ===== verification/TaskChain.v ===== *)
(** * Task chains

    [component/_common/src/isardvdi_common/models/task.py]: a task is a job of
    the queue library with links to the jobs it waits on and the jobs that wait
    on it, and with finalize steps that live in its metadata. The closure of a
    chain, the order a cancel settles it in, the cancel, and whether a chain
    still has work are modelled here.

    [jobs] holds the jobs that can be fetched; an id that is gone or unreadable
    is an id that is not there. The dictionaries of the closure keep the order
    of insertion, so they are association lists. *)
From Stdlib Require Import Ascii.
From stdpp Require Import pretty.
From S2P Require Import Prelude PyVal.

Inductive JobStatus := QUEUED | FINISHED | FAILED | STARTED | DEFERRED | SCHEDULED | STOPPED | CANCELED.
#[export] Instance JobStatus_eq_dec : EqDecision JobStatus.
Proof. solve_decision. Defined.

Definition _TERMINAL_STATUSES : list JobStatus := [FINISHED; FAILED; STOPPED; CANCELED].
Definition is_terminal (s : JobStatus) : bool := bool_decide (s ∈ _TERMINAL_STATUSES).

(** ** Global status *)
Definition status_priority : list JobStatus :=
  [CANCELED; FAILED; STARTED; SCHEDULED; STOPPED; QUEUED; DEFERRED; FINISHED].

(** [None] is ["unknown"]. *)
Definition global_status (statuses : list JobStatus) : option JobStatus :=
  List.find (λ s, bool_decide (s ∈ statuses)) status_priority.

(** ** Finalize steps *)

(** A dependent as a producer declares it: only what the chain is built from. *)
#[warnings="-register-all"]
Inductive chain_dep := CDep (task : string) (queue : string) (dependents : list chain_dep).

(** A finalize node: id, outcome, child steps, the storage children with their
    declared ids, and the steps of children that will never be built. *)
#[warnings="-register-all"]
Inductive fnode :=
  FNode (id : string) (status : option string) (core_finalize : list fnode)
    (storage_dependents : list chain_dep) (storage_dependent_ids : list string)
    (unbuilt_knot_finalize : list (string * list fnode)).

Definition fn_id (n : fnode) : string := let '(FNode id _ _ _ _ _) := n in id.
Definition fn_storage (n : fnode) : list chain_dep := let '(FNode _ _ _ s _ _) := n in s.
Definition fn_declared (n : fnode) : list string := let '(FNode _ _ _ _ d _) := n in d.
Definition fn_steps (n : fnode) : list fnode := let '(FNode _ _ c _ _ _) := n in c.

Definition knot_child_id (step_id : string) (index : nat) : string :=
  replace_char ":" "-" (step_id +:+ ":sd:" +:+ pretty index).

Definition is_core (d : chain_dep) : bool := let '(CDep _ queue _) := d in String.prefix "core" queue.

(** The loop over the children carries the index of the next one. *)
Fixpoint _serialize_finalize (dep : chain_dep) (parent_id : string) (index : nat) : fnode :=
  let '(CDep task queue children) := dep in
  let id := parent_id +:+ ":cf:" +:+ pretty index in
  let steps :=
    (fix go (l : list chain_dep) (i : nat) : list fnode :=
       match l with
       | [] => []
       | c :: l => if is_core c then _serialize_finalize c id i :: go l (S i) else go l (S i)
       end) children O in
  let storage := List.filter (λ c, negb (is_core c)) children in
  FNode id None steps storage (imap (λ i _, knot_child_id id i) storage) [].

Fixpoint _knot_child_ids (n : fnode) : list string :=
  let '(FNode _ _ steps _ declared _) := n in
  declared ++ (fix go (l : list fnode) : list string :=
                 match l with [] => [] | c :: l => _knot_child_ids c ++ go l end) steps.

Fixpoint unstamped (n : fnode) : bool :=
  let '(FNode _ status steps _ _ unbuilt) := n in
  match status with
  | None => true
  | Some _ =>
      (fix go (l : list fnode) : bool := match l with [] => false | c :: l => unstamped c || go l end) steps
      || (fix gou (u : list (string * list fnode)) : bool :=
            match u with
            | [] => false
            | (_, l) :: u =>
                (fix go (l : list fnode) : bool := match l with [] => false | c :: l => unstamped c || go l end) l
                || gou u
            end) unbuilt
  end.

Definition finalize_has_unstamped (nodes : list fnode) : bool := existsb unstamped nodes.

(** [CoreStep.knot_child_ids]: the declared ids, or the derived ones for a chain
    built before the edge was declared. *)
Definition step_knot_child_ids (n : fnode) : list string :=
  match fn_declared n with
  | [] => imap (λ i _, knot_child_id (fn_id n) i) (fn_storage n)
  | declared => declared
  end.

(** [CoreStep.job_status], from the outcome of the node and the status of the
    member it waits on *)
Definition step_status (status : option string) (parent : option JobStatus) : JobStatus :=
  match status with
  | Some s => if (s =? "finished")%string then FINISHED
              else if (s =? "failed")%string then FAILED
              else if match parent with Some p => is_terminal p | None => false end then QUEUED else DEFERRED
  | None => if match parent with Some p => is_terminal p | None => false end then QUEUED else DEFERRED
  end.

(** ** Jobs *)
Record job := mkTaskJob {
  j_status : JobStatus;
  j_dependency_ids : list string;
  j_dependent_ids : list string;
  j_core_finalize : list fnode;
  j_ended_at : bool;      (** the end of the job is stamped *)
  j_expires : bool;       (** the keys of the job have an expiry *)
  j_canceled : bool;      (** [CANCELED_FIELD] is on the hash of the job *)
}.

Notation jobs := (gmap string job).
Definition closure := list (string * job).

Definition links (j : job) : list string := j_dependency_ids j ++ j_dependent_ids j.

(** One link of the walk: a member not seen yet joins the closure and the
    frontier. *)
Definition visit (db : jobs) (acc : closure * list job) (job_id : string) : closure * list job :=
  let '(c, frontier) := acc in
  if mem job_id c.*1 then acc
  else match db !! job_id with
       | None => acc
       | Some m => (c ++ [(job_id, m)], m :: frontier)
       end.

(** The frontier is a stack; every job enters it once, so as many rounds as
    there are jobs are enough. *)
Fixpoint chain_walk (fuel : nat) (db : jobs) (c : closure) (frontier : list job) : closure :=
  match fuel, frontier with
  | S fuel, current :: frontier =>
      let '(c, frontier) := foldl (visit db) (c, frontier) (links current) in
      chain_walk fuel db c frontier
  | _, _ => c
  end.

Definition _chain_closure (db : jobs) (id : string) (j : job) : closure :=
  chain_walk (S (size db)) db [(id, j)] [j].

(** ** Leaves first *)
Definition pending_map := list (string * list string).

Definition initial_pending (c : closure) : pending_map :=
  (λ kj, (kj.1, List.filter (λ d, mem d c.*1) (j_dependent_ids kj.2))) <$> c.

Definition is_ready (pending : pending_map) (id : string) : bool :=
  match assoc id pending with Some [] => true | _ => false end.

Definition discard (id : string) (pending : pending_map) : pending_map :=
  (λ kv, (kv.1, List.filter (λ d, negb (d =? id)%string) kv.2)) <$> pending.

(** Every round orders one member at least, so as many rounds as members are
    enough. *)
Fixpoint leaves_loop (fuel : nat) (pending : pending_map) (remaining ordered : list string) : list string :=
  match fuel, remaining with
  | O, _ | _, [] => ordered
  | S fuel, _ =>
      let ready := py_sorted String.leb (List.filter (is_ready pending) remaining) in
      match ready with
      | [] => ordered ++ remaining
      | _ => leaves_loop fuel (foldl (λ p id, discard id p) pending ready)
               (List.filter (λ id, negb (mem id ready)) remaining) (ordered ++ ready)
      end
  end.

Definition _closure_leaves_first (c : closure) : list string :=
  leaves_loop (length c) (initial_pending c) c.*1 [].

Definition _closure_roots (c : closure) : list string :=
  (List.filter (λ kj, bool_decide (List.filter (λ d, mem d c.*1) (j_dependency_ids kj.2) = [])) c).*1.

(** ** Cancel *)
Definition canceled_job (j : job) : job :=
  mkTaskJob CANCELED (j_dependency_ids j) (j_dependent_ids j) (j_core_finalize j) true true true.

(** What a cancel did: the jobs, the shutdown signals and the announcements. *)
Record cancel_log := mkLog { cl_jobs : jobs; cl_signals : list string; cl_announced : list string }.

(** One member: [raises] says whether the cancel of the queue library raises. *)
Definition cancel_member (raises : string → bool) (log : cancel_log) (id : string) : cancel_log :=
  match cl_jobs log !! id with
  | Some j =>
      if is_terminal (j_status j) then log
      else
        let signals := cl_signals log ++ [id] in
        if raises id then mkLog (cl_jobs log) signals (cl_announced log)
        else mkLog (<[id := canceled_job j]> (cl_jobs log)) signals (cl_announced log)
  | None => mkLog (cl_jobs log) (cl_signals log ++ [id]) (cl_announced log)
  end.

Definition cancel (raises : string → bool) (db : jobs) (id : string) (j : job) : cancel_log :=
  let c := _chain_closure db id j in
  let log := foldl (cancel_member raises) (mkLog db [] []) (_closure_leaves_first c) in
  mkLog (cl_jobs log) (cl_signals log) (_closure_roots c).

(** ** Pending work *)
Definition active_statuses : list JobStatus := [STARTED; SCHEDULED; QUEUED].

Definition member_pending (c : closure) (j : job) : bool :=
  finalize_has_unstamped (j_core_finalize j)
  || bool_decide (j_status j ∈ active_statuses)
  || (bool_decide (j_status j = DEFERRED)
      && existsb (λ d, match assoc d c with
                       | Some dep => bool_decide (j_status dep ∈ active_statuses ++ [DEFERRED])
                       | None => false
                       end) (j_dependency_ids j)).

Definition chain_pending (db : jobs) (id : string) (j : job) : bool :=
  let c := _chain_closure db id j in existsb (λ kj, member_pending c kj.2) c.

(** ** The closure *)
(** Two readable jobs joined by a link. *)
Definition linked (db : jobs) (a b : string) : Prop :=
  ∃ j, db !! a = Some j ∧ (b ∈ j_dependency_ids j ∨ b ∈ j_dependent_ids j) ∧ is_Some (db !! b).

Definition chain_member (db : jobs) (root b : string) : Prop := steps (linked db) root b.

(** The closure holds jobs of the store, each once. *)
Definition sound (db : jobs) (root : string) (c : closure) : Prop :=
  NoDup c.*1 ∧ ∀ x j, (x, j) ∈ c → db !! x = Some j ∧ chain_member db root x.

Lemma steps_snoc {S} (R : S → S → Prop) a b c : steps R a b → R b c → steps R a c.
Proof. intros H Hbc. eapply steps_trans; [exact H|]. eauto using steps. Qed.

Lemma visit_spec db root c f x cur jc :
  sound db root c → (cur, jc) ∈ c → x ∈ links jc →
  let '(c', f') := visit db (c, f) x in
  sound db root c' ∧ (∃ k, c' = c ++ k ∧ f' = rev k.*2 ++ f ∧ (length k ≤ 1)%nat) ∧
  (is_Some (db !! x) → x ∈ c'.*1).
Proof.
  intros [Hnd Hs] Hcur Hx. unfold visit. destruct (mem x c.*1) eqn:E.
  - apply mem_spec in E. split; [done|]. split; [|done]. exists []. rewrite app_nil_r. simpl. split_and!; [done|done|lia].
  - apply mem_false in E. destruct (db !! x) as [m|] eqn:Em.
    + split_and!.
      * split.
        { rewrite fmap_app. apply NoDup_app. split_and!; [done| |apply NoDup_singleton]. set_solver. }
        intros y j [?|[= -> ->]%list_elem_of_singleton]%elem_of_app; [by apply Hs|]. split; [done|].
        destruct (Hs _ _ Hcur) as [Hdb Hreach]. eapply steps_snoc; [exact Hreach|]. exists jc. rewrite Em.
        by apply elem_of_app in Hx.
      * exists [(x, m)]. simpl. split_and!; [done|done|lia].
      * intros _. rewrite fmap_app. set_solver.
    + split; [done|]. split; [|intros [? ?]; done]. exists []. rewrite app_nil_r. simpl. split_and!; [done|done|lia].
Qed.

Lemma visits_spec db root c f l cur jc :
  sound db root c → (cur, jc) ∈ c → (∀ x, x ∈ l → x ∈ links jc) →
  let '(c', f') := foldl (visit db) (c, f) l in
  sound db root c' ∧ (∃ k, c' = c ++ k ∧ f' = rev k.*2 ++ f) ∧
  (∀ x, x ∈ l → is_Some (db !! x) → x ∈ c'.*1).
Proof.
  revert c f. induction l as [|x l IH]; intros c f Hs Hcur Hl; cbn [foldl].
  - split; [done|]. split; [|set_solver]. exists []. by rewrite app_nil_r.
  - pose proof (visit_spec db root c f x cur jc Hs Hcur ltac:(set_solver)) as Hv.
    destruct (visit db (c, f) x) as [c1 f1]. destruct Hv as (Hs1 & (k1 & -> & -> & _) & Hx).
    specialize (IH (c ++ k1) (rev k1.*2 ++ f) Hs1 ltac:(set_solver) ltac:(set_solver)).
    destruct (foldl (visit db) _ l) as [c2 f2]. destruct IH as (Hs2 & (k2 & -> & ->) & Hall).
    split; [done|]. split.
    + exists (k1 ++ k2). by rewrite fmap_app, rev_app_distr, <-!app_assoc.
    + intros y [->|Hy]%elem_of_cons Hdb; [|by apply Hall]. rewrite fmap_app. set_solver.
Qed.

(** Members off the frontier have their readable links in the closure. *)
Definition explored (db : jobs) (c : closure) (frontier : list job) : Prop :=
  ∀ x j, (x, j) ∈ c → j ∈ frontier ∨ ∀ y, y ∈ links j → is_Some (db !! y) → y ∈ c.*1.

Lemma sound_size db root c : sound db root c → (length c ≤ size db)%nat.
Proof.
  intros [Hnd Hs]. rewrite <-(length_fmap fst c), <-(size_list_to_set (C := gset string)) by done.
  rewrite <-(size_dom (D := gset string) db).
  apply subseteq_size. intros x. rewrite elem_of_list_to_set, list_elem_of_fmap, elem_of_dom.
  intros ([y j] & -> & H%Hs). destruct H as [H _]. eauto.
Qed.

Lemma chain_walk_spec fuel db root c f :
  sound db root c → explored db c f → (∀ j, j ∈ f → ∃ x, (x, j) ∈ c) →
  (size db + length f < fuel + length c)%nat →
  ∃ k, chain_walk fuel db c f = c ++ k ∧ sound db root (c ++ k) ∧ explored db (c ++ k) [].
Proof.
  revert c f. induction fuel as [|fuel IH]; intros c f Hs He Hf Hfuel.
  { pose proof (sound_size _ _ _ Hs). lia. }
  destruct f as [|cur f]; cbn [chain_walk].
  { exists []. by rewrite app_nil_r. }
  destruct (Hf cur) as [xc Hcur]; [left|].
  pose proof (visits_spec db root c f (links cur) xc cur Hs Hcur ltac:(done)) as Hv.
  destruct (foldl (visit db) (c, f) (links cur)) as [c1 f1]. destruct Hv as (Hs1 & (k & -> & ->) & Hall).
  destruct (IH (c ++ k) (rev k.*2 ++ f)) as (k' & Hk & Hs' & He').
  - done.
  - intros x j [Hx|Hx]%elem_of_app.
    + destruct (He x j Hx) as [[->|?]%elem_of_cons|Hy].
      * right. intros y Hy Hdb. by apply Hall.
      * left. set_solver.
      * right. intros y Hy' Hdb. rewrite fmap_app. set_solver.
    + left. apply elem_of_app. left. apply list_elem_of_In, in_rev. rewrite rev_involutive.
      apply list_elem_of_In, list_elem_of_fmap. by exists (x, j).
  - intros j [Hj|Hj]%elem_of_app.
    + apply list_elem_of_In, in_rev, list_elem_of_In, list_elem_of_fmap in Hj as ([x j'] & -> & Hj). exists x. set_solver.
    + destruct (Hf j) as [x Hx]; [by right|]. exists x. set_solver.
  - rewrite !length_app, length_rev, length_fmap. simpl in Hfuel. lia.
  - exists (k ++ k'). rewrite app_assoc. by split.
Qed.

Lemma closure_spec db id j :
  db !! id = Some j →
  NoDup (_chain_closure db id j).*1 ∧
  ∀ x jx, (x, jx) ∈ _chain_closure db id j ↔ db !! x = Some jx ∧ chain_member db id x.
Proof.
  intros Hj. unfold _chain_closure.
  destruct (chain_walk_spec (S (size db)) db id [(id, j)] [j]) as (k & -> & [Hnd Hs] & He).
  - split; [apply NoDup_singleton|]. intros x jx [= -> ->]%list_elem_of_singleton. split; [done|constructor].
  - intros x jx [= -> ->]%list_elem_of_singleton. left. left.
  - intros jx ->%list_elem_of_singleton. exists id. left.
  - simpl. lia.
  - split; [done|]. intros x jx. split; [apply Hs|]. intros [Hx Hreach].
    assert (Hin : x ∈ ([(id, j)] ++ k).*1).
    { clear Hx. unfold chain_member in Hreach.
      assert (H : ∀ a, steps (linked db) a x → a ∈ ([(id, j)] ++ k).*1 → x ∈ ([(id, j)] ++ k).*1); [|apply (H id); [done|left]].
      induction 1 as [|a b y (ja & Ha & Hlink%elem_of_app & Hb) _ IH]; [done|]. intros Hin. apply IH; [done|].
      apply list_elem_of_fmap in Hin as ([a' ja'] & -> & Hin). destruct (Hs _ _ Hin) as [Hdb _]. simpl in *. simplify_eq.
      destruct (He _ _ Hin) as [[]%elem_of_nil|Hall]. by apply Hall. }
    apply list_elem_of_fmap in Hin as ([x' jx'] & -> & Hin). destruct (Hs _ _ Hin) as [Hdb _]. simpl in *. by simplify_eq.
Qed.

(** ** Leaves first *)
Section leaves.
Context (deps : string → list string).

(** Every member stands after all its dependents. *)
Definition leaves_ok (l : list string) : Prop :=
  ∀ l1 x l2, l = l1 ++ x :: l2 → ∀ d, d ∈ deps x → d ∈ l1.

Record loop_inv (pending : pending_map) (remaining ordered : list string) : Prop := {
  li_nodup : NoDup (ordered ++ remaining);
  li_pending : ∀ x, x ∈ remaining →
    assoc x pending = Some (List.filter (λ d, negb (mem d ordered)) (deps x));
  li_closed : ∀ x d, x ∈ remaining → d ∈ deps x → d ∈ ordered ++ remaining;
}.

Lemma filter_split {A} (P : A → bool) l : l ≡ₚ List.filter P l ++ List.filter (λ x, negb (P x)) l.
Proof.
  induction l as [|x l IH]; simpl; [done|]. destruct (P x); simpl; [by constructor|].
  rewrite IH at 1. apply Permutation_middle.
Qed.

Lemma assoc_discards x ready pending l :
  assoc x pending = Some l →
  assoc x (foldl (λ p id, discard id p) pending ready) = Some (List.filter (λ d, negb (mem d ready)) l).
Proof.
  revert pending l. induction ready as [|id ready IH]; intros pending l Hl; cbn [foldl].
  - rewrite Hl. f_equal. clear. induction l as [|d l IHl]; simpl; [done|by f_equal].
  - rewrite (IH _ (List.filter (λ d, negb (d =? id)%string) l)).
    + f_equal. clear. induction l as [|d l IHl]; simpl; [done|]. unfold mem in *. cbn [existsb].
      destruct (d =? id)%string; simpl; [done|]. destruct (existsb (String.eqb d) ready); simpl; [done|by f_equal].
    + clear -Hl. unfold discard. induction pending as [|[k v] p IHp]; simpl in *; [done|].
      destruct (x =? k)%string; [by simplify_eq|auto].
Qed.

Lemma ready_spec pending remaining ordered x :
  loop_inv pending remaining ordered → x ∈ remaining →
  is_ready pending x = true ↔ ∀ d, d ∈ deps x → d ∈ ordered.
Proof.
  intros I Hx. unfold is_ready. rewrite (li_pending _ _ _ I x Hx).
  assert (H : List.filter (λ d, negb (mem d ordered)) (deps x) = [] ↔ ∀ d, d ∈ deps x → d ∈ ordered).
  { induction (deps x) as [|d l IH]; simpl; [set_solver|].
    destruct (mem d ordered) eqn:E; simpl.
    - apply mem_spec in E. rewrite IH. set_solver.
    - apply mem_false in E. split; [done|]. intros Hall. destruct E. apply Hall. left. }
  rewrite <-H. destruct (List.filter _ (deps x)); naive_solver.
Qed.

(** One round with something ready. *)
Lemma round_inv pending remaining ordered ready rest :
  ready = py_sorted String.leb (List.filter (is_ready pending) remaining) →
  rest = List.filter (λ id, negb (mem id ready)) remaining →
  loop_inv pending remaining ordered →
  ordered ++ remaining ≡ₚ (ordered ++ ready) ++ rest ∧
  loop_inv (foldl (λ p id, discard id p) pending ready) rest (ordered ++ ready) ∧
  (leaves_ok ordered → leaves_ok (ordered ++ ready)).
Proof.
  intros Hready Hrest I.
  assert (Hin : ∀ x, x ∈ ready ↔ x ∈ remaining ∧ is_ready pending x = true).
  { intros x. rewrite Hready, elem_of_py_sorted, list_elem_of_In, filter_In, <-list_elem_of_In. done. }
  assert (Hrest' : rest = List.filter (λ x, negb (is_ready pending x)) remaining).
  { rewrite Hrest. apply filter_ext_in. intros x Hx%list_elem_of_In. f_equal. apply eq_true_iff_eq.
    rewrite mem_spec, Hin. naive_solver. }
  assert (Hperm : ordered ++ remaining ≡ₚ (ordered ++ ready) ++ rest).
  { rewrite <-app_assoc. apply Permutation_app_head. rewrite Hrest', Hready, py_sorted_perm. apply filter_split. }
  assert (Hsub : ∀ x, x ∈ rest → x ∈ remaining).
  { intros x. rewrite Hrest', !list_elem_of_In, filter_In. naive_solver. }
  split; [done|]. split; [split|].
  - rewrite <-Hperm. apply I.
  - intros x Hx. rewrite (assoc_discards x ready pending _ (li_pending _ _ _ I x (Hsub x Hx))). f_equal.
    clear. induction (deps x) as [|d l IH]; simpl; [done|].
    assert (Hm : mem d (ordered ++ ready) = mem d ordered || mem d ready) by apply existsb_app. rewrite Hm.
    destruct (mem d ordered); simpl; [done|]. destruct (mem d ready); simpl; [done|by f_equal].
  - intros x d Hx Hd. rewrite <-Hperm. eapply (li_closed _ _ _ I); eauto.
  - intros Hok l1 x l2 Heq d Hd. apply app_eq_app in Heq as (k & [[-> Hk]|[-> Hk]]).
    + destruct k as [|y k]; simpl in Hk.
      * assert (Hx : x ∈ ready) by (rewrite <-Hk; left). apply Hin in Hx as [Hx Hr]. rewrite app_nil_r in *.
        eapply ready_spec; eauto.
      * injection Hk as <- _. by eapply Hok.
    + assert (Hx : x ∈ ready) by (rewrite Hk; set_solver). apply Hin in Hx as [Hx Hr].
      apply elem_of_app. left. eapply ready_spec; eauto.
Qed.

Lemma leaves_loop_perm fuel pending remaining ordered :
  loop_inv pending remaining ordered → (length remaining ≤ fuel)%nat →
  leaves_loop fuel pending remaining ordered ≡ₚ ordered ++ remaining.
Proof.
  revert pending remaining ordered. induction fuel as [|fuel IH]; intros pending remaining ordered I Hlen.
  { destruct remaining; [by rewrite app_nil_r|simpl in Hlen; lia]. }
  cbn [leaves_loop]. destruct remaining as [|x0 rem0] eqn:Erem; [by rewrite app_nil_r|]. rewrite <-Erem in *. clear Erem.
  set (ready := py_sorted _ _). destruct ready as [|r0 ready0] eqn:Er; [done|]. rewrite <-Er.
  destruct (round_inv pending remaining ordered ready _ eq_refl eq_refl I) as (Hperm & I' & _).
  rewrite IH; [by symmetry|done|]. apply Permutation_length in Hperm.
  rewrite !length_app in Hperm. assert (0 < length ready)%nat by (rewrite Er; simpl; lia). lia.
Qed.

(** Without a cycle among the members, something is ready in every round. *)
Lemma leaves_loop_ok (rank : string → nat) fuel pending remaining ordered :
  (∀ x d, d ∈ deps x → (rank d < rank x)%nat) →
  loop_inv pending remaining ordered → leaves_ok ordered → (length remaining ≤ fuel)%nat →
  leaves_ok (leaves_loop fuel pending remaining ordered).
Proof.
  intros Hrank. revert pending remaining ordered. induction fuel as [|fuel IH]; intros pending remaining ordered I Hok Hlen.
  { done. }
  cbn [leaves_loop]. destruct remaining as [|x0 rem0] eqn:Erem; [done|]. rewrite <-Erem in *.
  set (ready := py_sorted _ _). assert (Hne : ready ≠ []).
  { intros E. assert (Hmin : ∃ x, x ∈ remaining ∧ ∀ y, y ∈ remaining → (rank x ≤ rank y)%nat).
    { rewrite Erem. clear. revert x0. induction rem0 as [|y l IHl]; intros x0.
      - exists x0. split; [left|]. by intros z ->%list_elem_of_singleton.
      - destruct (IHl y) as (m & Hm & Hall). destruct (decide (rank x0 ≤ rank m)%nat).
        + exists x0. split; [left|]. intros z [->|Hz]%elem_of_cons; [done|]. etrans; [done|by apply Hall].
        + exists m. split; [by right|]. intros z [->|Hz]%elem_of_cons; [lia|by apply Hall]. }
    destruct Hmin as (x & Hx & Hall).
    assert (Hr : x ∈ ready); [|by rewrite E in Hr; apply elem_of_nil in Hr].
    apply elem_of_py_sorted, list_elem_of_In, filter_In. split; [by apply list_elem_of_In|].
    eapply ready_spec; [done|done|]. intros d Hd.
    destruct (proj1 (elem_of_app _ _ _) (li_closed _ _ _ I x d Hx Hd)) as [?|Hd2]; [done|].
    specialize (Hall d Hd2). specialize (Hrank x d Hd). lia. }
  destruct ready as [|r0 ready0] eqn:Er; [done|]. rewrite <-Er.
  destruct (round_inv pending remaining ordered ready _ eq_refl eq_refl I) as (Hperm & I' & Hok').
  apply IH; [done|by apply Hok'|]. apply Permutation_length in Hperm.
  rewrite !length_app in Hperm. assert (0 < length ready)%nat by (rewrite Er; simpl; lia). lia.
Qed.
End leaves.

(** The dependents of a member inside the closure. *)
Definition inner_dependents (c : closure) (x : string) : list string :=
  match assoc x c with
  | Some j => List.filter (λ d, mem d c.*1) (j_dependent_ids j)
  | None => []
  end.

Lemma initial_inv c : NoDup c.*1 → loop_inv (inner_dependents c) (initial_pending c) c.*1 [].
Proof.
  intros Hnd. split.
  - done.
  - intros x Hx. unfold initial_pending, inner_dependents. generalize (c.*1) as ids. intros ids.
    clear Hnd. induction c as [|[k j] c IH]; simpl in *; [by apply elem_of_nil in Hx|].
    destruct (x =? k)%string eqn:E; simp_bool.
    + f_equal. clear. generalize (List.filter (λ d, mem d ids) (j_dependent_ids j)).
      intros l. induction l as [|d l IHl]; simpl; [done|by f_equal].
    + apply IH. apply elem_of_cons in Hx as [?|?]; [done|done].
  - intros x d Hx. unfold inner_dependents. destruct (assoc x c); [|by intros ?%elem_of_nil].
    rewrite list_elem_of_In, filter_In. intros [_ H%mem_spec]. by simpl.
Qed.

(** ** Cancel *)
Section cancel.
Context (raises : string → bool).

(** What a cancel makes of a member. *)
Definition settle (x : string) (j : job) : job :=
  if is_terminal (j_status j) || raises x then j else canceled_job j.

Definition cancellable (db : jobs) (x : string) : bool :=
  match db !! x with Some j => negb (is_terminal (j_status j)) | None => true end.

Lemma cancel_fold l db signals announced :
  NoDup l →
  let log := foldl (cancel_member raises) (mkLog db signals announced) l in
  (∀ x, cl_jobs log !! x = if bool_decide (x ∈ l) then settle x <$> db !! x else db !! x) ∧
  cl_signals log = signals ++ List.filter (cancellable db) l.
Proof.
  revert db signals. induction l as [|y l IH]; intros db signals Hnd; cbv zeta; cbn [foldl List.filter].
  { split; [intros x; rewrite bool_decide_false by set_solver; done|by rewrite app_nil_r]. }
  apply NoDup_cons in Hnd as [Hy Hnd].
  assert (Hstep : ∃ db', cancel_member raises (mkLog db signals announced) y
            = mkLog db' (if cancellable db y then signals ++ [y] else signals) announced ∧
            ∀ x, db' !! x = if bool_decide (x = y) then settle x <$> db !! x else db !! x).
  { unfold cancel_member, cancellable, settle. cbn [cl_jobs cl_signals cl_announced].
    destruct (db !! y) as [j|] eqn:Ey.
    - destruct (is_terminal (j_status j)) eqn:Et; cbn [negb].
      + exists db. split; [done|]. intros x. case_bool_decide; [|done]. subst. rewrite Ey. simpl. by rewrite Et.
      + destruct (raises y) eqn:Er.
        * exists db. split; [done|]. intros x. case_bool_decide; [|done]. subst. rewrite Ey. simpl. by rewrite Et, Er.
        * exists (<[y := canceled_job j]> db). split; [done|]. intros x. case_bool_decide.
          { subst. rewrite lookup_insert_eq, Ey. simpl. by rewrite Et, Er. }
          by rewrite lookup_insert_ne.
    - exists db. split; [done|]. intros x. case_bool_decide; [|done]. subst. by rewrite Ey. }
  destruct Hstep as (db' & -> & Hdb'). destruct (IH db' (if cancellable db y then signals ++ [y] else signals) Hnd) as [Hjobs Hsig].
  split.
  - intros x. rewrite Hjobs, Hdb'. destruct (decide (x = y)) as [->|Hne].
    + rewrite (bool_decide_false (y ∈ l)), !bool_decide_true by set_solver. done.
    + rewrite (bool_decide_false (x = y)) by done.
      by rewrite (bool_decide_ext (x ∈ y :: l) (x ∈ l)) by set_solver.
  - rewrite Hsig. assert (Hf : List.filter (cancellable db') l = List.filter (cancellable db) l).
    { apply filter_ext_in. intros x Hx%list_elem_of_In. unfold cancellable. rewrite Hdb', bool_decide_false by set_solver. done. }
    rewrite Hf. destruct (cancellable db y); [|done]. by rewrite <-app_assoc.
Qed.

Lemma leaves_first_perm c : NoDup c.*1 → _closure_leaves_first c ≡ₚ c.*1.
Proof.
  intros Hnd. unfold _closure_leaves_first. rewrite (leaves_loop_perm (inner_dependents c)); [done|by apply initial_inv|].
  by rewrite length_fmap.
Qed.

Lemma closure_member db id j x :
  db !! id = Some j → x ∈ (_chain_closure db id j).*1 ↔ is_Some (db !! x) ∧ chain_member db id x.
Proof.
  intros Hj. destruct (closure_spec db id j Hj) as [_ Hc]. rewrite list_elem_of_fmap. split.
  - intros ([y jy] & -> & [? ?]%Hc). eauto.
  - intros [[jx Hx] Hr]. exists (x, jx). split; [done|]. by apply Hc.
Qed.

(** The jobs and signals of a cancel. *)
Lemma cancel_spec db id j :
  db !! id = Some j →
  let log := cancel raises db id j in
  (∀ x jx, db !! x = Some jx → chain_member db id x → cl_jobs log !! x = Some (settle x jx)) ∧
  (∀ x, ¬ chain_member db id x ∨ db !! x = None → cl_jobs log !! x = db !! x) ∧
  cl_signals log = List.filter (cancellable db) (_closure_leaves_first (_chain_closure db id j)).
Proof.
  intros Hj. cbv zeta. destruct (closure_spec db id j Hj) as [Hnd Hc]. set (c := _chain_closure db id j) in *.
  assert (Hl : NoDup (_closure_leaves_first c)) by (by rewrite leaves_first_perm).
  destruct (cancel_fold (_closure_leaves_first c) db [] [] Hl) as [Hjobs Hsig].
  assert (Hin : ∀ x, x ∈ _closure_leaves_first c ↔ is_Some (db !! x) ∧ chain_member db id x).
  { intros x. rewrite (leaves_first_perm c Hnd). by apply closure_member. }
  unfold cancel. fold c. cbn [cl_jobs cl_signals]. split_and!; [|intros x Hx|done].
  - intros x jx Hx Hr. rewrite Hjobs, bool_decide_true by (apply Hin; eauto). by rewrite Hx.
  - rewrite Hjobs, bool_decide_false; [done|]. rewrite Hin. destruct Hx as [?|Hx]; [naive_solver|].
    rewrite Hx. by intros [[? ?] _].
Qed.
End cancel.

Lemma assoc_of_closure (c : closure) x j : NoDup c.*1 → assoc x c = Some j ↔ (x, j) ∈ c.
Proof.
  induction c as [|[k v] c IH]; intros Hnd; simpl; [by split; [|intros ?%elem_of_nil]|].
  apply NoDup_cons in Hnd as [Hk Hnd]. rewrite elem_of_cons. destruct (x =? k)%string eqn:E; simp_bool.
  - subst. split; [intros [= ->]; by left|]. intros [[= ->]|H]; [done|]. destruct Hk. apply list_elem_of_fmap. by exists (k, j).
  - rewrite IH by done. split; [by right|]. by intros [[= -> ->]|].
Qed.

Lemma cancel_lookup raises db id j x :
  db !! id = Some j →
  cl_jobs (cancel raises db id j) !! x =
  if bool_decide (x ∈ (_chain_closure db id j).*1) then settle raises x <$> db !! x else db !! x.
Proof.
  intros Hj. destruct (closure_spec db id j Hj) as [Hnd _]. pose proof (leaves_first_perm _ Hnd) as Hperm.
  unfold cancel. cbn [cl_jobs]. set (c := _chain_closure db id j) in *.
  assert (Hl : NoDup (_closure_leaves_first c)) by (by rewrite Hperm).
  destruct (cancel_fold raises _ db [] [] Hl) as [-> _].
  by rewrite (bool_decide_ext (x ∈ _closure_leaves_first c) (x ∈ c.*1)) by (by rewrite Hperm).
Qed.

Definition link_ids (j : job) : list string * list string := (j_dependency_ids j, j_dependent_ids j).

(** Cancels keep the links, so the chain is the same afterwards. *)
Lemma cancel_keeps_links raises db id j x :
  db !! id = Some j → link_ids <$> cl_jobs (cancel raises db id j) !! x = link_ids <$> db !! x.
Proof.
  intros Hj. rewrite cancel_lookup by done. case_bool_decide; [|done].
  destruct (db !! x) as [jx|]; [|done]. simpl. f_equal. unfold settle. by destruct (_ || _).
Qed.

Lemma same_links_member (db db' : jobs) a b :
  (∀ x, link_ids <$> db' !! x = link_ids <$> db !! x) → chain_member db a b → chain_member db' a b.
Proof.
  intros H. induction 1 as [|a b c (ja & Ha & Hl & Hb) _ IH]; [constructor|]. econstructor; [|exact IH].
  pose proof (H a) as H1. pose proof (H b) as H2. rewrite Ha in H1. destruct Hb as [jb Hb]. rewrite Hb in H2.
  destruct (db' !! a) as [ja'|] eqn:Ea; [|done]. destruct (db' !! b) as [jb'|] eqn:Eb; [|done].
  simpl in *. injection H1 as E1 E2. exists ja'. rewrite E1, E2. eauto.
Qed.

Lemma cancel_member_iff raises db id j a b :
  db !! id = Some j → chain_member (cl_jobs (cancel raises db id j)) a b ↔ chain_member db a b.
Proof.
  intros Hj. pose proof (cancel_keeps_links raises db id j) as H.
  split; apply same_links_member; intros x; [symmetry|]; by apply H.
Qed.

Lemma settled_terminal j : is_terminal (j_status (settle (λ _, false) "" j)) = true.
Proof. unfold settle. destruct (is_terminal (j_status j)) eqn:E; simpl; done. Qed.

Lemma settle_never x j : settle (λ _, false) x j = settle (λ _, false) "" j.
Proof. done. Qed.

Lemma terminal_not_pending c j :
  is_terminal (j_status j) = true → member_pending c j = finalize_has_unstamped (j_core_finalize j).
Proof.
  unfold is_terminal, member_pending. intros H. apply bool_decide_eq_true in H.
  unfold _TERMINAL_STATUSES in H. rewrite !elem_of_cons, elem_of_nil in H.
  destruct H as [->|[->|[->|[->|[]]]]]; by rewrite !orb_false_r.
Qed.

Lemma filter_all_false {A} (P : A → bool) l : (∀ x, x ∈ l → P x = false) → List.filter P l = [].
Proof.
  induction l as [|x l IH]; intros H; simpl; [done|]. rewrite H by left. apply IH. intros y Hy. apply H. by right.
Qed.

(** A chain whose members have all ended. *)
Lemma settled_chain db id j :
  db !! id = Some j →
  (∀ x jx, db !! x = Some jx → chain_member db id x → is_terminal (j_status jx) = true) →
  (chain_pending db id j = true ↔
   ∃ x jx, db !! x = Some jx ∧ chain_member db id x ∧ finalize_has_unstamped (j_core_finalize jx) = true) ∧
  cl_jobs (cancel (λ _, false) db id j) = db ∧ cl_signals (cancel (λ _, false) db id j) = [].
Proof.
  intros Hj Hterm. destruct (closure_spec db id j Hj) as [Hnd Hc].
  destruct (cancel_spec (λ _, false) db id j Hj) as (Hm & Ho & Hs). split_and!.
  - unfold chain_pending. rewrite existsb_exists. split.
    + intros ([x jx] & Hx & Hp). apply list_elem_of_In, Hc in Hx as [Hx Hr]. cbn [snd] in Hp.
      rewrite terminal_not_pending in Hp by eauto. eauto.
    + intros (x & jx & Hx & Hr & Hf). exists (x, jx). split; [by apply list_elem_of_In, Hc|]. cbn [snd].
      by rewrite terminal_not_pending by eauto.
  - apply map_eq. intros x. rewrite cancel_lookup by done. case_bool_decide as Hin; [|done].
    apply (closure_member db id j x Hj) in Hin as [[jx Hx] Hr]. rewrite Hx. simpl. f_equal. unfold settle.
    by rewrite (Hterm _ _ Hx Hr).
  - rewrite Hs. apply filter_all_false. intros x. rewrite (leaves_first_perm _ Hnd), closure_member by done.
    intros [[jx Hx] Hr]. unfold cancellable. rewrite Hx. by rewrite (Hterm _ _ Hx Hr).
Qed.

(** C26: Cancelling any member settles its whole chain and nothing else: members
    that had ended keep their history, every other one is cancelled, dated and
    recorded; jobs outside the chain are untouched; afterwards the chain is
    pending only while one of its finalize steps has not run, and a second
    cancel changes nothing and signals nobody. *)
Theorem cancel_settles_the_whole_chain db id j :
  db !! id = Some j →
  let log := cancel (λ _, false) db id j in
  (∀ x jx, db !! x = Some jx → chain_member db id x →
     cl_jobs log !! x = Some (if is_terminal (j_status jx) then jx else canceled_job jx)) ∧
  (∀ x, ¬ chain_member db id x → cl_jobs log !! x = db !! x) ∧
  ∃ j', cl_jobs log !! id = Some j' ∧
    (chain_pending (cl_jobs log) id j' = true ↔
     ∃ x jx, db !! x = Some jx ∧ chain_member db id x ∧ finalize_has_unstamped (j_core_finalize jx) = true) ∧
    cl_jobs (cancel (λ _, false) (cl_jobs log) id j') = cl_jobs log ∧
    cl_signals (cancel (λ _, false) (cl_jobs log) id j') = [].
Proof.
  intros Hj. cbv zeta. set (db' := cl_jobs (cancel _ db id j)).
  destruct (cancel_spec (λ _, false) db id j Hj) as (Hm & Ho & _). fold db' in Hm, Ho.
  assert (Hiff : ∀ x, chain_member db' id x ↔ chain_member db id x) by (intros; by apply cancel_member_iff).
  assert (Hterm : ∀ x jx', db' !! x = Some jx' → chain_member db id x →
            is_terminal (j_status jx') = true ∧ ∃ jx, db !! x = Some jx ∧ j_core_finalize jx' = j_core_finalize jx).
  { intros x jx' Hx' Hr. destruct (db !! x) as [jx|] eqn:Ex.
    - rewrite (Hm x jx Ex Hr) in Hx'. simplify_eq. split; [apply settled_terminal|]. exists jx. split; [done|].
      unfold settle. by destruct (_ || _).
    - rewrite Ho in Hx' by (by right). congruence. }
  split; [|split].
  - intros x jx Hx Hr. rewrite (Hm x jx Hx Hr). unfold settle. by rewrite orb_false_r.
  - intros x Hx. apply Ho. by left.
  - exists (settle (λ _, false) id j).
    assert (Hid : db' !! id = Some (settle (λ _, false) id j)) by (apply Hm; [done|constructor]).
    split; [done|]. destruct (settled_chain db' id _ Hid) as (Hp & Hsame & Hsig).
    { intros x jx' Hx' Hr%Hiff. by destruct (Hterm _ _ Hx' Hr). }
    split; [|done]. rewrite Hp. split.
    + intros (x & jx' & Hx' & Hr%Hiff & Hf). destruct (Hterm _ _ Hx' Hr) as (_ & jx & Hx & Hfin).
      rewrite Hfin in Hf. eauto.
    + intros (x & jx & Hx & Hr & Hf). exists x, (settle (λ _, false) x jx).
      split; [by apply Hm|]. split; [by apply Hiff|]. unfold settle. by destruct (_ || _).
Qed.

Lemma filter_split_at {A} (P : A → bool) l s1 x s2 :
  List.filter P l = s1 ++ x :: s2 → ∃ l1 l2, l = l1 ++ x :: l2 ∧ s1 = List.filter P l1.
Proof.
  revert s1. induction l as [|y l IH]; intros s1 H; simpl in H; [by destruct s1|].
  destruct (P y) eqn:E.
  - destruct s1 as [|z s1]; simpl in H; [injection H as -> _; by exists [], l|]. injection H as -> H.
    destruct (IH s1 H) as (l1 & l2 & -> & ->). exists (z :: l1), l2. simpl. by rewrite E.
  - destruct (IH s1 H) as (l1 & l2 & -> & ->). exists (y :: l1), l2. simpl. by rewrite E.
Qed.

(** A cancel signals every member that has not ended exactly once, whether or
    not some of them fail to cancel, and leaves first: in a chain without cycles
    no member is cancelled before every member that waits on it has been, so no
    dependent is ever released by the cancel of what it waits on. *)
Theorem cancel_goes_leaves_first raises db id j (rank : string → nat) :
  db !! id = Some j →
  (∀ x jx d, db !! x = Some jx → chain_member db id x → d ∈ j_dependent_ids jx → is_Some (db !! d) →
     (rank d < rank x)%nat) →
  let signals := cl_signals (cancel raises db id j) in
  NoDup signals ∧
  (∀ x, x ∈ signals ↔ chain_member db id x ∧ ∃ jx, db !! x = Some jx ∧ is_terminal (j_status jx) = false) ∧
  ∀ s1 x s2 jx d jd, signals = s1 ++ x :: s2 → db !! x = Some jx → d ∈ j_dependent_ids jx →
    db !! d = Some jd → is_terminal (j_status jd) = false → d ∈ s1.
Proof.
  intros Hj Hrank. cbv zeta. destruct (closure_spec db id j Hj) as [Hnd Hc].
  destruct (cancel_spec raises db id j Hj) as (_ & _ & ->). pose proof (leaves_first_perm _ Hnd) as Hperm.
  assert (Hmem : ∀ x, x ∈ _closure_leaves_first (_chain_closure db id j) ↔ is_Some (db !! x) ∧ chain_member db id x).
  { intros x. rewrite Hperm. by apply closure_member. }
  set (c := _chain_closure db id j) in *. split_and!.
  - apply NoDup_ListNoDup, List.NoDup_filter, NoDup_ListNoDup. by rewrite Hperm.
  - intros x. rewrite list_elem_of_In, filter_In, <-list_elem_of_In, Hmem. unfold cancellable. split.
    + intros [[[jx Hx] Hr] Hn]. rewrite Hx in Hn. apply negb_true_iff in Hn. eauto.
    + intros (Hr & jx & Hx & Ht). rewrite Hx, Ht. eauto.
  - intros s1 x s2 jx d jd Hs Hx Hd Hjd Ht. apply filter_split_at in Hs as (l1 & l2 & Hl & ->).
    assert (Hxr : chain_member db id x) by (apply Hmem; rewrite Hl; set_solver).
    assert (Hdr : chain_member db id d).
    { eapply steps_snoc; [exact Hxr|]. exists jx. split_and!; [done|by right|eauto]. }
    assert (Hax : assoc x c = Some jx) by (apply assoc_of_closure; [done|by apply Hc]).
    assert (Hok : leaves_ok (inner_dependents c) (_closure_leaves_first c)).
    { apply (leaves_loop_ok _ rank); [|by apply initial_inv|by intros [|??]|by rewrite length_fmap].
      intros y e. unfold inner_dependents. destruct (assoc y c) as [jy|] eqn:Ey; [|by intros ?%elem_of_nil].
      apply assoc_of_closure, Hc in Ey as [Hy Hry]; [|done]. rewrite list_elem_of_In, filter_In, <-list_elem_of_In.
      intros [He Hin%mem_spec]. eapply Hrank; [done|done|done|]. by apply (closure_member db id j e Hj). }
    assert (Hd1 : d ∈ l1).
    { eapply Hok; [exact Hl|]. unfold inner_dependents. rewrite Hax, list_elem_of_In, filter_In, <-list_elem_of_In.
      split; [done|]. apply mem_spec. apply (closure_member db id j d Hj). eauto. }
    rewrite list_elem_of_In, filter_In, <-list_elem_of_In. split; [done|]. unfold cancellable. by rewrite Hjd, Ht.
Qed.

(** ** Finalize trees *)
Inductive step_in : fnode → fnode → Prop :=
  | step_self n : step_in n n
  | step_child n c m : c ∈ fn_steps n → step_in c m → step_in n m.

Lemma knot_child_ids_unfold n :
  _knot_child_ids n = fn_declared n ++ flat_map _knot_child_ids (fn_steps n).
Proof. by destruct n. Qed.

Lemma declared_in_ids n m d : step_in n m → d ∈ fn_declared m → d ∈ _knot_child_ids n.
Proof.
  induction 1 as [n|n c m Hc _ IH]; intros Hd; rewrite knot_child_ids_unfold, elem_of_app; [by left|].
  right. rewrite list_elem_of_In, in_flat_map. exists c. split; [by apply list_elem_of_In|]. apply list_elem_of_In. auto.
Qed.

(** A serialised step declares the ids that are derived from its own id. *)
Definition declares (n : fnode) : Prop :=
  ∀ m, step_in n m → fn_declared m = imap (λ i _, knot_child_id (fn_id m) i) (fn_storage m).

Lemma serialize_declares : ∀ dep parent i, declares (_serialize_finalize dep parent i).
Proof.
  fix IH 1. intros [task queue children] parent i m Hm.
  assert (Hsteps : ∀ c, c ∈ fn_steps (_serialize_finalize (CDep task queue children) parent i) → declares c).
  { cbn [_serialize_finalize fn_steps]. generalize (parent +:+ ":cf:" +:+ pretty i) as pid. generalize O as k.
    clear m Hm. induction children as [|d l IHl]; intros k pid c Hc; [by apply elem_of_nil in Hc|].
    destruct (is_core d); [|by eapply IHl]. apply elem_of_cons in Hc as [->|Hc]; [apply IH|by eapply IHl]. }
  inversion Hm as [|n c m' Hc Hm']; subst; [done|]. by eapply Hsteps.
Qed.

(** The graph of a chain names each storage child of a finalize step by one
    id: at every depth of a serialised tree the ids a step looks its children up
    by are the ids derived from the step, and every one of them is on the edge
    list of the anchor; and a fresh tree counts as work outstanding. *)
Theorem knot_edges_are_declared dep parent i m index :
  step_in (_serialize_finalize dep parent i) m → (index < length (fn_storage m))%nat →
  step_knot_child_ids m !! index = Some (knot_child_id (fn_id m) index) ∧
  knot_child_id (fn_id m) index ∈ _knot_child_ids (_serialize_finalize dep parent i) ∧
  finalize_has_unstamped [_serialize_finalize dep parent i] = true.
Proof.
  intros Hm Hi. pose proof (serialize_declares dep parent i m Hm) as Hd.
  assert (Hlook : imap (λ i _, knot_child_id (fn_id m) i) (fn_storage m) !! index = Some (knot_child_id (fn_id m) index)).
  { destruct (lookup_lt_is_Some_2 _ _ Hi) as [x Hx]. by rewrite list_lookup_imap, Hx. }
  split_and!.
  - unfold step_knot_child_ids. rewrite Hd. by destruct (imap _ _) eqn:E.
  - eapply declared_in_ids; [exact Hm|]. rewrite Hd. by eapply list_elem_of_lookup_2.
  - by destruct dep.
Qed.

(** ** Examples *)
Definition ex_step : chain_dep :=
  CDep "update_status" "core" [CDep "move" "storage.p.bulk" []; CDep "storage_update" "core" [CDep "delete" "storage.p.reclaim" []]].
Definition ex_job (s : JobStatus) (deps dependents : list string) (fin : list fnode) : job :=
  mkTaskJob s deps dependents fin (is_terminal s) (is_terminal s) false.
(** A chain [a → b → c] with a finished head, and a job outside it. *)
Definition ex_jobs : jobs :=
  {["a" := ex_job FINISHED [] ["b"] []; "b" := ex_job STARTED ["a"] ["c"; "gone"] [];
    "c" := ex_job DEFERRED ["b"] [] [_serialize_finalize ex_step "c" 0]; "z" := ex_job QUEUED [] [] []]}.

Lemma cancel_settles_the_whole_chain_witness :
  cl_jobs (cancel (λ _, false) ex_jobs "b" (ex_job STARTED ["a"] ["c"; "gone"] [])) !! "b"
  = Some (canceled_job (ex_job STARTED ["a"] ["c"; "gone"] [])).
Proof.
  apply (proj1 (cancel_settles_the_whole_chain ex_jobs "b" _ eq_refl) "b" (ex_job STARTED ["a"] ["c"; "gone"] []));
    [reflexivity|constructor].
Defined.

Lemma cancel_goes_leaves_first_witness :
  cl_signals (cancel (λ _, false) ex_jobs "a" (ex_job FINISHED [] ["b"] [])) = ["c"; "b"] ∧ "c" ∈ ["c"].
Proof.
  split; [by vm_compute|].
  pose (rank := λ x : string, if (x =? "a")%string then 3%nat else if (x =? "b")%string then 2%nat else 1%nat).
  refine (proj2 (proj2 (cancel_goes_leaves_first (λ _, false) ex_jobs "a" (ex_job FINISHED [] ["b"] []) rank eq_refl _))
            ["c"] "b" [] (ex_job STARTED ["a"] ["c"; "gone"] []) "c" (ex_job DEFERRED ["b"] [] [_serialize_finalize ex_step "c" 0]) _ _ _ _ _);
    [|by vm_compute|by vm_compute|left|by vm_compute|by vm_compute].
  intros x jx d Hx _ Hd Hs.
  assert (Hxs : x = "a" ∨ x = "b" ∨ x = "c" ∨ x = "z").
  { unfold ex_jobs in Hx. rewrite !lookup_insert_Some, lookup_singleton_Some in Hx. naive_solver. }
  destruct Hxs as [->|[->|[->| ->]]]; vm_compute in Hx; simplify_eq; simpl in Hd.
  - apply list_elem_of_singleton in Hd as ->. vm_compute. lia.
  - rewrite elem_of_cons, list_elem_of_singleton in Hd. destruct Hd as [->| ->]; vm_compute; lia.
  - by apply elem_of_nil in Hd.
  - by apply elem_of_nil in Hd.
Defined.

Lemma knot_edges_are_declared_witness :
  knot_child_id "c:cf:0" 0 ∈ _knot_child_ids (_serialize_finalize ex_step "c" 0).
Proof.
  destruct (knot_edges_are_declared ex_step "c" 0 (_serialize_finalize ex_step "c" 0) 0) as (_ & H & _);
    [constructor|vm_compute; lia|exact H].
Defined.
