(* ===== verification/Gpu.v ===== *)
(** * GPU profiles and pools

    [component/_common/src/isardvdi_common/lib/gpu_pool_policy.py] (which profile
    a card should run), [vgpu_state.py] (the pool of virtual devices of a card)
    and [bookings/gpu_realizability.py] (which profiles of the catalogue a card
    can no longer realise). Profile ids are strings; the functions pass any other
    value through, which is left out. Regular expressions are written out on
    ASCII characters. *)
From Stdlib Require Import Ascii.
From S2P Require Import Prelude PyVal.

(** ** Suffixes *)
Fixpoint span_digits (s : string) : string * string :=
  match s with
  | EmptyString => (EmptyString, EmptyString)
  | String a s' =>
      if is_digit a then let '(d, r) := span_digits s' in (String a d, r) else (EmptyString, s)
  end.

Definition newline : ascii := "010".

(** [^(\d+)-(\d+[A-Za-z].* )$] *)
Definition mig_dash (s : string) : option (string * string) :=
  match span_digits s with
  | (String _ _ as d, String "-" r) =>
      match span_digits r with
      | (String _ _, String a rest) => if is_alpha a && negb (contains newline rest) then Some (d, r) else None
      | _ => None
      end
  | _ => None
  end.

Definition canonical_suffix (suffix : string) : string :=
  let s := strip suffix in
  match mig_dash s with
  | Some (a, b) => a +:+ "_" +:+ b
  | None => s
  end.

Definition split_qualifier (reservable_id : string) : string * option string :=
  match rpartition_at "~" reservable_id with
  | None => (reservable_id, None)
  | Some (base, name) => (base, if (name =? "")%string then None else Some name)
  end.

Definition canonical_profile_id (reservable_id : string) : string :=
  let '(base, name) := split_qualifier reservable_id in
  let base := match split_max "-" 2 base with
              | [a; b; c] => a +:+ "-" +:+ b +:+ "-" +:+ canonical_suffix c
              | _ => base
              end in
  match name with None => base | Some n => base +:+ "~" +:+ n end.

Definition profile_suffix_from_id (reservable_id : string) : string :=
  let '(base, _) := split_qualifier reservable_id in
  let cid := canonical_profile_id base in
  canonical_suffix (match split_max "-" 2 cid with [_; _; c] => c | _ => cid end).

Definition bare_suffix (reservable_id : string) : string :=
  let '(base, _) := split_qualifier reservable_id in
  match split_max "-" 2 base with [_; _; c] => canonical_suffix c | _ => base end.

(** ** What a card should run *)
Inductive gpu_action :=
  | skip_retry (profile : string)
  | skip_fault (profile : string)
  | refuse_passthrough
  | apply_profile (profile : string)
  | seed_and_apply (profile : string)
  | keep_current (profile : string)
  | skip_noop.

(** [a or b] of optional strings *)
Definition or_str (a b : option string) : option string :=
  match a with
  | Some s => if (s =? "")%string then b else a
  | None => b
  end.

(** A string that is not empty. *)
Definition truthy_str (a : option string) : option string := or_str a None.

Definition decide_reconcile_action (requested_profile scheduled_profile : option string)
    (available_types : list string) (sriov_totalvfs : Z) (operator_passthrough : bool)
    (fallback_default : option string) (keep : bool) : gpu_action :=
  let effective := or_str scheduled_profile requested_profile in
  let only_passthrough := bool_decide (available_types = [] ∨ available_types = ["passthrough"]) in
  let canon_available := canonical_suffix <$> available_types in
  match truthy_str effective with
  | Some e =>
      if negb (mem (canonical_suffix e) canon_available) then
        if only_passthrough && (0 <? sriov_totalvfs)%Z then skip_retry e else skip_fault e
      else if (e =? "passthrough")%string && negb operator_passthrough
              && negb (bool_decide (scheduled_profile = Some "passthrough"))
      then refuse_passthrough
      else apply_profile e
  | None =>
      match truthy_str fallback_default with
      | None => skip_noop
      | Some f =>
          match requested_profile with
          | None =>
              if operator_passthrough then seed_and_apply "passthrough"
              else if keep then keep_current f
              else seed_and_apply f
          | Some _ => apply_profile f
          end
      end
  end.

(** ** The pool of a card *)
Record mdev := mkMdev {
  md_started : option string;    (** [domain_started], [None] for [False] *)
  md_reserved : option string;   (** [domain_reserved] *)
  md_other : list (string * pyval);
}.

(** [{profile: {uuid: entry}}] in the order of the dicts; [None] where the stored
    value is not a dict. *)
Notation pool := (list (string * list (string * mdev))) (only parsing).
Notation stored_pool := (list (string * option (list (string * option mdev)))) (only parsing).

Definition by_uuid_step (m : gmap string mdev) (ue : string * option mdev) : gmap string mdev :=
  match ue.2 with Some e => <[ue.1 := e]> m | None => m end.

Definition by_uuid (db : stored_pool) : gmap string mdev :=
  foldl (λ m pe, foldl by_uuid_step m (default [] pe.2)) ∅ db.

Definition no_mdev : mdev := mkMdev None None [].

Definition adopt (running : gset string) (old : gmap string mdev) (u : string) (live : mdev) : mdev :=
  let o := default no_mdev (old !! u) in
  let started := match truthy_str (md_started o) with
                 | Some d => if bool_decide (u ∈ running) then Some d else md_started live
                 | None => md_started live
                 end in
  let reserved := match truthy_str (md_reserved o) with Some d => Some d | None => md_reserved live end in
  mkMdev started reserved (md_other live).

Definition reconcile_pool_to_live (db : stored_pool) (live : pool) (running : gset string) : pool :=
  let old := by_uuid db in
  (λ pe : string * list (string * mdev), (pe.1, (λ ue, (ue.1, adopt running old ue.1 ue.2)) <$> pe.2)) <$> live.

Definition holds (dom_id : string) (e : mdev) : bool :=
  bool_decide (md_started e = Some dom_id) || bool_decide (md_reserved e = Some dom_id).

(** The devices a domain is pinned to, by profile; the patch clears both flags. *)
Definition vgpu_pool_frees_for_domain (db : stored_pool) (dom_id : string) : list (string * list string) :=
  omap (λ pe,
    let us := omap (λ ue, match ue.2 with
                          | Some e => if holds dom_id e then Some ue.1 else None
                          | None => None
                          end) (default [] pe.2) in
    match us with [] => None | _ => Some (pe.1, us) end) db.

(** ** The state a hypervisor reports *)
Record vgpu_row := mkVgpuRow {
  vr_profile : option string;
  vr_requested : option string;
  vr_operator_passthrough : bool;
  vr_reset_at : option Z;
  vr_last_synced_at : option Z;
  vr_changing_to : bool;         (** a change is under way *)
  vr_applied_by_hypervisor : bool;
  vr_mdevs : pool;
}.

(** The update of [build_applied_state_patch], applied to the row. *)
Definition build_applied_state_patch (r : vgpu_row) (applied_profile : string) (mdevs : pool)
    (mdevs_reset_at : option Z) : vgpu_row :=
  let seed := bool_decide (vr_requested r = None) in
  mkVgpuRow (Some applied_profile)
    (if seed then Some applied_profile else vr_requested r)
    (if seed && (applied_profile =? "passthrough")%string then true else vr_operator_passthrough r)
    (vr_reset_at r)
    (match mdevs_reset_at with Some t => Some t | None => vr_last_synced_at r end)
    false true mdevs.

(** ** What a card can realise *)
Record gpu_payload := mkGpuPayload {
  gp_vgpu_profiles : option (list (option string));  (** names; [None] is a failed discovery *)
  gp_mig_profiles : list (option string);
}.

Definition vgpu_suffix (name : option string) : option string :=
  match name with
  | Some n => match partition_at "-" n with Some (_, s) => Some (canonical_suffix s) | None => None end
  | None => None
  end.

Definition realizable_suffixes (p : gpu_payload) : option (list string) :=
  match gp_vgpu_profiles p with
  | None => None
  | Some names =>
      Some ("passthrough" :: omap vgpu_suffix names
            ++ omap (λ n, canonical_suffix <$> n) (gp_mig_profiles p))
  end.

(** [int(sriov_totalvfs or 0)], 0 when it is no number *)
Definition sriov_count (v : pyval) : res Z :=
  catch (py_int (if truthy v then v else PInt 0)) [TypeError; ValueError] 0%Z.

Definition reading_trustworthy (p : gpu_payload) (sriov_totalvfs : pyval) : res bool :=
  match realizable_suffixes p with
  | None => Ok false
  | Some suffixes =>
      sriov ← sriov_count sriov_totalvfs;
      Ok (negb (forallb (λ s, (s =? "passthrough")%string) suffixes && (0 <? sriov)%Z))
  end.

Definition full_id (model suffix : string) : string := "NVIDIA-" +:+ model +:+ "-" +:+ suffix.

Definition realizable_profile_ids (model : string) (p : gpu_payload) : option (list string) :=
  match realizable_suffixes p with
  | Some l => Some (full_id model <$> l)
  | None => None
  end.

Record card := mkCard {
  cd_id : string;
  cd_profiles_enabled : list string;
  cd_payload : option gpu_payload;
  cd_sriov : pyval;
}.

(** What a trustworthy reading prunes of a card. *)
Definition unrealizable (model : string) (ids : list string) (enabled_id : string) : bool :=
  String.prefix ("NVIDIA-" +:+ model +:+ "-") enabled_id
  && negb (mem (canonical_profile_id (split_qualifier enabled_id).1) (canonical_profile_id <$> ids)).

Definition card_prunes (model : string) (c : card) : res (list (string * string)) :=
  match cd_payload c with
  | None => Ok []
  | Some p =>
      trusted ← reading_trustworthy p (cd_sriov c);
      if (trusted : bool) then
        match realizable_profile_ids model p with
        | Some ids => Ok ((λ e, (cd_id c, e)) <$> List.filter (unrealizable model ids) (cd_profiles_enabled c))
        | None => Raise TypeError
        end
      else Ok []
  end.

Fixpoint all_prunes (model : string) (cards : list card) : res (list (string * string)) :=
  match cards with
  | [] => Ok []
  | c :: cards =>
      here ← card_prunes model c;
      rest ← all_prunes model cards;
      Ok (here ++ rest)
  end.

Definition pair_leb (x y : string * string) : bool :=
  if (x.1 =? y.1)%string then String.leb x.2 y.2 else String.leb x.1 y.1.

Definition plan_card_prunes (model : string) (cards : list card) : res (list (string * string)) :=
  l ← all_prunes model cards;
  Ok (py_sorted pair_leb (remove_dups l)).

(** ** Lemmas on the spelling of profiles *)
Lemma rev_app_app s u : String.rev_app s u = String.rev s +:+ u.
Proof.
  unfold String.rev. revert u. induction s as [|a s IH]; intros u; simpl; [done|].
  rewrite IH, (IH (String a "")). by rewrite app_assoc_str.
Qed.

Lemma rev_String a s : String.rev (String a s) = String.rev s +:+ String a "".
Proof. unfold String.rev at 1. simpl. apply rev_app_app. Qed.

Lemma rev_append s t : String.rev (s +:+ t) = String.rev t +:+ String.rev s.
Proof.
  induction s as [|a s IH].
  - simpl. by rewrite app_nil_r_str.
  - change (String a s +:+ t) with (String a (s +:+ t)).
    by rewrite !rev_String, IH, app_assoc_str.
Qed.

Lemma rev_rev s : String.rev (String.rev s) = s.
Proof. induction s as [|a s IH]; [done|]. by rewrite rev_String, rev_append, IH. Qed.

(** No leading white space. *)
Definition no_lead (s : string) : Prop :=
  match s with String a _ => is_space a = false | EmptyString => True end.

Lemma lstrip_no_lead s : no_lead (lstrip s).
Proof. induction s as [|a s IH]; simpl; [done|]. by destruct (is_space a) eqn:E. Qed.

Lemma lstrip_id s : no_lead s → lstrip s = s.
Proof. destruct s; simpl; [done|]. by intros ->. Qed.

Lemma lstrip_suffix s : ∃ w, s = w +:+ lstrip s.
Proof.
  induction s as [|a s [w IH]]; simpl; [by exists ""|].
  destruct (is_space a); [|by exists ""]. exists (String a w). by rewrite IH at 1.
Qed.

Lemma no_lead_prefix s t : no_lead (s +:+ t) → no_lead s.
Proof. by destruct s. Qed.

Lemma no_lead_app s t : s ≠ "" → no_lead s → no_lead (s +:+ t).
Proof. by destruct s. Qed.

Lemma strip_no_lead s : no_lead (strip s) ∧ no_lead (String.rev (strip s)).
Proof.
  unfold strip. split.
  - destruct (lstrip_suffix (String.rev (lstrip s))) as [w Hw].
    apply (f_equal String.rev) in Hw. rewrite rev_rev, rev_append in Hw.
    eapply no_lead_prefix. rewrite <-Hw. apply lstrip_no_lead.
  - rewrite rev_rev. apply lstrip_no_lead.
Qed.

Lemma strip_id s : no_lead s → no_lead (String.rev s) → strip s = s.
Proof. intros H1 H2. unfold strip. by rewrite (lstrip_id s), lstrip_id, rev_rev. Qed.

Lemma span_digits_app s d r : span_digits s = (d, r) → s = d +:+ r.
Proof.
  revert d. induction s as [|a s IH]; simpl; intros d; [naive_solver|].
  destruct (is_digit a); [|naive_solver]. destruct (span_digits s) as [d' r'].
  intros [= <- <-]. by rewrite (IH d' eq_refl).
Qed.

Lemma span_digits_stop s d r a t :
  span_digits s = (d, r) → is_digit a = false →
  span_digits (d +:+ String a t) = (d, String a t).
Proof.
  intros Hs Ha. revert d Hs. induction s as [|b s IH]; simpl; intros d.
  { intros [= <- <-]. simpl. by rewrite Ha. }
  destruct (is_digit b) eqn:Eb; [|intros [= <- <-]; simpl; by rewrite Ha].
  destruct (span_digits s) as [d' r']. intros [= <- <-]. simpl. by rewrite Eb, (IH d').
Qed.

Lemma mig_dash_Some s a b :
  mig_dash s = Some (a, b) →
  s = a +:+ String "-" b ∧ a ≠ "" ∧ b ≠ "" ∧ ∀ t, mig_dash (a +:+ String "_" t) = None.
Proof.
  unfold mig_dash. destruct (span_digits s) as [d r] eqn:Es.
  destruct d as [|x d]; [done|]. destruct r as [|y r]; [done|].
  destruct (ascii_dec y "-") as [->|Hy]; [|by destruct y as [[] [] [] [] [] [] [] []]].
  destruct (span_digits r) as [d2 r2] eqn:Er. destruct d2 as [|x2 d2]; [done|].
  destruct r2 as [|z r2]; [done|]. destruct (is_alpha z && _); [|done]. intros [= <- <-].
  split_and!; [by apply span_digits_app in Es|done| |].
  - apply span_digits_app in Er. by rewrite Er.
  - intros t. by rewrite (span_digits_stop s (String x d) (String "-" r) "_" t Es).
Qed.

Lemma canonical_suffix_idempotent s : canonical_suffix (canonical_suffix s) = canonical_suffix s.
Proof.
  unfold canonical_suffix at 2 3. destruct (strip_no_lead s) as [Hl Hr].
  destruct (mig_dash (strip s)) as [[a b]|] eqn:Em; unfold canonical_suffix.
  - apply mig_dash_Some in Em as (Hs & Ha & Hb & Hm). rewrite strip_id.
    + change (a +:+ "_" +:+ b) with (a +:+ String "_" b). by rewrite Hm.
    + apply no_lead_app; [done|]. rewrite Hs in Hl. by apply no_lead_prefix in Hl.
    + rewrite Hs in Hr. change (a +:+ "_" +:+ b) with (a +:+ String "_" b).
      rewrite rev_append, rev_String, app_assoc_str in Hr |- *.
      apply no_lead_app; [|by apply no_lead_prefix in Hr].
      intros Hn. apply (f_equal String.rev) in Hn. by rewrite rev_rev in Hn.
  - rewrite strip_id; [|done..]. by rewrite Em.
Qed.

Lemma split_max_app c n a b :
  contains c a = false → split_max c (S n) (a +:+ String c b) = a :: split_max c n b.
Proof. intros Ha. cbn [split_max]. by rewrite partition_at_app. Qed.

Lemma full_id_parts model s :
  contains "-" model = false → split_max "-" 2 (full_id model s) = ["NVIDIA"; model; s].
Proof.
  intros Hm. change (full_id model s) with ("NVIDIA" +:+ String "-" (model +:+ String "-" s)).
  by rewrite !split_max_app.
Qed.

Lemma full_id_inj model s t : full_id model s = full_id model t → s = t.
Proof. unfold full_id. intros H. by do 3 apply app_inj_l in H. Qed.

Lemma canonical_full_id model s :
  contains "-" model = false → contains "~" (full_id model s) = false →
  canonical_profile_id (full_id model s) = full_id model (canonical_suffix s).
Proof.
  intros Hm Ht. unfold canonical_profile_id, split_qualifier.
  by rewrite (proj2 (rpartition_at_None _ _) Ht), full_id_parts.
Qed.

(** ** Pruning *)

(** The names the code documents: no ["~"] in a profile suffix, so at most one in an
    enabled id, and a numeric or absent SR-IOV count. *)
Definition tidy_card (c : card) : bool :=
  forallb (λ e, negb (contains "~" (split_qualifier e).1)) (cd_profiles_enabled c)
  && match cd_payload c with
     | Some p => forallb (λ s, negb (contains "~" s)) (default [] (realizable_suffixes p))
     | None => true
     end
  && match cd_sriov c with PNone | PInt _ => true | _ => false end.

(** The reading of a card this cycle, when it may drive a removal. *)
Definition confirmed_reading (c : card) (suffixes : list string) : Prop :=
  ∃ p, cd_payload c = Some p ∧ realizable_suffixes p = Some suffixes
       ∧ (Forall (λ s, s = "passthrough") suffixes → ∀ n, cd_sriov c = PInt n → (n ≤ 0)%Z).

Section prunes.
Context (model : string).
Hypothesis model_dash : contains "-" model = false.
Hypothesis model_tilde : contains "~" model = false.

Lemma full_id_tilde s : contains "~" (full_id model s) = contains "~" s.
Proof.
  unfold full_id. rewrite !contains_app, model_tilde. done.
Qed.

Lemma qualifier_base e :
  String.prefix ("NVIDIA-" +:+ model +:+ "-") e = true →
  ∃ r, (split_qualifier e).1 = full_id model r ∧ bare_suffix e = canonical_suffix r.
Proof.
  intros [r ->]%prefix_spec. rewrite !app_assoc_str.
  change ("NVIDIA-" +:+ model +:+ "-" +:+ r) with (full_id model r).
  enough (∃ r', (split_qualifier (full_id model r)).1 = full_id model r') as [r' Hr'].
  { exists r'. split; [done|]. unfold bare_suffix.
    destruct (split_qualifier (full_id model r)) as [b n]. simpl in Hr'. subst b.
    by rewrite full_id_parts. }
  unfold split_qualifier. destruct (rpartition_at "~" r) as [[r1 n]|] eqn:Er.
  - apply rpartition_at_Some in Er as [-> Hn]. exists r1.
    replace (full_id model (r1 +:+ String "~" n)) with (full_id model r1 +:+ String "~" n)
      by (unfold full_id; by rewrite !app_assoc_str).
    by rewrite rpartition_at_app.
  - apply rpartition_at_None in Er. rewrite <-full_id_tilde in Er.
    apply rpartition_at_None in Er as ->. by exists r.
Qed.

Lemma realizable_canonical p l s : realizable_suffixes p = Some l → s ∈ l → canonical_suffix s = s.
Proof.
  unfold realizable_suffixes. destruct (gp_vgpu_profiles p) as [names|]; [|done].
  intros [= <-]. rewrite elem_of_cons, elem_of_app, !list_elem_of_omap.
  intros [->|[([n|] & _ & Hn)|([n|] & _ & Hn)]]; simpl in *; [done| |done| |done].
  - destruct (partition_at "-" n) as [[]|]; simplify_eq. apply canonical_suffix_idempotent.
  - simplify_eq. apply canonical_suffix_idempotent.
Qed.

Lemma and_iff_when (P Q R : Prop) : (P → Q ↔ R) → P ∧ Q ↔ P ∧ R.
Proof. tauto. Qed.

(** Comparing full identifiers is comparing bare suffixes. *)
Lemma unrealizable_iff p l e :
  realizable_suffixes p = Some l → (∀ s, s ∈ l → contains "~" s = false) →
  contains "~" (split_qualifier e).1 = false →
  unrealizable model (full_id model <$> l) e = true ↔
  String.prefix ("NVIDIA-" +:+ model +:+ "-") e = true ∧ bare_suffix e ∉ l.
Proof.
  intros Hp Hl He. unfold unrealizable. rewrite andb_true_iff, negb_true_iff, mem_false.
  apply and_iff_when. intros (r & Hr & ->)%qualifier_base. rewrite Hr in *.
  rewrite canonical_full_id by done. apply not_iff_compat.
  rewrite list_elem_of_fmap. setoid_rewrite list_elem_of_fmap. split.
  - intros (? & Heq & s & -> & Hs). rewrite canonical_full_id in Heq by (rewrite ?full_id_tilde; auto).
    apply full_id_inj in Heq. by rewrite Heq, (realizable_canonical p l).
  - intros Hs. exists (full_id model (canonical_suffix r)). split; [|eauto].
    by rewrite canonical_full_id, canonical_suffix_idempotent by (rewrite ?full_id_tilde; auto).
Qed.
End prunes.

Lemma only_passthrough_iff l :
  forallb (λ s, (s =? "passthrough")%string) l = true ↔ Forall (λ s, s = "passthrough") l.
Proof.
  induction l as [|s l IH]; simpl; [by split|].
  by rewrite andb_true_iff, IH, String.eqb_eq, Forall_cons.
Qed.

Lemma trustworthy_iff p n l :
  realizable_suffixes p = Some l → n = PNone ∨ (∃ z, n = PInt z) →
  ∃ b, reading_trustworthy p n = Ok b
    ∧ (b = true ↔ (Forall (λ s, s = "passthrough") l → ∀ z, n = PInt z → (z ≤ 0)%Z)).
Proof.
  intros Hp Hn. unfold reading_trustworthy. rewrite Hp.
  assert (∃ z, sriov_count n = Ok z ∧ (0 < z ↔ ∃ z', n = PInt z' ∧ 0 < z')%Z) as (z & -> & Hz).
  { destruct Hn as [->|[z ->]]; [exists 0%Z; split; [done|]; naive_solver lia|].
    unfold sriov_count. simpl. destruct (Z.eqb_spec z 0) as [->|]; [exists 0%Z|exists z]; (split; [done|naive_solver lia]). }
  simpl. eexists. split; [done|].
  rewrite negb_true_iff, andb_false_iff, <-not_true_iff_false, only_passthrough_iff, Z.ltb_ge.
  assert (Hz' : (z ≤ 0 ↔ ∀ z', n = PInt z' → z' ≤ 0)%Z).
  { split; [intros ? z' ->; destruct (decide (0 < z')%Z); [|lia]; destruct Hz; naive_solver lia|].
    intros H. destruct (decide (0 < z)%Z) as [Hpos|]; [|lia].
    apply Hz in Hpos as (z' & -> & ?). specialize (H z' eq_refl). lia. }
  rewrite Hz'. destruct (decide (Forall (λ s, s = "passthrough") l)); tauto.
Qed.

Lemma forallb_elem {A} (f : A → bool) l x : forallb f l = true → x ∈ l → f x = true.
Proof. rewrite forallb_forall. intros H Hx. by apply H, list_elem_of_In. Qed.

Lemma tidy_card_spec c :
  tidy_card c = true →
  (∀ e, e ∈ cd_profiles_enabled c → contains "~" (split_qualifier e).1 = false)
  ∧ (∀ p l s, cd_payload c = Some p → realizable_suffixes p = Some l → s ∈ l → contains "~" s = false)
  ∧ (cd_sriov c = PNone ∨ ∃ z, cd_sriov c = PInt z).
Proof.
  unfold tidy_card. rewrite !andb_true_iff. intros [[He Hp] Hn]. split_and!.
  - intros e Hin. by apply (forallb_elem _ _ e He), negb_true_iff in Hin.
  - intros p l s Hpl Hl Hs. rewrite Hpl, Hl in Hp. by apply (forallb_elem _ _ s Hp), negb_true_iff in Hs.
  - destruct (cd_sriov c); naive_solver.
Qed.

Lemma card_prunes_spec model c :
  contains "-" model = false → contains "~" model = false → tidy_card c = true →
  ∃ l, card_prunes model c = Ok l ∧ ∀ id e, (id, e) ∈ l ↔
    id = cd_id c ∧ e ∈ cd_profiles_enabled c
    ∧ String.prefix ("NVIDIA-" +:+ model +:+ "-") e = true
    ∧ ∃ suffixes, confirmed_reading c suffixes ∧ bare_suffix e ∉ suffixes.
Proof.
  intros Hd Ht (He & Hl & Hn)%tidy_card_spec. unfold card_prunes, confirmed_reading.
  destruct (cd_payload c) as [p|] eqn:Hp; [|exists []; split; [done|]; set_solver].
  destruct (realizable_suffixes p) as [l|] eqn:Hr.
  2:{ exists []. unfold reading_trustworthy. rewrite Hr. split; [done|]. set_solver. }
  destruct (trustworthy_iff p (cd_sriov c) l Hr Hn) as (b & -> & Hb). simpl.
  destruct b.
  2:{ exists []. split; [done|]. intros id e. split; [set_solver|].
      intros (_ & _ & _ & s & (p' & [= <-] & [= <-]%(eq_trans (eq_sym Hr)) & Hs) & _). naive_solver. }
  unfold realizable_profile_ids. rewrite Hr. eexists. split; [done|]. intros id e.
  rewrite list_elem_of_fmap. setoid_rewrite list_elem_of_In. setoid_rewrite filter_In.
  setoid_rewrite <-list_elem_of_In. split.
  - intros (e' & [= -> ->] & Hin & Hu). apply (unrealizable_iff _ Hd Ht p l) in Hu; naive_solver.
  - intros (-> & Hin & Hpre & s & (p' & [= <-] & Hs & _) & Hnot). simplify_eq.
    exists e. split_and!; [done..|]. apply (unrealizable_iff _ Hd Ht p l); naive_solver.
Qed.

Lemma all_prunes_spec model cards :
  contains "-" model = false → contains "~" model = false → forallb tidy_card cards = true →
  ∃ l, all_prunes model cards = Ok l ∧ ∀ id e, (id, e) ∈ l ↔ ∃ c, c ∈ cards
    ∧ id = cd_id c ∧ e ∈ cd_profiles_enabled c
    ∧ String.prefix ("NVIDIA-" +:+ model +:+ "-") e = true
    ∧ ∃ suffixes, confirmed_reading c suffixes ∧ bare_suffix e ∉ suffixes.
Proof.
  intros Hd Ht. induction cards as [|c cards IH]; simpl.
  { intros _. exists []. split; [done|]. set_solver. }
  rewrite andb_true_iff. intros [(l & -> & Hl)%(card_prunes_spec model) (r & -> & Hr)%IH]; [|done..].
  simpl. eexists. split; [done|]. intros id e. rewrite elem_of_app, Hl, Hr.
  setoid_rewrite elem_of_cons. naive_solver.
Qed.

(** for a model name without a dash or a qualifier and cards named as the code
    documents, [plan_card_prunes] succeeds and disables a profile on a card exactly
    when the card was read this cycle, the reading can be trusted (it is not the
    passthrough-only reading of an SR-IOV card), the profile belongs to the model and
    the bare suffix of its id, whatever its spelling or qualifier, is missing from that
    reading; each removal is planned once, and no form of passthrough is ever
    removed. *)
Theorem prunes_are_justified model cards :
  contains "-" model = false → contains "~" model = false → forallb tidy_card cards = true →
  ∃ plan, plan_card_prunes model cards = Ok plan ∧ NoDup plan
    ∧ (∀ id e, (id, e) ∈ plan ↔ ∃ c, c ∈ cards
         ∧ id = cd_id c ∧ e ∈ cd_profiles_enabled c
         ∧ String.prefix ("NVIDIA-" +:+ model +:+ "-") e = true
         ∧ ∃ suffixes, confirmed_reading c suffixes ∧ bare_suffix e ∉ suffixes)
    ∧ (∀ id e, (id, e) ∈ plan → bare_suffix e ≠ "passthrough").
Proof.
  intros Hd Ht Hc. destruct (all_prunes_spec model cards Hd Ht Hc) as (l & Hl & Hspec).
  unfold plan_card_prunes. rewrite Hl. eexists. split; [done|].
  assert (Hin : ∀ id e, (id, e) ∈ py_sorted pair_leb (remove_dups l) ↔ (id, e) ∈ l).
  { intros. by rewrite elem_of_py_sorted, elem_of_remove_dups. }
  split_and!.
  - rewrite py_sorted_perm. apply NoDup_remove_dups.
  - intros id e. by rewrite Hin, Hspec.
  - intros id e (c & _ & _ & _ & _ & s & (p & _ & Hs & _) & Hnot)%Hin%Hspec Heq.
    rewrite Heq in Hnot. unfold realizable_suffixes in Hs.
    destruct (gp_vgpu_profiles p); simplify_eq. set_solver.
Qed.

Definition example_cards : list card :=
  [mkCard "g1" ["NVIDIA-A40-8Q"; "NVIDIA-A40-1-2Q~lab"; "NVIDIA-A40-passthrough~rack"; "NVIDIA-L40-4Q"]
     (Some (mkGpuPayload (Some [Some "NVIDIA A40-4Q"; Some "NVIDIA A40-1_2Q"]) [])) (PInt 16);
   mkCard "g2" ["NVIDIA-A40-8Q"] (Some (mkGpuPayload (Some []) [])) (PInt 16);
   mkCard "g3" ["NVIDIA-A40-8Q"] None PNone].

Lemma prunes_are_justified_witness :
  plan_card_prunes "A40" example_cards = Ok [("g1", "NVIDIA-A40-8Q")]
  ∧ ∃ plan, plan_card_prunes "A40" example_cards = Ok plan ∧ NoDup plan.
Proof.
  split; [reflexivity|].
  destruct (prunes_are_justified "A40" example_cards) as (plan & H & Hn & _);
    [reflexivity..|]. eauto.
Defined.

(** ** The pool *)
Definition pool_entry (db : pool) (profile u : string) (e : mdev) : Prop :=
  ∃ entries, (profile, entries) ∈ db ∧ (u, e) ∈ entries.

Definition as_stored (db : pool) : stored_pool :=
  (λ pe : string * list (string * mdev), (pe.1, Some ((λ ue, (ue.1, Some ue.2)) <$> pe.2))) <$> db.

(** The patch of [vgpu_pool_frees_for_domain], merged into the row by the database. *)
Definition merge_frees (frees : list (string * list string)) (db : pool) : pool :=
  (λ pe : string * list (string * mdev),
     (pe.1, (λ ue, if existsb (λ f, (f.1 =? pe.1)%string && mem ue.1 f.2) frees
                   then (ue.1, mkMdev None None (md_other ue.2)) else ue) <$> pe.2)) <$> db.

Lemma reconcile_entry db live running profile u e :
  pool_entry (reconcile_pool_to_live db live running) profile u e ↔
  ∃ e0, pool_entry live profile u e0 ∧ e = adopt running (by_uuid db) u e0.
Proof.
  unfold pool_entry, reconcile_pool_to_live. split.
  - intros (es & ([p es0] & [= -> ->] & Hp)%list_elem_of_fmap & ([u0 e0] & [= -> ->] & Hu)%list_elem_of_fmap).
    naive_solver.
  - intros (e0 & (es & Hp & Hu) & ->). eexists. split.
    + apply list_elem_of_fmap. by exists (profile, es).
    + apply list_elem_of_fmap. by exists (u, e0).
Qed.

Lemma by_uuid_sound db u e :
  by_uuid db !! u = Some e → ∃ profile es, (profile, Some es) ∈ db ∧ (u, Some e) ∈ es.
Proof.
  unfold by_uuid.
  assert (H2 : ∀ es (m : gmap string mdev), foldl by_uuid_step m es !! u = Some e →
                m !! u = Some e ∨ (u, Some e) ∈ es).
  { induction es as [|[u' [e'|]] es IH]; simpl; [by left|intros m [H|H]%IH; [|set_solver] ..].
    - unfold by_uuid_step in H. simpl in H. apply lookup_insert_Some in H. set_solver.
    - by left. }
  assert (H1 : ∀ (db : stored_pool) (m : gmap string mdev),
     foldl (λ m pe, foldl by_uuid_step m (default [] pe.2)) m db !! u = Some e →
     m !! u = Some e ∨ ∃ profile es, (profile, Some es) ∈ db ∧ (u, Some e) ∈ es).
  { clear db. intros db. induction db as [|[p [es|]] db IH]; simpl; [by left|intros m [H|H]%IH ..];
      try (right; set_solver).
    - apply H2 in H as [H|H]; [by left|right; set_solver].
    - by left. }
  intros [H|H]%H1; [|done]. by rewrite lookup_empty in H.
Qed.

(** The devices of a stored pool, each under its uuid. *)
Definition stored_entries (db : stored_pool) : list (string * option mdev) :=
  concat ((λ pe : string * option (list (string * option mdev)), default [] pe.2) <$> db).

Lemma by_uuid_foldl (db : stored_pool) (m : gmap string mdev) :
  foldl (λ m pe, foldl by_uuid_step m (default [] pe.2)) m db = foldl by_uuid_step m (stored_entries db).
Proof.
  revert m. induction db as [|pe db IH]; intros m; [done|].
  unfold stored_entries in *. cbn [foldl fmap list_fmap concat]. by rewrite foldl_app, IH.
Qed.

Lemma by_uuid_step_keeps es (m : gmap string mdev) u :
  u ∉ es.*1 → foldl by_uuid_step m es !! u = m !! u.
Proof.
  revert m. induction es as [|[u' [e'|]] es IH]; intros m; simpl; [done|..];
    intros [Hu Hes]%not_elem_of_cons; rewrite IH by done; [|done].
  unfold by_uuid_step. simpl. by rewrite lookup_insert_ne.
Qed.

Lemma by_uuid_complete db u e :
  NoDup (stored_entries db).*1 → (u, Some e) ∈ stored_entries db → by_uuid db !! u = Some e.
Proof.
  unfold by_uuid. rewrite by_uuid_foldl. generalize (∅ : gmap string mdev).
  generalize (stored_entries db). induction l as [|[u' e'] l IH]; intros m; [set_solver|].
  simpl. intros [Hu Hl]%NoDup_cons [[= -> <-]|Hin]%elem_of_cons; [|eauto].
  rewrite by_uuid_step_keeps by done. unfold by_uuid_step. simpl. apply lookup_insert_eq.
Qed.

(** the pool rebuilt from the host has exactly the devices of the host under their
    profiles and, when every uuid is stored once, a device a running desktop was
    started on keeps that desktop and a reserved device keeps its reservation; a
    desktop is marked as started on a device only when the host reported it so or
    when it was so marked and the device is running, so a stale mark never survives;
    the host's other fields are untouched. *)
Theorem reconciled_pool_is_live_and_keeps_desktops db live running profile u :
  NoDup (stored_entries db).*1 →
  let out := reconcile_pool_to_live db live running in
  out.*1 = live.*1
  ∧ ((∃ e, pool_entry out profile u e) ↔ ∃ e, pool_entry live profile u e)
  ∧ ∀ e, pool_entry out profile u e → ∃ e0, pool_entry live profile u e0 ∧ md_other e = md_other e0
      ∧ (∀ old d, (u, Some old) ∈ stored_entries db → d ≠ "" →
           (md_reserved old = Some d → md_reserved e = Some d)
           ∧ (md_started old = Some d → u ∈ running → md_started e = Some d))
      ∧ (∀ d, md_started e = Some d → md_started e0 = Some d
           ∨ u ∈ running ∧ ∃ p es old, (p, Some es) ∈ db ∧ (u, Some old) ∈ es ∧ md_started old = Some d).
Proof.
  intros Hnd out. split; [|split].
  - unfold out, reconcile_pool_to_live. rewrite <-list_fmap_compose. by apply list_fmap_ext.
  - split; [intros [e (e0 & ? & _)%reconcile_entry]; eauto|].
    intros [e0 He0]. eexists. apply reconcile_entry. eauto.
  - intros e (e0 & He0 & ->)%reconcile_entry. exists e0. split_and!; [done..| |].
    + intros old d Hin Hd. unfold adopt. rewrite (by_uuid_complete db u old) by done. simpl.
      split; intros Heq; rewrite Heq; simpl; apply String.eqb_neq in Hd; rewrite Hd; [done|].
      intros Hrun. by rewrite bool_decide_eq_true_2.
    + intros d Hd. unfold adopt in Hd. simpl in Hd.
      destruct (by_uuid db !! u) as [old|] eqn:Ho; simpl in Hd; [|by left].
      destruct (md_started old) as [d'|] eqn:Hs; simpl in Hd; [|by left].
      destruct (d' =? "")%string; simpl in Hd; [by left|].
      case_bool_decide; [|by left]. simplify_eq.
      apply by_uuid_sound in Ho as (p & es & ? & ?). right. naive_solver.
Qed.

Lemma reconciled_pool_is_live_and_keeps_desktops_witness :
  let db := [("4Q", Some [("u1", Some (mkMdev (Some "d1") None [])); ("u2", Some (mkMdev (Some "d2") (Some "d3") []))])] in
  let live := [("4Q", [("u1", no_mdev); ("u2", no_mdev); ("u4", no_mdev)])] in
  reconcile_pool_to_live db live {["u1"]}
  = [("4Q", [("u1", mkMdev (Some "d1") None []); ("u2", mkMdev None (Some "d3") []); ("u4", no_mdev)])]
  ∧ ((∃ e, pool_entry (reconcile_pool_to_live db live {["u1"]}) "4Q" "u4" e)
     ↔ ∃ e, pool_entry live "4Q" "u4" e).
Proof.
  intros db live. split; [reflexivity|].
  apply (reconciled_pool_is_live_and_keeps_desktops db live {["u1"]} "4Q" "u4").
  by apply (bool_decide_unpack _).
Defined.

Lemma frees_spec (db : pool) dom p u :
  existsb (λ f, (f.1 =? p)%string && mem u f.2) (vgpu_pool_frees_for_domain (as_stored db) dom) = true
  ↔ ∃ e, pool_entry db p u e ∧ holds dom e = true.
Proof.
  rewrite existsb_exists. setoid_rewrite <-list_elem_of_In. unfold vgpu_pool_frees_for_domain, pool_entry.
  setoid_rewrite list_elem_of_omap. setoid_rewrite andb_true_iff. setoid_rewrite mem_spec. split.
  - intros ([p' us] & ([p0 es0] & ([p1 es] & [= -> ->] & Hp)%list_elem_of_fmap & Hf) & Heq & Hu).
    simpl in *. apply String.eqb_eq in Heq as ->.
    set (l := omap _ _) in Hf. assert (Hl : (p1, l) = (p, us)) by (destruct l; naive_solver).
    injection Hl as -> <-. apply list_elem_of_omap in Hu as ([u0 e0] & ([u1 e] & [= -> ->] & He)%list_elem_of_fmap & Hh).
    simpl in Hh. destruct (holds dom e) eqn:Ee; naive_solver.
  - intros (e & (es & Hp & Hu) & Hh).
    set (l := omap (λ ue : string * option mdev, match ue.2 with
                      | Some e => if holds dom e then Some ue.1 else None | None => None end)
                   ((λ ue, (ue.1, Some ue.2)) <$> es)).
    assert (Hin : u ∈ l).
    { apply list_elem_of_omap. exists (u, Some e). simpl. rewrite Hh. split; [|done].
      apply list_elem_of_fmap. by exists (u, e). }
    exists (p, l). split_and!; [|apply String.eqb_refl|done].
    exists (p, Some ((λ ue, (ue.1, Some ue.2)) <$> es)). split; [apply list_elem_of_fmap; by exists (p, es)|].
    simpl. fold l. destruct l; [set_solver|done].
Qed.

Lemma NoDup_fst_inj {A B} (l : list (A * B)) a b b' :
  NoDup l.*1 → (a, b) ∈ l → (a, b') ∈ l → b = b'.
Proof.
  induction l as [|[a0 b0] l IH]; simpl; [set_solver|]. intros [Ha Hl]%NoDup_cons.
  assert (Hout : ∀ x, (a0, x) ∈ l → False).
  { intros x Hx. apply Ha, list_elem_of_fmap. by exists (a0, x). }
  rewrite !elem_of_cons. naive_solver.
Qed.

(** Releasing a stopped desktop clears both marks of exactly the devices it holds, on
    every profile of the card, and changes nothing else. *)
Theorem release_frees_exactly_the_domain (db : pool) dom :
  NoDup db.*1 → (∀ p es, (p, es) ∈ db → NoDup es.*1) →
  merge_frees (vgpu_pool_frees_for_domain (as_stored db) dom) db
  = (λ pe : string * list (string * mdev),
       (pe.1, (λ ue, if holds dom ue.2 then (ue.1, mkMdev None None (md_other ue.2)) else ue) <$> pe.2)) <$> db.
Proof.
  intros Hdb Hes. apply list_fmap_ext. intros i [p es] Hi%list_elem_of_lookup_2. simpl. f_equal.
  apply list_fmap_ext. intros j [u e] Hj%list_elem_of_lookup_2. simpl.
  replace (existsb _ _) with (holds dom e); [done|]. symmetry. apply eq_true_iff_eq.
  rewrite frees_spec. split; [|intros; exists e; unfold pool_entry; eauto].
  intros (e' & (es' & Hp & Hu) & Hh). rewrite (NoDup_fst_inj db p es es') in Hj by done.
  by rewrite (NoDup_fst_inj es' u e e') by eauto.
Qed.

(** ** What reconciliation applies *)

(** A profile is applied over a stated intent only when the card offers it in some
    spelling; the destructive switch to passthrough needs the operator, the calendar
    or a caller whose default it is; and a missing profile is retried exactly when the
    discovery of an SR-IOV card looks incomplete, never applied. *)
Theorem reconcile_action_is_safe requested scheduled types sriov operator fallback keep :
  let effective := truthy_str (or_str scheduled requested) in
  let offered e := canonical_suffix e ∈ canonical_suffix <$> types in
  match decide_reconcile_action requested scheduled types sriov operator fallback keep with
  | apply_profile p | seed_and_apply p | keep_current p =>
      (effective = Some p ∧ offered p ∨ effective = None)
      ∧ (p = "passthrough" → operator = true ∨ scheduled = Some "passthrough"
                             ∨ effective = None ∧ fallback = Some "passthrough")
  | skip_retry p => effective = Some p ∧ ¬ offered p ∧ (0 < sriov)%Z ∧ (types = [] ∨ types = ["passthrough"])
  | skip_fault p => effective = Some p ∧ ¬ offered p ∧ ((sriov ≤ 0)%Z ∨ types ≠ [] ∧ types ≠ ["passthrough"])
  | refuse_passthrough => effective = Some "passthrough" ∧ operator = false ∧ scheduled ≠ Some "passthrough"
  | skip_noop => effective = None ∧ truthy_str fallback = None
  end.
Proof.
  intros effective offered. unfold decide_reconcile_action. fold effective.
  destruct effective as [e|] eqn:Ee.
  - destruct (mem _ _) eqn:Em; simpl.
    + apply mem_spec in Em. destruct (String.eqb_spec e "passthrough") as [->|]; simpl; [|naive_solver].
      destruct operator; simpl; [naive_solver|]. case_bool_decide; simpl; naive_solver.
    + apply mem_false in Em. case_bool_decide; simpl; [destruct (Z.ltb_spec 0 sriov)|]; naive_solver lia.
  - destruct fallback as [f|]; simpl; [|done].
    destruct (f =? "")%string eqn:Ef; simpl; [done|].
    destruct requested, operator, keep; naive_solver.
Qed.

(** The row written after the first application on a card without an intent is stable:
    with no booking the next reconciliation applies the same profile, passthrough
    included, and with the reset time of the card the pool is not rebuilt. An existing
    intent is kept. *)
Theorem applied_state_is_confirmed r p mdevs t types sriov fallback keep :
  p ≠ "" → canonical_suffix p ∈ canonical_suffix <$> types →
  let r' := build_applied_state_patch r p mdevs (Some t) in
  (vr_requested r = None →
     decide_reconcile_action (vr_requested r') None types sriov (vr_operator_passthrough r') fallback keep
     = apply_profile p)
  ∧ (∀ q, vr_requested r = Some q →
       vr_requested r' = Some q ∧ vr_operator_passthrough r' = vr_operator_passthrough r)
  ∧ vr_profile r' = Some p ∧ vr_last_synced_at r' = Some t ∧ vr_mdevs r' = mdevs.
Proof.
  intros Hp%String.eqb_neq Hin%mem_spec r'. unfold r', build_applied_state_patch. simpl. split_and!; [| |done..].
  - intros ->. unfold decide_reconcile_action. simpl. rewrite Hp, Hin. simpl.
    by destruct (String.eqb_spec p "passthrough") as [->|].
  - by intros q ->.
Qed.
