(* ===== verification/ResourceLock.v ===== *)
(** * Resource locks

    [component/_common/src/isardvdi_common/helpers/resource_lock.py]: a critical
    section on named resources, held as leases of the lock service. Threads enter
    sections, also nested ones, acquire the keys of a section one by one in sorted
    order, run the body and release.

    The lock service is the redis lock of the client library: an acquired lease
    carries a token of its own, it is granted while no lease is on the key, a
    release with another token fails, and a lease lapses on its own after its
    time to live. Waiting is the absence of a step; giving up after the waiting
    time, an unreachable service and a lapse are steps that may come at any
    moment, so no clock is needed. A release that does not reach the service is not
    a step of the model: it leaves its lease to lapse. *)
From S2P Require Import Prelude PyVal.

(** ** The state *)
Inductive phase := Acquiring | Inside | Leaving.
#[export] Instance phase_eq_dec : EqDecision phase.
Proof. solve_decision. Defined.

Record section := mkSection {
  sc_keys : list string;             (** the arguments of the call *)
  sc_wanted : list string;           (** sorted, not held on entry *)
  sc_todo : list string;             (** still to be acquired *)
  sc_acquired : list (string * nat); (** the locks taken with their tokens, last first *)
  sc_phase : phase;
  sc_error : option exn;             (** what the call raises *)
}.

Record thread := mkThread {
  th_held : gset string;             (** [_held.keys] *)
  th_sections : list section;        (** innermost first *)
}.

(** A lease is the thread and the token it was granted to. *)
Record locks := mkLocks {
  lk_leases : gmap string (nat * nat);
  lk_threads : gmap nat thread;
  lk_next : nat;                     (** the next token *)
}.

Definition no_thread : thread := mkThread ∅ [].
Definition thread_of (s : locks) (t : nat) : thread := default no_thread (lk_threads s !! t).

(** [_held_keys] *)
Definition _held_keys (s : locks) (t : nat) : gset string := th_held (thread_of s t).

Definition set_thread (s : locks) (t : nat) (th : thread) : locks :=
  mkLocks (lk_leases s) (<[t := th]> (lk_threads s)) (lk_next s).

(** ** The steps of a call *)
Definition wanted_keys (held : gset string) (keys : list string) : list string :=
  py_sorted String.leb (remove_dups (List.filter (λ k, negb (bool_decide (k ∈ held))) keys)).

(** Outside of any section, or in the body of one. *)
Definition runs_body (th : thread) : bool :=
  match th_sections th with c :: _ => bool_decide (sc_phase c = Inside) | [] => true end.

Definition new_section (held : gset string) (keys : list string) : section :=
  let wanted := wanted_keys held keys in
  mkSection keys wanted wanted [] (if bool_decide (wanted = []) then Inside else Acquiring) None.

Definition enter (t : nat) (keys : list string) (s : locks) : option locks :=
  let th := thread_of s t in
  if runs_body th
  then Some (set_thread s t (mkThread (th_held th) (new_section (th_held th) keys :: th_sections th)))
  else None.

(** [lock.acquire()] answers yes. *)
Definition acquire (t : nat) (s : locks) : option locks :=
  let th := thread_of s t in
  match th_sections th with
  | mkSection keys wanted (k :: todo) acquired Acquiring err :: cs =>
      match lk_leases s !! k with
      | Some _ => None
      | None =>
          let c := mkSection keys wanted todo ((k, lk_next s) :: acquired)
                     (if bool_decide (todo = []) then Inside else Acquiring) err in
          Some (mkLocks (<[k := (t, lk_next s)]> (lk_leases s))
                  (<[t := mkThread ({[k]} ∪ th_held th) (c :: cs)]> (lk_threads s)) (S (lk_next s)))
      end
  | _ => None
  end.

(** [lock.acquire()] answers no after the waiting time, or raises. *)
Definition abandon_wait (unreachable : bool) (t : nat) (s : locks) : option locks :=
  let th := thread_of s t in
  match th_sections th with
  | mkSection keys wanted todo acquired Acquiring err :: cs =>
      let e := if unreachable then InternalServerError else Error429 "resource_busy" in
      Some (set_thread s t (mkThread (th_held th) (mkSection keys wanted todo acquired Leaving (Some e) :: cs)))
  | _ => None
  end.

(** The body of the section ends, with its own error if it raised. *)
Definition leave_body (err : option exn) (t : nat) (s : locks) : option locks :=
  let th := thread_of s t in
  match th_sections th with
  | mkSection keys wanted todo acquired Inside _ :: cs =>
      Some (set_thread s t (mkThread (th_held th) (mkSection keys wanted todo acquired Leaving err :: cs)))
  | _ => None
  end.

(** One turn of [for lock in reversed(acquired)]: the release of a lease that lapsed
    raises in the client and is logged. *)
Definition release (t : nat) (s : locks) : option locks :=
  let th := thread_of s t in
  match th_sections th with
  | mkSection keys wanted todo ((k, tok) :: acquired) Leaving err :: cs =>
      let leases := if bool_decide (lk_leases s !! k = Some (t, tok)) then delete k (lk_leases s)
                    else lk_leases s in
      Some (mkLocks leases
              (<[t := mkThread (th_held th) (mkSection keys wanted todo acquired Leaving err :: cs)]> (lk_threads s))
              (lk_next s))
  | _ => None
  end.

(** [held.discard(key)] for every wanted key, and the call returns or raises. *)
Definition finish (t : nat) (s : locks) : option locks :=
  let th := thread_of s t in
  match th_sections th with
  | mkSection _ wanted _ [] Leaving _ :: cs =>
      Some (set_thread s t (mkThread (th_held th ∖ list_to_set wanted) cs))
  | _ => None
  end.

(** A lease lapses. *)
Definition lapse (k : string) (s : locks) : locks :=
  mkLocks (delete k (lk_leases s)) (lk_threads s) (lk_next s).

(** ** Runs *)

(** What a thread does when nothing goes wrong, once it has entered. *)
Inductive progress : locks → locks → Prop :=
  | progress_acquire t s s' : acquire t s = Some s' → progress s s'
  | progress_leave_body t err s s' : leave_body err t s = Some s' → progress s s'
  | progress_release t s s' : release t s = Some s' → progress s s'
  | progress_finish t s s' : finish t s = Some s' → progress s s'.

(** A run; [lapses] says whether leases may lapse, [may_enter] which calls the threads
    make. *)
Inductive lock_step (lapses : bool) (may_enter : locks → nat → list string → Prop) : locks → locks → Prop :=
  | step_enter t keys s s' : may_enter s t keys → enter t keys s = Some s' → lock_step lapses may_enter s s'
  | step_progress s s' : progress s s' → lock_step lapses may_enter s s'
  | step_abandon_wait u t s s' : abandon_wait u t s = Some s' → lock_step lapses may_enter s s'
  | step_lapse k s : lapses = true → lock_step lapses may_enter s (lapse k s).

Definition start : locks := mkLocks ∅ ∅ O.
Definition reachable (lapses : bool) may_enter (s : locks) : Prop := steps (lock_step lapses may_enter) start s.

Definition any_call : locks → nat → list string → Prop := λ _ _ _, True.

(** The strict order of the keys. *)
Definition before (a b : string) : Prop := String.leb a b = true ∧ a ≠ b.

(** Calls that are not nested, or whose new keys come after every key the thread
    holds. *)
Definition ordered_call (s : locks) (t : nat) (keys : list string) : Prop :=
  ∀ h k, h ∈ _held_keys s t → k ∈ keys → k ∉ _held_keys s t → before h k.

(** ** The order of the keys *)
Lemma before_trans a b c : before a b → before b c → before a c.
Proof.
  unfold before. intros [H1 Hn1] [H2 Hn2].
  assert (H : String.leb a c = true).
  { apply Is_true_true. eapply (transitivity (R := String.le)); by apply Is_true_true. }
  split; [done|]. intros <-. by apply Hn1, String.leb_antisym.
Qed.

Lemma before_irrefl a : ¬ before a a.
Proof. by intros [_ []]. Qed.

Lemma before_total a b : a ≠ b → before a b ∨ before b a.
Proof. intros Hn. destruct (String.leb_total a b); [left|right]; by split. Qed.

Lemma sorted_before l :
  NoDup l → Sorted (λ a b, String.leb a b = true) l → StronglySorted before l.
Proof.
  intros Hnd Hs. apply Sorted_StronglySorted in Hs.
  2:{ intros a b c ??. apply Is_true_true. eapply (transitivity (R := String.le)); by apply Is_true_true. }
  induction Hs as [|x l Hs IH Hx]; constructor; apply NoDup_cons in Hnd as [Hn Hnd]; [by apply IH|].
  rewrite Forall_forall in *. intros y Hy. split; [by apply Hx|]. by intros ->.
Qed.

Lemma wanted_keys_spec held keys k : k ∈ wanted_keys held keys ↔ k ∈ keys ∧ k ∉ held.
Proof.
  unfold wanted_keys. rewrite elem_of_py_sorted, elem_of_remove_dups.
  rewrite list_elem_of_In, filter_In, negb_true_iff, bool_decide_eq_false, <-list_elem_of_In. done.
Qed.

Lemma wanted_keys_sorted held keys : StronglySorted before (wanted_keys held keys).
Proof.
  unfold wanted_keys. apply sorted_before.
  - rewrite py_sorted_perm. apply NoDup_remove_dups.
  - apply py_sorted_Sorted, String.leb_total.
Qed.

(** ** The invariant *)

(** The keys acquired by a section, in order. *)
Definition taken (c : section) : list string := take (length (sc_wanted c) - length (sc_todo c)) (sc_wanted c).

(** A section entered while the thread held [held]. *)
Record section_ok (held : gset string) (c : section) : Prop := {
  so_split : sc_wanted c = taken c ++ sc_todo c;
  so_sorted : StronglySorted before (sc_wanted c);
  so_new k : k ∈ sc_wanted c → k ∉ held;
  so_keys k : k ∈ sc_keys c → k ∈ held ∨ k ∈ sc_wanted c;
  so_inside : sc_phase c = Inside → sc_todo c = [];
  so_acquiring : sc_phase c = Acquiring → sc_todo c ≠ [];
  so_acquired k n : (k, n) ∈ sc_acquired c → k ∈ taken c;
  so_taken k : sc_phase c ≠ Leaving → k ∈ taken c → ∃ n, (k, n) ∈ sc_acquired c;
}.

Inductive sections_ok : gset string → list section → Prop :=
  | sections_nil : sections_ok ∅ []
  | sections_cons held c cs :
      sections_ok held cs → Forall (λ c, sc_phase c = Inside) cs → section_ok held c →
      sections_ok (list_to_set (taken c) ∪ held) (c :: cs).

Definition owns (s : locks) (t : nat) (k : string) (n : nat) : Prop :=
  ∃ c, c ∈ th_sections (thread_of s t) ∧ (k, n) ∈ sc_acquired c.

Definition tokens (th : thread) : list nat := (concat (sc_acquired <$> th_sections th)).*2.

Record locks_ok (s : locks) : Prop := {
  lo_thread t : sections_ok (th_held (thread_of s t)) (th_sections (thread_of s t));
  lo_lease k t n : lk_leases s !! k = Some (t, n) → owns s t k n;
  lo_fresh t n : n ∈ tokens (thread_of s t) → (n < lk_next s)%nat;
  lo_tokens t : NoDup (tokens (thread_of s t));
}.

Lemma sections_ok_cons held c cs :
  sections_ok held (c :: cs) →
  ∃ held0, held = list_to_set (taken c) ∪ held0 ∧ sections_ok held0 cs
         ∧ Forall (λ c, sc_phase c = Inside) cs ∧ section_ok held0 c.
Proof. inversion 1; subst. eauto. Qed.

Lemma thread_of_set s t th t' :
  thread_of (set_thread s t th) t' = if decide (t = t') then th else thread_of s t'.
Proof.
  unfold thread_of, set_thread. simpl. destruct (decide (t = t')) as [->|].
  - by rewrite lookup_insert_eq.
  - by rewrite lookup_insert_ne.
Qed.

Lemma thread_of_insert leases threads n t th t' :
  thread_of (mkLocks leases (<[t := th]> threads) n) t'
  = if decide (t = t') then th else thread_of (mkLocks leases threads n) t'.
Proof. apply (thread_of_set (mkLocks leases threads n)). Qed.

Lemma new_section_ok held keys : section_ok held (new_section held keys).
Proof.
  unfold new_section. split; unfold taken; simpl; rewrite ?Nat.sub_diag; simpl.
  - done.
  - apply wanted_keys_sorted.
  - intros k [_ Hk]%wanted_keys_spec. done.
  - intros k Hk. destruct (decide (k ∈ held)); [by left|right]. by apply wanted_keys_spec.
  - by case_bool_decide.
  - by case_bool_decide.
  - set_solver.
  - set_solver.
Qed.

(** An acquired key moves from [sc_todo] to the keys taken. *)
Lemma taken_acquire held keys wanted k todo acquired ph ph' acquired' err err' :
  section_ok held (mkSection keys wanted (k :: todo) acquired ph err) →
  taken (mkSection keys wanted todo acquired' ph' err')
  = taken (mkSection keys wanted (k :: todo) acquired ph err) ++ [k].
Proof.
  intros [Hsplit _ _ _ _ _ _ _]. simpl in Hsplit. set (got := taken (mkSection _ _ (k :: todo) _ _ _)) in *.
  unfold taken at 1. simpl. rewrite Hsplit at 2. rewrite (cons_middle k), app_assoc.
  rewrite take_app_length'; [done|]. rewrite Hsplit, !length_app. simpl. lia.
Qed.

Lemma acquire_section held keys wanted k todo acquired err n :
  section_ok held (mkSection keys wanted (k :: todo) acquired Acquiring err) →
  section_ok held (mkSection keys wanted todo ((k, n) :: acquired)
                     (if bool_decide (todo = []) then Inside else Acquiring) err).
Proof.
  intros Hok. pose proof (taken_acquire _ _ _ _ _ _ _
    (if bool_decide (todo = []) then Inside else Acquiring) ((k, n) :: acquired) _ err Hok) as Ht.
  destruct Hok as [H1 H2 H3 H4 H5 H6 H7 H8]; simpl in *. split; rewrite ?Ht; simpl; try done.
  - rewrite H1 at 1. by rewrite <-app_assoc.
  - by case_bool_decide.
  - by case_bool_decide.
  - intros k' n' [[= -> ->]|Hin]%elem_of_cons; [set_solver|]. apply elem_of_app. left. by eapply H7.
  - intros k' _ [Hin| ->%list_elem_of_singleton]%elem_of_app; [|exists n; left].
    destruct (H8 k') as [n' Hn']; [done..|]. exists n'. by right.
Qed.

(** A step that changes the innermost section of one thread, and maybe the leases. *)
Lemma owns_other s s' t t' k n :
  t ≠ t' → lk_threads s' !! t' = lk_threads s !! t' → owns s t' k n ↔ owns s' t' k n.
Proof. intros Hne H. unfold owns, thread_of. by rewrite H. Qed.

Lemma thread_of_other s s' t' : lk_threads s' !! t' = lk_threads s !! t' → thread_of s' t' = thread_of s t'.
Proof. unfold thread_of. by intros ->. Qed.

(** [locks_ok] after thread [t] became [th]. *)
Lemma locks_ok_update s s' t th :
  locks_ok s → lk_threads s' = <[t := th]> (lk_threads s) → (lk_next s ≤ lk_next s')%nat →
  sections_ok (th_held th) (th_sections th) →
  (∀ k t' n, lk_leases s' !! k = Some (t', n) →
     if decide (t = t') then ∃ c, c ∈ th_sections th ∧ (k, n) ∈ sc_acquired c
     else lk_leases s !! k = Some (t', n)) →
  (∀ n, n ∈ tokens th → (n < lk_next s')%nat) → NoDup (tokens th) → locks_ok s'.
Proof.
  intros [H1 H2 H3 H4] Hth Hnext Hsec Hlease Hfresh Hnd.
  assert (Ht : ∀ t', thread_of s' t' = if decide (t = t') then th else thread_of s t').
  { intros t'. unfold thread_of. rewrite Hth. destruct (decide (t = t')) as [->|].
    - by rewrite lookup_insert_eq.
    - by rewrite lookup_insert_ne. }
  split.
  - intros t'. rewrite Ht. by destruct (decide (t = t')).
  - intros k t' n Hk. apply Hlease in Hk. unfold owns. rewrite Ht. destruct (decide (t = t')); [done|].
    by apply H2.
  - intros t' n. rewrite Ht. destruct (decide (t = t')); [by apply Hfresh|]. intros ?%H3. lia.
  - intros t'. rewrite Ht. by destruct (decide (t = t')).
Qed.

Lemma tokens_cons held c cs :
  tokens (mkThread held (c :: cs)) = (sc_acquired c).*2 ++ tokens (mkThread held cs).
Proof. unfold tokens. simpl. by rewrite fmap_app. Qed.

Lemma tokens_held held held' cs : tokens (mkThread held cs) = tokens (mkThread held' cs).
Proof. done. Qed.

(** The innermost section with its other fields changed, as long as its keys stay. *)
Lemma swap_head_lease s t c c' cs k n :
  th_sections (thread_of s t) = c :: cs → (∀ x, x ∈ sc_acquired c → x = (k, n) → x ∈ sc_acquired c') →
  owns s t k n → ∃ d, d ∈ c' :: cs ∧ (k, n) ∈ sc_acquired d.
Proof.
  intros Hs Hc (d & Hd & Hin). rewrite Hs in Hd. apply elem_of_cons in Hd as [->|Hd].
  - exists c'. split; [by left|]. by apply (Hc (k, n)).
  - exists d. split; [by right|done].
Qed.

Lemma enter_ok t keys s s' : locks_ok s → enter t keys s = Some s' → locks_ok s'.
Proof.
  intros Hok. unfold enter. destruct (runs_body (thread_of s t)) eqn:Hb; [|done]. intros [= <-].
  pose proof (lo_thread _ Hok t) as Hsec. pose proof (lo_fresh _ Hok t) as Hf. pose proof (lo_tokens _ Hok t) as Hnd.
  destruct (thread_of s t) as [held cs] eqn:Et. simpl in *.
  set (c := new_section held keys).
  assert (Hta : taken c = []). { unfold taken, c, new_section. simpl. by rewrite Nat.sub_diag. }
  eapply (locks_ok_update s _ t (mkThread held (c :: cs))); [done|reflexivity|simpl; lia| | | |]; simpl.
  - replace held with (list_to_set (taken c) ∪ held) by (rewrite Hta; set_solver).
    constructor; [done| |apply new_section_ok]. unfold runs_body in Hb. simpl in Hb.
    destruct cs as [|d cs]; [constructor|]. apply sections_ok_cons in Hsec as (? & _ & _ & Hin & _).
    constructor; [by apply bool_decide_eq_true in Hb|done].
  - intros k t' n Hk. destruct (decide (t = t')) as [<-|]; [|done].
    apply (lo_lease _ Hok) in Hk as (d & Hd & Hn). rewrite Et in Hd. exists d. split; [by right|done].
  - intros n. rewrite tokens_cons. by apply Hf.
  - rewrite tokens_cons. done.
Qed.

Lemma acquire_ok t s s' : locks_ok s → acquire t s = Some s' → locks_ok s'.
Proof.
  intros Hok. unfold acquire. pose proof (lo_thread _ Hok t) as Hsec.
  pose proof (lo_fresh _ Hok t) as Hf. pose proof (lo_tokens _ Hok t) as Hnd.
  destruct (thread_of s t) as [held cs] eqn:Et. simpl in *.
  destruct cs as [|[keys wanted [|k todo] acquired [] err] cs]; try done.
  destruct (lk_leases s !! k) as [|] eqn:Hk; [done|]. intros [= <-].
  apply sections_ok_cons in Hsec as (held0 & -> & Hcs & Hin & Hc).
  set (c' := mkSection keys wanted todo ((k, lk_next s) :: acquired)
               (if bool_decide (todo = []) then Inside else Acquiring) err).
  set (c := mkSection keys wanted (k :: todo) acquired Acquiring err) in *.
  eapply (locks_ok_update s _ t (mkThread ({[k]} ∪ (list_to_set (taken c) ∪ held0)) (c' :: cs)));
    [done|reflexivity|simpl; lia| | | |]; simpl.
  - assert (Ht : taken c' = taken c ++ [k]) by (by eapply taken_acquire).
    replace ({[k]} ∪ (list_to_set (taken c) ∪ held0)) with (list_to_set (taken c') ∪ held0 : gset string)
      by (rewrite Ht, list_to_set_app_L; set_solver).
    constructor; [done..|]. by apply acquire_section.
  - intros k' t' n. rewrite lookup_insert. case_decide as Hkk.
    + intros [= <- <-]. rewrite decide_True by done. exists c'. rewrite <-Hkk. split; [left|]. simpl. left.
    + intros Hk'. destruct (decide (t = t')) as [<-|]; [|done].
      eapply (swap_head_lease s t c c' cs); [by rewrite Et| |by apply (lo_lease _ Hok)].
      intros x Hx _. simpl. by right.
  - intros n. rewrite tokens_cons in *. simpl. rewrite elem_of_cons. intros [->|Hn]; [lia|].
    specialize (Hf n Hn). lia.
  - rewrite tokens_cons in *. simpl. apply NoDup_cons. split; [|done].
    intros Hn%Hf. lia.
Qed.

(** The phase of a section moves to [Leaving]. *)
Lemma leaving_section held keys wanted todo acquired ph err err' :
  section_ok held (mkSection keys wanted todo acquired ph err) →
  section_ok held (mkSection keys wanted todo acquired Leaving err').
Proof. intros [H1 H2 H3 H4 H5 H6 H7 H8]; by split. Qed.

Lemma leaving_ok s t held keys wanted todo acquired ph err err' cs :
  locks_ok s → thread_of s t = mkThread held (mkSection keys wanted todo acquired ph err :: cs) →
  locks_ok (set_thread s t (mkThread held (mkSection keys wanted todo acquired Leaving err' :: cs))).
Proof.
  intros Hok Et. pose proof (lo_thread _ Hok t) as Hsec. pose proof (lo_fresh _ Hok t) as Hf.
  pose proof (lo_tokens _ Hok t) as Hnd. rewrite Et in *. simpl in *.
  apply sections_ok_cons in Hsec as (held0 & -> & Hcs & Hin & Hc).
  eapply (locks_ok_update s _ t _ Hok); [reflexivity|simpl; lia| | | |]; simpl.
  - eapply (sections_cons held0 (mkSection keys wanted todo acquired Leaving err')); [done..|].
    by eapply leaving_section.
  - intros k t' n Hk. destruct (decide (t = t')) as [<-|]; [|done].
    eapply (swap_head_lease s t); [by rewrite Et| |by apply (lo_lease _ Hok)]. done.
  - exact Hf.
  - exact Hnd.
Qed.

Lemma abandon_wait_ok u t s s' : locks_ok s → abandon_wait u t s = Some s' → locks_ok s'.
Proof.
  intros Hok. unfold abandon_wait. destruct (thread_of s t) as [held [|[keys wanted todo acq [] err] cs]] eqn:Et; try done.
  intros [= <-]. by eapply leaving_ok.
Qed.

Lemma leave_body_ok e t s s' : locks_ok s → leave_body e t s = Some s' → locks_ok s'.
Proof.
  intros Hok. unfold leave_body. destruct (thread_of s t) as [held [|[keys wanted todo acq [] err] cs]] eqn:Et; try done.
  intros [= <-]. by eapply leaving_ok.
Qed.

Lemma release_ok t s s' : locks_ok s → release t s = Some s' → locks_ok s'.
Proof.
  intros Hok. unfold release. pose proof (lo_thread _ Hok t) as Hsec. pose proof (lo_fresh _ Hok t) as Hf.
  pose proof (lo_tokens _ Hok t) as Hnd.
  destruct (thread_of s t) as [held [|[keys wanted todo [|[k tok] acq] [] err] cs]] eqn:Et; try done. simpl in *.
  intros [= <-]. apply sections_ok_cons in Hsec as (held0 & -> & Hcs & Hin & Hc).
  eapply (locks_ok_update s _ t _ Hok); [reflexivity|simpl; lia| | | |]; simpl.
  - eapply (sections_cons held0 (mkSection keys wanted todo acq Leaving err)); [done..|].
    destruct Hc as [H1 H2 H3 H4 H5 H6 H7 H8]; split; try done. intros k' n Hk'. eapply H7. by right.
  - intros k' t' n Hk.
    assert (Hpair : (k', n) ≠ (k, tok) ∨ t' ≠ t).
    { destruct (decide (t' = t)) as [->|]; [left|by right]. intros [= -> ->].
      case_bool_decide as Hl; [by rewrite lookup_delete_eq in Hk|done]. }
    assert (Hk0 : lk_leases s !! k' = Some (t', n)).
    { case_bool_decide; [|done]. by apply lookup_delete_Some in Hk as [_ ?]. }
    destruct (decide (t = t')) as [<-|]; [|done].
    eapply (swap_head_lease s t); [by rewrite Et| |by apply (lo_lease _ Hok)].
    simpl. intros x [->|?]%elem_of_cons Heq; [|done]. destruct Hpair; congruence.
  - intros n Hn. apply Hf. rewrite tokens_cons in *. simpl. by right.
  - rewrite tokens_cons in *. simpl in Hnd. by apply NoDup_cons in Hnd as [_ ?].
Qed.

Lemma finish_ok t s s' : locks_ok s → finish t s = Some s' → locks_ok s'.
Proof.
  intros Hok. unfold finish. pose proof (lo_thread _ Hok t) as Hsec. pose proof (lo_fresh _ Hok t) as Hf.
  pose proof (lo_tokens _ Hok t) as Hnd.
  destruct (thread_of s t) as [held [|[keys wanted todo [|] [] err] cs]] eqn:Et; try done. simpl in *.
  intros [= <-]. apply sections_ok_cons in Hsec as (held0 & -> & Hcs & Hin & Hc).
  assert (Hh : (list_to_set (taken (mkSection keys wanted todo [] Leaving err)) ∪ held0) ∖ list_to_set wanted
               = held0).
  { pose proof (so_new _ _ Hc) as Hnew. pose proof (so_split _ _ Hc) as Hs. simpl in Hnew, Hs.
    set (got := taken _) in *. clearbody got. subst wanted. apply set_eq. intros x.
    specialize (Hnew x). set_solver. }
  rewrite Hh.
  eapply (locks_ok_update s _ t _ Hok); [reflexivity|simpl; lia| | | |]; simpl.
  - done.
  - intros k t' n Hk. destruct (decide (t = t')) as [<-|]; [|done].
    apply (lo_lease _ Hok) in Hk as (d & Hd & Hn). rewrite Et in Hd. simpl in Hd.
    apply elem_of_cons in Hd as [->|Hd]; [by apply elem_of_nil in Hn|eauto].
  - intros n Hn. by apply Hf.
  - done.
Qed.

Lemma lapse_ok k s : locks_ok s → locks_ok (lapse k s).
Proof.
  intros [H1 H2 H3 H4]. split; try done. simpl. intros k' t n [_ Hk]%lookup_delete_Some. by apply H2.
Qed.

Lemma start_ok : locks_ok start.
Proof.
  split; unfold thread_of, start; simpl; intros *; rewrite ?lookup_empty; simpl.
  - constructor.
  - done.
  - unfold tokens. simpl. set_solver.
  - unfold tokens. simpl. constructor.
Qed.

Lemma progress_ok s s' : locks_ok s → progress s s' → locks_ok s'.
Proof. intros Hok H. revert Hok. destruct H; eauto using acquire_ok, leave_body_ok, release_ok, finish_ok. Qed.

Lemma step_ok lapses may s s' : locks_ok s → lock_step lapses may s s' → locks_ok s'.
Proof. intros Hok H. revert Hok. destruct H; eauto using enter_ok, progress_ok, abandon_wait_ok, lapse_ok. Qed.

Lemma reachable_ok lapses may s : reachable lapses may s → locks_ok s.
Proof.
  intros H. eapply (steps_invariant _ locks_ok); [|exact H|apply start_ok].
  intros a b Hab Ha. by eapply step_ok.
Qed.

(** ** Exclusion *)

(** While no lease lapses, every lock taken is still leased to its thread. *)
Definition kept (s : locks) : Prop := ∀ t k n, owns s t k n → lk_leases s !! k = Some (t, n).

Lemma owns_update s s' t th t' k n :
  lk_threads s' = <[t := th]> (lk_threads s) →
  owns s' t' k n ↔ if decide (t = t') then ∃ c, c ∈ th_sections th ∧ (k, n) ∈ sc_acquired c else owns s t' k n.
Proof.
  intros Hth. unfold owns, thread_of. rewrite Hth. destruct (decide (t = t')) as [->|].
  - by rewrite lookup_insert_eq.
  - by rewrite lookup_insert_ne.
Qed.

(** A step that takes nothing new. *)
Lemma kept_same s s' t th :
  kept s → lk_threads s' = <[t := th]> (lk_threads s) → lk_leases s' = lk_leases s →
  (∀ c x, c ∈ th_sections th → x ∈ sc_acquired c → ∃ d, d ∈ th_sections (thread_of s t) ∧ x ∈ sc_acquired d) →
  kept s'.
Proof.
  intros Hk Hth Hl Hsub t' k n. rewrite (owns_update _ _ _ _ _ _ _ Hth), Hl.
  destruct (decide (t = t')) as [<-|]; [|apply Hk]. intros (c & Hc & Hin). apply Hk.
  destruct (Hsub c (k, n) Hc Hin) as (d & ? & ?). by exists d.
Qed.

Lemma kept_acquire t s s' : kept s → acquire t s = Some s' → kept s'.
Proof.
  intros Hkept H. unfold acquire in H.
  destruct (thread_of s t) as [held [|[keys wanted [|k todo] acq [] err] cs]] eqn:Et; try done.
  simpl in H. destruct (lk_leases s !! k) eqn:Hk; [done|]. injection H as <-.
  intros t' k' n Ho. rewrite (owns_update s _ t) in Ho by reflexivity. simpl in Ho |- *. rewrite lookup_insert.
  assert (Hold : owns s t' k' n → (if decide (k = k') then Some (t, lk_next s) else lk_leases s !! k') = Some (t', n)).
  { intros H%Hkept. destruct (decide (k = k')) as [->|]; [congruence|done]. }
  destruct (decide (t = t')) as [<-|]; [|by apply Hold].
  destruct Ho as (c & [->|Hc]%elem_of_cons & Hin); simpl in Hin.
  - apply elem_of_cons in Hin as [[= -> ->]|Hin]; [by rewrite decide_True|].
    apply Hold. unfold owns. rewrite Et. eexists. split; [left|done].
  - apply Hold. unfold owns. rewrite Et. eexists. split; [by right|done].
Qed.

Lemma kept_release t s s' : locks_ok s → kept s → release t s = Some s' → kept s'.
Proof.
  intros Hok Hkept H. unfold release in H. pose proof (lo_tokens _ Hok t) as Hnd.
  destruct (thread_of s t) as [held [|[keys wanted todo [|[k tok] acq] [] err] cs]] eqn:Et; try done.
  simpl in H. assert (Hlease : lk_leases s !! k = Some (t, tok)).
  { apply Hkept. unfold owns. rewrite Et. eexists. split; [left|]. simpl. left. }
  rewrite bool_decide_eq_true_2 in H by done. injection H as <-.
  intros t' k' n Ho. rewrite (owns_update s _ t) in Ho by reflexivity. simpl in Ho |- *.
  assert (Ho' : owns s t' k' n ∧ (t' = t → n ≠ tok)).
  { destruct (decide (t = t')) as [<-|]; [|by split; [done|congruence]].
    rewrite tokens_cons in Hnd. simpl in Hnd. apply NoDup_cons in Hnd as [Hnd _].
    destruct Ho as (c & Hc & Hin). split.
    - unfold owns. rewrite Et. apply elem_of_cons in Hc as [->|Hc]; eexists; split; [left|by right|by right|done].
    - intros _ ->. apply Hnd. apply elem_of_cons in Hc as [->|Hc]; apply elem_of_app; [left|right].
      + apply list_elem_of_fmap. by exists (k', tok).
      + unfold tokens. simpl. apply list_elem_of_fmap. exists (k', tok). split; [done|].
        apply list_elem_of_In, in_concat. exists (sc_acquired c). split; [|by apply list_elem_of_In].
        apply list_elem_of_In, list_elem_of_fmap. eauto. }
  destruct Ho' as [Ho' Hne]. apply Hkept in Ho'. apply lookup_delete_Some. split; [|done].
  intros <-. rewrite Hlease in Ho'. injection Ho' as <- <-. by apply Hne.
Qed.

(** The innermost section changes its phase, or ends with nothing acquired. *)
Lemma kept_head s t held keys wanted todo acq ph err ph' err' cs :
  kept s → thread_of s t = mkThread held (mkSection keys wanted todo acq ph err :: cs) →
  kept (set_thread s t (mkThread held (mkSection keys wanted todo acq ph' err' :: cs))).
Proof.
  intros Hk Et. eapply (kept_same s _ t); [done|reflexivity|done|]. rewrite Et. simpl.
  intros c x [->|Hc]%elem_of_cons Hx; [eexists; split; [left|exact Hx]|exists c; split; [by right|done]].
Qed.

Lemma kept_progress s s' : locks_ok s → kept s → progress s s' → kept s'.
Proof.
  intros Hok Hkept Hp. revert Hok Hkept.
  destruct Hp as [t s s' H|t e s s' H|t s s' H|t s s' H]; intros Hok Hkept.
  - by eapply kept_acquire.
  - unfold leave_body in H. destruct (thread_of s t) as [held [|[keys wanted todo acq [] err] cs]] eqn:Et; try done.
    injection H as <-. by eapply kept_head.
  - by eapply kept_release.
  - unfold finish in H. destruct (thread_of s t) as [held [|[keys wanted todo [|] [] err] cs]] eqn:Et; try done.
    injection H as <-. eapply (kept_same s _ t); [done|reflexivity|done|]. rewrite Et. simpl.
    intros c x Hc Hx; eexists; (split; [|exact Hx]). by right.
Qed.

Lemma kept_step may s s' : locks_ok s → kept s → lock_step false may s s' → kept s'.
Proof.
  intros Hok Hkept Hstep. revert Hok Hkept.
  destruct Hstep as [t keys s s' _ He|s s' Hp|u t s s' Hg|k s H]; intros Hok Hkept; [| | |done].
  - unfold enter in He. destruct (runs_body _); [|done]. injection He as <-.
    eapply (kept_same s _ t); [done|reflexivity|done|]. simpl.
    intros c x [->|Hc]%elem_of_cons Hx; [simpl in Hx; set_solver|eauto].
  - by eapply kept_progress.
  - unfold abandon_wait in Hg. destruct (thread_of s t) as [held [|[keys wanted todo acq [] err] cs]] eqn:Et; try done.
    injection Hg as <-. by eapply kept_head.
Qed.

Lemma reachable_kept may s : reachable false may s → kept s.
Proof.
  intros H. enough (locks_ok s ∧ kept s) by tauto.
  eapply (steps_invariant _ (λ s, locks_ok s ∧ kept s)); [|exact H|].
  - intros a b Hab [Ha Hk]. split; [by eapply step_ok|by eapply kept_step].
  - split; [apply start_ok|]. intros t k n (c & Hc & _). by apply elem_of_nil in Hc.
Qed.

Lemma held_leased held cs k :
  sections_ok held cs → Forall (λ c, sc_phase c = Inside) cs → k ∈ held →
  ∃ d n, d ∈ cs ∧ (k, n) ∈ sc_acquired d.
Proof.
  intros Hok. induction Hok as [|held c cs Hok IH Hin Hc]; [set_solver|].
  intros [Hl Hls]%Forall_cons [Ht|Hh]%elem_of_union.
  - apply elem_of_list_to_set, (so_taken _ _ Hc) in Ht as [n Hn]; [|by rewrite Hl]. exists c, n. split; [left|done].
  - destruct (IH Hls Hh) as (d & n & ? & ?). exists d, n. split; [by right|done].
Qed.

(** In the body of a section every key of the call is taken by this section or by one
    around it. *)
Lemma body_leased held cs c k :
  sections_ok held cs → c ∈ cs → sc_phase c = Inside → k ∈ sc_keys c →
  ∃ d n, d ∈ cs ∧ (k, n) ∈ sc_acquired d.
Proof.
  intros Hok Hc Hin Hk. induction Hok as [|held c' cs Hok IH Hins Hc']; [set_solver|].
  apply elem_of_cons in Hc as [->|Hc].
  - destruct (so_keys _ _ Hc' k Hk) as [Hh|Hw].
    + apply (held_leased held cs) in Hh as (d & n & ? & ?); [|done..]. exists d, n. split; [by right|done].
    + rewrite (so_split _ _ Hc'), (so_inside _ _ Hc' Hin), app_nil_r in Hw.
      apply (so_taken _ _ Hc') in Hw as [n Hn]; [|by rewrite Hin]. exists c', n. split; [left|done].
  - destruct (IH Hc) as (d & n & ? & ?). exists d, n. split; [by right|done].
Qed.

(** ** Deadlock *)

(** The keys a thread still wants come after every key it holds. *)
Definition ordered (s : locks) : Prop :=
  ∀ t c cs, th_sections (thread_of s t) = c :: cs →
    ∀ h k, h ∈ th_held (thread_of s t) → k ∈ sc_todo c → before h k.

(** Only the innermost section of a thread has keys to acquire. *)
Lemma ordered_update s s' t th :
  ordered s → lk_threads s' = <[t := th]> (lk_threads s) →
  (∀ c cs, th_sections th = c :: cs → ∀ h k, h ∈ th_held th → k ∈ sc_todo c → before h k) →
  ordered s'.
Proof.
  intros Ho Hth Hnew t'. unfold thread_of. rewrite Hth. destruct (decide (t = t')) as [->|].
  - by rewrite lookup_insert_eq.
  - rewrite lookup_insert_ne by done. apply Ho.
Qed.

Lemma ordered_acquire t s s' : locks_ok s → ordered s → acquire t s = Some s' → ordered s'.
Proof.
  intros Hok Ho H. unfold acquire in H. pose proof (lo_thread _ Hok t) as Hsec. pose proof (Ho t) as Hot.
  destruct (thread_of s t) as [held [|[keys wanted [|k todo] acq [] err] cs]] eqn:Et; try done.
  simpl in *. destruct (lk_leases s !! k); [done|]. injection H as <-.
  eapply (ordered_update s _ t); [done|reflexivity|]. simpl. intros c cs' [= <- _] h k' Hh Hk'. simpl in Hk'.
  apply elem_of_union in Hh as [->%elem_of_singleton|Hh]; [|eapply Hot; [done|done|by right]].
  apply sections_ok_cons in Hsec as (held0 & _ & _ & _ & Hc). pose proof (so_sorted _ _ Hc) as Hss.
  rewrite (so_split _ _ Hc) in Hss. simpl in Hss. set (got := taken _) in Hss. clearbody got.
  induction got as [|g got IH]; simpl in Hss; apply StronglySorted_inv in Hss as [Hss Hall]; [|auto].
  rewrite Forall_forall in Hall. by apply Hall.
Qed.

Lemma ordered_step s s' : locks_ok s → ordered s → lock_step true ordered_call s s' → ordered s'.
Proof.
  intros Hok Ho Hstep. revert Hok Ho.
  destruct Hstep as [t keys s s' Hcall He|s s' Hp|u t s s' Hg|k s _]; intros Hok Ho.
  - unfold enter in He. destruct (runs_body _); [|done]. injection He as <-.
    eapply (ordered_update s _ t); [done|reflexivity|]. simpl. intros c cs [= <- _] h k Hh Hk.
    simpl in Hk. apply wanted_keys_spec in Hk as [Hk Hn]. by apply (Hcall h k).
  - destruct Hp as [t s s' H|t e s s' H|t s s' H|t s s' H].
    + by eapply ordered_acquire.
    + unfold leave_body in H. pose proof (Ho t) as Hot.
      destruct (thread_of s t) as [held [|[keys wanted todo acq [] err] cs]] eqn:Et; try done.
      injection H as <-. eapply (ordered_update s _ t); [done|reflexivity|]. simpl.
      intros c cs' [= <- _]. by eapply (Hot _ _ eq_refl).
    + unfold release in H. pose proof (Ho t) as Hot.
      destruct (thread_of s t) as [held [|[keys wanted todo [|[k tok] acq] [] err] cs]] eqn:Et; try done.
      injection H as <-. eapply (ordered_update s _ t); [done|reflexivity|]. simpl.
      intros c cs' [= <- _]. by eapply (Hot _ _ eq_refl).
    + unfold finish in H. pose proof (lo_thread _ Hok t) as Hsec.
      destruct (thread_of s t) as [held [|[keys wanted todo [|] [] err] cs]] eqn:Et; try done.
      injection H as <-. eapply (ordered_update s _ t); [done|reflexivity|]. simpl. intros c cs' -> h k _ Hk.
      apply sections_ok_cons in Hsec as (held0 & _ & Hcs & Hin & _). apply Forall_cons in Hin as [Hin _].
      apply sections_ok_cons in Hcs as (held1 & _ & _ & _ & Hc). rewrite (so_inside _ _ Hc Hin) in Hk. set_solver.
  - unfold abandon_wait in Hg. pose proof (Ho t) as Hot.
    destruct (thread_of s t) as [held [|[keys wanted todo acq [] err] cs]] eqn:Et; try done.
    injection Hg as <-. eapply (ordered_update s _ t); [done|reflexivity|]. simpl.
    intros c cs' [= <- _]. by eapply (Hot _ _ eq_refl).
  - done.
Qed.

Lemma reachable_ordered s : reachable true ordered_call s → locks_ok s ∧ ordered s.
Proof.
  intros H. eapply (steps_invariant _ (λ s, locks_ok s ∧ ordered s)); [|exact H|].
  - intros a b Hab [Ha Ho]. split; [by eapply step_ok|by eapply ordered_step].
  - split; [apply start_ok|]. intros t c cs Hc. done.
Qed.

(** The key a thread waits for. *)
Definition waits_for (th : thread) : option string :=
  match th_sections th with
  | mkSection _ _ (k :: _) _ Acquiring _ :: _ => Some k
  | _ => None
  end.

(** A thread that can take no step waits for a key that is leased. *)
Lemma blocked_waits s t :
  locks_ok s → th_sections (thread_of s t) ≠ [] → (∀ s', ¬ progress s s') →
  ∃ k lease, waits_for (thread_of s t) = Some k ∧ lk_leases s !! k = Some lease.
Proof.
  intros Hok Hne Hstuck. pose proof (lo_thread _ Hok t) as Hsec.
  destruct (thread_of s t) as [held [|[keys wanted todo acq ph err] cs]] eqn:Et; [done|].
  simpl in Hsec. apply sections_ok_cons in Hsec as (held0 & _ & _ & _ & Hc).
  destruct ph.
  - destruct todo as [|k todo]; [by destruct (so_acquiring _ _ Hc eq_refl)|].
    destruct (lk_leases s !! k) as [lease|] eqn:Hk; [by exists k, lease|]. exfalso.
    eapply Hstuck, (progress_acquire t). unfold acquire. rewrite Et. simpl. by rewrite Hk.
  - exfalso. eapply Hstuck, (progress_leave_body t None). unfold leave_body. by rewrite Et.
  - exfalso. destruct acq as [|[k n] acq].
    + eapply Hstuck, (progress_finish t). unfold finish. by rewrite Et.
    + eapply Hstuck, (progress_release t). unfold release. by rewrite Et.
Qed.

Lemma acquired_held held cs c k n : sections_ok held cs → c ∈ cs → (k, n) ∈ sc_acquired c → k ∈ held.
Proof.
  intros Hok Hc Hk. induction Hok as [|held c' cs Hok IH Hin Hc']; [set_solver|].
  apply elem_of_cons in Hc as [->|Hc]; [|set_solver].
  apply (so_acquired _ _ Hc') in Hk. set_solver.
Qed.

(** Who waits waits for a thread that waits for a later key. *)
Lemma waits_for_later s t k :
  locks_ok s → ordered s → (∀ s', ¬ progress s s') →
  waits_for (thread_of s t) = Some k → ∃ t' k', waits_for (thread_of s t') = Some k' ∧ before k k'.
Proof.
  intros Hok Ho Hstuck Hw.
  destruct (blocked_waits s t) as (k0 & [t' n] & Hw0 & Hlease); [done| |done|].
  { intros Hn. unfold waits_for in Hw. by rewrite Hn in Hw. }
  rewrite Hw in Hw0. injection Hw0 as <-. destruct (lo_lease _ Hok _ _ _ Hlease) as (c & Hc & Hin).
  destruct (blocked_waits s t') as (k' & _ & Hw' & _); [done| |done|].
  { intros Hn. rewrite Hn in Hc. set_solver. }
  exists t', k'. split; [done|]. pose proof (acquired_held _ _ _ _ _ (lo_thread _ Hok t') Hc Hin) as Hheld.
  pose proof (Ho t') as Hot. unfold waits_for in Hw'.
  destruct (th_sections (thread_of s t')) as [|[keys wanted [|k1 todo] acq [] err] cs]; try done.
  injection Hw' as ->. eapply Hot; [done|done|]. simpl. left.
Qed.

#[local] Instance before_flip_trans : Transitive (flip before).
Proof. intros a b c Hab Hbc. by eapply before_trans. Qed.
#[local] Instance before_flip_dec a b : Decision (flip before a b).
Proof. unfold flip, before. apply _. Defined.

Lemma ordered_not_stuck s t :
  locks_ok s → ordered s → th_sections (thread_of s t) ≠ [] → ¬ ∀ s', ¬ progress s s'.
Proof.
  intros Hok Ho Hne Hstuck.
  set (waiting := list_to_set (omap (λ p : nat * thread, waits_for p.2) (map_to_list (lk_threads s))) : gset string).
  assert (Hin : ∀ t k, waits_for (thread_of s t) = Some k → k ∈ waiting).
  { intros t' k Hw. apply elem_of_list_to_set, list_elem_of_omap. unfold thread_of in Hw.
    destruct (lk_threads s !! t') as [th|] eqn:Et; [|done]. exists (t', th). by rewrite elem_of_map_to_list. }
  destruct (minimal_exists_elem_of_L (flip before) waiting) as (k & Hk & Hmax).
  { destruct (blocked_waits s t Hok Hne Hstuck) as (k & _ & Hw & _). apply Hin in Hw. set_solver. }
  apply elem_of_list_to_set, list_elem_of_omap in Hk as ([t' th] & Hth & Hw).
  apply elem_of_map_to_list in Hth.
  destruct (waits_for_later s t' k) as (t2 & k2 & Hw2 & Hlt); [done..| |].
  { unfold thread_of. by rewrite Hth. }
  assert (Hback : flip before k k2) by (apply Hmax; [by eapply Hin|done]).
  apply (before_irrefl k). by eapply before_trans.
Qed.

(** What is left of a thread's sections when nothing goes wrong: two steps per key to
    take, one per key taken, and the phases. *)
Definition phase_left (p : phase) : nat := match p with Acquiring => 3 | Inside => 2 | Leaving => 1 end.
Definition section_left (c : section) : nat :=
  2 * length (sc_todo c) + length (sc_acquired c) + phase_left (sc_phase c).
Definition thread_left (th : thread) : nat := sum_list (section_left <$> th_sections th).
Definition steps_left (s : locks) : nat :=
  sum_list ((λ t, thread_left (thread_of s t)) <$> elements (dom (lk_threads s))).

Lemma sum_list_less (l : list nat) (f g : nat → nat) t :
  t ∈ l → (g t < f t)%nat → (∀ u, u ≠ t → g u = f u) → (sum_list (g <$> l) < sum_list (f <$> l))%nat.
Proof.
  intros Hin Hlt Heq.
  assert (Hle : ∀ l, (sum_list (g <$> l) ≤ sum_list (f <$> l))%nat).
  { intros l'. induction l' as [|x l' IH]; [done|]. change ((g x + sum_list (g <$> l') ≤ f x + sum_list (f <$> l'))%nat).
    destruct (decide (x = t)) as [->|Hx]; [lia|]. rewrite (Heq x) by done. lia. }
  induction l as [|x l IH]; [set_solver|].
  change ((g x + sum_list (g <$> l) < f x + sum_list (f <$> l))%nat). specialize (Hle l).
  destruct (decide (x = t)) as [->|Hx]; [lia|]. apply elem_of_cons in Hin as [->|Hin]; [done|].
  rewrite (Heq x) by done. specialize (IH Hin). lia.
Qed.

Lemma steps_left_update s s' t th :
  lk_threads s' = <[t := th]> (lk_threads s) → (thread_left th < thread_left (thread_of s t))%nat →
  (steps_left s' < steps_left s)%nat.
Proof.
  intros Hth Hlt. unfold steps_left.
  destruct (lk_threads s !! t) as [th0|] eqn:E; [|unfold thread_of in Hlt; rewrite E in Hlt; unfold thread_left in Hlt; simpl in Hlt; lia].
  assert (Hdom : dom (lk_threads s') = dom (lk_threads s)).
  { rewrite Hth, dom_insert_L. assert (t ∈ dom (lk_threads s)) by (by eapply elem_of_dom_2). set_solver. }
  rewrite Hdom. eapply (sum_list_less _ _ _ t).
  - apply elem_of_elements. by eapply elem_of_dom_2.
  - unfold thread_of at 1. by rewrite Hth, lookup_insert_eq.
  - intros u Hu. unfold thread_of. by rewrite Hth, lookup_insert_ne by done.
Qed.

Lemma progress_left s s' : progress s s' → (steps_left s' < steps_left s)%nat.
Proof.
  intros [t s1 s2 H|t e s1 s2 H|t s1 s2 H|t s1 s2 H].
  - unfold acquire in H.
    destruct (thread_of s1 t) as [held [|[keys wanted [|k todo] acq [] err] cs]] eqn:Et; try done. simpl in H.
    destruct (lk_leases s1 !! k); [done|]. injection H as <-. eapply (steps_left_update _ _ t); [reflexivity|].
    rewrite Et. unfold thread_left, section_left. simpl. destruct (bool_decide _); simpl; lia.
  - unfold leave_body in H.
    destruct (thread_of s1 t) as [held [|[keys wanted todo acq [] err] cs]] eqn:Et; try done.
    injection H as <-. eapply (steps_left_update _ _ t); [reflexivity|]. rewrite Et.
    unfold thread_left, section_left. simpl. lia.
  - unfold release in H.
    destruct (thread_of s1 t) as [held [|[keys wanted todo [|[k tok] acq] [] err] cs]] eqn:Et; try done.
    injection H as <-. eapply (steps_left_update _ _ t); [reflexivity|]. rewrite Et.
    unfold thread_left, section_left. simpl. lia.
  - unfold finish in H.
    destruct (thread_of s1 t) as [held [|[keys wanted todo [|] [] err] cs]] eqn:Et; try done.
    injection H as <-. eapply (steps_left_update _ _ t); [reflexivity|]. rewrite Et.
    unfold thread_left, section_left. csimpl. lia.
Qed.

Lemma progress_runs_end s n s' : nsteps progress n s s' → (n + steps_left s' ≤ steps_left s)%nat.
Proof. induction 1 as [s|n s s1 s' Hp _ IH]; [lia|]. apply progress_left in Hp. lia. Qed.

(** Executable: the first thread that can move, and whether any can. *)
Definition can_move (s : locks) (t : nat) : bool :=
  bool_decide (is_Some (acquire t s)) || bool_decide (is_Some (leave_body None t s))
  || bool_decide (is_Some (release t s)) || bool_decide (is_Some (finish t s)).

Lemma can_move_spec s t : can_move s t = true → ∃ s', progress s s'.
Proof.
  unfold can_move. rewrite !orb_true_iff, !bool_decide_eq_true.
  intros [[[[s' H]|[s' H]]|[s' H]]|[s' H]]; exists s'; eauto using progress.
Qed.

Lemma can_move_complete s s' : progress s s' → ∃ t, t ∈ dom (lk_threads s) ∧ can_move s t = true.
Proof.
  assert (Hdom : ∀ t c cs, th_sections (thread_of s t) = c :: cs → t ∈ dom (lk_threads s)).
  { intros t c cs H. unfold thread_of in H. apply elem_of_dom. destruct (lk_threads s !! t); [eauto|done]. }
  intros Hp. revert Hdom. unfold can_move.
  destruct Hp as [t s s' H|t e s s' H|t s s' H|t s s' H]; intros Hdom; exists t.
  - split; [|by rewrite (bool_decide_eq_true_2 (is_Some (acquire t s))) by eauto].
    unfold acquire in H. destruct (th_sections (thread_of s t)) eqn:E; [done|eauto].
  - unfold leave_body in H |- *. destruct (th_sections (thread_of s t)) as [|[? ? ? ? [] ?] ?] eqn:E; try done.
    split; [eauto|]. rewrite (bool_decide_eq_true_2 (is_Some (Some _))) by eauto. by rewrite orb_true_r.
  - split; [unfold release in H; destruct (th_sections (thread_of s t)) eqn:E; [done|eauto]|].
    rewrite (bool_decide_eq_true_2 (is_Some (release t s))) by eauto. by rewrite orb_true_r.
  - split; [unfold finish in H; destruct (th_sections (thread_of s t)) eqn:E; [done|eauto]|].
    rewrite (bool_decide_eq_true_2 (is_Some (finish t s))) by eauto. by rewrite orb_true_r.
Qed.

Lemma ordered_moves s t :
  locks_ok s → ordered s → th_sections (thread_of s t) ≠ [] → ∃ s', progress s s'.
Proof.
  intros Hok Ho Hne.
  destruct (existsb (can_move s) (elements (dom (lk_threads s)))) eqn:E.
  - apply existsb_exists in E as (u & _ & Hu). by eapply can_move_spec.
  - exfalso. eapply ordered_not_stuck; [done..|]. intros s' (u & Hd & Hu)%can_move_complete.
    assert (Ht : existsb (can_move s) (elements (dom (lk_threads s))) = true).
    { apply existsb_exists. exists u. split; [by apply list_elem_of_In, elem_of_elements|done]. }
    congruence.
Qed.

Lemma some_section_dec s : (∀ t, th_sections (thread_of s t) = []) ∨ ∃ t, th_sections (thread_of s t) ≠ [].
Proof.
  destruct (decide (map_Exists (λ _ th, th_sections th ≠ []) (lk_threads s))) as [(t & th & Ht & Hne)|Hno].
  - right. exists t. unfold thread_of. by rewrite Ht.
  - left. intros t. unfold thread_of. destruct (lk_threads s !! t) as [th|] eqn:Ht; [|done]. simpl.
    destruct (decide (th_sections th = [])); [done|]. destruct Hno. by exists t, th.
Qed.

Lemma ordered_drains s :
  locks_ok s → ordered s →
  ∃ s', steps progress s s' ∧ (∀ t, th_sections (thread_of s' t) = []) ∧ lk_leases s' = ∅.
Proof.
  induction s as [s IH] using (well_founded_induction (well_founded_ltof _ steps_left)). intros Hok Ho.
  destruct (some_section_dec s) as [Hall|[t Hne]].
  - exists s. split; [constructor|]. split; [done|]. apply map_eq. intros k. rewrite lookup_empty.
    destruct (lk_leases s !! k) as [[t n]|] eqn:Hk; [|done].
    destruct (lo_lease _ Hok _ _ _ Hk) as (c & Hc & _). rewrite Hall in Hc. set_solver.
  - destruct (ordered_moves s t Hok Ho Hne) as [s1 Hp].
    destruct (IH s1) as (s' & Hsteps & Hrest); [by apply progress_left|by eapply progress_ok| |].
    { eapply ordered_step; [done..|by constructor]. }
    exists s'. split; [by econstructor|done].
Qed.

(** ** Concrete runs *)
Inductive call := Enter (t : nat) (keys : list string) | Acquire (t : nat) | Leave (t : nat) | Release (t : nat) | Finish (t : nat).

Definition run_call (c : call) (s : locks) : option locks :=
  match c with
  | Enter t keys => enter t keys s
  | Acquire t => acquire t s
  | Leave t => leave_body None t s
  | Release t => release t s
  | Finish t => finish t s
  end.

Fixpoint run_calls (cs : list call) (s : locks) : option locks :=
  match cs with [] => Some s | c :: cs => s' ← run_call c s; run_calls cs s' end.

(** The calls of a run that enter are allowed by [may]. *)
Fixpoint calls_allowed (may : locks → nat → list string → Prop) (cs : list call) (s : locks) : Prop :=
  match cs with
  | [] => True
  | c :: cs =>
      (match c with Enter t keys => may s t keys | _ => True end)
      ∧ match run_call c s with Some s' => calls_allowed may cs s' | None => True end
  end.

Lemma run_calls_reachable lapses may cs s s' :
  run_calls cs s = Some s' → calls_allowed may cs s → steps (lock_step lapses may) s s'.
Proof.
  revert s. induction cs as [|c cs IH]; simpl; intros s H Hmay; [injection H as <-; constructor|].
  destruct Hmay as [Hc Hcs]. destruct (run_call c s) as [s1|] eqn:E; [|done]. simpl in H.
  eapply steps_cons; [|by apply IH]. destruct c as [t keys|t|t|t|t]; simpl in *.
  - by eapply step_enter.
  - apply step_progress. by eapply progress_acquire.
  - apply step_progress. by eapply progress_leave_body.
  - apply step_progress. by eapply progress_release.
  - apply step_progress. by eapply progress_finish.
Qed.

Lemma any_call_allowed cs s : calls_allowed any_call cs s.
Proof. revert s. induction cs as [|c cs IH]; intros s; simpl; [done|]. split; [by destruct c|]. by destruct (run_call c s). Qed.

Definition after (cs : list call) : locks := default start (run_calls cs start).

(** Calls that are ordered: the first one of a thread, and one on keys it holds. *)
Lemma ordered_call_idle s t keys : _held_keys s t = ∅ → ordered_call s t keys.
Proof. unfold ordered_call. intros ->. set_solver. Qed.

Lemma ordered_call_again s t keys :
  forallb (λ k, bool_decide (k ∈ _held_keys s t)) keys = true → ordered_call s t keys.
Proof.
  rewrite forallb_forall. intros H h k _ Hk Hn. destruct Hn.
  apply list_elem_of_In, H, bool_decide_eq_true in Hk. done.
Qed.

(** Thread 1 inside a section on two disks and nested in another on the second one; thread 2 waits for that one. *)
Definition nested_run : list call :=
  [Enter 1 ["storage:b"; "storage:a"]; Acquire 1; Enter 2 ["storage:b"]; Acquire 1; Enter 1 ["storage:b"]].

(** Two bodies that name one key belong to one thread. *)
Lemma inside_same_thread may s t1 t2 c1 c2 k :
  reachable false may s →
  c1 ∈ th_sections (thread_of s t1) → sc_phase c1 = Inside → k ∈ sc_keys c1 →
  c2 ∈ th_sections (thread_of s t2) → sc_phase c2 = Inside → k ∈ sc_keys c2 → t1 = t2.
Proof.
  intros Hr Hc1 Hin1 Hk1 Hc2 Hin2 Hk2. pose proof (reachable_ok _ _ _ Hr) as Hok.
  pose proof (reachable_kept _ _ Hr) as Hkept.
  destruct (body_leased _ _ c1 k (lo_thread _ Hok t1)) as (d1 & n1 & Hd1 & Hn1); [done..|].
  destruct (body_leased _ _ c2 k (lo_thread _ Hok t2)) as (d2 & n2 & Hd2 & Hn2); [done..|].
  assert (H1 : lk_leases s !! k = Some (t1, n1)) by (apply Hkept; by exists d1).
  assert (H2 : lk_leases s !! k = Some (t2, n2)) by (apply Hkept; by exists d2).
  congruence.
Qed.

(** ** The properties *)

(** C24: of two threads in the body of a section that names the same key, also nested
    in other sections, at most one can exist while no lease lapses; and even when
    leases lapse, every lease of the service belongs to a section of the thread it was
    granted to, so a release never frees a lock another thread holds. *)
Theorem sections_exclude s t1 t2 c1 c2 k :
  reachable false any_call s →
  c1 ∈ th_sections (thread_of s t1) → sc_phase c1 = Inside → k ∈ sc_keys c1 →
  c2 ∈ th_sections (thread_of s t2) → sc_phase c2 = Inside → k ∈ sc_keys c2 →
  t1 = t2
  ∧ (∀ s', reachable true any_call s' → ∀ k t n, lk_leases s' !! k = Some (t, n) → owns s' t k n)
  ∧ (∀ s' s'' t k u n, reachable true any_call s' → release t s' = Some s'' → u ≠ t →
       lk_leases s' !! k = Some (u, n) → lk_leases s'' !! k = Some (u, n)).
Proof.
  intros Hr Hc1 Hin1 Hk1 Hc2 Hin2 Hk2. split_and!.
  - by eapply (inside_same_thread any_call s t1 t2 c1 c2 k).
  - intros s' Hs' k' t n Hk. by eapply (lo_lease _ (reachable_ok _ _ _ Hs')).
  - intros s' s'' t k' u n _ Hrel Hne Hk. unfold release in Hrel.
    destruct (th_sections (thread_of s' t)) as [|[? ? ? [|[k0 tok] acq] [] ?] ?]; try done.
    injection Hrel as <-. simpl. case_bool_decide as Hl; [|done]. rewrite lookup_delete_ne; [done|]. congruence.
Qed.

Lemma sections_exclude_witness :
  waits_for (thread_of (after nested_run) 2) = Some "storage:b" ∧ 1%nat = 1%nat.
Proof.
  split; [by vm_compute|].
  eapply (sections_exclude (after nested_run) 1 1
    (mkSection ["storage:b"] [] [] [] Inside None)
    (mkSection ["storage:b"; "storage:a"] ["storage:a"; "storage:b"] [] [("storage:b", 1%nat); ("storage:a", O)] Inside None)
    "storage:b").
  - apply (run_calls_reachable false any_call nested_run); [by vm_compute|apply any_call_allowed].
  - apply list_elem_of_In. vm_compute. by left.
  - done.
  - left.
  - apply list_elem_of_In. vm_compute. right. by left.
  - done.
  - left.
Defined.

(** C27: when every nested call asks only for keys that come after those its thread
    holds, sections never deadlock: in every reachable state, also after time-outs and
    lapsed leases, while a thread is in a section some thread can go on, every run of
    such steps ends within the number of steps left, and the threads can all leave,
    with no lease left behind. *)
Theorem ordered_sections_never_deadlock s :
  reachable true ordered_call s →
  (∀ t, th_sections (thread_of s t) ≠ [] → ∃ s', progress s s')
  ∧ (∀ n s', nsteps progress n s s' → (n ≤ steps_left s)%nat)
  ∧ ∃ s', steps progress s s' ∧ (∀ t, th_sections (thread_of s' t) = []) ∧ lk_leases s' = ∅.
Proof.
  intros [Hok Ho]%reachable_ordered. split_and!.
  - intros t Hne. by eapply ordered_moves.
  - intros n s' H%progress_runs_end. lia.
  - by apply ordered_drains.
Qed.

Lemma ordered_sections_never_deadlock_witness :
  ∃ s', steps progress (after nested_run) s' ∧ (∀ t, th_sections (thread_of s' t) = []) ∧ lk_leases s' = ∅.
Proof.
  apply (ordered_sections_never_deadlock (after nested_run)).
  apply (run_calls_reachable true ordered_call nested_run); [by vm_compute|].
  split; [by apply ordered_call_idle|]. split; [done|]. split; [by apply ordered_call_idle|]. split; [done|].
  split; [|by vm_compute]. apply ordered_call_again. by vm_compute.
Defined.

(** Two threads that each nest a section on the other's key. *)
Definition crossed_run : list call :=
  [Enter 1 ["storage:b"]; Acquire 1; Enter 2 ["storage:a"]; Acquire 2; Enter 1 ["storage:a"]; Enter 2 ["storage:b"]].

(** the keys are sorted within one call only, so nested sections can deadlock: two
    threads that each hold one key and nest a section on the other's are both in
    sections and none can take a step but to give up with an error. *)
Theorem nested_sections_can_deadlock :
  let s := after crossed_run in
  reachable false any_call s
  ∧ th_sections (thread_of s 1) ≠ [] ∧ th_sections (thread_of s 2) ≠ []
  ∧ ¬ (∃ s', progress s s').
Proof.
  split_and!; [|by vm_compute..|].
  - apply (run_calls_reachable false any_call crossed_run); [by vm_compute|apply any_call_allowed].
  - intros [s' (t & Hd & Hm)%can_move_complete].
    assert (Ht : t ∈ elements (dom (lk_threads (after crossed_run)))) by (by apply elem_of_elements).
    assert (Hno : forallb (λ t, negb (can_move (after crossed_run) t)) (elements (dom (lk_threads (after crossed_run)))) = true)
      by (by vm_compute).
    rewrite forallb_forall in Hno. specialize (Hno t). rewrite Hm in Hno. apply list_elem_of_In, Hno in Ht. done.
Qed.
