(* ===== verification/Placement.v ===== *)
(** * Placement of a desktop on a hypervisor

    [engine/src/engine/models/memory_placement.py] (regular memory or hugepages for a
    desktop on one host), [numa_balancer.py] (the node of the host),
    [balancers.py] (the host: six strategies and the bookkeeping of the starts in
    flight) and [services/lib/mem_stats.py].

    A host is the record of the fields the code reads; a figure the statistics do
    not have is [None]. Memory in GiB and times are rationals: the sizes are
    multiples of a KiB divided by a power of two, which floats hold exactly. The
    ratios the scores compare are exact here. The hosts a start may use (a database
    query) and the names of the live threads are arguments, and so is
    [random.choices]. *)
From Stdlib Require Import Ascii QArith Qround.
From stdpp Require Import pretty.
From S2P Require Import Prelude PyVal Gpu.

Definition GIB_KB : Z := 1048576.

Inductive memory_backing := REGULAR | HUGEPAGES.
#[export] Instance memory_backing_eq_dec : EqDecision memory_backing.
Proof. solve_decision. Defined.

(** [int(x)] of a float *)
Definition int_of_Q (q : Q) : Z := if Qle_bool 0%Q q then Qfloor q else Qceiling q.

(** ** The host *)
Record mem_stats := mkMem {
  ms_available : option Z;
  ms_total : option Z;
  ms_used : option Z;
  ms_guests_kb : option Z;
  ms_hugepages_used_kb : option Z;
  ms_hugepages_total_kb : option Z;
  ms_hugepages_free_kb : option Z;
  ms_numa_free_kb : list (string * Z);
}.

Record hugepages_info := mkHuge {
  hp_mounted : bool;
  hp_1G : Z;                              (** the pages of a size, zero when it has no pool *)
  hp_2M : Z;
  hp_mount_sizes : option (list string);
}.

(** [gpu_selected] of a host *)
Record gpu_selected := mkGpuSel {
  gs_uid : string;
  gs_gpu_id : string;
  gs_profile : string;
  gs_pci_bus_id : option string;
  gs_numa_node : option pyval;
  gs_mig : bool;
  gs_framework : option string;
  gs_vf_bdf : option string;
  gs_companions : list string;
  gs_hugepages : hugepages_info;
  gs_hugepages_free_kb : Z;
  gs_numa_free_kb : list (string * Z);
  gs_numa : list (string * string);
}.

Record hyper := mkHyper {
  h_id : string;
  h_mem : mem_stats;
  h_cpu_idle : option Q;
  h_hugepages : hugepages_info;
  h_min_free_gb : Z;
  h_numa : list (string * string);        (** the nodes with their [cpulist] *)
  h_gpu : option gpu_selected;
}.

Definition or0 (o : option Z) : Z := default 0%Z o.

(** ** memory_placement.py *)
Inductive page_size := Page1G | Page2M.

Definition page_kb (p : page_size) : Z := match p with Page1G => 1048576 | Page2M => 2048 end.
Definition page_label (p : page_size) : string := match p with Page1G => "1G" | Page2M => "2M" end.
Definition pages (h : hugepages_info) (p : page_size) : Z := match p with Page1G => hp_1G h | Page2M => hp_2M h end.
Definition pool_kb (h : hugepages_info) (p : page_size) : Z := (pages h p * page_kb p)%Z.
Definition other_size (p : page_size) : page_size := match p with Page1G => Page2M | Page2M => Page1G end.

(** One turn of the loop of [pick_hugepage_size]. *)
Definition size_fits (memory_kb : Z) (h : hugepages_info) (free_kb : Z) (p : page_size) : bool :=
  negb (pool_kb h p =? 0)%Z && (memory_kb mod page_kb p =? 0)%Z
  && match hp_mount_sizes h with Some usable => mem (page_label p) usable | None => true end
  && (memory_kb <=? free_kb - pool_kb h (other_size p))%Z.

Definition pick_hugepage_size (memory_kb : Z) (h : hugepages_info) (free_kb : Z) : option page_size :=
  List.find (size_fits memory_kb h free_kb) [Page1G; Page2M].

Definition committed_regular_kb (m : mem_stats) : option Z :=
  guests ← ms_guests_kb m; Some (Z.max 0 (guests - or0 (ms_hugepages_used_kb m)))%Z.

Definition regular_room_kb (m : mem_stats) (min_free_kb pending_regular_kb : Z) : Z * option Z :=
  let measured := (or0 (ms_available m) - pending_regular_kb - min_free_kb)%Z in
  (measured,
   committed ← committed_regular_kb m;
   Some (or0 (ms_total m) - or0 (ms_hugepages_total_kb m) - min_free_kb - committed - pending_regular_kb)%Z).

Definition plan_memory_backing (m : mem_stats) (h : hugepages_info) (min_free_mem_gb domain_memory_kb
    pending_regular_kb pending_hugepages_kb : Z) : option memory_backing :=
  let min_free_kb := (min_free_mem_gb * GIB_KB)%Z in
  if negb (hp_mounted h) && (min_free_kb =? 0)%Z then Some REGULAR
  else match ms_available m with
  | None => Some REGULAR
  | Some _ =>
      let '(measured, committed) := regular_room_kb m min_free_kb pending_regular_kb in
      let fits_measured := (domain_memory_kb <=? measured)%Z in
      let fits_committed := match committed with None => true | Some c => (domain_memory_kb <=? c)%Z end in
      if fits_measured && fits_committed then Some REGULAR
      else if negb (hp_mounted h && (negb (hp_1G h =? 0)%Z || negb (hp_2M h =? 0)%Z))
      then if fits_measured && (min_free_kb =? 0)%Z then Some REGULAR else None
      else match pick_hugepage_size domain_memory_kb h (or0 (ms_hugepages_free_kb m) - pending_hugepages_kb) with
           | Some _ => Some HUGEPAGES
           | None => if fits_measured then Some REGULAR else None
           end
  end.

(** ** mem_stats.py *)
Definition get_hyper_free_ram_kb (h : hyper) : Z :=
  match ms_used (h_mem h) with
  | None => or0 (ms_available (h_mem h))
  | Some used => Z.max 0 (or0 (ms_total (h_mem h)) - used)
  end.

(** ** numa_balancer.py *)

(** One part of a [cpulist]. *)
Definition cpulist_part (part : string) : Z :=
  let part := strip part in
  if (part =? "")%string then 0
  else match partition_at "-" part with
  | Some (lo, hi) =>
      match int_of_string hi, int_of_string lo with Ok h, Ok l => h - l + 1 | _, _ => 0 end
  | None => match int_of_string part with Ok _ => 1 | Raise _ => 0 end
  end%Z.

Definition _cpulist_size (cpulist : string) : Z := sum_by cpulist_part (split_on "," cpulist).

Record node_start := mkNodeStart { ns_node : string; ns_ram_gb : Q; ns_vcpus : Z; ns_at : Q }.

(** The bucket of a node, [ram_kb] and [vcpus]. *)
Definition add_pending (now expiry : Q) (acc : gmap string (Q * Z)) (e : node_start) : gmap string (Q * Z) :=
  if Qle_bool (ns_at e) (now - expiry)%Q then acc
  else let '(ram, vcpus) := default (0%Q, 0%Z) (acc !! ns_node e) in
       <[ns_node e := ((ram + ns_ram_gb e * inject_Z GIB_KB)%Q, (vcpus + ns_vcpus e)%Z)]> acc.

Definition aggregate_pending_by_node (entries : list node_start) (now expiry : Q) : gmap string (Q * Z) :=
  foldl (add_pending now expiry) ∅ entries.

Definition Qmin2 (a b : Q) : Q := if Qle_bool a b then a else b.

Definition or1 (z : Z) : Z := if (z =? 0)%Z then 1%Z else z.

(** [score] of a node *)
Definition node_score (cpulist : string) (free_kb : Z) (pending : Q * Z) (memory_kb vcpus : Z) : Q :=
  let node_cpus := or1 (_cpulist_size cpulist) in
  let mem_headroom := (inject_Z free_kb - pending.1 - inject_Z memory_kb)%Q in
  let vcpu_headroom := inject_Z (node_cpus - pending.2 - vcpus)%Z in
  Qmin2 (mem_headroom / inject_Z (or1 free_kb))%Q (vcpu_headroom / inject_Z node_cpus)%Q.

(** [if best_score is None or score > best_score] *)
Definition better (score : string → Q) (best : option string) (node : string) : option string :=
  match best with
  | None => Some node
  | Some b => if Qle_bool (score node) (score b) then best else Some node
  end.

Definition score_of (nodes : list (string * string)) (free : list (string * Z)) (memory_kb vcpus : Z)
    (pending : gmap string (Q * Z)) (node : string) : Q :=
  node_score (default "" (assoc node nodes)) (default 0%Z (assoc node free))
    (default (0%Q, 0%Z) (pending !! node)) memory_kb vcpus.

Definition select_balanced_numa_node (nodes : list (string * string)) (free : list (string * Z))
    (memory_kb vcpus : Z) (pending : gmap string (Q * Z)) : option string :=
  if (length nodes <? 2)%nat then None
  else foldl (better (score_of nodes free memory_kb vcpus pending)) None (py_sorted String.leb nodes.*1).

(** ** balancers.py: the strategies *)
Inductive balancer_type :=
  | round_robin | available_ram | available_ram_percent | less_cpu
  | less_cpu_till_low_ram | less_cpu_till_low_ram_percent.

Definition RAM_LIMIT : Q := (3 # 4)%Q.

Definition _get_used_ram_percentage (h : hyper) : Q :=
  let total := default 1%Z (ms_total (h_mem h)) in
  let used := default (total - or0 (ms_available (h_mem h)))%Z (ms_used (h_mem h)) in
  if (0 <? total)%Z then (inject_Z used / inject_Z total)%Q else 0%Q.

(** [sorted(..., reverse=True)] keeps the order of equal keys. *)
Definition sort_hypervisors_ram_absolute : list hyper → list hyper :=
  py_sorted (λ a b, get_hyper_free_ram_kb b <=? get_hyper_free_ram_kb a)%Z.
Definition sort_hypervisors_ram_percentage : list hyper → list hyper :=
  py_sorted (λ a b, Qle_bool (_get_used_ram_percentage a) (_get_used_ram_percentage b)).
Definition sort_hypervisors_cpu_percentage : list hyper → list hyper :=
  py_sorted (λ a b, Qle_bool (default 0%Q (h_cpu_idle b)) (default 0%Q (h_cpu_idle a))).

(** [random.choices(population, weights=...)[0]], of one call: it answers with an
    element of the population. *)
Notation chooser := (list hyper → list Z → option hyper).
Definition choices_ok (choose : chooser) : Prop :=
  ∀ l w, l ≠ [] → length w = length l → Forall (λ x, 0 < x)%Z w → ∃ h, choose l w = Some h ∧ h ∈ l.

Definition weighted_select (choose : chooser) (l : list hyper) : option hyper :=
  choose l (Z.of_nat <$> reverse (seq 1 (length l))).

Definition till_low_ram (choose : chooser) (by_ram : list hyper → list hyper) (hypers : list hyper) : option hyper :=
  let eligible :=
    List.filter (λ h, Qle_bool (_get_used_ram_percentage h) RAM_LIMIT) (sort_hypervisors_cpu_percentage hypers) in
  if bool_decide (eligible = []) then weighted_select choose (by_ram hypers) else weighted_select choose eligible.

(** [Balancer_round_robin._balancer]: the next index. *)
Definition next_index (index n : nat) : nat := if (n <=? S index)%nat then O else S index.

(** [_balancer] of the six classes, with [index_round_robin]. *)
Definition _balancer (t : balancer_type) (choose : chooser) (index : nat) (hypers : list hyper) : nat * option hyper :=
  match t with
  | round_robin => let i := next_index index (length hypers) in (i, hypers !! i)
  | available_ram => (index, weighted_select choose (sort_hypervisors_ram_absolute hypers))
  | available_ram_percent => (index, weighted_select choose (sort_hypervisors_ram_percentage hypers))
  | less_cpu => (index, weighted_select choose (sort_hypervisors_cpu_percentage hypers))
  | less_cpu_till_low_ram => (index, till_low_ram choose sort_hypervisors_ram_absolute hypers)
  | less_cpu_till_low_ram_percent => (index, till_low_ram choose sort_hypervisors_ram_percentage hypers)
  end.

(** ** balancers.py: the starts in flight *)
Record start_entry := mkStart {
  st_ram_gb : Q;
  st_at : Q;
  st_domain : option string;
  st_backing : memory_backing;
}.

Record BalancerInterface := mkBalancer {
  b_type : balancer_type;
  b_index : nat;                              (** [index_round_robin] *)
  b_pending_ram : gmap string (list start_entry);
  b_pending_node : gmap string (list node_start);
}.

Definition new_balancer (t : balancer_type) : BalancerInterface := mkBalancer t O ∅ ∅.

Definition _PENDING_EXPIRY_SECONDS : Q := 30.
Definition _PENDING_TRACKED_EXPIRY_SECONDS : Q := 900.

Definition set_ram (b : BalancerInterface) m := mkBalancer (b_type b) (b_index b) m (b_pending_node b).
Definition set_node (b : BalancerInterface) m := mkBalancer (b_type b) (b_index b) (b_pending_ram b) m.
Definition set_index (b : BalancerInterface) i := mkBalancer (b_type b) i (b_pending_ram b) (b_pending_node b).

(** [e[2] != domain_id] *)
Definition not_of (domain_id : string) (e : start_entry) : bool := negb (bool_decide (st_domain e = Some domain_id)).

Definition entries_of (b : BalancerInterface) (hyp_id : string) : list start_entry :=
  default [] (b_pending_ram b !! hyp_id).

Definition _record_pending (now : Q) (hyp_id : string) (ram_gb : Q) (domain_id : option string)
    (backing : memory_backing) (b : BalancerInterface) : BalancerInterface :=
  let kept := match domain_id with
              | Some d => List.filter (not_of d) (entries_of b hyp_id)
              | None => entries_of b hyp_id
              end in
  set_ram b (<[hyp_id := kept ++ [mkStart ram_gb now domain_id backing]]> (b_pending_ram b)).

Definition _release_pending (hyp_id domain_id : string) (b : BalancerInterface) : BalancerInterface :=
  match entries_of b hyp_id with
  | [] => b
  | entries =>
      let kept := List.filter (not_of domain_id) entries in
      set_ram b (if bool_decide (kept = []) then delete hyp_id (b_pending_ram b)
                 else <[hyp_id := kept]> (b_pending_ram b))
  end.

Definition _pending_alive (now : Q) (e : start_entry) : bool :=
  let expiry := match st_domain e with
                | Some _ => _PENDING_TRACKED_EXPIRY_SECONDS
                | None => _PENDING_EXPIRY_SECONDS
                end in
  negb (Qle_bool (st_at e) (now - expiry)).

Definition _record_pending_node (now : Q) (hyp_id node : string) (ram_gb : Q) (vcpus : Z)
    (b : BalancerInterface) : BalancerInterface :=
  set_node b (<[hyp_id := default [] (b_pending_node b !! hyp_id) ++ [mkNodeStart node ram_gb vcpus now]]>
                (b_pending_node b)).

Definition _get_pending_by_node (now : Q) (hyp_id : string) (b : BalancerInterface) : gmap string (Q * Z) :=
  aggregate_pending_by_node (default [] (b_pending_node b !! hyp_id)) now _PENDING_EXPIRY_SECONDS.

(** The lists of a map filtered, the empty ones dropped. *)
Definition drop_dead {A} (alive : A → bool) (m : gmap string (list A)) : gmap string (list A) :=
  omap (λ l, let kept := List.filter alive l in
             match kept with [] => None | _ => Some kept end) m.

Definition _cleanup_expired (now : Q) (b : BalancerInterface) : BalancerInterface :=
  mkBalancer (b_type b) (b_index b) (drop_dead (_pending_alive now) (b_pending_ram b))
    (drop_dead (λ e, negb (Qle_bool (ns_at e) (now - _PENDING_EXPIRY_SECONDS))) (b_pending_node b)).

Fixpoint sum_gb (l : list start_entry) : Q :=
  match l with [] => 0%Q | e :: l => (st_ram_gb e + sum_gb l)%Q end.

Definition _get_pending_ram_kb (hyp_id : string) (backing : option memory_backing) (b : BalancerInterface) : Z :=
  let of_backing e := match backing with None => true | Some x => bool_decide (st_backing e = x) end in
  int_of_Q (sum_gb (List.filter of_backing (entries_of b hyp_id)) * inject_Z GIB_KB).

Definition _plan_backing (h : hyper) (domain_memory_gb : Q) (b : BalancerInterface) : option memory_backing :=
  plan_memory_backing (h_mem h) (h_hugepages h) (h_min_free_gb h) (int_of_Q (domain_memory_gb * inject_Z GIB_KB))
    (_get_pending_ram_kb (h_id h) (Some REGULAR) b) (_get_pending_ram_kb (h_id h) (Some HUGEPAGES) b).

Definition adjust_mem (pending_kb : Z) (m : mem_stats) : mem_stats :=
  mkMem ((λ a, Z.max 0 (a - pending_kb)) <$> ms_available m) (ms_total m)
    ((λ u, Z.min (default (u + pending_kb) (ms_total m)) (u + pending_kb))%Z <$> ms_used m)
    (ms_guests_kb m) (ms_hugepages_used_kb m) (ms_hugepages_total_kb m) (ms_hugepages_free_kb m) (ms_numa_free_kb m).

Definition adjust_hyper (b : BalancerInterface) (h : hyper) : hyper :=
  let pending_kb := _get_pending_ram_kb (h_id h) None b in
  if (pending_kb <=? 0)%Z then h
  else mkHyper (h_id h) (adjust_mem pending_kb (h_mem h)) (h_cpu_idle h) (h_hugepages h) (h_min_free_gb h)
         (h_numa h) (h_gpu h).

Definition _adjust_for_pending (hypers : list hyper) (b : BalancerInterface) : list hyper := adjust_hyper b <$> hypers.

(** [get_pools_threads_running], with the names of the live threads *)
Definition get_pools_threads_running (threads : list string) (hypers : list hyper) : list hyper :=
  List.filter (λ h, mem ("worker_" +:+ h_id h) threads) hypers.

(** ** balancers.py: the start of a desktop *)

(** What goes with the host of a desktop without a GPU. *)
Record start_extra := mkExtra {
  ex_hugepages : option hugepages_info;
  ex_min_free_gb : option Z;
  ex_mem_available_kb : option Z;
  ex_hugepages_free_kb : option Z;
  ex_numa : list (string * string);
  ex_numa_free_kb : list (string * Z);
  ex_backing : option memory_backing;
  ex_node : option string;
}.

Definition _build_hugepages_extra (h : hyper) (pending_regular_kb pending_hugepages_kb : Z) : start_extra :=
  let m := h_mem h in
  if negb (hp_mounted (h_hugepages h))
  then mkExtra None None None None (h_numa h) (ms_numa_free_kb m) None None
  else mkExtra (Some (h_hugepages h)) (Some (h_min_free_gb h))
         (Some (Z.max 0 (or0 (ms_available m) - pending_regular_kb)))
         (Some (Z.max 0 (or0 (ms_hugepages_free_kb m) - pending_hugepages_kb)))
         (h_numa h) (ms_numa_free_kb m) None None.

Definition with_backing (x : memory_backing) (e : start_extra) : start_extra :=
  mkExtra (ex_hugepages e) (ex_min_free_gb e) (ex_mem_available_kb e) (ex_hugepages_free_kb e) (ex_numa e)
    (ex_numa_free_kb e) (Some x) (ex_node e).
Definition with_node (n : string) (e : start_extra) : start_extra :=
  mkExtra (ex_hugepages e) (ex_min_free_gb e) (ex_mem_available_kb e) (ex_hugepages_free_kb e) (ex_numa e)
    (ex_numa_free_kb e) (ex_backing e) (Some n).

Definition _attach_balanced_node (now : Q) (h : hyper) (e : start_extra) (domain_memory_gb : Q) (domain_vcpus : Z)
    (b : BalancerInterface) : BalancerInterface * start_extra :=
  let vcpus := or1 domain_vcpus in
  match select_balanced_numa_node (h_numa h) (ms_numa_free_kb (h_mem h))
          (int_of_Q (domain_memory_gb * inject_Z GIB_KB)) vcpus (_get_pending_by_node now (h_id h) b) with
  | Some node => (_record_pending_node now (h_id h) node domain_memory_gb vcpus b, with_node node e)
  | None => (b, e)
  end.

(** The answer: no host (with the hosts that have no memory for it), a host, or a host
    with a card. *)
Record gpu_extra := mkGpuExtra {
  ge_uid : string;
  ge_gpu_id : string;
  ge_model : string;
  ge_profile : string;
  ge_pci_bus_id : option string;
  ge_numa_node : option pyval;
  ge_mig : bool;
  ge_framework : option string;
  ge_vf_bdf : option string;
  ge_companions : list string;
  ge_hugepages : hugepages_info;
  ge_hugepages_free_kb : Z;
  ge_numa_free_kb : list (string * Z);
  ge_numa : list (string * string);
}.

Inductive placement :=
  | NoHost (no_memory_on : option (list string))
  | OnHost (hyp_id : string) (e : start_extra)
  | OnGpuHost (hyp_id : string) (g : gpu_extra).

(** [plans]: of two hosts with one id the last one counts. *)
Definition plans_of (hypers : list hyper) (domain_memory_gb : Q) (b : BalancerInterface) : gmap string (option memory_backing) :=
  foldl (λ m h, <[h_id h := _plan_backing h domain_memory_gb b]> m) ∅ hypers.

Definition plan_of (plans : gmap string (option memory_backing)) (h : hyper) : option memory_backing :=
  mjoin (plans !! h_id h).

(** The host the strategy chooses among those with room. *)
Definition choose_host (choose : chooser) (with_room : list hyper) (b : BalancerInterface) : BalancerInterface * option string :=
  match with_room with
  | [h] => (b, Some (h_id h))
  | _ => let '(i, h) := _balancer (b_type b) choose (b_index b) (_adjust_for_pending with_room b) in
         (set_index b i, h_id <$> h)
  end.

Definition _get_next_capabilities_virt (now : Q) (choose : chooser) (hypers : list hyper) (domain_memory_gb : Q)
    (domain_vcpus : Z) (domain_id : option string) (b : BalancerInterface) : BalancerInterface * res placement :=
  match hypers with
  | [] => (b, Ok (NoHost None))
  | _ =>
      let b := _cleanup_expired now b in
      let plans := plans_of hypers domain_memory_gb b in
      let with_room := List.filter (λ h, bool_decide (plan_of plans h ≠ None)) hypers in
      match with_room with
      | [] => (b, Ok (NoHost (Some (py_sorted String.leb (elements (dom plans))))))
      | _ =>
          let '(b, selected) := choose_host choose with_room b in
          match (id ← selected; List.find (λ h, (h_id h =? id)%string) with_room) with
          | None => (b, Raise IndexError)
          | Some h =>
              let backing := default REGULAR (plan_of plans h) in
              let extra := with_backing backing
                (_build_hugepages_extra h (_get_pending_ram_kb (h_id h) (Some REGULAR) b)
                   (_get_pending_ram_kb (h_id h) (Some HUGEPAGES) b)) in
              let b := _record_pending now (h_id h) domain_memory_gb domain_id backing b in
              let '(b, extra) := _attach_balanced_node now h extra domain_memory_gb domain_vcpus b in
              (b, Ok (OnHost (h_id h) extra))
          end
      end
  end.

Definition _gpu_backing (g : gpu_extra) : memory_backing := if hp_mounted (ge_hugepages g) then HUGEPAGES else REGULAR.

Definition _parse_extra_gpu_info (g : gpu_selected) : res gpu_extra :=
  match split_max "-" 2 (gs_profile g) with
  | _ :: model :: rest =>
      Ok (mkGpuExtra (gs_uid g) (gs_gpu_id g) model
            (match rest with [] => "" | _ => profile_suffix_from_id (gs_profile g) end)
            (gs_pci_bus_id g) (gs_numa_node g) (gs_mig g) (gs_framework g) (gs_vf_bdf g) (gs_companions g)
            (gs_hugepages g) (gs_hugepages_free_kb g) (gs_numa_free_kb g) (gs_numa g))
  | _ => Raise IndexError
  end.

Definition gpu_info (h : hyper) : res gpu_extra :=
  match h_gpu h with Some g => _parse_extra_gpu_info g | None => Raise KeyError end.

(** Every exception is caught. *)
Definition _record_gpu_node_pending (now : Q) (hyp_id : string) (g : gpu_extra) (domain_memory_gb : Q)
    (domain_vcpus : Z) (b : BalancerInterface) : BalancerInterface :=
  match ge_numa_node g with
  | None => b
  | Some nn =>
      match py_int nn with
      | Ok n => if (0 <=? n)%Z
                then _record_pending_node now hyp_id (pretty n) domain_memory_gb (or1 domain_vcpus) b
                else b
      | Raise _ => b
      end
  end.

(** The two records of a GPU start. *)
Definition record_gpu (now : Q) (h : hyper) (domain_memory_gb : Q) (domain_vcpus : Z) (domain_id : option string)
    (b : BalancerInterface) : BalancerInterface * res placement :=
  match gpu_info h with
  | Raise e => (b, Raise e)
  | Ok g =>
      let b := _record_pending now (h_id h) domain_memory_gb domain_id (_gpu_backing g) b in
      (_record_gpu_node_pending now (h_id h) g domain_memory_gb domain_vcpus b, Ok (OnGpuHost (h_id h) g))
  end.

Definition _get_next_capabilities_virt_gpus (now : Q) (choose : chooser) (hypers : list hyper) (domain_memory_gb : Q)
    (domain_vcpus : Z) (domain_id : option string) (b : BalancerInterface) : BalancerInterface * res placement :=
  match hypers with
  | [] => (b, Ok (NoHost None))
  | [h] => record_gpu now h domain_memory_gb domain_vcpus domain_id b
  | _ =>
      let b := _cleanup_expired now b in
      let '(i, selected) := _balancer (b_type b) choose (b_index b) (_adjust_for_pending hypers b) in
      let b := set_index b i in
      match (s ← selected; List.find (λ h, (h_id h =? h_id s)%string) hypers) with
      | None => (b, Raise IndexError)
      | Some h => record_gpu now h domain_memory_gb domain_vcpus domain_id b
      end
  end.

(** The two queries of the hosts are arguments; [vgpus] is [reservables["vgpus"]]. *)
Definition get_next_hypervisor (now : Q) (choose : chooser) (threads : list string)
    (hypers_online : list hyper) (gpu_hypers_online : string → list hyper)
    (vgpus : list string) (storage_pool_id : option string) (domain_memory_gb : Q) (domain_vcpus : Z)
    (domain_id : option string) (b : BalancerInterface) : BalancerInterface * res placement :=
  match storage_pool_id with
  | None => (b, Ok (NoHost None))
  | Some _ =>
      match vgpus with
      | [] => _get_next_capabilities_virt now choose (get_pools_threads_running threads hypers_online)
                domain_memory_gb domain_vcpus domain_id b
      | gpu_profile :: _ =>
          _get_next_capabilities_virt_gpus now choose (get_pools_threads_running threads (gpu_hypers_online gpu_profile))
            domain_memory_gb domain_vcpus domain_id b
      end
  end.

(** ** The strategies choose one of the hosts *)
Lemma weighted_select_in choose l :
  choices_ok choose → l ≠ [] → ∃ h, weighted_select choose l = Some h ∧ h ∈ l.
Proof.
  intros Hc Hl. apply Hc; [done|by rewrite length_fmap, length_reverse, length_seq|].
  apply Forall_forall. intros z (n & -> & Hn)%list_elem_of_fmap. apply elem_of_reverse, elem_of_seq in Hn. lia.
Qed.

Lemma py_sorted_nonempty {A} (leb : A → A → bool) l : l ≠ [] → py_sorted leb l ≠ [].
Proof. intros Hl H. pose proof (py_sorted_perm leb l) as Hp. rewrite H in Hp. by apply Permutation_nil_l in Hp. Qed.

Lemma till_low_ram_in choose by_ram l :
  choices_ok choose → l ≠ [] → (∀ h, h ∈ by_ram l ↔ h ∈ l) → by_ram l ≠ [] →
  ∃ h, till_low_ram choose by_ram l = Some h ∧ h ∈ l.
Proof.
  intros Hc Hl Hin Hne. unfold till_low_ram. case_bool_decide as He.
  - destruct (weighted_select_in choose (by_ram l) Hc Hne) as (h & Hh & Hm). exists h. by rewrite <-Hin.
  - destruct (weighted_select_in choose _ Hc He) as (h & Hh & Hm). exists h. split; [done|].
    apply list_elem_of_In, filter_In in Hm as [Hm _]. apply list_elem_of_In in Hm. by apply elem_of_py_sorted in Hm.
Qed.

Lemma next_index_lt index n : (0 < n)%nat → (next_index index n < n)%nat.
Proof. unfold next_index. destruct (Nat.leb_spec n (S index)); lia. Qed.

Lemma balancer_in t choose index l :
  choices_ok choose → l ≠ [] → ∃ h, (_balancer t choose index l).2 = Some h ∧ h ∈ l.
Proof.
  intros Hc Hl. destruct t; simpl.
  - assert (0 < length l)%nat by (destruct l; [done|simpl; lia]).
    destruct (lookup_lt_is_Some_2 l (next_index index (length l))) as [h Hh]; [by apply next_index_lt|].
    exists h. split; [done|by eapply list_elem_of_lookup_2].
  - destruct (weighted_select_in choose (sort_hypervisors_ram_absolute l)) as (h & Hh & Hm);
      [done|by apply py_sorted_nonempty|]. apply elem_of_py_sorted in Hm. eauto.
  - destruct (weighted_select_in choose (sort_hypervisors_ram_percentage l)) as (h & Hh & Hm);
      [done|by apply py_sorted_nonempty|]. apply elem_of_py_sorted in Hm. eauto.
  - destruct (weighted_select_in choose (sort_hypervisors_cpu_percentage l)) as (h & Hh & Hm);
      [done|by apply py_sorted_nonempty|]. apply elem_of_py_sorted in Hm. eauto.
  - apply till_low_ram_in; [done..| |by apply py_sorted_nonempty]. intros h. apply elem_of_py_sorted.
  - apply till_low_ram_in; [done..| |by apply py_sorted_nonempty]. intros h. apply elem_of_py_sorted.
Qed.

Lemma adjust_hyper_id b h : h_id (adjust_hyper b h) = h_id h.
Proof. unfold adjust_hyper. by destruct (_ <=? _)%Z. Qed.

(** The strategy sees adjusted copies and its choice names a host of the list. *)
Lemma choose_host_in choose l b :
  choices_ok choose → l ≠ [] →
  ∃ h i, choose_host choose l b = (set_index b i, Some (h_id h)) ∧ h ∈ l.
Proof.
  intros Hc Hl. unfold choose_host.
  assert (Hbal : ∃ h i, (let '(i, h) := _balancer (b_type b) choose (b_index b) (_adjust_for_pending l b) in
            (set_index b i, h_id <$> h)) = (set_index b i, Some (h_id h)) ∧ h ∈ l).
  { destruct (balancer_in (b_type b) choose (b_index b) (_adjust_for_pending l b)) as (h & Hh & Hm); [done| |].
    { unfold _adjust_for_pending. by destruct l. }
    destruct (_balancer _ _ _ _) as [i o]. simpl in Hh. subst o.
    apply list_elem_of_fmap in Hm as (h0 & -> & Hm). exists h0, i. simpl. by rewrite adjust_hyper_id. }
  destruct l as [|h [|h' l]]; [done| |exact Hbal].
  exists h, (b_index b). split; [by destruct b|left].
Qed.

Lemma find_by_id h l :
  NoDup (h_id <$> l) → h ∈ l → List.find (λ x, (h_id x =? h_id h)%string) l = Some h.
Proof.
  induction l as [|x l IH]; [set_solver|]. simpl. intros [Hn Hnd]%NoDup_cons [->|Hin]%elem_of_cons.
  - by rewrite String.eqb_refl.
  - destruct (String.eqb_spec (h_id x) (h_id h)) as [He|]; [|by apply IH].
    destruct Hn. rewrite He. apply list_elem_of_fmap. eauto.
Qed.

Lemma plans_lookup l gb b h :
  NoDup (h_id <$> l) → h ∈ l → plan_of (plans_of l gb b) h = _plan_backing h gb b.
Proof.
  intros Hnd Hin. unfold plan_of, plans_of. revert Hnd Hin. induction l as [|x l IH] using rev_ind; [set_solver|].
  rewrite fmap_app. intros (Hnd & Hdis & _)%NoDup_app Hin. rewrite foldl_app. simpl.
  apply elem_of_app in Hin as [Hin| ->%list_elem_of_singleton].
  - rewrite lookup_insert_ne; [by apply IH|]. intros He.
    apply (Hdis (h_id h)); [apply list_elem_of_fmap; eauto|simpl; set_solver].
  - by rewrite lookup_insert_eq.
Qed.

(** The hosts with room. *)
Lemma with_room_spec l gb b h :
  NoDup (h_id <$> l) →
  h ∈ List.filter (λ h, bool_decide (plan_of (plans_of l gb b) h ≠ None)) l
  ↔ h ∈ l ∧ _plan_backing h gb b ≠ None.
Proof.
  intros Hnd. rewrite list_elem_of_In, filter_In, <-list_elem_of_In. split; intros [Hin Hp]; (split; [done|]).
  - apply bool_decide_eq_true in Hp. by rewrite plans_lookup in Hp.
  - apply bool_decide_eq_true. by rewrite plans_lookup.
Qed.

Lemma NoDup_filter_ids l (P : hyper → bool) : NoDup (h_id <$> l) → NoDup (h_id <$> List.filter P l).
Proof.
  induction l as [|x l IH]; simpl; [done|]. intros [Hn Hnd]%NoDup_cons. destruct (P x); simpl; [|by apply IH].
  apply NoDup_cons. split; [|by apply IH]. intros (y & Hy & Hin)%list_elem_of_fmap. apply Hn. rewrite Hy.
  apply list_elem_of_fmap. exists y. split; [done|].
  apply list_elem_of_In, filter_In in Hin as [Hin _]. by apply list_elem_of_In.
Qed.

Definition node_of (now : Q) (h : hyper) (gb : Q) (vcpus : Z) (b : BalancerInterface) : option string :=
  select_balanced_numa_node (h_numa h) (ms_numa_free_kb (h_mem h)) (int_of_Q (gb * inject_Z GIB_KB)) (or1 vcpus)
    (_get_pending_by_node now (h_id h) b).

(** A start, by cases. *)
Lemma virt_cases now choose hypers gb vcpus domain b :
  choices_ok choose → NoDup (h_id <$> hypers) → hypers ≠ [] →
  let b0 := _cleanup_expired now b in
  let out := _get_next_capabilities_virt now choose hypers gb vcpus domain b in
  (∃ ids, out = (b0, Ok (NoHost (Some ids))) ∧ ∀ h, h ∈ hypers → _plan_backing h gb b0 = None)
  ∨ ∃ h backing e i,
      h ∈ hypers ∧ _plan_backing h gb b0 = Some backing
      ∧ out = (match node_of now h gb vcpus b0 with
               | Some node => _record_pending_node now (h_id h) node gb (or1 vcpus)
               | None => λ b, b
               end (_record_pending now (h_id h) gb domain backing (set_index b0 i)), Ok (OnHost (h_id h) e))
      ∧ ex_backing e = Some backing ∧ ex_node e = node_of now h gb vcpus b0.
Proof.
  intros Hc Hnd Hne. cbv zeta. unfold _get_next_capabilities_virt. destruct hypers as [|h0 hs] eqn:El; [done|].
  rewrite <-El in *. clear El h0 hs. set (b0 := _cleanup_expired now b).
  pose proof (λ h, with_room_spec hypers gb b0 h Hnd) as Hroom.
  pose proof (NoDup_filter_ids hypers (λ h, bool_decide (plan_of (plans_of hypers gb b0) h ≠ None)) Hnd) as Hnd'.
  set (room := List.filter _ hypers) in *.
  destruct (decide (room = [])) as [Hr|Hr].
  - left. rewrite Hr. eexists. split; [reflexivity|]. intros h Hh.
    destruct (_plan_backing h gb b0) eqn:Hp; [|done]. exfalso.
    assert (Hin : h ∈ room) by (apply Hroom; by rewrite Hp). rewrite Hr in Hin. set_solver.
  - right. destruct (choose_host_in choose room b0 Hc Hr) as (h & i & Hch & Hin).
    pose proof (proj1 (Hroom h) Hin) as [Hh Hp].
    destruct (_plan_backing h gb b0) as [backing|] eqn:Hpl; [clear Hp|done].
    destruct room as [|r0 rs] eqn:Er; [done|]. rewrite <-Er in *. rewrite Hch. simpl.
    rewrite (find_by_id h room) by done. rewrite plans_lookup by done. rewrite Hpl. simpl.
    exists h, backing. unfold _attach_balanced_node.
    replace (_get_pending_by_node now (h_id h) (_record_pending now (h_id h) gb domain backing (set_index b0 i)))
      with (_get_pending_by_node now (h_id h) b0) by done.
    unfold node_of. destruct (select_balanced_numa_node _ _ _ _ _) as [node|]; eexists _, i;
      (split; [done|split; [done|split; [reflexivity|]]]); [done|].
    by unfold _build_hugepages_extra; destruct (hp_mounted _).
Qed.

(** ** Memory in flight *)

(** A size of [kb] KiB, as the caller divides it. *)
Definition gb_of (kb : Z) : Q := (inject_Z kb / inject_Z GIB_KB)%Q.
Definition is_kb (q : Q) (kb : Z) : Prop := (q * inject_Z GIB_KB == inject_Z kb)%Q.

Lemma gb_of_kb kb : is_kb (gb_of kb) kb.
Proof. unfold is_kb, gb_of. field. done. Qed.

Lemma int_of_Q_kb q kb : is_kb q kb → int_of_Q (q * inject_Z GIB_KB) = kb.
Proof.
  unfold is_kb, int_of_Q. intros H. destruct (Qle_bool _ _); rewrite H; [apply Qfloor_Z|apply Qceiling_Z].
Qed.

(** The whole KiB of a start. *)
Definition entry_kb (e : start_entry) : Z := int_of_Q (st_ram_gb e * inject_Z GIB_KB).
Definition entry_ok (e : start_entry) : Prop := is_kb (st_ram_gb e) (entry_kb e) ∧ (0 ≤ entry_kb e)%Z.

Lemma sum_gb_kb l : Forall entry_ok l → is_kb (sum_gb l) (sum_by entry_kb l).
Proof.
  unfold is_kb. induction 1 as [|e l [He _] _ IH]; simpl; [reflexivity|].
  rewrite Qmult_plus_distr_l, inject_Z_plus, IH. unfold is_kb in He. by rewrite He.
Qed.

Definition of_backing (x : memory_backing) (e : start_entry) : bool := bool_decide (st_backing e = x).

Definition in_flight_kb (b : BalancerInterface) (hyp_id : string) (x : memory_backing) : Z :=
  sum_by entry_kb (List.filter (of_backing x) (entries_of b hyp_id)).

Definition entries_ok (b : BalancerInterface) : Prop := ∀ hyp_id, Forall entry_ok (entries_of b hyp_id).

Lemma Forall_List_filter {A} (P : A → Prop) (f : A → bool) l : Forall P l → Forall P (List.filter f l).
Proof. induction 1; simpl; [done|]. destruct (f _); auto. Qed.

Lemma pending_in_flight b hyp_id x :
  entries_ok b → _get_pending_ram_kb hyp_id (Some x) b = in_flight_kb b hyp_id x.
Proof. intros H. unfold _get_pending_ram_kb. apply int_of_Q_kb, sum_gb_kb, Forall_List_filter, H. Qed.

(** Entries that are taken out only free memory. *)
Lemma sum_kb_filter f g l :
  Forall entry_ok l →
  (sum_by entry_kb (List.filter f (List.filter g l)) ≤ sum_by entry_kb (List.filter f l))%Z
  ∧ (0 ≤ sum_by entry_kb (List.filter f l))%Z.
Proof.
  induction 1 as [|e l [_ He] _ [IH IH0]]; simpl; [lia|].
  destruct (g e); simpl; destruct (f e); simpl; lia.
Qed.

(** [b'] has what [b] has in flight on a host, less some entries. *)
Definition fewer (b b' : BalancerInterface) : Prop :=
  ∀ hyp_id, ∃ f, entries_of b' hyp_id = List.filter f (entries_of b hyp_id).

Lemma fewer_ok b b' : fewer b b' → entries_ok b → entries_ok b'.
Proof. intros Hf Hok hyp_id. destruct (Hf hyp_id) as [f ->]. apply Forall_List_filter, Hok. Qed.

Lemma fewer_in_flight b b' hyp_id x :
  fewer b b' → entries_ok b → (in_flight_kb b' hyp_id x ≤ in_flight_kb b hyp_id x)%Z.
Proof.
  intros Hf Hok. unfold in_flight_kb. destruct (Hf hyp_id) as [f ->]. by apply sum_kb_filter.
Qed.

Lemma cleanup_fewer now b : fewer b (_cleanup_expired now b).
Proof.
  intros hyp_id. exists (_pending_alive now). unfold entries_of, _cleanup_expired, drop_dead. simpl.
  rewrite lookup_omap. destruct (b_pending_ram b !! hyp_id) as [l|]; simpl; [|done].
  by destruct (List.filter _ l).
Qed.

Lemma release_fewer hyp_id domain_id b : fewer b (_release_pending hyp_id domain_id b).
Proof.
  intros h. unfold _release_pending. destruct (entries_of b hyp_id) as [|e0 es] eqn:He.
  - exists (λ _, true). induction (entries_of b h) as [|x l IH]; simpl; [done|congruence].
  - destruct (decide (hyp_id = h)) as [<-|Hne].
    + exists (not_of domain_id). rewrite He. set (kept := List.filter (not_of domain_id) (e0 :: es)).
      unfold entries_of. cbn [b_pending_ram set_ram].
      case_bool_decide as Hk; [rewrite lookup_delete_eq|by rewrite lookup_insert_eq]. simpl. by rewrite Hk.
    + exists (λ _, true). unfold entries_of. cbn [b_pending_ram set_ram].
      replace ((if bool_decide _ then _ else _) !! h) with (b_pending_ram b !! h)
        by (case_bool_decide; [by rewrite lookup_delete_ne|by rewrite lookup_insert_ne]).
      induction (default [] (b_pending_ram b !! h)) as [|x l IH]; simpl; [done|congruence].
Qed.

(** A recorded start adds at most its memory. *)
Lemma record_in_flight now hyp_id kb domain x b :
  entries_ok b → (0 ≤ kb)%Z →
  let b' := _record_pending now hyp_id (gb_of kb) domain x b in
  entries_ok b'
  ∧ ∀ h y, (in_flight_kb b' h y
            ≤ in_flight_kb b h y + if bool_decide (h = hyp_id ∧ y = x) then kb else 0)%Z.
Proof.
  intros Hok Hkb b'. set (f := λ e, match domain with Some d => not_of d e | None => true end).
  set (e := mkStart (gb_of kb) now domain x).
  assert (Hen : ∀ h, entries_of b' h = if decide (h = hyp_id) then List.filter f (entries_of b h) ++ [e] else entries_of b h).
  { intros h. unfold b', _record_pending, entries_of. simpl. destruct (decide (h = hyp_id)) as [->|Hne].
    - rewrite lookup_insert_eq. simpl. f_equal. unfold f. destruct domain; [done|].
      by induction (default [] _) as [|y l IH]; simpl; [|rewrite <-IH].
    - by rewrite lookup_insert_ne. }
  assert (He : entry_kb e = kb) by (apply int_of_Q_kb, gb_of_kb).
  assert (Heok : entry_ok e) by (split; rewrite He; [apply gb_of_kb|done]).
  split.
  - intros h. rewrite Hen. destruct (decide _); [|apply Hok]. apply Forall_app. split; [apply Forall_List_filter, Hok|].
    by constructor.
  - intros h y. unfold in_flight_kb. rewrite Hen. destruct (decide (h = hyp_id)) as [->|Hne].
    + rewrite List.filter_app, sum_by_app. destruct (sum_kb_filter (of_backing y) f _ (Hok hyp_id)) as [Hle _].
      simpl. unfold of_backing at 2. simpl. destruct (decide (y = x)) as [->|Hyx].
      * rewrite !bool_decide_eq_true_2 by done. simpl. rewrite He. lia.
      * rewrite !bool_decide_eq_false_2 by naive_solver. simpl. lia.
    + rewrite bool_decide_eq_false_2 by naive_solver. lia.
Qed.

(** ** Room on a host *)
Lemma plan_regular_fits m h min_free kb pr ph a :
  plan_memory_backing m h min_free kb pr ph = Some REGULAR → hp_mounted h || negb (min_free =? 0)%Z = true →
  ms_available m = Some a → (kb ≤ a - pr - min_free * GIB_KB)%Z.
Proof.
  unfold plan_memory_backing. intros Hp Hm Ha. rewrite Ha in Hp.
  replace (negb (hp_mounted h) && (min_free * GIB_KB =? 0)%Z) with false in Hp.
  2:{ unfold GIB_KB. destruct (hp_mounted h); [done|]. simpl in *. destruct (Z.eqb_spec min_free 0); [done|].
      symmetry. apply Z.eqb_neq. lia. }
  unfold regular_room_kb in Hp. rewrite Ha in Hp. simpl in Hp.
  destruct (Z.leb_spec kb (a - pr - min_free * GIB_KB)); [done|]. simpl in Hp. split_matches; done.
Qed.

Lemma size_fits_free kb h free p :
  (0 ≤ hp_1G h)%Z → (0 ≤ hp_2M h)%Z → size_fits kb h free p = true → (kb ≤ free)%Z.
Proof.
  intros H1 H2 Hf. unfold size_fits in Hf. simp_bool.
  assert (0 ≤ pool_kb h (other_size p))%Z by (unfold pool_kb, pages, page_kb; destruct p; simpl; lia). lia.
Qed.

Lemma plan_hugepages_fits m h min_free kb pr ph :
  (0 ≤ hp_1G h)%Z → (0 ≤ hp_2M h)%Z →
  plan_memory_backing m h min_free kb pr ph = Some HUGEPAGES → (kb ≤ or0 (ms_hugepages_free_kb m) - ph)%Z.
Proof.
  intros H1 H2 Hp. unfold plan_memory_backing in Hp. destruct (_ && _); [done|].
  destruct (ms_available m); [|done]. destruct (regular_room_kb _ _ _) as [measured committed].
  destruct (_ && _); [done|]. destruct (negb _); [by destruct (_ && _)|].
  destruct (pick_hugepage_size _ _ _) as [p|] eqn:Hpick; [|by destruct (_ <=? _)%Z].
  apply find_some in Hpick as [_ Hfit]. by apply size_fits_free in Hfit.
Qed.

(** What happens to the starts in flight while one sample of the statistics of host
    [h0] holds: starts on it or elsewhere, GPU starts on other hosts, and releases. GPU
    starts on [h0] are left out, since [_get_next_capabilities_virt_gpus] records them with
    no test for room. *)
Inductive burst_step (h0 : hyper) : BalancerInterface → BalancerInterface → Prop :=
  | burst_start now choose hypers kb vcpus domain b :
      choices_ok choose → NoDup (h_id <$> hypers) → (∀ h, h ∈ hypers → h_id h = h_id h0 → h = h0) → (0 ≤ kb)%Z →
      burst_step h0 b (_get_next_capabilities_virt now choose hypers (gb_of kb) vcpus domain b).1
  | burst_gpu_elsewhere now choose hypers kb vcpus domain b :
      h_id h0 ∉ h_id <$> hypers → (0 ≤ kb)%Z →
      burst_step h0 b (_get_next_capabilities_virt_gpus now choose hypers (gb_of kb) vcpus domain b).1
  | burst_release hyp_id domain_id b : burst_step h0 b (_release_pending hyp_id domain_id b).

Record within (h0 : hyper) (a : Z) (b : BalancerInterface) : Prop := {
  wi_ok : entries_ok b;
  wi_regular : (in_flight_kb b (h_id h0) REGULAR ≤ Z.max 0 (a - h_min_free_gb h0 * GIB_KB))%Z;
  wi_hugepages : (in_flight_kb b (h_id h0) HUGEPAGES ≤ Z.max 0 (or0 (ms_hugepages_free_kb (h_mem h0))))%Z;
}.

Lemma within_fewer h0 a b b' : fewer b b' → within h0 a b → within h0 a b'.
Proof.
  intros Hf [Hok H1 H2]. pose proof (λ x, fewer_in_flight b b' (h_id h0) x Hf Hok) as Hle.
  split; [by eapply fewer_ok| |]; [specialize (Hle REGULAR)|specialize (Hle HUGEPAGES)]; lia.
Qed.

(** The bookkeeping of the nodes and of the strategy leaves the memory alone. *)
Lemma within_same h0 a b b' : b_pending_ram b' = b_pending_ram b → within h0 a b → within h0 a b'.
Proof.
  intros He [Hok H1 H2]. assert (Hen : ∀ h, entries_of b' h = entries_of b h) by (intros h; unfold entries_of; by rewrite He).
  split; [intros h; rewrite Hen; apply Hok| |]; unfold in_flight_kb; by rewrite Hen.
Qed.

Lemma within_record_other h0 a now hyp_id kb domain x b :
  hyp_id ≠ h_id h0 → (0 ≤ kb)%Z → within h0 a b → within h0 a (_record_pending now hyp_id (gb_of kb) domain x b).
Proof.
  intros Hne Hkb [Hok H1 H2]. destruct (record_in_flight now hyp_id kb domain x b Hok Hkb) as [Hok' Hle].
  split; [done| |].
  - specialize (Hle (h_id h0) REGULAR). rewrite bool_decide_eq_false_2 in Hle by naive_solver. lia.
  - specialize (Hle (h_id h0) HUGEPAGES). rewrite bool_decide_eq_false_2 in Hle by naive_solver. lia.
Qed.

(** A planned start on the host fits what was left. *)
Lemma within_record_planned h0 a now kb domain x b :
  ms_available (h_mem h0) = Some a → hp_mounted (h_hugepages h0) || negb (h_min_free_gb h0 =? 0)%Z = true →
  (0 ≤ hp_1G (h_hugepages h0))%Z → (0 ≤ hp_2M (h_hugepages h0))%Z → (0 ≤ kb)%Z → within h0 a b →
  _plan_backing h0 (gb_of kb) b = Some x → within h0 a (_record_pending now (h_id h0) (gb_of kb) domain x b).
Proof.
  intros Ha Hm Hp1 Hp2 Hkb [Hok H1 H2] Hplan.
  destruct (record_in_flight now (h_id h0) kb domain x b Hok Hkb) as [Hok' Hle].
  unfold _plan_backing in Hplan. rewrite !pending_in_flight, (int_of_Q_kb _ kb) in Hplan by (done || apply gb_of_kb).
  split; [done| |]; [specialize (Hle (h_id h0) REGULAR)|specialize (Hle (h_id h0) HUGEPAGES)]; destruct x.
  - rewrite bool_decide_eq_true_2 in Hle by done. eapply plan_regular_fits in Hplan; [|done..]. lia.
  - rewrite bool_decide_eq_false_2 in Hle by naive_solver. lia.
  - rewrite bool_decide_eq_false_2 in Hle by naive_solver. lia.
  - rewrite bool_decide_eq_true_2 in Hle by done. eapply plan_hugepages_fits in Hplan; [|done..]. lia.
Qed.

Lemma within_record_gpu h0 a now h kb vcpus domain b :
  h_id h ≠ h_id h0 → (0 ≤ kb)%Z → within h0 a b → within h0 a (record_gpu now h (gb_of kb) vcpus domain b).1.
Proof.
  intros Hne Hkb Hw. unfold record_gpu. destruct (gpu_info h) as [g|]; [|done]. simpl.
  eapply (within_same _ _ (_record_pending now (h_id h) (gb_of kb) domain (_gpu_backing g) b)).
  - unfold _record_gpu_node_pending. destruct (ge_numa_node g) as [nn|]; [|done].
    destruct (py_int nn) as [n|]; [|done]. by destruct (0 <=? n)%Z.
  - by apply within_record_other.
Qed.

Lemma within_step h0 a b b' :
  ms_available (h_mem h0) = Some a → hp_mounted (h_hugepages h0) || negb (h_min_free_gb h0 =? 0)%Z = true →
  (0 ≤ hp_1G (h_hugepages h0))%Z → (0 ≤ hp_2M (h_hugepages h0))%Z →
  burst_step h0 b b' → within h0 a b → within h0 a b'.
Proof.
  intros Ha Hm Hp1 Hp2 Hstep Hw. destruct Hstep as [now choose hypers kb vcpus domain b Hc Hnd Huniq Hkb|now choose hypers kb vcpus domain b Hno Hkb|hyp_id domain_id b].
  - destruct (decide (hypers = [])) as [->|Hne]; [done|].
    pose proof (within_fewer _ _ _ _ (cleanup_fewer now b) Hw) as Hw0.
    destruct (virt_cases now choose hypers (gb_of kb) vcpus domain b Hc Hnd Hne)
      as [(ids & -> & _)|(h & x & e & i & Hin & Hplan & -> & _)]; [done|]. simpl.
    set (b1 := _record_pending now (h_id h) (gb_of kb) domain x (set_index (_cleanup_expired now b) i)).
    assert (Hw1 : within h0 a b1).
    { apply (within_same h0 a (_record_pending now (h_id h) (gb_of kb) domain x (_cleanup_expired now b))); [done|].
      destruct (decide (h_id h = h_id h0)) as [He|He].
      - apply Huniq in He as ->; [|done]. by apply within_record_planned.
      - by apply within_record_other. }
    destruct (node_of _ _ _ _ _); [|done]. by eapply within_same; [|exact Hw1].
  - assert (Hother : ∀ h, h ∈ hypers → h_id h ≠ h_id h0).
    { intros h Hh He. apply Hno. rewrite <-He. apply list_elem_of_fmap. eauto. }
    unfold _get_next_capabilities_virt_gpus.
    destruct hypers as [|h [|h' hs]]; [done|apply within_record_gpu; [apply Hother; left|done..]|].
    set (l := h :: h' :: hs) in *. destruct (_balancer _ _ _ _) as [i sel].
    assert (Hw0 : within h0 a (set_index (_cleanup_expired now b) i)).
    { eapply within_same; [|eapply within_fewer; [apply (cleanup_fewer now)|done]]. done. }
    destruct (sel ≫= _) as [x|] eqn:Hx; [|done]. apply within_record_gpu; [|done..]. apply Hother.
    destruct sel as [s|]; [|done]. apply find_some in Hx as [Hx _]. by apply list_elem_of_In.
  - eapply within_fewer; [apply release_fewer|done].
Qed.

Lemma new_within h0 a t : within h0 a (new_balancer t).
Proof.
  assert (Hnil : ∀ h, entries_of (new_balancer t) h = []) by (intros h; unfold entries_of; simpl; by rewrite lookup_empty).
  split; [intros h; rewrite Hnil; constructor|..]; unfold in_flight_kb; rewrite Hnil; simpl; lia.
Qed.

(** ** The properties *)

(** C20: Take a host whose statistics are sampled (its available memory is known, its free
    pages are not negative) and which has hugepages mounted or a reserve of free memory that
    is not zero, and let that one sample hold. Starts without a GPU on any hosts (listed once
    each, for a memory that is not negative), GPU starts on other hosts, expiries and
    releases may follow in any order, whatever the strategy, where a draw picks one of the
    hosts it is given.
    From an empty balancer, the regular memory of the starts in flight to the host plus the
    reserve stays within its available memory, and the hugepages of the starts in flight
    stay within the free pool. GPU starts on the host itself are left out: the code records
    them without a test for room. *)
Theorem bursts_never_overcommit t h0 a b :
  ms_available (h_mem h0) = Some a → hp_mounted (h_hugepages h0) || negb (h_min_free_gb h0 =? 0)%Z = true →
  (0 ≤ hp_1G (h_hugepages h0))%Z → (0 ≤ hp_2M (h_hugepages h0))%Z →
  steps (burst_step h0) (new_balancer t) b →
  let regular := _get_pending_ram_kb (h_id h0) (Some REGULAR) b in
  let huge := _get_pending_ram_kb (h_id h0) (Some HUGEPAGES) b in
  ((0 < regular → regular + h_min_free_gb h0 * GIB_KB ≤ a)
   ∧ (0 < huge → huge ≤ or0 (ms_hugepages_free_kb (h_mem h0))))%Z.
Proof.
  intros Ha Hm Hp1 Hp2 Hsteps. cbv zeta.
  assert (Hw : within h0 a b).
  { eapply (steps_invariant _ (within h0 a)); [|exact Hsteps|apply new_within].
    intros b1 b2 Hs Hb. by eapply within_step. }
  destruct Hw as [Hok H1 H2]. rewrite !pending_in_flight by done. lia.
Qed.

(** C38: a start without a GPU answers no host exactly when no candidate has room for it,
    and then leaves nothing in flight behind; otherwise the host it answers, whatever
    the strategy and the draw, is a candidate the memory plan has room on once expired
    starts are dropped, the answer carries that backing and the node balanced against
    the starts in flight, and the start is recorded on that host with that backing. *)
Theorem placement_is_exact now choose hypers gb vcpus domain b :
  choices_ok choose → NoDup (h_id <$> hypers) →
  let b0 := _cleanup_expired now b in
  let '(b', r) := _get_next_capabilities_virt now choose hypers gb vcpus domain b in
  match r with
  | Ok (NoHost _) => Forall (λ h, _plan_backing h gb b0 = None) hypers ∧ b' = (if bool_decide (hypers = []) then b else b0)
  | Ok (OnHost id e) =>
      ∃ h backing, h ∈ hypers ∧ h_id h = id ∧ _plan_backing h gb b0 = Some backing
        ∧ ex_backing e = Some backing ∧ ex_node e = node_of now h gb vcpus b0
        ∧ b_pending_ram b' = b_pending_ram (_record_pending now id gb domain backing b0)
        ∧ (∀ other, other ≠ id → entries_of b' other = entries_of b0 other)
  | _ => False
  end.
Proof.
  intros Hc Hnd. cbv zeta. destruct (decide (hypers = [])) as [->|Hne].
  { simpl. split; [constructor|done]. }
  destruct (virt_cases now choose hypers gb vcpus domain b Hc Hnd Hne)
    as [(ids & -> & Hno)|(h & x & e & i & Hin & Hplan & -> & Hb & Hn)].
  - split; [by apply Forall_forall|]. by rewrite bool_decide_eq_false_2.
  - exists h, x. split_and!; try done.
    + by destruct (node_of _ _ _ _ _).
    + intros other Ho. unfold entries_of.
      replace (b_pending_ram _) with (b_pending_ram (_record_pending now (h_id h) gb domain x (_cleanup_expired now b)))
        by (by destruct (node_of _ _ _ _ _)).
      unfold _record_pending, set_ram. simpl. by rewrite lookup_insert_ne.
Qed.

(** *** A small fleet *)
Definition first_choice : chooser := λ l _, head l.

Lemma first_choice_ok : choices_ok first_choice.
Proof. intros [|h l] w Hl _ _; [done|]. exists h. split; [done|left]. Qed.

Definition no_pool : hugepages_info := mkHuge true 0 0 None.
Definition small_host (id : string) (gib : Z) : hyper :=
  mkHyper id (mkMem (Some (gib * GIB_KB)%Z) (Some (2 * gib * GIB_KB)%Z) (Some (gib * GIB_KB)%Z) None None None None
                [("0", 4194304%Z); ("1", 4194304%Z)])
    (Some 50%Q) no_pool 2 [("0", "0-7"); ("1", "8-15")] None.

Definition host_a := small_host "hyper-a" 8.
Definition host_b := small_host "hyper-b" 5.

Definition burst (n : nat) : BalancerInterface :=
  Nat.iter n (λ b, (_get_next_capabilities_virt 100 first_choice [host_a; host_b] (gb_of 2097152) 2 None b).1)
    (new_balancer round_robin).

Lemma burst_steps n : steps (burst_step host_b) (new_balancer round_robin) (burst n).
Proof.
  induction n as [|n IH]; [constructor|]. eapply steps_trans; [exact IH|].
  eapply steps_cons; [|constructor].
  apply (burst_start host_b 100%Q first_choice [host_a; host_b] 2097152 2 None (burst n)).
  - apply first_choice_ok.
  - apply (bool_decide_unpack _). by vm_compute.
  - intros h [->|[->|[]%elem_of_nil]%elem_of_cons]%elem_of_cons; [|done]. intros H. by vm_compute in H.
  - lia.
Qed.

(** Six starts of two GiB on hosts with six and three GiB above the reserve: the first
    host takes three, the second one, and the others find no room. *)
Lemma bursts_never_overcommit_witness :
  let b := burst 6 in
  _get_pending_ram_kb "hyper-a" (Some REGULAR) b = (6 * GIB_KB)%Z
  ∧ _get_pending_ram_kb "hyper-b" (Some REGULAR) b = (2 * GIB_KB)%Z
  ∧ ((0 < _get_pending_ram_kb "hyper-b" (Some REGULAR) b →
        _get_pending_ram_kb "hyper-b" (Some REGULAR) b + 2 * GIB_KB ≤ 5 * GIB_KB)
     ∧ (0 < _get_pending_ram_kb "hyper-b" (Some HUGEPAGES) b → _get_pending_ram_kb "hyper-b" (Some HUGEPAGES) b ≤ 0))%Z.
Proof.
  split; [by vm_compute|]. split; [by vm_compute|].
  apply (bursts_never_overcommit round_robin host_b (5 * GIB_KB)%Z (burst 6)); [reflexivity..|apply burst_steps].
Defined.

Lemma placement_is_exact_witness :
  ∃ h backing, h ∈ [host_a; host_b] ∧ h_id h = "hyper-b"
    ∧ _plan_backing h (gb_of 2097152) (_cleanup_expired 100 (new_balancer round_robin)) = Some backing.
Proof.
  pose proof (placement_is_exact 100%Q first_choice [host_a; host_b] (gb_of 2097152) 2 None (new_balancer round_robin)
    first_choice_ok ltac:(apply (bool_decide_unpack _); by vm_compute)) as H.
  assert (Hr : ∃ e, (_get_next_capabilities_virt 100 first_choice [host_a; host_b] (gb_of 2097152) 2 None
                      (new_balancer round_robin)).2 = Ok (OnHost "hyper-b" e)) by (eexists; vm_compute; reflexivity).
  destruct Hr as [e Hr]. cbv zeta in H. destruct (_get_next_capabilities_virt _ _ _ _ _ _ _) as [b' r].
  simpl in Hr. subst r. destruct H as (h & x & Hin & Hid & Hplan & _). by exists h, x.
Defined.

(** ** The node of a host *)
Section best.
Context (score : string → Q).

Lemma better_fold best l n :
  foldl (better score) best l = Some n →
  (best = Some n ∨ n ∈ l) ∧ (∀ m, best = Some m ∨ m ∈ l → (score m <= score n)%Q).
Proof.
  revert best. induction l as [|x l IH]; intros best; simpl.
  - intros ->. split; [by left|]. intros m [[= ->]|Hm]; [apply Qle_refl|set_solver].
  - intros H. destruct (IH _ H) as [Hin Hmax]. split.
    + destruct Hin as [Hb|Hin]; [|right; by right].
      unfold better in Hb. destruct best as [b|]; [|injection Hb as ->; right; left].
      destruct (Qle_bool _ _); [by left|injection Hb as ->; right; left].
    + intros m [->|[->|Hm]%elem_of_cons].
      * simpl in Hmax. destruct (Qle_bool (score x) (score m)) eqn:E; [by apply Hmax; left|].
        eapply Qle_trans; [|by apply Hmax; left]. apply Qlt_le_weak, Qnot_le_lt.
        rewrite <-Qle_bool_iff. congruence.
      * destruct best as [b|]; simpl in Hmax; [|by apply Hmax; left].
        destruct (Qle_bool (score x) (score b)) eqn:E; [|by apply Hmax; left].
        eapply Qle_trans; [by apply Qle_bool_iff|]. apply Hmax. by left.
      * apply Hmax. by right.
Qed.

Lemma better_fold_some best l : best ≠ None ∨ l ≠ [] → foldl (better score) best l ≠ None.
Proof.
  revert best. induction l as [|x l IH]; intros best; simpl; [by intros [?|?]|].
  intros _. apply IH. left. unfold better. destruct best; [|done]. by destruct (Qle_bool _ _).
Qed.
End best.

(** The selected node has the best score of the nodes. *)
Lemma selected_node_best nodes free kb vcpus pending :
  (2 ≤ length nodes)%nat →
  ∃ n, select_balanced_numa_node nodes free kb vcpus pending = Some n ∧ n ∈ nodes.*1
    ∧ ∀ m, m ∈ nodes.*1 → (score_of nodes free kb vcpus pending m <= score_of nodes free kb vcpus pending n)%Q.
Proof.
  intros Hlen. unfold select_balanced_numa_node. destruct (Nat.ltb_spec (length nodes) 2); [lia|].
  destruct (foldl _ _ _) as [n|] eqn:E.
  - exists n. split; [done|]. apply better_fold in E as [[?|Hin] Hmax]; [done|].
    apply elem_of_py_sorted in Hin. split; [done|]. intros m Hm. apply Hmax. right. by apply elem_of_py_sorted.
  - exfalso. revert E. apply better_fold_some. right. apply py_sorted_nonempty. by destruct nodes; [simpl in *; lia|].
Qed.

(** *** Equal nodes *)
Definition count_on (n : string) (l : list node_start) : Z := count_if (λ e, (ns_node e =? n)%string) l.

(** What is pending on a node, of starts of one size. *)
Lemma aggregate_equal now gb v l n :
  Forall (λ e, Qle_bool (ns_at e) (now - _PENDING_EXPIRY_SECONDS) = false ∧ ns_ram_gb e = gb ∧ ns_vcpus e = v) l →
  let p := default (0%Q, 0%Z) (aggregate_pending_by_node l now _PENDING_EXPIRY_SECONDS !! n) in
  (p.1 == inject_Z (count_on n l) * (gb * inject_Z GIB_KB))%Q ∧ p.2 = (count_on n l * v)%Z.
Proof.
  unfold aggregate_pending_by_node, count_on. induction l as [|e l IH] using rev_ind; intros Hall.
  { simpl. rewrite lookup_empty. simpl. split; [ring|done]. }
  apply Forall_app in Hall as [Hl He]. apply Forall_cons in He as [(Hat & Hgb & Hv) _]. specialize (IH Hl).
  rewrite foldl_app, count_if_app. set (acc := foldl (add_pending now _PENDING_EXPIRY_SECONDS) ∅ l) in *.
  simpl. unfold add_pending. rewrite Hat.
  destruct (String.eqb_spec (ns_node e) n) as [<-|Hne].
  - destruct (default _ (acc !! ns_node e)) as [ram vc]. rewrite lookup_insert_eq. simpl in *.
    destruct IH as [IH1 IH2]. split; [|rewrite IH2, Hv; lia]. rewrite IH1, Hgb, !inject_Z_plus.
    change (inject_Z 1) with 1%Q. change (inject_Z 0) with 0%Q. ring.
  - destruct (default _ (acc !! ns_node e)) as [ram vc].
    rewrite lookup_insert_ne by done. replace (count_if _ l + (0 + 0))%Z with (count_if (λ e, (ns_node e =? n)%string) l) by lia. done.
Qed.

Lemma Qdiv_lt (x y d : Q) : (0 < d)%Q → (x < y)%Q → (x / d < y / d)%Q.
Proof. intros Hd Hxy. apply Qmult_lt_compat_r; [by apply Qinv_lt_0_compat|done]. Qed.

Lemma Qmin2_lt x x' y y' : (x' < x)%Q → (y' < y)%Q → (Qmin2 x' y' < Qmin2 x y)%Q.
Proof.
  intros Hx Hy. unfold Qmin2. destruct (Qle_bool x y) eqn:E, (Qle_bool x' y') eqn:E'; try done.
  - eapply Qlt_trans; [|exact Hx]. apply Qnot_le_lt. rewrite <-Qle_bool_iff. congruence.
  - eapply Qle_lt_trans; [|exact Hy]. by apply Qle_bool_iff.
Qed.

Lemma inject_pos z : (0 < z)%Z → (0 < inject_Z z)%Q.
Proof. intros H. change 0%Q with (inject_Z 0). by rewrite <-Zlt_Qlt. Qed.

(** The more is pending on a node, the lower its score. *)
Lemma node_score_less cpulist free p p' kb vcpus :
  (0 < _cpulist_size cpulist)%Z → (0 ≤ free)%Z → (p.1 < p'.1)%Q → (p.2 < p'.2)%Z →
  (node_score cpulist free p' kb vcpus < node_score cpulist free p kb vcpus)%Q.
Proof.
  intros Hc Hf H1 H2. unfold node_score.
  assert (Hor : or1 (_cpulist_size cpulist) = _cpulist_size cpulist)
    by (unfold or1; destruct (Z.eqb_spec (_cpulist_size cpulist) 0); lia).
  apply Qmin2_lt; apply Qdiv_lt.
  - apply inject_pos. unfold or1. destruct (Z.eqb_spec free 0); lia.
  - unfold Qminus. apply Qplus_lt_le_compat; [|apply Qle_refl].
    rewrite !(Qplus_comm (inject_Z free)). apply Qplus_lt_le_compat; [|apply Qle_refl]. by apply Qopp_lt_compat.
  - apply inject_pos. lia.
  - rewrite <-Zlt_Qlt. lia.
Qed.

(** Nodes with as many processors and as much free memory each. *)
Definition equal_nodes (h : hyper) (cpus free : Z) : Prop :=
  (2 ≤ length (h_numa h))%nat ∧ (0 < cpus)%Z ∧ (0 ≤ free)%Z
  ∧ ∀ n, n ∈ (h_numa h).*1 → _cpulist_size (default "" (assoc n (h_numa h))) = cpus
                             ∧ default 0%Z (assoc n (ms_numa_free_kb (h_mem h))) = free.

Lemma node_score_cpus c c' free p kb vcpus :
  _cpulist_size c = _cpulist_size c' → node_score c free p kb vcpus = node_score c' free p kb vcpus.
Proof. unfold node_score. by intros ->. Qed.

(** Among equal nodes one with the fewest starts in flight is selected. *)
Lemma select_fewest h cpus free now gb v l kb :
  equal_nodes h cpus free → (0 < gb)%Q → (0 < v)%Z →
  Forall (λ e, Qle_bool (ns_at e) (now - _PENDING_EXPIRY_SECONDS) = false ∧ ns_ram_gb e = gb ∧ ns_vcpus e = v) l →
  ∃ n, select_balanced_numa_node (h_numa h) (ms_numa_free_kb (h_mem h)) kb v
         (aggregate_pending_by_node l now _PENDING_EXPIRY_SECONDS) = Some n
    ∧ n ∈ (h_numa h).*1 ∧ ∀ m, m ∈ (h_numa h).*1 → (count_on n l ≤ count_on m l)%Z.
Proof.
  intros (Hlen & Hc & Hf & Heq) Hgb Hv Hall.
  destruct (selected_node_best (h_numa h) (ms_numa_free_kb (h_mem h)) kb v
              (aggregate_pending_by_node l now _PENDING_EXPIRY_SECONDS) Hlen) as (n & Hn & Hin & Hmax).
  exists n. split; [done|]. split; [done|]. intros m Hm. apply Z.nlt_ge. intros Hlt.
  specialize (Hmax m Hm). apply (Qle_not_lt _ _ Hmax). clear Hmax. unfold score_of.
  destruct (Heq n Hin) as [Hcn Hfn], (Heq m Hm) as [Hcm Hfm]. rewrite Hfn, Hfm.
  rewrite (node_score_cpus _ (default "" (assoc m (h_numa h)))) by congruence.
  destruct (aggregate_equal now gb v l n Hall) as [Hn1 Hn2]. destruct (aggregate_equal now gb v l m Hall) as [Hm1 Hm2].
  apply node_score_less; [lia|done| |].
  - rewrite Hn1, Hm1. apply Qmult_lt_compat_r; [|by rewrite <-Zlt_Qlt].
    rewrite <-(Qmult_0_l (inject_Z GIB_KB)). by apply Qmult_lt_compat_r; [apply inject_pos|].
  - rewrite Hn2, Hm2. nia.
Qed.

(** Starts on one host, one after the other. *)
Definition attach_all (h : hyper) (e : start_extra) (gb : Q) (v : Z) (times : list Q) (b : BalancerInterface) : BalancerInterface :=
  foldl (λ b now, (_attach_balanced_node now h e gb v b).1) b times.

Definition node_entries (b : BalancerInterface) (hyp_id : string) : list node_start := default [] (b_pending_node b !! hyp_id).

(** on a host whose nodes are alike, starts of one size within the expiry window
    spread evenly: after any number of them every two nodes have the same number of
    starts in flight, give or take one, and every start went to one of the nodes. *)
Theorem starts_spread_over_the_nodes h cpus free e gb v times t :
  equal_nodes h cpus free → (0 < gb)%Q → (0 < v)%Z →
  (∀ a b, a ∈ times → b ∈ times → (a - _PENDING_EXPIRY_SECONDS < b)%Q) →
  let l := node_entries (attach_all h e gb v times (new_balancer t)) (h_id h) in
  length l = length times
  ∧ Forall (λ s, ns_node s ∈ (h_numa h).*1) l
  ∧ ∀ n m, n ∈ (h_numa h).*1 → m ∈ (h_numa h).*1 → (count_on n l ≤ count_on m l + 1)%Z.
Proof.
  intros Heq Hgb Hv Hwin. cbv zeta.
  enough (H : let l := node_entries (attach_all h e gb v times (new_balancer t)) (h_id h) in
    Forall (λ s, ns_at s ∈ times ∧ ns_ram_gb s = gb ∧ ns_vcpus s = v) l
    ∧ length l = length times ∧ Forall (λ s, ns_node s ∈ (h_numa h).*1) l
    ∧ ∀ n m, n ∈ (h_numa h).*1 → m ∈ (h_numa h).*1 → (count_on n l ≤ count_on m l + 1)%Z) by (by destruct H).
  induction times as [|now times IH] using rev_ind.
  { cbv zeta. unfold attach_all, node_entries. simpl. rewrite lookup_empty. simpl. unfold count_on. simpl.
    split_and!; [constructor|done|constructor|lia]. }
  destruct IH as (Hall & Hlen & Hon & Hbal); [intros a b ??; apply Hwin; apply elem_of_app; by left|].
  cbv zeta. unfold attach_all in *. rewrite foldl_app. simpl. set (b := foldl _ _ times) in *.
  set (l := node_entries b (h_id h)) in *.
  assert (Hor : or1 v = v) by (unfold or1; destruct (Z.eqb_spec v 0); lia).
  destruct (select_fewest h cpus free now gb v l (int_of_Q (gb * inject_Z GIB_KB)) Heq Hgb Hv) as (n0 & Hsel & Hin & Hmin).
  { eapply Forall_impl; [exact Hall|]. simpl. intros s (Hs & -> & ->). split; [|done]. apply not_true_iff_false.
    rewrite Qle_bool_iff. apply Qlt_not_le, Hwin; apply elem_of_app; [right; set_solver|by left]. }
  unfold _attach_balanced_node. rewrite Hor.
  change (_get_pending_by_node now (h_id h) b) with (aggregate_pending_by_node l now _PENDING_EXPIRY_SECONDS).
  rewrite Hsel. simpl. unfold node_entries at 1 2 3 4 5, _record_pending_node. simpl. rewrite lookup_insert_eq. simpl.
  change (default [] (b_pending_node b !! h_id h)) with l. split_and!.
  - apply Forall_app. split; [|repeat constructor; set_solver].
    eapply Forall_impl; [exact Hall|]. simpl. intros s (Hs & ? & ?). split_and!; [set_solver|done..].
  - rewrite !length_app, Hlen. done.
  - apply Forall_app. by repeat constructor.
  - intros n m Hn Hm. unfold count_on in *. rewrite !count_if_app. simpl. specialize (Hbal n m Hn Hm).
    specialize (Hmin m Hm). destruct (String.eqb_spec n0 n) as [<-|], (String.eqb_spec n0 m) as [<-|]; lia.
Qed.

Lemma starts_spread_over_the_nodes_witness :
  let l := node_entries (attach_all host_a (mkExtra None None None None [] [] None None) (gb_of 2097152) 2
             [100%Q; 101%Q; 102%Q; 103%Q; 104%Q] (new_balancer round_robin)) "hyper-a" in
  count_on "0" l = 3%Z ∧ (count_on "0" l ≤ count_on "1" l + 1)%Z.
Proof.
  split; [by vm_compute|].
  eapply (starts_spread_over_the_nodes host_a 8 4194304 (mkExtra None None None None [] [] None None) (gb_of 2097152) 2
    [100%Q; 101%Q; 102%Q; 103%Q; 104%Q] round_robin).
  - split_and!; [simpl; lia|lia|lia|].
    intros n Hn. apply list_elem_of_In in Hn. vm_compute in Hn. destruct Hn as [<-|[<-|[]]]; by vm_compute.
  - by vm_compute.
  - lia.
  - intros a b Ha Hb. apply list_elem_of_In in Ha, Hb. simpl in Ha, Hb.
    destruct Ha as [<-|[<-|[<-|[<-|[<-|[]]]]]], Hb as [<-|[<-|[<-|[<-|[<-|[]]]]]]; by vm_compute.
  - apply list_elem_of_In. vm_compute. by left.
  - apply list_elem_of_In. vm_compute. right. by left.
Defined.
