(* ===== verification/Planner.v ===== *)
(** * The resource planner

    [component/_common/src/isardvdi_common/lib/bookings/reservables_planner.py]: the
    plans that make a profile of a card bookable, and what goes with a plan that is
    deleted. [reservables.py] says how the plans of a kind of item behave, and
    [models/planning.py] writes them.

    A moment is the number of microseconds since [datetime.min]. The tables are lists
    in the order a query returns them. The units of a profile on a card (a query) and
    the id of a new plan are arguments; the jobs of the scheduler, which follow the
    rows, are left out. *)
From S2P Require Import Prelude PyVal.

(** ** The tables *)
Record plan := mkPlan {
  pl_id : string;
  pl_item_type : string;
  pl_item_id : string;         (** the card *)
  pl_subitem_id : string;      (** the profile *)
  pl_units : Z;
  pl_start : Z;
  pl_end : Z;
}.

(** An entry of [booking["plans"]] *)
Record booked_plan := mkBooked {
  bp_plan_id : string;
  bp_item_id : string;
  bp_subitem_id : string;
  bp_priority : Z;
  bp_units_booked : option Z;  (** absent in old rows *)
}.

Record booking := mkBooking {
  bk_id : string;
  bk_item_type : string;
  bk_item_id : string;
  bk_units : Z;
  bk_reservables : list (string * list string);
  bk_start : Z;
  bk_end : Z;
  bk_user_id : string;
  bk_plans : list booked_plan;
}.

Record domain := mkDomain { dm_id : string; dm_tag : option string; dm_booking_id : option string }.

Record tables := mkTables {
  resource_planner : list plan;
  bookings : list booking;
  domains : list domain;
}.

#[export] Instance plan_eq_dec : EqDecision plan.
Proof. solve_decision. Defined.
#[export] Instance booked_plan_eq_dec : EqDecision booked_plan.
Proof. solve_decision. Defined.
#[export] Instance booking_eq_dec : EqDecision booking.
Proof. solve_decision. Defined.

Definition set_planner (db : tables) (l : list plan) : tables := mkTables l (bookings db) (domains db).
Definition set_bookings (db : tables) (l : list booking) : tables := mkTables (resource_planner db) l (domains db).
Definition set_domains (db : tables) (l : list domain) : tables := mkTables (resource_planner db) (bookings db) l.

(** ** Behaviour of a kind of item *)
Record behaviour := mkBehaviour {
  item_can_overlap : bool;
  subitem_can_overlap : bool;
  subitem_join_before : bool;
  subitem_join_after : bool;
}.

(** [ResourceItemsGpus] and [ResourceItemsUsbs] *)
Definition behaviour_of (item_type : string) : option behaviour :=
  if (item_type =? "gpus")%string then Some (mkBehaviour false true true true)
  else if (item_type =? "usbs")%string then Some (mkBehaviour true false true true)
  else None.

(** ** Moments *)
Definition SECOND : Z := 1000000.
Definition ROUND : Z := 5 * 60 * SECOND.

Definition ceil_dt (dt : Z) : Z := (dt + (- dt) mod ROUND)%Z.

(** [t.during(a, b)]: the start counts and the end does not. *)
Definition during (t a b : Z) : bool := (a <=? t)%Z && (t <? b)%Z.

(** ** Adding a plan *)
Definition overlap_conflict : exn := ApiError "conflict" "".

(** The three queries of an overlap check, and the error of the first that answers. *)
Definition check_overlapped (rows : list plan) (p : plan) : res () :=
  if existsb (λ q, during (pl_start q) (pl_start p) (pl_end p)) rows then Raise overlap_conflict
  else if existsb (λ q, during (pl_end q) (pl_start p) (pl_end p)) rows then Raise overlap_conflict
  else if existsb (λ q, (pl_start q <=? pl_start p)%Z && (pl_end p <=? pl_end q)%Z) rows then Raise overlap_conflict
  else Ok ().

Definition same_item (p q : plan) : bool := (pl_item_id q =? pl_item_id p)%string.
Definition same_subitem (p q : plan) : bool :=
  (pl_item_type q =? pl_item_type p)%string && (pl_item_id q =? pl_item_id p)%string
  && (pl_subitem_id q =? pl_subitem_id p)%string.

Definition check_plan_item_id_overlapped (planner : list plan) (p : plan) : res () :=
  check_overlapped (List.filter (same_item p) planner) p.
Definition check_plan_subitem_id_overlapped (planner : list plan) (p : plan) : res () :=
  check_overlapped (List.filter (same_subitem p) planner) p.

Definition with_start (s : Z) (q : plan) : plan :=
  mkPlan (pl_id q) (pl_item_type q) (pl_item_id q) (pl_subitem_id q) (pl_units q) s (pl_end q).
Definition with_end (e : Z) (q : plan) : plan :=
  mkPlan (pl_id q) (pl_item_type q) (pl_item_id q) (pl_subitem_id q) (pl_units q) (pl_start q) e.

(** [.get(id).update(...)] *)
Definition update_row (id : string) (f : plan → plan) (planner : list plan) : list plan :=
  (λ q, if (pl_id q =? id)%string then f q else q) <$> planner.

(** The plan of the same profile on the card that starts right after, or ends right
    before. *)
Definition adjoins (p q : plan) : bool := same_item p q && (pl_subitem_id q =? pl_subitem_id p)%string.

Definition join_existing_plan_after_new_plan_start (planner : list plan) (p : plan) : list plan * option string :=
  match List.find (λ q, adjoins p q && (pl_start q =? pl_end p + SECOND)%Z) planner with
  | Some q => (update_row (pl_id q) (with_start (pl_start p)) planner, Some (pl_id q))
  | None => (planner, None)
  end.

Definition join_existing_plan_before_new_plan_end (planner : list plan) (p : plan) : list plan * option string :=
  match List.find (λ q, adjoins p q && (pl_end q =? pl_start p - SECOND)%Z) planner with
  | Some q => (update_row (pl_id q) (with_end (pl_end p)) planner, Some (pl_id q))
  | None => (planner, None)
  end.

(** [insert_plan]: an id that exists is refused. *)
Definition insert_plan (planner : list plan) (p : plan) : option (list plan) :=
  if existsb (λ q, (pl_id q =? pl_id p)%string) planner then None else Some (planner ++ [p]).

(** The body of [add_plan]: [item_type], [item_id], [subitem_id], [start] and [end] of
    the request. *)
Record plan_data := mkData {
  da_item_type : string;
  da_item_id : string;
  da_subitem_id : string;
  da_start : Z;
  da_end : Z;
}.

(** The section under the lock. *)
Definition insert_checked (b : behaviour) (planner : list plan) (p : plan) : res (list plan * string) :=
  _ ← (if item_can_overlap b then Ok () else check_plan_item_id_overlapped planner p);
  _ ← (if subitem_can_overlap b then Ok () else check_plan_subitem_id_overlapped planner p);
  let '(planner, first) := if subitem_join_before b then join_existing_plan_after_new_plan_start planner p
                           else (planner, None) in
  let '(planner, second) := if subitem_join_after b then join_existing_plan_before_new_plan_end planner p
                            else (planner, None) in
  match second, first with
  | Some id, _ | None, Some id => Ok (planner, id)
  | None, None =>
      match insert_plan planner p with
      | Some planner => Ok (planner, pl_id p)
      | None => Raise (ApiError "internal_error" "unable_to_insert")
      end
  end.

Definition add_plan (units_of : string → string → string → option Z) (new_id : string) (data : plan_data)
    (planner : list plan) : res (list plan * string) :=
  let start := ceil_dt (da_start data) in
  let stop := (ceil_dt (da_end data) - SECOND)%Z in
  if (stop <? start)%Z then Raise (ApiError "bad_request" "invalid_end_date")
  else match behaviour_of (da_item_type data), units_of (da_item_type data) (da_item_id data) (da_subitem_id data) with
  | Some b, Some units =>
      insert_checked b planner
        (mkPlan new_id (da_item_type data) (da_item_id data) (da_subitem_id data) units start stop)
  | _, _ => Raise (ApiError "bad_request" "incorrect_new_plan_body_data")
  end.

(** ** Changing and deleting a plan *)
Definition on_plan (plan_id : string) (b : booking) : bool :=
  existsb (λ p, (bp_plan_id p =? plan_id)%string) (bk_plans b).

Definition plan_data_of (p : plan) : plan_data :=
  mkData (pl_item_type p) (pl_item_id p) (pl_subitem_id p) (pl_start p) (pl_end p).

(** [update_plan]: the bookings it removes, then the stored row is added again. *)
Definition update_removed (plan_id : string) (start stop : Z) (l : list booking) : list string :=
  let in_actual := List.filter (λ b, on_plan plan_id b && (bk_start b <=? start)%Z && (stop <=? bk_end b)%Z) l in
  let failing := List.filter (λ b, on_plan plan_id b && ((bk_start b <? start)%Z || (stop <? bk_end b)%Z)) l in
  if bool_decide (length in_actual = length failing) then []
  else bk_id <$> List.filter (λ b, negb (bool_decide (b ∈ failing))) in_actual.

Definition update_plan (units_of : string → string → string → option Z) (new_id plan_id : string) (start stop : Z)
    (db : tables) : tables * res string :=
  let removed := update_removed plan_id start stop (bookings db) in
  let db := set_bookings db (List.filter (λ b, negb (mem (bk_id b) removed)) (bookings db)) in
  match List.find (λ q, (pl_id q =? plan_id)%string) (resource_planner db) with
  | None => (db, Raise TypeError)
  | Some p =>
      match add_plan units_of new_id (plan_data_of p) (resource_planner db) with
      | Ok (planner, id) => (set_planner db planner, Ok id)
      | Raise e => (db, Raise e)
      end
  end.

(** The desktops of a deleted booking lose their [booking_id]. *)
Definition is_target (b : booking) (d : domain) : bool :=
  if (bk_item_type b =? "desktop")%string then (dm_id d =? bk_item_id b)%string
  else if (bk_item_type b =? "deployment")%string then bool_decide (dm_tag d = Some (bk_item_id b))
  else false.

Definition reset_booking (b : booking) (l : list domain) : list domain :=
  (λ d, if is_target b d && negb (bk_item_id b =? "")%string then mkDomain (dm_id d) (dm_tag d) None else d) <$> l.

Definition delete_plan (plan_id : string) (db : tables) : res tables :=
  if existsb (λ q, (pl_id q =? plan_id)%string) (resource_planner db)
  then
    let gone := List.filter (on_plan plan_id) (bookings db) in
    Ok (mkTables (List.filter (λ q, negb (pl_id q =? plan_id)%string) (resource_planner db))
          (List.filter (λ b, negb (on_plan plan_id b)) (bookings db))
          (foldl (λ l b, reset_booking b l) (domains db) gone))
  else Raise (ApiError "not_found" "").

(** One affected booking of [delete_card_subitem_plans]. *)
Definition detach (plan_ids : list string) (db : tables) (b : booking) : tables :=
  let remaining := List.filter (λ p, negb (mem (bp_plan_id p) plan_ids)) (bk_plans b) in
  match remaining with
  | [] => mkTables (resource_planner db) (List.filter (λ c, negb (bk_id c =? bk_id b)%string) (bookings db))
            (reset_booking b (domains db))
  | _ => set_bookings db ((λ c, if (bk_id c =? bk_id b)%string
            then mkBooking (bk_id c) (bk_item_type c) (bk_item_id c) (bk_units c) (bk_reservables c) (bk_start c)
                   (bk_end c) (bk_user_id c) remaining
            else c) <$> bookings db)
  end.

Definition delete_card_subitem_plans (item_id subitem_id : string) (db : tables) : tables * (Z * Z) :=
  let of_card q := (pl_item_id q =? item_id)%string && (pl_subitem_id q =? subitem_id)%string in
  let plan_ids := pl_id <$> List.filter of_card (resource_planner db) in
  match plan_ids with
  | [] => (db, (0, 0)%Z)
  | _ =>
      let affected := List.filter (λ b, existsb (λ p, mem (bp_plan_id p) plan_ids) (bk_plans b)) (bookings db) in
      let emptied b := forallb (λ p, mem (bp_plan_id p) plan_ids) (bk_plans b) in
      (foldl (detach plan_ids)
         (set_planner db (List.filter (λ q, negb (mem (pl_id q) plan_ids)) (resource_planner db))) affected,
       (Z.of_nat (length plan_ids), count_if emptied affected))
  end.

(** ** Windows *)

(** A window from a round moment to one second before a round moment. *)
Definition aligned (p : plan) : Prop :=
  ∃ a b : Z, pl_start p = (ROUND * a)%Z ∧ pl_end p = (ROUND * b - SECOND)%Z ∧ (a < b)%Z.

Definition disjoint (p q : plan) : Prop := (pl_end p < pl_start q ∨ pl_end q < pl_start p)%Z.

(** The plans of the cards: aligned windows, and no two of one card overlap. *)
Record well_planned (planner : list plan) : Prop := {
  wp_ids : NoDup (pl_id <$> planner);
  wp_aligned p : p ∈ planner → aligned p;
  wp_disjoint p q : p ∈ planner → q ∈ planner → pl_id p ≠ pl_id q → pl_item_id p = pl_item_id q → disjoint p q;
}.

Lemma ceil_dt_round t : ∃ k : Z, ceil_dt t = (ROUND * k)%Z ∧ (t ≤ ROUND * k < t + ROUND)%Z.
Proof.
  exists (- ((- t) / ROUND))%Z. unfold ceil_dt.
  pose proof (Z.div_mod (- t) ROUND ltac:(done)). pose proof (Z.mod_pos_bound (- t) ROUND ltac:(done)). lia.
Qed.

(** A round moment is its own ceiling. *)
Lemma ceil_dt_fixed k : ceil_dt (ROUND * k) = (ROUND * k)%Z.
Proof.
  unfold ceil_dt. replace (- (ROUND * k))%Z with ((- k) * ROUND)%Z by lia. rewrite Z.mod_mul by done. lia.
Qed.

Lemma ceil_dt_end k : ceil_dt (ROUND * k - SECOND) = (ROUND * k)%Z.
Proof.
  destruct (ceil_dt_round (ROUND * k - SECOND)) as (j & -> & Hj). unfold ROUND, SECOND in *. lia.
Qed.

(** The overlap check is exact on aligned windows. *)
Lemma check_overlapped_exact rows p :
  aligned p → Forall aligned rows →
  check_overlapped rows p = (if bool_decide (Forall (λ q, disjoint p q) rows) then Ok () else Raise overlap_conflict).
Proof.
  intros (a & b & Ha & Hb & Hab) Hall. unfold check_overlapped, during.
  assert (Hiff : ∀ q, aligned q →
    ((pl_start p <=? pl_start q)%Z && (pl_start q <? pl_end p)%Z
     || ((pl_start p <=? pl_end q)%Z && (pl_end q <? pl_end p)%Z)
     || ((pl_start q <=? pl_start p)%Z && (pl_end p <=? pl_end q)%Z) = false) ↔ disjoint p q).
  { intros q (c & d & Hc & Hd & Hcd). unfold disjoint, ROUND, SECOND in *.
    rewrite !orb_false_iff, !andb_false_iff, !Z.leb_gt, !Z.ltb_ge. lia. }
  case_bool_decide as Hd.
  - assert (Hno : ∀ f : plan → bool, (∀ q, q ∈ rows → f q = false) → existsb f rows = false).
    { intros f Hf. apply existsb_false_Forall, Forall_forall, Hf. }
    rewrite Forall_forall in Hd, Hall.
    rewrite !Hno; [done|..]; intros q Hq; pose proof (proj2 (Hiff q (Hall q Hq)) (Hd q Hq)) as H;
      apply orb_false_iff in H as [[H1 H2]%orb_false_iff H3]; done.
  - destruct (existsb _ rows) eqn:E1; [done|]. destruct (existsb _ rows) eqn:E2 in |- *; [done|].
    destruct (existsb _ rows) eqn:E3 in |- *; [done|]. exfalso. apply Hd. apply Forall_forall. intros q Hq.
    rewrite Forall_forall in Hall. apply Hiff; [by apply Hall|].
    apply existsb_false_Forall in E1, E2, E3. rewrite Forall_forall in E1, E2, E3.
    rewrite !orb_false_iff. split; [split; [by apply E1|by apply E2]|by apply E3].
Qed.

(** ** Joining *)
Lemma update_row_ids id f planner : (∀ q, pl_id (f q) = pl_id q) → pl_id <$> update_row id f planner = pl_id <$> planner.
Proof.
  intros Hf. unfold update_row. rewrite <-list_fmap_compose. apply list_fmap_ext. intros i q _. simpl.
  by destruct (pl_id q =? id)%string.
Qed.

Lemma plan_of_id planner p q : NoDup (pl_id <$> planner) → p ∈ planner → q ∈ planner → pl_id p = pl_id q → p = q.
Proof.
  induction planner as [|x l IH]; [set_solver|]. simpl. intros [Hn Hnd]%NoDup_cons [->|Hp]%elem_of_cons [->|Hq]%elem_of_cons He.
  - done.
  - destruct Hn. rewrite He. apply list_elem_of_fmap. eauto.
  - destruct Hn. rewrite <-He. apply list_elem_of_fmap. eauto.
  - by apply IH.
Qed.

(** Moving one bound of plan [q0] keeps the planner well formed when the new window is
    aligned and disjoint from the other plans of its card. *)
Lemma update_row_well_planned planner q0 f :
  well_planned planner → q0 ∈ planner →
  (∀ q, pl_id (f q) = pl_id q ∧ pl_item_id (f q) = pl_item_id q) → aligned (f q0) →
  (∀ r, r ∈ planner → pl_id r ≠ pl_id q0 → pl_item_id r = pl_item_id q0 → disjoint (f q0) r) →
  well_planned (update_row (pl_id q0) f planner).
Proof.
  intros [Hids Hal Hdis] Hq0 Hf Hal0 Hd0.
  assert (Hrow : ∀ x, x ∈ update_row (pl_id q0) f planner → x = f q0 ∨ (x ∈ planner ∧ pl_id x ≠ pl_id q0)).
  { intros x (q & -> & Hq)%list_elem_of_fmap. destruct (String.eqb_spec (pl_id q) (pl_id q0)) as [He|]; [left|by right].
    f_equal. by apply (plan_of_id planner). }
  split.
  - rewrite update_row_ids; [done|]. intros q. by destruct (Hf q).
  - intros p [->|[Hp _]]%Hrow; [done|by apply Hal].
  - destruct (Hf q0) as [Hi Hit].
    intros p q [->|[Hp Hpi]]%Hrow [->|[Hq Hqi]]%Hrow Hne Hitem; [done| | |by apply Hdis].
    + apply Hd0; [done|done|]. by rewrite <-Hit.
    + assert (Hd : disjoint (f q0) p) by (apply Hd0; [done|done|by rewrite <-Hit]). unfold disjoint in *. tauto.
Qed.

Lemma join_after_well_planned planner p :
  well_planned planner → aligned p →
  (∀ q, q ∈ planner → pl_item_id q = pl_item_id p → disjoint p q) →
  well_planned (join_existing_plan_after_new_plan_start planner p).1.
Proof.
  intros Hw Hp Hdis. unfold join_existing_plan_after_new_plan_start.
  destruct (List.find _ planner) as [q0|] eqn:E; [|done]. simpl.
  apply find_some in E as [Hq0%list_elem_of_In Hm]. unfold adjoins, same_item in Hm. simp_bool.
  pose proof (wp_aligned _ Hw q0 Hq0) as (c & d & Hc & Hd & Hcd). destruct Hp as (a & b & Ha & Hb & Hab).
  apply update_row_well_planned; [done..| |].
  - exists a, d. simpl. unfold ROUND, SECOND in *. split_and!; lia.
  - intros r Hr Hne Hitem. assert (Hpr : disjoint p r) by (apply Hdis; [done|congruence]).
    assert (Hqr : disjoint q0 r) by (apply (wp_disjoint _ Hw); [done|done|congruence|congruence]).
    destruct (wp_aligned _ Hw r Hr) as (u & v & Hu & Hv & Huv).
    unfold disjoint, ROUND, SECOND in *. simpl. lia.
Qed.

Lemma join_before_well_planned planner p :
  well_planned planner → aligned p →
  (∀ q, q ∈ planner → pl_item_id q = pl_item_id p → disjoint p q) →
  well_planned (join_existing_plan_before_new_plan_end planner p).1.
Proof.
  intros Hw Hp Hdis. unfold join_existing_plan_before_new_plan_end.
  destruct (List.find _ planner) as [q0|] eqn:E; [|done]. simpl.
  apply find_some in E as [Hq0%list_elem_of_In Hm]. unfold adjoins, same_item in Hm. simp_bool.
  pose proof (wp_aligned _ Hw q0 Hq0) as (c & d & Hc & Hd & Hcd). destruct Hp as (a & b & Ha & Hb & Hab).
  apply update_row_well_planned; [done..| |].
  - exists c, b. simpl. unfold ROUND, SECOND in *. split_and!; lia.
  - intros r Hr Hne Hitem. assert (Hpr : disjoint p r) by (apply Hdis; [done|congruence]).
    assert (Hqr : disjoint q0 r) by (apply (wp_disjoint _ Hw); [done|done|congruence|congruence]).
    destruct (wp_aligned _ Hw r Hr) as (u & v & Hu & Hv & Huv).
    unfold disjoint, ROUND, SECOND in *. simpl. lia.
Qed.

(** The two plans a new one would join to. *)
Definition fills_gap (planner : list plan) (p : plan) : bool :=
  existsb (λ q, adjoins p q && (pl_start q =? pl_end p + SECOND)%Z) planner
  && existsb (λ q, adjoins p q && (pl_end q =? pl_start p - SECOND)%Z) planner.

Lemma find_exists {A} (f : A → bool) l : existsb f l = match List.find f l with Some _ => true | None => false end.
Proof. induction l as [|x l IH]; simpl; [done|]. by destruct (f x). Qed.

Definition new_plan (units : Z) (new_id : string) (d : plan_data) : plan :=
  mkPlan new_id (da_item_type d) (da_item_id d) (da_subitem_id d) units
    (ceil_dt (da_start d)) (ceil_dt (da_end d) - SECOND).

Lemma new_plan_aligned units new_id d :
  (ceil_dt (da_end d) - SECOND <? ceil_dt (da_start d))%Z = false → aligned (new_plan units new_id d).
Proof.
  intros H. unfold aligned. simpl. destruct (ceil_dt_round (da_start d)) as (a & Ha & _).
  destruct (ceil_dt_round (da_end d)) as (b & Hb & _). exists a, b. rewrite Ha, Hb in *. simp_bool.
  unfold ROUND, SECOND in *. split_and!; lia.
Qed.

Definition gpu_behaviour : behaviour := mkBehaviour false true true true.

Lemma insert_well_planned planner p :
  well_planned planner → aligned p → pl_id p ∉ pl_id <$> planner →
  (∀ q, q ∈ planner → pl_item_id q = pl_item_id p → disjoint p q) → well_planned (planner ++ [p]).
Proof.
  intros Hw Hp Hid Hdis. split.
  - rewrite fmap_app. simpl. apply NoDup_app. split_and!; [apply Hw| |by apply NoDup_singleton].
    intros x Hx ->%list_elem_of_singleton. done.
  - intros q [Hq| ->%list_elem_of_singleton]%elem_of_app; [by apply Hw|done].
  - intros x y [Hx| ->%list_elem_of_singleton]%elem_of_app [Hy| ->%list_elem_of_singleton]%elem_of_app Hne Hit.
    + by apply (wp_disjoint _ Hw).
    + assert (disjoint p x) by (by apply Hdis). unfold disjoint in *. tauto.
    + by apply Hdis.
    + done.
Qed.

(** A plan added on a card, by cases: refused because it overlaps, or joined, or inserted. *)
Lemma insert_checked_gpu planner p :
  well_planned planner → aligned p → pl_id p ∉ pl_id <$> planner → fills_gap planner p = false →
  match insert_checked gpu_behaviour planner p with
  | Raise e => e = overlap_conflict ∧ ∃ q, q ∈ planner ∧ pl_item_id q = pl_item_id p ∧ ¬ disjoint p q
  | Ok (planner', id) =>
      well_planned planner' ∧ (∀ q, q ∈ planner → pl_item_id q = pl_item_id p → disjoint p q)
  end.
Proof.
  intros Hw Hp Hid Hgap. unfold insert_checked, check_plan_item_id_overlapped, gpu_behaviour. simpl.
  assert (Hrows : Forall aligned (List.filter (same_item p) planner)).
  { apply Forall_forall. intros q Hq%list_elem_of_In. apply filter_In in Hq as [Hq _].
    apply (wp_aligned _ Hw). by apply list_elem_of_In. }
  rewrite check_overlapped_exact by done. case_bool_decide as Hd; simpl.
  2:{ split; [done|]. apply not_Forall_Exists in Hd; [|apply _]. apply Exists_exists in Hd as (q & Hq & Hn).
      apply list_elem_of_In, filter_In in Hq as [Hq Hs]. unfold same_item in Hs. simp_bool.
      exists q. split_and!; [by apply list_elem_of_In|done|done]. }
  assert (Hdis : ∀ q, q ∈ planner → pl_item_id q = pl_item_id p → disjoint p q).
  { rewrite Forall_forall in Hd. intros q Hq He. apply Hd. apply list_elem_of_In, filter_In.
    split; [by apply list_elem_of_In|]. unfold same_item. by apply String.eqb_eq. }
  unfold fills_gap in Hgap. rewrite !find_exists in Hgap.
  pose proof (join_after_well_planned planner p Hw Hp Hdis) as Hja.
  pose proof (join_before_well_planned planner p Hw Hp Hdis) as Hjb.
  unfold join_existing_plan_after_new_plan_start in *. unfold join_existing_plan_before_new_plan_end in *.
  destruct (List.find _ planner) as [qa|] eqn:Ea.
  - destruct (List.find (λ q, adjoins p q && (pl_end q =? pl_start p - SECOND)%Z) planner) as [qb|] eqn:Eb; [done|].
    simpl in *. destruct (List.find _ (update_row _ _ planner)) as [x|] eqn:Ex; [|by split].
    exfalso. apply find_some in Ex as [Hx Hm]. apply list_elem_of_In, list_elem_of_fmap in Hx as (q & -> & Hq).
    apply list_elem_of_In in Hq. pose proof (find_none _ _ Eb q Hq) as Hm'. simpl in Hm'.
    destruct (String.eqb_spec (pl_id q) (pl_id qa)) as [He|]; [|congruence].
    unfold adjoins, same_item in *. simpl in Hm. congruence.
  - destruct (List.find (λ q, adjoins p q && (pl_end q =? pl_start p - SECOND)%Z) planner) as [qb|] eqn:Eb; simpl in *; [by split|].
    unfold insert_plan. destruct (existsb _ planner) eqn:Ee.
    { exfalso. apply Hid. apply existsb_exists in Ee as (q & Hq & He). simp_bool. rewrite <-He.
      apply list_elem_of_fmap. exists q. by rewrite list_elem_of_In. }
    split; [by apply insert_well_planned|done].
Qed.

Lemma filter_well_planned (f : plan → bool) planner : well_planned planner → well_planned (List.filter f planner).
Proof.
  intros [Hids Hal Hdis].
  assert (Hin : ∀ p, p ∈ List.filter f planner → p ∈ planner).
  { intros p Hp. apply list_elem_of_In, filter_In in Hp as [Hp _]. by apply list_elem_of_In. }
  split; [|by intros p ?%Hin; apply Hal|by intros p q ?%Hin ?%Hin; apply Hdis].
  clear Hal Hdis Hin. induction planner as [|x l IH]; simpl; [done|]. simpl in Hids.
  apply NoDup_cons in Hids as [Hn Hnd]. destruct (f x); simpl; [|by apply IH]. apply NoDup_cons. split; [|by apply IH].
  intros (y & Hy & Hin)%list_elem_of_fmap. apply Hn. rewrite Hy. apply list_elem_of_fmap. exists y. split; [done|].
  apply list_elem_of_In, filter_In in Hin as [Hin _]. by apply list_elem_of_In.
Qed.

Lemma add_plan_gpu units_of new_id d planner :
  da_item_type d = "gpus" →
  add_plan units_of new_id d planner
  = if (ceil_dt (da_end d) - SECOND <? ceil_dt (da_start d))%Z then Raise (ApiError "bad_request" "invalid_end_date")
    else match units_of "gpus" (da_item_id d) (da_subitem_id d) with
         | Some units => insert_checked gpu_behaviour planner (new_plan units new_id d)
         | None => Raise (ApiError "bad_request" "incorrect_new_plan_body_data")
         end.
Proof. intros H. unfold add_plan, new_plan. rewrite H. by destruct (_ <? _)%Z. Qed.

(** What the administrators do with the plans of the cards; [gaps] says whether a new
    plan may fill the gap between two plans of its profile. *)
Inductive planner_step (gaps : bool) (units_of : string → string → string → option Z) : tables → tables → Prop :=
  | step_add new_id d db planner id :
      da_item_type d = "gpus" → new_id ∉ pl_id <$> resource_planner db →
      (gaps = false → fills_gap (resource_planner db) (new_plan 0 new_id d) = false) →
      add_plan units_of new_id d (resource_planner db) = Ok (planner, id) →
      planner_step gaps units_of db (set_planner db planner)
  | step_delete plan_id db db' : delete_plan plan_id db = Ok db' → planner_step gaps units_of db db'
  | step_disable item_id subitem_id db :
      planner_step gaps units_of db (delete_card_subitem_plans item_id subitem_id db).1
  | step_update new_id plan_id start stop db :
      planner_step gaps units_of db (update_plan units_of new_id plan_id start stop db).1.

Lemma detach_planner plan_ids l db : resource_planner (foldl (detach plan_ids) db l) = resource_planner db.
Proof.
  revert db. induction l as [|b l IH]; intros db; simpl; [done|]. rewrite IH. unfold detach.
  by destruct (List.filter _ (bk_plans b)).
Qed.

Definition of_gpus (planner : list plan) : Prop := Forall (λ p, pl_item_type p = "gpus") planner.

(** A stored plan overlaps itself. *)
Lemma stored_plan_conflicts units_of new_id p planner :
  p ∈ planner → pl_item_type p = "gpus" → aligned p → is_Some (units_of "gpus" (pl_item_id p) (pl_subitem_id p)) →
  add_plan units_of new_id (plan_data_of p) planner = Raise overlap_conflict.
Proof.
  intros Hin Hty (a & b & Ha & Hb & Hab) [units Hu]. rewrite add_plan_gpu by done. simpl. rewrite Hu.
  unfold insert_checked, check_plan_item_id_overlapped, check_overlapped, new_plan. simpl.
  rewrite Ha, Hb, ceil_dt_fixed, ceil_dt_end.
  destruct (Z.ltb_spec (ROUND * b - SECOND) (ROUND * a)); [unfold ROUND, SECOND in *; lia|].
  assert (He : existsb (λ q, during (pl_start q) (ROUND * a) (ROUND * b - SECOND))
                 (List.filter (same_item (mkPlan new_id (pl_item_type p) (pl_item_id p) (pl_subitem_id p) units
                    (ROUND * a) (ROUND * b - SECOND))) planner) = true).
  { apply existsb_exists. exists p. split.
    - apply filter_In. split; [by apply list_elem_of_In|]. unfold same_item. simpl. apply String.eqb_refl.
    - unfold during. rewrite Ha. apply andb_true_iff. rewrite Z.leb_le, Z.ltb_lt. unfold ROUND, SECOND in *. lia. }
  by rewrite He.
Qed.

Definition planner_ok (db : tables) : Prop := well_planned (resource_planner db) ∧ of_gpus (resource_planner db).

Lemma update_row_types id f planner :
  (∀ q, pl_item_type (f q) = pl_item_type q) → of_gpus planner → of_gpus (update_row id f planner).
Proof.
  intros Hf H. apply Forall_fmap. eapply Forall_impl; [exact H|]. simpl. intros q Hq.
  by destruct (pl_id q =? id)%string; rewrite ?Hf.
Qed.

Lemma insert_checked_types planner p planner' id :
  of_gpus planner → pl_item_type p = "gpus" → insert_checked gpu_behaviour planner p = Ok (planner', id) → of_gpus planner'.
Proof.
  intros Hall Hp H. unfold insert_checked, gpu_behaviour in H. simpl in H.
  destruct (check_plan_item_id_overlapped _ _); [|done]. simpl in H.
  assert (Ha : of_gpus (join_existing_plan_after_new_plan_start planner p).1).
  { unfold join_existing_plan_after_new_plan_start. destruct (List.find _ _); [|done]. by apply update_row_types. }
  destruct (join_existing_plan_after_new_plan_start planner p) as [l1 o1]. simpl in Ha.
  assert (Hb : of_gpus (join_existing_plan_before_new_plan_end l1 p).1).
  { unfold join_existing_plan_before_new_plan_end. destruct (List.find _ _); [|done]. by apply update_row_types. }
  destruct (join_existing_plan_before_new_plan_end l1 p) as [l2 o2]. simpl in Hb.
  destruct o2; [by simplify_eq|]. destruct o1; [by simplify_eq|]. unfold insert_plan in H.
  destruct (existsb _ _); [done|]. simplify_eq. apply Forall_app. split; [done|by constructor].
Qed.

(** Changing a plan always fails on the plans of cards. *)
Lemma update_plan_fails units_of new_id plan_id start stop db :
  planner_ok db →
  let '(db', r) := update_plan units_of new_id plan_id start stop db in
  resource_planner db' = resource_planner db ∧ (∃ e, r = Raise e)
  ∧ (∀ p, p ∈ resource_planner db → pl_id p = plan_id → is_Some (units_of "gpus" (pl_item_id p) (pl_subitem_id p)) →
       r = Raise overlap_conflict).
Proof.
  intros [Hw Hg]. unfold update_plan. simpl.
  destruct (List.find _ _) as [p|] eqn:E.
  - apply find_some in E as [Hp%list_elem_of_In Hid]. simp_bool.
    assert (Hty : pl_item_type p = "gpus") by (by apply (proj1 (Forall_forall _ _) Hg)).
    destruct (units_of "gpus" (pl_item_id p) (pl_subitem_id p)) as [u|] eqn:Eu.
    + rewrite stored_plan_conflicts; [|done|done|by apply Hw|by rewrite Eu]. simpl. eauto.
    + rewrite add_plan_gpu by done. simpl. rewrite Eu.
      assert (Hp' : ∀ q, q ∈ resource_planner db → pl_id q = plan_id → q = p).
      { intros q Hq He. apply (plan_of_id (resource_planner db)); [apply Hw|done|done|congruence]. }
      destruct (_ <? _)%Z; (split; [done|split; [eauto|]]); intros q Hq He [v Hv]; apply Hp' in He as ->; congruence.
  - split; [done|]. split; [eauto|]. intros p Hp Hid _.
    pose proof (find_none _ _ E p ltac:(by apply list_elem_of_In)) as Hn. simpl in Hn. simp_bool. congruence.
Qed.

Lemma planner_step_ok units_of db db' : planner_step false units_of db db' → planner_ok db → planner_ok db'.
Proof.
  intros [new_id d db1 planner id Hty Hfresh Hgap Hadd|plan_id db1 db2 Hdel|item_id subitem_id db1|new_id plan_id start stop db1] [Hw Hg].
  - rewrite add_plan_gpu in Hadd by done. destruct (_ <? _)%Z eqn:Ew; [done|].
    destruct (units_of _ _ _) as [units|]; [|done].
    pose proof (insert_checked_gpu (resource_planner db1) (new_plan units new_id d) Hw
      (new_plan_aligned units new_id d Ew) Hfresh (Hgap eq_refl)) as H.
    rewrite Hadd in H. destruct H as [Hw' _]. split; [done|]. simpl. eapply insert_checked_types; [done| |done]. done.
  - unfold delete_plan in Hdel. destruct (existsb _ _); [|done]. injection Hdel as <-. split; simpl.
    + by apply filter_well_planned.
    + unfold of_gpus in *. rewrite Forall_forall in *. intros p Hp. apply Hg.
      apply list_elem_of_In, filter_In in Hp as [Hp _]. by apply list_elem_of_In.
  - unfold planner_ok, delete_card_subitem_plans. destruct (pl_id <$> _) as [|x l] eqn:E; [done|]. simpl.
    rewrite detach_planner. simpl. split; [by apply filter_well_planned|].
    unfold of_gpus in *. rewrite Forall_forall in *. intros p Hp. apply Hg.
    apply list_elem_of_In, filter_In in Hp as [Hp _]. by apply list_elem_of_In.
  - pose proof (update_plan_fails units_of new_id plan_id start stop db1 (conj Hw Hg)) as H.
    destruct (update_plan _ _ _ _ _ _) as [db2 r]. simpl. destruct H as [H _]. unfold planner_ok. by rewrite H.
Qed.

(** The plan a successful call answers makes the window bookable for the profile. *)
Definition covers (p : plan) (id : string) (planner : list plan) : Prop :=
  ∃ q, q ∈ planner ∧ pl_id q = id ∧ pl_item_id q = pl_item_id p ∧ pl_subitem_id q = pl_subitem_id p
       ∧ (pl_start q ≤ pl_start p)%Z ∧ (pl_end p ≤ pl_end q)%Z.

Lemma update_row_elem planner q f : q ∈ planner → f q ∈ update_row (pl_id q) f planner.
Proof. intros Hq. apply list_elem_of_fmap. exists q. by rewrite String.eqb_refl. Qed.

Lemma insert_checked_covers planner p planner' id :
  well_planned planner → aligned p → fills_gap planner p = false →
  insert_checked gpu_behaviour planner p = Ok (planner', id) → covers p id planner'.
Proof.
  intros Hw (a & b & Ha & Hb & Hab) Hgap H. unfold insert_checked, gpu_behaviour in H. simpl in H.
  destruct (check_plan_item_id_overlapped _ _); [|done]. simpl in H.
  unfold join_existing_plan_after_new_plan_start, join_existing_plan_before_new_plan_end in H.
  unfold fills_gap in Hgap. rewrite !find_exists in Hgap.
  destruct (List.find _ planner) as [qa|] eqn:Ea.
  - apply find_some in Ea as [Hqa%list_elem_of_In Hm]. unfold adjoins, same_item in Hm. simp_bool.
    pose proof (wp_aligned _ Hw qa Hqa) as (c & d & Hc & Hd & Hcd). simpl in Hgap.
    destruct (List.find (λ q, adjoins p q && (pl_end q =? pl_start p - SECOND)%Z) planner) as [qb|] eqn:Eb; [done|].
    destruct (List.find _ (update_row _ _ planner)) as [x|] eqn:Ex.
    + exfalso. apply find_some in Ex as [Hx Hm]. apply list_elem_of_In, list_elem_of_fmap in Hx as (q & -> & Hq).
      apply list_elem_of_In in Hq. pose proof (find_none _ _ Eb q Hq) as Hm'. simpl in Hm'.
      destruct (String.eqb_spec (pl_id q) (pl_id qa)) as [He|]; [|congruence].
      unfold adjoins, same_item in *. simpl in Hm. congruence.
    + injection H as <- <-. eexists. split; [by apply (update_row_elem planner qa)|]. simpl. unfold ROUND, SECOND in *.
      split_and!; [done..|lia|lia].
  - destruct (List.find (λ q, adjoins p q && (pl_end q =? pl_start p - SECOND)%Z) planner) as [qb|] eqn:Eb.
    + apply find_some in Eb as [Hqb%list_elem_of_In Hm]. unfold adjoins, same_item in Hm. simp_bool.
      pose proof (wp_aligned _ Hw qb Hqb) as (c & d & Hc & Hd & Hcd). injection H as <- <-.
      eexists. split; [by apply (update_row_elem planner qb)|]. simpl. unfold ROUND, SECOND in *.
      split_and!; [done..|lia|lia].
    + unfold insert_plan in H. destruct (existsb _ planner); [done|]. injection H as <- <-. exists p.
      split_and!; [apply elem_of_app; right; set_solver|done..|lia|lia].
Qed.

(** ** The properties *)

(** C19: Start from empty tables of plans and bookings and let administrators add plans of
    cards (items of type gpus, each with a fresh id), delete them, disable profiles and
    change the hours of plans, one call after another, where no new plan fills exactly the
    gap between two plans of its profile ([fills_gap]; one that does is joined to both,
    and the plans of the card then overlap: [gap_filling_plan_is_joined_twice]). Then the
    plans of a card never overlap and their windows are whole five-minute slots. A further
    plan of a card with known units, a fresh id and a window that is not empty, which fills
    no such gap, is refused for an overlap exactly when it overlaps a plan of its card,
    whatever the profile; when it is accepted, the plan that is answered covers its window. *)
Theorem plans_of_a_card_never_overlap units_of domains db :
  steps (planner_step false units_of) (mkTables [] [] domains) db →
  well_planned (resource_planner db)
  ∧ ∀ new_id d units,
      da_item_type d = "gpus" → units_of "gpus" (da_item_id d) (da_subitem_id d) = Some units →
      new_id ∉ pl_id <$> resource_planner db → fills_gap (resource_planner db) (new_plan units new_id d) = false →
      (ceil_dt (da_start d) ≤ ceil_dt (da_end d) - SECOND)%Z →
      (add_plan units_of new_id d (resource_planner db) = Raise overlap_conflict
       ↔ ∃ q, q ∈ resource_planner db ∧ pl_item_id q = da_item_id d ∧ ¬ disjoint (new_plan units new_id d) q)
      ∧ ∀ planner id, add_plan units_of new_id d (resource_planner db) = Ok (planner, id) →
          covers (new_plan units new_id d) id planner.
Proof.
  intros Hsteps. assert (Hok : planner_ok db).
  { eapply (steps_invariant _ planner_ok); [|exact Hsteps|].
    - intros a b Hab Ha. by eapply planner_step_ok.
    - split; [split; [apply NoDup_nil_2|set_solver|set_solver]|constructor]. }
  destruct Hok as [Hw Hg]. split; [done|]. intros new_id d units Hty Hu Hfresh Hgap Hwin.
  rewrite add_plan_gpu by done. rewrite Hu. assert (Hlt : (ceil_dt (da_end d) - SECOND <? ceil_dt (da_start d))%Z = false)
    by (apply Z.ltb_ge; lia). rewrite Hlt.
  pose proof (insert_checked_gpu (resource_planner db) (new_plan units new_id d) Hw
      (new_plan_aligned units new_id d Hlt) Hfresh Hgap) as H.
  split; [|intros planner id Hadd; by eapply insert_checked_covers; [..|exact Hadd]; [|apply new_plan_aligned|]].
  destruct (insert_checked _ _ _) as [[planner' id]|e].
  - split; [done|]. intros (q & Hq & Hit & Hn). destruct Hn. by apply H.
  - destruct H as [-> H]. by split.
Qed.

(** *** A card *)
Definition one_unit : string → string → string → option Z := λ _ _ _, Some 1%Z.
Definition slot (profile : string) (from to : Z) : plan_data :=
  mkData "gpus" "card-1" profile (from * ROUND)%Z (to * ROUND)%Z.
Definition after_add (id : string) (d : plan_data) (db : tables) : tables :=
  match add_plan one_unit id d (resource_planner db) with Ok (l, _) => set_planner db l | Raise _ => db end.

Definition no_tables : tables := mkTables [] [] [].
(** Two plans of one profile with a gap of one slot, and one of another profile. *)
Definition gap_tables : tables :=
  after_add "p3" (slot "2Q" 10 12) (after_add "p2" (slot "1Q" 6 8) (after_add "p1" (slot "1Q" 2 5) no_tables)).

Lemma gap_tables_steps : steps (planner_step false one_unit) no_tables gap_tables.
Proof.
  assert (Hstep : ∀ id d db,
    da_item_type d = "gpus" → bool_decide (id ∉ pl_id <$> resource_planner db) = true →
    fills_gap (resource_planner db) (new_plan 0 id d) = false →
    match add_plan one_unit id d (resource_planner db) with Ok _ => true | Raise _ => false end = true →
    planner_step false one_unit db (after_add id d db)).
  { intros id d db H1 H2%bool_decide_eq_true_1 H3 H4. unfold after_add.
    destruct (add_plan _ _ _ _) as [[planner x]|] eqn:E; [|done]. eapply step_add; eauto. }
  eapply steps_cons; [apply (Hstep "p1" (slot "1Q" 2 5)); by vm_compute|].
  eapply steps_cons; [apply (Hstep "p2" (slot "1Q" 6 8)); by vm_compute|].
  eapply steps_cons; [apply (Hstep "p3" (slot "2Q" 10 12)); by vm_compute|].
  constructor.
Qed.

Lemma plans_of_a_card_never_overlap_witness :
  length (resource_planner gap_tables) = 3%nat
  ∧ well_planned (resource_planner gap_tables)
  ∧ (add_plan one_unit "p4" (slot "2Q" 7 9) (resource_planner gap_tables) = Raise overlap_conflict
     ↔ ∃ q, q ∈ resource_planner gap_tables ∧ pl_item_id q = "card-1"
            ∧ ¬ disjoint (new_plan 1 "p4" (slot "2Q" 7 9)) q).
Proof.
  split; [by vm_compute|].
  destruct (plans_of_a_card_never_overlap one_unit [] gap_tables gap_tables_steps) as [Hw H]. split; [exact Hw|].
  apply (H "p4" (slot "2Q" 7 9) 1%Z); [reflexivity|reflexivity|apply (bool_decide_unpack _); by vm_compute|by vm_compute|by vm_compute].
Defined.

(** a plan that fills exactly the gap between two plans of its profile is joined to
    both: the first is extended over the gap and the second too, so the two plans then
    overlap on the whole gap and its capacity counts twice. *)
Theorem gap_filling_plan_is_joined_twice :
  let db := after_add "p4" (slot "1Q" 5 6) gap_tables in
  ∃ p q, p ∈ resource_planner db ∧ q ∈ resource_planner db ∧ pl_id p ≠ pl_id q
    ∧ pl_item_id p = pl_item_id q ∧ pl_subitem_id p = pl_subitem_id q
    ∧ ¬ disjoint p q ∧ pl_start q = (5 * ROUND)%Z ∧ pl_end p = (6 * ROUND - SECOND)%Z.
Proof.
  exists (mkPlan "p1" "gpus" "card-1" "1Q" 1 (2 * ROUND) (6 * ROUND - SECOND)),
         (mkPlan "p2" "gpus" "card-1" "1Q" 1 (5 * ROUND) (8 * ROUND - SECOND)).
  split_and!; [apply list_elem_of_In; vm_compute; tauto|apply list_elem_of_In; vm_compute; tauto|done|done|done| |done|done].
  unfold disjoint. simpl. unfold ROUND, SECOND. lia.
Qed.

(** changing the dates of a plan never changes it: the stored row is added again
    and overlaps itself, so the call is always refused, and the bookings it selected
    are gone by then. *)
Theorem update_plan_is_always_refused units_of domains db new_id p start stop :
  steps (planner_step false units_of) (mkTables [] [] domains) db →
  p ∈ resource_planner db → is_Some (units_of "gpus" (pl_item_id p) (pl_subitem_id p)) →
  let '(db', r) := update_plan units_of new_id (pl_id p) start stop db in
  r = Raise overlap_conflict ∧ resource_planner db' = resource_planner db
  ∧ ∀ b, b ∈ bookings db' ↔ b ∈ bookings db ∧ bk_id b ∉ update_removed (pl_id p) start stop (bookings db).
Proof.
  intros Hsteps Hp Hu. assert (Hok : planner_ok db).
  { eapply (steps_invariant _ planner_ok); [|exact Hsteps|].
    - intros a b Hab Ha. by eapply planner_step_ok.
    - split; [split; [apply NoDup_nil_2|set_solver|set_solver]|constructor]. }
  pose proof (update_plan_fails units_of new_id (pl_id p) start stop db Hok) as H.
  assert (Hb : bookings (update_plan units_of new_id (pl_id p) start stop db).1
    = List.filter (λ b, negb (mem (bk_id b) (update_removed (pl_id p) start stop (bookings db)))) (bookings db)).
  { unfold update_plan. destruct (List.find _ _); [|done]. by destruct (add_plan _ _ _ _) as [[? ?]|]. }
  destruct (update_plan _ _ _ _ _ _) as [db' r]. simpl in Hb. destruct H as (H1 & _ & H2).
  split; [by apply (H2 p)|]. split; [done|]. intros b. rewrite Hb, list_elem_of_In, filter_In, <-list_elem_of_In.
  by rewrite negb_true_iff, mem_false.
Qed.

Lemma update_plan_is_always_refused_witness :
  (update_plan one_unit "x" "p3" (9 * ROUND) (14 * ROUND) gap_tables).2 = Raise overlap_conflict.
Proof.
  pose proof (update_plan_is_always_refused one_unit [] gap_tables "x"
    (mkPlan "p3" "gpus" "card-1" "2Q" 1 (10 * ROUND) (12 * ROUND - SECOND)) (9 * ROUND) (14 * ROUND) gap_tables_steps
    ltac:(apply list_elem_of_In; vm_compute; tauto) ltac:(by eexists)) as H.
  simpl pl_id in H. destruct (update_plan _ _ _ _ _ _) as [db' r]. apply H.
Defined.

(** ** Desktops and their bookings *)

(** Every [booking_id] of a desktop names a booking of it. *)
Record linked (db : tables) : Prop := {
  li_ids : NoDup (bk_id <$> bookings db);
  li_booking d id : d ∈ domains db → dm_booking_id d = Some id →
    ∃ b, b ∈ bookings db ∧ bk_id b = id ∧ is_target b d = true ∧ bk_item_id b ≠ "";
}.

Lemma reset_booking_elem b l d :
  d ∈ reset_booking b l →
  ∃ d0, d0 ∈ l ∧ dm_id d0 = dm_id d ∧ dm_tag d0 = dm_tag d
    ∧ (dm_booking_id d ≠ None → d0 = d ∧ ¬ (is_target b d = true ∧ bk_item_id b ≠ "")).
Proof.
  intros (d0 & -> & Hd)%list_elem_of_fmap. exists d0. split; [done|].
  destruct (is_target b d0 && _) eqn:E; simpl; split_and!; try done. intros _. split; [done|].
  intros [Ht Hne]. rewrite Ht in E. simpl in E. by destruct (String.eqb_spec (bk_item_id b) "").
Qed.

Lemma reset_all_elem bs l d :
  d ∈ foldl (λ l b, reset_booking b l) l bs → dm_booking_id d ≠ None →
  d ∈ l ∧ ∀ b, b ∈ bs → ¬ (is_target b d = true ∧ bk_item_id b ≠ "").
Proof.
  revert l. induction bs as [|b bs IH]; intros l; simpl; [set_solver|]. intros Hd Hb.
  destruct (IH _ Hd Hb) as [Hd1 Hbs]. apply reset_booking_elem in Hd1 as (d0 & Hd0 & _ & _ & H).
  destruct (H Hb) as [-> Hn]. split; [done|]. by intros b' [->|Hb']%elem_of_cons; [|by apply Hbs].
Qed.

Lemma delete_plan_linked plan_id db db' : linked db → delete_plan plan_id db = Ok db' → linked db'.
Proof.
  intros [Hids Hlink] H. unfold delete_plan in H. destruct (existsb _ _); [|done]. injection H as <-. split; simpl.
  - clear Hlink. induction (bookings db) as [|b l IH]; simpl; [done|]. simpl in Hids.
    apply NoDup_cons in Hids as [Hn Hnd]. destruct (negb _); simpl; [|by apply IH]. apply NoDup_cons.
    split; [|by apply IH]. intros (c & Hc & Hin)%list_elem_of_fmap. apply Hn. rewrite Hc.
    apply list_elem_of_fmap. exists c. split; [done|]. apply list_elem_of_In, filter_In in Hin as [Hin _]. by apply list_elem_of_In.
  - intros d id Hd Hid. apply reset_all_elem in Hd as [Hd Hno]; [|by rewrite Hid].
    destruct (Hlink d id Hd Hid) as (b & Hb & Hbid & Ht & Hne). exists b. split_and!; [|done..].
    apply list_elem_of_In, filter_In. split; [by apply list_elem_of_In|]. apply negb_true_iff.
    destruct (on_plan plan_id b) eqn:E; [|done]. exfalso. apply (Hno b); [|done].
    apply list_elem_of_In, filter_In. split; [by apply list_elem_of_In|done].
Qed.

(** Two versions of a booking, which agree on its item. *)
Definition same_target (b c : booking) : Prop := bk_item_type b = bk_item_type c ∧ bk_item_id b = bk_item_id c.

Lemma is_target_same b c d : same_target b c → is_target b d = is_target c d.
Proof. unfold is_target. by intros [-> ->]. Qed.

Lemma detach_linked plan_ids b db :
  linked db → (∀ c, c ∈ bookings db → bk_id c = bk_id b → same_target b c) → linked (detach plan_ids db b).
Proof.
  intros [Hids Hlink] Htwin. unfold detach. destruct (List.filter _ (bk_plans b)) as [|r rs]; simpl.
  - split; simpl.
    + clear Hlink Htwin. induction (bookings db) as [|c l IH]; simpl; [done|]. simpl in Hids.
      apply NoDup_cons in Hids as [Hn Hnd]. destruct (negb _); simpl; [|by apply IH]. apply NoDup_cons.
      split; [|by apply IH]. intros (e & He & Hin)%list_elem_of_fmap. apply Hn. rewrite He.
      apply list_elem_of_fmap. exists e. split; [done|]. apply list_elem_of_In, filter_In in Hin as [Hin _]. by apply list_elem_of_In.
    + intros d id Hd Hid. apply reset_booking_elem in Hd as (d0 & Hd0 & _ & _ & H).
      destruct H as [-> Hn]; [by rewrite Hid|].
      destruct (Hlink d id Hd0 Hid) as (c & Hc & Hcid & Ht & Hne). exists c. split_and!; [|done..].
      apply list_elem_of_In, filter_In. split; [by apply list_elem_of_In|]. apply negb_true_iff, String.eqb_neq.
      intros He. apply Hn. destruct (Htwin c Hc He) as [H1 H2].
      rewrite (is_target_same b c) by (by split). split; [done|by rewrite H2].
  - split; simpl.
    + rewrite <-list_fmap_compose. erewrite list_fmap_ext; [exact Hids|]. intros i c _. simpl.
      by destruct (String.eqb_spec (bk_id c) (bk_id b)).
    + intros d id Hd Hid. destruct (Hlink d id Hd Hid) as (c & Hc & Hcid & Ht & Hne). eexists. split_and!.
      * apply list_elem_of_fmap. exists c. split; [reflexivity|done].
      * by destruct (String.eqb_spec (bk_id c) (bk_id b)).
      * by destruct (String.eqb_spec (bk_id c) (bk_id b)).
      * by destruct (String.eqb_spec (bk_id c) (bk_id b)).
Qed.

Lemma detach_same plan_ids b db (orig : list booking) :
  (∀ b c, b ∈ orig → c ∈ bookings db → bk_id c = bk_id b → same_target b c) →
  ∀ b' c, b' ∈ orig → c ∈ bookings (detach plan_ids db b) → bk_id c = bk_id b' → same_target b' c.
Proof.
  intros H b' c Hb' Hc. unfold detach in Hc. destruct (List.filter _ (bk_plans b)); simpl in Hc.
  - apply list_elem_of_In, filter_In in Hc as [Hc _]. apply H; [done|by apply list_elem_of_In].
  - apply list_elem_of_fmap in Hc as (e & -> & He). intros Hid.
    assert (Hs : same_target b' e) by (apply H; [done|done|by destruct (String.eqb_spec (bk_id e) (bk_id b))]).
    by destruct (String.eqb_spec (bk_id e) (bk_id b)).
Qed.

Lemma detach_all_linked plan_ids bs db :
  linked db → (∀ b c, b ∈ bs → c ∈ bookings db → bk_id c = bk_id b → same_target b c) →
  linked (foldl (detach plan_ids) db bs).
Proof.
  revert db. induction bs as [|b bs IH]; intros db Hl Htwin; simpl; [done|]. apply IH.
  - apply detach_linked; [done|]. intros c. apply Htwin. left.
  - apply (detach_same plan_ids b db bs). intros b' c Hb'. apply Htwin. by right.
Qed.

Lemma bookings_by_id l b c : NoDup (bk_id <$> l) → b ∈ l → c ∈ l → bk_id b = bk_id c → b = c.
Proof.
  induction l as [|x l IH]; [set_solver|]. simpl. intros [Hn Hnd]%NoDup_cons [->|Hb]%elem_of_cons [->|Hc]%elem_of_cons He.
  - done.
  - destruct Hn. rewrite He. apply list_elem_of_fmap. eauto.
  - destruct Hn. rewrite <-He. apply list_elem_of_fmap. eauto.
  - by apply IH.
Qed.

(** A booking without any plan of a list. *)
Definition clean (plan_ids : list string) (b : booking) : Prop :=
  Forall (λ p, bp_plan_id p ∉ plan_ids) (bk_plans b).

Lemma detach_elem plan_ids bs db c :
  c ∈ bookings (foldl (detach plan_ids) db bs) →
  clean plan_ids c ∨ (c ∈ bookings db ∧ ∀ b, b ∈ bs → bk_id c ≠ bk_id b).
Proof.
  revert db. induction bs as [|b bs IH]; intros db; simpl; [set_solver|].
  intros [Hc|[Hc Hbs]]%IH; [by left|]. unfold detach in Hc.
  destruct (List.filter _ (bk_plans b)) as [|r rs] eqn:E; simpl in Hc.
  - apply list_elem_of_In, filter_In in Hc as [Hc Hne]. simp_bool. right. split; [by apply list_elem_of_In|].
    by intros b' [->|Hb']%elem_of_cons; [|apply Hbs].
  - apply list_elem_of_fmap in Hc as (e & -> & He). destruct (String.eqb_spec (bk_id e) (bk_id b)) as [Hid|Hid].
    + left. unfold clean. simpl. rewrite <-E. apply Forall_forall. intros p Hp.
      apply list_elem_of_In, filter_In in Hp as [_ Hp]. simp_bool. by apply mem_false.
    + right. split; [done|]. by intros b' [->|Hb']%elem_of_cons; [|apply Hbs].
Qed.

(** C40: deleting a plan, or disabling a profile on a card, leaves no desktop pointing
    at a booking that is gone, and no booking on a plan that is gone. *)
Theorem removals_leave_no_dangling_booking db plan_id item_id subitem_id :
  linked db →
  (∀ db', delete_plan plan_id db = Ok db' →
     linked db' ∧ ∀ b, b ∈ bookings db' ↔ b ∈ bookings db ∧ on_plan plan_id b = false)
  ∧ let db' := (delete_card_subitem_plans item_id subitem_id db).1 in
    linked db'
    ∧ ∀ p b, p ∈ resource_planner db → pl_item_id p = item_id → pl_subitem_id p = subitem_id →
        b ∈ bookings db' → on_plan (pl_id p) b = false.
Proof.
  intros Hl. split.
  - intros db' H. split; [by eapply delete_plan_linked|]. unfold delete_plan in H. destruct (existsb _ _); [|done].
    injection H as <-. simpl. intros b. rewrite list_elem_of_In, filter_In, <-list_elem_of_In. by rewrite negb_true_iff.
  - cbv zeta. unfold delete_card_subitem_plans.
    set (ids := pl_id <$> _).
    assert (Hids : ∀ p, p ∈ resource_planner db → pl_item_id p = item_id → pl_subitem_id p = subitem_id → pl_id p ∈ ids).
    { intros p Hp H1 H2. apply list_elem_of_fmap. exists p. split; [done|]. apply list_elem_of_In, filter_In.
      split; [by apply list_elem_of_In|]. by rewrite H1, H2, !String.eqb_refl. }
    destruct (decide (ids = [])) as [E|E].
    { rewrite E. split; [done|]. intros p b Hp H1 H2 _. specialize (Hids p Hp H1 H2). rewrite E in Hids. set_solver. }
    assert (Hm : ∀ x y : tables * (Z * Z), match ids with [] => x | _ :: _ => y end = y) by (intros; by destruct ids).
    rewrite Hm. simpl. split.
    + apply detach_all_linked; [by destruct Hl|].
      simpl. intros b c Hb Hc Hid. apply list_elem_of_In, filter_In in Hb as [Hb _].
      rewrite (bookings_by_id (bookings db) b c); [by split|apply Hl|by apply list_elem_of_In|done|done].
    + intros p b Hp H1 H2 Hb. specialize (Hids p Hp H1 H2). apply existsb_false_Forall.
      apply detach_elem in Hb as [Hclean|[Hb Hno]].
      * eapply Forall_impl; [exact Hclean|]. simpl. intros q Hq. apply String.eqb_neq. intros He. by rewrite He in Hq.
      * apply Forall_forall. intros q Hq. apply String.eqb_neq. intros He. apply (Hno b); [|done].
        apply list_elem_of_In, filter_In. split; [by apply list_elem_of_In|]. apply existsb_exists. exists q.
        split; [by apply list_elem_of_In|]. apply mem_spec. by rewrite He.
Qed.

(** Two bookings of one desktop, on two plans of the card: one in progress, which the
    desktop points at, and a later one. *)
Definition booked (id plan_id : string) (from to : Z) : booking :=
  mkBooking id "desktop" "desktop-1" 1 [("vgpus", ["1Q"])] from to "user-1"
    [mkBooked plan_id "card-1" "1Q" 10 (Some 1%Z)].
Definition two_bookings : tables :=
  mkTables (resource_planner gap_tables)
    [booked "now" "p1" (2 * ROUND) (4 * ROUND); booked "later" "p2" (6 * ROUND) (7 * ROUND)]
    [mkDomain "desktop-1" None (Some "now")].

Lemma two_bookings_linked : linked two_bookings.
Proof.
  split; [apply (bool_decide_unpack _); by vm_compute|].
  intros d id Hd Hid. apply list_elem_of_singleton in Hd as ->. injection Hid as <-.
  exists (booked "now" "p1" (2 * ROUND) (4 * ROUND)). split_and!; [left|done|by vm_compute|done].
Qed.

Lemma removals_leave_no_dangling_booking_witness :
  linked (delete_card_subitem_plans "card-1" "1Q" two_bookings).1
  ∧ bookings (delete_card_subitem_plans "card-1" "1Q" two_bookings).1 = [].
Proof.
  split; [|by vm_compute].
  apply (removals_leave_no_dangling_booking two_bookings "p1" "card-1" "1Q" two_bookings_linked).
Defined.

(** deleting the plan of a later booking of a desktop clears its [booking_id], also
    when it points at another booking, in progress, which is kept. *)
Theorem deleting_a_later_plan_unlinks_the_current_booking :
  ∃ db, delete_plan "p2" two_bookings = Ok db
    ∧ bookings db = [booked "now" "p1" (2 * ROUND) (4 * ROUND)]
    ∧ dm_booking_id <$> domains db = [None].
Proof. eexists. split; [vm_compute; reflexivity|]. split; by vm_compute. Qed.
