(* ===== verification/Portion.v ===== *)
(** * Interval dictionaries

    The interface of the [portion] library the booking planner computes with: a
    dictionary from moments to values, built from closed and half-open intervals,
    combined where two of them overlap, and listed as atomic intervals. The laws are
    the documented behaviour, on dense time; [half_portion] is an implementation,
    which shows that they can hold together. *)
From Stdlib Require Import QArith Qround Lqa.
From S2P Require Import Prelude.

(** A moment between two moments of the rows. *)
Definition inside (a b : Z) (t : Q) : bool := Qle_bool (inject_Z a) t && Qle_bool t (inject_Z b).
Definition inside_open (a b : Z) (t : Q) : bool := Qle_bool (inject_Z a) t && negb (Qle_bool (inject_Z b) t).

Class Portion := {
  idict : Type → Type;
  P_get {V} : idict V → Q → option V;
  P_empty {V} : idict V;                                        (** [P.IntervalDict()] *)
  P_closed {V} : Z → Z → V → idict V;                           (** [P.IntervalDict({P.closed(a, b): v})] *)
  P_closedopen {V} : Z → Z → V → idict V;
  P_assign {V} : Z → Z → V → idict V → idict V;                 (** [d[P.closed(a, b)] = v] *)
  P_combine {V} : (V → V → V) → idict V → idict V → idict V;    (** [d.combine(e, how)] *)
  P_items {V} : idict V → list (Z * Z * V);                     (** the atomic intervals by lower bound *)

  get_empty {V} t : P_get (V := V) P_empty t = None;
  get_closed {V} a b (v : V) t : P_get (P_closed a b v) t = if inside a b t then Some v else None;
  get_closedopen {V} a b (v : V) t : P_get (P_closedopen a b v) t = if inside_open a b t then Some v else None;
  get_assign {V} a b (v : V) d t : P_get (P_assign a b v d) t = if inside a b t then Some v else P_get d t;
  get_combine {V} how (d e : idict V) t :
    P_get (P_combine how d e) t = union_with (λ x y, Some (how x y)) (P_get d t) (P_get e t);
  items_reached {V} (d : idict V) lo hi v :
    (lo, hi, v) ∈ P_items d → ∃ t, inside lo hi t = true ∧ P_get d t = Some v;
  items_inside {V} (d : idict V) lo hi v t :
    (lo, hi, v) ∈ P_items d → (inject_Z lo < t)%Q → (t < inject_Z hi)%Q → P_get d t = Some v;
  items_cover {V} (d : idict V) t v :
    P_get d t = Some v → ∃ lo hi, (lo, hi, v) ∈ P_items d ∧ inside lo hi t = true;
  items_sorted {V} (d : idict V) : StronglySorted (λ x y : Z * Z * V, x.1.1 ≤ y.1.1)%Z (P_items d);
}.

(** A dictionary filled with the intervals of a list, overlaps combined. *)
Definition P_fill `{Portion} {A V} (how : V → V → V) (lo hi : A → Z) (val : A → V) (l : list A) : idict V :=
  foldl (λ d x, P_combine how d (P_closed (lo x) (hi x) (val x))) P_empty l.

(** What it has at a moment: the values of the intervals that cover it, combined in order. *)
Lemma get_fill `{Portion} {A V} (how : V → V → V) lo hi (val : A → V) l t :
  P_get (P_fill how lo hi val l) t
  = match List.filter (λ x, inside (lo x) (hi x) t) l with
    | [] => None
    | x :: xs => Some (foldl (λ v y, how v (val y)) (val x) xs)
    end.
Proof.
  unfold P_fill. induction l as [|x l IH] using rev_ind; simpl; [apply get_empty|].
  rewrite foldl_app, List.filter_app. simpl. rewrite get_combine, get_closed, IH.
  destruct (inside (lo x) (hi x) t); simpl.
  - destruct (List.filter _ l) as [|y ys]; simpl; [done|]. by rewrite foldl_app.
  - rewrite app_nil_r. by destruct (List.filter _ l).
Qed.

(** ** An implementation

    Moments are kept in halves: an even key is a whole moment and an odd one the open
    interval between two of them. *)
Module Half.
Definition key (t : Q) : Z :=
  if Qeq_bool (inject_Z (Qfloor t)) t then (2 * Qfloor t)%Z else (2 * Qfloor t + 1)%Z.

Definition range (a b : Z) : list Z := (λ i, a + Z.of_nat i)%Z <$> seq 0 (Z.to_nat (b - a + 1)).

Definition fill_range {V} (a b : Z) (v : V) : gmap Z V := list_to_map ((λ k, (k, v)) <$> range a b).

Definition atom {V} (p : Z * V) : Z * Z * V := (p.1 / 2, (p.1 + 1) / 2, p.2)%Z.

Definition items {V} (m : gmap Z V) : list (Z * Z * V) :=
  atom <$> py_sorted (λ p q : Z * V, p.1 <=? q.1)%Z (map_to_list m).

Lemma elem_of_range a b k : k ∈ range a b ↔ (a ≤ k ≤ b)%Z.
Proof.
  unfold range. rewrite list_elem_of_fmap. split.
  - intros (i & -> & Hi%elem_of_seq). lia.
  - intros H. exists (Z.to_nat (k - a)). rewrite elem_of_seq. lia.
Qed.

Lemma lookup_fill_range {V} a b (v : V) k :
  fill_range a b v !! k = if bool_decide (a ≤ k ≤ b)%Z then Some v else None.
Proof.
  unfold fill_range. destruct (list_to_map _ !! k) as [w|] eqn:E.
  - apply elem_of_list_to_map_2, list_elem_of_fmap in E as (j & [= -> ->] & Hj%elem_of_range).
    by rewrite bool_decide_eq_true_2.
  - apply not_elem_of_list_to_map_2 in E. rewrite bool_decide_eq_false_2; [done|]. intros Hk. apply E.
    rewrite <-list_fmap_compose. apply list_elem_of_fmap. exists k. split; [done|]. by apply elem_of_range.
Qed.

Lemma key_spec t :
  ((key t = 2 * Qfloor t)%Z ∧ (t == inject_Z (Qfloor t))%Q)
  ∨ ((key t = 2 * Qfloor t + 1)%Z ∧ (inject_Z (Qfloor t) < t)%Q ∧ (t < inject_Z (Qfloor t + 1))%Q).
Proof.
  unfold key. destruct (Qeq_bool _ t) eqn:E.
  - left. apply Qeq_bool_iff in E. split; [done|]. by symmetry.
  - right. apply Qeq_bool_neq in E. split; [done|]. split; [|apply Qlt_floor].
    destruct (Qle_lt_or_eq _ _ (Qfloor_le t)); [done|]. contradiction.
Qed.

Lemma Qle_bool_Z a t : Qle_bool (inject_Z a) t = true ↔ (a ≤ Qfloor t)%Z.
Proof.
  rewrite Qle_bool_iff. split; intros H.
  - rewrite <-(Qfloor_Z a). by apply Qfloor_resp_le.
  - eapply Qle_trans; [|apply Qfloor_le]. by rewrite <-Zle_Qle.
Qed.

Lemma inside_key a b t : inside a b t = bool_decide (2 * a ≤ key t ≤ 2 * b)%Z.
Proof.
  apply eq_true_iff_eq. unfold inside. rewrite andb_true_iff, Qle_bool_Z, Qle_bool_iff, bool_decide_eq_true.
  destruct (key_spec t) as [[-> He]|[-> [Hlo Hhi]]].
  - rewrite He at 2. rewrite <-Zle_Qle. lia.
  - split; intros [H1 H2]; split; try lia.
    + assert (Hlt : (inject_Z (Qfloor t) < inject_Z b)%Q) by (eapply Qlt_le_trans; [exact Hlo|exact H2]).
      rewrite <-Zlt_Qlt in Hlt. lia.
    + apply Qlt_le_weak. eapply Qlt_le_trans; [exact Hhi|]. rewrite <-Zle_Qle. lia.
Qed.

Lemma inside_open_key a b t : inside_open a b t = bool_decide (2 * a ≤ key t < 2 * b)%Z.
Proof.
  apply eq_true_iff_eq. unfold inside_open.
  rewrite andb_true_iff, negb_true_iff, <-not_true_iff_false, !Qle_bool_Z, bool_decide_eq_true.
  destruct (key_spec t) as [[-> _]|[-> _]]; lia.
Qed.

(** A moment with a given key. *)
Definition moment (k : Z) : Q := (inject_Z k / 2)%Q.

Lemma key_moment k : key (moment k) = k.
Proof.
  assert (Hdiv : Qfloor (moment k) = (k / 2)%Z).
  { unfold moment, Qfloor, Qdiv, Qmult, Qinv, inject_Z. simpl. f_equal; lia. }
  assert (Hk : (2 * moment k == inject_Z k)%Q) by (unfold moment; field).
  destruct (key_spec (moment k)) as [[-> He]|[-> [Hlo Hhi]]]; rewrite Hdiv in *.
  - rewrite He in Hk. change 2%Q with (inject_Z 2) in Hk. rewrite <-inject_Z_mult in Hk.
    by apply (proj1 (inject_Z_injective _ _)) in Hk.
  - generalize dependent (moment k). intros m _ Hk Hlo Hhi. rewrite inject_Z_plus in Hhi. change (inject_Z 1) with 1%Q in Hhi.
    assert (H1 : (inject_Z (2 * (k / 2)) < inject_Z k)%Q).
    { rewrite inject_Z_mult. change (inject_Z 2) with 2%Q. lra. }
    assert (H2 : (inject_Z k < inject_Z (2 * (k / 2) + 2))%Q).
    { rewrite inject_Z_plus, inject_Z_mult. change (inject_Z 2) with 2%Q. lra. }
    rewrite <-Zlt_Qlt in H1, H2. Z.to_euclidean_division_equations; lia.
Qed.

Lemma elem_of_items {V} (m : gmap Z V) lo hi v :
  (lo, hi, v) ∈ items m ↔ ∃ k, m !! k = Some v ∧ lo = (k / 2)%Z ∧ hi = ((k + 1) / 2)%Z.
Proof.
  unfold items. rewrite list_elem_of_fmap. split.
  - intros ([k w] & [= -> -> ->] & Hk). apply elem_of_py_sorted, elem_of_map_to_list in Hk. by exists k.
  - intros (k & Hk & -> & ->). exists (k, v). split; [done|]. by apply elem_of_py_sorted, elem_of_map_to_list.
Qed.

Lemma inside_atom k t : key t = k → inside (k / 2) ((k + 1) / 2) t = true.
Proof. intros <-. rewrite inside_key. apply bool_decide_eq_true. Z.to_euclidean_division_equations; lia. Qed.

Lemma within_atom k t : (inject_Z (k / 2) < t)%Q → (t < inject_Z ((k + 1) / 2))%Q → key t = k.
Proof.
  intros H1 H2. assert (Hlt : (k / 2 < (k + 1) / 2)%Z).
  { rewrite Zlt_Qlt. by eapply Qlt_trans. }
  assert (Hin : inside_open (k / 2) ((k + 1) / 2) t = true).
  { unfold inside_open. apply andb_true_iff. split; [by apply Qle_bool_iff, Qlt_le_weak|].
    apply negb_true_iff, not_true_iff_false. rewrite Qle_bool_iff. by apply Qlt_not_le. }
  rewrite inside_open_key in Hin. apply bool_decide_eq_true in Hin.
  assert (key t ≠ 2 * (k / 2))%Z; [|Z.to_euclidean_division_equations; lia].
  destruct (key_spec t) as [[-> He]|[-> _]]; [|lia]. intros He'. rewrite He in H1. rewrite <-Zlt_Qlt in H1. lia.
Qed.
End Half.

Lemma half_empty {V} t : (∅ : gmap Z V) !! Half.key t = None.
Proof.
  apply lookup_empty.
Qed.

Lemma half_closed {V} a b (v : V) t : Half.fill_range (2 * a) (2 * b) v !! Half.key t = if inside a b t then Some v else None.
Proof.
  rewrite Half.lookup_fill_range, Half.inside_key. done.
Qed.

Lemma half_closedopen {V} a b (v : V) t : Half.fill_range (2 * a) (2 * b - 1) v !! Half.key t = if inside_open a b t then Some v else None.
Proof.
  rewrite Half.lookup_fill_range, Half.inside_open_key.
  by rewrite (bool_decide_ext (2 * a ≤ Half.key t ≤ 2 * b - 1)%Z (2 * a ≤ Half.key t < 2 * b)%Z) by lia.
Qed.

Lemma half_assign {V} a b (v : V) (d : gmap Z V) t :
  (Half.fill_range (2 * a) (2 * b) v ∪ d) !! Half.key t = if inside a b t then Some v else d !! Half.key t.
Proof.
  rewrite Half.inside_key, lookup_union, Half.lookup_fill_range.
  destruct (bool_decide _); by destruct (d !! Half.key t).
Qed.

Lemma half_combine {V} (how : V → V → V) (d e : gmap Z V) t :
  union_with (λ x y, Some (how x y)) d e !! Half.key t = union_with (λ x y, Some (how x y)) (d !! Half.key t) (e !! Half.key t).
Proof.
  apply lookup_union_with.
Qed.

Lemma half_reached {V} (d : gmap Z V) lo hi v :
  (lo, hi, v) ∈ Half.items d → ∃ t, inside lo hi t = true ∧ d !! Half.key t = Some v.
Proof.
  intros (k & Hk & -> & ->)%Half.elem_of_items. exists (Half.moment k).
  rewrite Half.key_moment. split; [|done]. apply Half.inside_atom, Half.key_moment.
Qed.

Lemma half_inside {V} (d : gmap Z V) lo hi v t :
  (lo, hi, v) ∈ Half.items d → (inject_Z lo < t)%Q → (t < inject_Z hi)%Q → d !! Half.key t = Some v.
Proof.
  intros (k & Hk & -> & ->)%Half.elem_of_items H1 H2. by rewrite (Half.within_atom k t H1 H2).
Qed.

Lemma half_cover {V} (d : gmap Z V) t v :
  d !! Half.key t = Some v → ∃ lo hi, (lo, hi, v) ∈ Half.items d ∧ inside lo hi t = true.
Proof.
  intros Hv. exists (Half.key t / 2)%Z, ((Half.key t + 1) / 2)%Z. split; [|by apply Half.inside_atom].
  apply Half.elem_of_items. eauto.
Qed.

Lemma half_sorted {V} (d : gmap Z V) : StronglySorted (λ x y : Z * Z * V, x.1.1 ≤ y.1.1)%Z (Half.items d).
Proof.
  unfold Half.items.
  assert (Hs : StronglySorted (λ p q : Z * V, (p.1 <=? q.1)%Z = true)
                (py_sorted (λ p q : Z * V, p.1 <=? q.1)%Z (map_to_list d))).
  { apply Sorted_StronglySorted; [intros x y z; rewrite !Z.leb_le; lia|]. apply py_sorted_Sorted.
    intros p q. rewrite !Z.leb_le. lia. }
  induction Hs as [|p l Hs IH Hp]; simpl; constructor; [done|].
  apply Forall_fmap. eapply Forall_impl; [exact Hp|]. simpl. intros q Hq%Z.leb_le. by apply Z.div_le_mono.
Qed.

#[export] Instance half_portion : Portion := {|
  idict V := gmap Z V;
  P_get V m t := m !! Half.key t;
  P_empty V := ∅;
  P_closed V a b v := Half.fill_range (2 * a) (2 * b) v;
  P_closedopen V a b v := Half.fill_range (2 * a) (2 * b - 1) v;
  P_assign V a b v m := Half.fill_range (2 * a) (2 * b) v ∪ m;
  P_combine V how m n := union_with (λ x y, Some (how x y)) m n;
  P_items V m := Half.items m;
  get_empty V := @half_empty V;
  get_closed V := @half_closed V;
  get_closedopen V := @half_closedopen V;
  get_assign V := @half_assign V;
  get_combine V := @half_combine V;
  items_reached V := @half_reached V;
  items_inside V := @half_inside V;
  items_cover V := @half_cover V;
  items_sorted V := @half_sorted V;
|}.
