(* ===== verification/Booking.v ===== *)
(** * Bookings

    [component/_common/src/isardvdi_common/lib/bookings/reservables_planner_compute.py]
    (priorities, capacity and the availability calendar), [gpu_multitenancy.py] (the
    cards a category sees), [reservables_planner.py] (the plans of a new booking),
    [bookings.py] (adding and moving a booking) and [helpers/bookings.py] (what an item
    needs).

    The tables of the planner are those of [Planner]; the tables that these
    operations only read are in [env]. Interval dictionaries are the interface
    [Portion]. The parsing of a date, the check that a user owns an item and the id
    of a new booking are arguments; the jobs of the scheduler and the log are left
    out. *)
From Stdlib Require Import Ascii QArith Qround.
From S2P Require Import Prelude PyVal ResourceLock Planner Portion.

(** ** What the operations read *)
Record payload := mkPayload {
  pa_user_id : string;
  pa_group_id : string;
  pa_category_id : string;
  pa_role_id : string;
}.

(** A row of [bookings_priority]; a list that is [False] is [None]. *)
Record rule := mkRule {
  ru_id : string;
  ru_rule_id : string;
  ru_priority : Z;
  ru_forbid_time : Z;
  ru_max_time : Z;
  ru_max_items : Z;
  ru_users : option (list string);
  ru_groups : option (list string);
  ru_categories : option (list string);
  ru_roles : option (list string);
}.

Record env := mkEnv {
  e_now : Z;
  e_rules : list rule;
  e_profiles : list (string * option string);   (** [priority_id] of [reservables_vgpus] *)
  e_gpus : list (string * option string);       (** the cards with their category *)
  e_categories : list (string * option bool);   (** [gpu_use_global_pool] *)
}.

(** ** Priorities *)

(** The limits of a rule; [None] is the [None] of the hardcoded default. *)
Record limits := mkLimits {
  lm_priority : Z;
  lm_forbid_time : Z;
  lm_max_time : option Z;
  lm_max_items : option Z;
}.

Definition limits_of (r : rule) : limits :=
  mkLimits (ru_priority r) (ru_forbid_time r) (Some (ru_max_time r)) (Some (ru_max_items r)).

Definition axis_matches (allowed : option (list string)) (id : string) : bool :=
  match allowed with Some l => bool_decide (l = []) || mem id l | None => false end.

Definition user_matches_priority_rule (p : payload) (rules : list rule) : option rule :=
  let by_axis axis id := List.find (λ r, axis_matches (axis r) id) rules in
  match by_axis ru_users (pa_user_id p) with
  | Some r => Some r
  | None =>
      match by_axis ru_groups (pa_group_id p) with
      | Some r => Some r
      | None =>
          match by_axis ru_categories (pa_category_id p) with
          | Some r => Some r
          | None => by_axis ru_roles (pa_role_id p)
          end
      end
  end.

(** [get_all(rule_id).order_by(desc("priority"))] *)
Definition rules_of (e : env) (rule_id : string) : list rule :=
  py_sorted (λ a b, ru_priority b <=? ru_priority a)%Z (List.filter (λ r, (ru_rule_id r =? rule_id)%string) (e_rules e)).

Definition get_user_default_priority (e : env) (p : payload) : limits :=
  match user_matches_priority_rule p (rules_of e "default") with
  | Some r => limits_of r
  | None => mkLimits 0 0 None None
  end.

(** What [payload_priority] answers: a priority per profile, and the limits unless no
    profile was asked for. *)
Record priorities := mkPriorities {
  pr_priority : list (string * Z);
  pr_limits : option (Z * option Z * option Z);   (** forbid_time, max_time, max_items *)
}.

(** [d[k] = v] *)
Definition dict_set {A} (k : string) (v : A) (d : list (string * A)) : list (string * A) :=
  match assoc k d with
  | Some _ => (λ p, if (p.1 =? k)%string then (k, v) else p) <$> d
  | None => d ++ [(k, v)]
  end.

(** [min(a, b)] *)
Definition py_min (a b : option Z) : res (option Z) :=
  match a, b with Some x, Some y => Ok (Some (Z.min x y)) | _, _ => Raise TypeError end.

Definition most_restrictive_rule (subitem : string) (new : limits) (old : option priorities) : res priorities :=
  match old with
  | None => Ok (mkPriorities [(subitem, lm_priority new)] (Some (lm_forbid_time new, lm_max_time new, lm_max_items new)))
  | Some (mkPriorities d None) => Raise KeyError
  | Some (mkPriorities d (Some (forbid, max_time, max_items))) =>
      t ← py_min (lm_max_time new) max_time;
      i ← py_min (lm_max_items new) max_items;
      Ok (mkPriorities (dict_set subitem (lm_priority new) d) (Some (Z.min (lm_forbid_time new) forbid, t, i)))
  end.

Definition priority_id_of (e : env) (subitem : string) : string :=
  match assoc subitem (e_profiles e) with
  | Some (Some id) => if (id =? "")%string then "default" else id
  | _ => "default"
  end.

Definition priority_of (e : env) (p : payload) (subitem : string) : limits :=
  match user_matches_priority_rule p (rules_of e (priority_id_of e subitem)) with
  | Some r => limits_of r
  | None => get_user_default_priority e p
  end.

(** The profiles of an item, group after group. *)
Definition profiles (reservables : list (string * list string)) : list string := concat reservables.*2.

Definition payload_priority (e : env) (p : payload) (reservables : list (string * list string)) : res priorities :=
  out ← foldl (λ acc subitem, acc ← acc; r ← most_restrictive_rule subitem (priority_of e p subitem) acc; Ok (Some r))
          (Ok None) (profiles reservables);
  Ok (default (mkPriorities [] None) out).

(** [min_profile_priority]: of the most restrictive rule of every profile the minimum of
    the two limits; no rule left is a [ReqlNonExistenceError]. *)
Definition profile_limits (e : env) (subitem : string) : res (Z * Z) :=
  let rows := List.filter (λ r, (ru_rule_id r =? priority_id_of e subitem)%string
                                && negb (ru_id r =? "default admins")%string && negb (ru_max_time r =? 0)%Z) (e_rules e) in
  match py_sorted (λ a b, ru_forbid_time a <=? ru_forbid_time b)%Z rows with
  | r :: _ => Ok (ru_forbid_time r, ru_max_time r)
  | [] => Raise ReqlError
  end.

Definition min_profile_priority (e : env) (reservables : list (string * list string)) : res (option (Z * Z)) :=
  foldl (λ acc subitem, acc ← acc; new ← profile_limits e subitem;
           Ok (Some match acc with
                    | None => new
                    | Some old => (Z.min old.1 new.1, Z.min old.2 new.2)
                    end)) (Ok None) (profiles reservables).

Definition MAX_BOOKING_TIME : Z := 12 * 60.

Definition start_now_minutes (p : payload) (forbid : Z) (max_time : Z) : Z :=
  if (pa_role_id p =? "admin")%string then max_time else Z.min forbid max_time.

Definition get_start_now_max_minutes (e : env) (p : payload) (reservables : list (string * list string))
    (prio : priorities) : res Z :=
  match pr_limits prio with
  | Some (forbid, Some max_time, _) =>
      if (max_time =? 0)%Z then Ok 0%Z
      else
        let mine := start_now_minutes p forbid max_time in
        match min_profile_priority e reservables with
        | Ok (Some (f, t)) => Ok (Z.min (Z.max mine (start_now_minutes p f t)) MAX_BOOKING_TIME)
        | Ok None | Raise ReqlError => Ok (Z.min mine MAX_BOOKING_TIME)
        | Raise x => Raise x
        end
  | _ => Ok 0%Z
  end.

(** ** Cards of a category *)
Definition category_uses_global_pool (e : env) (category_id : string) : bool :=
  if (category_id =? "")%string then true
  else match assoc category_id (e_categories e) with Some (Some b) => b | _ => true end.

Definition _card_visible (owner : option string) (requester : string) (use_global : bool) : bool :=
  bool_decide (owner = Some requester) || use_global && bool_decide (owner = None).

(** [None]: every card. *)
Definition visible_gpu_card_ids (e : env) (p : payload) : option (list string) :=
  if (pa_role_id p =? "admin")%string then None
  else Some (fst <$> List.filter (λ c, _card_visible c.2 (pa_category_id p)
                                         (category_uses_global_pool e (pa_category_id p))) (e_gpus e)).

Definition filter_gpu_plans_by_category (e : env) (p : payload) (plans : list plan) : list plan :=
  match visible_gpu_card_ids e p with
  | None => plans
  | Some visible => List.filter (λ q, negb (pl_item_type q =? "gpus")%string || mem (pl_item_id q) visible) plans
  end.

(** ** Capacity *)
Definition vgpus_of (b : booking) : list string := default [] (assoc "vgpus" (bk_reservables b)).

(** The bookings a request of this priority may not displace. *)
Definition nonoverridable_on (plan_id subitem_id : string) (priority start stop : Z) (l : list booking) : list booking :=
  List.filter (λ b, mem subitem_id (vgpus_of b) && (bk_start b <=? stop)%Z && (start <=? bk_end b)%Z
    && on_plan plan_id b && existsb (λ p, priority <=? bp_priority p)%Z (bk_plans b)) l.

(** A share of a plan: from, to and units. *)
Notation share := (Z * Z * Z)%type.

(** [plan["units_booked"]], or all the units of an old booking *)
Definition units_booked (b : booking) (p : booked_plan) : Z :=
  match bp_units_booked p with Some u => if (u =? 0)%Z then bk_units b else u | None => bk_units b end.

Definition shares_of (plan_id : string) (b : booking) : list share :=
  (λ p, (bk_start b, bk_end b, units_booked b p)) <$> List.filter (λ p, (bp_plan_id p =? plan_id)%string) (bk_plans b).

Definition current_plans (plan_id : string) (l : list booking) : list share := concat (shares_of plan_id <$> l).

(** [max(l, default=0)] *)
Definition py_max0 (l : list Z) : Z := match l with [] => 0%Z | x :: xs => foldl Z.max x xs end.

Section planner.
Context `{PO : Portion}.

(** The largest number of units booked at once; the joined ids are not used. *)
Definition peak_units (l : list share) : Z :=
  py_max0 (snd <$> P_items (P_fill Z.add (λ s : share, s.1.1) (λ s : share, s.1.2) (λ s : share, s.2) l)).

Definition count_non_overridable_bookings (plan_id subitem_id : string) (priority start stop : Z)
    (l : list booking) : Z :=
  match nonoverridable_on plan_id subitem_id priority start stop l with
  | [] => 0%Z
  | bs => peak_units (current_plans plan_id bs)
  end.

(** [booking_interval in i] *)
Definition window_fits (start stop : Z) (p : plan) : bool :=
  (stop <? start)%Z || (pl_start p <=? start)%Z && (stop <=? pl_end p)%Z.

Definition available_in (subitem_id : string) (priority start stop : Z) (l : list booking) (p : plan) : Z :=
  (pl_units p - count_non_overridable_bookings (pl_id p) subitem_id priority start stop l)%Z.

(** The loop of a deployment: the plans with the units taken of each, and the rest. *)
Fixpoint assign_units (avail : plan → Z) (remaining : Z) (plans : list plan) : list (plan * Z) * Z :=
  match plans with
  | [] => ([], remaining)
  | p :: plans =>
      let a := avail p in
      if (0 <? a)%Z
      then if (0 <? remaining - a)%Z
           then let '(out, rest) := assign_units avail (remaining - a) plans in ((p, a) :: out, rest)
           else ([(p, remaining)], 0%Z)
      else assign_units avail remaining plans
  end.

Definition get_same_plans_for_booking (plans : list plan) (subitem_id : string) (priority start stop units : Z)
    (l : list booking) : list (plan * Z) :=
  let plans := List.filter (window_fits start stop) plans in
  let avail := available_in subitem_id priority start stop l in
  if (1 <? units)%Z
  then let '(out, rest) := assign_units avail units plans in if (0 <? rest)%Z then [] else out
  else match List.find (λ p, (0 <=? avail p - 1)%Z) plans with Some p => [(p, 1%Z)] | None => [] end.

(** [get_subitems_planning([subitem])] *)
Definition get_subitems_planning (now : Z) (subitem : string) (planner : list plan) : list plan :=
  List.filter (λ p, (pl_subitem_id p =? subitem)%string && (now <? pl_end p)%Z) planner.

Definition new_booking_plans (e : env) (p : payload) (reservables : list (string * list string)) (units start stop : Z)
    (db : tables) : res (list (string * list (plan * Z))) :=
  prio ← payload_priority e p reservables;
  plans ← foldl (λ acc subitem, acc ← acc;
      match assoc subitem (pr_priority prio) with
      | None => Raise KeyError
      | Some priority =>
          Ok (dict_set subitem (get_same_plans_for_booking (get_subitems_planning (e_now e) subitem (resource_planner db))
                subitem priority start stop units (bookings db)) acc)
      end) (Ok []) (profiles reservables);
  let non_empty := List.filter (λ kv : string * list (plan * Z), negb (bool_decide (kv.2 = []))) plans in
  if negb (length non_empty =? length (profiles reservables))%nat then Ok []
  else
    let cards := (λ pu : plan * Z, pl_item_id pu.1) <$> concat non_empty.*2 in
    if bool_decide (NoDup cards) then Ok non_empty else Ok [].

(** ** What an item needs *)
Inductive item_row :=
  | NoRow
  | DesktopRow (reservables : list (string * list string))
  | DeploymentRow (vgpus : list (option (list string))) (users_amount : nat).

Definition _get_reservables (row : item_row) : res (list (string * list string) * Z) :=
  match row with
  | NoRow => Raise (ApiError "not_found" "not_found")
  | DesktopRow r =>
      let held := List.filter (λ kv : string * list string, negb (bool_decide (kv.2 = []))) r in
      if bool_decide (held = []) then Raise (ApiError "precondition_required" "no_reservables") else Ok (held, 1%Z)
  | DeploymentRow vgpus users_amount =>
      match omap (fmap (py_sorted String.leb)) vgpus with
      | [] => Raise (ApiError "precondition_required" "no_reservables")
      | v :: vs =>
          if existsb (λ w, negb (bool_decide (w = v))) vs
          then Raise (ApiError "precondition_required" "deployment_reservables_not_equal")
          else Ok ([("vgpus", v)], Z.of_nat (length (v :: vs) * users_amount))
      end
  end.

(** ** Adding a booking *)

(** The keys of the section of a new booking. *)
Definition add_lock_keys (p : payload) (reservables : list (string * list string)) : list string :=
  ("bookings:quota:" +:+ pa_user_id p)
  :: concat ((λ kv : string * list string, (λ s, "bookings:capacity:" +:+ kv.1 +:+ ":" +:+ s) <$> kv.2) <$> reservables).

Definition get_total_user_bookings_count (e : env) (user_id : string) (l : list booking) : Z :=
  count_if (λ b, (bk_user_id b =? user_id)%string && (e_now e <? bk_start b)%Z) l.

Definition new_planning (by_subitem : list (string * Z)) (plans : list (string * list (plan * Z))) : res (list booked_plan) :=
  foldr (λ (pu : plan * Z) acc, acc ← acc;
     match assoc (pl_subitem_id pu.1) by_subitem with
     | Some x => Ok (mkBooked (pl_id pu.1) (pl_item_id pu.1) (pl_subitem_id pu.1) x (Some pu.2) :: acc)
     | None => Raise KeyError
     end) (Ok []) (concat plans.*2).

(** The request of a booking; [rq_start] and [rq_end] are its parsed dates. *)
Record request := mkRequest {
  rq_item_type : string;
  rq_item_id : string;
  rq_start : option Z;
  rq_end : option Z;
  rq_now : bool;
}.

(** The section under the lock, up to the row it inserts. *)
Definition add_checked (e : env) (p : payload) (new_id : string) (rq : request) (reservables : list (string * list string))
    (units : Z) (db : tables) : res booking :=
  prio ← payload_priority e p reservables;
  match pr_limits prio with
  | None => Raise KeyError
  | Some (_, _, None) => Raise TypeError
  | Some (_, _, Some max_items) =>
      if (max_items <=? get_total_user_bookings_count e (pa_user_id p) (bookings db))%Z
      then Raise (ApiError "precondition_required" "booking_max_items_exceeded")
      else match rq_start rq, rq_end rq with
      | Some start, Some stop =>
          minutes ← (if rq_now rq && negb (bool_decide (reservables = []))
                     then x ← get_start_now_max_minutes e p reservables prio; Ok (Some x)
                     else Ok None);
          if match minutes with Some m => (e_now e + (m + 1) * 60 * SECOND <? stop)%Z | None => false end
          then Raise (ApiError "bad_request" "booking_exceeds_max_time")
          else
            plans ← new_booking_plans e p reservables units start stop db;
            if bool_decide (plans = []) || existsb (λ kv : string * list (plan * Z), bool_decide (kv.2 = [])) plans
            then Raise (ApiError "conflict" "booking_does_not_fit_date")
            else
              planning ← new_planning (pr_priority prio) plans;
              Ok (mkBooking new_id (rq_item_type rq) (rq_item_id rq) units reservables start stop (pa_user_id p) planning)
      | _, _ => Raise (ApiError "bad_request" "invalid_booking_date")
      end
  end.

Definition set_booking_id (booking_id item_id : string) (l : list domain) : list domain :=
  (λ d, if (dm_id d =? item_id)%string then mkDomain (dm_id d) (dm_tag d) (Some booking_id) else d) <$> l.

Definition add (e : env) (p : payload) (owns : res ()) (row : item_row) (new_id : string) (rq : request)
    (db : tables) : tables * res booking :=
  match (_ ← owns; _get_reservables row) with
  | Raise x => (db, Raise x)
  | Ok (reservables, units) =>
      match add_checked e p new_id rq reservables units db with
      | Raise x => (db, Raise x)
      | Ok b =>
          let db := set_bookings db (bookings db ++ [b]) in
          if rq_now rq
          then if (rq_item_type rq =? "desktop")%string
               then (set_domains db (set_booking_id new_id (rq_item_id rq) (domains db)), Ok b)
               else (db, Raise (ApiError "bad_request" ""))
          else (db, Ok b)
      end
  end.
End planner.

(** ** The availability calendar *)

(** A window of the calendar: [w_id] is the name of the profile, or the ids joined, or
    absent. *)
Record window := mkWindow {
  w_start : Z;
  w_end : Z;
  w_units : Z;
  w_ids : list string;
  w_id : option string;
  w_event : string;
}.

(** A bound of the calendar, as the callers pass it. *)
Inductive bound := NoBound | DateText (s : string) | DateTime (t : Z).

Definition join_ids (a b : string) : string := a +:+ "/" +:+ b.

Section calendar.
Context `{PO : Portion}.
(** [datetime.strptime(value, "%Y-%m-%dT%H:%M%z")] of a text *)
Context (strptime : string → res Z).

Definition intersect_same_subitem_plan (plans : list plan) (name : string) : list window :=
  (λ item : Z * Z * (Z * string),
     mkWindow item.1.1 item.1.2 item.2.1 (split_on "/" item.2.2) (Some name) "available")
  <$> P_items (P_fill (λ x y : Z * string, ((x.1 + y.1)%Z, join_ids x.2 y.2)) pl_start pl_end
                 (λ p, (pl_units p, pl_id p)) plans).

(** [expected_subitems] is given; the windows come with their profile. *)
Definition intersect_different_subitem_plan (windows : list (string * window)) (expected : nat) : list window :=
  let how (x y : Z * string * gset string) := (Z.min x.1.1 y.1.1, join_ids x.1.2 y.1.2, x.2 ∪ y.2) in
  (λ item : Z * Z * (Z * string * gset string),
     mkWindow item.1.1 item.1.2 item.2.1.1 (split_on "/" item.2.1.2) (Some item.2.1.2) "available")
  <$> List.filter (λ item : Z * Z * (Z * string * gset string), (expected <=? size item.2.2)%nat)
        (P_items (P_fill how (λ sw : string * window, w_start sw.2) (λ sw : string * window, w_end sw.2)
           (λ sw : string * window, (w_units sw.2, default "" (w_id sw.2), {[ sw.1 ]})) windows)).

(** [_parse_booking_window_bound]: a value that is not a text is a [TypeError]. *)
Definition _parse_booking_window_bound (b : bound) : res (option Z) :=
  match b with
  | NoBound => Ok None
  | DateText s => t ← strptime s; Ok (Some t)
  | DateTime _ => Raise TypeError
  end.

(** The query of the two lists of bookings; the index is on the whole list of profiles. *)
Definition bookings_query (displaced : Z → Z → bool) (prio : list (string * Z)) (reservables : list (string * list string))
    (from_date to_date : bound) (skip : option string) (l : list booking) : res (list booking) :=
  upper ← _parse_booking_window_bound to_date;
  lower ← _parse_booking_window_bound from_date;
  foldl (λ acc (ks : string * string), acc ← acc;
    match assoc ks.2 prio with
    | None => Raise KeyError
    | Some x =>
        Ok (acc ++ List.filter (λ b, bool_decide (assoc ks.1 (bk_reservables b) = Some [ks.2])
             && match upper with Some u => (bk_start b <=? u)%Z | None => true end
             && match lower with Some t => (t <=? bk_end b)%Z | None => true end
             && match skip with Some id => negb (bk_id b =? id)%string | None => true end
             && existsb (λ p, displaced (bp_priority p) x) (bk_plans b)) l)
    end) (Ok []) (concat ((λ kv : string * list string, (λ s, (kv.1, s)) <$> kv.2) <$> reservables)).

Definition get_overridable_bookings := bookings_query Z.ltb.
Definition get_nonoverridable_bookings := bookings_query (λ a b, b <=? a)%Z.

(** The units of a window, and those of the bookings on it. *)
Record cell := mkCell { c_id : string; c_units : Z; c_nonoverridable : Z; c_overridable : Z }.

Definition nonoverridable_op (x y : cell) : cell :=
  mkCell (join_ids (c_id x) (c_id y)) (c_units x) (c_nonoverridable x + c_units y) (c_overridable x).
Definition overridable_op (x y : cell) : cell :=
  mkCell (join_ids (c_id x) (c_id y)) (c_units x) (c_nonoverridable x) (c_overridable x + c_units y).

Definition window_cell (w : window) : cell := mkCell (default "" (w_id w)) (w_units w) 0 0.
Definition booking_cell (b : booking) : cell := mkCell (bk_id b) (bk_units b) 0 0.

(** [convert_plans_to_portions], with what is kept of a window *)
Definition convert_plans_to_portions {V} (val : window → V) (windows : list window) : idict V :=
  foldl (λ d w, P_assign (w_start w) (w_end w) (val w) d) P_empty windows.

Definition add_cells (op : cell → cell → cell) (l : list booking) (d : idict cell) : idict cell :=
  foldl (λ d b, P_combine op d (P_closed (bk_start b) (bk_end b) (booking_cell b))) d l.

Definition event_of (units : Z) (c : cell) : string :=
  let free := (c_units c - c_nonoverridable c)%Z in
  if (free <? units)%Z then "unavailable"
  else if (free - c_overridable c <? units)%Z then "overridable" else "available".

Definition compute_overridable_bookings (overridable nonoverridable : list booking) (windows : list window) (units : Z) : list window :=
  (λ item : Z * Z * cell,
     mkWindow item.1.1 item.1.2 (c_units item.2 - c_nonoverridable item.2) (split_on "/" (c_id item.2)) None
       (event_of units item.2))
  <$> P_items (add_cells overridable_op overridable
                 (add_cells nonoverridable_op nonoverridable (convert_plans_to_portions window_cell windows))).

(** The comparisons of the query in [remove_existing_item_bookings]: the database
    orders every time before every text. *)
Definition time_before (t : Z) (b : bound) : bool :=
  match b with DateTime u => (t <? u)%Z | DateText _ => true | NoBound => true end.
Definition time_after (t : Z) (b : bound) : bool :=
  match b with DateTime u => (u <? t)%Z | DateText _ => false | NoBound => true end.

Definition own_bookings (item_id : string) (start stop : bound) (l : list booking) : list booking :=
  List.filter (λ b, (bk_item_id b =? item_id)%string
    && match stop with NoBound => true | _ => time_before (bk_start b) stop && time_after (bk_end b) start end) l.

(** A window of the calendar, a booking outside of it, or both. *)
Inductive occupancy := OfWindow (w : window) | OfBooking | Occupied.

Definition remove_existing_item_bookings (now : Z) (windows : list window) (item_id : string) (start stop : bound)
    (l : list booking) : list window :=
  let start := match start with NoBound => DateTime now | _ => start end in
  let d := foldl (λ d b, P_combine (λ _ _, Occupied) d (P_closed (bk_start b) (bk_end b) OfBooking))
             (convert_plans_to_portions OfWindow windows) (own_bookings item_id start stop l) in
  omap (λ item : Z * Z * occupancy, match item.2 with OfWindow w => Some w | _ => None end) (P_items d).

(** A slot of the answer; the units are [-1] or [Enough]. *)
Record slot := mkSlot { s_start : Z; s_end : Z; s_enough : bool; s_event : string }.

Definition join_consecutive_plans (windows : list window) : list slot :=
  let how (x y : string) := if (x =? y)%string then x else y in
  (λ item : Z * Z * string, mkSlot item.1.1 item.1.2 (negb (item.2 =? "unavailable")%string) item.2)
  <$> P_items (foldl (λ d w, P_combine how d (P_closedopen (w_start w) (w_end w) (w_event w))) P_empty windows).

Definition booking_provisioning (e : env) (p : payload) (item : option (string * string))
    (reservables : list (string * list string)) (units : Z) (prio : priorities) (from_date to_date : bound)
    (skip : option string) (db : tables) : res (list slot) :=
  let planned := foldl (λ d subitem,
    dict_set subitem (intersect_same_subitem_plan
      (filter_gpu_plans_by_category e p (get_subitems_planning (e_now e) subitem (resource_planner db))) subitem) d)
    [] (profiles reservables) in
  windows ← match planned with
            | [] => Raise IndexError
            | [(_, ws)] => Ok ws
            | _ => Ok (intersect_different_subitem_plan
                         (concat ((λ kv : string * list window, (λ w, (kv.1, w)) <$> kv.2) <$> planned)) (length planned))
            end;
  overridable ← get_overridable_bookings (pr_priority prio) reservables from_date to_date skip (bookings db);
  nonoverridable ← get_nonoverridable_bookings (pr_priority prio) reservables from_date to_date skip (bookings db);
  let windows := compute_overridable_bookings overridable nonoverridable windows units in
  let windows := match item with
                 | Some (_, item_id) => remove_existing_item_bookings (e_now e) windows item_id from_date to_date (bookings db)
                 | None => windows
                 end in
  Ok (join_consecutive_plans windows).

Definition get_item_availability (e : env) (p : payload) (item_type item_id : string) (row : item_row)
    (from_date to_date : string) (return_unavailable : bool) (db : tables) : res (list slot) :=
  '(reservables, units) ← _get_reservables row;
  prio ← payload_priority e p reservables;
  slots ← booking_provisioning e p (Some (item_type, item_id)) reservables units prio
            (DateText from_date) (DateText to_date) None db;
  Ok (List.filter (λ s, return_unavailable || negb (s_event s =? "unavailable")%string) slots).

(** ** Moving a booking; [fits] is the test of one interval in the slots. *)
Context (fits : list slot → Z → Z → bool).

Definition existing_booking_update_fits (e : env) (p : payload) (b : booking) (start stop : Z) (db : tables) : res bool :=
  prio ← payload_priority e p (bk_reservables b);
  slots ← booking_provisioning e p (Some (bk_item_type b, bk_item_id b)) (bk_reservables b) (bk_units b) prio
            (DateTime start) (DateTime stop) (Some (bk_id b)) db;
  Ok (fits slots start stop).

Definition update_lock_keys (b : booking) : list string :=
  concat ((λ kv : string * list string, (λ s, "bookings:capacity:" +:+ kv.1 +:+ ":" +:+ s) <$> kv.2) <$> bk_reservables b).

Definition moved (start stop : Z) (b : booking) : booking :=
  mkBooking (bk_id b) (bk_item_type b) (bk_item_id b) (bk_units b) (bk_reservables b) start stop (bk_user_id b) (bk_plans b).

Definition update (e : env) (p : payload) (booking_id start stop : string) (db : tables) : tables * res () :=
  match List.find (λ b, (bk_id b =? booking_id)%string) (bookings db) with
  | None => (db, Raise (ApiError "not_found" "not_found"))
  | Some b =>
      match (s ← strptime start; t ← strptime stop; ok ← existing_booking_update_fits e p b s t db; Ok (s, t, ok)) with
      | Raise x => (db, Raise x)
      | Ok (_, _, false) => (db, Raise (ApiError "conflict" "booking_does_not_fit_date"))
      | Ok (s, t, true) =>
          (set_bookings db ((λ c, if (bk_id c =? booking_id)%string then moved s t c else c) <$> bookings db), Ok ())
      end
  end.
End calendar.

(** ** Units booked at a moment *)
Definition covers_at (t : Q) (s : share) : bool := inside s.1.1 s.1.2 t.
Definition load (l : list share) (t : Q) : Z := sum_by snd (List.filter (covers_at t) l).
Definition positive (l : list share) : Prop := Forall (λ s : share, 0 ≤ s.2)%Z l.

Lemma load_app l k t : load (l ++ k) t = (load l t + load k t)%Z.
Proof. unfold load. by rewrite List.filter_app, sum_by_app. Qed.

Lemma load_nonneg l t : positive l → (0 ≤ load l t)%Z.
Proof. unfold load. induction 1 as [|s l Hs _ IH]; simpl; [lia|]. destruct (covers_at t s); simpl; lia. Qed.

(** A moment covered by everything that covers another one is at least as loaded. *)
Lemma load_mono l t u :
  positive l → (∀ s, s ∈ l → covers_at t s = true → covers_at u s = true) → (load l t ≤ load l u)%Z.
Proof.
  unfold load. induction 1 as [|s l Hs _ IH]; intros H; simpl; [lia|].
  assert (IH' : (sum_by snd (List.filter (covers_at t) l) ≤ sum_by snd (List.filter (covers_at u) l))%Z)
    by (apply IH; intros x Hx; apply H; by right).
  specialize (H s ltac:(left)). destruct (covers_at t s); simpl.
  - rewrite H by done. simpl. lia.
  - destruct (covers_at u s); simpl; lia.
Qed.

Lemma py_max0_le l x : x ∈ l → (x ≤ py_max0 l)%Z.
Proof.
  destruct l as [|y l]; [set_solver|]. unfold py_max0.
  revert x y. induction l as [|z l IH]; intros x y; simpl; [by intros ->%list_elem_of_singleton|].
  intros Hx. assert (H : (x ≤ Z.max y z)%Z ∨ x ∈ l).
  { apply elem_of_cons in Hx as [->|[->|Hx]%elem_of_cons]; [left; lia|left; lia|by right]. }
  destruct H as [H|H]; [|apply IH; by right]. etrans; [exact H|]. apply IH. left.
Qed.

Lemma py_max0_in l : l ≠ [] → py_max0 l ∈ l.
Proof.
  destruct l as [|y l]; [done|]. intros _. unfold py_max0. revert y. induction l as [|z l IH]; intros y; simpl; [left|].
  specialize (IH (Z.max y z)). apply elem_of_cons in IH as [->|IH]; [|right; by right].
  destruct (Z.max_spec y z) as [[_ ->]|[_ ->]]; [right; left|left].
Qed.

Lemma foldl_add x (l : list share) : foldl (λ v s, (v + s.2)%Z) x l = (x + sum_by snd l)%Z.
Proof. revert x. induction l as [|s l IH]; intros x; simpl; [lia|]. rewrite IH. lia. Qed.

Section peak.
Context `{PO : Portion}.

Lemma get_load (l : list share) t :
  P_get (P_fill Z.add (λ s : share, s.1.1) (λ s : share, s.1.2) (λ s : share, s.2) l) t
  = if bool_decide (List.filter (covers_at t) l = []) then None else Some (load l t).
Proof.
  rewrite get_fill. change (λ x : share, inside x.1.1 x.1.2 t) with (covers_at t). unfold load.
  destruct (List.filter (covers_at t) l) as [|s xs]; [done|]. by rewrite foldl_add.
Qed.

(** The peak is the largest load. *)
Lemma peak_bound l t : positive l → (load l t ≤ peak_units l)%Z.
Proof.
  intros Hl. unfold peak_units. pose proof (get_load l t) as Hg. set (d := P_fill _ _ _ _ l) in *.
  case_bool_decide as Hc.
  - assert (H0 : load l t = 0%Z) by (unfold load; by rewrite Hc). rewrite H0.
    destruct (snd <$> P_items d) as [|x xs] eqn:E; [done|]. rewrite <-E.
    assert (Hx : x ∈ snd <$> P_items d) by (rewrite E; left).
    etrans; [|by apply py_max0_le]. apply list_elem_of_fmap in Hx as ([[lo hi] v] & -> & Hin).
    apply items_reached in Hin as (u & _ & Hu). unfold d in Hu. rewrite get_load in Hu.
    case_bool_decide; [done|]. injection Hu as <-. by apply load_nonneg.
  - apply items_cover in Hg as (lo & hi & Hin & _). apply py_max0_le, list_elem_of_fmap. by exists (lo, hi, load l t).
Qed.

Lemma peak_reached l : ∃ t, load l t = peak_units l.
Proof.
  unfold peak_units. set (d := P_fill _ _ _ _ l). destruct (decide (P_items d = [])) as [E|E].
  - exists 0%Q. rewrite E. simpl. pose proof (get_load l 0) as Hg. case_bool_decide as Hc; [unfold load; by rewrite Hc|].
    apply items_cover in Hg as (lo & hi & Hin & _). fold d in Hin. rewrite E in Hin. set_solver.
  - assert (Hin : py_max0 (snd <$> P_items d) ∈ snd <$> P_items d) by (apply py_max0_in; by destruct (P_items d)).
    apply list_elem_of_fmap in Hin as ([[lo hi] v] & He & Hin). apply items_reached in Hin as (t & _ & Ht).
    unfold d in Ht. rewrite get_load in Ht. case_bool_decide; [done|]. injection Ht as Ht. exists t. rewrite Ht. done.
Qed.

(** When everything overlaps a window, the peak is reached in the window. *)
Lemma peak_in_window l start stop :
  (start ≤ stop)%Z → positive l → Forall (λ s : share, s.1.1 ≤ stop ∧ start ≤ s.1.2)%Z l →
  ∃ t, inside start stop t = true ∧ load l t = peak_units l.
Proof.
  intros Hw Hpos Hall. destruct (peak_reached l) as [t Ht]. rewrite Forall_forall in Hall.
  assert (Hmove : ∀ u, inside start stop u = true →
     (∀ s, s ∈ l → covers_at t s = true → covers_at u s = true) →
     ∃ u, inside start stop u = true ∧ load l u = peak_units l).
  { intros u Hu Hc. exists u. split; [done|]. pose proof (load_mono l t u Hpos Hc). pose proof (peak_bound l u Hpos). lia. }
  assert (Hin : ∀ z : Z, (start ≤ z ≤ stop)%Z → inside start stop (inject_Z z) = true).
  { intros z Hz. unfold inside. rewrite andb_true_iff, !Qle_bool_iff, <-!Zle_Qle. lia. }
  destruct (Qlt_le_dec t (inject_Z start)) as [Hlo|Hlo].
  { apply (Hmove (inject_Z start)); [apply Hin; lia|]. intros s Hs. unfold covers_at, inside.
    rewrite !andb_true_iff, !Qle_bool_iff. intros [H1 _]. split; [|rewrite <-Zle_Qle; by apply Hall].
    eapply Qle_trans; [exact H1|by apply Qlt_le_weak]. }
  destruct (Qlt_le_dec (inject_Z stop) t) as [Hhi|Hhi].
  { apply (Hmove (inject_Z stop)); [apply Hin; lia|]. intros s Hs. unfold covers_at, inside.
    rewrite !andb_true_iff, !Qle_bool_iff. intros [_ H2]. split; [rewrite <-Zle_Qle; by apply Hall|].
    eapply Qle_trans; [by apply Qlt_le_weak|exact H2]. }
  exists t. split; [|done]. unfold inside. by rewrite andb_true_iff, !Qle_bool_iff.
Qed.
End peak.

(** ** What a request may not displace *)

(** The bookings of a profile on a plan that a request of this priority respects. *)
Definition respects (plan_id subitem_id : string) (priority : Z) (b : booking) : bool :=
  mem subitem_id (vgpus_of b) && on_plan plan_id b && existsb (λ p, priority <=? bp_priority p)%Z (bk_plans b).

(** The units they hold of the plan at a moment. *)
Definition reserved (plan_id subitem_id : string) (priority : Z) (l : list booking) (t : Q) : Z :=
  load (current_plans plan_id (List.filter (respects plan_id subitem_id priority) l)) t.

Definition booking_ok (b : booking) : Prop := Forall (λ p, 0 ≤ units_booked b p)%Z (bk_plans b).

Lemma current_plans_cons plan_id b l : current_plans plan_id (b :: l) = shares_of plan_id b ++ current_plans plan_id l.
Proof. done. Qed.

Lemma current_plans_app plan_id l k : current_plans plan_id (l ++ k) = current_plans plan_id l ++ current_plans plan_id k.
Proof. unfold current_plans. by rewrite fmap_app, concat_app. Qed.

Lemma shares_of_spec plan_id b s :
  s ∈ shares_of plan_id b → s.1 = (bk_start b, bk_end b) ∧ ∃ p, p ∈ bk_plans b ∧ s.2 = units_booked b p.
Proof.
  intros (p & -> & Hp)%list_elem_of_fmap. apply list_elem_of_In, filter_In in Hp as [Hp _]. split; [done|].
  exists p. by rewrite list_elem_of_In.
Qed.

Lemma current_plans_positive plan_id l : Forall booking_ok l → positive (current_plans plan_id l).
Proof.
  induction 1 as [|b l Hb _ IH]; [constructor|]. rewrite current_plans_cons. apply Forall_app. split; [|done].
  apply Forall_forall. intros s (_ & p & Hp & ->)%shares_of_spec. unfold booking_ok in Hb. rewrite Forall_forall in Hb. by apply Hb.
Qed.

(** Only the bookings that overlap the window count in it. *)
Lemma reserved_window plan_id subitem priority start stop l t :
  inside start stop t = true →
  load (current_plans plan_id (nonoverridable_on plan_id subitem priority start stop l)) t
  = reserved plan_id subitem priority l t.
Proof.
  intros Ht. unfold reserved, nonoverridable_on.
  induction l as [|b l IH]; simpl; [done|]. unfold respects at 1.
  destruct (mem subitem (vgpus_of b)) eqn:E1, (on_plan plan_id b) eqn:E2,
    (existsb (λ p, priority <=? bp_priority p)%Z (bk_plans b)) eqn:E3; simpl; rewrite ?andb_false_r; simpl; try done.
  rewrite !andb_true_r. destruct ((bk_start b <=? stop)%Z && (start <=? bk_end b)%Z) eqn:E4; simpl.
  - rewrite !current_plans_cons, !load_app. by rewrite IH.
  - rewrite IH, current_plans_cons, load_app.
    assert (H0 : load (shares_of plan_id b) t = 0%Z); [|lia]. unfold load.
    assert (Hno : List.filter (covers_at t) (shares_of plan_id b) = []); [|by rewrite Hno].
    destruct (List.filter (covers_at t) (shares_of plan_id b)) as [|s xs] eqn:Ef; [done|]. exfalso.
    assert (Hs : In s (List.filter (covers_at t) (shares_of plan_id b))) by (rewrite Ef; by left).
    apply filter_In in Hs as [Hs Hc].
    apply list_elem_of_In, shares_of_spec in Hs as [Hs _]. unfold covers_at in Hc. rewrite Hs in Hc. simpl in Hc.
    unfold inside in Hc, Ht. rewrite andb_true_iff, !Qle_bool_iff in Hc, Ht.
    apply andb_false_iff in E4 as [E4|E4]; simp_bool.
    + apply (Qlt_not_le (inject_Z stop) (inject_Z (bk_start b))); [by rewrite <-Zlt_Qlt|].
      eapply Qle_trans; [apply Hc|apply Ht].
    + apply (Qlt_not_le (inject_Z (bk_end b)) (inject_Z start)); [by rewrite <-Zlt_Qlt|].
      eapply Qle_trans; [apply Ht|apply Hc].
Qed.

Section fit.
Context `{PO : Portion}.

(** [k] is the largest number of units reserved in the window. *)
Definition is_peak (plan_id subitem : string) (priority start stop : Z) (l : list booking) (k : Z) : Prop :=
  (∀ t, inside start stop t = true → reserved plan_id subitem priority l t ≤ k)%Z
  ∧ ∃ t, inside start stop t = true ∧ reserved plan_id subitem priority l t = k.

Lemma count_is_peak plan_id subitem priority start stop l :
  (start ≤ stop)%Z → Forall booking_ok l →
  is_peak plan_id subitem priority start stop l (count_non_overridable_bookings plan_id subitem priority start stop l).
Proof.
  intros Hw Hok. unfold count_non_overridable_bookings.
  set (bs := nonoverridable_on plan_id subitem priority start stop l).
  assert (Hbs : ∀ b, b ∈ bs → b ∈ l ∧ (bk_start b ≤ stop ∧ start ≤ bk_end b)%Z).
  { intros b Hb. apply list_elem_of_In, filter_In in Hb as [Hb Hf]. simp_bool. split; [by apply list_elem_of_In|done]. }
  assert (Hpos : positive (current_plans plan_id bs)).
  { apply current_plans_positive, Forall_forall. intros b [Hb _]%Hbs. rewrite Forall_forall in Hok. by apply Hok. }
  assert (Hcount : match bs with [] => 0%Z | b :: l0 => peak_units (current_plans plan_id (b :: l0)) end
                   = peak_units (current_plans plan_id bs)).
  { destruct bs; [|done]. destruct (peak_reached (current_plans plan_id [])) as [t <-]. done. }
  rewrite Hcount. split.
  - intros t Ht. rewrite <-(reserved_window _ _ _ start stop) by done. by apply peak_bound.
  - destruct (peak_in_window (current_plans plan_id bs) start stop Hw Hpos) as (t & Ht & He).
    + apply Forall_forall. intros s Hs. unfold current_plans in Hs.
      apply list_elem_of_In, in_concat in Hs as (x & Hx & Hs). apply list_elem_of_In, list_elem_of_fmap in Hx as (b & -> & Hb).
      apply list_elem_of_In, shares_of_spec in Hs as [-> _]. simpl. by apply Hbs.
    + exists t. split; [done|]. by rewrite <-He, <-(reserved_window _ _ _ start stop).
Qed.

(** The greedy loop takes what it can: it fails exactly when the plans together have too little. *)
Lemma assign_units_spec avail remaining plans :
  (0 < remaining)%Z →
  let '(out, rest) := assign_units avail remaining plans in
  let total := sum_by (λ p, Z.max 0 (avail p)) plans in
  (0 < rest ↔ total < remaining)%Z ∧ (0 ≤ rest)%Z ∧ (sum_by snd out + rest = remaining)%Z
  ∧ Forall (λ pu : plan * Z, pu.1 ∈ plans ∧ 0 < pu.2 ≤ avail pu.1)%Z out.
Proof.
  revert remaining. induction plans as [|p plans IH]; intros remaining Hr; simpl; [split; [lia|split; [lia|split; [lia|constructor]]]|].
  destruct (Z.ltb_spec 0 (avail p)) as [Ha|Ha].
  - destruct (Z.ltb_spec 0 (remaining - avail p)) as [Hlt|Hge].
    + specialize (IH (remaining - avail p)%Z Hlt). destruct (assign_units _ _ plans) as [out rest]. simpl.
      destruct IH as (H1 & H2 & H3 & H4). split; [lia|]. split; [lia|]. split; [lia|]. constructor; [simpl; split; [left|lia]|].
      eapply Forall_impl; [exact H4|]. simpl. intros q [Hq ?]. split; [by right|done].
    + assert (0 ≤ sum_by (λ p, Z.max 0 (avail p)) plans)%Z by (clear; induction plans; simpl; lia).
      simpl. split; [lia|]. split; [lia|]. split; [lia|]. constructor; [|constructor]. simpl. split; [left|lia].
  - specialize (IH remaining Hr). destruct (assign_units _ _ plans) as [out rest]. destruct IH as (H1 & H2 & H3 & H4).
    split; [lia|]. split; [lia|]. split; [lia|]. eapply Forall_impl; [exact H4|]. simpl. intros q [Hq ?]. split; [by right|done].
Qed.
End fit.

(** What the plans that contain the window have left is at least the units of the answer. *)
Lemma desktop_choice `{PO : Portion} avail plans :
  let out := match List.find (λ p, (0 <=? avail p - 1)%Z) plans with Some p => [(p, 1%Z)] | None => [] end in
  (out = [] ↔ sum_by (λ p : plan, Z.max 0 (avail p)) plans < 1)%Z ∧ (out ≠ [] → sum_by snd out = 1%Z)
  ∧ Forall (λ pu : plan * Z, pu.1 ∈ plans ∧ 0 < pu.2 ≤ avail pu.1)%Z out.
Proof.
  assert (Hnn : ∀ plans : list plan, (0 ≤ sum_by (λ p, Z.max 0 (avail p)) plans)%Z) by (intros l; induction l; simpl; lia).
  cbv zeta. destruct (List.find _ plans) as [p|] eqn:E.
  - apply find_Some_split in E as (l1 & l2 & -> & Hp & _). simp_bool. rewrite sum_by_app. simpl.
    pose proof (Hnn l1). pose proof (Hnn l2). split; [split; [done|lia]|]. split; [done|].
    constructor; [|constructor]. simpl. split; [set_solver|lia].
  - apply find_None_Forall in E. split; [|split; [done|constructor]]. split; [|done]. intros _.
    induction E as [|p l Hp _ IH]; simpl; [lia|]. simp_bool. lia.
Qed.

(** The two loops choose within what is available. *)
Lemma same_plans_spec `{PO : Portion} plans subitem priority start stop units l :
  let fitting := List.filter (window_fits start stop) plans in
  let avail := available_in subitem priority start stop l in
  let out := get_same_plans_for_booking plans subitem priority start stop units l in
  (out = [] ↔ sum_by (λ p, Z.max 0 (avail p)) fitting < Z.max 1 units)%Z
  ∧ (out ≠ [] → sum_by snd out = Z.max 1 units)
  ∧ Forall (λ pu : plan * Z, pu.1 ∈ fitting ∧ 0 < pu.2 ≤ avail pu.1)%Z out.
Proof.
  cbv zeta. unfold get_same_plans_for_booking. set (fitting := List.filter _ plans). set (avail := available_in _ _ _ _ _).
  destruct (Z.ltb_spec 1 units) as [Hu|Hu].
  - pose proof (assign_units_spec avail units fitting ltac:(lia)) as H. destruct (assign_units _ _ _) as [out rest].
    destruct H as (H1 & H2 & H3 & H4). rewrite Z.max_r by lia. destruct (Z.ltb_spec 0 rest) as [Hr|Hr].
    + split; [split; [|done]; intros _; by apply H1|]. split; [done|constructor].
    + assert (Hr0 : rest = 0%Z) by lia. split; [|split; [lia|done]]. split.
      * intros ->. simpl in H3. lia.
      * intros Hlt. apply H1 in Hlt. lia.
  - rewrite Z.max_l by lia. apply desktop_choice.
Qed.

(** ** The properties *)

(** C13: [get_same_plans_for_booking], for one profile and a window that does not end before it
    starts, over bookings whose shares are not negative, answers exactly right. It finds no
    plans precisely when the given plans that contain the window, each less the largest
    number of units that bookings of the profile which the new one may not displace (those
    of the same or a higher priority) reserve on it at one moment of the window, have fewer
    units left than are asked for (at least one). Otherwise it places all the units, on
    plans that contain the window, and at no moment of it do the units of those bookings and
    the new ones exceed a plan. Bookings of a lower priority are not counted and may stay on
    the plan; the other reasons [add] has to refuse a booking are not part of this function. *)
Theorem chosen_plans_fit `{PO : Portion} plans subitem priority start stop units l :
  (start ≤ stop)%Z → Forall booking_ok l →
  let out := get_same_plans_for_booking plans subitem priority start stop units l in
  ∃ peak : plan → Z,
    (∀ p, is_peak (pl_id p) subitem priority start stop l (peak p))
    ∧ (out = [] ↔ sum_by (λ p, Z.max 0 (pl_units p - peak p)) (List.filter (window_fits start stop) plans)
                  < Z.max 1 units)%Z
    ∧ (out ≠ [] → sum_by snd out = Z.max 1 units)
    ∧ Forall (λ pu : plan * Z,
        pu.1 ∈ plans ∧ pl_start pu.1 ≤ start ∧ stop ≤ pl_end pu.1 ∧ 0 < pu.2
        ∧ ∀ t, inside start stop t = true → reserved (pl_id pu.1) subitem priority l t + pu.2 ≤ pl_units pu.1)%Z out.
Proof.
  intros Hw Hok. cbv zeta.
  exists (λ p, count_non_overridable_bookings (pl_id p) subitem priority start stop l).
  pose proof (λ p : plan, count_is_peak (pl_id p) subitem priority start stop l Hw Hok) as Hpeak.
  destruct (same_plans_spec plans subitem priority start stop units l) as (H1 & H2 & H3).
  split; [done|]. split; [done|]. split; [done|]. eapply Forall_impl; [exact H3|]. simpl.
  intros [p u] [Hp [Hu Ha]]. simpl in *. apply list_elem_of_In, filter_In in Hp as [Hp Hwin].
  unfold window_fits in Hwin. destruct (Z.ltb_spec stop start); [lia|]. simpl in Hwin. simp_bool.
  split; [by apply list_elem_of_In|]. split; [done|]. split; [done|]. split; [done|].
  intros t Ht. unfold available_in in Ha. pose proof (proj1 (Hpeak p) t Ht). lia.
Qed.

(** A plan of two units with one booked from 2 to 4 and one from 6 to 8: a booking from
    3 to 7 fits, one of two units does not. *)
Definition plan_of_two : plan := mkPlan "p1" "gpus" "card-1" "1Q" 2 0 10.
Definition booked_from (id : string) (start stop : Z) : booking :=
  mkBooking id "desktop" id 1 [("vgpus", ["1Q"])] start stop "user-1" [mkBooked "p1" "card-1" "1Q" 10 (Some 1%Z)].
Definition two_booked : list booking := [booked_from "b1" 2 4; booked_from "b2" 6 8].

Lemma chosen_plans_fit_witness :
  get_same_plans_for_booking [plan_of_two] "1Q" 10 3 7 2 two_booked = []
  ∧ Forall (λ pu : plan * Z, ∀ t, inside 3 7 t = true → reserved (pl_id pu.1) "1Q" 10 two_booked t + pu.2 ≤ pl_units pu.1)%Z
      (get_same_plans_for_booking [plan_of_two] "1Q" 10 3 7 1 two_booked).
Proof.
  split; [by vm_compute|].
  destruct (chosen_plans_fit [plan_of_two] "1Q" 10 3 7 1 two_booked ltac:(lia)
    ltac:(repeat constructor; by vm_compute)) as (peak & _ & _ & _ & H).
  eapply Forall_impl; [exact H|]. intros pu (_ & _ & _ & _ & Ht). exact Ht.
Defined.

(** ** Deleting a booking; [stopped] tells the desktops that are stopped or failed. *)
Definition in_progress (now : Z) (b : booking) : bool := (bk_start b <=? now)%Z && (now <=? bk_end b)%Z.

Definition delete (now : Z) (stopped : string → bool) (booking_id : string) (db : tables) : tables * res () :=
  match List.find (λ b, (bk_id b =? booking_id)%string) (bookings db) with
  | None => (db, Raise (ApiError "not_found" "not_found"))
  | Some b =>
      let without := List.filter (λ c, negb (bk_id c =? booking_id)%string) (bookings db) in
      let clear := (λ d, if is_target b d then mkDomain (dm_id d) (dm_tag d) None else d) <$> domains db in
      if in_progress now b
      then if (bk_item_type b =? "desktop")%string
           then if stopped (bk_item_id b) then (mkTables (resource_planner db) without clear, Ok ())
                else (db, Raise (ApiError "precondition_required" "booking_desktop_delete_stop"))
           else if (bk_item_type b =? "deployment")%string
           then if forallb (λ d, negb (is_target b d) || stopped (dm_id d)) (domains db)
                then (mkTables (resource_planner db) without clear, Ok ())
                else (db, Raise (ApiError "precondition_required" "booking_deployment_delete_stop"))
           else (set_bookings db without, Ok ())
      else (set_bookings db without, Ok ())
  end.

(** ** Capacity over time *)
Record capacity_ok (priority : Z) (db : tables) : Prop := {
  co_ids : NoDup (pl_id <$> resource_planner db);
  co_units p : p ∈ resource_planner db → (0 ≤ pl_units p)%Z;
  co_bookings b q : b ∈ bookings db → q ∈ bk_plans b →
    bp_priority q = priority ∧ (∃ u, bp_units_booked q = Some u ∧ (0 < u)%Z)
    ∧ ∀ p, p ∈ resource_planner db → pl_id p = bp_plan_id q → pl_subitem_id p ∈ vgpus_of b;
  co_load p t : p ∈ resource_planner db → (load (current_plans (pl_id p) (bookings db)) t ≤ pl_units p)%Z;
}.

Lemma shares_of_off plan_id b : on_plan plan_id b = false → shares_of plan_id b = [].
Proof.
  unfold on_plan, shares_of. intros H. induction (bk_plans b) as [|p l IH]; simpl in *; [done|].
  apply orb_false_iff in H as [-> H]. by apply IH.
Qed.

(** With one priority everything on a plan is reserved. *)
Lemma reserved_all priority db p t :
  capacity_ok priority db → p ∈ resource_planner db →
  reserved (pl_id p) (pl_subitem_id p) priority (bookings db) t = load (current_plans (pl_id p) (bookings db)) t.
Proof.
  intros Hok Hp. unfold reserved. pose proof (co_bookings _ _ Hok) as Hb.
  assert (Hsub : ∀ b, b ∈ bookings db → b ∈ bookings db) by done. revert Hsub.
  generalize (bookings db) at 1 3 4 as l. induction l as [|b l IH]; intros Hsub; [done|]. simpl List.filter.
  assert (IH' := IH ltac:(intros c Hc; apply Hsub; by right)). rewrite (current_plans_cons _ b l), load_app.
  unfold respects at 1. destruct (on_plan (pl_id p) b) eqn:E.
  - apply existsb_exists in E as (q & Hq & He). simp_bool. apply list_elem_of_In in Hq.
    destruct (Hb b q (Hsub b ltac:(left)) Hq) as (Hpr & _ & Hsubitem).
    assert (Hm : mem (pl_subitem_id p) (vgpus_of b) = true) by (apply mem_spec, Hsubitem; done).
    assert (Hx : existsb (λ p, priority <=? bp_priority p)%Z (bk_plans b) = true).
    { apply existsb_exists. exists q. split; [by apply list_elem_of_In|]. rewrite Hpr. apply Z.leb_refl. }
    rewrite Hm, Hx. simpl. by rewrite current_plans_cons, load_app, IH'.
  - rewrite andb_false_r. simpl. rewrite IH', (shares_of_off _ _ E). done.
Qed.

Lemma capacity_bookings_ok priority db : capacity_ok priority db → Forall booking_ok (bookings db).
Proof.
  intros Hok. apply Forall_forall. intros b Hb. apply Forall_forall. intros q Hq.
  destruct (co_bookings _ _ Hok b q Hb Hq) as (_ & (u & Hu & Hpos) & _). unfold units_booked. rewrite Hu.
  destruct (Z.eqb_spec u 0); lia.
Qed.

Lemma load_filter (f : booking → bool) plan_id l t :
  Forall booking_ok l → (load (current_plans plan_id (List.filter f l)) t ≤ load (current_plans plan_id l) t)%Z.
Proof.
  induction 1 as [|b l Hb Hl IH]; simpl; [done|]. rewrite (current_plans_cons _ b l), load_app.
  assert (0 ≤ load (shares_of plan_id b) t)%Z.
  { pose proof (current_plans_positive plan_id [b] ltac:(by constructor)) as H. rewrite current_plans_cons in H.
    apply Forall_app in H as [H _]. by apply load_nonneg. }
  destruct (f b); [rewrite current_plans_cons, load_app|]; lia.
Qed.

(** Rows that are deleted keep the rest as it is. *)
Lemma capacity_filter priority db (f : booking → bool) (g : plan → bool) doms :
  capacity_ok priority db →
  capacity_ok priority (mkTables (List.filter g (resource_planner db)) (List.filter f (bookings db)) doms).
Proof.
  intros Hok. pose proof (capacity_bookings_ok _ _ Hok) as Hbs.
  assert (Hp : ∀ p, p ∈ List.filter g (resource_planner db) → p ∈ resource_planner db).
  { intros p H. apply list_elem_of_In, filter_In in H as [H _]. by apply list_elem_of_In. }
  split; simpl.
  - pose proof (co_ids _ _ Hok) as Hids. clear -Hids. induction (resource_planner db) as [|x l IH]; simpl; [done|].
    simpl in Hids. apply NoDup_cons in Hids as [Hn Hnd]. destruct (g x); simpl; [|by apply IH]. apply NoDup_cons.
    split; [|by apply IH]. intros (y & Hy & Hin)%list_elem_of_fmap. apply Hn. rewrite Hy. apply list_elem_of_fmap.
    exists y. split; [done|]. apply list_elem_of_In, filter_In in Hin as [Hin _]. by apply list_elem_of_In.
  - intros p Hin%Hp. by apply (co_units _ _ Hok).
  - intros b q Hb Hq. apply list_elem_of_In, filter_In in Hb as [Hb _]. apply list_elem_of_In in Hb.
    destruct (co_bookings _ _ Hok b q Hb Hq) as (H1 & H2 & H3). split_and!; [done|done|]. intros p Hin%Hp. by apply H3.
  - intros p t Hin%Hp. etrans; [by apply load_filter|]. by apply (co_load _ _ Hok).
Qed.

Lemma capacity_domains priority db doms : capacity_ok priority db → capacity_ok priority (set_domains db doms).
Proof. intros [H1 H2 H3 H4]. by split. Qed.

(** ** The plans of a new booking *)
Lemma dict_set_elem {A} k (v : A) d k' v' :
  (k', v') ∈ dict_set k v d → (k' = k ∧ v' = v) ∨ (k', v') ∈ d.
Proof.
  unfold dict_set. destruct (assoc k d).
  - intros ([k0 v0] & H & Hin)%list_elem_of_fmap. simpl in H. destruct (String.eqb_spec k0 k); simplify_eq; eauto.
  - intros [Hin|Hin%list_elem_of_singleton]%elem_of_app; [by right|left]. by simplify_eq.
Qed.

Lemma assoc_elem {A} k (d : list (string * A)) v : assoc k d = Some v → (k, v) ∈ d.
Proof.
  induction d as [|[k' v'] d IH]; simpl; [done|]. destruct (String.eqb_spec k k') as [->|].
  - intros [= ->]. left.
  - intros H. right. by apply IH.
Qed.

(** [foldl] in [res] keeps an invariant. *)
Lemma foldl_res {A B} (f : A → B → res A) (I : A → Prop) l a a' :
  I a → (∀ a b a', I a → b ∈ l → f a b = Ok a' → I a') →
  foldl (λ acc b, x ← acc; f x b) (Ok a) l = Ok a' → I a'.
Proof.
  revert a. induction l as [|b l IH]; intros a Ha Hf; simpl; [by intros [= <-]|].
  destruct (f a b) as [a1|e] eqn:E.
  - intros H. eapply IH; [|by intros x y z Hx Hy; apply Hf; [|right]|exact H]. eapply Hf; [done|left|done].
  - assert (Hr : foldl (λ acc b, x ← acc; f x b) (Raise e) l = Raise e) by (clear; induction l; simpl; auto).
    intros H. by rewrite Hr in H.
Qed.

Lemma payload_priority_spec e p reservables prio s x :
  payload_priority e p reservables = Ok prio → assoc s (pr_priority prio) = Some x → x = lm_priority (priority_of e p s).
Proof.
  intros H Hx. unfold payload_priority in H.
  destruct (foldl _ _ _) as [out|] eqn:E in H; [|done]. injection H as <-.
  set (I := λ o : option priorities, ∀ s x, (s, x) ∈ pr_priority (default (mkPriorities [] None) o) →
                x = lm_priority (priority_of e p s)).
  assert (HI : I out).
  { eapply (foldl_res (λ acc subitem, r ← most_restrictive_rule subitem (priority_of e p subitem) acc; Ok (Some r)) I);
      [|clear|exact E].
    - intros s' x'. simpl. set_solver.
    - intros acc b acc' Hacc _ Hb. destruct acc as [[d [[[f t] i]|]]|]; simpl in Hb; [| |].
      + destruct (py_min (lm_max_time _) _) as [t'|]; simpl in Hb; [|done].
        destruct (py_min (lm_max_items _) _) as [i'|]; simpl in Hb; [|done].
        injection Hb as <-. intros s' x' [[-> ->]|Hin]%dict_set_elem; [done|by apply Hacc].
      + done.
      + injection Hb as <-. intros s' x' [= -> ->]%list_elem_of_singleton. done. }
  apply HI, assoc_elem, Hx.
Qed.

Section booked.
Context `{PO : Portion}.

(** Every plan of the answer was chosen for one of the profiles. *)
Lemma new_booking_plans_spec e p reservables units start stop db plans :
  new_booking_plans e p reservables units start stop db = Ok plans →
  (∀ s l, (s, l) ∈ plans → s ∈ profiles reservables
     ∧ l = get_same_plans_for_booking (get_subitems_planning (e_now e) s (resource_planner db)) s
             (lm_priority (priority_of e p s)) start stop units (bookings db))
  ∧ NoDup ((λ pu : plan * Z, pl_item_id pu.1) <$> concat plans.*2).
Proof.
  intros H. unfold new_booking_plans in H. destruct (payload_priority e p reservables) as [prio|] eqn:Hprio; [|done].
  simpl in H. destruct (foldl _ _ _) as [all|] eqn:E in H; [|done]. simpl in H.
  set (I := λ d : list (string * list (plan * Z)), ∀ s l, (s, l) ∈ d → s ∈ profiles reservables
     ∧ l = get_same_plans_for_booking (get_subitems_planning (e_now e) s (resource_planner db)) s
             (lm_priority (priority_of e p s)) start stop units (bookings db)).
  assert (HI : I all).
  { eapply (foldl_res (λ acc subitem, match assoc subitem (pr_priority prio) with
      | None => Raise KeyError
      | Some priority => Ok (dict_set subitem (get_same_plans_for_booking
            (get_subitems_planning (e_now e) subitem (resource_planner db)) subitem priority start stop units (bookings db)) acc)
      end) I); [|clear E|exact E].
    - intros s l. set_solver.
    - intros acc b acc' Hacc Hb Hf. destruct (assoc b (pr_priority prio)) as [x|] eqn:Hx; [|done]. injection Hf as <-.
      intros s l [[-> ->]|Hin]%dict_set_elem; [|by apply Hacc].
      split; [done|]. by rewrite <-(payload_priority_spec e p reservables prio b x). }
  destruct (negb _); [injection H as <-; split; [set_solver|constructor]|].
  case_bool_decide as Hnd; injection H as <-; [|split; [set_solver|constructor]]. split; [|done].
  intros s l Hin. apply HI. apply list_elem_of_In, filter_In in Hin as [Hin _]. by apply list_elem_of_In.
Qed.

Lemma new_planning_spec by_subitem plans planning :
  new_planning by_subitem plans = Ok planning →
  ∃ pus, pus = concat plans.*2 ∧ length planning = length pus
    ∧ Forall2 (λ (q : booked_plan) (pu : plan * Z), bp_plan_id q = pl_id pu.1 ∧ bp_units_booked q = Some pu.2
        ∧ ∃ x, assoc (pl_subitem_id pu.1) by_subitem = Some x ∧ bp_priority q = x) planning pus.
Proof.
  unfold new_planning. intros H. exists (concat plans.*2). split; [done|]. revert planning H.
  induction (concat plans.*2) as [|pu l IH]; intros planning H; simpl in H; [injection H as <-; split; [done|constructor]|].
  destruct (foldr _ _ _) as [acc|] eqn:E in H; [|done]. simpl in H. destruct (assoc _ _) as [x|] eqn:Hx; [|done].
  injection H as <-. destruct (IH acc E) as [Hlen H2]. split; [simpl; lia|]. constructor; [|done]. simpl. eauto.
Qed.
End booked.

Section capacity.
Context `{PO : Portion}.

(** The new shares of a plan: those of the one choice on its card. *)
Lemma new_shares_load b pus planner p t :
  NoDup (pl_id <$> planner) → p ∈ planner →
  (∀ pu : plan * Z, pu ∈ pus → pu.1 ∈ planner ∧ 0 < pu.2)%Z → NoDup ((λ pu : plan * Z, pl_item_id pu.1) <$> pus) →
  Forall2 (λ (q : booked_plan) (pu : plan * Z), bp_plan_id q = pl_id pu.1 ∧ bp_units_booked q = Some pu.2) (bk_plans b) pus →
  load (shares_of (pl_id p) b) t = 0%Z
  ∨ ∃ u, (p, u) ∈ pus ∧ inside (bk_start b) (bk_end b) t = true ∧ load (shares_of (pl_id p) b) t = u.
Proof.
  intros Hids Hp Hpus Hnd H2. unfold shares_of, units_booked.
  induction H2 as [|q pu qs pus [Hid Hu] H2 IH]; simpl; [by left|]. simpl in Hnd. apply NoDup_cons in Hnd as [Hn Hnd].
  specialize (IH ltac:(intros x Hx; apply Hpus; by right) Hnd).
  destruct (String.eqb_spec (bp_plan_id q) (pl_id p)) as [He|He].
  - assert (Hpu : pu.1 = p). { apply (plan_of_id planner); [done|apply Hpus; left|done|congruence]. }
    assert (Hpos : (0 < pu.2)%Z) by (apply Hpus; left).
    assert (Hno : List.filter (λ p0, (bp_plan_id p0 =? pl_id p)%string) qs = []).
    { clear IH. induction H2 as [|q' pu' qs pus [Hid' _] H2 IH2]; simpl; [done|].
      destruct (String.eqb_spec (bp_plan_id q') (pl_id p)) as [He'|].
      - exfalso. apply Hn. assert (Hpu' : pu'.1 = p).
        { apply (plan_of_id planner); [done|apply Hpus; right; left|done|congruence]. }
        simpl. rewrite Hpu, <-Hpu'. left.
      - apply IH2; [intros x [->|Hx]%elem_of_cons; apply Hpus; [left|right; by right]| |].
        + simpl in Hn. set_solver.
        + simpl in Hnd. by apply NoDup_cons in Hnd as [_ ?]. }
    rewrite Hno. assert (Hpair : pu = (p, pu.2)) by (destruct pu; simpl in *; congruence).
    unfold load. simpl. rewrite Hu. replace (pu.2 =? 0)%Z with false by (symmetry; apply Z.eqb_neq; lia).
    destruct (covers_at t (bk_start b, bk_end b, pu.2)) eqn:Ec; simpl; [right|by left].
    exists pu.2. split; [rewrite <-Hpair; left|]. split; [exact Ec|lia].
  - destruct IH as [IH|(u & Hin & Hi & IH)]; [by left|right]. exists u. split; [by right|done].
Qed.

(** The row of a successful call. *)
Lemma add_checked_spec e p new_id rq reservables units db b :
  add_checked e p new_id rq reservables units db = Ok b →
  ∃ plans, new_booking_plans e p reservables units (bk_start b) (bk_end b) db = Ok plans
    ∧ bk_reservables b = reservables
    ∧ Forall2 (λ (q : booked_plan) (pu : plan * Z), bp_plan_id q = pl_id pu.1 ∧ bp_units_booked q = Some pu.2
        ∧ bp_priority q = lm_priority (priority_of e p (pl_subitem_id pu.1))) (bk_plans b) (concat plans.*2).
Proof.
  intros H. unfold add_checked in H. destruct (payload_priority e p reservables) as [prio|] eqn:Hprio; [|done].
  simpl in H. destruct (pr_limits prio) as [[[forbid max_time] [max_items|]]|]; [|done|done].
  destruct (_ <=? _)%Z; [done|]. destruct (rq_start rq) as [start|]; [|done]. destruct (rq_end rq) as [stop|]; [|done].
  destruct (if rq_now rq && _ then _ else _) as [minutes|]; [|done]. simpl in H.
  destruct (match minutes with Some _ => _ | None => _ end); [done|].
  destruct (new_booking_plans e p reservables units start stop db) as [plans|] eqn:Hplans; [|done]. simpl in H.
  destruct (_ || _); [done|]. destruct (new_planning _ _) as [planning|] eqn:Hpl; [|done]. injection H as <-. simpl.
  exists plans. split; [done|]. split; [done|]. apply new_planning_spec in Hpl as (pus & -> & _ & H2).
  eapply Forall2_impl; [exact H2|]. intros q pu (H1 & H3 & x & Hx & ->). split_and!; [done..|].
  by eapply payload_priority_spec.
Qed.

(** Every choice of the answer is a plan of its profile with room for it. *)
Lemma chosen_plans e p reservables units start stop db plans pu :
  new_booking_plans e p reservables units start stop db = Ok plans → Forall booking_ok (bookings db) → pu ∈ concat plans.*2 →
  pu.1 ∈ resource_planner db ∧ pl_subitem_id pu.1 ∈ profiles reservables ∧ (0 < pu.2)%Z
  ∧ ∀ t, inside start stop t = true →
      (reserved (pl_id pu.1) (pl_subitem_id pu.1) (lm_priority (priority_of e p (pl_subitem_id pu.1))) (bookings db) t
       + pu.2 ≤ pl_units pu.1)%Z.
Proof.
  intros H Hok Hin. apply new_booking_plans_spec in H as [Hplans _].
  apply list_elem_of_In, in_concat in Hin as (l & Hl & Hin). apply list_elem_of_In, list_elem_of_fmap in Hl as ([s l'] & -> & Hl).
  destruct (Hplans s l' Hl) as [Hs ->]. simpl in Hin.
  destruct (same_plans_spec (get_subitems_planning (e_now e) s (resource_planner db)) s
              (lm_priority (priority_of e p s)) start stop units (bookings db)) as (_ & _ & Hall).
  rewrite Forall_forall in Hall. destruct (Hall pu) as [Hfit [Hpos Ha]]; [by apply list_elem_of_In|].
  apply list_elem_of_In, filter_In in Hfit as [Hpl _]. unfold get_subitems_planning in Hpl.
  apply filter_In in Hpl as [Hpl Hsub]. simp_bool. subst s.
  split; [by apply list_elem_of_In|]. split; [done|]. split; [done|]. intros t Ht.
  assert (Hw : (start ≤ stop)%Z).
  { unfold inside in Ht. apply andb_true_iff in Ht as [H1%Qle_bool_iff H2%Qle_bool_iff].
    rewrite Zle_Qle. by eapply Qle_trans. }
  pose proof (proj1 (count_is_peak (pl_id pu.1) (pl_subitem_id pu.1) (lm_priority (priority_of e p (pl_subitem_id pu.1)))
    start stop (bookings db) Hw Hok) t Ht). unfold available_in in Ha. lia.
Qed.
End capacity.

(** What users and administrators do with the bookings, one call after another, under rules
    that give every user the same priority; the bookings are of vgpus only. *)
Inductive booking_step `{PO : Portion} (priority : Z) : tables → tables → Prop :=
  | step_book e p owns row v units new_id rq db :
      (∀ s, lm_priority (priority_of e p s) = priority) → _get_reservables row = Ok ([("vgpus", v)], units) →
      booking_step priority db (add e p owns row new_id rq db).1
  | step_unbook now stopped booking_id db : booking_step priority db (delete now stopped booking_id db).1
  | step_unplan plan_id db db' : delete_plan plan_id db = Ok db' → booking_step priority db db'.

Section capacity_steps.
Context `{PO : Portion}.

Lemma capacity_insert priority e p v units new_id rq db b :
  capacity_ok priority db → (∀ s, lm_priority (priority_of e p s) = priority) →
  add_checked e p new_id rq [("vgpus", v)] units db = Ok b →
  capacity_ok priority (set_bookings db (bookings db ++ [b])).
Proof.
  intros Hok Hpr H. pose proof (capacity_bookings_ok _ _ Hok) as Hbs.
  apply add_checked_spec in H as (plans & Hplans & Hres & H2).
  pose proof (λ pu, chosen_plans e p [("vgpus", v)] units (bk_start b) (bk_end b) db plans pu Hplans Hbs) as Hch.
  pose proof (new_booking_plans_spec _ _ _ _ _ _ _ _ Hplans) as [_ Hcards].
  split; simpl.
  - apply Hok.
  - apply (co_units _ _ Hok).
  - intros c q [Hc| ->%list_elem_of_singleton]%elem_of_app Hq; [by apply (co_bookings _ _ Hok)|].
    apply list_elem_of_lookup in Hq as [i Hi]. destruct (Forall2_lookup_l _ _ _ _ _ H2 Hi) as (pu & Hpu & Hid & Hu & Hp).
    apply list_elem_of_lookup_2 in Hpu. destruct (Hch pu Hpu) as (Hin & Hsub & Hpos & _).
    split; [by rewrite Hp, Hpr|]. split; [by exists pu.2|]. intros p' Hp' He.
    assert (p' = pu.1) as -> by (apply (plan_of_id (resource_planner db)); [apply Hok|done|done|congruence]).
    unfold vgpus_of. rewrite Hres. simpl. unfold profiles in Hsub. simpl in Hsub. by rewrite app_nil_r in Hsub.
  - intros p' t Hp'. rewrite current_plans_app, load_app. pose proof (co_load _ _ Hok p' t Hp') as Hload.
    rewrite current_plans_cons, load_app. change (load (current_plans (pl_id p') []) t) with 0%Z.
    destruct (new_shares_load b (concat plans.*2) (resource_planner db) p' t) as [->|(u & Hin & Hi & ->)].
    + apply Hok.
    + done.
    + intros pu Hpu. destruct (Hch pu Hpu) as (? & _ & ? & _). done.
    + exact Hcards.
    + eapply Forall2_impl; [exact H2|]. intros q pu (? & ? & _). done.
    + lia.
    + destruct (Hch _ Hin) as (_ & _ & _ & Hfit). specialize (Hfit t Hi). simpl in Hfit.
      rewrite Hpr, (reserved_all priority db) in Hfit by done. lia.
Qed.

Lemma capacity_step priority db db' : booking_step priority db db' → capacity_ok priority db → capacity_ok priority db'.
Proof.
  intros [e p owns row v units new_id rq db1 Hpr Hrow|now stopped booking_id db1|plan_id db1 db2 H] Hok.
  - unfold add. destruct owns as [[]|]; [|done]. simpl. rewrite Hrow.
    destruct (add_checked e p new_id rq _ units db1) as [b|] eqn:E; [|done].
    pose proof (capacity_insert priority e p v units new_id rq db1 b Hok Hpr E) as Hok'.
    destruct (rq_now rq); [|done]. destruct (_ =? _)%string; [|done]. simpl. by apply capacity_domains.
  - unfold delete. destruct (List.find _ _) as [b|]; [|done].
    pose proof (λ doms, capacity_filter priority db1 (λ c, negb (bk_id c =? booking_id)%string) (λ _, true) doms Hok) as Hf.
    assert (Hid : List.filter (λ _ : plan, true) (resource_planner db1) = resource_planner db1).
    { clear. induction (resource_planner db1); simpl; congruence. }
    rewrite Hid in Hf. cbv zeta.
    destruct (in_progress now b); [|apply Hf]. destruct (bk_item_type b =? "desktop")%string.
    { destruct (stopped _); [apply Hf|done]. }
    destruct (bk_item_type b =? "deployment")%string; [|apply Hf]. destruct (forallb _ _); [apply Hf|done].
  - unfold delete_plan in H. destruct (existsb _ _); [|done]. injection H as <-. by apply capacity_filter.
Qed.
End capacity_steps.

(** C4: When the rules give everybody one priority, no plan is ever overbooked: whatever
    bookings of vgpus are added, one call after another, for desktops and deployments of
    any number of units, and whatever bookings and plans are deleted, at every moment the
    units booked on a plan are at most its units. *)
Theorem plans_are_never_overbooked `{PO : Portion} priority planner doms db p t :
  NoDup (pl_id <$> planner) → Forall (λ p, 0 ≤ pl_units p)%Z planner →
  steps (booking_step priority) (mkTables planner [] doms) db → p ∈ resource_planner db →
  (load (current_plans (pl_id p) (bookings db)) t ≤ pl_units p)%Z.
Proof.
  intros Hids Hunits Hsteps Hp. rewrite Forall_forall in Hunits.
  assert (Hok : capacity_ok priority db).
  { eapply (steps_invariant _ (capacity_ok priority)); [|exact Hsteps|].
    - intros a b Hab Ha. by eapply capacity_step.
    - split; simpl; [done|done|set_solver|]. intros q u Hq. unfold load, current_plans. simpl. by apply Hunits. }
  by apply (co_load _ _ Hok).
Qed.

(** *** One rule for everybody, and a plan of two units *)
Definition everybody : rule := mkRule "r1" "default" 10 60 120 5 None None None (Some []).
Definition a_user : payload := mkPayload "user-1" "group-1" "category-1" "user".
Definition an_env : env := mkEnv 1 [everybody] [] [("card-1", None)] [].
Definition want (id : string) (start stop : Z) : request := mkRequest "desktop" id (Some start) (Some stop) false.
Definition a_desktop : item_row := DesktopRow [("vgpus", ["1Q"])].

Definition book (id : string) (start stop : Z) (db : tables) : tables * res booking :=
  add an_env a_user (Ok ()) a_desktop id (want id start stop) db.
Definition empty_plan : tables := mkTables [plan_of_two] [] [].
Definition full_plan : tables := (book "d2" 4 8 (book "d1" 2 6 empty_plan).1).1.

Lemma one_priority s : lm_priority (priority_of an_env a_user s) = 10%Z.
Proof. unfold priority_of, priority_id_of. done. Qed.

Lemma book_step id start stop db : booking_step 10 db (book id start stop db).1.
Proof. eapply step_book; [apply one_priority|reflexivity]. Qed.

Lemma full_plan_steps : steps (booking_step 10) empty_plan full_plan.
Proof. eapply steps_cons; [apply book_step|]. eapply steps_cons; [apply book_step|constructor]. Qed.

Lemma plans_are_never_overbooked_witness :
  length (bookings full_plan) = 2%nat
  ∧ (book "d3" 5 7 full_plan).2 = Raise (ApiError "conflict" "booking_does_not_fit_date")
  ∧ (load (current_plans "p1" (bookings full_plan)) 5 ≤ 2)%Z.
Proof.
  split; [by vm_compute|]. split; [by vm_compute|].
  apply (plans_are_never_overbooked 10 [plan_of_two] [] full_plan plan_of_two 5%Q).
  - apply NoDup_singleton.
  - repeat constructor. by vm_compute.
  - apply full_plan_steps.
  - replace (resource_planner full_plan) with [plan_of_two] by (vm_compute; reflexivity). left.
Defined.

(** ** Findings *)

(** a booking can never be moved: the new dates reach the parser of the calendar's
    bounds as dates and not as text, so every move of a booking that exists raises,
    whatever the dates and the free capacity, and changes nothing. *)
Theorem moving_a_booking_always_raises `{PO : Portion} strptime fits e p booking_id start stop db :
  ∃ x, update strptime fits e p booking_id start stop db = (db, Raise x)
    ∧ ∀ b s t prio, b ∈ bookings db → bk_id b = booking_id → NoDup (bk_id <$> bookings db) →
        strptime start = Ok s → strptime stop = Ok t →
        payload_priority e p (bk_reservables b) = Ok prio → profiles (bk_reservables b) ≠ [] → x = TypeError.
Proof.
  unfold update. destruct (List.find _ _) as [b|] eqn:E.
  2:{ eexists. split; [reflexivity|]. intros b s t prio Hb Hid.
      pose proof (find_none _ _ E b ltac:(by apply list_elem_of_In)) as H. simpl in H. simp_bool. congruence. }
  apply find_some in E as [Hb%list_elem_of_In Hid]. simp_bool.
  destruct (strptime start) as [s|x] eqn:Es; simpl; [|exists x; split; [done|]; congruence].
  destruct (strptime stop) as [t|x] eqn:Et; simpl; [|exists x; split; [done|]; congruence].
  unfold existing_booking_update_fits. destruct (payload_priority e p (bk_reservables b)) as [prio|x] eqn:Ep; simpl.
  2:{ exists x. split; [done|]. intros c s' t' prio Hc Hcid Hnd _ _ Hprio.
      rewrite (bookings_by_id (bookings db) b c) in Ep by (done || congruence). congruence. }
  unfold booking_provisioning, get_overridable_bookings, bookings_query. simpl.
  set (planned := foldl _ [] (profiles (bk_reservables b))).
  assert (Hnil : profiles (bk_reservables b) ≠ [] → planned ≠ []).
  { intros Hne. unfold planned. destruct (profiles (bk_reservables b)) as [|x l] using rev_ind; [done|].
    rewrite foldl_app. simpl. unfold dict_set at 1. destruct (assoc x _) eqn:Ea.
    - destruct (foldl _ [] l); [done|discriminate].
    - intros H. by apply app_eq_nil in H as [_ ?]. }
  destruct planned as [|[k ws] [|kv rest]]; simpl; eexists; (split; [reflexivity|]); try done.
  intros c s' t' prio' Hc Hcid Hnd _ _ _ Hne. exfalso. apply Hnil; [|done].
  rewrite (bookings_by_id (bookings db) b c); [done|done|done|done|congruence].
Qed.

Definition no_text : string → res Z := λ s, int_of_string s.

Lemma moving_a_booking_always_raises_witness :
  update no_text (λ _ _ _, true) an_env a_user "d1" "2" "3" full_plan = (full_plan, Raise TypeError).
Proof.
  destruct (moving_a_booking_always_raises no_text (λ _ _ _, true) an_env a_user "d1" "2" "3" full_plan) as (x & Hx & H).
  rewrite Hx. f_equal. f_equal.
  assert (Hp : ∃ prio, payload_priority an_env a_user [("vgpus", ["1Q"])] = Ok prio) by (eexists; vm_compute; reflexivity).
  destruct Hp as [prio Hp].
  eapply (H (mkBooking "d1" "desktop" "d1" 1 [("vgpus", ["1Q"])] 2 6 "user-1" [mkBooked "p1" "card-1" "1Q" 10 (Some 1%Z)]));
    [apply list_elem_of_In; vm_compute; by left|reflexivity|apply (bool_decide_unpack _); by vm_compute|by vm_compute|by vm_compute|exact Hp|done].
Defined.

(** the plans of a new booking do not depend on the cards of the user's category: the
    calendar leaves out the cards delegated to other categories, and the booking does
    not. *)
Theorem bookings_ignore_delegated_cards `{PO : Portion} now rules profs gpus categories gpus' categories' p reservables
    units start stop db :
  new_booking_plans (mkEnv now rules profs gpus categories) p reservables units start stop db
  = new_booking_plans (mkEnv now rules profs gpus' categories') p reservables units start stop db
  ∧ filter_gpu_plans_by_category (mkEnv 1 [everybody] [] [("card-1", Some "category-2")] []) a_user [plan_of_two] = []
  ∧ ∃ b, (add (PO := half_portion) (mkEnv 1 [everybody] [] [("card-1", Some "category-2")] []) a_user (Ok ()) a_desktop "d1" (want "d1" 2 6)
            empty_plan).2 = Ok b ∧ bp_item_id <$> bk_plans b = ["card-1"].
Proof.
  split; [reflexivity|]. split; [by vm_compute|]. eexists. split; [vm_compute; reflexivity|reflexivity].
Qed.

(** a booking of a deployment that starts now is refused only after its row is
    stored: the call raises and the booking stays. *)
Theorem refused_deployment_booking_is_stored `{PO : Portion} e p row reservables units new_id rq db b :
  _get_reservables row = Ok (reservables, units) → rq_now rq = true → rq_item_type rq = "deployment" →
  add_checked e p new_id rq reservables units db = Ok b →
  add e p (Ok ()) row new_id rq db = (set_bookings db (bookings db ++ [b]), Raise (ApiError "bad_request" "")).
Proof. intros Hrow Hnow Hty Hb. unfold add. simpl. by rewrite Hrow, Hb, Hnow, Hty. Qed.

Lemma refused_deployment_booking_is_stored_witness :
  ∃ b, add an_env a_user (Ok ()) (DeploymentRow [Some ["1Q"]] 2) "b1" (mkRequest "deployment" "dep" (Some 2) (Some 6) true)%Z
         empty_plan
       = (mkTables [plan_of_two] [b] [], Raise (ApiError "bad_request" "")).
Proof.
  assert (Hb : ∃ b, add_checked an_env a_user "b1" (mkRequest "deployment" "dep" (Some 2) (Some 6) true)%Z
                      [("vgpus", ["1Q"])] 2 empty_plan = Ok b) by (eexists; vm_compute; reflexivity).
  destruct Hb as [b Hb]. exists b.
  apply (refused_deployment_booking_is_stored an_env a_user (DeploymentRow [Some ["1Q"]] 2) [("vgpus", ["1Q"])] 2 "b1"
    (mkRequest "deployment" "dep" (Some 2) (Some 6) true)%Z empty_plan b); [reflexivity..|exact Hb].
Defined.

(** a user no rule applies to cannot book at all: the hardcoded default has no
    [max_items], and comparing it with the number of bookings raises. *)
Theorem no_rule_means_a_type_error `{PO : Portion} e p s units new_id rq db :
  user_matches_priority_rule p (rules_of e (priority_id_of e s)) = None →
  user_matches_priority_rule p (rules_of e "default") = None →
  add_checked e p new_id rq [("vgpus", [s])] units db = Raise TypeError.
Proof.
  intros H1 H2. unfold add_checked, payload_priority, priority_of, get_user_default_priority. simpl.
  by rewrite H1, H2.
Qed.

Lemma no_rule_means_a_type_error_witness :
  add_checked (mkEnv 1 [] [] [] []) a_user "b1" (want "d1" 2 6) [("vgpus", ["1Q"])] 1 empty_plan = Raise TypeError.
Proof. apply (no_rule_means_a_type_error (mkEnv 1 [] [] [] []) a_user "1Q"); reflexivity. Defined.

(** nothing refuses a booking that ends before it starts. *)
Theorem backwards_booking_is_stored :
  ∃ b, book "d1" 6 2 empty_plan = (mkTables [plan_of_two] [b] [], Ok b) ∧ (bk_end b < bk_start b)%Z.
Proof. eexists. split; [vm_compute; reflexivity|]. by vm_compute. Qed.

(** ** The calendar *)
Section exact_calendar.
Context `{PO : Portion}.

Definition window_at (t : Q) (w : window) : bool := inside (w_start w) (w_end w) t.
Definition booked_at (t : Q) (b : booking) : bool := inside (bk_start b) (bk_end b) t.

(** Of the windows that cover a moment the last one counts. *)
Lemma get_convert {V} (val : window → V) ws t :
  P_get (convert_plans_to_portions val ws) t = val <$> last (List.filter (window_at t) ws).
Proof.
  unfold convert_plans_to_portions. induction ws as [|w ws IH] using rev_ind; simpl; [apply get_empty|].
  rewrite foldl_app, List.filter_app. simpl. rewrite get_assign, IH. change (inside (w_start w) (w_end w) t) with (window_at t w).
  destruct (window_at t w); [by rewrite last_snoc|by rewrite app_nil_r].
Qed.

Lemma get_add_cells op l d t c :
  P_get d t = Some c → P_get (add_cells op l d) t = Some (foldl (λ c b, op c (booking_cell b)) c (List.filter (booked_at t) l)).
Proof.
  unfold add_cells. revert d c. induction l as [|b l IH]; intros d c Hd; simpl; [done|].
  assert (Hg : P_get (P_combine op d (P_closed (bk_start b) (bk_end b) (booking_cell b))) t
    = Some (if booked_at t b then op c (booking_cell b) else c)).
  { rewrite get_combine, get_closed, Hd. unfold booked_at. by destruct (inside _ _ t). }
  rewrite (IH _ _ Hg). by destruct (booked_at t b).
Qed.

Lemma nonoverridable_cells c l :
  let c' := foldl (λ c b, nonoverridable_op c (booking_cell b)) c l in
  c_units c' = c_units c ∧ c_nonoverridable c' = (c_nonoverridable c + sum_by bk_units l)%Z ∧ c_overridable c' = c_overridable c.
Proof.
  revert c. induction l as [|b l IH]; intros c; simpl; [split_and!; [done|lia|done]|].
  destruct (IH (nonoverridable_op c (booking_cell b))) as (-> & -> & ->). simpl. split_and!; [done|lia|done].
Qed.

Lemma overridable_cells c l :
  let c' := foldl (λ c b, overridable_op c (booking_cell b)) c l in
  c_units c' = c_units c ∧ c_nonoverridable c' = c_nonoverridable c ∧ c_overridable c' = (c_overridable c + sum_by bk_units l)%Z.
Proof.
  revert c. induction l as [|b l IH]; intros c; simpl; [split_and!; [done|done|lia]|].
  destruct (IH (overridable_op c (booking_cell b))) as (-> & -> & ->). simpl. split_and!; [done|done|lia].
Qed.
End exact_calendar.

(** C34: Let [compute_overridable_bookings] overlay two given lists of bookings, overridable
    and not, on given windows of plans, and take a moment that some window covers. Where
    windows overlap the last one counts. A window of the answer then covers the moment, and
    every window of the answer that has it strictly inside, has for units those of the plan
    window less those of the non-overridable bookings at that moment; it is unavailable
    exactly when these are fewer than asked for, overridable when they suffice but no longer
    do without those of the overridable bookings, and available otherwise. Which bookings
    the calendar asks for is outside of this function, and it misses those of two profiles
    ([calendar_misses_bookings_of_two_profiles]). *)
Theorem overlaid_windows_are_exact `{PO : Portion} overridable nonoverridable ws units t w :
  last (List.filter (window_at t) ws) = Some w →
  let out := compute_overridable_bookings overridable nonoverridable ws units in
  let free := (w_units w - sum_by bk_units (List.filter (booked_at t) nonoverridable))%Z in
  let displaced := sum_by bk_units (List.filter (booked_at t) overridable) in
  let event := if (free <? units)%Z then "unavailable"
               else if (free - displaced <? units)%Z then "overridable" else "available" in
  (∃ x, x ∈ out ∧ window_at t x = true ∧ w_units x = free ∧ w_event x = event)
  ∧ ∀ x, x ∈ out → (inject_Z (w_start x) < t)%Q → (t < inject_Z (w_end x))%Q → w_units x = free ∧ w_event x = event.
Proof.
  intros Hw. cbv zeta. unfold compute_overridable_bookings.
  set (d := add_cells overridable_op overridable _).
  pose proof (get_convert window_cell ws t) as H0. rewrite Hw in H0. simpl in H0.
  pose proof (get_add_cells nonoverridable_op nonoverridable _ t _ H0) as H1.
  pose proof (get_add_cells overridable_op overridable _ t _ H1) as H2. fold d in H2.
  set (c1 := foldl _ (window_cell w) _) in *. set (c2 := foldl _ c1 _) in *.
  destruct (nonoverridable_cells (window_cell w) (List.filter (booked_at t) nonoverridable)) as (U1 & N1 & O1). fold c1 in U1, N1, O1.
  destruct (overridable_cells c1 (List.filter (booked_at t) overridable)) as (U2 & N2 & O2). fold c2 in U2, N2, O2.
  assert (Hfree : (c_units c2 - c_nonoverridable c2 = w_units w - sum_by bk_units (List.filter (booked_at t) nonoverridable))%Z).
  { rewrite U2, U1, N2, N1. simpl. lia. }
  assert (Hover : c_overridable c2 = sum_by bk_units (List.filter (booked_at t) overridable)).
  { rewrite O2, O1. simpl. lia. }
  split.
  - apply items_cover in H2 as (lo & hi & Hin & Ht). eexists. split; [apply list_elem_of_fmap; by exists (lo, hi, c2)|].
    simpl. split; [exact Ht|]. rewrite Hfree. split; [done|]. unfold event_of. by rewrite Hfree, Hover.
  - intros x ([[lo hi] c] & -> & Hin)%list_elem_of_fmap Hlo Hhi. simpl in *.
    rewrite (items_inside d lo hi c t Hin Hlo Hhi) in H2. injection H2 as ->.
    rewrite Hfree. split; [done|]. unfold event_of. by rewrite Hfree, Hover.
Qed.

Definition one_window : window := mkWindow 0 10 2 ["p1"] (Some "1Q") "available".

Lemma overlaid_windows_are_exact_witness :
  ∃ x, x ∈ compute_overridable_bookings [booked_from "b1" 2 4] [booked_from "b2" 3 8] [one_window] 1
    ∧ window_at 3 x = true ∧ w_units x = 1%Z ∧ w_event x = "overridable".
Proof.
  destruct (overlaid_windows_are_exact [booked_from "b1" 2 4] [booked_from "b2" 3 8] [one_window] 1 3%Q one_window
    ltac:(by vm_compute)) as [H _]. exact H.
Defined.

(** where there is no plan, a booking makes its own availability: outside of every
    window the calendar takes the booking itself for a plan with its units, so a user
    whose category has no card at that moment is shown the bookings of the others as
    available. *)
Theorem calendar_shows_bookings_as_plans `{PO : Portion} ws b units :
  (bk_start b ≤ bk_end b)%Z → (units ≤ bk_units b)%Z → Forall (λ w, window_at (inject_Z (bk_start b)) w = false) ws →
  ∃ x, x ∈ compute_overridable_bookings [] [b] ws units ∧ window_at (inject_Z (bk_start b)) x = true
    ∧ w_event x = "available" ∧ w_units x = bk_units b.
Proof.
  intros Hb Hu Hno. set (t := inject_Z (bk_start b)) in *. unfold compute_overridable_bookings. simpl.
  set (d := P_combine _ _ _).
  assert (Hnil : List.filter (window_at t) ws = []).
  { induction Hno as [|w ws Hw _ IH]; simpl; [done|]. by rewrite Hw. }
  assert (Hd : P_get d t = Some (booking_cell b)).
  { unfold d. rewrite get_combine, get_closed, get_convert, Hnil. simpl.
    assert (Hin : inside (bk_start b) (bk_end b) t = true); [|by rewrite Hin].
    unfold inside, t. rewrite andb_true_iff, !Qle_bool_iff, <-!Zle_Qle. lia. }
  apply items_cover in Hd as (lo & hi & Hin & Ht). eexists.
  split; [apply list_elem_of_fmap; exists (lo, hi, booking_cell b); split; [reflexivity|done]|]. simpl.
  split; [exact Ht|]. unfold event_of. simpl. split; [|lia].
  destruct (Z.ltb_spec (bk_units b - 0) units); [lia|]. destruct (Z.ltb_spec (bk_units b - 0 - 0) units); [lia|done].
Qed.

Lemma calendar_shows_bookings_as_plans_witness :
  ∃ x, x ∈ compute_overridable_bookings [] [booked_from "b1" 2 4] [] 1 ∧ window_at 2 x = true
    ∧ w_event x = "available" ∧ w_units x = 1%Z.
Proof. apply (calendar_shows_bookings_as_plans [] (booked_from "b1" 2 4) 1); [by vm_compute|by vm_compute|constructor]. Defined.

(** the bookings an item already has are not taken out of its calendar: a window
    with one moment that is free of them comes back whole, its bounds unchanged, over
    the moments they take; and with the bounds given as text none is even found. *)
Theorem own_bookings_stay_available `{PO : Portion} now w item_id start stop l t from_text to_text :
  window_at t w = true →
  Forall (λ b, booked_at t b = false)
    (own_bookings item_id (match start with NoBound => DateTime now | _ => start end) stop l) →
  w ∈ remove_existing_item_bookings now [w] item_id start stop l
  ∧ own_bookings item_id (DateText from_text) (DateText to_text) l = [].
Proof.
  intros Hw Hfree. split.
  - unfold remove_existing_item_bookings. set (own := own_bookings _ _ _ _) in *. set (d := foldl _ _ own).
    assert (Hd : P_get d t = Some (OfWindow w)).
    { unfold d. clear d. assert (H0 : P_get (convert_plans_to_portions OfWindow [w]) t = Some (OfWindow w)).
      { rewrite get_convert. simpl. by rewrite Hw. }
      revert H0. generalize (convert_plans_to_portions OfWindow [w]) as d0. induction Hfree as [|b own Hb _ IH]; intros d0 H0; simpl; [done|].
      apply IH. rewrite get_combine, get_closed, H0. unfold booked_at in Hb. by rewrite Hb. }
    apply items_cover in Hd as (lo & hi & Hin & _). apply list_elem_of_omap. by exists (lo, hi, OfWindow w).
  - clear Hfree. unfold own_bookings. induction l as [|b l IH]; simpl; [done|]. by rewrite andb_false_r.
Qed.

(** A window from 0 to 10 and a booking of the desktop from 2 to 4. *)
Lemma own_bookings_stay_available_witness :
  one_window ∈ remove_existing_item_bookings 0 [one_window] "b1" NoBound (DateTime 10) [booked_from "b1" 2 4].
Proof.
  apply (own_bookings_stay_available 0 one_window "b1" NoBound (DateTime 10) [booked_from "b1" 2 4] 7%Q "" "");
    [by vm_compute|repeat constructor; by vm_compute].
Defined.

(** a booking of two profiles is invisible in the calendar of each of them, which
    asks for the bookings of exactly that one profile, although it holds their units:
    the calendar offers a window as available that a booking is then refused. *)
Theorem calendar_misses_bookings_of_two_profiles :
  let two := mkBooking "b1" "desktop" "d9" 1 [("vgpus", ["1Q"; "2Q"])] 2 8 "user-2"
               [mkBooked "p0" "card-1" "1Q" 10 (Some 1%Z); mkBooked "p9" "card-2" "2Q" 10 (Some 1%Z)] in
  let db := mkTables [mkPlan "p0" "gpus" "card-1" "1Q" 1 0 10] [two] [] in
  (∀ from to prio skip l,
     get_nonoverridable_bookings no_text [("1Q", prio)] [("vgpus", ["1Q"])] from to skip [two] = Ok l → l = [])
  ∧ (book "d1" 4 6 db).2 = Raise (ApiError "conflict" "booking_does_not_fit_date")
  ∧ ∃ slots, booking_provisioning no_text an_env a_user None [("vgpus", ["1Q"])] 1
               (mkPriorities [("1Q", 10%Z)] None) NoBound NoBound None db = Ok slots
      ∧ Forall (λ s, s_event s = "available") slots ∧ existsb (λ s, (s_start s <=? 5)%Z && (5 <? s_end s)%Z) slots = true.
Proof.
  cbv zeta. split; [|split; [by vm_compute|]].
  - intros from to prio skip l H. unfold get_nonoverridable_bookings, bookings_query in H.
    destruct (_parse_booking_window_bound no_text to); [|done]. simpl in H.
    destruct (_parse_booking_window_bound no_text from); [|done]. by injection H as <-.
  - eexists. split; [vm_compute; reflexivity|]. split; [repeat constructor|by vm_compute].
Qed.

(** ** Bookings at once *)
Definition capacity_key (kind subitem : string) : string := "bookings:capacity:" +:+ kind +:+ ":" +:+ subitem.

Lemma add_lock_keys_capacity p reservables kind subitems subitem :
  (kind, subitems) ∈ reservables → subitem ∈ subitems → capacity_key kind subitem ∈ add_lock_keys p reservables.
Proof.
  intros Hk Hs. right. apply list_elem_of_In, in_concat. eexists. split; [apply list_elem_of_In, list_elem_of_fmap; by exists (kind, subitems)|].
  apply list_elem_of_In, list_elem_of_fmap. by exists subitem.
Qed.

Lemma update_lock_keys_capacity b kind subitems subitem :
  (kind, subitems) ∈ bk_reservables b → subitem ∈ subitems → capacity_key kind subitem ∈ update_lock_keys b.
Proof.
  intros Hk Hs. apply list_elem_of_In, in_concat. eexists. split; [apply list_elem_of_In, list_elem_of_fmap; by exists (kind, subitems)|].
  apply list_elem_of_In, list_elem_of_fmap. by exists subitem.
Qed.

(** of two threads inside the section of a new booking, or of a new and a moved
    booking, whose items share a profile, or which belong to one user, at most one
    exists at a time, so the units one of them counts are there when it inserts. *)
Theorem capacity_checks_are_serialised s t1 t2 c1 c2 p1 r1 keys2 :
  reachable false any_call s →
  c1 ∈ th_sections (thread_of s t1) → sc_phase c1 = Inside → sc_keys c1 = add_lock_keys p1 r1 →
  c2 ∈ th_sections (thread_of s t2) → sc_phase c2 = Inside → sc_keys c2 = keys2 →
  (∃ p2 r2, keys2 = add_lock_keys p2 r2
     ∧ (pa_user_id p1 = pa_user_id p2
        ∨ ∃ kind l1 l2 x, (kind, l1) ∈ r1 ∧ (kind, l2) ∈ r2 ∧ x ∈ l1 ∧ x ∈ l2))
  ∨ (∃ b, keys2 = update_lock_keys b ∧ ∃ kind l1 l2 x, (kind, l1) ∈ r1 ∧ (kind, l2) ∈ bk_reservables b ∧ x ∈ l1 ∧ x ∈ l2) →
  t1 = t2.
Proof.
  intros Hr Hc1 Hi1 Hk1 Hc2 Hi2 Hk2 Hshare.
  assert (Hkey : ∃ k, k ∈ sc_keys c1 ∧ k ∈ sc_keys c2).
  { rewrite Hk1, Hk2. destruct Hshare as [(p2 & r2 & -> & [He|(kind & l1 & l2 & x & H1 & H2 & H3 & H4)])
      |(b & -> & kind & l1 & l2 & x & H1 & H2 & H3 & H4)].
    - exists ("bookings:quota:" +:+ pa_user_id p1). split; [left|]. rewrite He. left.
    - exists (capacity_key kind x). split; by eapply add_lock_keys_capacity.
    - exists (capacity_key kind x). split; [by eapply add_lock_keys_capacity|by eapply update_lock_keys_capacity]. }
  destruct Hkey as (k & ? & ?). by eapply (inside_same_thread any_call s t1 t2 c1 c2 k).
Qed.

(** Thread 1 inside the section of a booking; thread 2 waits for the same profile. *)
Definition other_user : payload := mkPayload "user-2" "group-1" "category-1" "user".
Definition booking_run : list call :=
  [Enter 1 (add_lock_keys a_user [("vgpus", ["1Q"])]); Acquire 1; Acquire 1; Enter 2 (add_lock_keys other_user [("vgpus", ["1Q"])])].

Lemma capacity_checks_are_serialised_witness :
  waits_for (thread_of (after booking_run) 2) = Some "bookings:capacity:vgpus:1Q" ∧ 1%nat = 1%nat.
Proof.
  split; [by vm_compute|].
  eapply (capacity_checks_are_serialised (after booking_run) 1 1
    (mkSection ["bookings:quota:user-1"; "bookings:capacity:vgpus:1Q"] ["bookings:capacity:vgpus:1Q"; "bookings:quota:user-1"] []
       [("bookings:quota:user-1", 1%nat); ("bookings:capacity:vgpus:1Q", O)] Inside None)
    (mkSection ["bookings:quota:user-1"; "bookings:capacity:vgpus:1Q"] ["bookings:capacity:vgpus:1Q"; "bookings:quota:user-1"] []
       [("bookings:quota:user-1", 1%nat); ("bookings:capacity:vgpus:1Q", O)] Inside None) a_user [("vgpus", ["1Q"])]).
  - apply (run_calls_reachable false any_call booking_run); [by vm_compute|apply any_call_allowed].
  - apply list_elem_of_In. vm_compute. by left.
  - done.
  - by vm_compute.
  - apply list_elem_of_In. vm_compute. by left.
  - done.
  - reflexivity.
  - left. exists a_user, [("vgpus", ["1Q"])]. split; [by vm_compute|by left].
Defined.
