(* ===== verification/StorageStall.v ===== *)
(** * Hypervisor storage verdicts and the shared-storage stall

    EN/services/lib/storage_stall.py, where EN/ is src/engine/src/engine/: what a probe
    and a health report say of the mounts of one hypervisor, which mounts hang on half
    or more of the online hypervisors, and the install-level condition [SharedStorageStall]
    with its hysteresis. The broom thread feeds it once per pass ([Broom]).

    Mounts, hypervisors and reasons are strings, times are the rationals of the clock.
    The dicts [causes], [hung_by_hyp] and the result of [shared_mounts] are finite maps:
    the code sorts whatever it reads out of them. *)
From Stdlib Require Import QArith Qround.
From stdpp Require Import pretty.
From S2P Require Import Prelude PyVal.

Definition PROBE_TIMEOUT_S : Z := 3.
Definition PROBE_DEADLINE_S : Z := (PROBE_TIMEOUT_S + 5)%Z.
Definition HEALTH_STALE_S : Z := 30.
Definition STALL_CLEAR_PASSES : nat := 2.

(** [sorted({...})] *)
Definition sorted_set (l : list string) : list string := py_sorted String.leb (remove_dups l).

(** [sep.join(l)] *)
Fixpoint str_join (sep : string) (l : list string) : string :=
  match l with
  | [] => EmptyString
  | [x] => x
  | x :: l' => x +:+ sep +:+ str_join sep l'
  end.

(** ** The verdict on one hypervisor *)

(** What the remote command answered: bytes go through [decode]. *)
Inductive remote_out := OBytes (b : string) | OStr (s : string) | OOther.

Definition parse_probe_output (decode : string → string) (out : remote_out) : list string :=
  let lines s := sorted_set (strip <$> List.filter (String.prefix "/") (split_lines s)) in
  match out with
  | OBytes b => lines (decode b)
  | OStr s => lines s
  | OOther => []
  end.

(** [a - b] of the clock and a stored number *)
Definition float_since (now : Q) (b : pyfloat) : pyfloat :=
  match b with
  | FNan => FNan
  | FInf n => FInf (negb n)
  | FFin q => FFin (now - q)
  end.

(** The values a [for] loop runs over. *)
Definition py_iter (v : pyval) : res (list pyval) :=
  match v with
  | PList l => Ok l
  | PDict d => Ok ((λ e, PStr e.1) <$> d)
  | PStr s => Ok ((λ a, PStr (String a EmptyString)) <$> String.list_ascii_of_string s)
  | _ => Raise TypeError
  end.

(** [v or []] *)
Definition or_empty (v : pyval) : pyval := if truthy v then v else PList [].

Definition mount_of (v : pyval) : option string :=
  match v with PStr s => if (s =? "")%string then None else Some s | _ => None end.

Definition health_verdict (health : pyval) (now : Q) (stale_after : Z)
    : res (option string * list string) :=
  match health with
  | PDict d =>
      match as_number (dict_get d "received_at") with
      | None => Ok (None, [])
      | Some received_at =>
          let age := float_since now received_at in
          if float_gt age (float_of_Z stale_after)
          then s ← int_of_float age;
               Ok (Some ("health: no report for " +:+ pretty s +:+ "s"), [])
          else
            ms ← py_iter (or_empty (dict_get d "hung_mounts"));
            match sorted_set (omap mount_of ms) with
            | [] => Ok (None, [])
            | hung => Ok (Some ("health: storage not responding: " +:+ str_join " " hung), hung)
            end
      end
  | _ => Ok (None, [])
  end.

(** The dict a probe of one hypervisor leaves. *)
Record probe := Probe { p_hung : list string; p_error : option string }.

(** What the probe of a hypervisor adds: its reason and the mounts that hang. *)
Definition probe_verdict (p : option probe) : option string * list string :=
  match p with
  | None => (None, [])
  | Some p =>
      match p_hung p with
      | [] =>
          match p_error p with
          | Some e => if (e =? "")%string then (None, [])
                      else (Some ("storage: probe failed: " +:+ e), [])
          | None => (None, [])
          end
      | hung => (Some ("storage: not responding: " +:+ str_join " " (py_sorted String.leb hung)), hung)
      end
  end.

(** [reason] when the string is true *)
Definition reason_list (r : option string) : list string :=
  match r with Some r => if (r =? "")%string then [] else [r] | None => [] end.

Definition assess_one (probes : gmap string probe) (healths : gmap string pyval) (now : Q)
    (hyp_id : string) : res (list string * list string) :=
  let '(preason, phung) := probe_verdict (probes !! hyp_id) in
  v ← health_verdict (default PNone (healths !! hyp_id)) now HEALTH_STALE_S;
  Ok (reason_list preason ++ reason_list v.1,
      phung ++ match reason_list v.1 with [] => [] | _ => v.2 end).

Definition assess_hypervisors (hyp_ids : list string) (probes : gmap string probe)
    (healths : gmap string pyval) (now : Q)
    : res (gmap string string * gmap string (list string)) :=
  foldl (λ acc hyp_id,
    a ← acc;
    v ← assess_one probes healths now hyp_id;
    Ok (match v.1 with [] => a.1 | rs => <[hyp_id := str_join "; " rs]> a.1 end,
        match v.2 with [] => a.2 | hung => <[hyp_id := sorted_set hung]> a.2 end))
    (Ok (∅, ∅)) hyp_ids.

(** ** Mounts that hang on half or more of the hypervisors *)

(** [1 if len(online) == 1 else max(2, math.ceil(len(online) / 2))] *)
Definition needed (n : nat) : nat :=
  if decide (n = 1) then 1 else max 2 (Nat.div2 (n + 1)).

Definition add_hung (hyp_id : string) (by_mount : gmap string (gset string)) (mount : string)
    : gmap string (gset string) :=
  <[mount := {[hyp_id]} ∪ default ∅ (by_mount !! mount)]> by_mount.

Definition collect_mounts (online : gset string) (entries : list (string * list string))
    : gmap string (gset string) :=
  foldl (λ bm e, if decide (e.1 ∈ online) then foldl (add_hung e.1) bm e.2 else bm) ∅ entries.

Definition shared_mounts (online : list string) (hung_by_hyp : gmap string (list string))
    : gmap string (gset string) :=
  let on : gset string := list_to_set online in
  if decide (on = ∅) then ∅
  else filter (λ e, needed (size on) ≤ size e.2) (collect_mounts on (map_to_list hung_by_hyp)).

(** ** The condition *)
Record stall := Stall {
  st_active : bool;
  st_since : Q;
  st_hypervisors : list string;
  st_mounts : list string;
  st_online : nat;
  st_cleared_at : option Q;
}.

Record SharedStorageStall := Tracker {
  clear_after : nat;
  state : option stall;
  last_cleared : option stall;
  _clean_passes : nat;
}.

Definition new_stall (clear_after : nat) : SharedStorageStall := Tracker clear_after None None 0.

Definition resume (stored : option stall) (t : SharedStorageStall) : SharedStorageStall :=
  match stored with
  | Some s => if st_active s then Tracker (clear_after t) (Some s) (last_cleared t) 0 else t
  | None => t
  end.

Inductive transition := TSet | TUpdate | TClear.

Definition shared_hypervisors (shared : gmap string (gset string)) : list string :=
  py_sorted String.leb (elements (map_fold (λ _ hyps acc, hyps ∪ acc) ∅ shared)).

Definition shared_names (shared : gmap string (gset string)) : list string :=
  py_sorted String.leb (elements (dom shared)).

Definition observe (online : list string) (hung_by_hyp : gmap string (list string)) (now : Q)
    (t : SharedStorageStall) : option transition * SharedStorageStall :=
  let shared := shared_mounts online hung_by_hyp in
  if decide (shared = ∅) then
    match state t with
    | None => (None, t)
    | Some s =>
        let clean := S (_clean_passes t) in
        if decide (clean < clear_after t)
        then (None, Tracker (clear_after t) (Some s) (last_cleared t) clean)
        else (Some TClear,
              Tracker (clear_after t) None
                (Some (Stall false (st_since s) (st_hypervisors s) (st_mounts s) (st_online s) (Some now))) 0)
    end
  else
    let hypervisors := shared_hypervisors shared in
    let mounts := shared_names shared in
    let n := size (list_to_set online : gset string) in
    match state t with
    | None =>
        (Some TSet, Tracker (clear_after t) (Some (Stall true now hypervisors mounts n None)) (last_cleared t) 0)
    | Some s =>
        if decide (st_hypervisors s ≠ hypervisors ∨ st_mounts s ≠ mounts)
        then (Some TUpdate,
              Tracker (clear_after t)
                (Some (Stall (st_active s) (st_since s) hypervisors mounts n (st_cleared_at s))) (last_cleared t) 0)
        else (None, Tracker (clear_after t) (Some s) (last_cleared t) 0)
    end.

(** ** Facts about the mounts *)

(** The online hypervisors that report [m]. *)
Definition reporters (on : gset string) (hung_by_hyp : gmap string (list string)) (m : string) : gset string :=
  filter (λ h, m ∈ default [] (hung_by_hyp !! h)) on.

Lemma add_hung_elem hyp ms bm h m :
  h ∈ default ∅ (foldl (add_hung hyp) bm ms !! m) ↔
  (h = hyp ∧ m ∈ ms) ∨ h ∈ default (∅ : gset string) (bm !! m).
Proof.
  revert bm. induction ms as [|m' ms IH]; intros bm; simpl; [set_solver|].
  rewrite IH. unfold add_hung. destruct (decide (m = m')) as [->|Hne].
  - rewrite lookup_insert_eq. simpl. set_solver.
  - rewrite lookup_insert_ne by done. set_solver.
Qed.

Lemma collect_mounts_elem on entries h m :
  h ∈ default ∅ (collect_mounts on entries !! m) ↔
  ∃ ms, (h, ms) ∈ entries ∧ h ∈ on ∧ m ∈ ms.
Proof.
  unfold collect_mounts.
  enough (∀ bm, h ∈ default ∅ (foldl (λ bm e, if decide (e.1 ∈ on) then foldl (add_hung e.1) bm e.2 else bm)
                                 bm entries !! m) ↔
                (∃ ms, (h, ms) ∈ entries ∧ h ∈ on ∧ m ∈ ms) ∨ h ∈ default ∅ (bm !! m)) as H.
  { rewrite (H ∅), lookup_empty. simpl. set_solver. }
  induction entries as [|[h' ms'] es IH]; intros bm; simpl; [set_solver|].
  rewrite IH. case_decide as Hon; [rewrite add_hung_elem|]; set_solver.
Qed.

Lemma collect_mounts_reporters on hbh m :
  default ∅ (collect_mounts on (map_to_list hbh) !! m) = reporters on hbh m.
Proof.
  apply set_eq. intros h. rewrite collect_mounts_elem. unfold reporters. rewrite elem_of_filter.
  setoid_rewrite elem_of_map_to_list. split.
  - intros (ms & Hh & ? & ?). by rewrite Hh.
  - intros [Hm Hon]. destruct (hbh !! h) as [ms|]; simpl in Hm; [eauto|set_solver].
Qed.

Lemma needed_pos n : 1 ≤ needed n.
Proof. unfold needed. case_decide; lia. Qed.

Lemma shared_mounts_lookup online hbh m :
  shared_mounts online hbh !! m =
  let on := list_to_set online in
  if decide (on ≠ ∅ ∧ needed (size on) ≤ size (reporters on hbh m))
  then Some (reporters on hbh m) else None.
Proof.
  unfold shared_mounts. simpl. set (on := list_to_set online : gset string).
  case_decide as Hon; [by rewrite lookup_empty, decide_False by naive_solver|].
  destruct (collect_mounts on (map_to_list hbh) !! m) as [hs|] eqn:E.
  - pose proof (collect_mounts_reporters on hbh m) as Hr. rewrite E in Hr. simpl in Hr. subst hs.
    case_decide as Hd.
    + apply map_lookup_filter_Some. naive_solver.
    + apply map_lookup_filter_None. right. intros x Hx. naive_solver.
  - pose proof (collect_mounts_reporters on hbh m) as Hr. rewrite E in Hr. simpl in Hr. rewrite <-Hr.
    rewrite decide_False.
    + apply map_lookup_filter_None. by left.
    + rewrite size_empty. pose proof (needed_pos (size on)). intros [_ ?]. lia.
Qed.

(** A mount is shared exactly when enough online hypervisors report it; enough is half
    of them, at least two, or the only one. *)
Lemma shared_mounts_exact online hbh m :
  let on := list_to_set online : gset string in
  let n := size on in
  is_Some (shared_mounts online hbh !! m) ↔
  on ≠ ∅ ∧ n ≤ 2 * size (reporters on hbh m) ∧ (n = 1 ∨ 2 ≤ size (reporters on hbh m)) ∧
  1 ≤ size (reporters on hbh m).
Proof.
  intros on n. rewrite shared_mounts_lookup. simpl. fold on. fold n. unfold needed.
  assert (on ≠ ∅ → n ≠ 0) as Hn by (intros H ?%size_empty_inv; by apply H, leibniz_equiv).
  pose proof (Nat.div2_odd (n + 1)) as Hd. destruct (Nat.odd (n + 1)); simpl in Hd;
    repeat case_decide; (split; [intros [? [=]]|]; try naive_solver lia); eauto;
    intros (Ho & ? & ? & ?); exfalso; pose proof (Hn Ho); naive_solver lia.
Qed.

(** ** The condition over a history of passes *)
Record pass := Pass { p_online : list string; p_hbh : gmap string (list string); p_time : Q }.

Definition run_passes (t : SharedStorageStall) (h : list pass) : SharedStorageStall :=
  foldl (λ t p, (observe (p_online p) (p_hbh p) (p_time p) t).2) t h.

Definition shared_of (p : pass) : gmap string (gset string) := shared_mounts (p_online p) (p_hbh p).

(** A pass sees the stall when some mount is shared, and is clean otherwise. *)
Definition sees_stall (p : pass) : Prop := shared_of p ≠ ∅.
#[export] Instance sees_stall_dec p : Decision (sees_stall p).
Proof. unfold sees_stall. apply _. Defined.

(** The reference: the last pass that saw the stall is followed by fewer clean passes
    than it takes to clear. *)
Definition last_seen (c : nat) (h : list pass) (p : pass) : Prop :=
  ∃ h1 h2, h = h1 ++ p :: h2 ∧ sees_stall p ∧ Forall (λ q, ¬ sees_stall q) h2 ∧ length h2 < max 1 c.

Lemma run_passes_snoc t h p :
  run_passes t (h ++ [p]) = (observe (p_online p) (p_hbh p) (p_time p) (run_passes t h)).2.
Proof. unfold run_passes. by rewrite foldl_app. Qed.

Definition tracks (c : nat) (h : list pass) (t : SharedStorageStall) : Prop :=
  clear_after t = c ∧
  match state t with
  | None => ∀ p, ¬ last_seen c h p
  | Some s =>
      ∃ h1 p h2, h = h1 ++ p :: h2 ∧ sees_stall p ∧ Forall (λ q, ¬ sees_stall q) h2 ∧
        length h2 = _clean_passes t ∧ length h2 < max 1 c ∧ st_active s = true ∧
        st_mounts s = shared_names (shared_of p) ∧
        st_hypervisors s = shared_hypervisors (shared_of p)
  end.

Lemma last_seen_clean c h q p :
  ¬ sees_stall q → last_seen c (h ++ [q]) p →
  ∃ h1 h2, h = h1 ++ p :: h2 ∧ sees_stall p ∧ Forall (λ q, ¬ sees_stall q) h2 ∧ S (length h2) < max 1 c.
Proof.
  intros Hq (h1 & h2 & Heq & Hp & Hh & Hl).
  destruct h2 as [|x h2 _] using rev_ind.
  - apply app_inj_tail in Heq as [_ ->]. done.
  - rewrite app_comm_cons, app_assoc in Heq. apply app_inj_tail in Heq as [-> ->].
    rewrite length_app in Hl. simpl in Hl. apply Forall_app in Hh as [Hh _].
    exists h1, h2. split_and!; [done..|lia].
Qed.

Lemma last_stall_unique h1 p h2 k1 q k2 :
  h1 ++ p :: h2 = k1 ++ q :: k2 → sees_stall p → sees_stall q →
  Forall (λ q, ¬ sees_stall q) h2 → Forall (λ q, ¬ sees_stall q) k2 → h2 = k2 ∧ p = q.
Proof.
  revert k2. induction h2 as [|x h2 IH] using rev_ind; intros k2 Heq Hp Hq Hh Hk;
    destruct k2 as [|y k2 _] using rev_ind.
  - apply app_inj_tail in Heq as [_ ->]. done.
  - rewrite (app_comm_cons k2), (app_assoc k1) in Heq. apply app_inj_tail in Heq as [_ ->].
    apply Forall_app in Hk as [_ Hk]. inversion Hk. done.
  - rewrite (app_comm_cons h2), (app_assoc h1) in Heq. apply app_inj_tail in Heq as [_ ->].
    apply Forall_app in Hh as [_ Hh]. inversion Hh. done.
  - rewrite !app_comm_cons, !app_assoc in Heq. apply app_inj_tail in Heq as [Heq ->].
    apply Forall_app in Hh as [Hh _], Hk as [Hk _].
    destruct (IH _ Heq Hp Hq Hh Hk) as [-> ->]. done.
Qed.

Lemma observe_seen p t :
  sees_stall p →
  let t' := (observe (p_online p) (p_hbh p) (p_time p) t).2 in
  clear_after t' = clear_after t ∧ _clean_passes t' = 0 ∧
  ∃ s, state t' = Some s ∧ st_mounts s = shared_names (shared_of p) ∧
       st_hypervisors s = shared_hypervisors (shared_of p) ∧
       match state t with
       | None => st_active s = true ∧ st_since s = p_time p
       | Some s0 => st_active s = st_active s0 ∧ st_since s = st_since s0
       end.
Proof.
  unfold sees_stall, shared_of. intros Hp. unfold observe. rewrite decide_False by done.
  destruct (state t) as [s0|] eqn:E; simpl; [|by eauto 10].
  case_decide as Hd; simpl; [by eauto 10|]. split_and!; [done..|].
  exists s0. apply Decidable.not_or in Hd as [?%dec_stable ?%dec_stable]. done.
Qed.

Lemma observe_clean p t :
  ¬ sees_stall p →
  let t' := (observe (p_online p) (p_hbh p) (p_time p) t).2 in
  clear_after t' = clear_after t ∧
  match state t with
  | None => t' = t
  | Some s => if decide (S (_clean_passes t) < clear_after t)
              then state t' = Some s ∧ _clean_passes t' = S (_clean_passes t)
              else state t' = None
  end.
Proof.
  unfold sees_stall, shared_of. intros Hp%dec_stable. unfold observe. rewrite decide_True by done.
  destruct (state t) as [s0|] eqn:E; simpl; [|done]. by case_decide.
Qed.

Lemma tracks_run c h : tracks c h (run_passes (new_stall c) h).
Proof.
  induction h as [|p h [Hc IH]] using rev_ind.
  { split; [done|]. simpl. intros p (h1 & h2 & Heq & _). by destruct h1. }
  rewrite run_passes_snoc. set (t := run_passes (new_stall c) h) in *.
  destruct (decide (sees_stall p)) as [Hp|Hp].
  - destruct (observe_seen p t Hp) as (Hc' & Hz & s & Hst & Hm & Hy & Hs).
    split; [congruence|]. rewrite Hst, Hz. exists h, p, []. split_and!; try done; simpl; [lia|].
    destruct (state t) as [s0|]; [|naive_solver].
    destruct IH as (? & ? & ? & ? & ? & ? & ? & ? & Ha & _). destruct Hs. congruence.
  - destruct (observe_clean p t Hp) as (Hc' & Hs). split; [congruence|].
    destruct (state t) as [s0|] eqn:E.
    + destruct IH as (h1 & q & h2 & -> & Hq & Hh & Hl & Hlt & Ha & Hm & Hy). case_decide as Hd.
      * destruct Hs as [-> ->]. exists h1, q, (h2 ++ [p]). rewrite length_app, Forall_app. simpl.
        split_and!; try done; try lia; [by rewrite <-app_assoc|auto].
      * rewrite Hs. intros q' (k1 & k2 & Heq & Hq' & Hk & Hlk)%last_seen_clean; [|done].
        destruct (last_stall_unique _ _ _ _ _ _ Heq Hq Hq' Hh Hk) as [-> ->]. lia.
    + rewrite Hs, E. intros q (k1 & k2 & Heq & Hq' & Hk & Hlk)%last_seen_clean; [|done].
      apply (IH q). exists k1, k2. split_and!; try done. lia.
Qed.

Lemma prefix_of_snoc {A} (k h : list A) q :
  k `prefix_of` h ++ [q] → k `prefix_of` h ∨ k = h ++ [q].
Proof.
  intros [l Hl]. destruct l as [|x l _] using rev_ind; [right; by rewrite app_nil_r in Hl|].
  rewrite app_assoc in Hl. apply app_inj_tail in Hl as [-> _]. left. by exists l.
Qed.

(** The condition has held without a break since a pass that set it. *)
Lemma stall_since c h s :
  state (run_passes (new_stall c) h) = Some s →
  ∃ h1 p h2, h = h1 ++ p :: h2 ∧ sees_stall p ∧ st_since s = p_time p ∧
    state (run_passes (new_stall c) h1) = None ∧
    ∀ k, k `prefix_of` h2 → state (run_passes (new_stall c) (h1 ++ p :: k)) ≠ None.
Proof.
  revert s. induction h as [|q h IH] using rev_ind; intros s; [done|].
  rewrite run_passes_snoc. set (t := run_passes (new_stall c) h) in *. intros Hs.
  assert (state t = None ∧ sees_stall q ∧ st_since s = p_time q ∨
          ∃ s0, state t = Some s0 ∧ st_since s = st_since s0) as [(Ht & Hq & Hsince)|(s0 & Ht & Hsince)].
  { destruct (decide (sees_stall q)) as [Hq|Hq].
    - destruct (observe_seen q t Hq) as (_ & _ & s' & Hs' & _ & _ & Hm).
      destruct (state t); naive_solver.
    - destruct (observe_clean q t Hq) as (_ & Hm). destruct (state t) eqn:E; [|congruence].
      case_decide; naive_solver. }
  - exists h, q, []. split_and!; try done. intros k ->%prefix_nil_inv. rewrite run_passes_snoc.
    fold t. by rewrite Hs.
  - destruct (IH s0 Ht) as (h1 & p & h2 & Hh & Hp & Hp' & Hn & Hk). exists h1, p, (h2 ++ [q]).
    split_and!; try done; [by rewrite Hh, <-app_assoc|congruence|].
    intros k [Hpre| ->]%prefix_of_snoc; [by apply Hk|].
    rewrite app_comm_cons, app_assoc, <-Hh, run_passes_snoc. fold t. by rewrite Hs.
Qed.

(** Half or more of the hypervisors online in the pass, at least two or the only one,
    reported the mount. *)
Definition hung_on_half (p : pass) (m : string) : Prop :=
  let on := list_to_set (p_online p) : gset string in
  let k := size (reporters on (p_hbh p) m) in
  on ≠ ∅ ∧ size on ≤ 2 * k ∧ (size on = 1 ∨ 2 ≤ k) ∧ 1 ≤ k.

Lemma elem_of_shared_names p m : m ∈ shared_names (shared_of p) ↔ hung_on_half p m.
Proof.
  unfold shared_names. rewrite elem_of_py_sorted, elem_of_elements, elem_of_dom.
  apply shared_mounts_exact.
Qed.

(** C36: The shared-storage condition is exactly what the passes saw: it holds when the last
    pass that saw a mount hang on half of the hypervisors is followed by fewer clean passes
    than it takes to clear; it names the mounts of that pass, and its date is the pass that
    set it, since when it has held without a break. *)
Theorem stall_condition_is_exact c h :
  let t := run_passes (new_stall c) h in
  (is_Some (state t) ↔ ∃ p, last_seen c h p) ∧
  (∀ s, state t = Some s →
     (∃ p, last_seen c h p ∧ st_active s = true ∧ ∀ m, m ∈ st_mounts s ↔ hung_on_half p m) ∧
     ∃ h1 p h2, h = h1 ++ p :: h2 ∧ sees_stall p ∧ st_since s = p_time p ∧
       state (run_passes (new_stall c) h1) = None ∧
       ∀ k, k `prefix_of` h2 → state (run_passes (new_stall c) (h1 ++ p :: k)) ≠ None).
Proof.
  intros t. pose proof (tracks_run c h) as [_ Ht]. fold t in Ht.
  assert (∀ s, state t = Some s →
            ∃ p, last_seen c h p ∧ st_active s = true ∧ ∀ m, m ∈ st_mounts s ↔ hung_on_half p m) as Hseen.
  { intros s E. rewrite E in Ht. destruct Ht as (h1 & p & h2 & -> & Hp & Hh & _ & Hl & Ha & Hm & _).
    exists p. split; [by exists h1, h2|split; [done|]]. intros m. rewrite Hm. apply elem_of_shared_names. }
  split.
  - split; [intros [s Hs]; destruct (Hseen s Hs) as (p & ? & _); eauto|].
    intros [p Hp]. destruct (state t) as [s|]; [by eexists|by destruct (Ht p)].
  - intros s Hs. split; [by apply Hseen|by apply stall_since].
Qed.

Definition two_hosts (mounts : list string) : gmap string (list string) :=
  {["h1" := mounts; "h2" := mounts]}.

Lemma stall_condition_is_exact_witness :
  let h := [Pass ["h1"; "h2"; "h3"] (two_hosts ["/isard/groups"]) 10;
            Pass ["h1"; "h2"; "h3"] ∅ 20] in
  let s := Stall true 10 ["h1"; "h2"] ["/isard/groups"] 3 None in
  state (run_passes (new_stall STALL_CLEAR_PASSES) h) = Some s ∧ ∃ p, last_seen 2 h p.
Proof.
  intros h s. assert (state (run_passes (new_stall 2) h) = Some s) as E by (vm_compute; reflexivity).
  split; [exact E|]. destruct (stall_condition_is_exact 2 h) as [[H _] _]. apply H. by exists s.
Defined.

(** Passes with nobody online are clean: the condition goes away when every
    hypervisor does. *)
Lemma stall_clears_when_nobody_is_online t s now1 now2 hbh :
  state t = Some s → clear_after t = STALL_CLEAR_PASSES →
  let t' := run_passes t [Pass [] hbh now1; Pass [] hbh now2] in
  state t' = None.
Proof.
  intros Hs Hc. assert (∀ n, ¬ sees_stall (Pass [] hbh n)) as Hn.
  { intros n H. apply H. unfold shared_of, shared_mounts. by rewrite decide_True. }
  change (state (observe [] hbh now2 (observe [] hbh now1 t).2).2 = None).
  destruct (observe_clean _ t (Hn now1)) as [Hc1 H1]. simpl in Hc1, H1.
  destruct (observe_clean _ (observe [] hbh now1 t).2 (Hn now2)) as [_ H2]. simpl in H2.
  rewrite Hs, Hc in H1. unfold STALL_CLEAR_PASSES in *.
  destruct (decide (S (_clean_passes t) < 2)).
  - destruct H1 as [H1 Hk]. rewrite H1, Hc1, Hc, Hk in H2. rewrite decide_False in H2 by lia. done.
  - rewrite H1 in H2. by rewrite H2, H1.
Qed.

(** ** The causes of a degradation *)
Lemma assess_hypervisors_exact ids probes healths now causes hung :
  assess_hypervisors ids probes healths now = Ok (causes, hung) →
  ∀ h,
    (h ∉ ids → causes !! h = None ∧ hung !! h = None) ∧
    (h ∈ ids → ∃ v, assess_one probes healths now h = Ok v ∧
       causes !! h = match v.1 with [] => None | rs => Some (str_join "; " rs) end ∧
       hung !! h = match v.2 with [] => None | ms => Some (sorted_set ms) end).
Proof.
  unfold assess_hypervisors. revert causes hung.
  induction ids as [|x ids IH] using rev_ind; intros causes hung; simpl.
  { intros [= <- <-] h. rewrite !lookup_empty. split; [done|set_solver]. }
  rewrite foldl_app. simpl.
  destruct (foldl _ _ ids) as [[c0 u0]|]; simpl; [|done].
  destruct (assess_one probes healths now x) as [v|] eqn:E; simpl; [|done].
  intros [= <- <-] h. destruct (IH c0 u0 eq_refl h) as [Hout Hin]. split.
  - intros [Hni Hnx]%not_elem_of_app. apply Hout in Hni as [? ?].
    assert (h ≠ x) by set_solver. destruct (v.1), (v.2); rewrite ?lookup_insert_ne by done; done.
  - intros Happ. destruct (decide (h = x)) as [->|Hne].
    + exists v. split; [done|]. destruct (decide (x ∈ ids)) as [Hi|Hi].
      * destruct (Hin Hi) as (v' & Hv' & ? & ?). rewrite E in Hv'. injection Hv' as <-.
        destruct (v.1), (v.2); rewrite ?lookup_insert_eq; done.
      * destruct (Hout Hi). destruct (v.1), (v.2); rewrite ?lookup_insert_eq; done.
    + assert (h ∈ ids) as Hi by set_solver. destruct (Hin Hi) as (v' & Hv' & ? & ?). exists v'.
      split; [done|]. destruct (v.1), (v.2); rewrite ?lookup_insert_ne by done; done.
Qed.
