(* ===== verification/DomainStore.v ===== *)
(** * The state the threads of the engine share

    Rows of the tables [domains] and [hypervisors], the holds of
    EN/services/lib/domain_guard.py and the clock ([shared]); the queries of
    EN/services/db/domains.py and hypervisors.py the threads make; and the monad [M]
    they run in. EN/ is src/engine/src/engine/.

    Threads interleave: before every query or write a thread makes, the world may run
    one entry of [w_foreign], an arbitrary change of the shared state by somebody else.
    A program keeps its writes when it raises. [w_trace] records what the thread itself
    did: the rows it wrote, the domains it destroyed in libvirt, the GPU bindings it
    released. The free text of [detail], the logs and the history of a row are left out.

    The order of the rows of a query is that of [map_to_list]. *)
From Stdlib Require Import QArith.
From S2P Require Import Prelude PyVal StorageStall.

(** ** Rows *)

(** [hyp_started]: absent, null, [False]/[True] or the id of a hypervisor *)
Inductive hyp_field := NoField | HNone | HBool (b : bool) | HStr (s : string).
#[export] Instance hyp_field_eq_dec : EqDecision hyp_field.
Proof. solve_decision. Defined.

Record domain := Domain {
  d_status : option string;
  d_hyp_started : hyp_field;
  d_accessed : option pyval;
  d_viewer : bool;
  d_personal_vlans : pyval;
}.

Record degraded := Degraded {
  is_degraded : bool;
  dg_reason : option string;
  dg_since : option Z;
  dg_source : option string;
}.

Record hyp_row := HypRow {
  h_online : bool;
  h_hostname : bool;
  h_capabilities : bool * bool;
  h_cap_status : bool * bool;
  h_degraded : option degraded;
  h_warning : bool;
  h_health : pyval;
}.

Record held_entry := Held { hd_hyp_id : string; hd_operation : string; hd_since : Q }.

Record shared := Shared {
  domains : gmap string domain;
  hyps : gmap string hyp_row;
  _held : gmap string held_entry;
  held_mirror : gmap string held_entry;
  redis_up : bool;
  stall_doc : option stall;
  clock : Q;
}.

Definition with_domains (f : gmap string domain → gmap string domain) (s : shared) : shared :=
  Shared (f (domains s)) (hyps s) (_held s) (held_mirror s) (redis_up s) (stall_doc s) (clock s).
Definition with_hyps (f : gmap string hyp_row → gmap string hyp_row) (s : shared) : shared :=
  Shared (domains s) (f (hyps s)) (_held s) (held_mirror s) (redis_up s) (stall_doc s) (clock s).
Definition with_held (f : gmap string held_entry → gmap string held_entry) (s : shared) : shared :=
  Shared (domains s) (hyps s) (f (_held s)) (held_mirror s) (redis_up s) (stall_doc s) (clock s).
Definition with_mirror (f : gmap string held_entry → gmap string held_entry) (s : shared) : shared :=
  Shared (domains s) (hyps s) (_held s) (f (held_mirror s)) (redis_up s) (stall_doc s) (clock s).
Definition with_stall_doc (d : option stall) (s : shared) : shared :=
  Shared (domains s) (hyps s) (_held s) (held_mirror s) (redis_up s) d (clock s).

(** ** Programs of a thread *)
Inductive event :=
  | EWrite (id : string) (before after : domain)
  | EDestroy (hyp_id id : string)
  | ECreate (hyp_id id : string)
  | ERelease (id : string).

Record world (L : Type) := World {
  w_sh : shared;
  w_local : L;
  w_foreign : list (shared → shared);
  w_trace : list event;
}.
Arguments World {L} _ _ _ _.
Arguments w_sh {L} _.
Arguments w_local {L} _.
Arguments w_foreign {L} _.
Arguments w_trace {L} _.

Definition M (L A : Type) : Type := world L → res A * world L.
#[export] Instance M_ret {L} : MRet (M L) := λ A a w, (Ok a, w).
#[export] Instance M_bind {L} : MBind (M L) := λ A B f m w,
  match m w with
  | (Ok a, w') => f a w'
  | (Raise e, w') => (Raise e, w')
  end.

Section programs.
Context {L : Type}.

Definition raise {A} (e : exn) : M L A := λ w, (Raise e, w).

(** [try: m except Exception: handler] *)
Definition try_all {A} (m : M L A) (handler : exn → M L A) : M L A := λ w,
  match m w with (Raise e, w') => handler e w' | r => r end.

Definition of_res {A} (r : res A) : M L A := match r with Ok a => mret a | Raise e => raise e end.

Definition interfere : M L unit := λ w,
  match w_foreign w with
  | [] => (Ok tt, w)
  | f :: fs => (Ok tt, World (f (w_sh w)) (w_local w) fs (w_trace w))
  end.

Definition emit (e : event) : M L unit := λ w,
  (Ok tt, World (w_sh w) (w_local w) (w_foreign w) (w_trace w ++ [e])).

(** One atomic step of the thread itself. *)
Definition atomically {A} (f : world L → A * world L) : M L A :=
  _ ← interfere; (λ w, let '(a, w') := f w in (Ok a, w')) : M L A.

Definition query {A} (f : shared → A) : M L A := atomically (λ w, (f (w_sh w), w)).

Definition modify (f : shared → shared) : M L unit :=
  atomically (λ w, (tt, World (f (w_sh w)) (w_local w) (w_foreign w) (w_trace w))).

Definition get_local : M L L := λ w, (Ok (w_local w), w).
Definition put_local (l : L) : M L unit := λ w,
  (Ok tt, World (w_sh w) l (w_foreign w) (w_trace w)).

Definition time_now : M L Q := query clock.

(** [for x in l: f x] *)
Fixpoint for_each {A} (l : list A) (f : A → M L unit) : M L unit :=
  match l with
  | [] => mret tt
  | x :: l' => _ ← f x; for_each l' f
  end.

Fixpoint fold_each {A B} (l : list A) (b : B) (f : B → A → M L B) : M L B :=
  match l with
  | [] => mret b
  | x :: l' => b' ← f b x; fold_each l' b' f
  end.

(** ** Writes of the table [domains] *)

(** What a write answers: no row, a query error on it, or a row replaced or left
    unchanged by it. *)
Inductive write_result := Skipped | Errored | Applied.

Definition write_row (id : string) (f : domain → option domain) : M L write_result :=
  atomically (λ w,
  match domains (w_sh w) !! id with
  | None => (Skipped, w)
  | Some d =>
      match f d with
      | None => (Errored, w)
      | Some d' =>
          (Applied, World (with_domains <[id := d']> (w_sh w)) (w_local w) (w_foreign w)
                          (w_trace w ++ [EWrite id d d']))
      end
  end).

(** [row["status"].eq(expected)]: an error when the row has no status *)
Definition guarded (expected : option string) (f : domain → domain) (d : domain) : option domain :=
  match expected with
  | None => Some (f d)
  | Some e =>
      match d_status d with
      | None => None
      | Some s => Some (if (s =? e)%string then f d else d)
      end
  end.

Definition set_stopped (status : string) (d : domain) : domain :=
  Domain (Some status) (HBool false) (d_accessed d) false (PBool false).

Definition set_status (status : string) (hyp : hyp_field) (d : domain) : domain :=
  Domain (Some status) hyp (d_accessed d) (d_viewer d) (d_personal_vlans d).

Definition remove_domain_viewer_values (id : string) : M L unit :=
  _ ← write_row id (λ d, Some (
    if decide (d_status d = Some "Stopped")
    then Domain (d_status d) (d_hyp_started d) (d_accessed d) false (d_personal_vlans d) else d));
  mret tt.

Definition remove_fieds_when_stopped (id : string) : M L unit :=
  _ ← write_row id (λ d, Some (Domain (d_status d) (HBool false) (d_accessed d) (d_viewer d) (PBool false)));
  remove_domain_viewer_values id.

(** [hyp_id]: [HNone] is the default argument. The answer is [None] where the code
    returns [False]. *)
Definition update_domain_status (status id : string) (hyp_id : hyp_field) (keep_hyp_id : bool)
    (expected_status : option string) : M L (option write_result) :=
  kept ← (if keep_hyp_id then
            row ← query (λ s, domains s !! id);
            match row with
            | None => mret None
            | Some d => match d_hyp_started d with NoField => raise KeyError | h => mret (Some h) end
            end
          else mret (Some hyp_id));
  match kept with
  | None => mret None
  | Some hyp =>
      if (status =? "Stopped")%string then
        r ← write_row id (guarded expected_status (set_stopped status));
        mret (Some r)
      else
        let stored := match hyp with HNone => HBool false | h => h end in
        r ← write_row id (guarded expected_status (set_status status stored));
        _ ← (if (status =? "Failed")%string
             then match r with Applied => remove_fieds_when_stopped id | _ => mret tt end
             else mret tt);
        mret (Some r)
  end.

Definition update_domain_hyp_started (id hyp_id status : string) (expected_status : option string)
    : M L (option write_result) :=
  update_domain_status status id (HStr hyp_id) false expected_status.

Definition get_domain_status (id : string) : M L (option string) :=
  query (λ s, domains s !! id ≫= d_status).

(** Rows with their status in the list, as [(id, row)] *)
Definition rows_in (statuses : list string) (s : shared) : list (string * domain) :=
  List.filter (λ e, match d_status e.2 with Some st => mem st statuses | None => false end)
    (map_to_list (domains s)).

Definition TRANSITIONAL_STATUS : list string := ["Starting"; "Stopping"; "Shutdown"; "Shutting-down"].

Definition get_domains_with_transitional_status (also_started : bool) : M L (list (string * domain)) :=
  query (rows_in (TRANSITIONAL_STATUS ++ if also_started then ["Started"; "Paused"; "Resetting"] else [])).

Definition get_domains_with_status_in_list (statuses : list string) : M L (list (string * domain)) :=
  query (rows_in statuses).

(** The release of the GPU bindings of a domain; the pools are those of [Gpu]. *)
Definition update_vgpu_info_if_stopped (id : string) : M L unit :=
  _ ← interfere; emit (ERelease id).

(** ** Hypervisors *)
Definition DEGRADED_BY_HOST_ERRORS : string := "host_errors".

(** [int(t)] of the clock *)
Definition int_time (t : Q) : Z := Z.quot (Qnum t) (Zpos (Qden t)).

Definition mark_row (reason source : option string) (now : Q) (h : hyp_row) : hyp_row :=
  let since := match h_degraded h with
               | Some g => match is_degraded g, dg_since g with
                           | true, Some t => Some t
                           | _, _ => Some (int_time now)
                           end
               | None => Some (int_time now)
               end in
  let why := match reason with
             | Some r => if (r =? "")%string then "unknown" else r
             | None => "unknown"
             end in
  HypRow (h_online h) (h_hostname h) (h_capabilities h) (false, false)
    (Some (Degraded true (Some why) since source)) (h_warning h) (h_health h).

Definition recover_row (capabilities : bool * bool) (h : hyp_row) : hyp_row :=
  HypRow (h_online h) (h_hostname h) (h_capabilities h) capabilities
    (Some (Degraded false None None None)) (h_warning h) (h_health h).

(** The recovery reads the capabilities first: a row that is gone raises there. *)
Definition update_hyp_degraded_status (hyp_id : string) (degrade : bool) (reason source : option string)
    : M L unit :=
  if degrade then
    now ← time_now;
    modify (with_hyps (alter (mark_row reason source now) hyp_id))
  else
    row ← query (λ s, hyps s !! hyp_id);
    match row with
    | None => raise ReqlError
    | Some h => modify (with_hyps (alter (recover_row (h_capabilities h)) hyp_id))
    end.

Definition any_check_may_clear (g : option degraded) : bool :=
  match g with
  | None => false
  | Some g => is_degraded g && negb (bool_decide (dg_source g = Some DEGRADED_BY_HOST_ERRORS))
  end.

Definition get_degraded_hyp_ids_any_check_may_clear : M L (gset string) :=
  query (λ s, dom (filter (λ e, any_check_may_clear (h_degraded e.2) = true) (hyps s))).

Definition clear_libvirt_warning (hyp_id : string) : M L unit :=
  modify (with_hyps (alter (λ h, HypRow (h_online h) (h_hostname h) (h_capabilities h) (h_cap_status h)
    (h_degraded h) false (h_health h)) hyp_id)).

Definition get_hyp_hostnames_online : M L (list string) :=
  query (λ s, fst <$> List.filter (λ e, h_online e.2) (map_to_list (hyps s))).

Definition get_hyps_health (hyp_ids : list string) : M L (gmap string pyval) :=
  query (λ s, list_to_map (omap (λ h, (λ r, (h, h_health r)) <$> hyps s !! h) hyp_ids)).

(** ** domain_guard.py *)
Definition _mirror (id : string) (entry : option held_entry) : M L unit :=
  modify (λ s, if redis_up s then with_mirror (partial_alter (λ _, entry) id) s else s).

Definition hold (id hyp_id operation : string) : M L unit :=
  now ← time_now;
  let entry := Held hyp_id operation now in
  _ ← modify (with_held <[id := entry]>);
  _mirror id (Some entry).

(** [hyp_id is not None and entry["hyp_id"] != hyp_id] *)
Definition other_holder (hyp_id : option string) (e : held_entry) : bool :=
  match hyp_id with Some h => negb (hd_hyp_id e =? h)%string | None => false end.

Definition release (id : string) (hyp_id : option string) : M L bool :=
  released ← atomically (λ w,
    match _held (w_sh w) !! id with
    | Some e =>
        if other_holder hyp_id e then (false, w)
        else (true, World (with_held (delete id) (w_sh w)) (w_local w) (w_foreign w) (w_trace w))
    | None => (false, w)
    end);
  if released : bool then _ ← _mirror id None; mret true else mret false.

Definition holder (id : string) : M L (option held_entry) := query (λ s, _held s !! id).

Definition reset : M L unit :=
  _ ← modify (with_held (λ _, ∅));
  modify (λ s, if redis_up s then with_mirror (λ _, ∅) s else s).
End programs.

(** ** Reasoning about programs

    [wp I m Q]: [m] keeps the invariant [I] of worlds and, when it returns, its value
    satisfies [Q]. *)
Section wp.
Context {L : Type} (I : world L → Prop).

Definition wp {A} (m : M L A) (Q : A → Prop) : Prop :=
  ∀ w, I w → I (m w).2 ∧ ∀ a, (m w).1 = Ok a → Q a.

Lemma wp_ret {A} (a : A) (Q : A → Prop) : Q a → wp (mret a) Q.
Proof. intros HQ w Hw. split; [done|]. by intros ? [= <-]. Qed.

Lemma wp_bind {A C} (m : M L A) (f : A → M L C) (Q : C → Prop) :
  wp m (λ a, wp (f a) Q) → wp (m ≫= f) Q.
Proof.
  intros Hm w Hw. destruct (Hm w Hw) as [Hw' Hf]. unfold mbind, M_bind.
  destruct (m w) as [[a|e] w']; simpl in *; [|done]. exact (Hf a eq_refl w' Hw').
Qed.

Lemma wp_mono {A} (m : M L A) (Q Q' : A → Prop) : wp m Q → (∀ a, Q a → Q' a) → wp m Q'.
Proof. intros Hm HQ w Hw. destruct (Hm w Hw). eauto. Qed.

Lemma wp_top {A} (m : M L A) (Q : A → Prop) : wp m Q → wp m (λ _, True).
Proof. intros Hm. by apply (wp_mono _ _ _ Hm). Qed.

Lemma wp_raise {A} e (Q : A → Prop) : wp (raise e) Q.
Proof. intros w Hw. done. Qed.

Lemma wp_of_res {A} (r : res A) (Q : A → Prop) : (∀ a, r = Ok a → Q a) → wp (of_res r) Q.
Proof. destruct r; intros H; [apply wp_ret; auto|apply wp_raise]. Qed.

Lemma wp_try {A} (m : M L A) h (Q : A → Prop) : wp m Q → (∀ e, wp (h e) Q) → wp (try_all m h) Q.
Proof.
  intros Hm Hh w Hw. destruct (Hm w Hw) as [Hw' HQ]. unfold try_all.
  destruct (m w) as [[a|e] w']; simpl in *; [auto|]. by apply Hh.
Qed.

Lemma wp_get (Q : L → Prop) : (∀ l, Q l) → wp get_local Q.
Proof. intros HQ w Hw. split; [done|]. auto. Qed.

Lemma wp_for {A} (l : list A) f : (∀ x, x ∈ l → wp (f x) (λ _, True)) → wp (for_each l f) (λ _, True).
Proof.
  induction l as [|x l IH]; intros Hf; simpl; [by apply wp_ret|].
  apply wp_bind. apply (wp_mono _ (λ _, True)); [apply Hf; left|].
  intros _ _. apply IH. intros y Hy. apply Hf. by right.
Qed.

Lemma wp_fold {A C} (l : list A) (b : C) f (P : C → Prop) :
  P b → (∀ c x, x ∈ l → P c → wp (f c x) P) → wp (fold_each l b f) P.
Proof.
  revert b. induction l as [|x l IH]; intros b Hb Hf; simpl; [by apply wp_ret|].
  apply wp_bind. apply (wp_mono _ P); [apply Hf; [left|done]|].
  intros c Hc. apply IH; [done|]. intros d y Hy. apply Hf. by right.
Qed.

(** Invariants of the shared state and of the events: foreign changes keep the first. *)
Context (interferes : wp interfere (λ _, True)).

Lemma wp_atomically {A} (f : world L → A * world L) (Q : A → Prop) :
  (∀ w, I w → I (f w).2 ∧ Q (f w).1) → wp (atomically f) Q.
Proof.
  intros Hf. apply wp_bind. apply (wp_mono _ _ _ interferes). intros _ _ w Hw.
  destruct (Hf w Hw) as [H1 H2]. destruct (f w) as [a w']. simpl in *. split; [done|]. by intros ? [= <-].
Qed.

Lemma wp_query {A} (f : shared → A) (Q : A → Prop) :
  (∀ w, I w → Q (f (w_sh w))) → wp (query f) Q.
Proof. intros Hf. apply wp_atomically. intros w Hw. split; [done|]. by apply Hf. Qed.
End wp.

(** A program that only reads and writes one row keeps what its queries and the writes of
    that row keep. *)
Lemma wp_update_any {L} (I : world L → Prop) id status hyp keep expected :
  (∀ A (f : shared → A), wp I (query f) (λ _, True)) → (∀ f, wp I (write_row id f) (λ _, True)) →
  wp I (update_domain_status status id hyp keep expected) (λ _, True).
Proof.
  intros Hq Hw. unfold update_domain_status. apply wp_bind. apply (wp_mono _ _ (λ _, True)).
  { destruct keep; [|by apply wp_ret]. apply wp_bind. apply (wp_mono _ _ (λ _, True)); [apply Hq|].
    intros [d|] _; [|by apply wp_ret]. destruct (d_hyp_started d); first [by apply wp_ret|apply wp_raise]. }
  intros [h|] _; [|by apply wp_ret].
  destruct (status =? "Stopped")%string; apply wp_bind; (apply (wp_mono _ _ (λ _, True)); [apply Hw|]); intros r _;
    [by apply wp_ret|].
  apply wp_bind. apply (wp_mono _ _ (λ _, True)); [|intros; by apply wp_ret].
  destruct (status =? "Failed")%string; [|by apply wp_ret]. destruct r; try (by apply wp_ret).
  apply wp_bind. apply (wp_mono _ _ (λ _, True)); [apply Hw|]. intros _ _.
  apply wp_bind. apply (wp_mono _ _ (λ _, True)); [apply Hw|]. intros _ _. by apply wp_ret.
Qed.

(** The worlds whose shared state satisfies [K] whatever the others do, and whose events
    all satisfy [J]. *)
Definition within {L} (K : shared → Prop) (J : event → Prop) (w : world L) : Prop :=
  K (w_sh w) ∧ Forall (λ f, ∀ s, K s → K (f s)) (w_foreign w) ∧ Forall J (w_trace w).

Section within.
Context {L : Type} (K : shared → Prop) (J : event → Prop).
Notation safe := (wp (L := L) (within K J)).

Lemma safe_interfere : safe interfere (λ _, True).
Proof.
  intros w (HK & HF & HJ). split; [|done]. unfold interfere.
  destruct (w_foreign w) as [|f fs] eqn:E; simpl; [by split_and!; rewrite ?E|].
  apply Forall_cons in HF as [Hf HF]. split_and!; simpl; auto.
Qed.

Lemma safe_query {A} (f : shared → A) (Q : A → Prop) : (∀ s, K s → Q (f s)) → safe (query f) Q.
Proof. intros H. apply wp_query; [apply safe_interfere|]. intros w (HK & _). auto. Qed.

Lemma safe_query_any {A} (f : shared → A) : safe (query f) (λ _, True).
Proof. by apply safe_query. Qed.

Lemma safe_modify f : (∀ s, K s → K (f s)) → safe (modify f) (λ _, True).
Proof.
  intros Hf. apply wp_atomically; [apply safe_interfere|]. intros w (HK & HF & HJ).
  split; [|done]. split_and!; simpl; auto.
Qed.

Lemma safe_emit e : J e → safe (emit e) (λ _, True).
Proof.
  intros He w (HK & HF & HJ). split; [|done]. split_and!; simpl; [done..|].
  apply Forall_app. auto.
Qed.

Lemma safe_put l : safe (put_local l) (λ _, True).
Proof. intros w (HK & HF & HJ). by split. Qed.

Context (K_domains : ∀ f s, K s → K (with_domains f s)) (J_same : ∀ id d, J (EWrite id d d)).

Lemma safe_write id f : (∀ d d', f d = Some d' → J (EWrite id d d')) → safe (write_row id f) (λ _, True).
Proof.
  intros Hf. apply wp_atomically; [apply safe_interfere|]. intros w (HK & HF & HJ).
  split; [|done]. destruct (_ !! id) as [d|]; [|by split]. destruct (f d) eqn:E; [|by split].
  split_and!; simpl; [by apply K_domains|done|]. apply Forall_app. auto.
Qed.

(** A guarded write is judged on the rows that have the status. *)
Lemma safe_guarded id expected f :
  (∀ d, d_status d = Some expected → J (EWrite id d (f d))) →
  safe (write_row id (guarded (Some expected) f)) (λ _, True).
Proof.
  intros Hf. apply safe_write. intros d d'. unfold guarded.
  destruct (d_status d) as [s|] eqn:E; [|done]. destruct (s =? expected)%string eqn:Ee; intros [= <-]; [|done].
  apply Hf. simp_bool. by rewrite E, Ee.
Qed.

(** The row after the clean-up of [remove_fieds_when_stopped]. *)
Definition detached (d : domain) : domain :=
  Domain (d_status d) (HBool false) (d_accessed d) (d_viewer d) (PBool false).
Definition viewerless (d : domain) : domain :=
  Domain (d_status d) (d_hyp_started d) (d_accessed d) false (d_personal_vlans d).

Lemma safe_update status id hyp keep expected :
  (status = "Stopped" → ∀ d, d_status d = Some expected → J (EWrite id d (set_stopped status d))) →
  (status ≠ "Stopped" → ∀ d h, d_status d = Some expected →
     (keep = false → h = match hyp with HNone => HBool false | h => h end) →
     J (EWrite id d (set_status status h d))) →
  (status = "Failed" → ∀ d, J (EWrite id d (detached d))) →
  (status = "Failed" → ∀ d, d_status d = Some "Stopped" → J (EWrite id d (viewerless d))) →
  safe (update_domain_status status id hyp keep (Some expected)) (λ _, True).
Proof.
  intros Hstop Hset Hdet Hview. unfold update_domain_status. apply wp_bind.
  apply (wp_mono _ _ (λ kept, keep = false → kept = Some hyp)).
  { destruct keep; [|by apply wp_ret]. apply wp_bind.
    apply (wp_mono _ _ (λ _, True)); [apply safe_query_any|]. intros [d|] _; [|by apply wp_ret].
    destruct (d_hyp_started d); try (by apply wp_ret). apply wp_raise. }
  intros [h|] Hh; [|by apply wp_ret]. destruct (status =? "Stopped")%string eqn:Es.
  - apply String.eqb_eq in Es as ->. apply wp_bind. apply (wp_mono _ _ (λ _, True)); [|intros; by apply wp_ret].
    apply safe_guarded. auto.
  - apply String.eqb_neq in Es. apply wp_bind. apply (wp_mono _ _ (λ _, True)).
    { apply safe_guarded. intros d Hd. apply Hset; [done..|]. intros Hk. by injection (Hh Hk) as ->. }
    intros r _. apply wp_bind. apply (wp_mono _ _ (λ _, True)); [|intros; by apply wp_ret].
    destruct (status =? "Failed")%string eqn:Ef; [|by apply wp_ret]. apply String.eqb_eq in Ef.
    destruct r; try (by apply wp_ret). unfold remove_fieds_when_stopped. apply wp_bind.
    apply (wp_mono _ _ (λ _, True)); [apply safe_write; intros d d' [= <-]; by apply Hdet|].
    intros _ _. apply wp_bind. apply (wp_mono _ _ (λ _, True)); [|intros; by apply wp_ret].
    apply safe_write. intros d d' [= <-]. case_decide; [by apply Hview|done].
Qed.

Lemma safe_release id : J (ERelease id) → safe (update_vgpu_info_if_stopped id) (λ _, True).
Proof.
  intros Hj. apply wp_bind. apply (wp_mono _ _ _ _ safe_interfere). intros _ _. by apply safe_emit.
Qed.
End within.

(** ** Total correctness

    [ht P m Q]: from a world in [P], [m] returns, and its value and the world it leaves
    are in [Q]. *)
Section total.
Context {L : Type}.

Definition ht {A} (P : world L → Prop) (m : M L A) (Q : A → world L → Prop) : Prop :=
  ∀ w, P w → ∃ a, (m w).1 = Ok a ∧ Q a (m w).2.

Lemma ht_ret {A} (P : world L → Prop) (a : A) (Q : A → world L → Prop) : (∀ w, P w → Q a w) → ht P (mret a) Q.
Proof. intros H w Hw. exists a. split; [done|]. by apply H. Qed.

Lemma ht_bind {A C} P (m : M L A) (f : A → M L C) R Q :
  ht P m R → (∀ a, ht (R a) (f a) Q) → ht P (m ≫= f) Q.
Proof.
  intros Hm Hf w Hw. destruct (Hm w Hw) as (a & Ha & HR). unfold mbind, M_bind.
  destruct (m w) as [r w']. simpl in *. subst r. by apply Hf.
Qed.

Lemma ht_pure {A} P φ (m : M L A) Q : (φ → ht P m Q) → ht (λ w, P w ∧ φ) m Q.
Proof. intros H w [HP Hφ]. by apply H. Qed.

Lemma ht_mono {A} P (m : M L A) (Q Q' : A → world L → Prop) :
  ht P m Q → (∀ a w, Q a w → Q' a w) → ht P m Q'.
Proof. intros Hm HQ w Hw. destruct (Hm w Hw) as (a & ? & ?). eauto. Qed.

Lemma ht_get P (Q : L → world L → Prop) : (∀ w, P w → Q (w_local w) w) → ht P get_local Q.
Proof. intros H w Hw. exists (w_local w). split; [done|]. by apply H. Qed.

(** A caught program that keeps [P] on every path. *)
Lemma ht_try P (m : M L unit) : wp P m (λ _, True) → ht P (try_all m (λ _, mret tt)) (λ _, P).
Proof.
  intros Hm w Hw. destruct (Hm w Hw) as [Hw' _]. unfold try_all.
  destruct (m w) as [[[]|e] w']; by exists tt.
Qed.

Lemma ht_for {A} P (l : list A) f : (∀ x, x ∈ l → ht P (f x) (λ _, P)) → ht P (for_each l f) (λ _, P).
Proof.
  induction l as [|x l IH]; intros Hf; simpl; [by apply ht_ret|].
  eapply ht_bind; [apply Hf; left|]. intros u. apply IH. intros y Hy. apply Hf. by right.
Qed.

Lemma ht_fold {A C} P (φ : C → Prop) (l : list A) (b : C) f :
  φ b → (∀ c x, x ∈ l → φ c → ht P (f c x) (λ c w, P w ∧ φ c)) →
  ht P (fold_each l b f) (λ c w, P w ∧ φ c).
Proof.
  revert b. induction l as [|x l IH]; intros b Hb Hf; simpl; [by apply ht_ret|].
  eapply ht_bind; [apply Hf; [left|done]|]. intros c. apply ht_pure. intros Hc.
  apply IH; [done|]. intros d y Hy. apply Hf. by right.
Qed.

(** The same with the results of the steps, in order. *)
Lemma ht_fold_app {A C R} P (g : C → list R) (h : A → R) (φ : C → Prop) (l : list A) (b : C) f :
  φ b → (∀ c x, x ∈ l → φ c → ht P (f c x) (λ c' w, P w ∧ φ c' ∧ g c' = g c ++ [h x])) →
  ht P (fold_each l b f) (λ c w, P w ∧ φ c ∧ g c = g b ++ List.map h l).
Proof.
  revert b. induction l as [|x l IH]; intros b Hb Hf; simpl; [apply ht_ret; by rewrite app_nil_r|].
  eapply ht_bind; [apply Hf; [left|done]|]. intros c. apply ht_pure. intros [Hc Hg].
  eapply ht_mono; [apply (IH c Hc); intros d y Hy; apply Hf; by right|].
  simpl. intros c' w (? & ? & ->). split_and!; [done..|]. by rewrite Hg, <-app_assoc.
Qed.
End total.

(** [reach P m Q]: from a world in [P], [m] leaves one in [Q], returning or raising. *)
Definition reach {L A} (P : world L → Prop) (m : M L A) (Q : world L → Prop) : Prop := ∀ w, P w → Q (m w).2.

Lemma reach_bind {L A C} P (m : M L A) (f : A → M L C) R Q :
  ht P m R → (∀ a, reach (R a) (f a) Q) → reach P (m ≫= f) Q.
Proof.
  intros Hm Hf w Hw. destruct (Hm w Hw) as (a & Ha & HR). unfold mbind, M_bind.
  destruct (m w) as [r w']. simpl in *. subst r. by apply Hf.
Qed.

Lemma reach_pure {L A} P φ (m : M L A) Q : (φ → reach P m Q) → reach (λ w, P w ∧ φ) m Q.
Proof. intros H w [HP Hφ]. by apply H. Qed.

Lemma reach_wp {L A} (I : world L → Prop) (m : M L A) : reach I m I ↔ wp I m (λ _, True).
Proof. split; intros H w Hw; [by split; [apply H|]|by destruct (H w Hw)]. Qed.
