(* ===== verification/Broom.v ===== *)
(** * The broom: settling the rows of desktops with what libvirt runs

    EN/controllers/broom.py and EN/services/lib/broom_reconcile.py, where EN/ is
    src/engine/src/engine/. Each pass of the broom thread lists the domains of every
    online hypervisor and corrects the rows that disagree: it adopts domains that run,
    stops rows nothing backs, forces late shutdowns, fails stuck resets, degrades and
    recovers hypervisors and reaps domains left paused at their start.

    A pass runs in the monad [M] of [DomainStore]: other threads may change the shared
    state before each of its queries. What the pass meets outside the database, the
    answers of libvirt and of the remote probes and the state of the futures of its
    executors, is the record [observations]. A check that has not answered by the end of
    the wait goes on in the background: its writes are foreign ones. *)
From Stdlib Require Import QArith.
From stdpp Require Import pretty.
From S2P Require Import Prelude PyVal StorageStall DomainStore.

(** ** broom_reconcile.py *)
Definition ABSENT_PASSES_TO_STOP : nat := 2.
Definition IDLE_PAUSED_VCPU_S : Q := 1.
Definition IDLE_PAUSED_AFTER_S : Q := 600.
Definition STATUSES_SETTLED_WHEN_ABSENT : list string := ["Unknown"; "Started"; "Paused"].
Definition STATUSES_NEVER_REAPED : list string :=
  ["CreatingDomain"; "CreatingAndStarting"; "CreatingDiskFromScratch"; "StartingDomainDisposable";
   "StartingPaused"; "Starting"; "Stopping"; "Shutting-down"; "Resetting"; "Deleting"; "ForceDeleting"].

(** The state [list_domain_states] gives of a domain. *)
Record lstate := LState { s_status : string; s_detail : string; s_vcpu_time : option Q }.

(** The domains of one hypervisor by name, and the listings of several. *)
Notation listing := (list (string * lstate)).
Notation listings := (list (string * listing)).

(** CPU time in nanoseconds per vCPU, to seconds *)
Definition vcpu_seconds (vcpus : list Z) : Q := inject_Z (sum_by id vcpus) / inject_Z (10 ^ 9).

Definition _hyp_of (d : domain) : option string :=
  match d_hyp_started d with
  | HStr s => if (s =? "")%string then None else Some s
  | _ => None
  end.

Definition settled_status (d : domain) : option string :=
  match d_status d with
  | Some s => if mem s STATUSES_SETTLED_WHEN_ABSENT then Some s else None
  | None => None
  end.

(** [(status, hyp_id)] and how many passes in a row *)
Notation sighting := (string * option string * nat)%type.

Record AbsenceTracker := Absence { passes : nat; _seen : gmap string sighting }.
Definition new_absence : AbsenceTracker := Absence ABSENT_PASSES_TO_STOP ∅.

Definition listed (ls : listings) : list string := flat_map (λ e : string * listing, List.map fst e.2) ls.

(** Every online hypervisor answered. *)
Definition complete (online : list string) (ls : listings) : bool :=
  negb (length online =? 0)%nat && forallb (λ h, mem h (List.map fst ls)) online.

(** What the tracker notes of a row, or nothing when it skips it. *)
Definition sight (ls : listings) (is_held : string → bool) (seen : gmap string sighting)
    (row : string * domain) : option sighting :=
  match settled_status row.2 with
  | None => None
  | Some status =>
      if mem row.1 (listed ls) || is_held row.1 then None
      else
        let hyp_id := _hyp_of row.2 in
        if match hyp_id with Some h => negb (mem h (List.map fst ls)) | None => false end then None
        else
          let key := (status, hyp_id) in
          Some (key, match seen !! row.1 with
                     | Some (key', n) => if decide (key' = key) then S n else 1%nat
                     | None => 1%nat
                     end)
  end.

Definition absent (rows : list (string * domain)) (online : list string) (ls : listings)
    (is_held : string → bool) (t : AbsenceTracker) : list (string * domain) * AbsenceTracker :=
  if negb (complete online ls) then ([], Absence (passes t) ∅)
  else
    let '(seen, due) :=
      foldl (λ acc row,
        match sight ls is_held (_seen t) row with
        | None => acc
        | Some s => (<[row.1 := s]> acc.1, if (passes t <=? s.2)%nat then acc.2 ++ [row] else acc.2)
        end) (∅, []) rows in
    (due, Absence (passes t) seen).

(** [round(x, 3)], in thousandths; a tie goes to the even one. *)
Definition round3 (q : Q) : Z :=
  let n := (1000 * Qnum q)%Z in
  let d := Zpos (Qden q) in
  let f := (n / d)%Z in
  let r := (2 * (n - f * d))%Z in
  if (r <? d)%Z then f else if (d <? r)%Z then (f + 1)%Z else if Z.even f then f else (f + 1)%Z.

(** [(hyp_id, round(vcpu_time, 3), status)] and since when *)
Notation idling := (string * Z * string * Q)%type.

Record IdlePausedTracker := IdlePaused { after_s : Q; vcpu_s : Q; _since : gmap string idling }.
Definition new_idle_paused : IdlePausedTracker := IdlePaused IDLE_PAUSED_AFTER_S IDLE_PAUSED_VCPU_S ∅.

(** [a < b] *)
Definition Qltb (a b : Q) : bool := negb (Qle_bool b a).

(** The vCPU time of a paused domain whose vCPUs ran less than [vcpu_s]. *)
Definition idle_time (vcpu_s : Q) (st : lstate) : option Q :=
  if (s_status st =? "Paused")%string
  then match s_vcpu_time st with Some t => if Qltb t vcpu_s then Some t else None | None => None end
  else None.

Definition candidates (ls : listings) : gset string :=
  list_to_set (flat_map (λ e : string * listing,
    omap (λ d, (λ _, d.1) <$> idle_time IDLE_PAUSED_VCPU_S d.2) e.2) ls).

Definition due_of (statuses : gmap string (option string)) (is_held : string → bool) (now : Q)
    (t : IdlePausedTracker) (acc : gmap string idling * list (string * string * string * Q))
    (hyp_id : string) (d : string * lstate) : gmap string idling * list (string * string * string * Q) :=
  match idle_time (vcpu_s t) d.2, mjoin (statuses !! d.1) with
  | Some v, Some status =>
      if mem status STATUSES_NEVER_REAPED || is_held d.1 then acc
      else
        let key := (hyp_id, round3 v, status) in
        let first := match _since t !! d.1 with
                     | Some (key', f) => if decide (key' = key) then f else now
                     | None => now
                     end in
        (<[d.1 := (key, first)]> acc.1,
         if Qle_bool (after_s t) (now - first) then acc.2 ++ [(hyp_id, d.1, status, v)] else acc.2)
  | _, _ => acc
  end.

Definition due (ls : listings) (statuses : gmap string (option string)) (is_held : string → bool) (now : Q)
    (t : IdlePausedTracker) : list (string * string * string * Q) * IdlePausedTracker :=
  let '(since, out) :=
    foldl (λ acc e, foldl (λ acc d, due_of statuses is_held now t acc e.1 d) acc e.2) (∅, []) ls in
  (out, IdlePaused (after_s t) (vcpu_s t) since).

(** ** broom.py *)
Definition BROOM_HYP_TIMEOUT : Z := 30.
Definition REASON_MAX_CHARS : nat := 200.
Definition BROOM_SHUTDOWN_TIMEOUT : Z := 90.
Definition UNPICKED_START_GRACE_S : Q := 300.
Definition STATUSES_ALREADY_ACCOUNTED_FOR : list string :=
  ["Started"; "Paused"; "Shutting-down"; "Stopping"; "Deleting"; "ForceDeleting";
   "CreatingDomain"; "CreatingAndStarting"; "CreatingDiskFromScratch"; "StartingDomainDisposable"].
Definition STATUSES_IN_CREATION : list string :=
  ["CreatingDomain"; "CreatingAndStarting"; "CreatingDiskFromScratch"; "StartingDomainDisposable"].
Definition STATUSES_SKIPPED_WITHOUT_HYPERVISOR : list string := ["Stopping"; "Starting"; "StartingPaused"].

(** [now - accessed >= grace] *)
Definition reap_domain_without_hypervisor (d : domain) (now : Q) : bool :=
  match d_status d with
  | Some s =>
      if mem s STATUSES_SKIPPED_WITHOUT_HYPERVISOR then
        match d_accessed d with
        | Some v => match as_number v with
                    | Some a => float_ge (float_since now a) (FFin UNPICKED_START_GRACE_S)
                    | None => false
                    end
        | None => false
        end
      else true
  | None => true
  end.

(** *** What a pass meets *)
Record hyp_view := View {
  v_connected : bool;
  v_storage : res unit;
  v_listing : res listing;
  v_destroys : string → bool;
}.

Inductive check_end := CDone | CRaised (e : string) | CQueued | CRunning (started_at : Q).
Inductive probe_end := PDone (out : remote_out) | PFailed (e : string) | PPending.

Record observations := Obs {
  o_enabled : bool;
  o_decode : string → string;
  o_exn : exn → string;
  o_view : string → hyp_view;
  o_prev_done : string → bool;
  o_prev_started : string → option Q;
  o_check : string → check_end;
  o_probe_prev_done : string → bool;
  o_probe : string → probe_end;
  o_reaped : string → bool;
}.

Record broom := Broom {
  b_disk_interval : Z;
  _broom_degraded_hyps : gmap string string;
  _inflight : gset string;
  _probe_inflight : gmap string Q;
  _stall : SharedStorageStall;
  _absence : AbsenceTracker;
  _idle_paused : IdlePausedTracker;
  _reaping : gset string;
}.

Notation B := (M broom).

Definition set_degraded_hyps f : B unit :=
  b ← get_local; put_local (Broom (b_disk_interval b) (f (_broom_degraded_hyps b)) (_inflight b)
    (_probe_inflight b) (_stall b) (_absence b) (_idle_paused b) (_reaping b)).
Definition set_inflight f : B unit :=
  b ← get_local; put_local (Broom (b_disk_interval b) (_broom_degraded_hyps b) (f (_inflight b))
    (_probe_inflight b) (_stall b) (_absence b) (_idle_paused b) (_reaping b)).
Definition set_probe_inflight f : B unit :=
  b ← get_local; put_local (Broom (b_disk_interval b) (_broom_degraded_hyps b) (_inflight b)
    (f (_probe_inflight b)) (_stall b) (_absence b) (_idle_paused b) (_reaping b)).
Definition set_stall t : B unit :=
  b ← get_local; put_local (Broom (b_disk_interval b) (_broom_degraded_hyps b) (_inflight b)
    (_probe_inflight b) t (_absence b) (_idle_paused b) (_reaping b)).
Definition set_absence t : B unit :=
  b ← get_local; put_local (Broom (b_disk_interval b) (_broom_degraded_hyps b) (_inflight b)
    (_probe_inflight b) (_stall b) t (_idle_paused b) (_reaping b)).
Definition set_idle t f : B unit :=
  b ← get_local; put_local (Broom (b_disk_interval b) (_broom_degraded_hyps b) (_inflight b)
    (_probe_inflight b) (_stall b) (_absence b) t (f (_reaping b))).
Definition set_disk z : B unit :=
  b ← get_local; put_local (Broom z (_broom_degraded_hyps b) (_inflight b)
    (_probe_inflight b) (_stall b) (_absence b) (_idle_paused b) (_reaping b)).

(** [ThreadBroom.__init__]: the stall is resumed from the database, the holds are
    forgotten. *)
Definition new_broom : B unit :=
  _ ← put_local (Broom 0 ∅ ∅ ∅ (new_stall STALL_CLEAR_PASSES) new_absence new_idle_paused ∅);
  s ← query stall_doc;
  _ ← set_stall (resume s (new_stall STALL_CLEAR_PASSES));
  reset.

(** *** The storage of the hypervisors *)
Definition _probe_storage (o : observations) (hyp_id : string) (out : probe_end) : B probe :=
  known ← query (λ s, match hyps s !! hyp_id with Some h => h_hostname h | None => false end);
  mret (if known : bool then
          match out with
          | PDone out => Probe (parse_probe_output (o_decode o) out) None
          | PFailed e => Probe [] (Some e)
          | PPending => Probe [] (Some ("probe did not answer within " +:+ pretty PROBE_DEADLINE_S +:+ "s"))
          end
        else Probe [] (Some "no hostname in database")).

Definition probe_one (o : observations) (now : Q) (acc : gmap string probe * list string) (hyp_id : string)
    : B (gmap string probe * list string) :=
  b ← get_local;
  match _probe_inflight b !! hyp_id with
  | Some since =>
      if o_probe_prev_done o hyp_id then
        _ ← set_probe_inflight <[hyp_id := now]>; mret (acc.1, acc.2 ++ [hyp_id])
      else
        mret (<[hyp_id := Probe [] (Some ("probe has not answered for " +:+
                 pretty (int_time (now - since)) +:+ "s"))]> acc.1, acc.2)
  | None => _ ← set_probe_inflight <[hyp_id := now]>; mret (acc.1, acc.2 ++ [hyp_id])
  end.

(** The futures that are done: of this pass, as [o_probe] says, of an earlier one, as
    [o_probe_prev_done] does. *)
Definition probe_is_done (o : observations) (submitted : list string) (hyp_id : string) : bool :=
  if mem hyp_id submitted then match o_probe o hyp_id with PPending => false | _ => true end
  else o_probe_prev_done o hyp_id.

Definition _probe_storage_concurrent (o : observations) (hyp_ids : list string) : B (gmap string probe) :=
  now ← time_now;
  r ← fold_each hyp_ids (∅, []) (probe_one o now);
  results ← fold_each r.2 r.1 (λ acc hyp_id,
    match o_probe o hyp_id with
    | PPending => mret (<[hyp_id := Probe [] (Some ("probe did not answer within " +:+
                          pretty PROBE_DEADLINE_S +:+ "s"))]> acc)
    | out => p ← _probe_storage o hyp_id out; mret (<[hyp_id := p]> acc)
    end);
  _ ← set_probe_inflight (filter (λ e, mem e.1 hyp_ids = true ∨ probe_is_done o r.2 e.1 = false));
  mret results.

Definition _observe_shared_stall (online : list string) (hung_by_hyp : gmap string (list string)) (now : Q)
    : B unit :=
  b ← get_local;
  let '(tr, t) := observe online hung_by_hyp now (_stall b) in
  _ ← set_stall t;
  match tr with
  | None => mret tt
  | Some TClear => modify (with_stall_doc (last_cleared t))
  | Some _ => modify (with_stall_doc (state t))
  end.

Definition _assess_storage (o : observations) (hyp_ids : list string) : B (gmap string string) :=
  probes ← _probe_storage_concurrent o hyp_ids;
  healths ← get_hyps_health hyp_ids;
  now ← time_now;
  a ← of_res (assess_hypervisors hyp_ids probes healths now);
  _ ← _observe_shared_stall hyp_ids a.2 now;
  mret a.1.

(** *** The check of one hypervisor *)
Record check_result := Checked {
  c_success : bool;
  c_active_domains : listing;
  c_states : listing;
  c_error : string;
}.
Definition failed_check (error : string) : check_result := Checked false [] [] error.

(** A domain libvirt runs that no row of the pass places on a hypervisor: [acc] holds
    the domains destroyed and the domains handled. *)
Definition check_domain (hyp_id : string) (v : hyp_view) (ids : gset string)
    (acc : list string * list string) (d : string * lstate) : B (list string * list string) :=
  if decide (d.1 ∈ ids) then mret acc
  else
    held ← holder d.1;
    match held with
    | Some _ => mret (acc.1, acc.2 ++ [d.1])
    | None =>
        domain_status ← get_domain_status d.1;
        match domain_status with
        | None =>
            if v_destroys v d.1
            then _ ← emit (EDestroy hyp_id d.1); mret (acc.1 ++ [d.1], acc.2)
            else mret acc
        | Some s =>
            _ ← (if mem s STATUSES_ALREADY_ACCOUNTED_FOR then mret None
                 else if (s_status d.2 =? "Paused")%string
                 then update_domain_hyp_started d.1 hyp_id "Paused" (Some s)
                 else update_domain_hyp_started d.1 hyp_id "Started" (Some s));
            mret (acc.1, acc.2 ++ [d.1])
        end
    end.

Definition _check_single_hypervisor (o : observations) (disk_interval : Z) (ids : gset string)
    (hyp_id : string) : B check_result :=
  try_all (
    known ← query (λ s, match hyps s !! hyp_id with Some h => h_hostname h | None => false end);
    let v := o_view o hyp_id in
    if negb known then mret (failed_check ("hyp " +:+ hyp_id +:+ " has no hostname or is not in database"))
    else if negb (v_connected v)
    then mret (failed_check ("HYPERVISOR " +:+ hyp_id +:+ " libvirt connection failed"))
    else
      _ ← (if (disk_interval =? 1)%Z then of_res (v_storage v) else mret tt);
      states ← of_res (v_listing v);
      acc ← fold_each states ([], []) (check_domain hyp_id v ids);
      mret (Checked true (List.filter (λ d, negb (mem d.1 (acc.1 ++ acc.2))) states) states ""))
    (λ e, mret (failed_check (o_exn o e))).

(** *** Every hypervisor *)
Definition _mark_degraded (hyp_id reason : string) : B unit :=
  b ← get_local;
  if decide (_broom_degraded_hyps b !! hyp_id = Some reason) then mret tt
  else
    try_all (
      _ ← update_hyp_degraded_status hyp_id true (Some reason) None;
      set_degraded_hyps <[hyp_id := reason]>) (λ _, mret tt).

Definition timeout_reason : string := "libvirt: check did not answer within " +:+ pretty BROOM_HYP_TIMEOUT +:+ "s".

(** [acc]: the hypervisors that failed, with the reason, and the checks submitted *)
Definition submit_check (o : observations) (now : Q) (acc : gmap string string * list string) (hyp_id : string)
    : B (gmap string string * list string) :=
  b ← get_local;
  if decide (hyp_id ∈ _inflight b) then
    if o_prev_done o hyp_id then
      _ ← set_inflight (λ i, {[hyp_id]} ∪ i); mret (acc.1, acc.2 ++ [hyp_id])
    else
      mret (match o_prev_started o hyp_id with
            | Some t => if Qltb (inject_Z BROOM_HYP_TIMEOUT) (now - t)
                        then <[hyp_id := timeout_reason]> acc.1 else acc.1
            | None => acc.1
            end, acc.2)
  else _ ← set_inflight (λ i, {[hyp_id]} ∪ i); mret (acc.1, acc.2 ++ [hyp_id]).

(** What a successful check leaves: [(hyp_id, (active_domains, states))] *)
Notation answers := (list (string * (listing * listing))).

(** [acc]: the failed ones and the answers, which are those that succeeded *)
Definition collect_check (o : observations) (disk_interval : Z) (ids : gset string)
    (acc : gmap string string * answers) (hyp_id : string) : B (gmap string string * answers) :=
  match o_check o hyp_id with
  | CDone =>
      r ← _check_single_hypervisor o disk_interval ids hyp_id;
      mret (if c_success r
            then (acc.1, acc.2 ++ [(hyp_id, (c_active_domains r, c_states r))])
            else (<[hyp_id := "libvirt: check failed: " +:+
                     (if (c_error r =? "")%string then "unknown" else c_error r)]> acc.1, acc.2))
  | CRaised e => mret (<[hyp_id := "libvirt: check raised: " +:+ e]> acc.1, acc.2)
  | CQueued => mret acc
  | CRunning t =>
      now ← time_now;
      mret (if Qle_bool (inject_Z BROOM_HYP_TIMEOUT) (now - t)
            then (<[hyp_id := timeout_reason]> acc.1, acc.2) else acc)
  end.

(** The write of a recovery; [also] is what follows it. *)
Definition recover (hyp_id : string) (also : B unit) : B unit :=
  try_all (
    _ ← update_hyp_degraded_status hyp_id false None None;
    _ ← clear_libvirt_warning hyp_id;
    also) (λ _, mret tt).

Definition _check_hypervisors_concurrent (o : observations) (hyp_ids : list string) (disk_interval : Z)
    (ids : gset string) (causes : gmap string string) : B answers :=
  _ ← for_each (map_to_list causes) (λ c,
        if mem c.1 hyp_ids then _mark_degraded c.1 c.2 else mret tt);
  let hyp_ids := List.filter (λ h, match causes !! h with Some _ => false | None => true end) hyp_ids in
  _ ← set_inflight (filter (λ h, mem h hyp_ids = true ∨ o_prev_done o h = false));
  if (length hyp_ids =? 0)%nat then mret []
  else
    now ← time_now;
    sub ← fold_each hyp_ids (∅, []) (submit_check o now);
    res ← fold_each sub.2 (sub.1, []) (collect_check o disk_interval ids);
    _ ← for_each (map_to_list res.1) (λ f, _mark_degraded f.1 (String.substring 0 REASON_MAX_CHARS f.2));
    let succeeded : gset string := list_to_set (List.map fst res.2) in
    b ← get_local;
    _ ← for_each (elements (dom (_broom_degraded_hyps b) ∩ succeeded)) (λ h,
          recover h (set_degraded_hyps (delete h)));
    _ ← try_all (
          db_degraded ← get_degraded_hyp_ids_any_check_may_clear;
          b ← get_local;
          for_each (elements ((db_degraded ∩ succeeded) ∖ dom (_broom_degraded_hyps b))) (λ h,
            recover h (mret tt))) (λ _, mret tt);
    mret res.2.

(** *** Settling the rows *)
Definition is_held_in (held : gmap string held_entry) (id : string) : bool :=
  match held !! id with Some _ => true | None => false end.

Definition states_of (a : answers) : listings := List.map (λ e, (e.1, e.2.2)) a.

(** The status of a row of a query by status. *)
Definition row_status (d : domain) : string := default "" (d_status d).

Definition stop_row (row : string * domain) : B unit :=
  _ ← update_domain_status "Stopped" row.1 HNone false (Some (row_status row.2));
  update_vgpu_info_if_stopped row.1.

(** The holds are read once, at the start of the loop of the tracker, where the code asks
    [_is_held] row by row: a hold that changes during that loop counts as it was at its
    start. The loop makes no other call. *)
Definition _settle_absent (rows : list (string * domain)) (online : list string) (a : answers) : B unit :=
  held ← query _held;
  b ← get_local;
  let '(due, t) := absent rows online (states_of a) (is_held_in held) (_absence b) in
  _ ← set_absence t;
  for_each due stop_row.

Definition _reap_idle_paused (o : observations) (a : answers) (now : Q) : B (list (string * string * string * Q)) :=
  let ls := states_of a in
  statuses ← fold_each (elements (candidates ls)) ∅ (λ acc id, s ← get_domain_status id; mret (<[id := s]> acc));
  held ← query _held;
  b ← get_local;
  let '(out, t) := due ls statuses (is_held_in held) now (_idle_paused b) in
  let reaping := filter (λ id, o_reaped o id = false) (_reaping b) in
  let submitted := foldl (λ acc (r : string * string * string * Q),
    if decide (r.1.1.2 ∈ reaping ∪ list_to_set ((λ r : string * string * string * Q, r.1.1.2) <$> acc))
    then acc else acc ++ [r]) [] out in
  _ ← set_idle t (λ _, reaping ∪ list_to_set ((λ r : string * string * string * Q, r.1.1.2) <$> submitted));
  mret submitted.

(** The reaper, in a thread of the executor: [seen] is the state and the vCPU time it
    finds, [None] when the lookup raises. *)
Definition _destroy_idle_paused (connected : bool) (seen : option (string * Q)) (destroys : bool)
    (r : string * string * string * Q) : B bool :=
  let '(hyp_id, id, status, vcpu_time) := r in
  known ← query (λ s, match hyps s !! hyp_id with Some h => h_hostname h | None => false end);
  if negb known || negb connected then mret false
  else match seen with
       | None => raise ValueError
       | Some (st, v) =>
           if negb (st =? "Paused")%string then mret false
           else if Qltb (vcpu_time + (1 # 1000)) v then mret false
           else if negb destroys then raise ValueError
           else
             _ ← emit (EDestroy hyp_id id);
             _ ← update_domain_status "Stopped" id HNone false (Some status);
             _ ← update_vgpu_info_if_stopped id;
             mret true
       end.

(** A domain that runs with no row of the pass, not handled by the check. *)
Definition settle_active (hyp_id : string) (ids : gset string) (d : string * lstate) : B unit :=
  if decide (d.1 ∈ ids) then mret tt
  else
    s ← get_domain_status d.1;
    match s with
    | None => mret tt
    | Some db_status =>
        if mem db_status STATUSES_IN_CREATION then mret tt
        else if (s_status d.2 =? "Started")%string then
          if mem db_status ["ForceDeleting"] then mret tt
          else _ ← update_domain_hyp_started d.1 hyp_id (s_status d.2) (Some db_status); mret tt
        else if (s_status d.2 =? "Paused")%string && (s_detail d.2 =? "paused on user request")%string then
          if mem db_status ["Stopped"; "ForceDeleting"] then mret tt
          else _ ← update_domain_hyp_started d.1 hyp_id (s_status d.2) (Some db_status); mret tt
        else mret tt
    end.

(** [int(d["accessed"])] *)
Definition accessed_int (d : domain) : res Z :=
  match d_accessed d with None => Raise KeyError | Some v => py_int v end.

(** A row with a hypervisor that answered. *)
Definition settle_row (a : answers) (row : string * domain) : B unit :=
  match _hyp_of row.2 with
  | None => mret tt
  | Some hyp =>
      match assoc hyp a with
      | None => mret tt
      | Some (active, _) =>
          let status := row_status row.2 in
          let runs := mem row.1 (List.map fst active) in
          if (status =? "Starting")%string then
            if runs then _ ← update_domain_hyp_started row.1 hyp "Started" (Some status); mret tt
            else mret tt
          else if (status =? "Stopping")%string then
            if runs then mret tt else stop_row row
          else if (status =? "Resetting")%string then
            now ← time_now;
            t ← of_res (accessed_int row.2);
            if (60 <? int_time now - t)%Z
            then _ ← update_domain_status "Failed" row.1 HNone false (Some status); mret tt
            else mret tt
          else if (status =? "Shutting-down")%string then
            if runs then
              now ← time_now;
              t ← of_res (accessed_int row.2);
              if (BROOM_SHUTDOWN_TIMEOUT <? int_time now - t)%Z
              then _ ← update_domain_status "Stopping" row.1 HNone true (Some status); mret tt
              else mret tt
            else stop_row row
          else mret tt
      end
  end.

Definition without_hyp (row : string * domain) : bool :=
  match _hyp_of row.2 with None => true | Some _ => false end.

(** The body of one pass. *)
Definition broom_pass (o : observations) (disk_interval : Z) : B unit :=
  l ← get_domains_with_transitional_status true;
  let DB_DOMAINS_WITHOUT_HYP := List.filter without_hyp l in
  let DB_DOMAINS_STARTED_WITH_HYP := List.filter (λ r, negb (without_hyp r)) l in
  let ids : gset string := list_to_set (List.map fst DB_DOMAINS_STARTED_WITH_HYP) in
  now ← time_now;
  _ ← for_each DB_DOMAINS_WITHOUT_HYP (λ r,
        if reap_domain_without_hypervisor r.2 now
        then _ ← update_domain_status "Unknown" r.1 HNone false (Some (row_status r.2)); mret tt
        else mret tt);
  online ← get_hyp_hostnames_online;
  causes ← _assess_storage o online;
  answered ← _check_hypervisors_concurrent o online disk_interval ids causes;
  _ ← for_each answered (λ e, for_each e.2.1 (settle_active e.1 ids));
  unknown_rows ← get_domains_with_status_in_list ["Unknown"];
  _ ← _settle_absent (unknown_rows ++ l) online answered;
  now ← time_now;
  _ ← _reap_idle_paused o answered now;
  _ ← for_each DB_DOMAINS_WITHOUT_HYP (λ r,
        if (row_status r.2 =? "Stopping")%string then stop_row r else mret tt);
  for_each DB_DOMAINS_STARTED_WITH_HYP (settle_row answered).

(** One turn of the loop of [polling], exceptions swallowed. *)
Definition polling (o : observations) : B unit :=
  b ← get_local;
  let d := ((if (300 <=? b_disk_interval b)%Z then 0 else b_disk_interval b) + 1)%Z in
  _ ← set_disk d;
  if o_enabled o then try_all (broom_pass o d) (λ _, mret tt) else mret tt.

(** ** One call of the tracker of absent rows *)
Definition is_due (ls : listings) (is_held : string → bool) (t : AbsenceTracker) (row : string * domain) : bool :=
  match sight ls is_held (_seen t) row with Some s => (passes t <=? s.2)%nat | None => false end.

Lemma absent_spec rows online ls is_held t due t' :
  absent rows online ls is_held t = (due, t') → complete online ls = true →
  due = List.filter (is_due ls is_held t) rows ∧ passes t' = passes t ∧
  (∀ id s, _seen t' !! id = Some s → ∃ d, (id, d) ∈ rows ∧ sight ls is_held (_seen t) (id, d) = Some s) ∧
  (∀ id d s, (∀ d', (id, d') ∈ rows → d' = d) → (id, d) ∈ rows →
     sight ls is_held (_seen t) (id, d) = Some s → _seen t' !! id = Some s).
Proof.
  intros H Hc. unfold absent in H. rewrite Hc in H. simpl in H. revert H.
  destruct (foldl _ _ rows) as [seen out] eqn:E. intros [= <- <-]. simpl. revert seen out E.
  induction rows as [|[x dx] rows IH] using rev_ind; intros seen out.
  { simpl. intros [= <- <-]. split_and!; [done..| |]; intros *; [by rewrite lookup_empty|set_solver]. }
  rewrite foldl_app. destruct (foldl _ _ rows) as [seen0 out0]. simpl.
  destruct (IH seen0 out0 eq_refl) as (Hd & _ & Hs & Hn). clear IH.
  rewrite List.filter_app. simpl. unfold is_due at 2.
  destruct (sight ls is_held (_seen t) (x, dx)) as [s|] eqn:Es; intros [= <- <-]; simpl.
  - split_and!; [by destruct (_ <=? _)%nat; rewrite ?Hd, ?app_nil_r|done| |].
    + intros id s' [[<- <-]|[Hne Hl]]%lookup_insert_Some; [exists dx; set_solver|].
      destruct (Hs id s' Hl) as (d & ? & ?). exists d. set_solver.
    + intros id d s' Huq Hin Hs'. destruct (decide (x = id)) as [->|Hne].
      * rewrite lookup_insert_eq. rewrite <-(Huq dx) in Hs' by set_solver. congruence.
      * rewrite lookup_insert_ne by done. apply (Hn id d); [set_solver..|done].
  - split_and!; [by rewrite app_nil_r|done| |].
    + intros id s' Hl. destruct (Hs id s' Hl) as (d & ? & ?). exists d. set_solver.
    + intros id d s' Huq Hin Hs'. destruct (decide (x = id)) as [->|Hne].
      * rewrite <-(Huq dx) in Hs' by set_solver. congruence.
      * apply (Hn id d); [set_solver..|done].
Qed.

(** What the call leaves noted of a domain: the sighting of the last of its rows that it did
    not skip. *)
Lemma absent_seen rows online ls is_held t id s :
  complete online ls = true →
  _seen (absent rows online ls is_held t).2 !! id = Some s ↔
  ∃ pre d post, rows = pre ++ (id, d) :: post ∧ sight ls is_held (_seen t) (id, d) = Some s ∧
    ∀ d', (id, d') ∈ post → sight ls is_held (_seen t) (id, d') = None.
Proof.
  intros Hc. unfold absent. rewrite Hc. simpl. destruct (foldl _ _ rows) as [seen out] eqn:E. simpl. revert seen out E.
  induction rows as [|[x dx] rows IH] using rev_ind; intros seen out.
  { intros [= <- <-]. rewrite lookup_empty. split; [done|]. intros ([] & ? & ? & ? & _); done. }
  rewrite foldl_app. destruct (foldl _ _ rows) as [seen0 out0]. specialize (IH seen0 out0 eq_refl). simpl.
  intros H. trans (if decide (x = id) then sight ls is_held (_seen t) (x, dx) = Some s ∨
    sight ls is_held (_seen t) (x, dx) = None ∧ seen0 !! id = Some s else seen0 !! id = Some s).
  { destruct (sight _ _ _ _) as [s0|]; injection H as <- <-; case_decide as Hx; subst.
    - rewrite lookup_insert_eq. naive_solver.
    - by rewrite lookup_insert_ne.
    - naive_solver.
    - done. }
  case_decide as Hx; [subst x|]; rewrite IH; split.
  - intros [H'|[H' (pre & d & post & -> & Hs & Hp)]].
    + exists rows, dx, []. set_solver.
    + exists pre, d, (post ++ [(id, dx)]). rewrite <-app_assoc. set_solver.
  - intros (pre & d & post & Heq & Hs & Hp). destruct post as [|e post _] using rev_ind.
    + apply app_inj_tail in Heq as [-> [= ->]]. by left.
    + rewrite app_comm_cons, app_assoc in Heq. apply app_inj_tail in Heq as [-> <-]. right.
      split; [set_solver|]. exists pre, d, post. set_solver.
  - intros (pre & d & post & -> & Hs & Hp). exists pre, d, (post ++ [(x, dx)]). rewrite <-app_assoc. set_solver.
  - intros (pre & d & post & Heq & Hs & Hp). destruct post as [|e post _] using rev_ind.
    + by apply app_inj_tail in Heq as [-> [= ->]].
    + rewrite app_comm_cons, app_assoc in Heq. apply app_inj_tail in Heq as [-> <-].
      exists pre, d, post. set_solver.
Qed.

(** The row has the status and the hypervisor of [key], the status is one the tracker
    counts (Unknown, Started or Paused), no listing has the domain, nobody holds it, and the
    hypervisor, when there is one, answered. *)
Definition unbacked (ls : listings) (is_held : string → bool) (row : string * domain)
    (key : string * option string) : Prop :=
  d_status row.2 = Some key.1 ∧ key.1 ∈ STATUSES_SETTLED_WHEN_ABSENT ∧ _hyp_of row.2 = key.2 ∧
  row.1 ∉ listed ls ∧ is_held row.1 = false ∧ (∀ h, key.2 = Some h → h ∈ List.map fst ls).

Lemma sight_key ls is_held seen row key n :
  sight ls is_held seen row = Some (key, n) →
  unbacked ls is_held row key ∧
  n = match seen !! row.1 with
      | Some (key', n') => if decide (key' = key) then S n' else 1
      | None => 1
      end%nat.
Proof.
  unfold sight, settled_status, unbacked.
  destruct (d_status row.2) as [s|]; [|done].
  destruct (mem s _) eqn:Hm; [|done]. destruct (mem row.1 _) eqn:Hl; [done|].
  destruct (is_held row.1); [done|]. simpl. apply mem_spec in Hm. apply mem_false in Hl.
  destruct (_hyp_of row.2) as [h|]; [destruct (mem h _) eqn:Hh; [|done]; apply mem_spec in Hh|];
    simpl; intros [= <- <-]; simpl; split; (try done); split_and!; (try done); intros ? [= <-]; done.
Qed.

Lemma sight_unbacked ls is_held seen row key :
  unbacked ls is_held row key → ∃ n, sight ls is_held seen row = Some (key, n).
Proof.
  destruct key as [s h]. unfold unbacked, sight, settled_status. cbn [fst snd].
  intros (-> & Hs & -> & Hl & -> & Hh). apply mem_spec in Hs as ->. apply mem_false in Hl as ->. cbn [orb].
  destruct h as [h|]; [|by eexists]. specialize (Hh h eq_refl). apply mem_spec in Hh as ->. by eexists.
Qed.

Lemma complete_spec online ls :
  complete online ls = true ↔ online ≠ [] ∧ ∀ h, h ∈ online → h ∈ List.map fst ls.
Proof.
  unfold complete. rewrite andb_true_iff, negb_true_iff, Nat.eqb_neq, forallb_Forall, Forall_forall.
  setoid_rewrite mem_spec. destruct online; naive_solver.
Qed.

(** ** What a pass may do

    The changes of the broom, each with what justifies it. [on] are the hypervisors
    online during the pass. *)

(** The hypervisor answered and lists the domain, or does not. *)
Definition lists (o : observations) (hyp_id id : string) : Prop :=
  ∃ ls, v_listing (o_view o hyp_id) = Ok ls ∧ id ∈ List.map fst ls.
Definition lacks (o : observations) (hyp_id id : string) : Prop :=
  ∃ ls, v_listing (o_view o hyp_id) = Ok ls ∧ id ∉ List.map fst ls.

Definition READ_STATUSES : list string := TRANSITIONAL_STATUS ++ ["Started"; "Paused"; "Resetting"].

Inductive justified (o : observations) (on : gset string) : event → Prop :=
  | j_same id d : justified o on (EWrite id d d)
  | j_orphan id d s :
      d_status d = Some s → s ∈ READ_STATUSES →
      justified o on (EWrite id d (set_status "Unknown" (HBool false) d))
  | j_adopt id d s hyp new :
      d_status d = Some s → s ∉ STATUSES_IN_CREATION → s ≠ "ForceDeleting" →
      lists o hyp id → new ∈ ["Started"; "Paused"] →
      justified o on (EWrite id d (set_status new (HStr hyp) d))
  | j_absent id d s :
      d_status d = Some s → s ∈ STATUSES_SETTLED_WHEN_ABSENT → on ≠ ∅ →
      (∀ h, h ∈ on → lacks o h id) →
      justified o on (EWrite id d (set_stopped "Stopped" d))
  | j_vanished id d s hyp :
      d_status d = Some s → s ∈ ["Stopping"; "Shutting-down"] → lacks o hyp id →
      justified o on (EWrite id d (set_stopped "Stopped" d))
  | j_unplaced id d :
      d_status d = Some "Stopping" →
      justified o on (EWrite id d (set_stopped "Stopped" d))
  | j_late_shutdown id d h hyp :
      d_status d = Some "Shutting-down" → lists o hyp id →
      justified o on (EWrite id d (set_status "Stopping" h d))
  | j_stuck_reset id d :
      d_status d = Some "Resetting" →
      justified o on (EWrite id d (set_status "Failed" (HBool false) d))
  | j_detach id d : justified o on (EWrite id d (detached d))
  | j_viewer id d :
      d_status d = Some "Stopped" → justified o on (EWrite id d (viewerless d))
  | j_destroy hyp id : lists o hyp id → justified o on (EDestroy hyp id)
  | j_release id : justified o on (ERelease id).
#[local] Hint Constructors justified : isard.

(** The online hypervisors of the table are those of [on]. *)
Definition fleet (on : gset string) (s : shared) : Prop :=
  ∀ h, (∃ r, hyps s !! h = Some r ∧ h_online r = true) ↔ h ∈ on.

Ltac wp_step := apply wp_bind; eapply wp_mono; [|intros ? ?].
Ltac wp_any := apply wp_bind; apply (wp_mono _ _ (λ _, True)); [|intros ? _].
Ltac wp_done := first [by apply wp_ret | apply wp_raise].

Section pass_safety.
Context (o : observations) (on : gset string).
Notation safe := (wp (L := broom) (within (fleet on) (justified o on))).

Lemma fleet_domains f s : fleet on s → fleet on (with_domains f s).
Proof. done. Qed.

Lemma fleet_alter f h s :
  (∀ r, h_online (f r) = h_online r) → fleet on s → fleet on (with_hyps (alter f h) s).
Proof.
  intros Hf Hs x. rewrite <-(Hs x). simpl. destruct (decide (x = h)) as [->|Hne].
  - rewrite lookup_alter_eq. destruct (hyps s !! h) as [r|]; simpl; [|naive_solver].
    split; intros (r' & [= <-] & Hr); [exists r; by rewrite <-Hf|exists (f r); by rewrite Hf].
  - by rewrite lookup_alter_ne.
Qed.

Lemma safe_local m : (∀ l, safe (put_local (m l)) (λ _, True)) → safe (b ← get_local; put_local (m b)) (λ _, True).
Proof. intros H. apply wp_bind. apply wp_get. done. Qed.

Ltac local_done := apply safe_local; intros; apply safe_put.

Lemma safe_status status id hyp keep expected :
  (status = "Stopped" → ∀ d, d_status d = Some expected → justified o on (EWrite id d (set_stopped status d))) →
  (status ≠ "Stopped" → ∀ d h, d_status d = Some expected →
     (keep = false → h = match hyp with HNone => HBool false | h => h end) →
     justified o on (EWrite id d (set_status status h d))) →
  safe (update_domain_status status id hyp keep (Some expected)) (λ _, True).
Proof. intros H1 H2. apply safe_update; auto using fleet_domains with isard. Qed.

Lemma safe_adopt id hyp new s :
  s ∉ STATUSES_IN_CREATION → s ≠ "ForceDeleting" → lists o hyp id → new ∈ ["Started"; "Paused"] →
  safe (update_domain_hyp_started id hyp new (Some s)) (λ _, True).
Proof.
  intros Hc Hf Hl Hn. apply safe_status.
  - intros ->. set_solver.
  - intros _ d h Hd Hh. rewrite (Hh eq_refl). eapply j_adopt; eauto.
Qed.

Lemma safe_stop row :
  (∀ d, d_status d = Some (row_status row.2) → justified o on (EWrite row.1 d (set_stopped "Stopped" d))) →
  safe (stop_row row) (λ _, True).
Proof.
  intros Hj. wp_any; [apply safe_status; [auto|done]|]. apply safe_release, j_release.
Qed.

Lemma safe_update_degraded h (g : bool) reason source :
  safe (update_hyp_degraded_status h g reason source) (λ _, True).
Proof.
  unfold update_hyp_degraded_status. destruct g.
  - wp_any; [apply safe_query_any|]. apply safe_modify. intros. by apply fleet_alter.
  - wp_any; [apply safe_query_any|]. destruct a; [|wp_done]. apply safe_modify. intros. by apply fleet_alter.
Qed.

Lemma safe_mark h reason : safe (_mark_degraded h reason) (λ _, True).
Proof.
  unfold _mark_degraded. apply wp_bind, wp_get. intros b. case_decide; [wp_done|].
  apply wp_try; [|intros; wp_done]. wp_any; [apply safe_update_degraded|]. local_done.
Qed.

Lemma safe_recover h also : safe also (λ _, True) → safe (recover h also) (λ _, True).
Proof.
  intros Ha. apply wp_try; [|intros; wp_done]. wp_any; [apply safe_update_degraded|].
  wp_any; [|exact Ha]. apply safe_modify. intros. by apply fleet_alter.
Qed.

Lemma safe_observe online hbh now : safe (_observe_shared_stall online hbh now) (λ _, True).
Proof.
  unfold _observe_shared_stall. apply wp_bind, wp_get. intros b.
  destruct (observe _ _ _ _) as [tr t]. wp_any; [local_done|].
  destruct tr as [[]|]; try wp_done; by apply safe_modify.
Qed.

Lemma safe_assess online : safe (_assess_storage o online) (λ _, True).
Proof.
  unfold _assess_storage, _probe_storage_concurrent. wp_any.
  { wp_any; [apply safe_query_any|]. wp_any.
    { apply (wp_fold _ _ _ _ (λ _, True)); [done|]. intros c x _ _. unfold probe_one.
      apply wp_bind, wp_get. intros b. destruct (_ !! x); [destruct (o_probe_prev_done o x); [|wp_done]|];
        (wp_any; [local_done|wp_done]). }
    wp_any.
    { apply (wp_fold _ _ _ _ (λ _, True)); [done|]. intros c x _ _.
      destruct (o_probe o x); try wp_done; (wp_any; [|wp_done]); unfold _probe_storage;
        (wp_any; [apply safe_query_any|wp_done]). }
    wp_any; [local_done|]. by apply (wp_ret _ _ (λ _, True)). }
  wp_any; [apply safe_query_any|]. wp_any; [apply safe_query_any|].
  wp_any; [by apply (wp_of_res _ _ (λ _, True))|]. wp_any; [apply safe_observe|]. wp_done.
Qed.

(** What an answer says of its hypervisor. *)
Definition answers_truly (ids : gset string) (e : string * (listing * listing)) : Prop :=
  v_listing (o_view o e.1) = Ok e.2.2 ∧
  (∀ x, x ∈ List.map fst e.2.1 → x ∈ List.map fst e.2.2) ∧
  (∀ x, x ∈ ids → x ∈ List.map fst e.2.2 → x ∈ List.map fst e.2.1).

Lemma safe_check_domain hyp ids acc d :
  lists o hyp d.1 → (∀ x, x ∈ acc.1 ++ acc.2 → x ∉ ids) →
  safe (check_domain hyp (o_view o hyp) ids acc d) (λ acc, ∀ x, x ∈ acc.1 ++ acc.2 → x ∉ ids).
Proof.
  intros Hl Ha. unfold check_domain. case_decide as Hd; [wp_done|].
  assert (∀ x, x ∈ acc.1 ++ acc.2 ++ [d.1] → x ∉ ids) as Ha2 by set_solver.
  wp_any; [apply safe_query_any|]. destruct a; [wp_done|]. wp_any; [apply safe_query_any|].
  destruct a as [s|].
  - wp_any; [|wp_done]. destruct (mem s _) eqn:Hm; [by apply (wp_ret _ _ (λ _, True))|].
    apply mem_false in Hm.
    destruct (_ =? _)%string; apply safe_adopt; (try done); unfold STATUSES_ALREADY_ACCOUNTED_FOR, STATUSES_IN_CREATION in *;
      try (set_solver); intros ->; apply Hm; set_solver.
  - destruct (v_destroys _ _); [|wp_done]. wp_any; [by apply safe_emit, j_destroy|].
    apply wp_ret. simpl. set_solver.
Qed.

Lemma safe_check disk ids hyp :
  safe (_check_single_hypervisor o disk ids hyp)
    (λ r, c_success r = true → answers_truly ids (hyp, (c_active_domains r, c_states r))).
Proof.
  unfold _check_single_hypervisor. apply wp_try; [|intros; wp_done].
  wp_any; [apply safe_query_any|]. destruct a; [|wp_done]. simpl.
  destruct (v_connected _); [|wp_done]. simpl.
  wp_any; [destruct (_ =? _)%Z; [by apply (wp_of_res _ _ (λ _, True))|wp_done]|].
  wp_step; [apply (wp_of_res _ _ (λ ls, v_listing (o_view o hyp) = Ok ls)); auto|]. rename a0 into states.
  wp_step.
  { apply (wp_fold _ _ _ _ (λ acc : list string * list string, ∀ x, x ∈ acc.1 ++ acc.2 → x ∉ ids)); [set_solver|].
    intros c d Hd Hc. apply safe_check_domain; [|done]. exists states. split; [done|].
    apply list_elem_of_fmap. by exists d. }
  rename a0 into acc. apply wp_ret. intros _. split_and!; simpl; [done| |].
  - intros x (d & -> & Hd)%list_elem_of_fmap. apply list_elem_of_fmap. exists d. split; [done|].
    apply list_elem_of_In, filter_In in Hd as [? _]. by apply list_elem_of_In.
  - intros x Hx (d & -> & Hd)%list_elem_of_fmap. apply list_elem_of_fmap. exists d. split; [done|].
    apply list_elem_of_In, filter_In. split; [by apply list_elem_of_In|]. apply negb_true_iff, mem_false. naive_solver.
Qed.

Lemma safe_concurrent online disk ids causes :
  safe (_check_hypervisors_concurrent o online disk ids causes) (Forall (answers_truly ids)).
Proof.
  unfold _check_hypervisors_concurrent.
  wp_any; [apply wp_for; intros x _; destruct (mem _ _); [apply safe_mark|wp_done]|].
  wp_any; [local_done|]. destruct (_ =? _)%nat; [wp_done|].
  wp_any; [apply safe_query_any|]. wp_any.
  { apply (wp_fold _ _ _ _ (λ _, True)); [done|]. intros c x _ _. unfold submit_check.
    apply wp_bind, wp_get. intros b. case_decide; [destruct (o_prev_done o x); [|wp_done]|];
      (wp_any; [local_done|wp_done]). }
  wp_step.
  { apply (wp_fold _ _ _ _ (λ acc : gmap string string * answers, Forall (answers_truly ids) acc.2)); [done|].
    intros c x _ Hc. unfold collect_check. destruct (o_check o x); try wp_done.
    - wp_step; [apply safe_check|]. apply wp_ret. destruct (c_success _) eqn:E; [|done].
      simpl. apply Forall_app. auto.
    - wp_any; [apply safe_query_any|]. apply wp_ret. by destruct (Qle_bool _ _). }
  wp_any; [apply wp_for; intros; apply safe_mark|]. apply wp_bind, wp_get. intros b.
  wp_any; [apply wp_for; intros; apply safe_recover; local_done|].
  wp_any; [|wp_done]. apply wp_try; [|intros; wp_done]. wp_any; [apply safe_query_any|].
  apply wp_bind, wp_get. intros b'. apply wp_for. intros. apply safe_recover. wp_done.
Qed.

Lemma elem_of_filter_bool {A} (P : A → bool) l x : x ∈ List.filter P l ↔ x ∈ l ∧ P x = true.
Proof. by rewrite !list_elem_of_In, filter_In. Qed.

Lemma rows_in_status statuses s row :
  row ∈ rows_in statuses s → d_status row.2 = Some (row_status row.2) ∧ row_status row.2 ∈ statuses.
Proof.
  unfold rows_in. intros [_ H]%elem_of_filter_bool. unfold row_status.
  destruct (d_status row.2) as [st|]; [|done]. simpl. by apply mem_spec in H.
Qed.

Lemma safe_settle_absent rows online ids ans :
  (∀ h, h ∈ online ↔ h ∈ on) → Forall (answers_truly ids) ans →
  safe (_settle_absent rows online ans) (λ _, True).
Proof.
  intros Hon Hans. unfold _settle_absent. wp_any; [apply safe_query_any|]. rename a into held.
  apply wp_bind, wp_get. intros b.
  destruct (absent _ _ _ _ _) as [dues t] eqn:E. wp_any; [local_done|]. apply wp_for. intros row Hrow.
  apply safe_stop. intros d Hd.
  destruct (complete online (states_of ans)) eqn:Hc.
  2: { unfold absent in E. rewrite Hc in E. simpl in E. injection E as <- <-. set_solver. }
  destruct (absent_spec _ _ _ _ _ _ _ E Hc) as (-> & _). apply elem_of_filter_bool in Hrow as [_ Hdue].
  unfold is_due in Hdue. destruct (sight _ _ _ row) as [[key n]|] eqn:Es; [|done].
  apply sight_key in Es as [(Hst & Hset & _ & Hl & _) _]. apply complete_spec in Hc as [Hne Hall].
  eapply j_absent; [done| |destruct online; set_solver|].
  - unfold row_status. by rewrite Hst.
  - intros h Hh. apply Hon, Hall in Hh. apply list_elem_of_fmap in Hh as ([h' st] & -> & Hin).
    unfold states_of in Hin. apply list_elem_of_fmap in Hin as (e & [= -> ->] & He).
    rewrite Forall_forall in Hans. destruct (Hans e He) as (Hv & _). exists e.2.2. split; [done|].
    intros Hx. apply Hl. unfold listed. apply list_elem_of_In, in_flat_map. exists (e.1, e.2.2).
    split; [|by apply list_elem_of_In]. apply in_map_iff. exists e. split; [done|by apply list_elem_of_In].
Qed.

Lemma safe_settle_row ids ans row :
  row.1 ∈ ids → Forall (answers_truly ids) ans → safe (settle_row ans row) (λ _, True).
Proof.
  intros Hid Hans. unfold settle_row. destruct (_hyp_of row.2) as [hyp|]; [|wp_done].
  destruct (assoc hyp ans) as [[active states]|] eqn:E; [|wp_done].
  assert (answers_truly ids (hyp, (active, states))) as (Hv & Hsub & Hsup).
  { rewrite Forall_forall in Hans. apply Hans. clear -E. induction ans as [|[h p] ans IH]; [done|].
    simpl in E. destruct (_ =? _)%string eqn:Eh; simp_bool; simplify_eq; [left|right; auto]. }
  simpl in Hv, Hsub, Hsup.
  assert (mem row.1 (List.map fst active) = true → lists o hyp row.1) as Hruns.
  { intros H%mem_spec. exists states. auto. }
  assert (mem row.1 (List.map fst active) = false → lacks o hyp row.1) as Hgone.
  { intros H%mem_false. exists states. auto. }
  destruct (mem row.1 _) eqn:Hm; cbv zeta;
    (destruct (row_status row.2 =? "Starting")%string eqn:E1; [|
     destruct (row_status row.2 =? "Stopping")%string eqn:E2; [|
     destruct (row_status row.2 =? "Resetting")%string eqn:E3; [|
     destruct (row_status row.2 =? "Shutting-down")%string eqn:E4; [|wp_done]]]]); simp_bool; try wp_done.
  - wp_any; [|wp_done]. apply safe_adopt; [rewrite E1; set_solver|by rewrite E1|auto|set_solver].
  - wp_any; [apply safe_query_any|]. wp_any; [by apply (wp_of_res _ _ (λ _, True))|].
    destruct (_ <? _)%Z; [|wp_done]. wp_any; [|wp_done]. apply safe_status; [done|].
    intros _ d h Hd Hh. rewrite (Hh eq_refl). apply j_stuck_reset. by rewrite Hd, E3.
  - wp_any; [apply safe_query_any|]. wp_any; [by apply (wp_of_res _ _ (λ _, True))|].
    destruct (_ <? _)%Z; [|wp_done]. wp_any; [|wp_done]. apply safe_status; [done|].
    intros _ d h Hd _. eapply j_late_shutdown; [by rewrite Hd, E4|auto].
  - apply safe_stop. intros d Hd. eapply j_vanished; [done|rewrite E2; set_solver|auto].
  - wp_any; [apply safe_query_any|]. wp_any; [by apply (wp_of_res _ _ (λ _, True))|].
    destruct (_ <? _)%Z; [|wp_done]. wp_any; [|wp_done]. apply safe_status; [done|].
    intros _ d h Hd Hh. rewrite (Hh eq_refl). apply j_stuck_reset. by rewrite Hd, E3.
  - apply safe_stop. intros d Hd. eapply j_vanished; [done|rewrite E4; set_solver|auto].
Qed.

Lemma safe_settle_active hyp ids d :
  lists o hyp d.1 → safe (settle_active hyp ids d) (λ _, True).
Proof.
  intros Hl. unfold settle_active. case_decide; [wp_done|]. wp_any; [apply safe_query_any|].
  destruct a as [s|]; [|wp_done]. destruct (mem s STATUSES_IN_CREATION) eqn:Hc; [wp_done|].
  apply mem_false in Hc.
  destruct (s_status d.2 =? "Started")%string eqn:E1; simp_bool.
  { rewrite E1. destruct (mem s ["ForceDeleting"]) eqn:Hf; [wp_done|]. apply mem_false in Hf.
    wp_any; [|wp_done]. apply safe_adopt; set_solver. }
  destruct (s_status d.2 =? "Paused")%string eqn:E2; cbn [andb]; [|wp_done]. simp_bool.
  destruct (s_detail d.2 =? _)%string; [|wp_done]. rewrite E2.
  destruct (mem s ["Stopped"; "ForceDeleting"]) eqn:Hf; [wp_done|]. apply mem_false in Hf.
  wp_any; [|wp_done]. apply safe_adopt; set_solver.
Qed.

Lemma safe_reap ans now : safe (_reap_idle_paused o ans now) (λ _, True).
Proof.
  unfold _reap_idle_paused. wp_any.
  { apply (wp_fold _ _ _ _ (λ _, True)); [done|]. intros. wp_any; [apply safe_query_any|wp_done]. }
  wp_any; [apply safe_query_any|]. apply wp_bind, wp_get. intros b.
  destruct (due _ _ _ _ _) as [out t]. wp_any; [local_done|wp_done].
Qed.

Lemma safe_pass disk : safe (broom_pass o disk) (λ _, True).
Proof.
  unfold broom_pass. wp_step.
  { apply (safe_query _ _ _ (λ l, ∀ row, row ∈ l →
      d_status row.2 = Some (row_status row.2) ∧ row_status row.2 ∈ READ_STATUSES)).
    intros s _ row. apply rows_in_status. }
  rename a into l. wp_any; [apply safe_query_any|]. wp_any.
  { apply wp_for. intros row [Hrow _]%elem_of_filter_bool. destruct (H row Hrow) as [_ Hr].
    destruct (reap_domain_without_hypervisor _ _); [|wp_done]. wp_any; [|wp_done]. apply safe_status; [done|].
    intros _ d h Hd Hh. rewrite (Hh eq_refl). by eapply j_orphan. }
  wp_step.
  { apply (safe_query _ _ _ (λ online, ∀ h, h ∈ online ↔ h ∈ on)). intros s Hs h. rewrite <-(Hs h).
    rewrite list_elem_of_fmap. setoid_rewrite elem_of_filter_bool. split.
    - intros ([h' r] & -> & [Hin%elem_of_map_to_list Hr]). by exists r.
    - intros (r & Hl & Hr). exists (h, r). split; [done|]. split; [by apply elem_of_map_to_list|done]. }
  rename a1 into online. wp_any; [apply safe_assess|]. wp_step; [apply safe_concurrent|].
  rename a2 into ans. wp_any.
  { apply wp_for. intros e He. apply wp_for. intros d Hd. apply safe_settle_active.
    rewrite Forall_forall in H1. destruct (H1 e He) as (Hv & Hsub & _). exists e.2.2. split; [done|].
    apply Hsub, list_elem_of_fmap. by exists d. }
  wp_any; [apply safe_query_any|]. wp_any; [by eapply safe_settle_absent|].
  wp_any; [apply safe_query_any|]. wp_any; [apply safe_reap|]. wp_any.
  { apply wp_for. intros row [Hrow _]%elem_of_filter_bool. destruct (_ =? _)%string eqn:E; [|wp_done].
    simp_bool. apply safe_stop. intros d Hd. apply j_unplaced. by rewrite Hd, E. }
  apply wp_for. intros row Hrow. eapply safe_settle_row; [|done]. rewrite elem_of_list_to_set.
  apply list_elem_of_fmap. by exists row.
Qed.
End pass_safety.

(** ** Confirmation over consecutive passes *)
Record call := Call {
  k_rows : list (string * domain);
  k_online : list string;
  k_listings : listings;
  k_held : string → bool;
}.

Definition ask (c : call) (t : AbsenceTracker) : list (string * domain) * AbsenceTracker :=
  absent (k_rows c) (k_online c) (k_listings c) (k_held c) t.

Definition after_calls (k : nat) (h : list call) : AbsenceTracker :=
  foldl (λ t c, (ask c t).2) (Absence k ∅) h.

(** In this call every online hypervisor answered, and of the rows of the domain that were
    backed by nothing the last one read had this status and hypervisor. (A pass of the broom
    reads the Unknown rows apart, after it may have turned some of the others to Unknown, so
    a call may hold two versions of a row.) *)
Definition vouches (id : string) (key : string * option string) (c : call) : Prop :=
  complete (k_online c) (k_listings c) = true ∧
  ∃ pre d post, k_rows c = pre ++ (id, d) :: post ∧ unbacked (k_listings c) (k_held c) (id, d) key ∧
    ∀ d' key', (id, d') ∈ post → ¬ unbacked (k_listings c) (k_held c) (id, d') key'.

Definition last_calls (n : nat) (P : call → Prop) (h : list call) : Prop :=
  ∃ h1 h2, h = h1 ++ h2 ∧ length h2 = n ∧ Forall P h2.

Lemma after_calls_snoc k h c : after_calls k (h ++ [c]) = (ask c (after_calls k h)).2.
Proof. unfold after_calls. by rewrite foldl_app. Qed.

Lemma last_calls_snoc n P h c : last_calls n P h → P c → last_calls (S n) P (h ++ [c]).
Proof.
  intros (h1 & h2 & -> & <- & Hf) Hc. exists h1, (h2 ++ [c]). rewrite length_app, Forall_app, <-app_assoc.
  simpl. split_and!; [done|lia|auto|auto].
Qed.

Lemma last_calls_one P h c : P c → last_calls 1 P (h ++ [c]).
Proof. intros Hc. exists h, [c]. auto. Qed.

Lemma last_calls_split n P h c : last_calls (S n) P (h ++ [c]) → P c ∧ last_calls n P h.
Proof.
  intros (h1 & h2 & Heq & Hl & Hf). destruct h2 as [|x h2 _] using rev_ind; [done|].
  rewrite app_assoc in Heq. apply app_inj_tail in Heq as [-> ->].
  rewrite length_app in Hl. apply Forall_app in Hf as [Hf [Hx _]%Forall_cons].
  split; [done|]. exists h1, h2. simpl in Hl. split_and!; [done|lia|done].
Qed.

Lemma passes_after k h : passes (after_calls k h) = k.
Proof.
  induction h as [|c h IH] using rev_ind; [done|]. rewrite after_calls_snoc. unfold ask, absent.
  destruct (complete _ _); simpl; [|done]. destruct (foldl _ _ _). done.
Qed.

Lemma last_calls_le n m P h : n ≤ m → last_calls m P h → last_calls n P h.
Proof.
  intros Hle (h1 & h2 & -> & <- & Hf). exists (h1 ++ take (length h2 - n) h2), (drop (length h2 - n) h2).
  rewrite <-app_assoc, take_drop, length_drop. split_and!; [done|lia|by apply Forall_drop].
Qed.

Lemma sight_none ls is_held seen row : sight ls is_held seen row = None ↔ ∀ key, ¬ unbacked ls is_held row key.
Proof.
  split.
  - intros Hs key Hu. destruct (sight_unbacked _ _ seen _ _ Hu) as [n Hn]. congruence.
  - intros H. destruct (sight _ _ _ _) as [[key n]|] eqn:E; [|done]. by apply sight_key in E as [?%H _].
Qed.

(** What the tracker has noted after one more call. *)
Lemma after_call_noted k h c id s :
  _seen (after_calls k (h ++ [c])) !! id = Some s ↔
  vouches id s.1 c ∧
  s.2 = match _seen (after_calls k h) !! id with
        | Some (key', n') => if decide (key' = s.1) then S n' else 1
        | None => 1
        end.
Proof.
  rewrite after_calls_snoc. unfold vouches. destruct (complete (k_online c) (k_listings c)) eqn:Hc.
  2: { unfold ask, absent. rewrite Hc. simpl. rewrite lookup_empty. naive_solver. }
  unfold ask. rewrite absent_seen by done. setoid_rewrite sight_none. destruct s as [key n]. simpl. split.
  - intros (pre & d & post & Heq & [Hu Hn]%sight_key & Hp). split; [|done]. split; [done|].
    exists pre, d, post. split_and!; [done..|]. intros d' key' Hin. by apply Hp.
  - intros [[_ (pre & d & post & Heq & Hu & Hp)] ->]. exists pre, d, post. split_and!; [done| |naive_solver].
    destruct (sight_unbacked _ _ (_seen (after_calls k h)) _ _ Hu) as [m Hm]. rewrite Hm.
    by apply sight_key in Hm as [_ ->].
Qed.

Lemma seen_streak k h id key n :
  _seen (after_calls k h) !! id = Some (key, n) → last_calls n (vouches id key) h.
Proof.
  revert key n. induction h as [|c h IH] using rev_ind; intros key n; [done|].
  intros [Hv Hn]%after_call_noted. simpl in *.
  destruct (_ !! id) as [[key' n']|] eqn:E; [case_decide as Hk|]; subst; [|by apply last_calls_one..].
  apply last_calls_snoc; [by apply IH|done].
Qed.

Lemma streak_seen k h id key n :
  last_calls (S n) (vouches id key) h → ∃ m, S n ≤ m ∧ _seen (after_calls k h) !! id = Some (key, m).
Proof.
  revert n. induction h as [|c h IH] using rev_ind; intros n.
  { intros (h1 & h2 & Heq & Hl & _). destruct h1, h2; done. }
  intros [Hv Hrest]%last_calls_split. setoid_rewrite after_call_noted. simpl.
  eexists. split; [|split; [exact Hv|reflexivity]]. destruct n as [|n].
  - destruct (_ !! id) as [[]|]; [case_decide|]; lia.
  - destruct (IH n Hrest) as (m & ? & ->). rewrite decide_True by done. lia.
Qed.

(** C28: Let the tracker of absent rows be asked any sequence of calls [h], then [c], where
    it waits for [k] sightings (the broom makes it with ABSENT_PASSES_TO_STOP). The last call
    gives back a row, to be stopped, exactly when: in that call at least one hypervisor is
    online, every online one answered, and the row has been read, its status is Unknown,
    Started or Paused, no hypervisor lists the domain, nobody holds it, and the host of the
    row, if it has one, is among those that answered; and in each of the [k - 1] calls before
    it every online hypervisor answered and a row of that domain with the same status and
    host passed the same tests (where a call read several such rows of the domain, the last
    of them). *)
Theorem absent_rows_are_confirmed k h c row :
  row ∈ (ask c (after_calls k h)).1 ↔
  complete (k_online c) (k_listings c) = true ∧ row ∈ k_rows c ∧
  ∃ key, unbacked (k_listings c) (k_held c) row key ∧ last_calls (k - 1) (vouches row.1 key) h.
Proof.
  unfold ask. destruct (absent _ _ _ _ _) as [dues t'] eqn:E.
  destruct (complete (k_online c) (k_listings c)) eqn:Hc.
  2: { unfold absent in E. rewrite Hc in E. injection E as <- <-. set_solver. }
  destruct (absent_spec _ _ _ _ _ _ _ E Hc) as (-> & _). cbn [fst]. rewrite elem_of_filter_bool. unfold is_due.
  rewrite passes_after. split.
  - intros [Hin Hd]. destruct (sight _ _ _ row) as [[key n]|] eqn:Hs; [|done]. apply Nat.leb_le in Hd. simpl in Hd.
    apply sight_key in Hs as [Hu Hn]. split_and!; [done..|]. exists key. split; [done|].
    destruct (_ !! row.1) as [[key' n']|] eqn:Es; [case_decide|]; subst; simpl in Hd.
    2,3: (apply (last_calls_le _ 0); [lia|]; exists h, []; by rewrite app_nil_r).
    apply seen_streak in Es. apply (last_calls_le _ n'); [lia|done].
  - intros (_ & Hin & key & Hu & Hl). split; [done|].
    destruct (sight_unbacked _ _ (_seen (after_calls k h)) _ _ Hu) as [n Hn]. rewrite Hn. apply Nat.leb_le. simpl.
    apply sight_key in Hn as [_ Hn]. destruct (k - 1) as [|j] eqn:Ek.
    + destruct (_ !! row.1) as [[]|]; [case_decide|]; lia.
    + destruct (streak_seen k h row.1 key j Hl) as (m & ? & Hm). rewrite Hm, decide_True in Hn by done. lia.
Qed.

(** An example: two desktops on one hypervisor, which runs the first only. *)
Definition ex_domain (status : string) (hyp : hyp_field) : domain := Domain (Some status) hyp (Some (PInt 0)) true PNone.
Definition ex_view (ls : listing) : hyp_view := View true (Ok tt) (Ok ls) (λ _, true).
Definition ex_obs (ls : listing) : observations :=
  Obs true (λ s, s) (λ _, "error") (λ _, ex_view ls) (λ _, true) (λ _, None) (λ _, CDone)
      (λ _, true) (λ _, PDone (OStr "")) (λ _, true).
Definition ex_hyp (g : option degraded) (health : pyval) : hyp_row :=
  HypRow true true (true, true) (true, true) g false health.
Definition ex_shared (ds : gmap string domain) (h : hyp_row) : shared :=
  Shared ds {["h1" := h]} ∅ ∅ true None 1000.
Definition ex_broom (seen : gmap string sighting) (deg : gmap string string) : broom :=
  Broom 1 deg ∅ ∅ (new_stall STALL_CLEAR_PASSES) (Absence ABSENT_PASSES_TO_STOP seen) new_idle_paused ∅.

Definition ex_call : call :=
  Call [("b", ex_domain "Started" (HStr "h1"))] ["h1"] [("h1", [("a", LState "Started" "" None)])] (λ _, false).

(** The second complete call in a row confirms, the first does not. *)
Lemma second_call_confirms :
  ("b", ex_domain "Started" (HStr "h1")) ∈ (ask ex_call (after_calls 2 [ex_call])).1 ∧
  (ask ex_call (after_calls 2 [])).1 = [].
Proof. split; vm_compute; [left|reflexivity]. Qed.

Lemma settled_to_stopped o on id d d' :
  justified o on (EWrite id d d') → settled_status d ≠ None → d_status d' = Some "Stopped" →
  ∀ h, h ∈ on → lacks o h id.
Proof.
  intros HJ Hs Hd'.
  assert (∃ s, d_status d = Some s ∧ s ∈ STATUSES_SETTLED_WHEN_ABSENT) as (s & Hd & Hin).
  { unfold settled_status in Hs. destruct (d_status d) as [s|]; [|done].
    destruct (mem s _) eqn:E; [|done]. apply mem_spec in E. by exists s. }
  unfold STATUSES_SETTLED_WHEN_ABSENT in Hin.
  inversion HJ; subst; simpl in *; try done; simplify_eq; set_solver.
Qed.

Lemma creation_is_left_alone o on id d d' s :
  justified o on (EWrite id d d') → d_status d = Some s → s ∈ STATUSES_IN_CREATION → d_status d' = Some s.
Proof.
  intros HJ Hs Hc. inversion HJ; subst; simpl in *; try done; simplify_eq; exfalso;
    unfold STATUSES_IN_CREATION, READ_STATUSES, TRANSITIONAL_STATUS, STATUSES_SETTLED_WHEN_ABSENT in *; set_solver.
Qed.

(** What must hold for the status of the row [id] to go from [s] to [s']: the table of
    the changes of a pass. *)
Definition warranted (o : observations) (on : gset string) (id s s' : string) (d' : domain) : Prop :=
  (s' = "Stopped" ∧ s ∈ STATUSES_SETTLED_WHEN_ABSENT ∧ on ≠ ∅ ∧ (∀ h, h ∈ on → lacks o h id)) ∨
  (s' = "Stopped" ∧ s = "Shutting-down" ∧ ∃ h, lacks o h id) ∨
  (s' = "Stopped" ∧ s = "Stopping") ∨
  (s' ∈ ["Started"; "Paused"] ∧ s ∉ STATUSES_IN_CREATION ∧ s ≠ "ForceDeleting" ∧
     ∃ h, lists o h id ∧ d_hyp_started d' = HStr h) ∨
  (s' = "Stopping" ∧ s = "Shutting-down" ∧ ∃ h, lists o h id) ∨
  (s' = "Failed" ∧ s = "Resetting") ∨
  (s' = "Unknown" ∧ s ∈ READ_STATUSES).

Lemma change_is_warranted o on id d d' :
  justified o on (EWrite id d d') → d_status d' ≠ d_status d →
  ∃ s s', d_status d = Some s ∧ d_status d' = Some s' ∧ warranted o on id s s' d'.
Proof.
  unfold warranted. intros HJ Hne.
  inversion HJ as [| |? ? ? ? ? ? ? ? ? Hn| |? ? ? ? ? Hs| | | | | | | ]; subst; simpl in *; try done;
    try (apply list_elem_of_In in Hs as [<-|[<-|[]]]);
    do 2 eexists; (split; [eassumption|split; [reflexivity|]]); naive_solver.
Qed.

(** C5: Take one pass of the broom ([polling]) and suppose that no other thread changes,
    while it runs, which hypervisors are online (they may rewrite everything else between
    any two of its database calls). Whatever libvirt answers: every status the pass changes
    is one of the following changes. From Unknown, Started or Paused to Stopped, only when
    a hypervisor is online, every online one answered and none lists the desktop. From
    Shutting-down to Stopped, only when some hypervisor answered and does not list it. From
    Stopping to Stopped (a row that stops and has no host is stopped without a look at the
    listings). To Started or Paused, only with a hypervisor that lists the desktop, which
    becomes its host, and never from a status of creation nor from ForceDeleting. From
    Shutting-down to Stopping, only when some hypervisor lists it. From Resetting to Failed.
    And to Unknown, from the statuses the pass reads. It destroys a domain only on a
    hypervisor that lists it. So the status of a row in creation is never changed, and a
    desktop that an online hypervisor lists is never turned from Unknown, Started or Paused
    to Stopped. *)
Theorem broom_changes_are_justified o on w :
  w_trace w = [] → fleet on (w_sh w) →
  Forall (λ f, ∀ s, fleet on s → fleet on (f s)) (w_foreign w) →
  let tr := w_trace (polling o w).2 in
  (∀ id d d', EWrite id d d' ∈ tr → d_status d' ≠ d_status d →
     ∃ s s', d_status d = Some s ∧ d_status d' = Some s' ∧ warranted o on id s s' d') ∧
  (∀ hyp id, EDestroy hyp id ∈ tr → lists o hyp id) ∧
  (∀ id h d d', h ∈ on → lists o h id → EWrite id d d' ∈ tr →
     settled_status d ≠ None → d_status d' = Some "Stopped" → False) ∧
  (∀ id d d' s, EWrite id d d' ∈ tr → d_status d = Some s → s ∈ STATUSES_IN_CREATION →
     d_status d' = Some s).
Proof.
  intros Ht Hf Hfor tr. assert (Forall (justified o on) tr) as HJ.
  { assert (within (fleet on) (justified o on) w) as Hw by (split_and!; [done..|by rewrite Ht]).
    enough (wp (within (fleet on) (justified o on)) (polling o) (λ _, True)) as H by (by destruct (H w Hw) as [(_ & _ & H')]).
    unfold polling. apply wp_bind, wp_get. intros b. wp_any; [apply safe_local; intros; apply safe_put|].
    destruct (o_enabled o); [|wp_done]. apply wp_try; [apply safe_pass|intros; wp_done]. }
  rewrite Forall_forall in HJ. split_and!.
  - intros id d d' He. exact (change_is_warranted _ _ _ _ _ (HJ _ He)).
  - intros hyp id He%HJ. by inversion_clear He.
  - intros id h d d' Hon (ls & Hls & Hin) He Hs Hd'.
    destruct (settled_to_stopped _ _ _ _ _ (HJ _ He) Hs Hd' h Hon) as (ls' & Hls' & Hni).
    rewrite Hls in Hls'. injection Hls' as ->. done.
  - intros id d d' s He. exact (creation_is_left_alone _ _ _ _ _ _ (HJ _ He)).
Qed.

Definition ex_rows : gmap string domain :=
  {["a" := ex_domain "Started" (HStr "h1"); "b" := ex_domain "Started" (HStr "h1")]}.
Definition ex_listing : listing := [("a", LState "Started" "" None)].
Definition ex_world : world broom :=
  World (ex_shared ex_rows (ex_hyp None PNone)) (ex_broom {["b" := ("Started", Some "h1", 1)]} ∅)
        [with_domains <["c" := ex_domain "Starting" (HBool false)]>] [].

Lemma fleet_ex ds h : h_online h = true → fleet {["h1"]} (ex_shared ds h).
Proof.
  intros Hh x. unfold ex_shared. simpl. split.
  - intros (r & [<- <-]%lookup_singleton_Some & _). set_solver.
  - intros ->%elem_of_singleton. exists h. by rewrite lookup_singleton_eq.
Qed.

Lemma broom_changes_are_justified_witness :
  let tr := w_trace (polling (ex_obs ex_listing) ex_world).2 in
  (∀ id d d', EWrite id d d' ∈ tr → d_status d' ≠ d_status d →
     ∃ s s', d_status d = Some s ∧ d_status d' = Some s' ∧ warranted (ex_obs ex_listing) {["h1"]} id s s' d') ∧
  Exists (λ e, match e with EWrite "b" d d' => d_status d' = Some "Stopped" | _ => False end) tr.
Proof.
  intros tr. split.
  - apply (broom_changes_are_justified (ex_obs ex_listing) {["h1"]} ex_world).
    + reflexivity.
    + apply fleet_ex. reflexivity.
    + apply Forall_cons. split; [intros s Hs; exact Hs|apply Forall_nil; exact I].
  - vm_compute. repeat (first [apply Exists_cons_hd; reflexivity|apply Exists_cons_tl]).
Defined.

(** ** Divergences *)

(** A write of Failed that finds another status changes nothing but still runs the
    clean-up: the row loses its hypervisor. *)
Lemma lost_failed_write_detaches {L} (w : world L) id d s expected :
  w_foreign w = [] → domains (w_sh w) !! id = Some d → d_status d = Some s →
  s ≠ expected → s ≠ "Stopped" →
  domains (w_sh (update_domain_status "Failed" id HNone false (Some expected) w).2) !! id = Some (detached d).
Proof.
  intros Hf Hd Hs Hne Hst.
  unfold update_domain_status, remove_fieds_when_stopped, remove_domain_viewer_values, write_row, atomically,
    interfere, guarded, mbind, M_bind, mret, M_ret. simpl. rewrite Hf. simpl. rewrite Hd, Hs. simpl.
  apply String.eqb_neq in Hne as ->. simpl. rewrite ?Hf. simpl. rewrite lookup_insert_eq. simpl.
  rewrite ?Hf. simpl. rewrite lookup_insert_eq. simpl. rewrite Hs. rewrite decide_False by congruence. simpl.
  unfold detached. by rewrite lookup_insert_eq, Hs.
Qed.

(** A row that stops without a hypervisor is stopped while a hypervisor lists it. *)
Lemma unplaced_row_is_stopped_while_it_runs :
  let w := World (Shared {["a" := ex_domain "Stopping" (HBool false)]} {["h1" := ex_hyp None PNone]} ∅ ∅ true None 100)
                 (ex_broom ∅ ∅) [] [] in
  lists (ex_obs ex_listing) "h1" "a" ∧
  (domains (w_sh (polling (ex_obs ex_listing) w).2) !! "a" ≫= d_status) = Some "Stopped".
Proof. split; [exists ex_listing; split; [reflexivity|left]|vm_compute; reflexivity]. Qed.

(** A check that passes clears a degradation for host errors, when the broom had degraded
    the hypervisor before. *)
Lemma broom_clears_host_errors :
  let g := Some (Degraded true (Some "host errors") (Some 5%Z) (Some DEGRADED_BY_HOST_ERRORS)) in
  let w := World (ex_shared ∅ (ex_hyp g PNone)) (ex_broom ∅ {["h1" := "libvirt: check raised: x"]}) [] [] in
  any_check_may_clear g = false ∧
  (hyps (w_sh (polling (ex_obs []) w).2) !! "h1" ≫= h_degraded) = Some (Degraded false None None None).
Proof. split; vm_compute; reflexivity. Qed.

(** A hypervisor whose degradation somebody cleared is not degraded again while the
    reason stays the same. *)
Lemma same_reason_is_not_marked_again :
  let health := PDict [("received_at", PInt 990); ("hung_mounts", PList [PStr "/isard"])] in
  let reason := "health: storage not responding: /isard" in
  let w := World (ex_shared ∅ (ex_hyp None health)) (ex_broom ∅ {["h1" := reason]}) [] [] in
  assess_hypervisors ["h1"] ∅ {["h1" := health]} 1000 = Ok ({["h1" := reason]}, {["h1" := ["/isard"]]}) ∧
  (h_degraded <$> hyps (w_sh (polling (ex_obs []) w).2) !! "h1") = Some None.
Proof. split; vm_compute; reflexivity. Qed.
