(* ===== verification/BroomSettles.v ===== *)
(** * The broom settles a desktop that vanished

    When every online hypervisor answers and nobody else writes, two passes of [polling]
    turn the row of a desktop that no hypervisor runs to Stopped, whatever else is in the
    tables. Programs are run with the total triples [ht] of [DomainStore]. *)
From Stdlib Require Import QArith.
From S2P Require Import Prelude PyVal StorageStall DomainStore Broom.

(** The hypervisor answers its probe and its check in time, and does not run [id]. *)
Definition answers_without (o : observations) (id h : string) : Prop :=
  o_check o h = CDone ∧ o_prev_done o h = true ∧ o_probe_prev_done o h = true ∧
  v_connected (o_view o h) = true ∧ v_storage (o_view o h) = Ok tt ∧ lacks o h id ∧
  ∃ out, o_probe o h = PDone out ∧ parse_probe_output (o_decode o) out = [].

(** The shared state around the row [d] of [id], with the hypervisors of [on] online. *)
Definition calm_shared (on : gset string) (id : string) (d : domain) (s : shared) : Prop :=
  domains s !! id = Some d ∧ _held s !! id = None ∧ fleet on s ∧
  (∀ h r, hyps s !! h = Some r → h ∈ on → h_hostname r = true ∧ h_health r = PNone).

Definition calm (on : gset string) (id : string) (d : domain) (t : AbsenceTracker) (w : world broom) : Prop :=
  w_foreign w = [] ∧ _absence (w_local w) = t ∧ calm_shared on id d (w_sh w).

(** The row is settled already, or is one the tracker of absent rows counts: Unknown, or
    Started or Paused on a hypervisor. *)
Definition countable (d : domain) : Prop :=
  d_status d = Some "Unknown" ∨ d_status d = Some "Stopped" ∨
  (d_status d = Some "Started" ∨ d_status d = Some "Paused") ∧ _hyp_of d ≠ None.

Section calm.
Context (o : observations) (on : gset string) (id : string) (d : domain) (t : AbsenceTracker).
Notation quiet := (calm on id d t).

Lemma calm_query {A} (f : shared → A) (φ : A → Prop) :
  (∀ s, calm_shared on id d s → φ (f s)) → ht quiet (query f) (λ a w, quiet w ∧ φ a).
Proof.
  intros Hf [sh b fs tr] (Hfs & Hb & Hs). simpl in *. subst fs. exists (f sh). split; [done|]. split; [done|].
  by apply Hf.
Qed.

Lemma calm_query_any {A} (f : shared → A) : ht quiet (query f) (λ _, quiet).
Proof. apply (ht_mono _ _ (λ a w, quiet w ∧ True)); [by apply calm_query|]. by intros a w [? _]. Qed.

Lemma calm_modify_hyps f h :
  (∀ r, h_online (f r) = h_online r ∧ h_hostname (f r) = h_hostname r ∧ h_health (f r) = h_health r) →
  ht quiet (modify (with_hyps (alter f h))) (λ _, quiet).
Proof.
  intros Hf [sh b fs tr] (Hfs & Hb & Hd & Hh & Hon & Hk). simpl in *. subst fs. exists tt. split; [done|].
  unfold calm, calm_shared. split_and!; try done; simpl; [apply fleet_alter; [apply Hf|done]|].
  intros x r Hx Hxon. destruct (decide (x = h)) as [->|Hne].
  - rewrite lookup_alter_eq in Hx. destruct (hyps sh !! h) as [r0|] eqn:E; [|done]. simpl in Hx. injection Hx as <-.
    destruct (Hf r0) as (_ & -> & ->). by apply (Hk h).
  - rewrite lookup_alter_ne in Hx by done. by apply (Hk x).
Qed.

Lemma calm_stall_doc s : ht quiet (modify (with_stall_doc s)) (λ _, quiet).
Proof. intros [sh b fs tr] (Hfs & Hb & Hs). simpl in *. subst fs. exists tt. split; [done|]. by split_and!. Qed.

Lemma calm_emit e : ht quiet (emit e) (λ _, quiet).
Proof. intros [sh b fs tr] Hw. by exists tt. Qed.

Lemma calm_write x f : x ≠ id → ht quiet (write_row x f) (λ _, quiet).
Proof.
  intros Hx [sh b fs tr] (Hfs & Hb & Hd & Hs). simpl in *. subst fs. unfold write_row, atomically, mbind, M_bind, interfere. simpl.
  destruct (domains sh !! x) as [dx|]; [destruct (f dx)|]; simpl; eexists; (split; [done|]); unfold calm, calm_shared;
    split_and!; try done; simpl; try (by rewrite lookup_insert_ne); apply Hs.
Qed.

(** A change of the broom itself that leaves the tracker alone. *)
Lemma calm_local g : (∀ b, _absence (g b) = _absence b) → ht quiet (b ← get_local; put_local (g b)) (λ _, quiet).
Proof. intros Hg w (Hfs & Hb & Hs). exists tt. split; [done|]. split_and!; simpl; [done|by rewrite Hg|done..]. Qed.

Ltac ht_any := eapply ht_bind; [|intros ?].
Ltac ht_q := apply (ht_bind _ _ _ (λ _, quiet)); [|intros ?].
Ltac ht_done := by apply ht_ret.
Ltac local_done := by apply calm_local.

Lemma calm_update x status hyp expected :
  x ≠ id → ht quiet (update_domain_status status x hyp false expected) (λ _, quiet).
Proof.
  intros Hx. unfold update_domain_status. ht_any.
  { apply (ht_ret _ _ (λ kept w, quiet w ∧ kept = Some hyp)). done. }
  apply ht_pure. intros ->. destruct (_ =? _)%string.
  - ht_q; [by apply calm_write|]. ht_done.
  - ht_q; [by apply calm_write|]. ht_q; [|ht_done].
    destruct (_ =? _)%string; [|ht_done]. destruct a; try ht_done.
    ht_q; [by apply calm_write|]. ht_q; [by apply calm_write|]. ht_done.
Qed.

Lemma calm_release x : ht quiet (update_vgpu_info_if_stopped x) (λ _, quiet).
Proof.
  unfold update_vgpu_info_if_stopped. ht_q; [|apply calm_emit].
  intros [sh b fs tr] (Hfs & Hb & Hs). simpl in *. subst fs. by exists tt.
Qed.

Lemma calm_stop row : row.1 ≠ id → ht quiet (stop_row row) (λ _, quiet).
Proof. intros Hx. unfold stop_row. ht_q; [by apply calm_update|]. apply calm_release. Qed.

(** *** Hypervisors *)
Lemma calm_wp {A} (m : M broom A) (Q : A → world broom → Prop) :
  ht quiet m Q → (∀ a w, Q a w → quiet w) → wp quiet m (λ _, True).
Proof. intros Hm HQ w Hw. destruct (Hm w Hw) as (a & _ & Ha). split; [by eapply HQ|done]. Qed.

Lemma calm_degrade h reason : wp quiet (update_hyp_degraded_status h true reason None) (λ _, True).
Proof.
  eapply calm_wp; [|by intros a w Hw; exact Hw]. unfold update_hyp_degraded_status. ht_q; [apply calm_query_any|].
  by apply calm_modify_hyps.
Qed.

Lemma calm_wp_any {A} (f : shared → A) : wp quiet (query f) (λ _, True).
Proof. eapply calm_wp; [apply calm_query_any|done]. Qed.

Lemma calm_undegrade h : wp quiet (update_hyp_degraded_status h false None None) (λ _, True).
Proof.
  unfold update_hyp_degraded_status. wp_any; [apply calm_wp_any|]. destruct a; [|wp_done].
  eapply calm_wp; [by apply calm_modify_hyps|done].
Qed.

Lemma calm_mark h reason : ht quiet (_mark_degraded h reason) (λ _, quiet).
Proof.
  unfold _mark_degraded. apply (ht_bind _ _ _ (λ _, quiet)); [by apply ht_get|]. intros b.
  case_decide; [ht_done|]. apply ht_try. wp_any; [apply calm_degrade|]. eapply calm_wp; [local_done|done].
Qed.

Lemma calm_recover h also : ht quiet also (λ _, quiet) → ht quiet (recover h also) (λ _, quiet).
Proof.
  intros Ha. apply ht_try. wp_any; [apply calm_undegrade|].
  wp_any; [|eapply calm_wp; [exact Ha|done]]. eapply calm_wp; [by apply calm_modify_hyps|done].
Qed.

Context (Henabled : o_enabled o = true) (Hgood : ∀ h, h ∈ on → answers_without o id h).

(** *** The probes find nothing *)
Definition clean_probes (ps : gmap string probe) : Prop := ∀ h p, ps !! h = Some p → p = Probe [] None.

Lemma clean_insert ps h : clean_probes ps → clean_probes (<[h := Probe [] None]> ps).
Proof. intros Hps x p [[<- <-]|[_ Hx]]%lookup_insert_Some; [done|by eapply Hps]. Qed.

Lemma calm_probes online :
  (∀ h, h ∈ online → h ∈ on) →
  ht quiet (_probe_storage_concurrent o online) (λ ps w, quiet w ∧ clean_probes ps).
Proof.
  intros Hon. unfold _probe_storage_concurrent. ht_q; [apply calm_query_any|]. rename a into now.
  eapply ht_bind.
  { apply (ht_fold _ (λ r : gmap string probe * list string, clean_probes r.1 ∧ ∀ h, h ∈ r.2 → h ∈ on)).
    { split; [intros h p H; simpl in H; by rewrite lookup_empty in H|set_solver]. }
    intros r h Hh [Hr1 Hr2]. unfold probe_one. apply Hon in Hh. destruct (Hgood h Hh) as (_ & _ & Hdone & _).
    apply (ht_bind _ _ _ (λ _, quiet)); [by apply ht_get|]. intros b. rewrite Hdone.
    destruct (_ !! h); (ht_q; [local_done|]); apply ht_ret; (intros w Hw; split; [done|split; [done|simpl; set_solver]]). }
  intros r. apply ht_pure. intros [Hr1 Hr2]. eapply ht_bind.
  { apply (ht_fold _ clean_probes); [done|]. intros ps h Hh Hps.
    destruct (Hgood h (Hr2 h Hh)) as (_ & _ & _ & _ & _ & _ & out & Hout & Hp). rewrite Hout.
    apply (ht_bind _ _ _ (λ p w, quiet w ∧ p = Probe [] None)).
    - unfold _probe_storage. eapply ht_bind.
      { apply (calm_query _ (λ known, known = true)). intros s (_ & _ & Hf & Hk).
        destruct (proj2 (Hf h) (Hr2 h Hh)) as (r0 & Hl & _). rewrite Hl. by destruct (Hk h r0 Hl (Hr2 h Hh)). }
      intros known. apply ht_pure. intros ->. apply ht_ret. intros w Hw. split; [done|]. by rewrite Hp.
    - intros p. apply ht_pure. intros ->. apply ht_ret. intros w Hw. split; [done|]. by apply clean_insert. }
  intros ps. apply ht_pure. intros Hps. ht_q; [local_done|]. by apply ht_ret.
Qed.

Lemma clean_assess online ps hs now :
  clean_probes ps → (∀ h v, hs !! h = Some v → v = PNone) →
  assess_hypervisors online ps hs now = Ok (∅, ∅).
Proof.
  intros Hps Hhs. unfold assess_hypervisors. induction online as [|h online IH] using rev_ind; [done|].
  rewrite foldl_app, IH. simpl. unfold assess_one.
  assert (probe_verdict (ps !! h) = (None, [])) as ->.
  { destruct (ps !! h) as [p|] eqn:E; [by rewrite (Hps h p E)|done]. }
  assert (default PNone (hs !! h) = PNone) as ->.
  { destruct (hs !! h) as [v|] eqn:E; [by rewrite (Hhs h v E)|done]. }
  done.
Qed.

Lemma calm_assess online :
  (∀ h, h ∈ online → h ∈ on) → ht quiet (_assess_storage o online) (λ causes w, quiet w ∧ causes = ∅).
Proof.
  intros Hon. unfold _assess_storage. eapply ht_bind; [by apply calm_probes|]. intros ps. apply ht_pure. intros Hps.
  eapply ht_bind.
  { apply (calm_query _ (λ hs : gmap string pyval, ∀ h v, hs !! h = Some v → v = PNone)).
    intros s (_ & _ & _ & Hk) h v Hl. apply elem_of_list_to_map_2, list_elem_of_omap in Hl as (x & Hx & Hl).
    destruct (hyps s !! x) as [r|] eqn:E; [|done]. simpl in Hl. injection Hl as <- <-. by apply (Hk x), Hon. }
  intros hs. apply ht_pure. intros Hhs. ht_q; [apply calm_query_any|]. rewrite clean_assess by done.
  apply (ht_bind _ _ _ (λ a w, quiet w ∧ a = (∅, ∅))); [by apply ht_ret|]. intros p. apply ht_pure. intros ->.
  ht_q; [|by apply ht_ret]. unfold _observe_shared_stall. apply (ht_bind _ _ _ (λ _, quiet)); [by apply ht_get|].
  intros b. destruct (observe _ _ _ _) as [tr st]. ht_q; [local_done|].
  destruct tr as [[]|]; first [apply calm_stall_doc|ht_done].
Qed.

(** *** Every check succeeds *)
Lemma calm_check_domain hyp v ids acc x : x.1 ≠ id → ht quiet (check_domain hyp v ids acc x) (λ _, quiet).
Proof.
  intros Hx. unfold check_domain. case_decide; [ht_done|]. ht_q; [apply calm_query_any|].
  destruct a; [ht_done|]. ht_q; [apply calm_query_any|]. destruct a as [s|].
  - ht_q; [|ht_done]. destruct (mem s _); [ht_done|]. destruct (_ =? _)%string; by apply calm_update.
  - destruct (v_destroys v x.1); [|ht_done]. ht_q; [apply calm_emit|ht_done].
Qed.

(** The answer of a hypervisor: it lists no [id]. *)
Definition silent (e : string * (listing * listing)) : Prop :=
  id ∉ List.map fst e.2.1 ∧ id ∉ List.map fst e.2.2.

Lemma ht_try_ok {A} (m : M broom A) h Q : ht quiet m Q → ht quiet (try_all m h) Q.
Proof.
  intros Hm w Hw. destruct (Hm w Hw) as (a & Ha & HQ). unfold try_all. destruct (m w) as [r w']. simpl in *. subst r.
  by exists a.
Qed.

Lemma calm_check disk ids h :
  h ∈ on →
  ht quiet (_check_single_hypervisor o disk ids h)
    (λ r w, quiet w ∧ c_success r = true ∧ silent (h, (c_active_domains r, c_states r))).
Proof.
  intros Hh. destruct (Hgood h Hh) as (_ & _ & _ & Hconn & Hsto & (ls & Hls & Hni) & _).
  unfold _check_single_hypervisor. apply ht_try_ok. eapply ht_bind.
  { apply (calm_query _ (λ known, known = true)). intros s (_ & _ & Hf & Hk).
    destruct (proj2 (Hf h) Hh) as (r0 & Hl & _). rewrite Hl. by destruct (Hk h r0 Hl Hh). }
  intros known. apply ht_pure. intros ->. cbv zeta. rewrite Hconn, Hsto, Hls. cbn [negb].
  ht_q; [destruct (_ =? _)%Z; ht_done|].
  apply (ht_bind _ _ _ (λ st w, quiet w ∧ st = ls)); [by apply ht_ret|]. intros st. apply ht_pure. intros ->.
  eapply ht_bind.
  { apply (ht_fold _ (λ _, True)); [done|]. intros c x Hx _.
    eapply ht_mono; [apply calm_check_domain|by intros]. intros Heq. apply Hni, list_elem_of_fmap. by exists x. }
  intros acc. apply ht_pure. intros _. apply ht_ret. intros w Hw. split; [done|]. split; [done|]. split; [|done].
  simpl. intros (x & Hx & Hin)%list_elem_of_fmap. apply elem_of_filter_bool in Hin as [Hin _].
  apply Hni, list_elem_of_fmap. by exists x.
Qed.

Lemma calm_concurrent online disk ids :
  online ≠ [] → (∀ h, h ∈ online → h ∈ on) →
  ht quiet (_check_hypervisors_concurrent o online disk ids ∅)
    (λ ans w, quiet w ∧ Forall silent ans ∧ List.map fst ans = online).
Proof.
  intros Hne Hon. unfold _check_hypervisors_concurrent. cbv zeta.
  ht_q; [apply ht_for; intros; destruct (mem _ _); [apply calm_mark|ht_done]|].
  assert (List.filter (λ h, match (∅ : gmap string string) !! h with Some _ => false | None => true end) online = online) as ->.
  { clear. induction online as [|h l IH]; [done|]. simpl. rewrite lookup_empty. by rewrite IH. }
  ht_q; [local_done|]. destruct (_ =? _)%nat eqn:E; [apply Nat.eqb_eq in E; by destruct online|]. clear E.
  ht_q; [apply calm_query_any|]. rename a0 into now. eapply ht_bind.
  { apply (ht_fold_app _ snd (λ h, h) (λ _, True)); [done|]. intros c h Hh _. unfold submit_check.
    apply Hon in Hh. destruct (Hgood h Hh) as (_ & Hdone & _).
    apply (ht_bind _ _ _ (λ _, quiet)); [by apply ht_get|]. intros b. rewrite Hdone.
    case_decide; (ht_q; [local_done|]); by apply ht_ret. }
  intros sub. apply ht_pure. intros [_ Hsub]. simpl in Hsub. rewrite Hsub, map_id. eapply ht_bind.
  { apply (ht_fold_app _ (λ c : gmap string string * answers, List.map fst c.2) (λ h, h) (λ c, Forall silent c.2)); [done|].
    intros c h Hh Hc. unfold collect_check. apply Hon in Hh. destruct (Hgood h Hh) as (Hdone & _). rewrite Hdone.
    eapply ht_bind; [by apply calm_check|]. intros r. apply ht_pure. intros [Hok Hs]. rewrite Hok. apply ht_ret.
    intros w Hw. simpl. rewrite map_app, Forall_app. auto. }
  intros res. apply ht_pure. intros [Hsil Hfst]. simpl in Hfst. rewrite map_id in Hfst.
  ht_q; [apply ht_for; intros; apply calm_mark|]. apply (ht_bind _ _ _ (λ _, quiet)); [by apply ht_get|]. intros b.
  ht_q; [apply ht_for; intros; apply calm_recover; local_done|].
  ht_q; [|by apply ht_ret]. apply ht_try_ok. ht_q; [apply calm_query_any|].
  apply (ht_bind _ _ _ (λ _, quiet)); [by apply ht_get|]. intros b'.
  apply ht_for. intros. apply calm_recover. ht_done.
Qed.

(** *** The other rows *)
Lemma calm_settle_active hyp ids x : x.1 ≠ id → ht quiet (settle_active hyp ids x) (λ _, quiet).
Proof.
  intros Hx. unfold settle_active. case_decide; [ht_done|]. ht_q; [apply calm_query_any|].
  destruct a as [s|]; [|ht_done]. destruct (mem s STATUSES_IN_CREATION); [ht_done|].
  destruct (_ =? _)%string; [|destruct (_ && _); [|ht_done]];
    (match goal with |- context [mem s ?l] => destruct (mem s l) end; [ht_done|]);
    (ht_q; [by apply calm_update|ht_done]).
Qed.

Lemma calm_rows statuses :
  ht quiet (query (rows_in statuses)) (λ l w, quiet w ∧
    (∀ d', (id, d') ∈ l → d' = d) ∧ (∀ s, d_status d = Some s → s ∈ statuses → (id, d) ∈ l) ∧
    (∀ row, row ∈ l → row_status row.2 ∈ statuses)).
Proof.
  apply calm_query. intros s (Hd & _). split_and!.
  - intros d' [Hin%elem_of_map_to_list _]%elem_of_filter_bool. simpl in Hin. congruence.
  - intros st Hst Hin. apply elem_of_filter_bool. split; [by apply elem_of_map_to_list|].
    simpl. rewrite Hst. by apply mem_spec.
  - intros row Hrow. by apply rows_in_status in Hrow as [_ ?].
Qed.

(** *** What follows the settling: other rows only, and it may raise *)
Lemma calm_update_wp x status hyp keep expected :
  x ≠ id → wp quiet (update_domain_status status x hyp keep expected) (λ _, True).
Proof.
  intros Hx. apply wp_update_any; [intros; apply calm_wp_any|].
  intros f. eapply calm_wp; [by apply calm_write|done].
Qed.

Lemma calm_stop_wp row : row.1 ≠ id → wp quiet (stop_row row) (λ _, True).
Proof. intros Hx. eapply calm_wp; [by apply calm_stop|done]. Qed.

Lemma calm_settle_row ans row :
  row.1 ≠ id ∨ row_status row.2 ∈ ["Started"; "Paused"] → wp quiet (settle_row ans row) (λ _, True).
Proof.
  intros Hrow. unfold settle_row. destruct (_hyp_of row.2) as [hyp|]; [|wp_done].
  destruct (assoc hyp ans) as [[active states]|]; [|wp_done]. cbv zeta.
  destruct (row_status row.2 =? "Starting")%string eqn:E1; [|
  destruct (row_status row.2 =? "Stopping")%string eqn:E2; [|
  destruct (row_status row.2 =? "Resetting")%string eqn:E3; [|
  destruct (row_status row.2 =? "Shutting-down")%string eqn:E4; [|wp_done]]]]; simp_bool;
    (assert (row.1 ≠ id) as Hx by (destruct Hrow as [?|[?|?%list_elem_of_singleton]%elem_of_cons]; congruence)).
  - destruct (mem _ _); [|wp_done]. wp_any; [by apply calm_update_wp|wp_done].
  - destruct (mem _ _); [wp_done|]. by apply calm_stop_wp.
  - wp_any; [apply calm_wp_any|]. wp_any; [by apply (wp_of_res _ _ (λ _, True))|].
    destruct (_ <? _)%Z; [|wp_done]. wp_any; [by apply calm_update_wp|wp_done].
  - destruct (mem _ _); [|by apply calm_stop_wp].
    wp_any; [apply calm_wp_any|]. wp_any; [by apply (wp_of_res _ _ (λ _, True))|].
    destruct (_ <? _)%Z; [|wp_done]. wp_any; [by apply calm_update_wp|wp_done].
Qed.

Lemma calm_reap ans now : wp quiet (_reap_idle_paused o ans now) (λ _, True).
Proof.
  unfold _reap_idle_paused. wp_any.
  { apply (wp_fold _ _ _ _ (λ _, True)); [done|]. intros. wp_any; [apply calm_wp_any|wp_done]. }
  wp_any; [apply calm_wp_any|]. apply wp_bind, wp_get. intros b.
  destruct (due _ _ _ _ _) as [out t']. wp_any; [eapply calm_wp; [local_done|done]|wp_done].
Qed.

Definition finish (l : list (string * domain)) (ans : answers) : B unit :=
  now ← time_now;
  _ ← _reap_idle_paused o ans now;
  _ ← for_each (List.filter without_hyp l) (λ r,
        if (row_status r.2 =? "Stopping")%string then stop_row r else mret tt);
  for_each (List.filter (λ r, negb (without_hyp r)) l) (settle_row ans).

Lemma calm_finish l ans :
  (∀ d0, (id, d0) ∈ l → row_status d0 ∈ ["Started"; "Paused"]) → wp quiet (finish l ans) (λ _, True).
Proof.
  intros Hl. unfold finish. wp_any; [apply calm_wp_any|]. wp_any; [apply calm_reap|]. wp_any.
  - apply wp_for. intros [x dx] [Hx _]%elem_of_filter_bool. simpl. destruct (_ =? _)%string eqn:E; [|wp_done].
    simp_bool. apply calm_stop_wp. simpl. intros ->. apply Hl in Hx. rewrite E in Hx. set_solver.
  - apply wp_for. intros [x dx] [Hx _]%elem_of_filter_bool. apply calm_settle_row. simpl.
    destruct (decide (x = id)) as [->|]; [right; by apply Hl|by left].
Qed.
End calm.

(** *** The settling itself *)
Section settle.
Context (on : gset string) (id : string).

Lemma calm_stop_self d t :
  d_status d = Some (row_status d) →
  ht (calm on id d t) (stop_row (id, d)) (λ _, calm on id (set_stopped "Stopped" d) t).
Proof.
  intros Hd. unfold stop_row. apply (ht_bind _ _ _ (λ _, calm on id (set_stopped "Stopped" d) t)).
  2: { intros ?. apply calm_release. }
  intros [sh b fs tr] (Hfs & Hb & Hdd & Hs). simpl in *. subst fs. exists (Some Applied).
  unfold update_domain_status, write_row, atomically, mbind, M_bind, interfere, mret, M_ret, guarded.
  simpl. rewrite Hdd, Hd, String.eqb_refl. simpl. split; [done|].
  unfold calm, calm_shared. simpl. rewrite lookup_insert_eq. split_and!; try done; apply Hs.
Qed.

(** A second write of a stop finds the row stopped. *)
Lemma calm_stop_again d t :
  row_status d ≠ "Stopped" →
  ht (calm on id (set_stopped "Stopped" d) t) (stop_row (id, d)) (λ _, calm on id (set_stopped "Stopped" d) t).
Proof.
  intros Hd. unfold stop_row. apply (ht_bind _ _ _ (λ _, calm on id (set_stopped "Stopped" d) t)).
  2: { intros ?. apply calm_release. }
  intros [sh b fs tr] (Hfs & Hb & Hdd & Hs). simpl in *. subst fs. exists (Some Applied).
  unfold update_domain_status, write_row, atomically, mbind, M_bind, interfere, mret, M_ret, guarded.
  simpl. rewrite Hdd. simpl. rewrite String.eqb_sym. apply String.eqb_neq in Hd as ->.
  split; [done|]. unfold calm, calm_shared. simpl. rewrite lookup_insert_eq. split_and!; try done; apply Hs.
Qed.

Lemma calm_stop_all d t l :
  d_status d = Some (row_status d) → row_status d ≠ "Stopped" → (∀ d', (id, d') ∈ l → d' = d) →
  (ht (calm on id (set_stopped "Stopped" d) t) (for_each l stop_row)
     (λ _, calm on id (set_stopped "Stopped" d) t)) ∧
  (ht (calm on id d t) (for_each l stop_row)
     (λ _, calm on id (if mem id (List.map fst l) then set_stopped "Stopped" d else d) t)).
Proof.
  intros Hd Hst. induction l as [|[x dx] l IH]; intros Huq; simpl.
  { split; by apply ht_ret. }
  destruct IH as [IH1 IH2]; [intros d' Hd'; apply Huq; by right|]. unfold mem. cbn [existsb]. fold (mem id (List.map fst l)).
  destruct (id =? x)%string eqn:Ex; simp_bool; cbn [orb].
  - subst x. assert (dx = d) as -> by (apply Huq; left). split.
    + eapply ht_bind; [by apply calm_stop_again|]. intros ?. exact IH1.
    + eapply ht_bind; [by apply calm_stop_self|]. intros ?. exact IH1.
  - split; (eapply ht_bind; [by apply calm_stop; simpl|]; intros ?); [exact IH1|exact IH2].
Qed.
End settle.

Section pass.
Context (o : observations) (on : gset string) (id : string).
Context (Henabled : o_enabled o = true) (Hgood : ∀ h, h ∈ on → answers_without o id h) (Hon : on ≠ ∅).

(** How often in a row the tracker has seen the row with the key, this pass included. *)
Definition streak (t : AbsenceTracker) (key : string * option string) : nat :=
  match _seen t !! id with Some (key', n) => if decide (key' = key) then S n else 1 | None => 1 end.

Definition has_key (d : domain) (key : string * option string) : Prop :=
  d_status d = Some key.1 ∧ key.1 ∈ STATUSES_SETTLED_WHEN_ABSENT ∧ _hyp_of d = key.2 ∧
  ∀ h, key.2 = Some h → h ∈ on.

(** The row and the tracker after a pass. *)
Definition settled_to (d : domain) (t : AbsenceTracker) (key : string * option string) (w : world broom) : Prop :=
  ∃ t', calm on id (if (passes t <=? streak t key)%nat then set_stopped "Stopped" d else d) t' w ∧
    passes t' = passes t ∧ _seen t' !! id = Some (key, streak t key).

Lemma silent_listed ans : Forall (silent id) ans → id ∉ listed (states_of ans).
Proof.
  intros Hs (e & He & Hin)%list_elem_of_In%in_flat_map. apply in_map_iff in He as (a & <- & Ha).
  rewrite Forall_forall in Hs. destruct (Hs a) as [_ H]; [by apply list_elem_of_In|].
  apply H, list_elem_of_In, Hin.
Qed.

Lemma fst_states ans : List.map fst (states_of ans) = List.map fst ans.
Proof. unfold states_of. by rewrite map_map. Qed.

Lemma calm_set_absence d t t' : ht (calm on id d t) (set_absence t') (λ _, calm on id d t').
Proof. intros w (Hfs & Hb & Hs). exists tt. split; [done|]. by split_and!. Qed.

Lemma held_query d t : ht (calm on id d t) (query _held) (λ held w, calm on id d t w ∧ held !! id = None).
Proof. apply calm_query. by intros s (_ & ? & _). Qed.

Lemma calm_settle d t key rows online ans :
  Forall (silent id) ans → List.map fst ans = online → (∀ h, h ∈ online ↔ h ∈ on) → online ≠ [] →
  (∀ d', (id, d') ∈ rows → d' = d) → (id, d) ∈ rows → has_key d key →
  ht (calm on id d t) (_settle_absent rows online ans) (λ _, settled_to d t key).
Proof.
  intros Hsil Hfst Hiff Hne Huq Hin (Hst & Hset & Hhyp & Hk). unfold _settle_absent.
  eapply ht_bind; [apply held_query|]. intros held. apply ht_pure. intros Hheld.
  apply (ht_bind _ _ _ (λ b w, calm on id d t w ∧ _absence b = t)); [by apply ht_get; intros w (? & ? & ?)|].
  intros b. apply ht_pure. intros ->.
  assert (complete online (states_of ans) = true) as Hc.
  { apply complete_spec. split; [done|]. intros h Hh. by rewrite fst_states, Hfst. }
  destruct (absent _ _ _ _ t) as [dues t'] eqn:E. destruct (absent_spec _ _ _ _ _ _ _ E Hc) as (-> & Hp & _ & Hseen).
  destruct (sight_unbacked (states_of ans) (is_held_in held) (_seen t) (id, d) key) as [n Hn].
  { split_and!; try done; [by apply silent_listed|unfold is_held_in; simpl; by rewrite Hheld|].
    intros h Hh. rewrite fst_states, Hfst. by apply Hiff, Hk. }
  assert (n = streak t key) as -> by (by apply sight_key in Hn as [_ ->]).
  assert (is_due (states_of ans) (is_held_in held) t (id, d) = (passes t <=? streak t key)%nat) as Hdue.
  { unfold is_due. by rewrite Hn. }
  set (dues := List.filter (is_due (states_of ans) (is_held_in held) t) rows).
  assert (mem id (List.map fst dues) = (passes t <=? streak t key)%nat) as Hmem.
  { destruct (passes t <=? _)%nat.
    - apply mem_spec, list_elem_of_fmap. exists (id, d). split; [done|]. by apply elem_of_filter_bool.
    - apply mem_false. intros ([x dx] & -> & [Hx Hd]%elem_of_filter_bool)%list_elem_of_fmap. simpl in *.
      rewrite (Huq _ Hx) in Hd. congruence. }
  eapply ht_bind; [apply calm_set_absence|]. intros _u.
  destruct (calm_stop_all on id d t' dues) as [_ H].
  - unfold row_status. by rewrite Hst.
  - unfold row_status. rewrite Hst. simpl. intros Heq. rewrite Heq in Hset. unfold STATUSES_SETTLED_WHEN_ABSENT in Hset. set_solver.
  - intros d' [Hd' _]%elem_of_filter_bool. auto.
  - eapply ht_mono; [exact H|]. intros a w Hw. simpl in Hw. rewrite Hmem in Hw. exists t'. split_and!; [done..|].
    by apply (Hseen id d).
Qed.

Lemma calm_settle_none d t rows online ans :
  (∀ d', (id, d') ∉ rows) →
  ht (calm on id d t) (_settle_absent rows online ans)
    (λ _ w, ∃ t', calm on id d t' w ∧ passes t' = passes t).
Proof.
  intros Hni. unfold _settle_absent. eapply ht_bind; [apply held_query|]. intros held. apply ht_pure. intros Hheld.
  apply (ht_bind _ _ _ (λ b w, calm on id d t w ∧ _absence b = t)); [by apply ht_get; intros w (? & ? & ?)|].
  intros b. apply ht_pure. intros ->. destruct (absent _ _ _ _ t) as [dues t'] eqn:E.
  assert ((∀ row, row ∈ dues → row ∈ rows) ∧ passes t' = passes t) as [Hsub Hp].
  { destruct (complete online (states_of ans)) eqn:Hc.
    - destruct (absent_spec _ _ _ _ _ _ _ E Hc) as (-> & ? & _). split; [|done].
      by intros row [? _]%elem_of_filter_bool.
    - unfold absent in E. rewrite Hc in E. simpl in E. injection E as <- <-. split; [set_solver|done]. }
  eapply ht_bind; [apply calm_set_absence|]. intros _u.
  eapply ht_mono; [apply (ht_for (calm on id d t'))|].
  - intros [x dx] Hx. apply calm_stop. simpl. intros ->. by apply (Hni dx), Hsub.
  - intros a w Hw. by exists t'.
Qed.

(** What the settling of a pass is given, around the row [d]. *)
Definition settling (d : domain) (rows : list (string * domain)) (online : list string) (ans : answers) : Prop :=
  Forall (silent id) ans ∧ List.map fst ans = online ∧ (∀ h, h ∈ online ↔ h ∈ on) ∧ online ≠ [] ∧
  (∀ d', (id, d') ∈ rows → d' = d) ∧
  (∀ s, d_status d = Some s → s ∈ STATUSES_SETTLED_WHEN_ABSENT → (id, d) ∈ rows) ∧
  (d_status d = Some "Stopped" → ∀ d', (id, d') ∉ rows).

Lemma pass_frame d t disk (φ : domain → AbsenceTracker → Prop) :
  countable d →
  (∀ rows online ans, settling d rows online ans →
     ht (calm on id d t) (_settle_absent rows online ans)
       (λ _ w, ∃ d' t', calm on id d' t' w ∧ φ d' t')) →
  reach (calm on id d t) (broom_pass o disk) (λ w, ∃ d' t', calm on id d' t' w ∧ φ d' t').
Proof.
  intros Hd Hsettle. unfold broom_pass. eapply reach_bind; [apply calm_rows|]. intros l. cbv zeta.
  apply reach_pure. intros (Huq & Hin & Hrows).
  assert (∀ d0, (id, d0) ∈ l → d0 = d ∧ row_status d0 ∈ ["Started"; "Paused"] ∧ _hyp_of d0 ≠ None) as Hl.
  { intros d0 Hd0. pose proof (Huq _ Hd0) as ->. apply Hrows in Hd0. simpl in Hd0. split; [done|].
    unfold row_status in *. destruct Hd as [Hd|[Hd|[Hd Hh]]].
    - rewrite Hd in Hd0. unfold TRANSITIONAL_STATUS in Hd0. set_solver.
    - rewrite Hd in Hd0. unfold TRANSITIONAL_STATUS in Hd0. set_solver.
    - split; [|done]. destruct Hd as [-> | ->]; set_solver. }
  eapply reach_bind; [apply calm_query_any|]. intros now. cbv beta.
  eapply reach_bind.
  { apply (ht_for (calm on id d t)). intros [x dx] [Hx Hw]%elem_of_filter_bool.
    destruct (reap_domain_without_hypervisor _ _); [|by apply ht_ret].
    apply (ht_bind _ _ _ (λ _, calm on id d t)); [|intros; by apply ht_ret]. apply calm_update. simpl. intros ->.
    destruct (Hl dx Hx) as (_ & _ & Hh). unfold without_hyp in Hw. simpl in Hw. by destruct (_hyp_of dx). }
  intros _u1. eapply reach_bind.
  { apply (calm_query _ _ _ _ _ (λ online, (∀ h, h ∈ online ↔ h ∈ on) ∧ online ≠ [])).
    intros s (_ & _ & Hf & _). assert (∀ h, h ∈ fst <$> List.filter (λ e, h_online e.2) (map_to_list (hyps s)) ↔ h ∈ on) as Hiff.
    { intros h. rewrite <-(Hf h), list_elem_of_fmap. setoid_rewrite elem_of_filter_bool. split.
      - intros ([h' r] & -> & [?%elem_of_map_to_list ?]). by exists r.
      - intros (r & Hr & Ho). exists (h, r). split; [done|]. split; [by apply elem_of_map_to_list|done]. }
    split; [done|]. intros Hnil. apply Hon. apply set_eq. intros h. rewrite <-Hiff, Hnil. set_solver. }
  intros online. apply reach_pure. intros [Hiff Hne].
  eapply reach_bind; [apply calm_assess; [done..|intros h; apply Hiff]|]. intros causes. apply reach_pure. intros ->.
  eapply reach_bind; [apply calm_concurrent; [done..|intros h; apply Hiff]|]. intros ans. apply reach_pure. intros [Hsil Hfst].
  eapply reach_bind.
  { apply (ht_for (calm on id d t)). intros e He. apply ht_for. intros x Hx. apply calm_settle_active.
    rewrite Forall_forall in Hsil. destruct (Hsil e He) as [Hs _]. intros Heq. apply Hs, list_elem_of_fmap. by exists x. }
  intros _u2. eapply reach_bind; [apply calm_rows|]. intros unknown. apply reach_pure. intros (Huq' & Hin' & Hrows').
  eapply reach_bind.
  { apply (Hsettle (unknown ++ l) online ans). split_and!; try done.
    - intros d' [H|H]%elem_of_app; auto.
    - intros s Hs Hset. apply elem_of_app. unfold STATUSES_SETTLED_WHEN_ABSENT in Hset.
      destruct (decide (s = "Unknown")) as [->|]; [left; apply (Hin' _ Hs); set_solver|right; apply (Hin _ Hs); set_solver].
    - intros Hs d' [H|H]%elem_of_app.
      + pose proof (Huq' _ H) as ->. apply Hrows' in H. unfold row_status in H. simpl in H. rewrite Hs in H. set_solver.
      + destruct (Hl _ H) as (-> & H' & _). unfold row_status in H'. rewrite Hs in H'. set_solver. }
  intros _u3 w (d' & t' & Hw & Hφ). exists d', t'. split; [|done].
  refine (proj1 (calm_finish o on id d' t' Henabled Hgood l ans _ w Hw)). intros d0 Hd0. by destruct (Hl _ Hd0) as (_ & ? & _).
Qed.

Lemma polling_reach P Q : (∀ disk, reach P (broom_pass o disk) Q) →
  (∀ w, P w → ∀ z, P (set_disk z w).2) → reach P (polling o) Q.
Proof.
  intros Hpass Hset w Hw. unfold polling, mbind, M_bind, get_local. simpl. rewrite Henabled.
  set (z := (_ + 1)%Z). specialize (Hpass z _ (Hset w Hw z)). unfold try_all.
  change (Q (match broom_pass o z (set_disk z w).2 with
             | (Ok a, w') => (Ok a, w') | (Raise _, w') => (Ok tt, w') end).2).
  by destruct (broom_pass o z (set_disk z w).2) as [[]].
Qed.

Lemma calm_disk d t w : calm on id d t w → ∀ z, calm on id d t (set_disk z w).2.
Proof. done. Qed.

Lemma polling_settles d t key :
  countable d → has_key d key → reach (calm on id d t) (polling o) (settled_to d t key).
Proof.
  intros Hd Hk. apply polling_reach; [|intros w Hw z; by apply calm_disk]. intros disk w Hw.
  destruct (pass_frame d t disk (λ d' t',
    d' = (if (passes t <=? streak t key)%nat then set_stopped "Stopped" d else d) ∧
    passes t' = passes t ∧ _seen t' !! id = Some (key, streak t key)) Hd) with (w := w) as (d' & t' & Hc & -> & H); [|done|].
  - intros rows online ans (H1 & H2 & H3 & H4 & H5 & H6 & _). eapply ht_mono.
    + apply calm_settle; try done. destruct Hk as (? & ? & _). by eapply H6.
    + intros a w' (t' & ? & ? & ?). eauto 10.
  - by exists t'.
Qed.

Lemma polling_keeps_stopped d t :
  d_status d = Some "Stopped" →
  reach (calm on id d t) (polling o) (λ w, ∃ t', calm on id d t' w ∧ passes t' = passes t).
Proof.
  intros Hd. apply polling_reach; [|intros w Hw z; by apply calm_disk]. intros disk w Hw.
  destruct (pass_frame d t disk (λ d' t', d' = d ∧ passes t' = passes t)) with (w := w) as (d' & t' & Hc & -> & H); [by right; left| |done|].
  - intros rows online ans (_ & _ & _ & _ & _ & _ & H7). eapply ht_mono; [apply calm_settle_none; auto|].
    intros a w' (t' & ? & ?). eauto 10.
  - by exists t'.
Qed.
End pass.

(** C12: Two consecutive passes of the enabled broom turn the row [d] of the desktop [id] to
    Stopped, without host and viewer, under the following conditions, whatever else is in
    the tables and whatever the tracker had counted before. The row is Unknown, or is Started
    or Paused with a host, and a host it names is online; nobody holds the desktop. At least
    one hypervisor is online; in both passes every online one is connected, passes its checks
    and its storage probe in time, and answers a listing without the desktop; each has a
    hostname and has sent no health report. No other thread writes during the two passes,
    and the tracker waits for ABSENT_PASSES_TO_STOP (two) sightings. *)
Theorem two_passes_settle_a_vanished_desktop o1 o2 on id d t key w :
  o_enabled o1 = true → (∀ h, h ∈ on → answers_without o1 id h) →
  o_enabled o2 = true → (∀ h, h ∈ on → answers_without o2 id h) →
  on ≠ ∅ → passes t = ABSENT_PASSES_TO_STOP → countable d → has_key on d key → calm on id d t w →
  domains (w_sh (polling o2 (polling o1 w).2).2) !! id = Some (set_stopped "Stopped" d).
Proof.
  intros He1 Hg1 He2 Hg2 Hon Hp Hd Hk Hw.
  destruct (polling_settles o1 on id He1 Hg1 Hon d t key Hd Hk w Hw) as (t' & Hw' & Hp' & Hs').
  destruct (passes t <=? streak id t key)%nat eqn:E.
  - destruct (polling_keeps_stopped o2 on id He2 Hg2 Hon (set_stopped "Stopped" d) t' eq_refl _ Hw') as (t'' & (_ & _ & H & _) & _).
    exact H.
  - destruct (polling_settles o2 on id He2 Hg2 Hon d t' key Hd Hk _ Hw') as (t'' & (_ & _ & H & _) & _).
    assert (2 ≤ streak id t' key) as H2.
    { unfold streak at 1. rewrite Hs', decide_True by done. unfold streak.
      destruct (_seen t !! id) as [[k n]|]; [destruct (decide (k = key))|]; lia. }
    rewrite Hp', Hp in H. unfold ABSENT_PASSES_TO_STOP in H. apply Nat.leb_le in H2. rewrite H2 in H. exact H.
Qed.

Lemma two_passes_settle_a_vanished_desktop_witness :
  let w := World (ex_shared ex_rows (ex_hyp None PNone)) (ex_broom ∅ ∅) [] [] in
  let o := ex_obs ex_listing in
  domains (w_sh (polling o (polling o w).2).2) !! "b" =
  Some (set_stopped "Stopped" (ex_domain "Started" (HStr "h1"))).
Proof.
  intros w o.
  assert (∀ h, h ∈ ({["h1"]} : gset string) → answers_without o "b" h) as Hg.
  { intros h _. split_and!; [reflexivity..| |].
    - exists ex_listing. split; [reflexivity|]. apply mem_false. vm_compute. reflexivity.
    - exists (OStr ""). split; [reflexivity|]. vm_compute. reflexivity. }
  apply (two_passes_settle_a_vanished_desktop o o {["h1"]} "b" (ex_domain "Started" (HStr "h1"))
           (Absence ABSENT_PASSES_TO_STOP ∅) ("Started", Some "h1") w).
  - reflexivity.
  - exact Hg.
  - reflexivity.
  - exact Hg.
  - apply non_empty_singleton_L.
  - reflexivity.
  - right. right. split; [left; reflexivity|discriminate].
  - split_and!; [reflexivity| |reflexivity|].
    + right. left.
    + intros h [= <-]. apply elem_of_singleton. reflexivity.
  - do 4 (split; [reflexivity|]). split.
    + apply fleet_ex. reflexivity.
    + intros h r Hr _. simpl in Hr. apply lookup_singleton_Some in Hr as [_ <-]. split; reflexivity.
Defined.
