(* ===== verification/HypWorker.v ===== *)
(** * Starting and stopping desktops with a libvirt that may not answer

    The start, stop and late-create handlers of EN/services/threads/hyp_worker_thread.py,
    where EN/ is src/engine/src/engine/, over the holds of domain_guard.py ([DomainStore]).
    A libvirt call that times out goes on in the background: its future stays pending,
    the domain is held, and a callback queues the rest of the work for when it answers.

    Handlers run in the monad [M] of [DomainStore] with the local state [worker]. How each
    libvirt call ends is read from [wk_outcomes]; a call that gets no answer makes a
    pending future. The queue is a priority queue: any of its actions may be next
    ([fleet_step]). Left out: the conversion of XML, the statistics of response times, the
    queue reports and the loss of the connection to the hypervisor. *)
From Stdlib Require Import QArith.
From stdpp Require Import pretty.
From S2P Require Import Prelude PyVal StorageStall DomainStore.

(** ** Actions and state *)
Record start_action := StartAction {
  sa_domain : string;
  sa_paused : bool;
  sa_passthrough : bool;
  sa_memory_backing : bool;
  sa_nvidia : bool;
}.

Record stop_action := StopAction {
  so_domain : string;
  so_not_change_status : bool;
  so_attempt : nat;
  so_token : option string;
}.

Record late_action := LateAction {
  la_domain : string;
  la_action : start_action;
  la_status_at_timeout : option string;
  la_future : nat;
}.

Inductive action := AStart (a : start_action) | AStop (a : stop_action) | ALate (a : late_action).

Definition domain_of (a : action) : string :=
  match a with AStart a => sa_domain a | AStop a => so_domain a | ALate a => la_domain a end.

(** The errors of libvirt the handlers tell apart. *)
Inductive lerror := NoDomain | AlreadyExists | NoBackingStore | OtherLibvirt.

(** How a call ends: an answer, an error of libvirt, no answer in time, another
    exception. *)
Inductive outcome := Answers | Errs (e : lerror) | NoAnswer | Breaks.

(** The same for the caller: the future of a call that timed out is known. *)
Inductive call_result := Got | Failed (e : lerror) | TimedOut (f : nat) | Broken.

(** What a future that is done holds. *)
Inductive future_result := FOk | FErr (e : lerror) | FBroken.

Inductive call_kind := KCreate | KLookup | KDestroy.
#[export] Instance call_kind_eq_dec : EqDecision call_kind.
Proof. solve_decision. Defined.

Record worker := Worker {
  wk_hyp_id : string;
  wk_stop : bool;
  wk_queue : list action;
  _stop_retries : gmap string string;
  _stop_timers : gmap string stop_action;
  _inflight_calls : gmap string (call_kind * nat);
  wk_futures : gmap nat (option future_result);
  wk_callbacks : gmap nat action;
  wk_outcomes : list outcome;
}.

Notation K := (M worker).

Definition upd (f : worker → worker) : K unit := w ← get_local; put_local (f w).

Definition set_queue q (w : worker) : worker := Worker (wk_hyp_id w) (wk_stop w) q (_stop_retries w) (_stop_timers w)
  (_inflight_calls w) (wk_futures w) (wk_callbacks w) (wk_outcomes w).
Definition set_retries f (w : worker) : worker := Worker (wk_hyp_id w) (wk_stop w) (wk_queue w) (f (_stop_retries w))
  (_stop_timers w) (_inflight_calls w) (wk_futures w) (wk_callbacks w) (wk_outcomes w).
Definition set_timers f (w : worker) : worker := Worker (wk_hyp_id w) (wk_stop w) (wk_queue w) (_stop_retries w)
  (f (_stop_timers w)) (_inflight_calls w) (wk_futures w) (wk_callbacks w) (wk_outcomes w).
Definition set_calls f (w : worker) : worker := Worker (wk_hyp_id w) (wk_stop w) (wk_queue w) (_stop_retries w)
  (_stop_timers w) (f (_inflight_calls w)) (wk_futures w) (wk_callbacks w) (wk_outcomes w).
Definition set_futures f (w : worker) : worker := Worker (wk_hyp_id w) (wk_stop w) (wk_queue w) (_stop_retries w)
  (_stop_timers w) (_inflight_calls w) (f (wk_futures w)) (wk_callbacks w) (wk_outcomes w).
Definition set_callbacks f (w : worker) : worker := Worker (wk_hyp_id w) (wk_stop w) (wk_queue w) (_stop_retries w)
  (_stop_timers w) (_inflight_calls w) (wk_futures w) (f (wk_callbacks w)) (wk_outcomes w).
Definition set_outcomes o (w : worker) : worker := Worker (wk_hyp_id w) (wk_stop w) (wk_queue w) (_stop_retries w)
  (_stop_timers w) (_inflight_calls w) (wk_futures w) (wk_callbacks w) o.

(** A future id no call has had. *)
Definition fresh_future (w : worker) : nat := S (list_max (elements (dom (wk_futures w)))).

(** [_execute_libvirt_with_timeout] *)
Definition _execute_libvirt_with_timeout : K call_result :=
  w ← get_local;
  match wk_outcomes w with
  | [] => mret Broken
  | Answers :: os => _ ← upd (set_outcomes os); mret Got
  | Errs e :: os => _ ← upd (set_outcomes os); mret (Failed e)
  | Breaks :: os => _ ← upd (set_outcomes os); mret Broken
  | NoAnswer :: os =>
      let f := fresh_future w in
      _ ← upd (λ w, set_outcomes os (set_futures <[f := None]> w));
      mret (TimedOut f)
  end.

Definition hyp_id : K string := w ← get_local; mret (wk_hyp_id w).

Definition set_domain (status id : string) (hyp : hyp_field) (expected : option string) : K unit :=
  _ ← update_domain_status status id hyp false expected; mret tt.

(** [future.add_done_callback(lambda _f: self._requeue(a))] *)
Definition add_done_callback (f : nat) (a : action) : K unit := upd (set_callbacks <[f := a]>).

(** ** Starts *)
Definition _refuse_start_while_held (a : start_action) : K bool :=
  held ← holder (sa_domain a);
  match held with
  | None => mret false
  | Some _ =>
      h ← hyp_id;
      _ ← set_domain "Failed" (sa_domain a) (HStr h) None;
      mret true
  end.

Definition _track_late_create (a : start_action) (f : nat) : K unit :=
  status_at_timeout ← get_domain_status (sa_domain a);
  h ← hyp_id;
  _ ← hold (sa_domain a) h "createXML";
  _ ← upd (set_calls <[sa_domain a := (KCreate, f)]>);
  add_done_callback f (ALate (LateAction (sa_domain a) a status_at_timeout f)).

Definition _handle_libvirt_error_in_start_domain (a : start_action) (r : call_result) : K unit :=
  h ← hyp_id;
  match r with
  | TimedOut _ => set_domain "Failed" (sa_domain a) (HStr h) None
  | Failed AlreadyExists => set_domain "Started" (sa_domain a) (HStr h) None
  | _ =>
      _ ← set_domain "Failed" (sa_domain a) (HStr h) None;
      update_vgpu_info_if_stopped (sa_domain a)
  end.

(** A domain with a GPU also gives back the binding of the action. *)
Definition _handle_generic_error_in_start_domain (a : start_action) : K unit :=
  h ← hyp_id;
  _ ← set_domain "Failed" (sa_domain a) (HStr h) None;
  _ ← (if sa_nvidia a then emit (ERelease (sa_domain a)) else mret tt);
  update_vgpu_info_if_stopped (sa_domain a).

(** [update_domain_viewer_started_values]: status, hypervisor and viewer in one write *)
Definition set_started (h : string) (d : domain) : domain :=
  Domain (Some "Started") (HStr h) (d_accessed d) true (d_personal_vlans d).

(** The outcome is that of reading the ports out of the XML. *)
Definition _process_domain_startup (a : start_action) : K unit :=
  h ← hyp_id;
  r ← _execute_libvirt_with_timeout;
  match r with
  | Got => _ ← write_row (sa_domain a) (λ d, Some (set_started h d)); mret tt
  | _ =>
      _ ← set_domain "Failed" (sa_domain a) (HStr h) None;
      if sa_nvidia a then update_vgpu_info_if_stopped (sa_domain a) else mret tt
  end.

Definition createXML (id : string) : K call_result :=
  h ← hyp_id;
  _ ← emit (ECreate h id);
  _execute_libvirt_with_timeout.

(** [except libvirtError]: one more attempt on pages of 4K when the huge pages are
    exhausted. *)
Definition start_failed (a : start_action) (e : lerror) : K unit :=
  match e with
  | NoBackingStore =>
      if sa_memory_backing a then
        r ← createXML (sa_domain a);
        match r with
        | Got =>
            x ← _execute_libvirt_with_timeout;
            match x with
            | Got => _process_domain_startup a
            | r => _handle_libvirt_error_in_start_domain a r
            end
        | r => _handle_libvirt_error_in_start_domain a r
        end
      else _handle_libvirt_error_in_start_domain a (Failed e)
  | e => _handle_libvirt_error_in_start_domain a (Failed e)
  end.

Definition _handle_start_domain (vfio_ready : bool) (a : start_action) : K unit :=
  refused ← _refuse_start_while_held a;
  if refused : bool then mret tt
  else if sa_passthrough a && negb vfio_ready then
    h ← hyp_id; set_domain "Failed" (sa_domain a) (HStr h) None
  else
    r ← createXML (sa_domain a);
    match r with
    | TimedOut f => _track_late_create a f
    | Failed e => start_failed a e
    | Broken => _handle_generic_error_in_start_domain a
    | Got =>
        x ← _execute_libvirt_with_timeout;
        match x with
        | Got => _process_domain_startup a
        | TimedOut f => _handle_libvirt_error_in_start_domain a (TimedOut f)
        | Failed e => start_failed a e
        | Broken => _handle_generic_error_in_start_domain a
        end
    end.

Definition _handle_libvirt_error_in_start_paused (a : start_action) : K unit :=
  h ← hyp_id; set_domain "Failed" (sa_domain a) (HStr h) None.

Definition _handle_generic_error_in_start_paused (a : start_action) : K unit :=
  h ← hyp_id; set_domain "Crashed" (sa_domain a) (HStr h) None.

(** The paused domain is destroyed again; the answer of the last [isActive] is not used. *)
Definition _handle_paused_domain_test (a : start_action) : K unit :=
  h ← hyp_id;
  r1 ← _execute_libvirt_with_timeout;
  match r1 with
  | Got =>
      r2 ← _execute_libvirt_with_timeout;
      match r2 with
      | Got =>
          _ ← emit (EDestroy h (sa_domain a));
          _ ← _execute_libvirt_with_timeout;
          set_domain "Stopped" (sa_domain a) (HStr "") None
      | Broken => _handle_generic_error_in_start_paused a
      | _ => set_domain "Failed" (sa_domain a) (HStr h) None
      end
  | Broken => _handle_generic_error_in_start_paused a
  | _ => set_domain "Failed" (sa_domain a) (HStr h) None
  end.

Definition _handle_start_paused_domain (listed : bool) (a : start_action) : K unit :=
  refused ← _refuse_start_while_held a;
  if refused : bool then mret tt
  else
    r ← createXML (sa_domain a);
    match r with
    | TimedOut f => _track_late_create a f
    | Failed _ => _handle_libvirt_error_in_start_paused a
    | Broken => _handle_generic_error_in_start_paused a
    | Got =>
        x ← _execute_libvirt_with_timeout;
        match x with
        | Got => if listed then _handle_paused_domain_test a
                 else h ← hyp_id; set_domain "Crashed" (sa_domain a) (HStr h) None
        | Broken => _handle_generic_error_in_start_paused a
        | _ => _handle_libvirt_error_in_start_paused a
        end
    end.

(** ** Stops *)
Definition STOP_RETRY_BACKOFF_S : list Z := [10; 20; 40; 80; 160; 300]%Z.

(** The delay before the attempt after this one. *)
Definition backoff (attempt : nat) : Z :=
  nth (Nat.min attempt (length STOP_RETRY_BACKOFF_S) - 1) STOP_RETRY_BACKOFF_S 300%Z.

(** The token of a first retry is made of the domain and the time. *)
Definition new_token (id : string) (now : Q) : string :=
  id +:+ ":" +:+ pretty (Qnum now) +:+ "/" +:+ pretty (Zpos (Qden now)).

Definition token_of (a : stop_action) (now : Q) : string :=
  match so_token a with
  | Some t => if (t =? "")%string then new_token (so_domain a) now else t
  | None => new_token (so_domain a) now
  end.

Definition _cancel_stop_timer (id : string) : K unit := upd (set_timers (delete id)).

(** [pending]: the kind and the future of the call that timed out *)
Definition _schedule_stop_retry (a : stop_action) (pending : option (call_kind * nat)) : K unit :=
  let id := so_domain a in
  now ← time_now;
  let token := token_of a now in
  _ ← upd (set_retries <[id := token]>);
  let retry := StopAction id (so_not_change_status a) (S (so_attempt a)) (Some token) in
  _ ← match pending with
      | Some (kind, f) =>
          _ ← upd (set_calls <[id := (kind, f)]>);
          add_done_callback f (AStop retry)
      | None => mret tt
      end;
  h ← hyp_id;
  _ ← hold id h "destroy";
  _ ← (if so_not_change_status a then mret tt
       else set_domain "Stopping" id (HStr h) (Some "Stopping"));
  _ ← _cancel_stop_timer id;
  upd (set_timers <[id := retry]>).

Definition _stop_resolved (id : string) : K unit :=
  _ ← _cancel_stop_timer id;
  _ ← upd (set_retries (delete id));
  _ ← upd (set_calls (delete id));
  h ← hyp_id;
  _ ← release id (Some h);
  mret tt.

Definition _finalize_domain_stop (a : stop_action) : K unit :=
  _ ← _stop_resolved (so_domain a);
  h ← hyp_id;
  try_all (
    _ ← update_vgpu_info_if_stopped (so_domain a);
    if so_not_change_status a then mret tt
    else set_domain "Stopped" (so_domain a) (HStr "")
           (match so_token a with Some _ => Some "Stopping" | None => None end))
    (λ _, if so_not_change_status a then mret tt else set_domain "Failed" (so_domain a) (HStr h) None).

(** [_handle_domain_action_error] of a stop *)
Definition _handle_stop_error (a : stop_action) (kind : call_kind) (r : call_result) : K unit :=
  match r with
  | TimedOut f => _schedule_stop_retry a (Some (kind, f))
  | _ =>
      if so_not_change_status a then mret tt
      else h ← hyp_id; set_domain "Failed" (so_domain a) (HStr h) None
  end.

(** The lookup and the destroy of a stop. *)
Definition destroy_domain (a : stop_action) : K unit :=
  r ← _execute_libvirt_with_timeout;
  match r with
  | Got =>
      h ← hyp_id;
      _ ← emit (EDestroy h (so_domain a));
      x ← _execute_libvirt_with_timeout;
      match x with
      | Got | Failed NoDomain => _finalize_domain_stop a
      | x => _handle_stop_error a KDestroy x
      end
  | Failed NoDomain => _finalize_domain_stop a
  | r => _handle_stop_error a KLookup r
  end.

Definition _handle_stop_domain (a : stop_action) : K unit :=
  let id := so_domain a in
  w ← get_local;
  if match so_token a with Some t => negb (bool_decide (_stop_retries w !! id = Some t)) | None => false end
  then mret tt
  else
    match _inflight_calls w !! id with
    | None => destroy_domain a
    | Some (kind, f) =>
        match wk_futures w !! f with
        | Some (Some r) =>
            _ ← upd (set_calls (delete id));
            match kind, r with
            | KDestroy, FOk => _finalize_domain_stop a
            | _, _ => destroy_domain a
            end
        | _ => _schedule_stop_retry a None
        end
    end.

(** ** A createXML that answers late *)
Definition _handle_reconcile_late_create (a : late_action) : K unit :=
  let id := la_domain a in
  let start := la_action a in
  w ← get_local;
  _ ← (if bool_decide (snd <$> _inflight_calls w !! id = Some (la_future a))
       then upd (set_calls (delete id)) else mret tt);
  h ← hyp_id;
  _ ← release id (Some h);
  current ← get_domain_status id;
  let same := bool_decide (current = la_status_at_timeout a) in
  match mjoin (wk_futures w !! la_future a) with
  | None => raise ValueError
  | Some (FErr e) =>
      if negb same then mret tt
      else if sa_paused start then _handle_libvirt_error_in_start_paused start
      else _handle_libvirt_error_in_start_domain start (Failed e)
  | Some FBroken =>
      if negb same then mret tt
      else if sa_paused start then _handle_generic_error_in_start_paused start
      else _handle_libvirt_error_in_start_domain start Broken
  | Some FOk =>
      adopted ← (if negb (sa_paused start) && (same || bool_decide (current = Some "Started")) then
                   x ← _execute_libvirt_with_timeout;
                   match x with Got => _ ← _process_domain_startup start; mret true | _ => mret false end
                 else mret false);
      if adopted : bool then mret tt
      else
        _ ← emit (EDestroy h id);
        x ← _execute_libvirt_with_timeout;
        match x with
        | Got =>
            if negb same then mret tt
            else if sa_paused start then set_domain "Stopped" id (HStr "") current
            else set_domain "Failed" id (HStr h) current
        | _ => mret tt
        end
  end.

(** ** The thread *)
Definition handle (vfio_ready listed : bool) (a : action) : K unit :=
  match a with
  | AStart s => if sa_paused s then _handle_start_paused_domain listed s else _handle_start_domain vfio_ready s
  | AStop s => _handle_stop_domain s
  | ALate l => _handle_reconcile_late_create l
  end.

(** [_main_loop], one action: an exception fails the row. *)
Definition process_action (vfio_ready listed : bool) (a : action) : K unit :=
  try_all (handle vfio_ready listed a)
    (λ _, h ← hyp_id; set_domain "Failed" (domain_of a) (HStr h) None).

(** A worker that is stopping drops what its callbacks and timers queue. *)
Definition _requeue (a : action) (w : worker) : worker :=
  if wk_stop w then w else set_queue (wk_queue w ++ [a]) w.

(** The executor sets the result of a pending future, and runs its callback. *)
Definition answer (f : nat) (r : future_result) (w : worker) : worker :=
  match wk_futures w !! f with
  | Some None =>
      let w := set_futures <[f := Some r]> w in
      match wk_callbacks w !! f with
      | Some a => _requeue a w
      | None => w
      end
  | _ => w
  end.

(** A timer queues the next attempt. *)
Definition fire (id : string) (w : worker) : worker :=
  match _stop_timers w !! id with Some r => _requeue (AStop r) w | None => w end.

(** ** The workers of the fleet

    One step: a worker handles an action of its queue, a pending call answers, a timer
    fires, an action arrives, a worker stops, is forgotten or starts afresh, or somebody
    else writes the shared state without touching the holds. A worker handles any action of
    its queue that [ok] lets it: [any_action] is the whole behaviour of the fleet, [orderly]
    the runs of the theorem below. *)
Record fleet_state := Fleet { f_sh : shared; f_workers : gmap string worker }.

(** The worker tracks a call about the domain that has not answered. *)
Definition unanswered (w : worker) (id : string) : bool :=
  match _inflight_calls w !! id with
  | Some (_, f) => match wk_futures w !! f with Some (Some _) => false | _ => true end
  | None => false
  end.

Definition new_worker (h : string) : worker := Worker h false [] ∅ ∅ ∅ ∅ ∅ [].

Definition keeps_holds (f : shared → shared) : Prop := ∀ s, _held (f s) = _held s.

Definition run_action (vfio_ready listed : bool) (outs : list outcome) (foreign : list (shared → shared))
    (F : fleet_state) (w : worker) (a : action) (rest : list action) : world worker :=
  (process_action vfio_ready listed a
     (World (f_sh F) (set_outcomes outs (set_queue rest w)) foreign [])).2.

Definition any_action (F : fleet_state) (h : string) (a : action) : Prop := True.

(** The calls of a domain go to one hypervisor at a time, and a late create is handled when
    no call of its domain is awaited: no other worker waits for an answer about the domain,
    and where the action is a late create the worker itself does not either. The code asks
    for neither. *)
Definition orderly (F : fleet_state) (h : string) (a : action) : Prop :=
  (∀ h' w', h' ≠ h → f_workers F !! h' = Some w' → unanswered w' (domain_of a) = false) ∧
  (∀ l w, a = ALate l → f_workers F !! h = Some w → unanswered w (domain_of a) = false).

Inductive fleet_step (ok : fleet_state → string → action → Prop) (F : fleet_state) : fleet_state → Prop :=
  | fs_handle h w a q1 q2 vfio_ready listed outs foreign :
      f_workers F !! h = Some w → wk_queue w = q1 ++ a :: q2 →
      ok F h a → Forall keeps_holds foreign →
      let r := run_action vfio_ready listed outs foreign F w a (q1 ++ q2) in
      fleet_step ok F (Fleet (w_sh r) (<[h := w_local r]> (f_workers F)))
  | fs_answer h w f r :
      f_workers F !! h = Some w → fleet_step ok F (Fleet (f_sh F) (<[h := answer f r w]> (f_workers F)))
  | fs_fire h w id :
      f_workers F !! h = Some w → fleet_step ok F (Fleet (f_sh F) (<[h := fire id w]> (f_workers F)))
  | fs_arrive h w a :
      f_workers F !! h = Some w → fleet_step ok F (Fleet (f_sh F) (<[h := _requeue a w]> (f_workers F)))
  | fs_halt h w :
      f_workers F !! h = Some w →
      fleet_step ok F (Fleet (f_sh F) (<[h := Worker (wk_hyp_id w) true (wk_queue w) (_stop_retries w) (_stop_timers w)
        (_inflight_calls w) (wk_futures w) (wk_callbacks w) (wk_outcomes w)]> (f_workers F)))
  | fs_gone h : fleet_step ok F (Fleet (f_sh F) (delete h (f_workers F)))
  | fs_join h : f_workers F !! h = None → fleet_step ok F (Fleet (f_sh F) (<[h := new_worker h]> (f_workers F)))
  | fs_other f : keeps_holds f → fleet_step ok F (Fleet (f (f_sh F)) (f_workers F)).

(** ** Holds cover the unanswered calls *)
Definition held_by (s : shared) (id h : string) : Prop := ∃ e, _held s !! id = Some e ∧ hd_hyp_id e = h.

Definition covered (F : fleet_state) : Prop :=
  ∀ h w, f_workers F !! h = Some w →
    wk_hyp_id w = h ∧ ∀ id, unanswered w id = true → held_by (f_sh F) id h.

Lemma unanswered_same w w' id :
  _inflight_calls w' !! id = _inflight_calls w !! id →
  (∀ f r, wk_futures w' !! f = Some (Some r) ↔ wk_futures w !! f = Some (Some r)) →
  unanswered w' id = unanswered w id.
Proof.
  intros Hi Hf. unfold unanswered. rewrite Hi. destruct (_inflight_calls w !! id) as [[k f]|]; [|done].
  destruct (wk_futures w' !! f) as [[r|]|] eqn:E1, (wk_futures w !! f) as [[r'|]|] eqn:E2; try done;
    (apply Hf in E1; congruence) || (apply Hf in E2; congruence).
Qed.

Section handling.
Context (d h : string) (s0 : shared) (w0 : worker).

(** What the handling of an action of [d] leaves alone, and how it covers its own call. *)
Definition framed (w : world worker) : Prop :=
  (∀ id, id ≠ d → _held (w_sh w) !! id = _held s0 !! id ∧
                  _inflight_calls (w_local w) !! id = _inflight_calls w0 !! id) ∧
  (∀ f r, wk_futures (w_local w) !! f = Some (Some r) ↔ wk_futures w0 !! f = Some (Some r)) ∧
  wk_hyp_id (w_local w) = h ∧ Forall keeps_holds (w_foreign w).

(** A condition on the holds and the worker, with the frame. *)
Definition stable (R : gmap string held_entry → worker → Prop) (w : world worker) : Prop :=
  framed w ∧ R (_held (w_sh w)) (w_local w).

Lemma stable_interfere R : ht (stable R) interfere (λ _, stable R).
Proof.
  intros [sh k fs tr] [(Hid & Hf & Hh & Hfs) HR]. exists tt. unfold interfere. simpl in *. destruct fs as [|f fs].
  { split; [done|]. by split. }
  apply Forall_cons in Hfs as [Hk Hfs]. split; [done|]. unfold stable, framed. simpl. rewrite !Hk. by split_and!.
Qed.

Lemma stable_atomically {A} R (f : world worker → A * world worker) (Q : A → world worker → Prop) :
  (∀ w, stable R w → Q (f w).1 (f w).2) → ht (stable R) (atomically f) Q.
Proof.
  intros Hf. unfold atomically. eapply ht_bind; [apply stable_interfere|]. intros u w Hw.
  specialize (Hf w Hw). destruct (f w) as [a w']. by exists a.
Qed.

Lemma stable_query {A} R (f : shared → A) : ht (stable R) (query f) (λ _, stable R).
Proof. by apply stable_atomically. Qed.

Lemma stable_modify R f : keeps_holds f → ht (stable R) (modify f) (λ _, stable R).
Proof.
  intros Hf. apply stable_atomically. intros [sh k fs tr] [Hfr HR]. unfold stable, framed in *. simpl in *.
  rewrite !Hf. by split.
Qed.

Lemma stable_emit R e : ht (stable R) (emit e) (λ _, stable R).
Proof. intros [sh k fs tr] Hw. by exists tt. Qed.

Lemma stable_write R id f : ht (stable R) (write_row id f) (λ _, stable R).
Proof.
  apply stable_atomically. intros [sh k fs tr] Hw. simpl. destruct (domains sh !! id) as [x|]; [|done].
  by destruct (f x).
Qed.

Lemma stable_hyp R : ht (stable R) hyp_id (λ x w, stable R w ∧ x = h).
Proof.
  intros w [Hf HR]. exists h. unfold hyp_id, mbind, M_bind, get_local, mret, M_ret. simpl.
  pose proof Hf as (_ & _ & Hh & _). rewrite Hh. split; [done|]. by split.
Qed.

Lemma stable_release R id : ht (stable R) (update_vgpu_info_if_stopped id) (λ _, stable R).
Proof. unfold update_vgpu_info_if_stopped. eapply ht_bind; [apply stable_interfere|]. intros u. apply stable_emit. Qed.

Lemma stable_wp {A} R (m : K A) : ht (stable R) m (λ _, stable R) → wp (stable R) m (λ _, True).
Proof. intros Hm w Hw. destruct (Hm w Hw) as (a & _ & ?). by split. Qed.

(** The three conditions: an unanswered call is held, there is none, the domain is held. *)
Notation holds := (gmap string held_entry).
Definition held_here (m : holds) : Prop := ∃ e, m !! d = Some e ∧ hd_hyp_id e = h.
Definition own (m : holds) (k : worker) : Prop := unanswered k d = true → held_here m.
Definition idle (m : holds) (k : worker) : Prop := unanswered k d = false.
Definition kept (m : holds) (k : worker) : Prop := held_here m.

Lemma idle_own m k : idle m k → own m k.
Proof. unfold idle, own. congruence. Qed.
Lemma kept_own m k : kept m k → own m k.
Proof. by intros ? _. Qed.

Lemma ht_weaken {A} R R' (m : K A) Q :
  (∀ m k, R m k → R' m k) → ht (stable R') m Q → ht (stable R) m Q.
Proof. intros HR Hm w [? ?]. apply Hm. split; [done|]. by apply HR. Qed.

(** A change of the worker. *)
Definition local_frame (g : worker → worker) : Prop :=
  ∀ k, (∀ id, id ≠ d → _inflight_calls (g k) !! id = _inflight_calls k !! id) ∧
       (∀ f r, wk_futures (g k) !! f = Some (Some r) ↔ wk_futures k !! f = Some (Some r)) ∧
       wk_hyp_id (g k) = wk_hyp_id k.

Lemma stable_upd R R' g :
  local_frame g → (∀ m k, R m k → R' m (g k)) → ht (stable R) (upd g) (λ _, stable R').
Proof.
  intros Hg HR [sh k fs tr] [(Hid & Hf & Hh & Hfs) HRk]. exists tt. split; [done|]. destruct (Hg k) as (H1 & H2 & H3).
  simpl in *. split; [|by apply HR]. split_and!; simpl; [|intros; rewrite H2; apply Hf|congruence|done].
  intros id Hne. rewrite H1 by done. by apply Hid.
Qed.

(** A change that leaves the calls and the answers alone. *)
Lemma stable_upd_own g :
  (∀ k, _inflight_calls (g k) = _inflight_calls k ∧ wk_futures (g k) = wk_futures k ∧ wk_hyp_id (g k) = wk_hyp_id k) →
  ∀ R, (R = own ∨ R = idle ∨ R = kept) → ht (stable R) (upd g) (λ _, stable R).
Proof.
  intros Hg R HR. apply stable_upd.
  - intros k. destruct (Hg k) as (-> & -> & ->). done.
  - intros m k. assert (unanswered (g k) d = unanswered k d) as Hu.
    { unfold unanswered. by destruct (Hg k) as (-> & -> & _). }
    destruct HR as [->|[->| ->]]; unfold own, idle, kept; by rewrite ?Hu.
Qed.

Lemma stable_forget R : ht (stable R) (upd (set_calls (delete d))) (λ _, stable idle).
Proof.
  apply stable_upd.
  - intros k. split_and!; [|done..]. intros id Hne. simpl. by rewrite lookup_delete_ne.
  - intros m k _. unfold idle, unanswered. simpl. by rewrite lookup_delete_eq.
Qed.

Lemma kept_track c : ht (stable kept) (upd (set_calls <[d := c]>)) (λ _, stable kept).
Proof.
  apply stable_upd; [|done]. intros k. split_and!; [|done..]. intros id Hne. simpl. by rewrite lookup_insert_ne.
Qed.

Lemma stable_hold R op : ht (stable R) (hold d h op) (λ _, stable kept).
Proof.
  unfold hold. eapply ht_bind; [apply stable_query|]. intros now. cbv zeta beta.
  apply (ht_bind _ _ _ (λ _, stable kept)).
  - apply stable_atomically. intros [sh k fs tr] [(Hid & Hf & Hh & Hfs) HR]. simpl in *. split.
    + split_and!; simpl; try done. intros id Hne. rewrite lookup_insert_ne by done. by apply Hid.
    + exists (Held h op now). simpl. by rewrite lookup_insert_eq.
  - intros u. apply stable_modify. intros s. by destruct (redis_up s) eqn:E; simpl; rewrite ?E.
Qed.

Lemma idle_release : ht (stable idle) (release d (Some h)) (λ _, stable idle).
Proof.
  unfold release. apply (ht_bind _ _ _ (λ _, stable idle)).
  - apply stable_atomically. intros [sh k fs tr] Hw. simpl. destruct (_held sh !! d) as [e|]; [|done].
    destruct (negb _); [done|]. destruct Hw as [(Hid & Hf & Hh & Hfs) HR]. split; [|done].
    split_and!; simpl; try done. intros id Hne. simpl in Hid. rewrite lookup_delete_ne by done. by apply Hid.
  - intros []; [|by apply ht_ret]. apply (ht_bind _ _ _ (λ _, stable idle)); [|intros u; by apply ht_ret].
    apply stable_modify. intros s. by destruct (redis_up s) eqn:E; simpl; rewrite ?E.
Qed.

Lemma fresh_future_spec k : wk_futures k !! fresh_future k = None.
Proof.
  destruct (wk_futures k !! fresh_future k) as [x|] eqn:E; [|done]. exfalso.
  assert (fresh_future k ∈ elements (dom (wk_futures k))) as Hin by (apply elem_of_elements, elem_of_dom; by eexists).
  unfold fresh_future in *. revert Hin. generalize (elements (dom (wk_futures k))). intros l Hin.
  enough (∀ x, x ∈ l → x ≤ list_max l) as H by (specialize (H _ Hin); lia).
  intros y Hy. pose proof (proj1 (list_max_le l (list_max l)) (Nat.le_refl _)) as Hall.
  rewrite List.Forall_forall in Hall. by apply Hall, list_elem_of_In.
Qed.

Lemma stable_call R :
  (R = own ∨ R = idle ∨ R = kept) → ht (stable R) _execute_libvirt_with_timeout (λ _, stable R).
Proof.
  intros HR. unfold _execute_libvirt_with_timeout.
  apply (ht_bind _ _ _ (λ k w, stable R w ∧ k = w_local w)); [by apply ht_get|]. intros k.
  assert (∀ os, ht (λ w, stable R w ∧ k = w_local w) (upd (set_outcomes os)) (λ _, stable R)) as Hos.
  { intros os w [Hw _]. by apply (stable_upd_own (set_outcomes os)). }
  destruct (wk_outcomes k) as [|[] os]; [by apply ht_ret; intros w [? _]|..];
    try (eapply ht_bind; [apply Hos|]; intros u; by apply ht_ret).
  apply (ht_bind _ _ _ (λ _, stable R)); [|intros u; by apply ht_ret].
  intros [sh k' fs tr] [[(Hid & Hf & Hh & Hfs) HRk] ->]. exists tt. simpl in *. split; [done|].
  assert (∀ f r, <[fresh_future k' := None]> (wk_futures k') !! f = Some (Some r) ↔ wk_futures k' !! f = Some (Some r)) as Hfr.
  { intros f r. pose proof (fresh_future_spec k') as Hn. destruct (decide (f = fresh_future k')) as [->|Hne].
    - rewrite lookup_insert_eq, Hn. done.
    - by rewrite lookup_insert_ne. }
  split; [split_and!; simpl; [done|intros f r; by rewrite Hfr|done..]|].
  assert (unanswered (set_outcomes os (set_futures <[fresh_future k' := None]> k')) d = unanswered k' d) as Hu.
  { by apply unanswered_same. }
  destruct HR as [->|[->| ->]]; [intros Hun; apply HRk; by rewrite <-Hu|exact (eq_trans Hu HRk)|exact HRk].
Qed.

(** *** The handlers keep the conditions *)
Notation one_of R := (R = own ∨ R = idle ∨ R = kept).

Lemma wp_set_domain R status id hyp expected : wp (stable R) (set_domain status id hyp expected) (λ _, True).
Proof.
  apply wp_bind. apply (wp_mono _ _ (λ _, True)); [|intros; by apply wp_ret].
  apply wp_update_any; intros; apply stable_wp; [apply stable_query|apply stable_write].
Qed.

Lemma wp_hyp R : wp (stable R) hyp_id (λ x, x = h).
Proof. intros w Hw. destruct (stable_hyp R w Hw) as (a & Ha & ? & ->). split; [done|]. intros b. congruence. Qed.

Lemma wp_call R : one_of R → wp (stable R) _execute_libvirt_with_timeout (λ _, True).
Proof. intros HR. by apply stable_wp, stable_call. Qed.

Lemma wp_release R id : wp (stable R) (update_vgpu_info_if_stopped id) (λ _, True).
Proof. apply stable_wp, stable_release. Qed.

Lemma wp_emit R e : wp (stable R) (emit e) (λ _, True).
Proof. apply stable_wp, stable_emit. Qed.

Lemma wp_query_any R {A} (f : shared → A) : wp (stable R) (query f) (λ _, True).
Proof. apply stable_wp, stable_query. Qed.

Ltac wp_any := apply wp_bind; apply (wp_mono _ _ (λ _, True)); [|intros ? _].
Ltac wp_get_hyp := apply wp_bind; apply (wp_mono _ _ _ _ (wp_hyp _)); intros ? ->.
Ltac wp_done := first [by apply wp_ret|apply wp_raise].
Ltac wp_solve := repeat first
  [ wp_done | apply wp_set_domain | apply wp_release | apply wp_emit | apply wp_query_any
  | by apply wp_call | by apply (stable_wp _ _ (stable_write _ _ _)) | wp_get_hyp | wp_any ].

Lemma wp_start_error R a r : wp (stable R) (_handle_libvirt_error_in_start_domain a r) (λ _, True).
Proof. unfold _handle_libvirt_error_in_start_domain. wp_get_hyp. destruct r as [|[]| |]; wp_solve. Qed.

Lemma wp_startup R a : one_of R → wp (stable R) (_process_domain_startup a) (λ _, True).
Proof.
  intros HR. unfold _process_domain_startup. wp_get_hyp. wp_any; [by apply wp_call|].
  destruct a0; [wp_any; [apply stable_wp, stable_write|wp_done]|..]; (wp_any; [apply wp_set_domain|]);
    destruct (sa_nvidia a); wp_solve.
Qed.

Lemma wp_generic_error R a : wp (stable R) (_handle_generic_error_in_start_domain a) (λ _, True).
Proof.
  unfold _handle_generic_error_in_start_domain. wp_get_hyp. wp_any; [apply wp_set_domain|].
  wp_any; [destruct (sa_nvidia a); wp_solve|apply wp_release].
Qed.

Lemma wp_create R id : one_of R → wp (stable R) (createXML id) (λ _, True).
Proof. intros HR. unfold createXML. wp_get_hyp. wp_any; [apply wp_emit|by apply wp_call]. Qed.

Lemma wp_refuse R a : wp (stable R) (_refuse_start_while_held a) (λ _, True).
Proof. unfold _refuse_start_while_held. wp_any; [apply wp_query_any|]. destruct a0; [|wp_done]. wp_solve. Qed.

Lemma wp_paused_error R a : wp (stable R) (_handle_libvirt_error_in_start_paused a) (λ _, True).
Proof. unfold _handle_libvirt_error_in_start_paused. wp_solve. Qed.
Lemma wp_paused_generic R a : wp (stable R) (_handle_generic_error_in_start_paused a) (λ _, True).
Proof. unfold _handle_generic_error_in_start_paused. wp_solve. Qed.

Lemma wp_start_failed R a e : one_of R → wp (stable R) (start_failed a e) (λ _, True).
Proof.
  intros HR. unfold start_failed. destruct e; try apply wp_start_error.
  destruct (sa_memory_backing a); [|apply wp_start_error]. wp_any; [by apply wp_create|].
  destruct a0; try apply wp_start_error. wp_any; [by apply wp_call|].
  destruct a0; try apply wp_start_error. by apply wp_startup.
Qed.

(** A create that timed out is held before it is tracked. *)
Lemma wp_track a f : sa_domain a = d → wp (stable own) (_track_late_create a f) (λ _, True).
Proof.
  intros Hd. unfold _track_late_create. rewrite Hd. wp_any; [apply wp_query_any|]. wp_get_hyp.
  intros w Hw. split; [|done].
  assert (ht (stable own) (_ ← hold d h "createXML"; _ ← upd (set_calls <[d := (KCreate, f)]>);
            add_done_callback f (ALate (LateAction d a a0 f))) (λ _, stable kept)) as H.
  { eapply ht_bind; [apply stable_hold|]. intros u. eapply ht_bind; [apply kept_track|]. intros u'.
    apply stable_upd_own; auto. }
  destruct (H w Hw) as (? & _ & [Hf Hk]). split; [done|]. by apply kept_own.
Qed.

Lemma wp_start vfio a : sa_domain a = d → wp (stable own) (_handle_start_domain vfio a) (λ _, True).
Proof.
  intros Hd. unfold _handle_start_domain. wp_any; [apply wp_refuse|]. destruct a0; [wp_done|].
  destruct (_ && _); [wp_solve|]. wp_any; [apply wp_create; auto|].
  destruct a0; [|apply wp_start_failed; auto|by apply wp_track|apply wp_generic_error].
  wp_any; [apply wp_call; auto|].
  destruct a0; [apply wp_startup; auto|apply wp_start_failed; auto|apply wp_start_error|apply wp_generic_error].
Qed.

Lemma wp_start_paused listed a : sa_domain a = d → wp (stable own) (_handle_start_paused_domain listed a) (λ _, True).
Proof.
  intros Hd. unfold _handle_start_paused_domain. wp_any; [apply wp_refuse|]. destruct a0; [wp_done|].
  wp_any; [apply wp_create; auto|].
  destruct a0; [|apply wp_paused_error|by apply wp_track|apply wp_paused_generic].
  wp_any; [apply wp_call; auto|].
  destruct a0; [|apply wp_paused_error|apply wp_paused_error|apply wp_paused_generic].
  destruct listed; [|wp_solve]. unfold _handle_paused_domain_test. wp_get_hyp. wp_any; [apply wp_call; auto|].
  destruct a0; [|apply wp_set_domain|apply wp_set_domain|apply wp_paused_generic]. wp_any; [apply wp_call; auto|].
  destruct a0; [|apply wp_set_domain|apply wp_set_domain|apply wp_paused_generic]. wp_any; [apply wp_emit|].
  wp_any; [apply wp_call; auto|apply wp_set_domain].
Qed.

Tactic Notation "wp_as" ident(x) := apply wp_bind; apply (wp_mono _ _ (λ _, True)); [|intros x _].

Definition anyhow : holds → worker → Prop := λ _ _, True.

Lemma stable_upd_any g : local_frame g → ht (stable anyhow) (upd g) (λ _, stable anyhow).
Proof. intros Hg. by apply stable_upd. Qed.

Lemma frame_calls c : local_frame (set_calls <[d := c]>).
Proof. intros k. split_and!; [|done..]. intros id Hne. simpl. by rewrite lookup_insert_ne. Qed.

(** A stop that waits for an answer holds its domain. *)
Lemma wp_retry a pending : so_domain a = d → wp (stable own) (_schedule_stop_retry a pending) (λ _, True).
Proof.
  intros Hd. apply reach_wp. enough (reach (stable anyhow) (_schedule_stop_retry a pending) (stable own)) as Hany.
  { intros w [Hf _]. apply Hany. by split. }
  unfold _schedule_stop_retry. rewrite Hd. cbv zeta.
  eapply reach_bind; [apply stable_query|]. intros now. cbv beta.
  eapply reach_bind; [by apply stable_upd_any|]. intros u. cbv beta.
  apply (reach_bind _ _ _ (λ _, stable anyhow)).
  { destruct pending as [[kind f]|]; [|by apply ht_ret].
    eapply ht_bind; [apply stable_upd_any, frame_calls|]. intros u'. by apply stable_upd_any. }
  intros u1. eapply reach_bind; [apply stable_hyp|]. intros x. apply reach_pure. intros ->.
  eapply reach_bind; [apply stable_hold|]. intros u2 w Hw.
  assert (wp (stable kept) (_ ← (if so_not_change_status a then mret tt else set_domain "Stopping" d (HStr h) (Some "Stopping"));
    _ ← _cancel_stop_timer d;
    upd (set_timers <[d := StopAction d (so_not_change_status a) (S (so_attempt a)) (Some (token_of a now))]>)) (λ _, True)) as Hwp.
  { wp_any; [destruct (so_not_change_status a); [wp_done|apply wp_set_domain]|].
    wp_any; apply stable_wp, stable_upd_own; auto. }
  destruct (proj1 (Hwp w Hw)) as [Hf Hk]. split; [exact Hf|]. by apply kept_own.
Qed.

Lemma wp_resolved : ht (stable anyhow) (_stop_resolved d) (λ _, stable idle).
Proof.
  unfold _stop_resolved. eapply ht_bind; [by apply stable_upd_any|]. intros u.
  eapply ht_bind; [by apply stable_upd_any|]. intros u1. eapply ht_bind; [apply stable_forget|]. intros u2.
  eapply ht_bind; [apply stable_hyp|]. intros x. apply ht_pure. intros ->.
  eapply ht_bind; [apply idle_release|]. intros r. by apply ht_ret.
Qed.

Lemma wp_finalize a : so_domain a = d → wp (stable own) (_finalize_domain_stop a) (λ _, True).
Proof.
  intros Hd. apply reach_wp. unfold _finalize_domain_stop. rewrite Hd.
  eapply reach_bind; [apply (ht_weaken _ anyhow); [done|apply wp_resolved]|]. intros u w Hw.
  enough (wp (stable idle) (x ← hyp_id; try_all (
    _ ← update_vgpu_info_if_stopped d;
    if so_not_change_status a then mret tt
    else set_domain "Stopped" d (HStr "") (match so_token a with Some _ => Some "Stopping" | None => None end))
    (λ _, if so_not_change_status a then mret tt else set_domain "Failed" d (HStr x) None)) (λ _, True)) as H.
  { destruct (proj1 (H w Hw)) as [Hf Hi]. split; [exact Hf|]. by apply idle_own. }
  wp_get_hyp. apply wp_try.
  - wp_any; [apply wp_release|]. destruct (so_not_change_status a); [wp_done|apply wp_set_domain].
  - intros e. destruct (so_not_change_status a); [wp_done|apply wp_set_domain].
Qed.

Lemma wp_stop_error a kind r : so_domain a = d → wp (stable own) (_handle_stop_error a kind r) (λ _, True).
Proof.
  intros Hd. unfold _handle_stop_error. destruct r; try (destruct (so_not_change_status a); [wp_done|wp_solve]).
  by apply wp_retry.
Qed.

Lemma wp_destroy a : so_domain a = d → wp (stable own) (destroy_domain a) (λ _, True).
Proof.
  intros Hd. unfold destroy_domain. wp_any; [apply wp_call; auto|].
  destruct a0 as [|[]| |]; try (by apply wp_stop_error); [|by apply wp_finalize].
  wp_get_hyp. wp_any; [apply wp_emit|]. wp_any; [apply wp_call; auto|].
  destruct a1 as [|[]| |]; first [by apply wp_finalize|by apply wp_stop_error].
Qed.

Lemma wp_forget : wp (stable own) (upd (set_calls (delete d))) (λ _, True).
Proof.
  apply reach_wp. intros w Hw. destruct (stable_forget own w Hw) as (u & _ & [Hf Hi]). split; [exact Hf|].
  by apply idle_own.
Qed.

Lemma wp_stop a : so_domain a = d → wp (stable own) (_handle_stop_domain a) (λ _, True).
Proof.
  intros Hd. unfold _handle_stop_domain. rewrite Hd. apply wp_bind, wp_get. intros k.
  destruct (match so_token a with Some t => _ | None => _ end); [wp_done|].
  destruct (_inflight_calls k !! d) as [[kind f]|]; [|by apply wp_destroy].
  destruct (wk_futures k !! f) as [[r|]|]; [|by apply wp_retry..].
  wp_any; [apply wp_forget|]. destruct kind, r; first [by apply wp_destroy|by apply wp_finalize].
Qed.

Lemma wp_late a : la_domain a = d → wp (stable idle) (_handle_reconcile_late_create a) (λ _, True).
Proof.
  intros Hd. unfold _handle_reconcile_late_create. rewrite Hd. cbv zeta. apply wp_bind, wp_get. intros k.
  wp_any; [case_bool_decide; [apply stable_wp, stable_forget|wp_done]|]. wp_get_hyp.
  wp_any; [apply stable_wp, idle_release|]. wp_any; [apply wp_query_any|].
  destruct (mjoin _) as [[|e|]|]; [| | |wp_done].
  - wp_as adopted.
    { destruct (negb _ && _); [|wp_done]. wp_as x; [apply wp_call; auto|].
      destruct x; try wp_done. wp_any; [apply wp_startup; auto|wp_done]. }
    destruct adopted; [wp_done|]. wp_any; [apply wp_emit|]. wp_as x; [apply wp_call; auto|].
    destruct x; try wp_done. destruct (negb _); [wp_done|]. destruct (sa_paused _); apply wp_set_domain.
  - destruct (negb _); [wp_done|]. destruct (sa_paused _); [apply wp_paused_error|apply wp_start_error].
  - destruct (negb _); [wp_done|]. destruct (sa_paused _); [apply wp_paused_generic|apply wp_start_error].
Qed.

Lemma process_keeps vfio listed a :
  domain_of a = d →
  (∀ l, a = ALate l → reach (stable idle) (process_action vfio listed a) (stable idle)) ∧
  ((∀ l, a ≠ ALate l) → reach (stable own) (process_action vfio listed a) (stable own)).
Proof.
  intros Hd. unfold process_action. split.
  - intros l ->. apply reach_wp, wp_try; [by apply wp_late|]. intros e. wp_solve.
  - intros Hl. apply reach_wp, wp_try; [|intros e; wp_solve]. destruct a as [s|s|l]; simpl in *; [| |by destruct (Hl l)].
    + destruct (sa_paused s); [by apply wp_start_paused|by apply wp_start].
    + by apply wp_stop.
Qed.
End handling.

(** *** The fleet *)
Lemma covered_local F h w w' :
  covered F → f_workers F !! h = Some w → wk_hyp_id w' = wk_hyp_id w →
  (∀ id, unanswered w' id = true → unanswered w id = true) →
  covered (Fleet (f_sh F) (<[h := w']> (f_workers F))).
Proof.
  intros Hc Hw Hh Hu x wx. simpl. intros [[<- <-]|[Hne Hx]]%lookup_insert_Some; [|by apply Hc].
  destruct (Hc h w Hw) as [H1 H2]. split; [congruence|]. intros id Hid. by apply H2, Hu.
Qed.

Lemma requeue_calls a w :
  wk_hyp_id (_requeue a w) = wk_hyp_id w ∧ ∀ id, unanswered (_requeue a w) id = unanswered w id.
Proof. unfold _requeue. by destruct (wk_stop w). Qed.

Lemma answer_calls f r w :
  wk_hyp_id (answer f r w) = wk_hyp_id w ∧ ∀ id, unanswered (answer f r w) id = true → unanswered w id = true.
Proof.
  unfold answer. destruct (wk_futures w !! f) as [[|]|] eqn:E; [done| |done].
  set (w1 := set_futures <[f := Some r]> w).
  assert (∀ id, unanswered w1 id = true → unanswered w id = true) as H.
  { intros id. unfold unanswered, w1. simpl. destruct (_inflight_calls w !! id) as [[k g]|]; [|done].
    destruct (decide (g = f)) as [->|Hne]; [by rewrite lookup_insert_eq|by rewrite lookup_insert_ne]. }
  destruct (wk_callbacks w1 !! f) as [a|]; [|by split]. destruct (requeue_calls a w1) as [Hh Hu].
  split; [by rewrite Hh|]. intros id. rewrite Hu. apply H.
Qed.

Lemma handle_covered F h w a q vfio listed outs foreign :
  covered F → f_workers F !! h = Some w →
  (∀ h' w', h' ≠ h → f_workers F !! h' = Some w' → unanswered w' (domain_of a) = false) →
  (∀ l, a = ALate l → unanswered w (domain_of a) = false) →
  Forall keeps_holds foreign →
  let r := run_action vfio listed outs foreign F w a q in
  covered (Fleet (w_sh r) (<[h := w_local r]> (f_workers F))).
Proof.
  intros Hc Hw Hother Hlate Hfor r. set (d := domain_of a).
  destruct (Hc h w Hw) as [Hh Hown]. set (w1 := set_outcomes outs (set_queue q w)).
  set (W0 := World (f_sh F) w1 foreign []).
  assert (framed d h (f_sh F) w1 W0) as Hfr by (by split_and!).
  assert (unanswered w1 d = unanswered w d) as Hu1 by done.
  assert (stable d h (f_sh F) w1 (own d h) r) as [(Hid & Hfut & Hhyp & _) Hr].
  { destruct (process_keeps d h (f_sh F) w1 vfio listed a eq_refl) as [HL HN]. destruct a as [s|s|l].
    - refine (HN _ W0 _); [done|]. split; [done|]. intros Hun. by apply Hown.
    - refine (HN _ W0 _); [done|]. split; [done|]. intros Hun. by apply Hown.
    - destruct (HL l eq_refl W0) as [Hf Hi]; [|split; [exact Hf|]; by apply idle_own].
      split; [done|]. exact (Hlate l eq_refl). }
  intros x wx. simpl. intros [[<- <-]|[Hne Hx]]%lookup_insert_Some.
  - split; [done|]. intros id Hun. destruct (decide (id = d)) as [->|Hd]; [by apply Hr|].
    destruct (Hid id Hd) as [Hheld Hcall]. rewrite (unanswered_same w1) in Hun by done.
    destruct (Hown id Hun) as (e & He & ?). exists e. by rewrite Hheld.
  - destruct (Hc x wx Hx) as [Hxh Hxo]. split; [done|]. intros id Hun.
    destruct (decide (id = d)) as [->|Hd]; [by pose proof (Hother x wx (not_eq_sym Hne) Hx); unfold d in Hun; congruence|].
    destruct (Hid id Hd) as [Hheld _]. destruct (Hxo id Hun) as (e & He & ?). exists e. by rewrite Hheld.
Qed.

Lemma step_covered F F' : fleet_step orderly F F' → covered F → covered F'.
Proof.
  intros Hs Hc. destruct Hs.
  - destruct H1 as [Hother Hlate]. apply handle_covered; eauto.
  - destruct (answer_calls f r w). by eapply covered_local.
  - eapply covered_local; [done..| |]; unfold fire; destruct (_ !! id) as [s|]; try done;
      destruct (requeue_calls (AStop s) w) as [? Hu]; [done|]. intros i. by rewrite Hu.
  - destruct (requeue_calls a w) as [? Hu]. eapply covered_local; [done..|]. intros i. by rewrite Hu.
  - by eapply covered_local.
  - intros x wx. simpl. intros [_ Hx]%lookup_delete_Some. by apply Hc.
  - intros x wx. simpl. intros [[<- <-]|[Hne Hx]]%lookup_insert_Some; [|by apply Hc]. split; [done|].
    intros id. unfold unanswered. simpl. by rewrite lookup_empty.
  - intros x wx Hx. destruct (Hc x wx Hx) as [? Ho]. split; [done|]. intros id Hun.
    destruct (Ho id Hun) as (e & He & ?). exists e. simpl. by rewrite H.
Qed.

(** *** A start of a held domain *)
Definition not_created (id : string) (e : event) : Prop := ∀ h, e ≠ ECreate h id.

Lemma held_start_is_refused vfio listed a :
  wp (L := worker) (within (λ s, is_Some (_held s !! sa_domain a)) (not_created (sa_domain a)))
     (process_action vfio listed (AStart a)) (λ _, True).
Proof.
  set (I := within _ _).
  assert (∀ status id hyp expected, wp I (set_domain status id hyp expected) (λ _, True)) as Hset.
  { intros. apply wp_bind. apply (wp_mono _ _ (λ _, True)); [|intros; by apply wp_ret].
    apply wp_update_any; intros; [apply safe_query_any|by apply safe_write]. }
  assert (wp I hyp_id (λ _, True)) as Hhyp by (apply wp_bind, wp_get; intros; by apply wp_ret).
  assert (wp I (_refuse_start_while_held a) (λ b, b = true)) as Href.
  { apply wp_bind. eapply wp_mono; [by apply (safe_query _ _ _ (λ e, is_Some e))|]. intros ? [e ->].
    apply wp_bind. eapply wp_mono; [exact Hhyp|]. intros x _.
    apply wp_bind. eapply wp_mono; [apply Hset|]. intros ? _. by apply wp_ret. }
  apply wp_try.
  - simpl. destruct (sa_paused a); (apply wp_bind; eapply wp_mono; [exact Href|]); intros ? ->; by apply wp_ret.
  - intros e. apply wp_bind. eapply wp_mono; [exact Hhyp|]. intros x _. apply Hset.
Qed.

Definition fresh_fleet (F : fleet_state) : Prop := ∀ h w, f_workers F !! h = Some w → w = new_worker h.

(** C8: Start the workers afresh and let them run in any order, with foreign writes that do
    not touch the holds, on runs that are [orderly]: an action is handled only when no other
    worker waits for an unanswered call about the same domain, and a late create only when
    its own worker waits for none either. Then every libvirt call that a worker tracks in
    [_inflight_calls] and that has not answered holds its domain, and no worker that handles
    a start of that domain issues a createXML for it. The code does not ask for either half
    of the condition, and both are needed: see [stop_elsewhere_frees_the_hold] and
    [late_create_frees_the_hold_of_a_destroy]; a call that is not tracked is
    [fallback_create_is_not_held]. *)
Theorem unanswered_calls_block_starts F F' :
  fresh_fleet F → steps (fleet_step orderly) F F' →
  ∀ h w id, f_workers F' !! h = Some w → unanswered w id = true →
    held_by (f_sh F') id h ∧
    ∀ w2 a rest vfio listed outs foreign,
      sa_domain a = id → Forall keeps_holds foreign →
      Forall (not_created id) (w_trace (run_action vfio listed outs foreign F' w2 (AStart a) rest)).
Proof.
  intros HF Hs h w id Hw Hu.
  assert (covered F') as Hc.
  { apply (steps_invariant (fleet_step orderly) covered F F'); [intros; by eapply step_covered|done|].
    intros x wx Hx. rewrite (HF x wx Hx). split; [done|]. intros i. unfold unanswered. simpl. by rewrite lookup_empty. }
  destruct (Hc h w Hw) as [_ Hown]. split; [by apply Hown|].
  intros w2 a rest vfio listed outs foreign <- Hfor. destruct (Hown _ Hu) as (e & He & _).
  set (W := World (f_sh F') (set_outcomes outs (set_queue rest w2)) foreign []).
  destruct (held_start_is_refused vfio listed a W) as [(_ & _ & H) _]; [|exact H].
  split_and!; simpl; [by exists e| |done]. eapply Forall_impl; [exact Hfor|].
  intros f Hf s. simpl. by rewrite (Hf s).
Qed.

(** ** A run, and divergences *)
Definition ex_row (status : string) : domain := Domain (Some status) (HStr "h1") (Some (PInt 0)) false PNone.
Definition ex_sh : shared := Shared {["a" := ex_row "Starting"]} ∅ ∅ ∅ true None 100.
Definition ex_fleet : fleet_state := Fleet ex_sh {["h1" := new_worker "h1"; "h2" := new_worker "h2"]}.
Definition ex_start (backing : bool) : start_action := StartAction "a" false false backing false.
Definition ex_stop : stop_action := StopAction "a" false 0 None.

(** The worker [h] handles [a] with these outcomes. *)
Definition after (h : string) (a : action) (outs : list outcome) (F : fleet_state) : fleet_state :=
  match f_workers F !! h with
  | None => F
  | Some w =>
      let r := run_action true true outs [] F w a (tail (wk_queue w)) in
      Fleet (w_sh r) (<[h := w_local r]> (f_workers F))
  end.
Definition on_worker (h : string) (g : worker → worker) (F : fleet_state) : fleet_state :=
  Fleet (f_sh F) (alter g h (f_workers F)).
Definition waits (h id : string) (F : fleet_state) : bool :=
  match f_workers F !! h with Some w => unanswered w id | None => false end.
Definition queue_of (h : string) (F : fleet_state) : list action :=
  match f_workers F !! h with Some w => wk_queue w | None => [] end.

Definition ex_arrived : fleet_state :=
  Fleet (f_sh ex_fleet) (<["h1" := _requeue (AStart (ex_start false)) (new_worker "h1")]> (f_workers ex_fleet)).
Definition ex_timed_out : fleet_state := after "h1" (AStart (ex_start false)) [NoAnswer] ex_arrived.

Lemma unanswered_calls_block_starts_witness :
  waits "h1" "a" ex_timed_out = true ∧ held_by (f_sh ex_timed_out) "a" "h1" ∧
  Forall (not_created "a")
    (w_trace (run_action true true [] [] ex_timed_out (new_worker "h2") (AStart (ex_start false)) [])).
Proof.
  assert (fresh_fleet ex_fleet) as HF.
  { intros h w Hw. unfold ex_fleet in Hw. simpl in Hw.
    apply lookup_insert_Some in Hw as [[<- <-]|[_ Hw]]; [reflexivity|].
    apply lookup_singleton_Some in Hw as [<- <-]. reflexivity. }
  assert (steps (fleet_step orderly) ex_fleet ex_timed_out) as Hs.
  { eapply steps_cons; [apply (fs_arrive orderly ex_fleet "h1" (new_worker "h1") (AStart (ex_start false))); reflexivity|].
    eapply steps_cons; [|apply steps_refl].
    refine (fs_handle orderly ex_arrived "h1" (_requeue (AStart (ex_start false)) (new_worker "h1")) (AStart (ex_start false))
              [] [] true true [NoAnswer] [] _ _ _ _).
    - reflexivity.
    - reflexivity.
    - split; [|intros l w [=]]. intros h' w' Hne Hw. unfold ex_arrived in Hw. cbn [f_workers] in Hw.
      rewrite lookup_insert_ne in Hw by congruence. rewrite (HF h' w' Hw). reflexivity.
    - apply Forall_nil. exact I. }
  destruct (f_workers ex_timed_out !! "h1") as [w|] eqn:E; [|vm_compute in E; discriminate].
  assert (unanswered w "a" = true) as Hu.
  { assert (waits "h1" "a" ex_timed_out = true) as H by (vm_compute; reflexivity). unfold waits in H. rewrite E in H. exact H. }
  destruct (unanswered_calls_block_starts ex_fleet ex_timed_out HF Hs "h1" w "a" E Hu) as [H1 H2].
  split; [vm_compute; reflexivity|]. split; [exact H1|]. apply H2; [reflexivity|apply Forall_nil; exact I].
Defined.

(** A stop that another hypervisor does not answer takes over the hold of a create, and
    frees it when it is resolved. *)
Lemma stop_elsewhere_frees_the_hold :
  let F1 := after "h2" (AStop ex_stop) [NoAnswer] ex_timed_out in
  let F2 := on_worker "h2" (answer 1 (FErr NoDomain)) F1 in
  let F3 := match queue_of "h2" F2 with a :: _ => after "h2" a [Errs NoDomain] F2 | [] => F2 end in
  waits "h1" "a" F3 = true ∧ _held (f_sh F3) !! "a" = None.
Proof. vm_compute. split; reflexivity. Qed.

(** A run with one hypervisor: the create of a desktop times out and answers, its stop comes
    in before the late create is handled and its destroy times out, and the late create then
    frees the hold of the destroy. *)
Definition worker_of (h : string) (F : fleet_state) : worker := default (new_worker h) (f_workers F !! h).
Definition handled (h : string) (a : action) (q : list action) (outs : list outcome) (F : fleet_state) : fleet_state :=
  let r := run_action true true outs [] F (worker_of h F) a q in
  Fleet (w_sh r) (<[h := w_local r]> (f_workers F)).
Definition answered (h : string) (f : nat) (r : future_result) (F : fleet_state) : fleet_state :=
  Fleet (f_sh F) (<[h := answer f r (worker_of h F)]> (f_workers F)).
Definition arrived (h : string) (a : action) (F : fleet_state) : fleet_state :=
  Fleet (f_sh F) (<[h := _requeue a (worker_of h F)]> (f_workers F)).

Definition ex_late_run : fleet_state :=
  let F1 := answered "h1" 1 FOk ex_timed_out in
  let F2 := arrived "h1" (AStop ex_stop) F1 in
  let F3 := handled "h1" (AStop ex_stop) (queue_of "h1" F1) [Answers; NoAnswer] F2 in
  match queue_of "h1" F3 with a :: q => handled "h1" a q [Answers] F3 | [] => F3 end.

Lemma late_create_frees_the_hold_of_a_destroy :
  steps (fleet_step any_action) ex_fleet ex_late_run ∧
  waits "h1" "a" ex_late_run = true ∧ _held (f_sh ex_late_run) !! "a" = None.
Proof.
  split; [|vm_compute; split; reflexivity].
  apply (steps_cons _ _ ex_arrived); [by apply (fs_arrive any_action ex_fleet "h1" (new_worker "h1"))|].
  apply (steps_cons _ _ ex_timed_out).
  { by apply (fs_handle any_action ex_arrived "h1" (_requeue (AStart (ex_start false)) (new_worker "h1"))
                (AStart (ex_start false)) [] [] true true [NoAnswer] []). }
  unfold ex_late_run. set (F1 := answered "h1" 1 FOk ex_timed_out).
  apply (steps_cons _ _ F1).
  { apply (fs_answer any_action ex_timed_out "h1" (worker_of "h1" ex_timed_out)). vm_compute; reflexivity. }
  cbn zeta. set (F2 := arrived "h1" _ F1). apply (steps_cons _ _ F2).
  { apply (fs_arrive any_action F1 "h1" (worker_of "h1" F1)). vm_compute; reflexivity. }
  set (F3 := handled "h1" _ _ _ F2). apply (steps_cons _ _ F3).
  { apply (fs_handle any_action F2 "h1" (worker_of "h1" F2) (AStop ex_stop) (queue_of "h1" F1) []);
      [vm_compute; reflexivity..|done|done]. }
  destruct (queue_of "h1" F3) as [|a q] eqn:E; [apply steps_refl|].
  eapply steps_cons; [|apply steps_refl].
  apply (fs_handle any_action F3 "h1" (worker_of "h1" F3) a [] q); [vm_compute; reflexivity| |done..].
  assert (wk_queue (worker_of "h1" F3) = queue_of "h1" F3) as -> by (vm_compute; reflexivity). exact E.
Qed.

(** A worker that stops drops the late create its callback queues: the domain stays held
    and its next start is refused, though the call has answered. *)
Lemma stopped_worker_leaves_the_hold :
  let stopped := λ w, Worker (wk_hyp_id w) true (wk_queue w) (_stop_retries w) (_stop_timers w)
    (_inflight_calls w) (wk_futures w) (wk_callbacks w) (wk_outcomes w) in
  let F1 := on_worker "h1" (answer 1 FOk) (on_worker "h1" stopped ex_timed_out) in
  let F2 := after "h2" (AStart (ex_start false)) [Answers; Answers; Answers] F1 in
  waits "h1" "a" F1 = false ∧ queue_of "h1" F1 = [] ∧ is_Some (_held (f_sh F1) !! "a") ∧
  (domains (f_sh F2) !! "a" ≫= d_status) = Some "Failed".
Proof. vm_compute. split_and!; [reflexivity..|eauto|reflexivity]. Qed.

(** The second createXML of a start, on pages of 4K, is not tracked when it does not
    answer: nothing holds the domain and another hypervisor creates it meanwhile. *)
Lemma fallback_create_is_not_held :
  let F1 := after "h1" (AStart (ex_start true)) [Errs NoBackingStore; NoAnswer] ex_arrived in
  (f_workers F1 !! "h1" ≫= λ w, wk_futures w !! 1) = Some None ∧ _held (f_sh F1) !! "a" = None ∧
  ECreate "h2" "a" ∈ w_trace (run_action true true [Answers; Answers; Answers] [] F1 (new_worker "h2") (AStart (ex_start true)) []).
Proof. vm_compute. split_and!; [reflexivity..|left]. Qed.
