(* ===== verification/Dependents.v ===== *)
(** * Disk dependents and integrity

    [component/_common/src/isardvdi_common/lib/storage/dependents.py] answers which
    disks of a pool read through a backing file, from the headers of their images;
    [integrity.py] turns the answer, and the rows of the database, into findings.

    Files are a map from paths: a file has a content ([None] when [open] or [read]
    raises [OSError]), its size and the time of its last change. Paths and decoded
    texts are strings of UTF-8 bytes, ordered as Python orders the texts. A [dict]
    is a map: the order in which [index.items()] lists the entries decides only the
    order of the walk, and the answers are sorted. *)
From Stdlib Require Import Ascii.
From S2P Require Import Prelude PyVal QcowHeader StorageStall.

Open Scope Z_scope.

(** ** Paths *)

(** [os.path.normpath]: what is left of the components, last first. *)
Definition normpath_step (absolute : bool) (new_comps : list string) (comp : string) : list string :=
  if (comp =? "")%string || (comp =? ".")%string then new_comps
  else
    let top_is_up := match new_comps with c :: _ => (c =? "..")%string | [] => false end in
    let empty := match new_comps with [] => true | _ => false end in
    if negb (comp =? "..")%string || (negb absolute && empty) || top_is_up then comp :: new_comps
    else List.tl new_comps.

Definition initial_slashes (path : string) : string :=
  if String.prefix "//" path && negb (String.prefix "///" path) then "//"
  else if String.prefix "/" path then "/" else "".

Definition normpath (path : string) : string :=
  let slashes := initial_slashes path in
  let comps := foldl (normpath_step (negb (slashes =? "")%string)) [] (split_on "/" path) in
  let joined := slashes +:+ str_join "/" (List.rev comps) in
  if (joined =? "")%string then "." else joined.

Definition is_hex (c : ascii) : bool :=
  is_digit c || existsb (Ascii.eqb (lower_char c)) ["a"; "b"; "c"; "d"; "e"; "f"]%char.

(** The groups of a uuid: [true] stands for a hexadecimal digit, [false] for a dash. *)
Definition _UUID_RE : list bool :=
  replicate 8 true ++ [false] ++ replicate 4 true ++ [false] ++ replicate 4 true ++ [false]
  ++ replicate 4 true ++ [false] ++ replicate 12 true.

Fixpoint match_here (pattern : list bool) (s : string) : option string :=
  match pattern, s with
  | [], _ => Some EmptyString
  | hex :: pattern, String c s =>
      if (if hex then is_hex c else Ascii.eqb c "-") then String c <$> match_here pattern s else None
  | _ :: _, EmptyString => None
  end.

(** [_UUID_RE.search]: the leftmost match *)
Fixpoint re_search (s : string) : option string :=
  match match_here _UUID_RE s with
  | Some m => Some m
  | None => match s with String _ s => re_search s | EmptyString => None end
  end.

Definition uuid_from_path (path : string) : option string :=
  if (path =? "")%string then None else re_search (basename path).

Fixpoint _has_protocol (name : string) : bool :=
  match name with
  | EmptyString => false
  | String ch name => if Ascii.eqb ch "/" then false else if Ascii.eqb ch ":" then true else _has_protocol name
  end.

Definition full_backing_filename (image_path : string) (backing_file : option string) : option string :=
  match backing_file with
  | None => None
  | Some backing_file =>
      if (backing_file =? "")%string then None
      else if String.prefix "/" backing_file || _has_protocol backing_file then Some (normpath backing_file)
      else Some (normpath (join (dirname image_path) backing_file))
  end.

(** ** Headers *)
Record file := mkFile {
  f_bytes : option (list ascii);
  f_size : Z;
  f_mtime_ns : Z;
}.
Notation files := (gmap string file).

(** [U+FFFD] in UTF-8 *)
Definition REPLACEMENT : list ascii := ["239"; "191"; "189"]%char.

(** Whether [b] may follow the lead byte [a] of a sequence of three or four. *)
Definition second_ok (a b : ascii) : bool :=
  if byte_val a =? 224 then in_range 160 191 b
  else if byte_val a =? 237 then in_range 128 159 b
  else if byte_val a =? 240 then in_range 144 191 b
  else if byte_val a =? 244 then in_range 128 143 b
  else is_cont b.

(** [raw.decode("utf-8", "replace")]: a maximal well-formed prefix of a sequence
    that does not go on becomes one replacement character. *)
Fixpoint decode_replace (l : list ascii) : list ascii :=
  match l with
  | [] => []
  | a :: l1 =>
      if byte_val a <=? 127 then a :: decode_replace l1
      else if in_range 194 223 a then
        match l1 with
        | b :: l2 => if is_cont b then a :: b :: decode_replace l2 else REPLACEMENT ++ decode_replace l1
        | [] => REPLACEMENT
        end
      else if in_range 224 239 a then
        match l1 with
        | b :: l2 =>
            if second_ok a b then
              match l2 with
              | c :: l3 => if is_cont c then a :: b :: c :: decode_replace l3 else REPLACEMENT ++ decode_replace l2
              | [] => REPLACEMENT
              end
            else REPLACEMENT ++ decode_replace l1
        | [] => REPLACEMENT
        end
      else if in_range 240 244 a then
        match l1 with
        | b :: l2 =>
            if second_ok a b then
              match l2 with
              | c :: l3 =>
                  if is_cont c then
                    match l3 with
                    | d :: l4 =>
                        if is_cont d then a :: b :: c :: d :: decode_replace l4
                        else REPLACEMENT ++ decode_replace l3
                    | [] => REPLACEMENT
                    end
                  else REPLACEMENT ++ decode_replace l2
              | [] => REPLACEMENT
              end
            else REPLACEMENT ++ decode_replace l1
        | [] => REPLACEMENT
        end
      else REPLACEMENT ++ decode_replace l1
  end.

(** [(backing, readable)]. A seek past the offsets of the platform raises
    [ValueError], which [except OSError] lets through. *)
Definition read_backing (fs : files) (path : string) : res (option string * bool) :=
  match fs !! path ≫= f_bytes with
  | None => Ok (None, false)
  | Some data =>
      let head := ztake 4096 data in
      let is_qcow2 := bool_decide (ztake 4 head = QCOW2_MAGIC) in
      if negb is_qcow2 || (zlen head <? 20) then Ok (None, is_qcow2)
      else
        let off := be_val (slice head 8 16) in
        let size := be_val (slice head 16 20) in
        if (off =? 0) || (size =? 0) || (4096 <? size) then Ok (None, true)
        else if off + size <=? zlen head then
          Ok (Some (text_of (decode_replace (slice head off (off + size)))), true)
        else if 2 ^ 63 <=? off then Raise ValueError
        else Ok (Some (text_of (decode_replace (ztake size (zdrop off data)))), true)
  end.

(** ** The index *)
Record Entry := mkEntry {
  e_uuid : option string;
  e_size : Z;
  e_backing_raw : option string;
  e_backing_path : option string;
  e_backing_uuid : option string;
  e_readable : bool;
}.
#[export] Instance Entry_eq_dec : EqDecision Entry.
Proof. solve_decision. Defined.

Definition entry_of (fs : files) (p : string) (backing_raw : option string) (readable : bool) : Entry :=
  {| e_uuid := uuid_from_path p;
     e_size := match fs !! p with Some f => f_size f | None => 0 end;
     e_backing_raw := backing_raw;
     e_backing_path := full_backing_filename p backing_raw;
     e_backing_uuid := backing_raw ≫= uuid_from_path;
     e_readable := readable |}.

Notation index_of := (gmap string Entry).

Fixpoint build_backing_index (fs : files) (paths : list string) (index : index_of) : res index_of :=
  match paths with
  | [] => Ok index
  | p :: paths =>
      b ← read_backing fs p;
      build_backing_index fs paths (<[p := entry_of fs p b.1 b.2]> index)
  end.

(** ** The query *)
Definition str_is (s : option string) (t : string) : bool :=
  match s with Some s => (s =? t)%string | None => false end.

Definition _reads_through (e : Entry) (target_path : string) (target_uuid : option string) : bool :=
  match target_uuid with Some u => negb (u =? "")%string && str_is (e_backing_uuid e) u | None => false end
  || match e_backing_raw e with
     | None => false
     | Some raw =>
         negb (raw =? "")%string
         && ((raw =? target_path)%string
             || match e_backing_path e with
                | Some resolved => negb (resolved =? "")%string && (resolved =? normpath target_path)%string
                | None => false
                end)
     end.

Definition is_live (live_uuids : option (gset (option string))) (e : Entry) : bool :=
  match live_uuids with None => true | Some live => bool_decide (e_uuid e ∈ live) end.

Section query.
Context (index : index_of) (transitive : bool) (skip : gset string)
        (live_uuids : option (gset (option string))).

Definition frontier_t := list (string * option string).

(** The body of the inner loop, for one entry of the index. *)
Definition visit (walked : gset string) (tp : string) (tu : option string)
    (acc : frontier_t * gset string) (pe : string * Entry) : frontier_t * gset string :=
  let '(p, e) := pe in
  if bool_decide (p ∈ skip) || negb (_reads_through e tp tu) then acc
  else
    (if transitive && negb (bool_decide (p ∈ walked)) then (p, e_uuid e) :: acc.1 else acc.1,
     if is_live live_uuids e then {[p]} ∪ acc.2 else acc.2).

(** The outer loop; the frontier is a stack with its top first. [None] is a fuel
    that ran out. *)
Fixpoint walk (fuel : nat) (frontier : frontier_t) (walked found : gset string) : option (gset string) :=
  match frontier with
  | [] => Some found
  | (tp, tu) :: frontier =>
      match fuel with
      | O => None
      | S fuel =>
          if bool_decide (tp ∈ walked) then walk fuel frontier walked found
          else
            let walked := {[tp]} ∪ walked in
            let acc := foldl (visit walked tp tu) (frontier, found) (map_to_list index) in
            walk fuel acc.1 walked acc.2
      end
  end.

End query.

(** Every path is walked once and adds at most one entry per file of the index. *)
Definition walk_fuel (index : index_of) : nat :=
  S (S (base.size index) * base.size index).

Definition dependents_of (target_path : string) (index : index_of) (transitive : bool)
    (covered_paths : list string) (live_uuids : option (gset (option string)))
    : option (list string * list string) :=
  let skip := list_to_set covered_paths ∪ {[target_path]} in
  let unreadable := py_sorted String.leb
    (omap (λ pe : string * Entry,
             if negb (bool_decide (pe.1 ∈ skip)) && negb (e_readable pe.2) then Some pe.1 else None)
          (map_to_list index)) in
  found ← walk index transitive skip live_uuids (walk_fuel index)
            [(target_path, uuid_from_path target_path)] ∅ ∅;
  Some (py_sorted String.leb (elements found), unreadable).

(** ** What the walk computes *)

(** [p] reads through [target]: its own backing file is [target], or a disk that
    reads through [target]; no disk on the way is in [skip]. *)
Inductive depends (index : index_of) (skip : gset string) (target : string) : string → Prop :=
  | depends_direct p e :
      index !! p = Some e → p ∉ skip →
      _reads_through e target (uuid_from_path target) = true → depends index skip target p
  | depends_via p e q eq :
      depends index skip target q → index !! q = Some eq →
      index !! p = Some e → p ∉ skip → _reads_through e q (e_uuid eq) = true →
      depends index skip target p.

Definition reads_directly (index : index_of) (skip : gset string) (target p : string) : Prop :=
  ∃ e, index !! p = Some e ∧ p ∉ skip ∧ _reads_through e target (uuid_from_path target) = true.

Section walk.
Context (index : index_of) (transitive : bool) (skip : gset string)
        (live_uuids : option (gset (option string))) (target : string).

(** [p] is a disk the query is to report. *)
Definition answer (p : string) : Prop :=
  ∃ e, index !! p = Some e ∧ is_live live_uuids e = true ∧
       (if transitive then depends index skip target p else reads_directly index skip target p).

(** A node of the frontier: the target, or a disk found on the way. *)
Definition node (n : string * option string) : Prop :=
  n = (target, uuid_from_path target) ∨
  (transitive = true ∧ ∃ e, index !! n.1 = Some e ∧ n.2 = e_uuid e ∧ depends index skip target n.1).

Lemma exists_pair_snoc (P : string → Entry → Prop) l p0 e0 :
  (∃ p e, (p, e) ∈ l ++ [(p0, e0)] ∧ P p e) ↔ (∃ p e, (p, e) ∈ l ∧ P p e) ∨ P p0 e0.
Proof.
  split.
  - intros (p & e & [Hin|[= -> ->]%list_elem_of_singleton]%elem_of_app & HP); eauto.
  - intros [(p & e & Hin & HP)|HP].
    + exists p, e. split; [|done]. apply elem_of_app. by left.
    + exists p0, e0. split; [|done]. apply elem_of_app. right. by apply list_elem_of_singleton.
Qed.

(** What an entry of the index adds to the frontier and to the answer. *)
Definition pushes (walked : gset string) (tp : string) (tu : option string) (n : string * option string)
    (p : string) (e : Entry) : Prop :=
  transitive = true ∧ n = (p, e_uuid e) ∧ p ∉ skip ∧ p ∉ walked ∧ _reads_through e tp tu = true.
Definition counts (tp : string) (tu : option string) (q p : string) (e : Entry) : Prop :=
  q = p ∧ p ∉ skip ∧ _reads_through e tp tu = true ∧ is_live live_uuids e = true.

Lemma visit_entry_spec walked tp tu acc p e :
  let acc' := visit transitive skip live_uuids walked tp tu acc (p, e) in
  (∀ n, n ∈ acc'.1 ↔ n ∈ acc.1 ∨ pushes walked tp tu n p e) ∧
  (∀ q, q ∈ acc'.2 ↔ q ∈ acc.2 ∨ counts tp tu q p e) ∧
  (length acc'.1 ≤ S (length acc.1))%nat.
Proof.
  unfold visit, pushes, counts.
  destruct (bool_decide_reflect (p ∈ skip)) as [Hs|Hs]; cbn [orb fst snd]; [split_and!; [tauto..|lia]|].
  destruct (_reads_through e tp tu); cbn [negb fst snd];
    [|split_and!; [intros ?; split; [tauto|by intros [?|(?&?&?&?&?)]]
                  |intros ?; split; [tauto|by intros [?|(?&?&?&?)]]|lia]].
  split_and!.
  - intros n. destruct transitive, (bool_decide_reflect (p ∈ walked)); cbn [andb negb];
      try (split; [tauto|by intros [?|(?&?&?&?&?)]]).
    rewrite elem_of_cons. tauto.
  - intros q. destruct (is_live live_uuids e); [|split; [tauto|by intros [?|(?&?&?&?)]]].
    rewrite elem_of_union, elem_of_singleton. tauto.
  - destruct (transitive && negb (bool_decide (p ∈ walked))); simpl; lia.
Qed.

Lemma visit_fold walked tp tu l fr found :
  let acc := foldl (visit transitive skip live_uuids walked tp tu) (fr, found) l in
  (∀ n, n ∈ acc.1 ↔ n ∈ fr ∨ ∃ p e, (p, e) ∈ l ∧ pushes walked tp tu n p e) ∧
  (∀ q, q ∈ acc.2 ↔ q ∈ found ∨ ∃ p e, (p, e) ∈ l ∧ counts tp tu q p e) ∧
  (length acc.1 ≤ length fr + length l)%nat.
Proof.
  induction l as [|[p e] l IH] using rev_ind; simpl.
  { split_and!; [intros n|intros p|lia]; (split; [auto|]);
      (intros [?|(? & ? & []%not_elem_of_nil & _)]; done). }
  rewrite foldl_app. cbn [foldl]. destruct IH as (IH1 & IH2 & IH3).
  destruct (visit_entry_spec walked tp tu (foldl (visit transitive skip live_uuids walked tp tu) (fr, found) l) p e)
    as (V1 & V2 & V3).
  split_and!; [intros n; rewrite V1, IH1, exists_pair_snoc; tauto
              |intros q; rewrite V2, IH2, exists_pair_snoc; tauto|rewrite length_app; simpl in *; lia].
Qed.

(** What holds each time the loop tests its frontier. *)
Record walk_inv (frontier : frontier_t) (walked found : gset string) : Prop := {
  wi_nodes n : n ∈ frontier → node n;
  wi_walked p : p ∈ walked → p = target ∨ (transitive = true ∧ depends index skip target p);
  wi_start : target ∈ walked ∨ (target, uuid_from_path target) ∈ frontier;
  wi_found p : p ∈ found → answer p;
  wi_closed q u p e : q ∈ walked → node (q, u) → index !! p = Some e → p ∉ skip →
    _reads_through e q u = true →
    (is_live live_uuids e = true → p ∈ found) ∧
    (transitive = true → p ∈ walked ∨ (p, e_uuid e) ∈ frontier);
}.

Lemma depends_in p : depends index skip target p → p ∈ dom index ∧ p ∉ skip.
Proof. destruct 1; split; try done; by eapply elem_of_dom_2. Qed.

(** A disk that reads a node of the walk reads through the target. *)
Lemma node_reader q u p e :
  node (q, u) → index !! p = Some e → p ∉ skip → _reads_through e q u = true →
  (if transitive then depends index skip target p else reads_directly index skip target p).
Proof.
  intros [[= -> ->]|(Ht & eq & Hq & Hu & Hd)] Hp Hs Hr; simpl in *; [|subst u].
  - destruct transitive; [by eapply depends_direct|by exists e].
  - rewrite Ht. by eapply depends_via.
Qed.

Context (Htarget : target ∈ skip).

Lemma target_is_no_reader : ¬ depends index skip target target.
Proof. by intros [_ Hn]%depends_in. Qed.

Lemma node_functional q u u' : node (q, u) → node (q, u') → u = u'.
Proof.
  intros [Hn|(_ & e & Hq & Hu & Hd)] [Hn'|(_ & e' & Hq' & Hu' & Hd')]; simpl in *; simplify_eq;
    try done; by apply target_is_no_reader in Hd || apply target_is_no_reader in Hd'.
Qed.

(** One turn of the loop that walks a new path. *)
Lemma walk_inv_step tp tu frontier walked found :
  walk_inv ((tp, tu) :: frontier) walked found → tp ∉ walked →
  let acc := foldl (visit transitive skip live_uuids ({[tp]} ∪ walked) tp tu) (frontier, found)
               (map_to_list index) in
  walk_inv acc.1 ({[tp]} ∪ walked) acc.2.
Proof.
  intros [Hn Hw Hst Hf Hc] Htp acc.
  pose proof (visit_fold ({[tp]} ∪ walked) tp tu (map_to_list index) frontier found) as V.
  change (foldl _ _ _) with acc in V. destruct V as (V1 & V2 & _). clearbody acc.
  assert (Hnode : node (tp, tu)) by (apply Hn; left).
  split.
  - intros n [Hin|(p & e & Hp%elem_of_map_to_list & Ht & -> & Hs & _ & Hr)]%V1; [apply Hn; by right|].
    right. split; [done|]. exists e. split_and!; [done..|]. rewrite Ht in *.
    pose proof (node_reader tp tu p e Hnode Hp Hs Hr) as Hd. by rewrite Ht in Hd.
  - intros p [->%elem_of_singleton|Hp]%elem_of_union; [|by apply Hw].
    destruct Hnode as [[= -> _]|(Ht & e & _ & _ & Hd)]; [by left|by right].
  - destruct Hst as [Hst|[[= <- <-]|Hst]%elem_of_cons]; [left|left|right; rewrite V1; by left]; set_solver.
  - intros p [Hp|(p' & e & Hp%elem_of_map_to_list & -> & Hs & Hr & Hl)]%V2; [by apply Hf|].
    exists e. split_and!; [done..|]. by eapply node_reader.
  - intros q u p e Hq Hnq Hp Hs Hr. destruct (decide (q = tp)) as [->|Hne].
    + rewrite (node_functional _ _ _ Hnq Hnode) in Hr. split.
      * intros Hl. apply V2. right. exists p, e. rewrite elem_of_map_to_list. done.
      * intros Ht. destruct (decide (p ∈ {[tp]} ∪ walked)) as [?|Hpw]; [by left|right].
        apply V1. right. exists p, e. rewrite elem_of_map_to_list. done.
    + assert (Hqw : q ∈ walked) by set_solver.
      destruct (Hc q u p e Hqw Hnq Hp Hs Hr) as [H1 H2]. split.
      * intros Hl. apply V2. left. by apply H1.
      * intros Ht. destruct (H2 Ht) as [?|[[= <- <-]|?]%elem_of_cons]; [left|left|right; apply V1]; set_solver.
Qed.

(** A path that was walked is dropped from the frontier. *)
Lemma walk_inv_drop tp tu frontier walked found :
  walk_inv ((tp, tu) :: frontier) walked found → tp ∈ walked → walk_inv frontier walked found.
Proof.
  intros [Hn Hw Hst Hf Hc] Htp. split; [|done| |done|].
  - intros n Hin. apply Hn. by right.
  - destruct Hst as [?|[[= <- <-]|?]%elem_of_cons]; [by left..|by right].
  - intros q u p e Hq Hnq Hp Hs Hr. destruct (Hc q u p e Hq Hnq Hp Hs Hr) as [H1 H2]. split; [done|].
    intros Ht. destruct (H2 Ht) as [?|[[= <- <-]|?]%elem_of_cons]; [by left..|by right].
Qed.

(** An empty frontier: everything that reads the target was found. *)
Lemma walk_inv_done walked found :
  walk_inv [] walked found → ∀ p, p ∈ found ↔ answer p.
Proof.
  intros [Hn Hw Hst Hf Hc] p. split; [apply Hf|].
  assert (Htw : target ∈ walked) by (destruct Hst as [?|?%not_elem_of_nil]; done).
  assert (Hstart : node (target, uuid_from_path target)) by by left.
  intros (e & Hp & Hl & Hd). destruct transitive eqn:Ht.
  2: { destruct Hd as (e' & He' & Hs & Hr). simplify_eq. by apply (Hc _ _ _ _ Htw Hstart Hp Hs Hr). }
  assert (Hall : ∀ q, depends index skip target q → q ∈ walked).
  { induction 1 as [q eq Hq Hs Hr|q eq r er Hdr IH Hr0 Hq Hs Hr].
    - by destruct (Hc _ _ _ _ Htw Hstart Hq Hs Hr) as [_ [?|?%not_elem_of_nil]].
    - assert (node (r, e_uuid er)) by (right; split; [done|by exists er]).
      by destruct (Hc _ _ _ _ IH H Hq Hs Hr) as [_ [?|?%not_elem_of_nil]]. }
  destruct Hd as [p e' He' Hs Hr|p e' q eq Hdq Hq He' Hs Hr]; simplify_eq.
  - by apply (Hc _ _ _ _ Htw Hstart Hp Hs Hr).
  - assert (node (q, e_uuid eq)) by (right; split; [done|by exists eq]).
    by apply (Hc _ _ _ _ (Hall q Hdq) H Hp Hs Hr).
Qed.

Lemma walked_size walked frontier found :
  walk_inv frontier walked found → walked ⊆ {[target]} ∪ dom index.
Proof.
  intros Hi p Hp. destruct (wi_walked _ _ _ Hi p Hp) as [->|[_ [Hd _]%depends_in]]; set_solver.
Qed.

(** The fuel: each turn takes a node off the frontier, and the turns that add
    some walk a path that was not walked before. *)
Lemma walk_is_exact fuel frontier walked found :
  walk_inv frontier walked found →
  (length frontier + (S (base.size index) - base.size walked) * base.size index ≤ fuel)%nat →
  ∃ found', walk index transitive skip live_uuids fuel frontier walked found = Some found' ∧
            ∀ p, p ∈ found' ↔ answer p.
Proof.
  revert frontier walked found. induction fuel as [|fuel IH]; intros [|[tp tu] frontier] walked found Hi Hf;
    cbn [length walk] in *; try (exfalso; clear -Hf; nia); try (eexists; split; [done|by eapply walk_inv_done]).
  destruct (bool_decide_reflect (tp ∈ walked)) as [Htp|Htp].
  { apply IH; [by eapply walk_inv_drop|lia]. }
  pose proof (walk_inv_step _ _ _ _ _ Hi Htp) as Hi'.
  destruct (visit_fold ({[tp]} ∪ walked) tp tu (map_to_list index) frontier found) as (_ & _ & Hlen).
  rewrite length_map_to_list in Hlen. apply IH; [done|].
  pose proof (subseteq_size _ _ (walked_size _ _ _ Hi')) as Hsz.
  assert (base.size ({[target]} ∪ dom index) ≤ S (base.size index))%nat.
  { rewrite size_union_alt, size_singleton. pose proof (subseteq_size (dom index ∖ {[target]}) (dom index) ltac:(set_solver)).
    rewrite size_dom in *. lia. }
  assert (base.size ({[tp]} ∪ walked) = S (base.size walked)) as Hsw by (rewrite size_union, size_singleton by set_solver; lia).
  rewrite Hsw in *. replace (S (base.size index) - base.size walked)%nat
    with (S (S (base.size index) - S (base.size walked)))%nat in Hf by lia.
  rewrite Nat.mul_succ_l in Hf. etrans; [apply Nat.add_le_mono_r, Hlen|]. lia.
Qed.

End walk.

Lemma sorted_elements (found : gset string) p :
  p ∈ py_sorted String.leb (elements found) ↔ p ∈ found.
Proof. by rewrite elem_of_py_sorted, elem_of_elements. Qed.

(** The query always answers, and the two lists are the disks it is to report and
    the disks it cannot judge. *)
Lemma dependents_of_spec target index transitive covered live :
  let skip := list_to_set covered ∪ {[target]} in
  ∃ dependents unreadable,
    dependents_of target index transitive covered live = Some (dependents, unreadable) ∧
    (∀ p, p ∈ dependents ↔ answer index transitive skip live target p) ∧
    (∀ p, p ∈ unreadable ↔ ∃ e, index !! p = Some e ∧ p ∉ skip ∧ e_readable e = false).
Proof.
  intros skip.
  destruct (walk_is_exact index transitive skip live target ltac:(set_solver) (walk_fuel index)
              [(target, uuid_from_path target)] ∅ ∅) as (found & Hw & Hf).
  { split; try set_solver. intros n ->%list_elem_of_singleton. by left. }
  { rewrite size_empty. unfold walk_fuel. cbn [length]. lia. }
  unfold dependents_of. fold skip. rewrite Hw. cbn [mbind option_bind].
  eexists _, _. split; [done|]. split; intros p.
  - by rewrite sorted_elements, Hf.
  - rewrite elem_of_py_sorted, list_elem_of_omap. split.
    + intros ([q e] & Hq%elem_of_map_to_list & Hc). cbn [fst snd] in Hc.
      destruct (bool_decide_reflect (q ∈ skip)), (e_readable e) eqn:Hr; simplify_eq/=. by exists e.
    + intros (e & Hp & Hs & Hr). exists (p, e). rewrite elem_of_map_to_list. split; [done|].
      cbn [fst snd]. by rewrite bool_decide_false, Hr.
Qed.

(** ** Integrity levels *)
Record storage_row := mkRow {
  row_id : string;
  row_status : option string;
  row_user_id : option string;
  row_path : string;
}.

Inductive detail :=
  | DReasons (reasons : list string)
  | DPath (reason path : string)
  | DBacking (reason backing : string)
  | DDependents (path : string) (dependents unreadable : list string).

Definition finding := (string * string * detail)%type.





Definition present_uuids (backing_index : index_of) : list string :=
  omap (λ pe : string * Entry, match e_uuid pe.2 with
                               | Some u => if (u =? "")%string then None else Some u
                               | None => None
                               end) (map_to_list backing_index).

Definition detect_broken_chain (rows : list storage_row) (backing_index : index_of) : list finding :=
  omap (λ row,
    match backing_index !! row_path row with
    | None => None
    | Some entry =>
        if negb (e_readable entry) then None
        else match e_backing_raw entry with
             | None => None
             | Some backing_raw =>
                 let known := match e_backing_uuid entry with Some u => negb (u =? "")%string | None => false end in
                 let found := match e_backing_uuid entry with
                              | Some u => negb (u =? "")%string && mem u (present_uuids backing_index)
                              | None => false
                              end in
                 if (backing_raw =? "")%string then None
                 else if bool_decide (backing_raw ∈ dom backing_index) || found then None
                 else Some (row_id row, if known then "rebase_backing" else "review_coherence",
                            DBacking "backing file not found in any pool" backing_raw)
             end
    end) rows.










(** ** The index and the files *)

(** What one file contributes to an index. *)
Definition entry_at (fs : files) (p : string) : res Entry :=
  b ← read_backing fs p; Ok (entry_of fs p b.1 b.2).

Lemma build_index_spec fs paths index :
  (∃ p, p ∈ paths ∧ ∃ x, entry_at fs p = Raise x) ∨
  (∃ index', build_backing_index fs paths index = Ok index' ∧
     ∀ p, index' !! p = if decide (p ∈ paths)
                        then match entry_at fs p with Ok e => Some e | Raise _ => None end
                        else index !! p).
Proof.
  revert index. induction paths as [|q paths IH]; intros index.
  { right. exists index. split; [done|]. intros p. by rewrite decide_False by apply not_elem_of_nil. }
  simpl. unfold entry_at. destruct (read_backing fs q) as [b|x] eqn:Eq; simpl.
  2: { left. exists q. rewrite Eq. split; [left|by exists x]. }
  destruct (IH (<[q:=entry_of fs q b.1 b.2]> index)) as [(p & Hp & Hx)|(index' & Hb & Hl)].
  { left. exists p. split; [by right|done]. }
  right. exists index'. split; [done|]. intros p. rewrite Hl.
  destruct (decide (p ∈ paths)) as [Hp|Hp]; [by rewrite decide_True by by right|].
  destruct (decide (p = q)) as [->|Hne].
  - rewrite lookup_insert_eq, decide_True by left. by rewrite Eq.
  - rewrite lookup_insert_ne, decide_False by (done || set_solver). done.
Qed.

Lemma build_index_lookup fs paths index p e :
  build_backing_index fs paths ∅ = Ok index →
  index !! p = Some e ↔ p ∈ paths ∧ entry_at fs p = Ok e.
Proof.
  intros Hb. destruct (build_index_spec fs paths ∅) as [(q & Hq & x & Hx)|(index' & Hb' & Hl)].
  - exfalso. revert Hb. generalize (∅ : index_of). induction Hq as [q paths|q r paths Hq IH]; intros i; simpl.
    + unfold entry_at in Hx. by destruct (read_backing fs q).
    + destruct (read_backing fs r); simpl; [by apply IH|done].
  - rewrite Hb in Hb'. injection Hb' as <-. rewrite Hl. destruct (decide (p ∈ paths)); [|set_solver].
    destruct (entry_at fs p); naive_solver.
Qed.

Lemma build_index_raises fs paths index x :
  build_backing_index fs paths index = Raise x → ∃ p, p ∈ paths ∧ entry_at fs p = Raise x.
Proof.
  revert index. induction paths as [|q paths IH]; intros index; simpl; [done|].
  destruct (read_backing fs q) as [b|y] eqn:Eq; simpl.
  - intros (p & Hp & Hx)%IH. exists p. split; [by right|done].
  - intros [= ->]. exists q. unfold entry_at. rewrite Eq. split; [left|done].
Qed.

Lemma build_index_ok fs paths index p :
  build_backing_index fs paths ∅ = Ok index → p ∈ paths → ∃ e, entry_at fs p = Ok e.
Proof.
  generalize (∅ : index_of). induction paths as [|q paths IH]; intros i; simpl; [by intros _ ?%not_elem_of_nil|].
  destruct (read_backing fs q) as [b|y] eqn:Eq; simpl; [|done].
  intros Hb [->|Hp]%elem_of_cons; [|by eapply IH]. unfold entry_at. rewrite Eq. by eexists.
Qed.

Lemma build_index_dom fs paths index p :
  build_backing_index fs paths ∅ = Ok index → p ∈ dom index ↔ p ∈ paths.
Proof.
  intros Hb. rewrite elem_of_dom. split.
  - intros [e He]. by apply (build_index_lookup _ _ _ _ _ Hb) in He as [? _].
  - intros Hp. destruct (build_index_ok _ _ _ _ Hb Hp) as [e He]. exists e. by eapply build_index_lookup.
Qed.

(** The only exception is that of the seek. *)
Lemma entry_raises fs p x : entry_at fs p = Raise x → x = ValueError.
Proof.
  unfold entry_at, read_backing. destruct (fs !! p ≫= f_bytes) as [data|]; [|done].
  destruct (_ || _); [done|]. destruct (_ || _); [done|]. destruct (_ <=? _); [done|].
  destruct (_ <=? _); [|done]. by intros [= <-].
Qed.

(** [p] is an image whose header names, resolved as [qemu] resolves it, the file [q]. *)
Definition backs_onto (fs : files) (p q : string) : Prop :=
  ∃ raw, read_backing fs p = Ok (Some raw, true) ∧
         full_backing_filename p (Some raw) = Some (normpath q).

(** Opening [p] opens [target]; the images on the way are among [paths], outside of [skip]. *)
Inductive reads_file (fs : files) (paths : list string) (skip : gset string) : string → string → Prop :=
  | reads_here p target :
      p ∈ paths → p ∉ skip → backs_onto fs p target → reads_file fs paths skip p target
  | reads_on p q target :
      p ∈ paths → p ∉ skip → backs_onto fs p q → reads_file fs paths skip q target →
      reads_file fs paths skip p target.

Lemma normpath_nonempty p : (normpath p =? "")%string = false.
Proof.
  unfold normpath. destruct (_ +:+ _ =? "")%string eqn:E; [done|exact E].
Qed.

Lemma backs_onto_reads fs p q u :
  backs_onto fs p q → ∃ e, entry_at fs p = Ok e ∧ e_readable e = true ∧ _reads_through e q u = true.
Proof.
  intros (raw & Hr & Hf). unfold entry_at. rewrite Hr. eexists. split; [done|]. split; [done|].
  unfold _reads_through, entry_of. cbn [fst snd e_backing_uuid e_backing_raw e_backing_path].
  apply orb_true_iff. right. rewrite Hf, normpath_nonempty, String.eqb_refl.
  unfold full_backing_filename in Hf. destruct (raw =? "")%string; [done|]. cbn [negb andb]. by rewrite orb_true_r.
Qed.

Lemma reads_file_depends fs paths skip index p target :
  build_backing_index fs paths ∅ = Ok index →
  reads_file fs paths skip p target → depends index skip target p.
Proof.
  intros Hb. induction 1 as [p target Hp Hs Ho|p q target Hp Hs Ho Hq IH].
  - destruct (backs_onto_reads fs p target (uuid_from_path target) Ho) as (e & He & _ & Hr).
    eapply depends_direct; [|done..]. by eapply build_index_lookup.
  - assert (Hex : ∃ eq, index !! q = Some eq) by (destruct (depends_in _ _ _ _ IH) as [?%elem_of_dom _]; done).
    destruct Hex as [eq Heq].
    destruct (backs_onto_reads fs p q (e_uuid eq) Ho) as (e & He & _ & Hr).
    eapply depends_via; [done|done| |done|done]. by eapply build_index_lookup.
Qed.

(** ** Theorems *)

(** C14: The walk over a backing index always ends, and it reports exactly the disks
    whose chain of backing files reaches the target without passing a skipped disk
    (direct children only, when it is not transitive) and whose own uuid is live;
    every candidate whose header cannot be read is reported apart. *)
Theorem dependents_are_exact target index transitive covered live :
  let skip := list_to_set covered ∪ {[target]} in
  ∃ dependents unreadable,
    dependents_of target index transitive covered live = Some (dependents, unreadable) ∧
    (∀ p, p ∈ dependents ↔
       ∃ e, index !! p = Some e ∧ is_live live e = true ∧
            if transitive then depends index skip target p else reads_directly index skip target p) ∧
    (∀ p, p ∈ unreadable ↔ ∃ e, index !! p = Some e ∧ p ∉ skip ∧ e_readable e = false) ∧
    Sorted (λ a b, String.leb a b = true) dependents.
Proof.
  intros skip. destruct (dependents_of_spec target index transitive covered live) as (ds & us & Hq & Hd & Hu).
  exists ds, us. split_and!; [done|exact Hd|exact Hu|].
  unfold dependents_of in Hq. destruct (walk _ _ _ _ _ _ _ _) as [found|]; [|done].
  cbn [mbind option_bind] in Hq. injection Hq as <- _. apply py_sorted_Sorted.
  intros a b. by destruct (String.leb_total a b); auto.
Qed.













(** ** Where the code departs from its description *)

(** A header cut off after its magic number, or one whose backing name is longer
    than 4096 bytes, is answered as an image without a backing file, not as one the
    caller cannot judge. *)
Lemma truncated_header_reads_as_no_backing path size mtime :
  read_backing {[ path := mkFile (Some QCOW2_MAGIC) size mtime ]} path = Ok (None, true).
Proof. unfold read_backing. by rewrite lookup_singleton_eq. Qed.

Definition header_with (off size : list ascii) : list ascii :=
  QCOW2_MAGIC ++ ["000"; "000"; "000"; "003"]%char ++ off ++ size.

(** An offset past the range of the platform ends the whole index with an exception. *)
Lemma huge_offset_raises path n mtime :
  read_backing {[ path := mkFile (Some (header_with (replicate 8 "255"%char) ["000"; "000"; "000"; "008"]%char)) n mtime ]}
    path = Raise ValueError.
Proof. unfold read_backing. by rewrite lookup_singleton_eq. Qed.

Definition base_entry : Entry := mkEntry None 1 None None None true.
Definition child_entry : Entry := mkEntry None 1 (Some "base.qcow2") (Some "/p/base.qcow2") None true.

(** A relative reference to a file that is in the index is still a broken chain. *)
Lemma relative_backing_is_flagged :
  _reads_through child_entry "/p/base.qcow2" None = true ∧
  detect_broken_chain [mkRow "c" (Some "ready") None "/p/child.qcow2"]
    {[ "/p/base.qcow2" := base_entry; "/p/child.qcow2" := child_entry ]}
  = [("c", "review_coherence", DBacking "backing file not found in any pool" "base.qcow2")].
Proof. by vm_compute. Qed.
