(* ===== verification/BackingIndex.v ===== *)
(** * The shared backing index

    [component/_common/src/isardvdi_common/lib/storage/backing_index.py]: the purge
    guard of every storage worker keeps the headers it read in one redis hash, under
    the time of change and the size of the file they came from.

    The hash is shared: before each operation of a worker the siblings may have
    changed it ([sibling], a step of the environment that sees the files as they are,
    and which also covers a hash that lapsed), and an operation may fail ([fails]). A
    value of the hash is kept as what [json.loads] makes of it. The files do not change
    during a pass. *)
From Stdlib Require Import Ascii.
From S2P Require Import Prelude PyVal QcowHeader Dependents.

Open Scope nat_scope.

Definition signature := (Z * Z)%type.

(** [file_signature]: the time of change and the size *)
Definition file_signature (fs : files) (path : string) : option signature :=
  (λ f, (f_mtime_ns f, f_size f)) <$> fs !! path.

(** A value of the hash: an item with its signature, or anything else. *)
Inductive cached := CItem (sig : option signature) (e : Entry) | CJunk.
Notation store := (gmap string cached).

Definition _reusable (raw : option cached) (sig : option signature) : option Entry :=
  match raw, sig with
  | Some (CItem s entry), Some _ => if bool_decide (s = sig) && e_readable entry then Some entry else None
  | _, _ => None
  end.

(** The files of [paths] whose header the hash holds. *)
Definition reusable_of (fs : files) (h : store) (paths : list string) : index_of :=
  list_to_map (omap (λ p, (λ e, (p, e)) <$> _reusable (h !! p) (file_signature fs p)) paths).

(** ** The hash *)
Record environment := mkEnv {
  up : bool;                          (** [redis is not None] *)
  sibling : files → nat → store → store;
  fails : nat → bool;
}.

(** The next operation's number and the hash. *)
Definition rstate := (nat * store)%type.

(** An operation of the client: [None] when it raised. *)
Definition redis_op {A} (env : environment) (fs : files) (f : store → A * store) (st : rstate) : option A * rstate :=
  let h := sibling env fs st.1 st.2 in
  if fails env st.1 then (None, (S st.1, h)) else let r := f h in (Some r.1, (S st.1, r.2)).

Definition _load_hash (env : environment) (fs : files) (st : rstate) : store * rstate :=
  if up env then let r := redis_op env fs (λ h, (h, h)) st in (default ∅ r.1, r.2) else (∅, st).

(** The entries of a chunk that are worth keeping. *)
Definition flushed (fs : files) (chunk : index_of) : store :=
  map_imap (λ p e, if e_readable e
                   then match file_signature fs p with Some s => Some (CItem (Some s) e) | None => None end
                   else None) chunk.

Definition _flush (env : environment) (fs : files) (chunk : index_of) (st : rstate) : rstate :=
  if negb (up env) then st
  else if decide (flushed fs chunk = ∅) then st
  else (redis_op env fs (λ h, (tt, flushed fs chunk ∪ h)) st).2.

Definition _reclaim (env : environment) (fs : files) (paths : list string) (st : rstate) : index_of * rstate :=
  if negb (up env) then (∅, st)
  else match paths with
       | [] => (∅, st)
       | _ =>
           let r := redis_op env fs (λ h, (reusable_of fs h paths, h)) st in
           (default ∅ r.1, r.2)
       end.

Definition _HDEL_BATCH : nat := 1000.

(** [range(0, len(gone), _HDEL_BATCH)]; the batches stop at the first failure. *)
Fixpoint prune_batches (env : environment) (fs : files) (fuel : nat) (gone : list string) (st : rstate) : rstate :=
  match fuel, gone with
  | S fuel, _ :: _ =>
      let r := redis_op env fs (λ h, (tt, foldr delete h (take _HDEL_BATCH gone))) st in
      match r.1 with
      | None => r.2
      | Some _ => prune_batches env fs fuel (drop _HDEL_BATCH gone) r.2
      end
  | _, _ => st
  end.

Definition _prune_vanished (env : environment) (fs : files) (cached_hash : store) (seen : list string) (st : rstate) : rstate :=
  if negb (up env) then st
  else
    let gone := List.filter (λ k, negb (mem k seen)) (List.map fst (map_to_list cached_hash)) in
    prune_batches env fs (length gone) gone st.

(** ** The pass *)

(** The loop over the files to read; [None] is a fuel that ran out. *)
Fixpoint read_missing (env : environment) (fs : files) (flush : nat) (fuel : nat)
    (index : index_of) (missing : list string) (st : rstate) : option (res (index_of * rstate)) :=
  match missing with
  | [] => Some (Ok (index, st))
  | _ :: _ =>
      match fuel with
      | O => None
      | S fuel =>
          match build_backing_index fs (take flush missing) ∅ with
          | Raise x => Some (Raise x)
          | Ok chunk =>
              let index := chunk ∪ index in
              let st := _flush env fs chunk st in
              let remaining := drop flush missing in
              let '(reclaimed, st) := _reclaim env fs remaining st in
              read_missing env fs flush fuel (reclaimed ∪ index)
                (List.filter (λ p, negb (bool_decide (p ∈ dom reclaimed))) remaining) st
          end
      end
  end.

(** What the hash does not answer is left to read. *)
Definition missing_of (fs : files) (cached_hash : store) (candidates : list string) : list string :=
  List.filter (λ p, match _reusable (cached_hash !! p) (file_signature fs p) with Some _ => false | None => true end)
    candidates.

(** [shuffle] is [random.shuffle] of the list. *)
Definition shared_backing_index (env : environment) (fs : files) (shuffle : list string → list string)
    (flush : nat) (candidates : list string) (st : rstate) : option (res (index_of * rstate)) :=
  let '(cached_hash, st) := _load_hash env fs st in
  r ← read_missing env fs flush (length candidates) (reusable_of fs cached_hash candidates)
        (shuffle (missing_of fs cached_hash candidates)) st;
  Some (r' ← r; Ok (r'.1, _prune_vanished env fs cached_hash candidates r'.2)).

(** ** What a pass returns *)

Lemma lookup_keyed {A} (f : string → option A) (l : list string) p :
  (list_to_map (omap (λ q, (λ e, (q, e)) <$> f q) l) : gmap string A) !! p
  = if decide (p ∈ l) then f p else None.
Proof.
  induction l as [|q l IH]; simpl; [by rewrite lookup_empty|].
  destruct (f q) as [e|] eqn:Eq; simpl.
  - destruct (decide (p = q)) as [->|Hne].
    + rewrite lookup_insert_eq, decide_True by left. done.
    + rewrite lookup_insert_ne by done. etrans; [exact IH|]. destruct (decide (p ∈ l)) as [?|?].
      * by rewrite decide_True by by right.
      * by rewrite decide_False by (by intros [?|?]%elem_of_cons).
  - etrans; [exact IH|]. destruct (decide (p ∈ l)) as [?|?]; [by rewrite decide_True by by right|].
    destruct (decide (p ∈ q :: l)) as [[->|?]%elem_of_cons|]; done.
Qed.

(** The hash holds, under the current signature of a candidate, what its header says. *)
Definition truthful (candidates : list string) (fs : files) (h : store) : Prop :=
  ∀ p s e, p ∈ candidates → h !! p = Some (CItem (Some s) e) → file_signature fs p = Some s → entry_at fs p = Ok e.

(** The entries of [index] are those of the files. *)
Definition sound (fs : files) (index : index_of) : Prop :=
  ∀ p e, index !! p = Some e → entry_at fs p = Ok e.

Lemma reusable_sound cs fs h p e :
  truthful cs fs h → p ∈ cs → _reusable (h !! p) (file_signature fs p) = Some e → entry_at fs p = Ok e.
Proof.
  intros Ht Hp. unfold _reusable. destruct (h !! p) as [[s e'|]|] eqn:Eh; [|done..].
  destruct (file_signature fs p) as [s'|] eqn:Es; [|done].
  destruct (bool_decide_reflect (s = Some s')) as [->|]; [|done].
  destruct (e_readable e'); [|done]. simpl. intros [= ->]. by eapply Ht.
Qed.

Lemma lookup_reusable fs h paths p :
  reusable_of fs h paths !! p
  = if decide (p ∈ paths) then _reusable (h !! p) (file_signature fs p) else None.
Proof. apply (lookup_keyed (λ p, _reusable (h !! p) (file_signature fs p))). Qed.

Lemma reusable_of_sound cs fs h paths :
  (∀ p, p ∈ paths → p ∈ cs) → truthful cs fs h → sound fs (reusable_of fs h paths).
Proof. intros Hp Ht p e. rewrite lookup_reusable. case_decide; [|done]. by eapply reusable_sound, Hp. Qed.

Lemma union_sound fs a b : sound fs a → sound fs b → sound fs (a ∪ b).
Proof. intros Ha Hb p e [?|[_ ?]]%lookup_union_Some_raw; auto. Qed.

Lemma build_sound fs paths chunk : build_backing_index fs paths ∅ = Ok chunk → sound fs chunk.
Proof. intros Hb p e He. by apply (build_index_lookup _ _ _ _ _ Hb) in He as [_ ?]. Qed.

Lemma flushed_truthful cs fs chunk h : sound fs chunk → truthful cs fs h → truthful cs fs (flushed fs chunk ∪ h).
Proof.
  intros Hs Ht p s e Hp [Hl|[_ Hl]]%lookup_union_Some_raw Hsig; [|by eapply Ht].
  unfold flushed in Hl. rewrite map_lookup_imap in Hl. destruct (chunk !! p) as [e'|] eqn:Ec; [|done].
  cbn [mbind option_bind] in Hl. destruct (e_readable e'); [|done]. destruct (file_signature fs p); [|done].
  injection Hl as <- ->. by apply Hs.
Qed.

(** A sibling that reads headers and flushes them, as this worker does, keeps the hash
    truthful. *)
Definition flushing_sibling (reads : nat → list string) (fs : files) (n : nat) (h : store) : store :=
  match build_backing_index fs (reads n) ∅ with Ok chunk => flushed fs chunk ∪ h | Raise _ => h end.

Lemma flushing_sibling_truthful reads cs fs n h :
  truthful cs fs h → truthful cs fs (flushing_sibling reads fs n h).
Proof.
  unfold flushing_sibling. destruct (build_backing_index fs (reads n) ∅) as [chunk|] eqn:Hb; [|done].
  apply flushed_truthful. by eapply build_sound.
Qed.

Section pass.
Context (env : environment) (fs : files) (cs : list string).
(** Every worker keeps the hash truthful about the candidates. *)
Context (Henv : ∀ n h, truthful cs fs h → truthful cs fs (sibling env fs n h)).

Lemma redis_op_truthful {A} (f : store → A * store) st :
  (∀ h, truthful cs fs h → truthful cs fs (f h).2) → truthful cs fs st.2 → truthful cs fs (redis_op env fs f st).2.2.
Proof. intros Hf Ht. unfold redis_op. destruct (fails env st.1); simpl; auto. Qed.

Lemma load_hash_truthful st :
  truthful cs fs st.2 → truthful cs fs (_load_hash env fs st).1 ∧ truthful cs fs (_load_hash env fs st).2.2.
Proof.
  intros Ht. unfold _load_hash. destruct (up env); simpl; [|done].
  unfold redis_op. destruct (fails env st.1); simpl; split; auto. all: intros p s e _; by rewrite lookup_empty.
Qed.

Lemma flush_truthful chunk st :
  sound fs chunk → truthful cs fs st.2 → truthful cs fs (_flush env fs chunk st).2.
Proof.
  intros Hs Ht. unfold _flush. destruct (up env); simpl; [|done]. destruct (decide _); [done|].
  apply redis_op_truthful; [|done]. intros h Hh. by apply flushed_truthful.
Qed.

Lemma reclaim_spec paths st :
  (∀ p, p ∈ paths → p ∈ cs) → truthful cs fs st.2 →
  sound fs (_reclaim env fs paths st).1 ∧ truthful cs fs (_reclaim env fs paths st).2.2 ∧
  (∀ p, p ∈ dom (_reclaim env fs paths st).1 → p ∈ paths).
Proof.
  intros Hcs Ht. unfold _reclaim. assert (He : sound fs ∅) by (intros p e; by rewrite lookup_empty).
  destruct (up env); simpl; [|split_and!; [done..|set_solver]].
  destruct paths as [|q paths]; [split_and!; [done..|set_solver]|].
  unfold redis_op. destruct (fails env st.1); cbn [fst snd default option_map];
    (split_and!; [try done|auto|]); try set_solver.
  - by apply (reusable_of_sound cs); [|apply Henv].
  - intros p [e He']%elem_of_dom. change (reusable_of fs (sibling env fs st.1 st.2) (q :: paths) !! p = Some e) in He'.
    rewrite lookup_reusable in He'. by case_decide.
Qed.

Lemma prune_truthful fuel gone st : truthful cs fs st.2 → truthful cs fs (prune_batches env fs fuel gone st).2.
Proof.
  revert gone st. induction fuel as [|fuel IH]; intros [|g gone] st Ht; cbn [prune_batches]; try done.
  pose proof (redis_op_truthful (λ h, (tt, foldr delete h (take _HDEL_BATCH (g :: gone)))) st) as Hop.
  destruct (redis_op env fs _ st) as [[?|] st']; cbn [fst snd] in *; [apply IH|]; (apply Hop; [|done]);
    intros h Hh; cbn [snd]; clear -Hh; induction (take _ _) as [|x l IHl]; simpl; try done;
    intros p s e Hp [_ ?]%lookup_delete_Some; eauto.
Qed.

Lemma length_List_filter {A} (f : A → bool) l : length (List.filter f l) ≤ length l.
Proof. induction l as [|x l IH]; simpl; [done|]. destruct (f x); simpl; lia. Qed.

(** The loop: sound entries, and every candidate is in the index or still to be read. *)
Lemma read_missing_spec flush fuel index missing st :
  0 < flush → length missing ≤ fuel → sound fs index → truthful cs fs st.2 →
  (∀ p, p ∈ missing → p ∈ cs) →
  (∀ p, p ∈ dom index → p ∈ cs) →
  (∀ p, p ∈ cs → p ∈ dom index ∨ p ∈ missing) →
  (∃ x, read_missing env fs flush fuel index missing st = Some (Raise x) ∧
        ∃ p, p ∈ cs ∧ entry_at fs p = Raise x) ∨
  (∃ index' st', read_missing env fs flush fuel index missing st = Some (Ok (index', st')) ∧
     sound fs index' ∧ truthful cs fs st'.2 ∧ ∀ p, p ∈ dom index' ↔ p ∈ cs).
Proof.
  intros Hfl. revert index missing st. induction fuel as [|fuel IH]; intros index missing st Hlen Hs Ht Hm Hd Hc.
  { destruct missing; simpl in Hlen; [|lia]. right. exists index, st. split_and!; [done..|].
    intros p. split; [auto|]. by intros [?|?%not_elem_of_nil]%Hc. }
  destruct missing as [|m missing].
  { right. exists index, st. split_and!; [done..|]. intros p. split; [auto|]. by intros [?|?%not_elem_of_nil]%Hc. }
  cbn [read_missing]. remember (m :: missing) as ms eqn:Ems.
  assert (Hsplit : ∀ p, p ∈ ms ↔ p ∈ take flush ms ∨ p ∈ drop flush ms).
  { intros p. by rewrite <-elem_of_app, take_drop. }
  destruct (build_backing_index fs (take flush ms) ∅) as [chunk|x] eqn:Hb.
  2: { left. exists x. split; [done|]. apply build_index_raises in Hb as (p & Hp & Hx).
       exists p. split; [|done]. apply Hm, Hsplit. by left. }
  destruct (reclaim_spec (drop flush ms) (_flush env fs chunk st)) as (Hrs & Hrt & Hrd).
  { intros p Hp. apply Hm, Hsplit. by right. }
  { apply flush_truthful; [by eapply build_sound|done]. }
  destruct (_reclaim env fs (drop flush ms) (_flush env fs chunk st)) as [reclaimed st'] eqn:Er. cbn [fst snd] in *.
  assert (Hchunk : ∀ p, p ∈ dom chunk ↔ p ∈ take flush ms) by (intros p; by eapply build_index_dom).
  apply IH.
  - etrans; [apply length_List_filter|]. rewrite length_drop, Ems in *. simpl in *. lia.
  - apply union_sound; [done|]. apply union_sound; [by eapply build_sound|done].
  - done.
  - intros p [Hp _]%list_elem_of_In%filter_In. apply Hm, Hsplit. right. by apply list_elem_of_In.
  - intros p. rewrite !dom_union, !elem_of_union, Hchunk. intros [Hp|[Hp|Hp]]; [|apply Hm, Hsplit; by left|auto].
    apply Hm, Hsplit. right. auto.
  - intros p Hp. rewrite !dom_union, !elem_of_union, Hchunk.
    destruct (decide (p ∈ dom reclaimed)); [by auto|]. destruct (Hc p Hp) as [?|[?|?]%Hsplit]; [by auto..|].
    right. apply list_elem_of_In, filter_In. split; [by apply list_elem_of_In|]. by rewrite bool_decide_false.
Qed.
End pass.

Lemma shared_index_spec env fs shuffle flush candidates st :
  (∀ n h, truthful candidates fs h → truthful candidates fs (sibling env fs n h)) →
  (∀ l, shuffle l ≡ₚ l) → 0 < flush → truthful candidates fs st.2 →
  match build_backing_index fs candidates ∅ with
  | Raise x => shared_backing_index env fs shuffle flush candidates st = Some (Raise x)
  | Ok index => ∃ st', shared_backing_index env fs shuffle flush candidates st = Some (Ok (index, st')) ∧
                       truthful candidates fs st'.2
  end.
Proof.
  intros Henv Hsh Hfl Ht. unfold shared_backing_index.
  destruct (load_hash_truthful env fs candidates Henv st Ht) as [Hch Hst].
  destruct (_load_hash env fs st) as [h st1]. cbn [fst snd] in *.
  assert (Hmem : ∀ p, p ∈ shuffle (missing_of fs h candidates) ↔
                  p ∈ candidates ∧ _reusable (h !! p) (file_signature fs p) = None).
  { intros p. rewrite Hsh. unfold missing_of. rewrite list_elem_of_In, filter_In, <-list_elem_of_In.
    destruct (_reusable _ _); naive_solver. }
  destruct (read_missing_spec env fs candidates Henv flush (length candidates) (reusable_of fs h candidates)
              (shuffle (missing_of fs h candidates)) st1) as [(x & Hr & p & Hp & Hx)|(index' & st' & Hr & Hs & Ht' & Hd)];
    try done.
  - rewrite Hsh. apply length_List_filter.
  - by apply (reusable_of_sound candidates).
  - intros p [? _]%Hmem. done.
  - intros p [e He]%elem_of_dom. rewrite lookup_reusable in He. by case_decide.
  - intros p Hp. destruct (_reusable (h !! p) (file_signature fs p)) as [e|] eqn:E; [left|right; by apply Hmem].
    apply elem_of_dom. exists e. by rewrite lookup_reusable, decide_True.
  - destruct (build_backing_index fs candidates ∅) as [index|y] eqn:Hb.
    + apply (build_index_ok _ _ _ _ Hb) in Hp as [e He]. congruence.
    + rewrite Hr. cbn. f_equal. apply build_index_raises in Hb as (q & _ & Hy).
      apply entry_raises in Hx, Hy. by subst.
  - rewrite Hr. cbn [mbind option_bind]. destruct (build_backing_index fs candidates ∅) as [index|y] eqn:Hb.
    + assert (index' = index) as ->.
      { apply map_eq. intros p. apply option_eq. intros e. rewrite (build_index_lookup _ _ _ _ _ Hb). split.
        - intros He. split; [apply Hd; by eapply elem_of_dom_2|by apply Hs].
        - intros [[e' He']%Hd%elem_of_dom He]. rewrite He'. f_equal. apply Hs in He'. congruence. }
      eexists. split; [done|]. cbn [snd]. unfold _prune_vanished. destruct (up env); [|done]. by apply prune_truthful.
    + apply build_index_raises in Hb as (q & Hq & Hy). apply Hd, elem_of_dom in Hq as [e He].
      apply Hs in He. congruence.
Qed.

(** C18: For chunks of at least one file and files that do not change during the pass: when
    the hash is truthful about the candidates (an item under the current signature of a file
    is what its header says) and the siblings keep it so, as one that flushes the headers it
    reads does, then, whatever operations of the hash fail and however the files to read are
    shuffled, the pass ends, returns the index that reading every header again would give
    (or the same exception), and leaves the hash truthful. With chunks of no file, which the
    setting admits, the loop does not end ([empty_chunks_never_end]). *)
Theorem shared_index_is_the_index env fs shuffle flush candidates st :
  (∀ n h, truthful candidates fs h → truthful candidates fs (sibling env fs n h)) →
  (∀ l, shuffle l ≡ₚ l) → 0 < flush → truthful candidates fs st.2 →
  match build_backing_index fs candidates ∅ with
  | Raise x => shared_backing_index env fs shuffle flush candidates st = Some (Raise x)
  | Ok index => ∃ st', shared_backing_index env fs shuffle flush candidates st = Some (Ok (index, st')) ∧
                       truthful candidates fs st'.2
  end.
Proof. apply shared_index_spec. Qed.

(** ** A pass beside a sibling *)
Definition ex_files : files :=
  {[ "/p/a.qcow2" := mkFile (Some (QCOW2_MAGIC ++ replicate 20 "000"%char)) 24 1;
     "/p/b.qcow2" := mkFile None 10 2 ]}.

Definition ex_a : Entry := mkEntry None 24 None None None true.
Definition ex_b : Entry := mkEntry None 10 None None None false.

(** A sibling that flushes the first file while this worker works; the first
    operation fails. *)
Definition ex_env : environment :=
  mkEnv true (flushing_sibling (λ _, ["/p/a.qcow2"])) (λ n, bool_decide (n = 0)).

Lemma shared_index_is_the_index_witness :
  ∃ st', shared_backing_index ex_env ex_files (@List.rev string) 1 ["/p/a.qcow2"; "/p/b.qcow2"] (0, ∅)
         = Some (Ok ({[ "/p/a.qcow2" := ex_a; "/p/b.qcow2" := ex_b ]}, st')) ∧
         truthful ["/p/a.qcow2"; "/p/b.qcow2"] ex_files st'.2.
Proof.
  assert (Hb : build_backing_index ex_files ["/p/a.qcow2"; "/p/b.qcow2"] ∅
               = Ok {[ "/p/a.qcow2" := ex_a; "/p/b.qcow2" := ex_b ]}) by (vm_compute; reflexivity).
  pose proof (shared_index_is_the_index ex_env ex_files (@List.rev string) 1 ["/p/a.qcow2"; "/p/b.qcow2"] (0, ∅)
    (flushing_sibling_truthful _ _ ex_files) (λ l, Permutation_sym (Permutation_rev l)) ltac:(lia)) as H.
  rewrite Hb in H. apply H. intros p s e _. cbn [snd]. by rewrite lookup_empty.
Defined.

(** With a chunk of no files, as [STORAGE_PURGE_BIDX_FLUSH=0] configures it, the loop
    never ends once there is a file to read. *)
Lemma empty_chunks_never_end fs sib fail index m missing st fuel :
  read_missing (mkEnv false sib fail) fs 0 fuel index (m :: missing) st = None.
Proof.
  revert index. induction fuel as [|fuel IH]; intros index; [done|].
  cbn [read_missing take build_backing_index drop _flush _reclaim up negb].
  assert (Hf : List.filter (λ p, negb (bool_decide (p ∈ dom (∅ : index_of)))) (m :: missing) = m :: missing).
  { generalize (m :: missing). intros l. induction l as [|x l IHl]; [done|]. cbn [List.filter].
    rewrite bool_decide_false by set_solver. cbn [negb]. by rewrite IHl. }
  rewrite Hf. apply IH.
Qed.
