(* ===== verification/Purge.v ===== *)
(** * Purging the recycle bin

    [component/_common/src/isardvdi_common/helpers/recycle_bin.py] purges the entries
    of the recycle bin: it keeps the entries whose disks still carry others
    ([blocked_storage_entries]), enqueues a delete task per disk of the rest, and
    settles the entry from the outcomes of the tasks ([update_task_status]).
    [docker/storage/src/isardvdi_storage/task.py] deletes a disk ([delete],
    [move_delete]) behind a guard on the headers of the files of the pools.

    A [set] is a finite set and a [dict] a map: the loops over them only collect. An
    update of the database is one atomic step on the document, as the [branch] of the
    query writes it; what happens between two of them is an explicit step. *)
From Stdlib Require Import Ascii.
From S2P Require Import Prelude PyVal QcowHeader StorageStall Dependents BackingIndex.

(** ** The guard on the database *)
Record child := mkChild { c_id : string; c_status : option string }.

Definition status_in (l : list string) (s : option string) : bool :=
  match s with Some s => mem s l | None => false end.

Definition uncovered_storage_children (covered : gset string) (children : list child) : list string :=
  sorted_set (c_id <$> List.filter (λ c, negb (bool_decide (c_id c ∈ covered))
                                         && status_in ["ready"; "maintenance"] (c_status c)) children).

Section blocked.
Context (entries_storages : gmap string (gset string)) (entries_children : gmap string (list child)).

Definition children_of (entry_id : string) : list child := default [] (entries_children !! entry_id).

(** What keeps an entry, when the disks [covered] go and the disks [kept] stay. *)
Definition uncovered_of (covered kept : gset string) (entry_id : string) : list string :=
  sorted_set (uncovered_storage_children covered (children_of entry_id)
              ++ (c_id <$> List.filter (λ c, bool_decide (c_id c ∈ kept)) (children_of entry_id))).

(** One turn of the loop: the entries that are kept on account of the last turns. *)
Definition newly_blocked (covered kept : gset string) (blocked : gmap string (list string))
    : gmap string (list string) :=
  map_imap (λ entry_id _,
    if bool_decide (entry_id ∈ dom blocked) then None
    else match uncovered_of covered kept entry_id with [] => None | uncovered => Some uncovered end)
    entries_storages.

(** The disks of some entries. *)
Definition storages_of (entries : gset string) : gset string :=
  ⋃ (omap (λ e, entries_storages !! e) (elements entries)).

(** [None] is a fuel that ran out. *)
Fixpoint block_loop (fuel : nat) (covered kept : gset string) (blocked : gmap string (list string))
    : option (gmap string (list string)) :=
  match fuel with
  | O => None
  | S fuel =>
      let newly := newly_blocked covered kept blocked in
      if decide (newly = ∅) then Some blocked
      else block_loop fuel (covered ∖ storages_of (dom newly)) (kept ∪ storages_of (dom newly)) (newly ∪ blocked)
  end.

(** Every turn but the last blocks an entry. *)
Definition blocked_storage_entries (covered : gset string) : option (gmap string (list string)) :=
  block_loop (S (size entries_storages)) covered ∅ ∅.

End blocked.

(** ** The guard on the files *)
Definition ISARD_DIRS : list string := ["groups"; "templates"; "volatile"; "storage_pools"].

(** [scan_isard_dirs]: the files below the directories of the product *)
Definition scan_isard_dirs (fs : files) : list string :=
  List.filter (λ p, existsb (λ d, String.prefix ("/isard/" +:+ d +:+ "/") p) ISARD_DIRS
                    && negb (is_sub "/to_delete/" p)) (List.map fst (map_to_list fs)).

Definition _dependent_candidates (fs : files) : list string :=
  List.filter (λ p, ends_with ".qcow2" p && negb (is_sub "/deleted/" p) && negb (is_sub "/to_delete/" p))
    (scan_isard_dirs fs).

(** Where [move_delete] puts a file. *)
Definition deleted_path (path : string) : string := join (join (dirname path) "deleted") (basename path).

Inductive delete_error :=
  | BackingInUseError (dependents unreadable : list string)
  | FileNotFoundError
  | PathNotFound            (** the [ValueError] of [move_delete] *)
  | VolumeError             (** [OSError] of the pool root *)
  | IndexError_ (e : exn).  (** reading a header failed *)

Inductive dres (A : Type) := DOk (a : A) | DErr (e : delete_error) (a : A).
Arguments DOk {A} a.
Arguments DErr {A} e a.

Definition world_of {A} (r : dres A) : A := match r with DOk a => a | DErr _ a => a end.

(** The directories of the volumes: whether one exists, and what listing it shows
    ([None] for [OSError]). *)
Record volume := mkVolume { v_isdir : string → bool; v_nonempty : string → option bool }.

(** [search(r"^(.*?/storage_pools/[^/]+)/", path)]: the pool's directory with a
    non-empty name that a slash ends; [before] is what was read so far. *)
Definition pool_name_of (rest : string) : option string :=
  match partition_at "/" rest with
  | Some (name, _) => if (name =? "")%string then None else Some name
  | None => None
  end.

Fixpoint pool_dir_from (before s : string) : option string :=
  match s with
  | EmptyString => None
  | String c s' =>
      match (if String.prefix "/storage_pools/" s
             then pool_name_of (String.substring 15 (String.length s) s) else None) with
      | Some name => Some (before +:+ "/storage_pools/" +:+ name)
      | None => pool_dir_from (before +:+ String c EmptyString) s'
      end
  end.

Definition _pool_root (path : string) (pool_root : option string) : option string :=
  let given := match pool_root with
               | Some r =>
                   let stripped := rstrip_of "/" r in
                   if negb (r =? "")%string && ((path =? r)%string || String.prefix (stripped +:+ "/") path)
                   then Some (if (stripped =? "")%string then "/" else stripped) else None
               | None => None
               end in
  match given, pool_dir_from "" path with
  | Some a, Some b => Some (if (String.length a <? String.length b)%nat then b else a)
  | Some a, None => Some a
  | None, Some b => Some b
  | None, None => None
  end.

(** [None] is the [OSError] of the pool root. *)
Definition _absent_on_a_live_volume (v : volume) (path : string) (pool_root : option string) : option bool :=
  if v_isdir v (dirname path) then Some true
  else match _pool_root path pool_root with
       | None => Some false
       | Some root => if v_isdir v root then v_nonempty v root else Some false
       end.

Record pool_world := mkPools { w_files : files; w_redis : rstate }.

Section worker.
Context (env : environment) (shuffle : list string → list string) (flush : nat) (vol : volume).

Definition live_set (live_uuids : option (list string)) : option (gset (option string)) :=
  (λ l, list_to_set (Some <$> l)) <$> live_uuids.

(** [None] is a pass over the hash, or a walk, that does not end. *)
Definition _on_disk_dependents (w : pool_world) (path : string) (covered_paths : list string)
    (live_uuids : option (list string)) : option (res (list string * list string * rstate)) :=
  r ← shared_backing_index env (w_files w) shuffle flush (_dependent_candidates (w_files w)) (w_redis w);
  match r with
  | Raise x => Some (Raise x)
  | Ok (index, st) =>
      q ← dependents_of path index true covered_paths (live_set live_uuids);
      Some (Ok (q.1, q.2, st))
  end.

Definition blocking_unreadable (live_uuids : option (list string)) (unreadable : list string) : list string :=
  match live_uuids with
  | None => unreadable
  | Some lu => List.filter (λ p, match uuid_from_path p with Some u => mem u lu | None => false end) unreadable
  end.

Definition _refuse_if_backs_live_disks (w : pool_world) (path : string) (covered_paths : list string)
    (live_uuids : option (list string)) : option (dres pool_world) :=
  r ← _on_disk_dependents w path covered_paths live_uuids;
  Some (match r with
        | Raise x => DErr (IndexError_ x) w
        | Ok (dependents, unreadable, st) =>
            let w := mkPools (w_files w) st in
            match dependents, blocking_unreadable live_uuids unreadable with
            | [], [] => DOk w
            | _, blocking => DErr (BackingInUseError dependents blocking) w
            end
        end).

Definition guarded (w : pool_world) (path : string) (covered_paths : option (list string))
    (live_uuids : option (list string)) : option (dres pool_world) :=
  match covered_paths with
  | None => Some (DOk w)
  | Some covered => _refuse_if_backs_live_disks w path covered live_uuids
  end.

(** What follows the guard of [delete]: *)
Definition remove_disk (path : string) (pool_root : option string) (w : pool_world) : dres pool_world :=
  if bool_decide (path ∈ dom (w_files w)) then DOk (mkPools (delete path (w_files w)) (w_redis w))
  else match _absent_on_a_live_volume vol path pool_root with
       | None => DErr VolumeError w
       | Some true => DOk w
       | Some false => DErr FileNotFoundError w
       end.

(** and the guard of [move_delete]. *)
Definition rename_disk (path : string) (pool_root : option string) (w : pool_world) : dres pool_world :=
  match w_files w !! path with
  | Some f => DOk (mkPools (<[deleted_path path := f]> (delete path (w_files w))) (w_redis w))
  | None =>
      match _absent_on_a_live_volume vol path pool_root with
      | None => DErr VolumeError w
      | Some true => DOk w
      | Some false => DErr PathNotFound w
      end
  end.

Definition then_do (g : dres pool_world) (f : pool_world → dres pool_world) : dres pool_world :=
  match g with DErr e w => DErr e w | DOk w => f w end.

Definition delete_disk (path : string) (pool_root : option string) (covered_paths : option (list string))
    (live_uuids : option (list string)) (w : pool_world) : option (dres pool_world) :=
  g ← guarded w path covered_paths live_uuids; Some (then_do g (remove_disk path pool_root)).

Definition move_delete (path : string) (pool_root : option string) (covered_paths : option (list string))
    (live_uuids : option (list string)) (w : pool_world) : option (dres pool_world) :=
  g ← guarded w path covered_paths live_uuids; Some (then_do g (rename_disk path pool_root)).

(** *** The delete tasks of a purge

    A task is a [delete] or a [move_delete] ([get_delete_action] is asked for each). The
    storage workers run the tasks of a purge at the same time: the guard of a task and
    what follows it are two steps, and any number of other steps come in between. *)
Record delete_job := mkJob { j_move : bool; j_path : string; j_root : option string }.

Definition carry_out (j : delete_job) (w : pool_world) : dres pool_world :=
  if j_move j then rename_disk (j_path j) (j_root j) w else remove_disk (j_path j) (j_root j) w.

Record delete_run := mkRun {
  r_world : pool_world;
  r_waiting : list delete_job;     (** not begun *)
  r_passed : list delete_job;      (** past their guard *)
}.

Inductive delete_step (covered : list string) (live_uuids : option (list string)) : delete_run → delete_run → Prop :=
  | step_check j l1 l2 w passed g :
      guarded w (j_path j) (Some covered) live_uuids = Some g →
      delete_step covered live_uuids (mkRun w (l1 ++ j :: l2) passed)
        (mkRun (world_of g) (l1 ++ l2) (match g with DOk _ => j :: passed | DErr _ _ => passed end))
  | step_remove j l1 l2 w waiting :
      delete_step covered live_uuids (mkRun w waiting (l1 ++ j :: l2))
        (mkRun (world_of (carry_out j w)) waiting (l1 ++ l2)).

(** A task that nothing comes in between of is the function. *)
Lemma job_is_its_steps covered live j w r :
  (if j_move j then move_delete (j_path j) (j_root j) (Some covered) live w
   else delete_disk (j_path j) (j_root j) (Some covered) live w) = Some r →
  steps (delete_step covered live) (mkRun w [j] []) (mkRun (world_of r) [] []).
Proof.
  unfold move_delete, delete_disk. destruct (guarded w (j_path j) (Some covered) live) as [g|] eqn:Hg; [|by destruct (j_move j)].
  intros Hr. assert (r = then_do g (carry_out j)) as ->.
  { unfold carry_out. destruct (j_move j); by injection Hr as <-. }
  eapply steps_cons; [by apply (step_check covered live j [] [])|]. destruct g as [w'|e w']; cbn [then_do world_of app].
  - eapply steps_cons; [apply (step_remove covered live j [] [])|]. apply steps_refl.
  - apply steps_refl.
Qed.

End worker.

(** ** The entries of a purge *)
Definition live_child (c : child) : bool := status_in ["ready"; "maintenance"] (c_status c).

Lemma elem_of_sorted_set x l : x ∈ sorted_set l ↔ x ∈ l.
Proof. unfold sorted_set. by rewrite elem_of_py_sorted, elem_of_remove_dups. Qed.

Lemma elem_of_ids (f : child → bool) l x :
  x ∈ (c_id <$> List.filter f l) ↔ ∃ c, c ∈ l ∧ f c = true ∧ c_id c = x.
Proof.
  rewrite list_elem_of_fmap. split.
  - intros (c & -> & [Hc Hf]%list_elem_of_In%filter_In). exists c. by rewrite list_elem_of_In.
  - intros (c & Hc & Hf & <-). exists c. split; [done|]. apply list_elem_of_In, filter_In. by rewrite <-list_elem_of_In.
Qed.

Section entries.
Context (es : gmap string (gset string)) (ch : gmap string (list child)).

(** The entries [U] can go together: what goes takes every live child with it, and
    nothing that stays reads through it. *)
Definition purgeable (covered : gset string) (U : gset string) : Prop :=
  ∀ e c, e ∈ U → c ∈ children_of ch e →
    (live_child c = true → c_id c ∈ covered) ∧ c_id c ∉ storages_of es (dom es ∖ U).

Lemma elem_of_storages A x :
  x ∈ storages_of es A ↔ ∃ e ss, e ∈ A ∧ es !! e = Some ss ∧ x ∈ ss.
Proof.
  unfold storages_of. rewrite elem_of_union_list. split.
  - intros (ss & (e & He%elem_of_elements & Hs)%list_elem_of_omap & Hx). eauto.
  - intros (e & ss & He & Hs & Hx). exists ss. split; [|done]. apply list_elem_of_omap. exists e.
    by rewrite elem_of_elements.
Qed.

Lemma elem_of_uncovered covered kept e x :
  x ∈ uncovered_of ch covered kept e ↔
    ∃ c, c ∈ children_of ch e ∧ c_id c = x ∧ ((c_id c ∉ covered ∧ live_child c = true) ∨ c_id c ∈ kept).
Proof.
  unfold uncovered_of, uncovered_storage_children.
  rewrite elem_of_sorted_set, elem_of_app, elem_of_sorted_set, !elem_of_ids. split.
  - intros [(c & Hc & [Hn Hl]%andb_true_iff & Hx)|(c & Hc & Hk & Hx)]; exists c; split_and!; try done.
    + left. split; [|done]. by apply negb_true_iff, bool_decide_eq_false in Hn.
    + right. by apply bool_decide_eq_true in Hk.
  - intros (c & Hc & Hx & [[Hn Hl]|Hk]); [left|right]; exists c; split_and!; try done.
    + by rewrite bool_decide_false.
    + by rewrite bool_decide_true.
Qed.

Lemma uncovered_nil covered kept e :
  uncovered_of ch covered kept e = [] ↔
    ∀ c, c ∈ children_of ch e → (live_child c = true → c_id c ∈ covered) ∧ c_id c ∉ kept.
Proof.
  split.
  - intros Hn c Hc. assert (Hno : c_id c ∉ uncovered_of ch covered kept e) by (rewrite Hn; apply not_elem_of_nil).
    rewrite elem_of_uncovered in Hno. split.
    + intros Hl. destruct (decide (c_id c ∈ covered)); [done|]. exfalso. apply Hno. exists c. auto.
    + intros Hk. apply Hno. exists c. auto.
  - intros Hall. destruct (uncovered_of ch covered kept e) as [|x l] eqn:E; [done|]. exfalso.
    assert (Hx : x ∈ uncovered_of ch covered kept e) by (rewrite E; left).
    apply elem_of_uncovered in Hx as (c & Hc & _ & [[Hn Hl]|Hk]); destruct (Hall c Hc); naive_solver.
Qed.

Lemma elem_of_newly covered kept blocked e :
  e ∈ dom (newly_blocked es ch covered kept blocked) ↔
    e ∈ dom es ∧ e ∉ dom blocked ∧ uncovered_of ch covered kept e ≠ [].
Proof.
  unfold newly_blocked. rewrite elem_of_dom, map_lookup_imap. unfold is_Some. split.
  - intros [u Hu]. destruct (es !! e) as [ss|] eqn:Ee; [|done]. cbn [mbind option_bind] in Hu.
    destruct (bool_decide_reflect (e ∈ dom blocked)); [done|].
    split_and!; [by eapply elem_of_dom_2|done|]. by destruct (uncovered_of ch covered kept e).
  - intros ([ss Hs]%elem_of_dom & Hn & Hu). rewrite Hs. cbn [mbind option_bind].
    rewrite bool_decide_false by done. destruct (uncovered_of ch covered kept e); [done|eauto].
Qed.

Lemma storages_union A B : storages_of es (A ∪ B) = storages_of es A ∪ storages_of es B.
Proof.
  apply set_eq. intros x. rewrite elem_of_union, !elem_of_storages. split.
  - intros (e & ss & [He|He]%elem_of_union & Hs & Hx); [left|right]; eauto.
  - intros [(e & ss & He & Hs & Hx)|(e & ss & He & Hs & Hx)]; exists e, ss; rewrite elem_of_union; auto.
Qed.

Lemma storages_mono A B : A ⊆ B → storages_of es A ⊆ storages_of es B.
Proof. intros HAB x. rewrite !elem_of_storages. intros (e & ss & He & H). exists e, ss. split; [by apply HAB|done]. Qed.

(** The loop computes the least set of entries that must stay. *)
Lemma block_loop_spec covered0 fuel blocked :
  dom blocked ⊆ dom es →
  (∀ U, U ⊆ dom es → purgeable covered0 U → U ## dom blocked) →
  (size es - size (dom blocked) < fuel)%nat →
  ∃ blocked',
    block_loop es ch fuel (covered0 ∖ storages_of es (dom blocked)) (storages_of es (dom blocked)) blocked
      = Some blocked' ∧ dom blocked' ⊆ dom es ∧
    purgeable covered0 (dom es ∖ dom blocked') ∧
    (∀ U, U ⊆ dom es → purgeable covered0 U → U ## dom blocked').
Proof.
  revert blocked. induction fuel as [|fuel IH]; intros blocked Hsub Hmin Hfuel; [lia|].
  cbn [block_loop]. set (kept := storages_of es (dom blocked)). set (newly := newly_blocked _ _ _ _ _).
  destruct (decide (newly = ∅)) as [He|Hne].
  - exists blocked. split_and!; [done..| |done]. intros e c [Hin Hnb]%elem_of_difference Hc.
    assert (Hnn : e ∉ dom newly) by (rewrite He, dom_empty; set_solver).
    assert (Hu : uncovered_of ch (covered0 ∖ kept) kept e = []).
    { destruct (uncovered_of ch (covered0 ∖ kept) kept e) eqn:Eu; [done|]. exfalso. apply Hnn, elem_of_newly.
      by rewrite Eu. }
    pose proof (proj1 (uncovered_nil _ _ _) Hu c Hc) as [H1 H2]. split; [intros Hl; set_solver|].
    assert (Hd : dom es ∖ (dom es ∖ dom blocked) = dom blocked) by (apply set_eq; intros x; destruct (decide (x ∈ dom blocked)); set_solver).
    by rewrite Hd.
  - assert (Hcov : covered0 ∖ kept ∖ storages_of es (dom newly) = covered0 ∖ storages_of es (dom (newly ∪ blocked))).
    { rewrite dom_union_L, storages_union. subst kept. set_solver. }
    assert (Hkept : kept ∪ storages_of es (dom newly) = storages_of es (dom (newly ∪ blocked))).
    { rewrite dom_union_L, storages_union. subst kept. set_solver. }
    rewrite Hcov, Hkept. apply IH.
    + rewrite dom_union_L. intros e [He|He]%elem_of_union; [|by apply Hsub]. by apply elem_of_newly in He as [? _].
    + intros U HU HP. rewrite dom_union_L. intros e HeU [He|He]%elem_of_union; [|by eapply Hmin].
      apply elem_of_newly in He as (_ & _ & Hun). apply Hun, uncovered_nil. intros c Hc.
      destruct (HP e c HeU Hc) as [H1 H2].
      assert (Hk : kept ⊆ storages_of es (dom es ∖ U)).
      { apply storages_mono. intros x Hx. apply elem_of_difference. split; [by apply Hsub|]. intros HxU. by eapply Hmin. }
      split; [|set_solver]. intros Hl. apply elem_of_difference. split; [by apply H1|set_solver].
    + assert (Hdisj : dom newly ## dom blocked) by (intros x (_ & Hx & _)%elem_of_newly; done).
      rewrite dom_union_L, size_union by done.
      assert (size (dom newly) ≠ 0)%nat by (rewrite size_dom; by apply map_size_non_empty_iff).
      assert (size (dom newly ∪ dom blocked) ≤ size (dom es))%nat as Hle.
      { apply subseteq_size. intros e [(? & _)%elem_of_newly|?]%elem_of_union; auto. }
      rewrite size_union in Hle by done. rewrite !size_dom in *. lia.
Qed.

End entries.

(** C22: The loop that decides which recycle-bin entries a purge must keep always ends,
    and it keeps exactly the entries that have to stay: the entries it lets go can go
    together (every live child of their disks is a disk of the purge, and no child is a
    disk of an entry that stays), and every set of entries that can is a part of them. *)
Theorem blocked_entries_are_exact es ch covered :
  ∃ blocked, blocked_storage_entries es ch covered = Some blocked ∧ dom blocked ⊆ dom es ∧
    purgeable es ch covered (dom es ∖ dom blocked) ∧
    (∀ U, U ⊆ dom es → purgeable es ch covered U → U ⊆ dom es ∖ dom blocked).
Proof.
  destruct (block_loop_spec es ch covered (S (size es)) ∅) as (blocked & Hb & Hsub & Hp & Hmin).
  - rewrite dom_empty_L. set_solver.
  - intros U _ _. rewrite dom_empty_L. set_solver.
  - lia.
  - exists blocked. split_and!; [|done|done|].
    + unfold blocked_storage_entries. rewrite <-Hb. rewrite dom_empty_L. f_equal; apply set_eq; intros x;
        rewrite ?elem_of_difference, elem_of_storages; set_solver.
    + intros U HU HP e He. apply elem_of_difference. split; [by apply HU|]. intros Hb'. by eapply Hmin.
Qed.

(** ** The files of a purge *)
Section guard.
Context (env : environment) (shuffle : list string → list string) (flush : nat) (vol : volume).

(** The siblings keep the hash truthful about the candidates, whatever the files are. *)
Definition honest_siblings : Prop := ∀ fs n h,
  truthful (_dependent_candidates fs) fs h → truthful (_dependent_candidates fs) fs (sibling env fs n h).

Definition hash_ok (w : pool_world) : Prop :=
  truthful (_dependent_candidates (w_files w)) (w_files w) (w_redis w).2.

Context (Henv : honest_siblings) (Hshuffle : ∀ l, shuffle l ≡ₚ l) (Hflush : 0 < flush).

(** A disk counts as live for a purge. *)
Definition counts_as_live (live_uuids : option (list string)) (p : string) : Prop :=
  match live_uuids with
  | None => True
  | Some l => ∃ u, uuid_from_path p = Some u ∧ u ∈ l
  end.

(** The candidates are the files with a fitting path. *)
Definition fitting (p : string) : bool :=
  existsb (λ d, String.prefix ("/isard/" +:+ d +:+ "/") p) ISARD_DIRS && negb (is_sub "/to_delete/" p)
  && (ends_with ".qcow2" p && negb (is_sub "/deleted/" p) && negb (is_sub "/to_delete/" p)).

Lemma elem_of_candidates fs p : p ∈ _dependent_candidates fs ↔ fitting p = true ∧ p ∈ dom fs.
Proof.
  unfold _dependent_candidates, scan_isard_dirs, fitting.
  rewrite list_elem_of_In, !filter_In, <-list_elem_of_In, list_elem_of_fmap, elem_of_dom, !andb_true_iff.
  split.
  - intros [[([q f] & -> & Hq%elem_of_map_to_list) ?] ?]. split; [tauto|by exists f].
  - intros [? [f Hf]]. split; [split; [exists (p, f); by rewrite elem_of_map_to_list|tauto]|tauto].
Qed.

Lemma basename_no_slash path : String.prefix "/" (basename path) = false.
Proof.
  apply not_true_is_false. intros [u Hu]%prefix_spec. unfold basename in Hu.
  destruct (rpartition_at "/" path) as [[h t]|] eqn:E.
  - apply rpartition_at_Some in E as [_ Hc]. by rewrite Hu in Hc.
  - apply rpartition_at_None in E. by rewrite Hu in E.
Qed.

(** The directory [move_delete] puts a file in. *)
Lemma deleted_dir d : join d "deleted" = "deleted" ∨ ∃ y, join d "deleted" = y +:+ "/deleted".
Proof.
  unfold join. cbn [String.prefix]. destruct (String.eqb_spec d "") as [->|Hd]; [by left|]. right.
  destruct (String.prefix "/" (String.rev d)) eqn:Hl; [|by exists d].
  apply rev_prefix_last in Hl as [d0 ->]. exists d0. by rewrite app_assoc_str.
Qed.

Lemma deleted_path_unfit path : fitting (deleted_path path) = false.
Proof.
  unfold deleted_path, join at 1. rewrite basename_no_slash.
  destruct (deleted_dir (dirname path)) as [->|[y ->]]; [by cbn|].
  destruct (String.eqb_spec (y +:+ "/deleted") "") as [H|_]; [by destruct y|].
  unfold String.rev. rewrite rev_app_str. cbn [String.rev_app String.prefix ascii_dec].
  change (ascii_dec "/" "d") with (ascii_dec "/" "d"). destruct (ascii_dec "/" "d"); [done|].
  rewrite app_assoc_str. unfold fitting.
  change ("/deleted" +:+ ("/" +:+ basename path)) with ("/deleted/" +:+ basename path).
  rewrite is_sub_app. cbn [negb]. by rewrite andb_false_r, andb_false_r.
Qed.

(** The guard on a truthful hash: the answer, and a hash that stays truthful. *)
Lemma guard_spec w path covered live :
  hash_ok w →
  ∃ r, guarded env shuffle flush w path (Some covered) live = Some r ∧
    w_files (world_of r) = w_files w ∧ hash_ok (world_of r) ∧
    ∀ w', r = DOk w' →
      ∃ index, build_backing_index (w_files w) (_dependent_candidates (w_files w)) ∅ = Ok index ∧
        ∀ p, counts_as_live live p → ¬ depends index (list_to_set covered ∪ {[path]}) path p.
Proof.
  intros Ht. unfold guarded, _refuse_if_backs_live_disks, _on_disk_dependents.
  pose proof (shared_index_spec env (w_files w) shuffle flush (_dependent_candidates (w_files w)) (w_redis w)
    (Henv (w_files w)) Hshuffle Hflush Ht) as Hs.
  destruct (build_backing_index (w_files w) (_dependent_candidates (w_files w)) ∅) as [index|x] eqn:Hb.
  2: { rewrite Hs. cbn. eexists. split; [done|]. by split_and!. }
  destruct Hs as (st & -> & Hst). cbn [mbind option_bind].
  destruct (dependents_of_spec path index true covered (live_set live)) as (ds & us & -> & Hd & _).
  cbn [mbind option_bind fst snd]. eexists. split; [done|].
  assert (Hw : ∀ r, (∃ e, r = DErr e (mkPools (w_files w) st)) ∨ r = DOk (mkPools (w_files w) st) →
    w_files (world_of r) = w_files w ∧ hash_ok (world_of r)).
  { by intros r [[e ->]| ->]. }
  destruct ds as [|d ds]; [destruct (blocking_unreadable live us)|];
    (split_and!; [apply Hw; eauto..|]); try done.
  intros w' _. exists index. split; [done|]. intros p Hl Hdep. apply (not_elem_of_nil p), Hd.
  destruct (depends_in _ _ _ _ Hdep) as [[e He]%elem_of_dom _]. exists e. split_and!; [done| |done].
  destruct live as [l|]; [|done]. destruct Hl as (u & Hu & Hul). simpl. apply bool_decide_eq_true.
  apply (build_index_lookup _ _ _ _ _ Hb) in He as [_ He]. unfold entry_at in He.
  destruct (read_backing (w_files w) p) as [b|]; [|done]. cbn in He. injection He as <-.
  rewrite elem_of_list_to_set, list_elem_of_fmap. by exists u.
Qed.

(** What a task does to the files: of the candidates, at most its own goes. *)
Record spares (path : string) (fs fs' : files) : Prop := {
  sp_same p : p ≠ path → fitting p = true → fs' !! p = fs !! p;
  sp_gone p : fitting p = true → is_Some (fs' !! p) → fs' !! p = fs !! p;
}.

Lemma carry_out_spares j w : spares (j_path j) (w_files w) (w_files (world_of (carry_out vol j w))).
Proof.
  assert (Hdel : spares (j_path j) (w_files w) (delete (j_path j) (w_files w))).
  { split; intros p; [intros; by apply lookup_delete_ne|].
    intros _ [f Hf]. apply lookup_delete_Some in Hf as [Hne Hf]. by rewrite lookup_delete_ne. }
  assert (Hid : spares (j_path j) (w_files w) (w_files w)) by by split.
  unfold carry_out, rename_disk, remove_disk. destruct (j_move j).
  - destruct (w_files w !! j_path j) as [f|] eqn:Ef.
    + cbn [world_of w_files]. assert (Hne : ∀ p, fitting p = true → p ≠ deleted_path (j_path j)).
      { intros p Hp ->. by rewrite deleted_path_unfit in Hp. }
      destruct Hdel as [H1 H2]. split; intros p; [intros Hp Hf|intros Hf]; rewrite lookup_insert_ne by (apply not_eq_sym, Hne, Hf); auto.
    + by destruct (_absent_on_a_live_volume vol (j_path j) (j_root j)) as [[]|].
  - destruct (bool_decide _); [done|]. by destruct (_absent_on_a_live_volume vol (j_path j) (j_root j)) as [[]|].
Qed.

Lemma same_entry fs fs' p : fs' !! p = fs !! p → entry_at fs' p = entry_at fs p.
Proof. intros H. unfold entry_at, read_backing, entry_of. by rewrite H. Qed.

Lemma spares_truthful path fs fs' h :
  spares path fs fs' → truthful (_dependent_candidates fs) fs h → truthful (_dependent_candidates fs') fs' h.
Proof.
  intros [_ Hg] Ht p s e [Hfit [f Hf]%elem_of_dom]%elem_of_candidates Hh Hs.
  pose proof (Hg p Hfit ltac:(by eexists)) as Hsame. rewrite (same_entry fs) by done.
  apply (Ht p s); [|done|by rewrite <-Hs; unfold file_signature; rewrite Hsame].
  apply elem_of_candidates. split; [done|]. apply elem_of_dom. exists f. by rewrite <-Hsame.
Qed.

Lemma carry_out_redis j w : w_redis (world_of (carry_out vol j w)) = w_redis w.
Proof.
  unfold carry_out, rename_disk, remove_disk.
  by destruct (j_move j), (w_files w !! j_path j), (bool_decide (j_path j ∈ dom (w_files w))),
    (_absent_on_a_live_volume vol (j_path j) (j_root j)) as [[]|].
Qed.

Lemma carry_out_ok j w : hash_ok w → hash_ok (world_of (carry_out vol j w)).
Proof.
  intros Ht. unfold hash_ok. rewrite carry_out_redis. eapply spares_truthful; [apply carry_out_spares|done].
Qed.

Lemma reads_file_spared path fs fs' skip p t :
  spares path fs fs' → path ∈ skip → reads_file fs (_dependent_candidates fs) skip p t →
  reads_file fs' (_dependent_candidates fs') skip p t.
Proof.
  intros [Hsame _] Hpath.
  assert (Hstep : ∀ p q, p ∈ _dependent_candidates fs → p ∉ skip → backs_onto fs p q →
    p ∈ _dependent_candidates fs' ∧ backs_onto fs' p q).
  { intros p0 q [Hfit [f Hf]%elem_of_dom]%elem_of_candidates Hs (raw & Hr & Hb).
    assert (Heq : fs' !! p0 = fs !! p0) by (apply Hsame; [by intros ->|done]). split.
    - apply elem_of_candidates. split; [done|]. apply elem_of_dom. exists f. by rewrite Heq.
    - exists raw. split; [|done]. rewrite <-Hr. unfold read_backing. by rewrite Heq. }
  induction 1 as [p t Hp Hs Ho|p q t Hp Hs Ho Hq IH].
  - destruct (Hstep p t Hp Hs Ho) as [??]. by apply reads_here.
  - destruct (Hstep p q Hp Hs Ho) as [??]. by eapply reads_on.
Qed.

(** A task that is not for [t] and moves nothing onto it leaves [t] as it is. *)
Lemma carry_out_elsewhere j w t :
  j_path j ≠ t → (j_move j = true → deleted_path (j_path j) ≠ t) →
  w_files (world_of (carry_out vol j w)) !! t = w_files w !! t.
Proof.
  intros Hne Hm. unfold carry_out, rename_disk, remove_disk. destruct (j_move j).
  - destruct (w_files w !! j_path j); [cbn; by rewrite lookup_insert_ne, lookup_delete_ne by auto|].
    by destruct (_absent_on_a_live_volume vol (j_path j) (j_root j)) as [[]|].
  - destruct (bool_decide _); [cbn; by rewrite lookup_delete_ne|].
    by destruct (_absent_on_a_live_volume vol (j_path j) (j_root j)) as [[]|].
Qed.

(** *** A run of the tasks *)
Section run.
Context (jobs : list delete_job) (covered : list string) (live : option (list string)) (fs0 : files) (p t : string).
Context (Hjobs : ∀ j, j ∈ jobs → j_path j ∈ covered ∧ (j_move j = true → deleted_path (j_path j) ≠ t)).
Context (Ht : t ∈ covered) (Hlive : counts_as_live live p).

Record run_ok (s : delete_run) : Prop := {
  ro_hash : hash_ok (r_world s);
  ro_file : w_files (r_world s) !! t = fs0 !! t;
  ro_reads : reads_file (w_files (r_world s)) (_dependent_candidates (w_files (r_world s))) (list_to_set covered) p t;
  ro_waiting j : j ∈ r_waiting s → j ∈ jobs;
  ro_passed j : j ∈ r_passed s → j ∈ jobs ∧ j_path j ≠ t;
}.

Lemma run_ok_step s s' : delete_step env shuffle flush vol covered live s s' → run_ok s → run_ok s'.
Proof.
  destruct 1 as [j l1 l2 w passed g Hg|j l1 l2 w waiting]; intros [H1 H2 H3 H4 H5]; cbn [r_world r_waiting r_passed] in *.
  - destruct (guard_spec w (j_path j) covered live H1) as (r & Hr & Hf & Hok & Hdep).
    rewrite Hg in Hr. injection Hr as <-. split; cbn [r_world r_waiting r_passed]; rewrite ?Hf; try done.
    + intros i Hi. apply H4. set_solver.
    + intros i Hi. destruct g as [w'|e w']; [|by apply H5]. apply elem_of_cons in Hi as [->|Hi]; [|by apply H5].
      split; [apply H4; set_solver|]. intros Hjt. destruct (Hdep w' eq_refl) as (index & Hb & Hno).
      apply (Hno p Hlive). rewrite Hjt. eapply reads_file_depends; [done|].
      assert (Hskip : list_to_set covered ∪ {[t]} = (list_to_set covered : gset string)) by set_solver.
      by rewrite Hskip.
  - destruct (H5 j ltac:(set_solver)) as [Hj Hne]. destruct (Hjobs j Hj) as [Hc Hm]. split; cbn [r_world r_waiting r_passed]; try done.
    + by apply carry_out_ok.
    + by rewrite carry_out_elsewhere.
    + eapply reads_file_spared; [apply carry_out_spares|by apply elem_of_list_to_set|done].
    + intros i Hi. apply H5. set_solver.
Qed.

Lemma run_keeps w s :
  hash_ok w → w_files w = fs0 →
  reads_file fs0 (_dependent_candidates fs0) (list_to_set covered) p t →
  steps (delete_step env shuffle flush vol covered live) (mkRun w jobs []) s → run_ok s.
Proof.
  intros Hh <- Hr Hs. eapply steps_invariant; [apply run_ok_step|exact Hs|].
  split; cbn [r_world r_waiting r_passed]; [done|congruence|done|done|]. intros j Hj. by apply not_elem_of_nil in Hj.
Qed.
End run.

End guard.

(** C3: The delete tasks of a purge, deletes and moves, checks and removals interleaved in
    any way, in files that only these tasks change: when the workers read chunks of at
    least one file, and the hash of headers starts truthful about the candidates and the
    siblings keep it so, as siblings that flush the headers they read do, every check answers; and the disk [t]
    of the purge that a live disk [p] reads through first, along backing files outside of
    the purge, is never removed, unless another task moves its own file onto it: its file
    stays as it is and [p] still reads through it. Disks of the purge behind [t] may go
    ([purge_breaks_a_live_chain]). *)
Theorem live_disks_keep_their_backing env shuffle flush vol jobs covered live w s p t :
  honest_siblings env → (∀ l, shuffle l ≡ₚ l) → 0 < flush → hash_ok w →
  (∀ j, j ∈ jobs → j_path j ∈ covered ∧ (j_move j = true → deleted_path (j_path j) ≠ t)) → t ∈ covered →
  counts_as_live live p →
  reads_file (w_files w) (_dependent_candidates (w_files w)) (list_to_set covered) p t →
  steps (delete_step env shuffle flush vol covered live) (mkRun w jobs []) s →
  let fs := w_files (r_world s) in
  fs !! t = w_files w !! t ∧
  reads_file fs (_dependent_candidates fs) (list_to_set covered) p t ∧
  ∀ j, j ∈ r_waiting s → is_Some (guarded env shuffle flush (r_world s) (j_path j) (Some covered) live).
Proof.
  intros Henv Hsh Hfl Hw Hjobs Htc Hl Hr Hs.
  destruct (run_keeps env shuffle flush vol Henv Hsh Hfl jobs covered live _ p t Hjobs Htc Hl w s Hw eq_refl Hr Hs)
    as [Hh Hf Hrd _ _]. split_and!; [done..|].
  intros j _. destruct (guard_spec env shuffle flush Henv Hsh Hfl _ (j_path j) covered live Hh) as (r & -> & _). by exists r.
Qed.

(** ** A purge of two disks *)
Definition byte_of (n : nat) : ascii := ascii_of_nat n.
Definition image (backing : string) : file :=
  let name := bytes_of backing in
  mkFile (Some (header_with (replicate 7 "000"%char ++ [byte_of 20])
                  (replicate 3 "000"%char ++ [byte_of (length name)]) ++ name)) 4096 1.
Definition raw_image : file := mkFile (Some (header_with (replicate 8 "000"%char) (replicate 4 "000"%char))) 4096 1.

Definition ex_base : string := "/isard/templates/base.qcow2".
Definition ex_mid : string := "/isard/templates/mid.qcow2".
Definition ex_uuid : string := "11111111-2222-3333-4444-555555555555".
Definition ex_leaf : string := "/isard/groups/" +:+ ex_uuid +:+ ".qcow2".

(** [base], [mid] on top of it and the live [leaf] on top of [mid]. *)
Definition ex_pools : pool_world :=
  mkPools {[ ex_base := raw_image; ex_mid := image ex_base; ex_leaf := image ex_mid ]} (0, ∅).
Definition ex_volume : volume := mkVolume (λ _, true) (λ _, Some true).

(** A sibling that keeps flushing the headers of the three. *)
Definition ex_sibling : environment :=
  mkEnv true (flushing_sibling (λ _, [ex_base; ex_mid; ex_leaf])) (λ _, false).

Lemma ex_honest : honest_siblings ex_sibling.
Proof. intros fs n h. apply flushing_sibling_truthful. Qed.

Definition ex_jobs : list delete_job := [mkJob true ex_mid None; mkJob false ex_base None].

(** A disk of the purge hides what is behind it: the guard of [base] does not see
    [leaf] behind [mid], so [base] goes; the guard of [mid] refuses, and the live
    [leaf] is left with a chain that ends in a file that is gone. *)
Lemma purge_breaks_a_live_chain : ∃ s,
  steps (delete_step ex_sibling (@List.rev string) 200 ex_volume [ex_base; ex_mid] (Some [ex_uuid]))
    (mkRun ex_pools ex_jobs []) s ∧
  w_files (r_world s) !! ex_base = None ∧
  backs_onto (w_files (r_world s)) ex_leaf ex_mid ∧ backs_onto (w_files (r_world s)) ex_mid ex_base.
Proof.
  eexists. split.
  { eapply steps_cons; [eapply (step_check _ _ _ _ _ _ (mkJob true ex_mid None) []); vm_compute; reflexivity|].
    eapply steps_cons; [eapply (step_check _ _ _ _ _ _ (mkJob false ex_base None) []); vm_compute; reflexivity|].
    eapply steps_cons; [apply (step_remove _ _ _ _ _ _ (mkJob false ex_base None) [] [])|]. apply steps_refl. }
  split_and!.
  - vm_compute; reflexivity.
  - exists ex_mid. split; vm_compute; reflexivity.
  - exists ex_base. split; vm_compute; reflexivity.
Qed.

Lemma ex_leaf_reads_mid :
  reads_file (w_files ex_pools) (_dependent_candidates (w_files ex_pools)) (list_to_set [ex_base; ex_mid]) ex_leaf ex_mid.
Proof.
  apply reads_here.
  - apply (bool_decide_unpack _). by vm_compute.
  - apply (bool_decide_unpack _). by vm_compute.
  - exists ex_mid. split; vm_compute; reflexivity.
Qed.

Lemma live_disks_keep_their_backing_witness :
  ∃ s, w_files (r_world s) !! ex_base = None ∧ w_files (r_world s) !! ex_mid = w_files ex_pools !! ex_mid.
Proof.
  destruct purge_breaks_a_live_chain as (s & Hs & Hb & _). exists s. split; [exact Hb|].
  refine (proj1 (live_disks_keep_their_backing ex_sibling (@List.rev string) 200 ex_volume ex_jobs [ex_base; ex_mid]
           (Some [ex_uuid]) ex_pools s ex_leaf ex_mid ex_honest _ _ _ _ _ _ ex_leaf_reads_mid Hs)).
  - intros l. apply Permutation_sym, Permutation_rev.
  - lia.
  - intros p c e _. cbn [w_redis ex_pools snd]. by rewrite lookup_empty.
  - apply Forall_forall. repeat constructor; cbn; try done; (by left) || (right; by left).
  - right. left.
  - exists ex_uuid. split; [by vm_compute|left].
Defined.

(** ** The entry *)
Record bin_task := mkTask { bt_id : string; bt_status : string; bt_blocked : bool }.
#[export] Instance bin_task_eq_dec : EqDecision bin_task.
Proof. solve_decision. Defined.

(** The fields of a [recycle_bin] document that a purge changes; of a log, its action. *)
Record bin_entry := mkEntryDoc { be_status : string; be_tasks : list bin_task; be_logs : list string }.

Definition set_status (s : string) (e : bin_entry) : bin_entry := mkEntryDoc s (be_tasks e) (be_logs e).
Definition add_log (action : string) (e : bin_entry) : bin_entry :=
  mkEntryDoc (be_status e) (be_tasks e) (be_logs e ++ [action]).

(** [claim_status]: whether the document changed, and the document *)
Definition claim_status (expected : list string) (status : string) (e : bin_entry) : bool * bin_entry :=
  if mem (be_status e) expected
  then (negb (be_status e =? status)%string, set_status status e) else (false, e).

Definition _PURGEABLE : list string := ["recycled"; "queued"; "deleting"].

Definition purge_claim (e : bin_entry) : bin_entry :=
  if mem (be_status e) _PURGEABLE then set_status "queued" e else e.

Definition claim_for_purge (doc : option bin_entry) : bool * option bin_entry :=
  let doc := purge_claim <$> doc in
  (match doc with Some e => (be_status e =? "queued")%string | None => false end, doc).

Definition _reset_tasks (e : bin_entry) : bin_entry := mkEntryDoc (be_status e) [] (be_logs e).
Definition _add_task (id : string) (e : bin_entry) : bin_entry :=
  mkEntryDoc (be_status e) (be_tasks e ++ [mkTask id "queued" false]) (be_logs e).

(** *** The plan of an entry *)

(** The status of the rows of the storages that exist. *)
Definition all_deleted (rows : gmap string string) (storages : list string) : bool :=
  forallb (String.eqb "deleted") (omap (λ s, rows !! s) storages).

Definition plans_of (rows : gmap string string) (storages : list string) : list string :=
  List.filter (λ s, match rows !! s with Some st => negb (st =? "deleted")%string | None => false end) storages.

(** What the loop over the entries does with one: [lanes] tells the lane of a plan and
    [has_consumer] whether it is served. *)
Inductive entry_plan :=
  | AlreadyDeleted
  | Blocked (uncovered : list string)
  | Deferred (lanes : list string)
  | Deleting (plans : list string).

Definition plan_entry (rows : gmap string string) (storages : list string) (uncovered : option (list string))
    (lane : string → string) (has_consumer : string → bool) : entry_plan :=
  if all_deleted rows storages then AlreadyDeleted
  else match uncovered with
       | Some ((_ :: _) as u) => Blocked u
       | _ =>
           let plans := plans_of rows storages in
           match sorted_set (List.filter (λ q, negb (has_consumer q)) (lane <$> plans)) with
           | [] => Deleting plans
           | lanes => Deferred lanes
           end
       end.

(** The document after it, before the first task is registered. *)
Definition start_plan (p : entry_plan) (entry_storages : list string) (e : bin_entry) : bin_entry :=
  match p with
  | AlreadyDeleted => set_status "deleted" e
  | Blocked _ => add_log "delete_blocked_dependents" (set_status "recycled" e)
  | Deferred _ => add_log "delete_deferred" (set_status "recycled" e)
  | Deleting plans =>
      let e := add_log "deleting" (set_status "deleting" e) in
      let e := match entry_storages with [] => set_status "deleted" e | _ => e end in
      match plans with [] => e | _ => _reset_tasks e end
  end.

(** *** The outcome of a task *)
Definition _PURGE_TASK_TERMINAL_STATUSES : list string := ["finished"; "failed"; "canceled"].

Definition merge_task (id status : string) (blocked : bool) (t : bin_task) : bin_task :=
  if (bt_id t =? id)%string then mkTask (bt_id t) status (blocked || bt_blocked t) else t.

(** The first update; [None] when it changes nothing. *)
Definition mark_task (id status : string) (blocked : bool) (e : bin_entry) : option bin_entry :=
  let tasks := merge_task id status blocked <$> be_tasks e in
  if decide (tasks = be_tasks e) then None else Some (mkEntryDoc (be_status e) tasks (be_logs e)).

(** What the code then does, from the document the first update returned. *)
Inductive decision := Release (blocked : bool) | Settle.

Definition is_finished (t : bin_task) : bool := (bt_status t =? "finished")%string.

Definition decide_entry (updated : bin_entry) : option decision :=
  let tasks := be_tasks updated in
  if forallb is_finished tasks then
    if (be_status updated =? "deleted")%string then None else Some Settle
  else if forallb (λ t, mem (bt_status t) _PURGE_TASK_TERMINAL_STATUSES) tasks
       then Some (Release (existsb bt_blocked tasks)) else None.

(** [_release_unfinished_purge] and the last update: both only from [deleting]. *)
Definition apply_decision (d : decision) (e : bin_entry) : bin_entry :=
  if (be_status e =? "deleting")%string then
    match d with
    | Release blocked =>
        add_log (if blocked then "delete_blocked_dependents" else "delete_failed") (set_status "recycled" e)
    | Settle => add_log "deleted" (set_status "deleted" e)
    end
  else e.

Definition update_task_status (id status : string) (blocked : bool) (e : bin_entry) : bin_entry :=
  match mark_task id status blocked e with
  | None => e
  | Some e' => match decide_entry e' with Some d => apply_decision d e' | None => e' end
  end.

(** *** A purge under way

    The enqueuer registers a task in the entry and enqueues it, one after the other;
    the outcome of an enqueued task arrives at any moment after that, and its two
    updates are two steps. *)
Record purge := mkPurge {
  p_entry : bin_entry;
  p_todo : list string;              (** the tasks still to be registered *)
  p_open : gset string;              (** enqueued, without an outcome *)
  p_pending : list decision;         (** taken from the first update, not yet applied *)
  p_outcome : gmap string string;
  p_early : bool;                    (** an outcome came before the last registration *)
}.

Inductive purge_step : purge → purge → Prop :=
  | step_register i todo e open pending outcome early :
      purge_step (mkPurge e (i :: todo) open pending outcome early)
                 (mkPurge (_add_task i e) todo ({[i]} ∪ open) pending outcome early)
  | step_outcome i status blocked e e' todo open pending outcome early :
      i ∈ open → status ∈ _PURGE_TASK_TERMINAL_STATUSES → mark_task i status blocked e = Some e' →
      purge_step (mkPurge e todo open pending outcome early)
                 (mkPurge e' todo (open ∖ {[i]}) (option_list (decide_entry e') ++ pending) (<[i := status]> outcome)
                    (early || match todo with [] => false | _ => true end))
  | step_apply d e todo open l1 l2 outcome early :
      purge_step (mkPurge e todo open (l1 ++ d :: l2) outcome early)
                 (mkPurge (apply_decision d e) todo open (l1 ++ l2) outcome early).

Definition start_purge (logs : list string) (ids : list string) : purge :=
  mkPurge (mkEntryDoc "deleting" [] logs) ids ∅ [] ∅ false.

(** Nothing is left to do. *)
Definition quiet (s : purge) : Prop := p_todo s = [] ∧ p_open s = ∅ ∧ p_pending s = [].

(** *** How a purge ends *)
Definition task_ids (s : purge) : list string := bt_id <$> be_tasks (p_entry s).
Definition all_good (s : purge) : Prop := ∀ i st, p_outcome s !! i = Some st → st = "finished".
Definition busy (s : purge) : Prop := p_todo s ≠ [] ∨ p_open s ≠ ∅.

Record purge_inv (ids : list string) (s : purge) : Prop := {
  pi_ids : task_ids s ++ p_todo s = ids;
  pi_task t : t ∈ be_tasks (p_entry s) →
    match p_outcome s !! bt_id t with
    | Some st => bt_status t = st ∧ st ∈ _PURGE_TASK_TERMINAL_STATUSES
    | None => bt_status t = "queued" ∧ bt_id t ∈ p_open s
    end;
  pi_open i : i ∈ p_open s → i ∈ task_ids s ∧ p_outcome s !! i = None;
  pi_outcome i st : p_outcome s !! i = Some st → i ∈ task_ids s;
  pi_status : be_status (p_entry s) ∈ ["deleting"; "deleted"; "recycled"];
  (** the last outcome leaves a decision *)
  pi_live : ids ≠ [] → ¬ busy s → be_status (p_entry s) = "deleting" → p_pending s ≠ [];
  (** as long as every outcome is good, nothing is handed back *)
  pi_good : all_good s →
    (∀ d, d ∈ p_pending s → d = Settle) ∧ be_status (p_entry s) ≠ "recycled";
  (** an entry whose tasks were all registered first is only settled by good outcomes *)
  pi_exact : p_early s = false →
    (busy s → be_status (p_entry s) = "deleting" ∧ p_pending s = []) ∧
    (Settle ∈ p_pending s ∨ be_status (p_entry s) = "deleted" → all_good s);
}.

Lemma purge_inv_start logs ids : purge_inv ids (start_purge logs ids).
Proof.
  split; unfold start_purge, all_good, busy; cbn; set_solver.
Qed.

Lemma merge_ids id st b (tasks : list bin_task) : bt_id <$> (merge_task id st b <$> tasks) = bt_id <$> tasks.
Proof.
  rewrite <-list_fmap_compose. apply list_fmap_ext. intros _ t _. unfold compose, merge_task.
  by destruct (bt_id t =? id)%string.
Qed.

Lemma purge_inv_register ids i todo e open pending outcome early :
  NoDup ids →
  purge_inv ids (mkPurge e (i :: todo) open pending outcome early) →
  purge_inv ids (mkPurge (_add_task i e) todo ({[i]} ∪ open) pending outcome early).
Proof.
  intros Hnd [Hids Htask Hop Hout Hst Hlive Hgood Hex]. unfold task_ids, all_good, busy in *. cbn in *.
  assert (Hni : i ∉ bt_id <$> be_tasks e).
  { rewrite <-Hids in Hnd. apply NoDup_app in Hnd as (_ & Hd & _). intros Hin. apply (Hd i Hin). left. }
  assert (Hno : outcome !! i = None).
  { destruct (outcome !! i) eqn:E; [|done]. by apply Hout in E. }
  split; unfold task_ids, all_good, busy; cbn.
  - by rewrite fmap_app, <-app_assoc.
  - intros t [Ht| ->%list_elem_of_singleton]%elem_of_app.
    + specialize (Htask t Ht). destruct (outcome !! bt_id t); [done|]. destruct Htask. split; [done|set_solver].
    + cbn. rewrite Hno. split; [done|set_solver].
  - intros j. rewrite fmap_app. intros [->%elem_of_singleton|[? ?]%Hop]%elem_of_union; [set_solver|].
    split; [set_solver|done].
  - intros j st Hj%Hout. rewrite fmap_app. set_solver.
  - done.
  - intros _ Hb. exfalso. apply Hb. right. set_solver.
  - done.
  - intros He. destruct (Hex He) as [H1 H2]. split; [|done]. intros _. apply H1. by left.
Qed.

Lemma purge_inv_apply ids d e todo open l1 l2 outcome early :
  purge_inv ids (mkPurge e todo open (l1 ++ d :: l2) outcome early) →
  purge_inv ids (mkPurge (apply_decision d e) todo open (l1 ++ l2) outcome early).
Proof.
  intros [Hids Htask Hop Hout Hst Hlive Hgood Hex]. unfold task_ids, all_good, busy in *. cbn in *.
  assert (Hin : ∀ x, x ∈ l1 ++ l2 → x ∈ l1 ++ d :: l2) by set_solver.
  assert (Hd : d ∈ l1 ++ d :: l2) by set_solver.
  assert (Htasks : be_tasks (apply_decision d e) = be_tasks e).
  { unfold apply_decision. destruct (_ =? _)%string, d; done. }
  assert (Hnew : be_status (apply_decision d e) = if (be_status e =? "deleting")%string
    then match d with Release _ => "recycled" | Settle => "deleted" end else be_status e).
  { unfold apply_decision. destruct (_ =? _)%string, d; done. }
  assert (Hnd : be_status (apply_decision d e) ≠ "deleting").
  { rewrite Hnew. destruct (String.eqb_spec (be_status e) "deleting"); [by destruct d|done]. }
  split; unfold task_ids, all_good, busy; cbn; rewrite ?Htasks; try done.
  - rewrite Hnew. destruct (_ =? _)%string; [destruct d; set_solver|done].
  - intros Hall. destruct (Hgood Hall) as [H1 H2]. split; [auto|]. rewrite Hnew.
    rewrite (H1 d Hd). by destruct (_ =? _)%string.
  - intros He. destruct (Hex He) as [H1 H2]. split.
    + intros Hb. destruct (H1 Hb) as [_ Hnil]. exfalso. by apply (app_cons_not_nil l1 l2 d).
    + intros [Hs|Hs]; apply H2; [by auto|]. rewrite Hnew in Hs.
      destruct (_ =? _)%string; [|by right]. destruct d; [done|by left].
Qed.

Lemma forallb_false_exists {A} (P : A → bool) l : forallb P l = false → ∃ x, x ∈ l ∧ P x = false.
Proof.
  induction l as [|x l IH]; simpl; [done|]. destruct (P x) eqn:E.
  - intros (y & Hy & HP)%IH. exists y. split; [by right|done].
  - intros _. exists x. split; [left|done].
Qed.

(** What the decision after an outcome says of the outcomes known then. *)
Lemma decide_entry_spec e :
  match decide_entry e with
  | Some Settle => Forall (λ t, bt_status t = "finished") (be_tasks e)
  | Some (Release _) => ∃ t, t ∈ be_tasks e ∧ bt_status t ≠ "finished" ∧
                             Forall (λ t, bt_status t ∈ _PURGE_TASK_TERMINAL_STATUSES) (be_tasks e)
  | None => be_status e = "deleted" ∨ ∃ t, t ∈ be_tasks e ∧ bt_status t ∉ _PURGE_TASK_TERMINAL_STATUSES
  end.
Proof.
  unfold decide_entry. destruct (forallb is_finished (be_tasks e)) eqn:Hf.
  - destruct (String.eqb_spec (be_status e) "deleted"); [by left|]. apply forallb_Forall in Hf.
    eapply Forall_impl; [done|]. intros t. by apply String.eqb_eq.
  - destruct (forallb (λ t, mem (bt_status t) _) (be_tasks e)) eqn:Ht.
    + apply forallb_false_exists in Hf as (t & Hin & Hn%String.eqb_neq). exists t. split_and!; [done..|].
      apply forallb_Forall in Ht. eapply Forall_impl; [done|]. intros x. by apply mem_spec.
    + right. apply forallb_false_exists in Ht as (t & Hin & Hn%mem_false). by exists t.
Qed.

(** The tasks after an outcome, and what is known of them. *)
Lemma marked_tasks ids i st b e e' todo open pending outcome early :
  NoDup ids → i ∈ open → st ∈ _PURGE_TASK_TERMINAL_STATUSES → mark_task i st b e = Some e' →
  purge_inv ids (mkPurge e todo open pending outcome early) →
  be_status e' = be_status e ∧ bt_id <$> be_tasks e' = bt_id <$> be_tasks e ∧
  ∀ t, t ∈ be_tasks e' →
    match <[i := st]> outcome !! bt_id t with
    | Some st => bt_status t = st ∧ st ∈ _PURGE_TASK_TERMINAL_STATUSES
    | None => bt_status t = "queued" ∧ bt_id t ∈ open ∖ {[i]}
    end.
Proof.
  intros Hnd Hi Hst Hm Hinv. unfold mark_task in Hm. destruct (decide _); [done|]. injection Hm as <-.
  cbn [be_status be_tasks]. split_and!; [done|apply merge_ids|].
  intros t (t0 & -> & Ht0)%list_elem_of_fmap. pose proof (pi_task _ _ Hinv t0 Ht0) as H0. cbn in H0.
  unfold merge_task. destruct (String.eqb_spec (bt_id t0) i) as [->|Hne].
  - cbn. by rewrite lookup_insert_eq.
  - rewrite lookup_insert_ne by done. destruct (outcome !! bt_id t0); [done|]. destruct H0. split; [done|set_solver].
Qed.

Lemma purge_inv_outcome ids i st b e e' todo open pending outcome early :
  NoDup ids → i ∈ open → st ∈ _PURGE_TASK_TERMINAL_STATUSES → mark_task i st b e = Some e' →
  purge_inv ids (mkPurge e todo open pending outcome early) →
  purge_inv ids (mkPurge e' todo (open ∖ {[i]}) (option_list (decide_entry e') ++ pending) (<[i := st]> outcome)
                   (early || match todo with [] => false | _ => true end)).
Proof.
  intros Hnd Hi Hst Hm Hinv. destruct (marked_tasks _ _ _ _ _ _ _ _ _ _ _ Hnd Hi Hst Hm Hinv) as (Hs & Hid & Htask).
  destruct Hinv as [Hids _ Hop Hout Hstat Hlive Hgood Hex]. unfold task_ids, all_good, busy in *. cbn in *.
  pose proof (decide_entry_spec e') as Hdec.
  assert (Hall : (∀ j s, <[i:=st]> outcome !! j = Some s → s = "finished") →
                 ∀ j s, outcome !! j = Some s → s = "finished").
  { intros H j s Hj. apply (H j). rewrite lookup_insert_ne; [done|]. intros <-.
    destruct (Hop i Hi) as [_ Hn]. congruence. }
  assert (Hknown : Forall (λ t, bt_status t = "finished") (be_tasks e') → ∀ j s, <[i:=st]> outcome !! j = Some s → s = "finished").
  { intros Hf j s Hj. assert (Hin : j ∈ bt_id <$> be_tasks e').
    { rewrite Hid. destruct (decide (j = i)) as [->|]; [by apply Hop|]. rewrite lookup_insert_ne in Hj by done. by eapply Hout. }
    apply list_elem_of_fmap in Hin as (t & -> & Ht). pose proof (Htask t Ht) as Hx. rewrite Hj in Hx.
    rewrite Forall_forall in Hf. destruct Hx as [<- _]. by apply Hf. }
  split; unfold task_ids, all_good, busy; cbn; rewrite ?Hid, ?Hs; try done.
  - intros j [Hj Hne]%elem_of_difference. rewrite lookup_insert_ne by set_solver. by apply Hop.
  - intros j s Hj. destruct (decide (j = i)) as [->|]; [by apply Hop|]. rewrite lookup_insert_ne in Hj by done. by eapply Hout.
  - intros Hne Hb Hdel. destruct (decide_entry e') as [d|]; [done|]. exfalso.
    destruct Hdec as [Hd|(t & Ht & Hn)]; [congruence|].
    pose proof (Htask t Ht) as Hx. destruct (<[i:=st]> outcome !! bt_id t); [destruct Hx; by subst|].
    apply Hb. right. destruct Hx. set_solver.
  - intros Hfin. destruct (Hgood (Hall Hfin)) as [H1 H2]. split; [|done].
    intros d [Hd|Hd]%elem_of_app; [|auto]. destruct (decide_entry e') as [[r|]|]; [|set_solver..].
    destruct Hdec as (t & Ht & Hn & Hterm). exfalso. rewrite Forall_forall in Hterm. pose proof (Hterm t Ht) as Hq.
    pose proof (Htask t Ht) as Hx. destruct (<[i:=st]> outcome !! bt_id t) as [s|] eqn:El.
    + destruct Hx as [Hx _]. apply Hn. rewrite Hx. by eapply Hfin.
    + destruct Hx as [Hqueued _]. rewrite Hqueued in Hq. clear -Hq. apply mem_spec in Hq. done.
  - intros [He Htodo]%orb_false_iff. destruct todo; [|done]. destruct (Hex He) as [H1 H2].
    destruct (H1 ltac:(right; set_solver)) as [Hdel ->]. rewrite app_nil_r. split.
    + intros [?|Hb]; [done|]. split; [done|].
      destruct (set_choose_L _ Hb) as (j & Hj). destruct (Hop j ltac:(set_solver)) as [Hjin Hjn].
      rewrite <-Hid in Hjin. apply list_elem_of_fmap in Hjin as (t & -> & Ht). pose proof (Htask t Ht) as Hx.
      rewrite lookup_insert_ne, Hjn in Hx by set_solver. destruct Hx as [Hq _].
      destruct (decide_entry e') as [[r|]|]; [..|done]; exfalso.
      * destruct Hdec as (_ & _ & _ & Hterm). rewrite Forall_forall in Hterm. specialize (Hterm t Ht).
        rewrite Hq in Hterm. by apply mem_spec in Hterm.
      * rewrite Forall_forall in Hdec. specialize (Hdec t Ht). congruence.
    + intros [Hse|Hse]; [|congruence]. destruct (decide_entry e') as [[r|]|]; [set_solver|by apply Hknown|set_solver].
Qed.

Lemma purge_inv_steps ids s s' : NoDup ids → steps purge_step s s' → purge_inv ids s → purge_inv ids s'.
Proof.
  intros Hnd. apply steps_invariant. intros a b Hstep. destruct Hstep; intros Hinv.
  - by apply purge_inv_register.
  - by eapply purge_inv_outcome.
  - by apply purge_inv_apply.
Qed.

(** The steps a purge still has at most. *)
Definition work (s : purge) : nat := 3 * length (p_todo s) + 2 * size (p_open s) + length (p_pending s).

Lemma purge_step_works s s' : purge_step s s' → work s' < work s.
Proof.
  destruct 1 as [i todo e open pending outcome early|i st b e e' todo open pending outcome early Hi Hst Hm|]; unfold work; cbn.
  - pose proof (size_union_alt ({[i]} : gset string) open) as Hu. rewrite size_singleton in Hu.
    assert (size (open ∖ {[i]}) ≤ size open) by (apply subseteq_size; set_solver). lia.
  - assert (size (open ∖ {[i]}) < size open) by (apply subset_size; set_solver).
    rewrite length_app. destruct (decide_entry e'); cbn; lia.
  - rewrite !length_app. cbn. lia.
Qed.

(** An outcome that is awaited can always be written. *)
Lemma open_task_is_marked ids s i :
  purge_inv ids s → i ∈ p_open s → ∃ e', mark_task i "finished" false (p_entry s) = Some e'.
Proof.
  intros Hinv Hi. destruct (pi_open _ _ Hinv i Hi) as [Hin Hno].
  apply list_elem_of_fmap in Hin as (t & -> & Ht). pose proof (pi_task _ _ Hinv t Ht) as Hq. rewrite Hno in Hq.
  unfold mark_task. case_decide as Heq; [|by eexists]. exfalso.
  apply list_elem_of_lookup in Ht as (n & Hn).
  assert (Hm : (merge_task (bt_id t) "finished" false <$> be_tasks (p_entry s)) !! n = Some t) by by rewrite Heq.
  rewrite list_lookup_fmap, Hn in Hm. unfold merge_task in Hm. cbn in Hm. rewrite String.eqb_refl in Hm.
  injection Hm as Hm. destruct Hq as [Hq _]. rewrite <-Hm in Hq. discriminate Hq.
Qed.

Lemma purge_progress ids s : purge_inv ids s → quiet s ∨ ∃ s', purge_step s s'.
Proof.
  intros Hinv. destruct s as [e todo open pending outcome early]. unfold quiet. cbn.
  destruct todo as [|i todo]; [|right; eexists; apply step_register].
  destruct pending as [|d l]; [|right; eexists; apply (step_apply d e [] open [] l)].
  destruct (decide (open = ∅)) as [->|Hne]; [by left|]. right.
  destruct (set_choose_L open Hne) as (i & Hi).
  destruct (open_task_is_marked _ _ i Hinv Hi) as (e' & Hm). eexists.
  by apply (step_outcome i "finished" false e e'); [|left|].
Qed.

Lemma quiet_purge_is_settled ids s :
  ids ≠ [] → purge_inv ids s → quiet s →
  be_status (p_entry s) ≠ "deleting" ∧
  ((∀ i, i ∈ ids → p_outcome s !! i = Some "finished") → be_status (p_entry s) = "deleted") ∧
  (p_early s = false → (∃ i st, i ∈ ids ∧ p_outcome s !! i = Some st ∧ st ≠ "finished") →
   be_status (p_entry s) = "recycled").
Proof.
  intros Hne [Hids Htask Hop Hout Hst Hlive Hgood Hex] (Ht & Ho & Hp).
  assert (Hnb : ¬ busy s) by (unfold busy; rewrite Ht, Ho; tauto).
  assert (Hndel : be_status (p_entry s) ≠ "deleting") by (intros Hd; by apply (Hlive Hne Hnb Hd)).
  split_and!; [done| |].
  - intros Hfin. destruct Hgood as [_ Hnr].
    { intros i st Hi. specialize (Hout i st Hi). rewrite Hfin in Hi; [congruence|].
      rewrite <-Hids. apply elem_of_app. by left. }
    apply elem_of_cons in Hst as [?|[?|[?|?%not_elem_of_nil]%elem_of_cons]%elem_of_cons]; done.
  - intros He (i & st & _ & Hi & Hbad). destruct (Hex He) as [_ Hg].
    apply elem_of_cons in Hst as [?|[Hd|[?|?%not_elem_of_nil]%elem_of_cons]%elem_of_cons]; [done| |done|done].
    exfalso. apply Hbad. apply (Hg (or_intror Hd) i st Hi).
Qed.

(** C11: A purge always comes to its end: however its registrations and outcomes
    interleave, it has a next step until nothing is left, and every step leaves less to
    do. At the end the recycle-bin entry is no longer being deleted; it is deleted when
    every task finished; and, when no outcome came before the last task was registered,
    it is handed back as recycled as soon as one task did not finish. *)
Theorem purges_settle logs ids s :
  NoDup ids → ids ≠ [] → steps purge_step (start_purge logs ids) s →
  (quiet s ∨ ∃ s', purge_step s s') ∧ (∀ s', purge_step s s' → work s' < work s) ∧
  (quiet s →
   be_status (p_entry s) ≠ "deleting" ∧
   ((∀ i, i ∈ ids → p_outcome s !! i = Some "finished") → be_status (p_entry s) = "deleted") ∧
   (p_early s = false → (∃ i st, i ∈ ids ∧ p_outcome s !! i = Some st ∧ st ≠ "finished") →
    be_status (p_entry s) = "recycled")).
Proof.
  intros Hnd Hne Hsteps.
  pose proof (purge_inv_steps ids _ _ Hnd Hsteps (purge_inv_start logs ids)) as Hinv.
  split_and!; [by eapply purge_progress|intros; by apply purge_step_works|by eapply quiet_purge_is_settled].
Qed.

(** Two tasks: the first finished, the second failed. *)
Definition ex_settled : purge :=
  mkPurge (mkEntryDoc "recycled" [mkTask "a" "finished" false; mkTask "b" "failed" true] ["delete_blocked_dependents"])
    [] ∅ [] {[ "b" := "failed"; "a" := "finished" ]} false.

Lemma ex_settled_reached : steps purge_step (start_purge [] ["a"; "b"]) ex_settled.
Proof.
  eapply steps_cons; [apply step_register|]. eapply steps_cons; [apply step_register|].
  eapply steps_cons; [eapply (step_outcome "a" "finished" false); [set_solver|left|vm_compute; reflexivity]|].
  eapply steps_cons; [eapply (step_outcome "b" "failed" true); [set_solver|right; left|vm_compute; reflexivity]|].
  eapply steps_cons; [apply (step_apply (Release true) _ _ _ [] [])|].
  match goal with |- steps _ ?x _ => replace x with ex_settled; [apply steps_refl|] end.
  vm_compute; reflexivity.
Qed.

Lemma purges_settle_witness : be_status (p_entry ex_settled) = "recycled".
Proof.
  apply (purges_settle [] ["a"; "b"] ex_settled).
  - apply (bool_decide_unpack _). vm_compute; reflexivity.
  - discriminate.
  - apply ex_settled_reached.
  - split; [reflexivity|split; reflexivity].
  - reflexivity.
  - exists "b", "failed". split; [right; left|split; [vm_compute; reflexivity|discriminate]].
Defined.

(** The first task finishes before the second is registered, and settles the entry:
    the second one fails and the entry stays deleted, with a disk that is not. *)
Definition ex_early : purge :=
  mkPurge (mkEntryDoc "deleted" [mkTask "a" "finished" false; mkTask "b" "failed" true] ["deleted"])
    [] ∅ [] {[ "b" := "failed"; "a" := "finished" ]} true.

Lemma early_outcome_deletes_a_failed_entry : steps purge_step (start_purge [] ["a"; "b"]) ex_early ∧ quiet ex_early.
Proof.
  split; [|split; [reflexivity|split; reflexivity]].
  eapply steps_cons; [apply step_register|].
  eapply steps_cons; [eapply (step_outcome "a" "finished" false); [set_solver|left|vm_compute; reflexivity]|].
  eapply steps_cons; [apply (step_apply Settle _ _ _ [] [])|].
  eapply steps_cons; [apply step_register|].
  eapply steps_cons; [eapply (step_outcome "b" "failed" true); [set_solver|right; left|vm_compute; reflexivity]|].
  eapply steps_cons; [apply (step_apply (Release true) _ _ _ [] [])|].
  match goal with |- steps _ ?x _ => replace x with ex_early; [apply steps_refl|] end.
  vm_compute; reflexivity.
Qed.

(** An entry that the loop puts in [deleting] has a task to wait for. *)
Lemma planned_entries_have_tasks rows storages uncovered lane has_consumer plans :
  plan_entry rows storages uncovered lane has_consumer = Deleting plans → plans ≠ [].
Proof.
  unfold plan_entry. destruct (all_deleted rows storages) eqn:Ha; [done|]. intros Hp ->.
  assert (Hnil : plans_of rows storages = []).
  { destruct uncovered as [[|]|]; [| |]; try done; by destruct (sorted_set _); simplify_eq. }
  apply forallb_false_exists in Ha as (st & (s & Hs & Hst)%list_elem_of_omap & Hne).
  assert (Hin : s ∈ plans_of rows storages).
  { apply list_elem_of_In, filter_In. rewrite <-list_elem_of_In, Hst. split; [done|].
    rewrite String.eqb_sym in Hne. by rewrite Hne. }
  rewrite Hnil in Hin. by apply not_elem_of_nil in Hin.
Qed.
