(* ===== verification/Swr.v ===== *)
(** * Stale-while-revalidate caches

    [component/_common/src/isardvdi_common/helpers/stale_while_revalidate.py]: caches
    that serve a stale value at once while one background refresh runs.

    The state is shared by threads: the entries are objects on a heap, which a cache, a
    caller and a queued refresh refer to, so an entry outlives its removal from the
    cache. A block under [self._lock] is one step; a block and the [ready.set()] that
    follows it are one step too, for a waiter can only be delayed in between. The one
    daemon worker takes the refreshes in the order of the queue. Times are milliseconds
    of [time.monotonic]. A cache of [ttl] 0 keeps nothing ([get] calls [fetch]) and is
    not part of the state. The log of the fetches that ended, and the epochs, which
    count the calls of [clear], are for the statements only. A fetch ends with a value or an
    [Exception]; a [BaseException] raised in the background refresh, which the code does not
    catch, is not modelled (it would leave the entry marked as refreshing). *)
From S2P Require Import Prelude.

Open Scope Z_scope.

Definition MIN_RETRY_INTERVAL_S : Z := 2000.
Definition FETCH_WAIT_TIMEOUT_S : Z := 60000.

(** The exceptions a caller gets. *)
Inductive swr_error := CacheUnavailable | FetchError (name : string) | SubmitError.

Section entry.
Context {V : Type}.

(** [_Entry]; [value] and [has_value] are one option. *)
Record Entry := mkEntry {
  e_value : option V;
  e_fetched_at : Z;
  e_refreshing : bool;
  e_refresh_started : Z;
  e_overdue_logged : bool;
  e_retry_at : Z;
  e_ready : nat;
  e_error : option swr_error;
}.

(** [ready] is the event [ev], which nobody has set. *)
Definition new_entry (ev : nat) : Entry := mkEntry None 0 false 0 false 0 ev None.

Record config := mkConfig { c_ttl : Z; c_max_stale : option Z; c_refresh_deadline : Z }.

Definition _servable (cfg : config) (e : Entry) (now : Z) : bool :=
  match e_value e, c_max_stale cfg with
  | None, _ => false
  | Some _, None => true
  | Some _, Some m => now - e_fetched_at e <? m
  end.

(** [_start_refresh] before the job is handed over. *)
Definition _start_refresh (e : Entry) (now : Z) (ev : nat) : Entry :=
  mkEntry (e_value e) (e_fetched_at e) true now false (e_retry_at e) ev (e_error e).

(** Its [except]: the job was not handed over. *)
Definition unscheduled (e : Entry) : Entry :=
  mkEntry (e_value e) (e_fetched_at e) false (e_refresh_started e) (e_overdue_logged e) (e_retry_at e)
    (e_ready e) (e_error e).

Definition _claim_overdue (cfg : config) (e : Entry) (now : Z) : option Z * Entry :=
  if negb (e_refreshing e) || e_overdue_logged e then (None, e)
  else
    let running := now - e_refresh_started e in
    if running <? c_refresh_deadline cfg then (None, e)
    else (Some running, mkEntry (e_value e) (e_fetched_at e) (e_refreshing e) (e_refresh_started e) true
                          (e_retry_at e) (e_ready e) (e_error e)).

Inductive mode :=
  | Serve (value : V)
  | Expired (ready : nat) (remaining : Z)
  | Join (ready : nat)
  | Own (ready : nat).

(** The first block of [_read] under the lock: the entry, whether a refresh is to be
    handed to the worker, and the mode. [ev] is a new event. *)
Definition read_locked (cfg : config) (now : Z) (ev : nat) (e0 : Entry) : Entry * bool * mode :=
  let e := (_claim_overdue cfg e0 now).2 in
  match e_value e with
  | Some value =>
      if _servable cfg e now then
        if (c_ttl cfg <=? now - e_fetched_at e) && negb (e_refreshing e) && (e_retry_at e <=? now)
        then (_start_refresh e now ev, true, Serve value)
        else (e, false, Serve value)
      else
        let start := negb (e_refreshing e) in
        let e := if start then _start_refresh e now ev else e in
        (e, start, Expired (e_ready e) (c_refresh_deadline cfg - (now - e_refresh_started e)))
  | None =>
      if e_refreshing e then (e, false, Join (e_ready e))
      else (mkEntry None (e_fetched_at e) true now (e_overdue_logged e) (e_retry_at e) ev None, false, Own ev)
  end.

(** The second block, after the event was set: the value, the error, or once more. *)
Inductive after_wait := Return (value : V) | RaiseError (x : swr_error) | Again.

Definition read_again (cfg : config) (now : Z) (e : Entry) : after_wait :=
  match e_value e with
  | Some v => if _servable cfg e now then Return v
              else match e_error e with Some x => RaiseError x | None => Again end
  | None => match e_error e with Some x => RaiseError x | None => Again end
  end.

(** The ends of a fetch of the caller and of a background refresh. *)
Definition own_done (now : Z) (v : V) (e : Entry) : Entry :=
  mkEntry (Some v) now false (e_refresh_started e) (e_overdue_logged e) (e_retry_at e) (e_ready e) None.
Definition own_failed (x : swr_error) (e : Entry) : Entry :=
  mkEntry (e_value e) (e_fetched_at e) false (e_refresh_started e) (e_overdue_logged e) (e_retry_at e)
    (e_ready e) (Some x).
Definition job_done (now : Z) (v : V) (e : Entry) : Entry :=
  mkEntry (Some v) now false (e_refresh_started e) (e_overdue_logged e) 0 (e_ready e) None.
Definition job_failed (now : Z) (x : swr_error) (e : Entry) : Entry :=
  mkEntry (e_value e) (e_fetched_at e) false (e_refresh_started e) (e_overdue_logged e)
    (now + MIN_RETRY_INTERVAL_S) (e_ready e) (Some x).

End entry.
Arguments Entry : clear implicits.
Arguments mode : clear implicits.
Arguments after_wait : clear implicits.

(** ** The heap, and the two caches on it *)
Record heap (V : Type) := mkHeap {
  h_entries : gmap nat (Entry V);
  h_next : nat;      (** the next object *)
  h_event : nat;     (** the next event *)
}.
Arguments mkHeap {V} _ _ _.
Arguments h_entries {V} _.
Arguments h_next {V} _.
Arguments h_event {V} _.

(** [_Entry()] *)
Definition alloc {V} (h : heap V) : nat * heap V :=
  (h_next h, mkHeap (<[h_next h := new_entry (h_event h)]> (h_entries h)) (S (h_next h)) (S (h_event h))).

(** What [_read] and [clear] need of a cache: the entry of a key, the removal of all
    the entries, and the entries it refers to. *)
Class Cache (V C K : Type) := {
  entry_of : K → C → heap V → nat * C * heap V;
  clear : C → heap V → C * heap V;
  refs : C → list nat;
}.

Class CacheLaws (V C K : Type) `{Cache V C K} := {
  (** the entry is one the cache had, or a new one *)
  entry_of_law k c h i c' h' :
    entry_of k c h = (i, c', h') →
    i ∈ refs c' ∧
    ((h' = h ∧ ∀ j, j ∈ refs c' → j ∈ refs c) ∨
     (i = h_next h ∧ h' = (alloc h).2 ∧ ∀ j, j ∈ refs c' → j = i ∨ j ∈ refs c));
  (** nothing of the past is left *)
  clear_law c h c' h' :
    clear c h = (c', h') →
    (h' = h ∧ refs c' = []) ∨ (h' = (alloc h).2 ∧ refs c' = [h_next h]);
}.

(** *** [StaleWhileRevalidate]: one entry *)
Definition _current_entry {V} (_ : unit) (c : nat) (h : heap V) : nat * nat * heap V := (c, c, h).
Definition plain_clear {V} (c : nat) (h : heap V) : nat * heap V := alloc h.

#[export] Instance plain_cache V : Cache V nat unit :=
  {| entry_of := _current_entry; clear := plain_clear; refs := λ c, [c] |}.

#[export] Instance plain_cache_laws V : CacheLaws V nat unit.
Proof.
  split.
  - intros [] c h i c' h' [= <- <- <-]. split; [left|]. by left.
  - intros c h c' h' Hc. injection Hc as <- <-. by right.
Qed.

(** *** [KeyedStaleWhileRevalidate]: an ordered dictionary of entries *)
Record keyed := mkKeyed { k_maxsize : nat; k_entries : list (string * nat) }.

Definition lookup_key (k : string) (l : list (string * nat)) : option nat :=
  snd <$> find (λ x, (x.1 =? k)%string) l.
Definition remove_key (k : string) (l : list (string * nat)) : list (string * nat) :=
  List.filter (λ x, negb (x.1 =? k)%string) l.

Definition entry_refreshing {V} (h : heap V) (i : nat) : bool :=
  match h_entries h !! i with Some e => e_refreshing e | None => false end.
Definition entry_has_value {V} (h : heap V) (i : nat) : bool :=
  match h_entries h !! i with Some e => match e_value e with Some _ => true | None => false end | None => false end.

(** The key [_evict_one] drops: of the first empty entry, else of the first one, that
    no refresh works on. *)
Definition victim {V} (h : heap V) (l : list (string * nat)) : option string :=
  match find (λ x, negb (entry_refreshing h x.2) && negb (entry_has_value h x.2)) l with
  | Some x => Some x.1
  | None => fst <$> find (λ x, negb (entry_refreshing h x.2)) l
  end.

Definition _evict_one {V} (h : heap V) (l : list (string * nat)) : list (string * nat) :=
  match victim h l with Some k => remove_key k l | None => l end.

Definition _entry_for {V} (key : string) (c : keyed) (h : heap V) : nat * keyed * heap V :=
  match lookup_key key (k_entries c) with
  | None =>
      let l := if (k_maxsize c <=? length (k_entries c))%nat then _evict_one h (k_entries c) else k_entries c in
      let '(i, h) := alloc h in
      (i, mkKeyed (k_maxsize c) (l ++ [(key, i)]), h)
  | Some i => (i, mkKeyed (k_maxsize c) (remove_key key (k_entries c) ++ [(key, i)]), h)
  end.

Definition keyed_clear {V} (c : keyed) (h : heap V) : keyed * heap V := (mkKeyed (k_maxsize c) [], h).

#[export] Instance keyed_cache V : Cache V keyed string :=
  {| entry_of := _entry_for; clear := keyed_clear; refs := λ c, snd <$> k_entries c |}.

(** [currsize] of the two caches *)
Definition plain_currsize {V} (c : nat) (h : heap V) : nat := if entry_has_value h c then 1 else 0.
Definition keyed_currsize {V} (c : keyed) (h : heap V) : nat :=
  length (List.filter (λ x, entry_has_value h x.2) (k_entries c)).

(** ** Callers, refreshes and time *)
Section system.
Context {V C K : Type} `{Cache V C K} (cfg : config).

(** A caller; [since] is the epoch in which its call began. *)
Inductive caller :=
  | Looping (k : K) (since : nat)                                       (** before [entry_of()] *)
  | Looking (k : K) (i : nat) (since : nat)                             (** before the lock *)
  | Waiting (k : K) (i : nat) (ready : nat) (until : Z) (since : nat)
  | Awake (k : K) (i : nat) (since : nat)                               (** the event was set *)
  | Fetching (k : K) (i : nat) (ready : nat) (since start : nat)        (** runs [fetch()] itself *)
  | Returned (v : V) (at_ : Z) (i : nat) (since : nat)
  | Raised (x : swr_error).

(** A fetch that ended: its entry, its value, when it ended, and the epoch it was
    begun in (or handed to the worker). *)
Record fetched := mkFetched { f_entry : nat; f_value : V; f_at : Z; f_start : nat }.

Record sys := mkSys {
  s_now : Z;
  s_heap : heap V;
  s_cache : C;
  s_set : gset nat;                   (** the events that are set *)
  s_callers : gmap nat caller;
  s_jobs : list (nat * nat);          (** the queue: entry and epoch; the worker runs the first *)
  s_epoch : nat;
  s_log : list fetched;
}.

Definition with_caller (s : sys) (t : nat) (c : caller) : sys :=
  mkSys (s_now s) (s_heap s) (s_cache s) (s_set s) (<[t := c]> (s_callers s)) (s_jobs s) (s_epoch s) (s_log s).

(** The heap after a block that took a new event. *)
Definition set_entry (h : heap V) (i : nat) (e : Entry V) : heap V :=
  mkHeap (<[i := e]> (h_entries h)) (h_next h) (S (h_event h)).

(** Where a caller goes after the first block. *)
Definition after_lock (now : Z) (k : K) (i since epoch : nat) (m : mode V) : caller :=
  match m with
  | Serve v => Returned v now i since
  | Expired ready remaining => if remaining <=? 0 then Raised CacheUnavailable
                               else Waiting k i ready (now + remaining) since
  | Join ready => Waiting k i ready (now + FETCH_WAIT_TIMEOUT_S) since
  | Own ready => Fetching k i ready since epoch
  end.

Inductive swr_step : sys → sys → Prop :=
  | step_tick s d : 0 ≤ d →
      swr_step s (mkSys (s_now s + d) (s_heap s) (s_cache s) (s_set s) (s_callers s) (s_jobs s) (s_epoch s) (s_log s))
  | step_get s t k : s_callers s !! t = None →
      swr_step s (with_caller s t (Looping k (s_epoch s)))
  | step_entry s t k since i c' h' :
      s_callers s !! t = Some (Looping k since) → entry_of k (s_cache s) (s_heap s) = (i, c', h') →
      swr_step s (mkSys (s_now s) h' c' (s_set s) (<[t := Looking k i since]> (s_callers s)) (s_jobs s)
                    (s_epoch s) (s_log s))
  | step_lock s t k i since e e' submit m :
      s_callers s !! t = Some (Looking k i since) → h_entries (s_heap s) !! i = Some e →
      read_locked cfg (s_now s) (h_event (s_heap s)) e = (e', submit, m) →
      swr_step s (mkSys (s_now s) (set_entry (s_heap s) i e') (s_cache s) (s_set s)
                    (<[t := after_lock (s_now s) k i since (s_epoch s) m]> (s_callers s))
                    (if submit : bool then s_jobs s ++ [(i, s_epoch s)] else s_jobs s) (s_epoch s) (s_log s))
  | step_unscheduled s t k i since e e' m :
      s_callers s !! t = Some (Looking k i since) → h_entries (s_heap s) !! i = Some e →
      read_locked cfg (s_now s) (h_event (s_heap s)) e = (e', true, m) →
      swr_step s (mkSys (s_now s) (set_entry (s_heap s) i (unscheduled e')) (s_cache s) (s_set s)
                    (<[t := Raised SubmitError]> (s_callers s)) (s_jobs s) (s_epoch s) (s_log s))
  | step_wake s t k i ready until since :
      s_callers s !! t = Some (Waiting k i ready until since) → ready ∈ s_set s →
      swr_step s (with_caller s t (Awake k i since))
  | step_timeout s t k i ready until since :
      s_callers s !! t = Some (Waiting k i ready until since) → ready ∉ s_set s → until ≤ s_now s →
      swr_step s (with_caller s t (Raised CacheUnavailable))
  | step_again s t k i since e :
      s_callers s !! t = Some (Awake k i since) → h_entries (s_heap s) !! i = Some e →
      swr_step s (with_caller s t
        (match read_again cfg (s_now s) e with
         | Return v => Returned v (s_now s) i since
         | RaiseError x => Raised x
         | Again => Looping k since
         end))
  | step_own_done s t k i ready since start e v :
      s_callers s !! t = Some (Fetching k i ready since start) → h_entries (s_heap s) !! i = Some e →
      swr_step s (mkSys (s_now s) (set_entry (s_heap s) i (own_done (s_now s) v e)) (s_cache s)
                    ({[ready]} ∪ s_set s) (<[t := Returned v (s_now s) i since]> (s_callers s)) (s_jobs s)
                    (s_epoch s) (mkFetched i v (s_now s) start :: s_log s))
  | step_own_failed s t k i ready since start e name :
      s_callers s !! t = Some (Fetching k i ready since start) → h_entries (s_heap s) !! i = Some e →
      swr_step s (mkSys (s_now s) (set_entry (s_heap s) i (own_failed (FetchError name) e)) (s_cache s)
                    ({[ready]} ∪ s_set s) (<[t := Raised (FetchError name)]> (s_callers s)) (s_jobs s)
                    (s_epoch s) (s_log s))
  | step_job_done s i start jobs e v :
      s_jobs s = (i, start) :: jobs → h_entries (s_heap s) !! i = Some e →
      swr_step s (mkSys (s_now s) (set_entry (s_heap s) i (job_done (s_now s) v e)) (s_cache s)
                    ({[e_ready e]} ∪ s_set s) (s_callers s) jobs (s_epoch s)
                    (mkFetched i v (s_now s) start :: s_log s))
  | step_job_failed s i start jobs e name :
      s_jobs s = (i, start) :: jobs → h_entries (s_heap s) !! i = Some e →
      swr_step s (mkSys (s_now s) (set_entry (s_heap s) i (job_failed (s_now s) (FetchError name) e)) (s_cache s)
                    ({[e_ready e]} ∪ s_set s) (s_callers s) jobs (s_epoch s) (s_log s))
  | step_clear s c' h' :
      clear (s_cache s) (s_heap s) = (c', h') →
      swr_step s (mkSys (s_now s) h' c' (s_set s) (s_callers s) (s_jobs s) (S (s_epoch s)) (s_log s)).

(** A cache that was just built. *)
Definition starts (s : sys) : Prop :=
  s_callers s = ∅ ∧ s_jobs s = [] ∧ s_log s = [] ∧ s_epoch s = 0%nat ∧
  (∀ i, i ∈ refs (s_cache s) → ∃ ev, h_entries (s_heap s) !! i = Some (new_entry ev)) ∧
  (∀ i e, h_entries (s_heap s) !! i = Some e → i ∈ refs (s_cache s) ∧ (i < h_next (s_heap s))%nat).

(** The fetches under way: by a caller, or by the worker (running or queued). *)
Definition fetches (c : caller) : option nat :=
  match c with Fetching _ i _ _ _ => Some i | _ => None end.
Definition caller_fetch (s : sys) (t : nat) : option nat := s_callers s !! t ≫= fetches.
Definition queued (s : sys) : list nat := fst <$> s_jobs s.

End system.

(** ** One fetch at a time *)

(** The flags of the entries, the queue and the callers that fetch agree. *)
Record flights (refreshing : nat → bool) (jobs : list nat) (own : nat → option nat) : Prop := {
  fl_nodup : NoDup jobs;
  fl_one t t' i : own t = Some i → own t' = Some i → t = t';
  fl_apart t i : own t = Some i → i ∉ jobs;
  fl_flag i : refreshing i = true ↔ i ∈ jobs ∨ ∃ t, own t = Some i;
}.

Lemma flights_same r r' jobs o o' :
  (∀ i, r' i = r i) → (∀ t, o' t = o t) → flights r jobs o → flights r' jobs o'.
Proof.
  intros Hr Ho [H1 H2 H3 H4]. split; [done|..].
  - intros t t' i. rewrite !Ho. apply H2.
  - intros t i. rewrite Ho. apply H3.
  - intros i. rewrite Hr, H4. by setoid_rewrite Ho.
Qed.

(** A refresh is handed to the worker. *)
Lemma flights_push r r' jobs o o' i :
  r i = false → (∀ j, r' j = if decide (j = i) then true else r j) → (∀ t, o' t = o t) →
  flights r jobs o → flights r' (jobs ++ [i]) o'.
Proof.
  intros Hi Hr Ho [H1 H2 H3 H4].
  assert (Hn : ¬ (i ∈ jobs ∨ ∃ t, o t = Some i)) by (rewrite <-H4; congruence).
  split.
  - apply NoDup_app. split_and!; [done| |apply NoDup_singleton].
    intros x Hx ->%list_elem_of_singleton. apply Hn. by left.
  - intros t t' j. rewrite !Ho. apply H2.
  - intros t j. rewrite Ho. intros Hj [?| ->%list_elem_of_singleton]%elem_of_app; [by eapply H3|].
    apply Hn. right. by exists t.
  - intros j. rewrite Hr, elem_of_app, list_elem_of_singleton. setoid_rewrite Ho.
    destruct (decide (j = i)) as [->|Hne]; [tauto|]. rewrite H4. tauto.
Qed.

(** A caller begins a fetch of its own. *)
Lemma flights_own r r' jobs o o' t i :
  r i = false → (∀ j, r' j = if decide (j = i) then true else r j) → o t = None →
  (∀ x, o' x = if decide (x = t) then Some i else o x) →
  flights r jobs o → flights r' jobs o'.
Proof.
  intros Hi Hr Ht Ho [H1 H2 H3 H4].
  assert (Hn : ¬ (i ∈ jobs ∨ ∃ t, o t = Some i)) by (rewrite <-H4; congruence).
  split; [done|..].
  - intros x y j. rewrite !Ho. do 2 destruct (decide _); subst; [done|..]; intros; simplify_eq; eauto;
      exfalso; apply Hn; eauto.
  - intros x j. rewrite Ho. destruct (decide _); [|apply H3]. intros [= <-] ?. apply Hn. by left.
  - intros j. rewrite Hr. destruct (decide (j = i)) as [->|Hne].
    + split; [intros _; right; exists t; rewrite Ho; by rewrite decide_True|done].
    + rewrite H4. split; (intros [?|[x Hx]]; [by left|right; exists x]); revert Hx; rewrite Ho;
        destruct (decide (x = t)) as [->|]; congruence.
Qed.

(** The fetch of a caller ends. *)
Lemma flights_own_end r r' jobs o o' t i :
  o t = Some i → (∀ j, r' j = if decide (j = i) then false else r j) →
  (∀ x, o' x = if decide (x = t) then None else o x) →
  flights r jobs o → flights r' jobs o'.
Proof.
  intros Ht Hr Ho [H1 H2 H3 H4]. split; [done|..].
  - intros x y j. rewrite !Ho. do 2 destruct (decide _); try done. apply H2.
  - intros x j. rewrite Ho. destruct (decide _); [done|apply H3].
  - intros j. rewrite Hr. destruct (decide (j = i)) as [->|Hne].
    + split; [done|]. intros [Hj|[x Hx]]; [by apply (H3 t i Ht) in Hj|]. rewrite Ho in Hx.
      destruct (decide (x = t)); [done|]. by rewrite (H2 x t i Hx Ht) in *.
    + rewrite H4. split; (intros [?|[x Hx]]; [by left|right; exists x]); revert Hx; rewrite Ho;
        destruct (decide (x = t)) as [->|]; congruence.
Qed.

(** The worker ends the first refresh of the queue. *)
Lemma flights_pop r r' i jobs o o' :
  (∀ j, r' j = if decide (j = i) then false else r j) → (∀ t, o' t = o t) →
  flights r (i :: jobs) o → flights r' jobs o'.
Proof.
  intros Hr Ho [[Hni Hnd]%NoDup_cons H2 H3 H4]. split; [done|..].
  - intros t t' j. rewrite !Ho. apply H2.
  - intros t j. rewrite Ho. intros Hj Hin. apply (H3 t j Hj). by right.
  - intros j. rewrite Hr. setoid_rewrite Ho. destruct (decide (j = i)) as [->|Hne].
    + split; [done|]. intros [?|[t Ht]]; [done|]. exfalso. apply (H3 t i Ht). left.
    + rewrite H4, elem_of_cons. naive_solver.
Qed.

Lemma claim_overdue_same {V} cfg (e : Entry V) now :
  let e' := (_claim_overdue cfg e now).2 in
  e_value e' = e_value e ∧ e_fetched_at e' = e_fetched_at e ∧ e_refreshing e' = e_refreshing e.
Proof. unfold _claim_overdue. destruct (_ || _); [done|]. by destruct (_ <? _). Qed.

(** The first block keeps the value; it hands over a refresh, or makes the caller
    fetch, only when no fetch of the entry is under way, and then the entry says so. *)
Lemma read_locked_spec {V} cfg now ev (e e' : Entry V) submit m :
  read_locked cfg now ev e = (e', submit, m) →
  e_value e' = e_value e ∧ e_fetched_at e' = e_fetched_at e ∧
  (match m with
   | Own _ => submit = false ∧ e_refreshing e = false ∧ e_refreshing e' = true
   | _ => if submit then e_refreshing e = false ∧ e_refreshing e' = true
          else e_refreshing e' = e_refreshing e
   end) ∧
  (∀ v, m = Serve v → e_value e = Some v ∧ _servable cfg e now = true).
Proof.
  unfold read_locked. destruct (claim_overdue_same cfg e now) as (Hv & Hf & Hr).
  set (e1 := (_claim_overdue cfg e now).2) in *.
  assert (Hs : _servable cfg e1 now = _servable cfg e now) by (unfold _servable; by rewrite Hv, Hf).
  destruct (e_value e1) as [v|] eqn:Ev.
  - destruct (_servable cfg e1 now) eqn:Es.
    + destruct (e_refreshing e1) eqn:Er; [rewrite andb_false_r; cbn [andb]|rewrite andb_true_r];
        [|destruct (_ && _)]; intros [= <- <- <-]; cbn; rewrite ?Ev; split_and!; try congruence; try done;
        intros v' [= <-]; split; congruence.
    + destruct (e_refreshing e1) eqn:Er; intros [= <- <- <-]; cbn; rewrite ?Ev; split_and!; try done; congruence.
  - destruct (e_refreshing e1) eqn:Er; intros [= <- <- <-]; cbn; rewrite ?Ev; split_and!; try done; congruence.
Qed.

Section invariant.
Context {V C K : Type} `{HL : CacheLaws V C K} (cfg : config).
Notation sys := (@sys V C K).

Definition heap_ids (h : heap V) : Prop := ∀ i e, h_entries h !! i = Some e → (i < h_next h)%nat.

Definition flights_ok (s : sys) : Prop :=
  heap_ids (s_heap s) ∧ flights (entry_refreshing (s_heap s)) (queued s) (caller_fetch s).

Lemma refreshing_set (h : heap V) i e j :
  entry_refreshing (set_entry h i e) j = if decide (j = i) then e_refreshing e else entry_refreshing h j.
Proof.
  unfold entry_refreshing, set_entry. cbn. destruct (decide (j = i)) as [->|].
  - by rewrite lookup_insert_eq.
  - by rewrite lookup_insert_ne.
Qed.

Lemma refreshing_alloc (h : heap V) j : heap_ids h → entry_refreshing (alloc h).2 j = entry_refreshing h j.
Proof.
  intros Hids. unfold entry_refreshing, alloc. cbn. destruct (decide (j = h_next h)) as [->|].
  - rewrite lookup_insert_eq. destruct (h_entries h !! h_next h) eqn:E; [|done]. apply Hids in E. lia.
  - by rewrite lookup_insert_ne.
Qed.

Lemma heap_ids_set (h : heap V) i e e0 :
  h_entries h !! i = Some e0 → heap_ids h → heap_ids (set_entry h i e).
Proof. intros Hi Hids j x. cbn. intros [[<- _]|[_ Hj]]%lookup_insert_Some; eauto. Qed.

Lemma heap_ids_alloc (h : heap V) : heap_ids h → heap_ids (alloc h).2.
Proof. intros Hids j x. cbn. intros [[<- _]|[_ Hj%Hids]]%lookup_insert_Some; lia. Qed.

Lemma fetch_insert (s : sys) t c x :
  (<[t := c]> (s_callers s) !! x) ≫= fetches = if decide (x = t) then fetches c else caller_fetch s x.
Proof.
  destruct (decide (x = t)) as [->|]; [by rewrite lookup_insert_eq|by rewrite lookup_insert_ne].
Qed.

Lemma fetch_of (s : sys) t c : s_callers s !! t = Some c → caller_fetch s t = fetches c.
Proof. intros Ht. unfold caller_fetch. by rewrite Ht. Qed.

Lemma refreshing_of (h : heap V) i e : h_entries h !! i = Some e → entry_refreshing h i = e_refreshing e.
Proof. intros Hi. unfold entry_refreshing. by rewrite Hi. Qed.

(** A caller that neither begins nor ends a fetch. *)
Lemma flights_caller (s s' : sys) t c c' :
  s_callers s !! t = c → c ≫= fetches = None →
  s_callers s' = <[t := c']> (s_callers s) → fetches c' = None → s_jobs s' = s_jobs s →
  (∀ i, entry_refreshing (s_heap s') i = entry_refreshing (s_heap s) i) → heap_ids (s_heap s') →
  flights_ok s → flights_ok s'.
Proof.
  intros Ht Hc Hcs Hc' Hj Hr Hids [_ Hf]. split; [done|]. unfold queued. rewrite Hj.
  eapply flights_same; [exact Hr| |exact Hf]. intros x. unfold caller_fetch at 1. rewrite Hcs, fetch_insert.
  destruct (decide (x = t)) as [->|]; [|done]. unfold caller_fetch. by rewrite Ht, Hc, Hc'.
Qed.

Lemma after_lock_fetches now k i since epoch (m : mode V) :
  fetches (after_lock (K := K) now k i since epoch m) = match m with Own _ => Some i | _ => None end.
Proof. destruct m; simpl; try done. by destruct (_ <=? _). Qed.

(** The entry keeps its flag. *)
Lemma refreshing_kept (h : heap V) i e e' :
  h_entries h !! i = Some e → e_refreshing e' = e_refreshing e →
  ∀ j, entry_refreshing (set_entry h i e') j = entry_refreshing h j.
Proof.
  intros Hi He j. rewrite refreshing_set. destruct (decide (j = i)) as [->|]; [|done].
  by rewrite He, (refreshing_of _ _ _ Hi).
Qed.

(** The first block of a read. *)
Lemma flights_lock (s s' : sys) t k i since e e' submit m :
  s_callers s !! t = Some (Looking k i since) → h_entries (s_heap s) !! i = Some e →
  read_locked cfg (s_now s) (h_event (s_heap s)) e = (e', submit, m) →
  s_heap s' = set_entry (s_heap s) i e' →
  s_callers s' = <[t := after_lock (s_now s) k i since (s_epoch s) m]> (s_callers s) →
  s_jobs s' = (if submit : bool then s_jobs s ++ [(i, s_epoch s)] else s_jobs s) →
  flights_ok s → flights_ok s'.
Proof.
  intros Ht Hi Hread Hh Hc Hj Hok. pose proof Hok as [Hids Hf].
  destruct (read_locked_spec _ _ _ _ _ _ _ Hread) as (_ & _ & Hm & _).
  pose proof (refreshing_of _ _ _ Hi) as Hri. pose proof (fetch_of _ _ _ Ht) as Hft. cbn in Hft.
  assert (Hids' : heap_ids (s_heap s')) by (rewrite Hh; by eapply heap_ids_set).
  assert (Ho : ∀ x, caller_fetch s' x
    = if decide (x = t) then match m with Own _ => Some i | _ => None end else caller_fetch s x).
  { intros x. unfold caller_fetch at 1. by rewrite Hc, fetch_insert, after_lock_fetches. }
  assert (Hr : ∀ j, entry_refreshing (s_heap s') j
    = if decide (j = i) then e_refreshing e' else entry_refreshing (s_heap s) j).
  { rewrite Hh. apply refreshing_set. }
  destruct (match m with Own _ => true | _ => false end) eqn:Em.
  - destruct m as [| | |r]; try done. destruct Hm as (-> & Hre & Hre'). split; [done|]. unfold queued. rewrite Hj.
    eapply (flights_own _ _ _ _ _ t i); [|intros j; rewrite Hr, Hre'; done|done|done|exact Hf]. congruence.
  - assert (Ho' : ∀ x, caller_fetch s' x = caller_fetch s x).
    { intros x. rewrite Ho. destruct (decide (x = t)) as [->|]; [rewrite Hft; by destruct m|done]. }
    assert (Hm' : if submit then e_refreshing e = false ∧ e_refreshing e' = true else e_refreshing e' = e_refreshing e)
      by by destruct m.
    split; [done|]. unfold queued. rewrite Hj. destruct submit.
    + destruct Hm' as [Hre Hre']. rewrite fmap_app.
      eapply (flights_push _ _ _ _ _ i); [|intros j; rewrite Hr, Hre'; done|done|exact Hf]. congruence.
    + eapply flights_same; [|exact Ho'|exact Hf]. rewrite Hh. by eapply refreshing_kept.
Qed.

(** The fetch of a caller ends. *)
Lemma flights_end_own (s s' : sys) t c c' i e e' :
  s_callers s !! t = Some c → fetches c = Some i → h_entries (s_heap s) !! i = Some e →
  s_heap s' = set_entry (s_heap s) i e' → e_refreshing e' = false →
  s_callers s' = <[t := c']> (s_callers s) → fetches c' = None → s_jobs s' = s_jobs s →
  flights_ok s → flights_ok s'.
Proof.
  intros Ht Hc Hi Hh He' Hcs Hc' Hj [Hids Hf]. split; [rewrite Hh; by eapply heap_ids_set|].
  unfold queued. rewrite Hj. eapply (flights_own_end _ _ _ _ _ t i); [| | |exact Hf].
  - by rewrite (fetch_of _ _ _ Ht).
  - intros j. by rewrite Hh, refreshing_set, He'.
  - intros x. unfold caller_fetch at 1. by rewrite Hcs, fetch_insert, Hc'.
Qed.

(** The worker ends a refresh. *)
Lemma flights_end_job (s s' : sys) i start jobs e e' :
  s_jobs s = (i, start) :: jobs → h_entries (s_heap s) !! i = Some e →
  s_heap s' = set_entry (s_heap s) i e' → e_refreshing e' = false →
  s_callers s' = s_callers s → s_jobs s' = jobs →
  flights_ok s → flights_ok s'.
Proof.
  intros Hjobs Hi Hh He' Hcs Hj [Hids Hf]. split; [rewrite Hh; by eapply heap_ids_set|].
  unfold queued in *. rewrite Hj. rewrite Hjobs in Hf. eapply (flights_pop _ _ i); [| |exact Hf].
  - intros j. by rewrite Hh, refreshing_set, He'.
  - intros x. unfold caller_fetch. by rewrite Hcs.
Qed.

Lemma flights_step (s s' : sys) : swr_step cfg s s' → flights_ok s → flights_ok s'.
Proof.
  intros Hstep Hok. pose proof Hok as [Hids Hf]. destruct Hstep.
  - done.
  - eapply flights_caller; eauto; done.
  - destruct (entry_of_law _ _ _ _ _ _ H1) as [_ [[-> _]|(_ & -> & _)]];
      (eapply flights_caller; [exact H0|done|done|done|done| | |done]); cbn [s_heap]; try done.
    + intros j. by apply refreshing_alloc.
    + by apply heap_ids_alloc.
  - eapply flights_lock; eauto.
  - destruct (read_locked_spec _ _ _ _ _ _ _ H2) as (_ & _ & Hm & _).
    eapply flights_caller; [exact H0|done|done|done|done| | |done]; cbn [s_heap]; [|by eapply heap_ids_set].
    eapply refreshing_kept; [done|]. cbn. by destruct m; destruct Hm.
  - eapply flights_caller; eauto; done.
  - eapply flights_caller; eauto; done.
  - eapply flights_caller; [exact H0|done|done|by destruct (read_again _ _ _)|done..].
  - eapply flights_end_own; eauto; done.
  - eapply flights_end_own; eauto; done.
  - eapply flights_end_job; eauto; done.
  - eapply flights_end_job; eauto; done.
  - destruct (clear_law _ _ _ _ H0) as [[-> _]|[-> _]]; [done|]. split; [by apply heap_ids_alloc|].
    eapply flights_same; [|done|exact Hf]. intros j. by apply refreshing_alloc.
Qed.

Lemma flights_start (s : sys) : starts s → flights_ok s.
Proof.
  intros (Hc & Hj & _ & _ & Hrefs & Hent). split; [by intros i e [_ ?]%Hent|].
  unfold queued, caller_fetch. rewrite Hc, Hj. split.
  - apply NoDup_nil_2.
  - intros t t' i. by rewrite lookup_empty.
  - intros t i. by rewrite lookup_empty.
  - intros i. unfold entry_refreshing. split.
    + destruct (h_entries (s_heap s) !! i) as [e|] eqn:E; [|done].
      destruct (Hent i e E) as [Hi _]. destruct (Hrefs i Hi) as [ev Hev]. rewrite E in Hev. by simplify_eq.
    + intros [?%not_elem_of_nil|[t Ht]]; [done|]. by rewrite lookup_empty in Ht.
Qed.

Lemma flights_reached (s0 s : sys) : starts s0 → steps (swr_step cfg) s0 s → flights_ok s.
Proof. intros H0 Hs. eapply steps_invariant; [apply flights_step|done|by apply flights_start]. Qed.

End invariant.

(** ** What a caller gets *)
Section values.
Context {V C K : Type} `{HL : CacheLaws V C K} (cfg : config).
Notation sys := (@sys V C K).

(** The value [v] came out of a fetch that ended at the time [at_] or before, within
    [max_stale] of it, and that was begun in the epoch [since] or later. *)
Definition fresh_return (log : list (@fetched V)) (v : V) (at_ : Z) (since : nat) : Prop :=
  ∃ f, f ∈ log ∧ f_value f = v ∧ f_at f ≤ at_ ∧ (since ≤ f_start f)%nat ∧
       (f_at f = at_ ∨ match c_max_stale cfg with None => True | Some m => at_ - f_at f < m end).

(** [birth] is the epoch in which an entry was made. *)
Definition caller_ok (birth : nat → nat) (next epoch : nat) (log : list fetched) (c : @caller V K) : Prop :=
  match c with
  | Looping _ since => (since ≤ epoch)%nat
  | Looking _ i since | Waiting _ i _ _ since | Awake _ i since => (i < next ∧ since ≤ birth i ≤ epoch)%nat
  | Fetching _ i _ since start => (i < next ∧ since ≤ birth i ≤ start)%nat
  | Returned v at_ _ since => fresh_return log v at_ since
  | Raised _ => True
  end.

Record data_inv (birth : nat → nat) (s : sys) : Prop := {
  di_heap : heap_ids (s_heap s);
  di_refs i : i ∈ refs (s_cache s) → (i < h_next (s_heap s))%nat ∧ birth i = s_epoch s;
  di_callers t c : s_callers s !! t = Some c → caller_ok birth (h_next (s_heap s)) (s_epoch s) (s_log s) c;
  di_jobs i start : (i, start) ∈ s_jobs s → (i < h_next (s_heap s) ∧ birth i ≤ start)%nat;
  di_entries i e v : h_entries (s_heap s) !! i = Some e → e_value e = Some v →
    ∃ f, f ∈ s_log s ∧ f_value f = v ∧ f_at f = e_fetched_at e ∧ f_at f ≤ s_now s ∧ (birth i ≤ f_start f)%nat;
}.

Lemma caller_ok_mono birth birth' next next' epoch epoch' log log' c :
  (∀ i, (i < next)%nat → birth' i = birth i) → (next ≤ next')%nat → (epoch ≤ epoch')%nat →
  (∀ f, f ∈ log → f ∈ log') →
  caller_ok birth next epoch log c → caller_ok birth' next' epoch' log' c.
Proof.
  intros Hb Hn He Hl. destruct c; cbn; try lia; try (intros [? ?]; rewrite Hb by done; lia).
  intros (f & Hf & H'). exists f. auto.
Qed.

(** A servable value of an entry is a fresh return for who looked the entry up. *)
Lemma servable_fresh birth s i e v since :
  data_inv birth s → h_entries (s_heap s) !! i = Some e → e_value e = Some v →
  _servable cfg e (s_now s) = true → (since ≤ birth i)%nat →
  fresh_return (s_log s) v (s_now s) since.
Proof.
  intros Hinv Hi Hv Hs Hb. destruct (di_entries _ _ Hinv i e v Hi Hv) as (f & Hf & Hfv & Hfa & Hle & Hst).
  exists f. split_and!; [done..|lia|]. right. unfold _servable in Hs. rewrite Hv in Hs.
  destruct (c_max_stale cfg) as [m|]; [|done]. lia.
Qed.

(** A step of one caller, which may change its entry and add to the log and the queue. *)
Lemma data_inv_caller birth (s s' : sys) t c' :
  s_now s' = s_now s → s_epoch s' = s_epoch s → (∀ i, i ∈ refs (s_cache s') → i ∈ refs (s_cache s)) →
  h_next (s_heap s') = h_next (s_heap s) →
  s_callers s' = <[t := c']> (s_callers s) →
  (∀ f, f ∈ s_log s → f ∈ s_log s') →
  (∀ i start, (i, start) ∈ s_jobs s' → (i, start) ∈ s_jobs s ∨ (i < h_next (s_heap s) ∧ birth i ≤ start)%nat) →
  (∀ i e v, h_entries (s_heap s') !! i = Some e → e_value e = Some v →
     (∃ e0, h_entries (s_heap s) !! i = Some e0 ∧ e_value e0 = Some v ∧ e_fetched_at e = e_fetched_at e0) ∨
     (∃ f, f ∈ s_log s' ∧ f_value f = v ∧ f_at f = e_fetched_at e ∧ f_at f ≤ s_now s ∧ (birth i ≤ f_start f)%nat)) →
  (∀ i, is_Some (h_entries (s_heap s') !! i) → is_Some (h_entries (s_heap s) !! i)) →
  caller_ok birth (h_next (s_heap s')) (s_epoch s') (s_log s') c' →
  data_inv birth s → data_inv birth s'.
Proof.
  intros Hnow Hep Hca Hnx Hcs Hlog Hjobs Hent Hdom Hc' [Hh Hr Hc Hj He]. split.
  - intros i e Hi. rewrite Hnx. destruct (Hdom i ltac:(eauto)) as [e0 He0]. eauto.
  - intros i Hi%Hca. rewrite Hnx, Hep. auto.
  - intros x c. rewrite Hcs. intros [[<- <-]|[_ Hx]]%lookup_insert_Some; [done|].
    eapply caller_ok_mono; [done| | |done|by eapply Hc]; lia.
  - intros i start Hin. rewrite Hnx. destruct (Hjobs i start Hin); auto.
  - intros i e v Hi Hv. rewrite Hnow. destruct (Hent i e v Hi Hv) as [(e0 & Hi0 & Hv0 & Hf)|?]; [|done].
    destruct (He i e0 v Hi0 Hv0) as (f & Hin & H1 & H2 & H3). exists f. rewrite Hf. auto.
Qed.

Lemma data_inv_only birth (s s' : sys) t c' :
  s_now s' = s_now s → s_epoch s' = s_epoch s → (∀ i, i ∈ refs (s_cache s') → i ∈ refs (s_cache s)) →
  s_heap s' = s_heap s → s_callers s' = <[t := c']> (s_callers s) → s_log s' = s_log s → s_jobs s' = s_jobs s →
  caller_ok birth (h_next (s_heap s)) (s_epoch s) (s_log s) c' →
  data_inv birth s → data_inv birth s'.
Proof.
  intros Hnow Hep Hca Hh Hcs Hlog Hjobs Hc'. eapply (data_inv_caller birth s s' t c');
    rewrite ?Hlog, ?Hjobs, ?Hh, ?Hep; try done; auto. intros i e v Hi Hv. left. by exists e.
Qed.

Lemma set_entry_same (h : heap V) i e0 e' :
  h_entries h !! i = Some e0 → e_value e' = e_value e0 → e_fetched_at e' = e_fetched_at e0 →
  ∀ j e v, h_entries (set_entry h i e') !! j = Some e → e_value e = Some v →
    ∃ e1, h_entries h !! j = Some e1 ∧ e_value e1 = Some v ∧ e_fetched_at e = e_fetched_at e1.
Proof.
  intros Hi Hv Hf j e v. cbn. intros [[<- <-]|[_ Hj]]%lookup_insert_Some Hev; [|by exists e].
  exists e0. by rewrite <-Hv.
Qed.

Lemma set_entry_dom (h : heap V) i e0 e' :
  h_entries h !! i = Some e0 → ∀ j, is_Some (h_entries (set_entry h i e') !! j) → is_Some (h_entries h !! j).
Proof. intros Hi j [x Hx]. revert Hx. cbn. intros [[<- _]|[_ Hj]]%lookup_insert_Some; eauto. Qed.

(** A new entry, made now: by a lookup in this epoch, or by a clear in the next. *)
Lemma data_inv_alloc birth (s s' : sys) :
  let next := h_next (s_heap s) in
  let birth' := λ j, if decide (j = next) then s_epoch s' else birth j in
  s_now s' = s_now s → (s_epoch s ≤ s_epoch s')%nat → s_heap s' = (alloc (s_heap s)).2 →
  s_log s' = s_log s → s_jobs s' = s_jobs s →
  (∀ j, j ∈ refs (s_cache s') → j = next ∨ (j ∈ refs (s_cache s) ∧ s_epoch s' = s_epoch s)) →
  (∀ t c, s_callers s' !! t = Some c →
     s_callers s !! t = Some c ∨ caller_ok birth' (S next) (s_epoch s') (s_log s) c) →
  data_inv birth s → data_inv birth' s'.
Proof.
  intros next birth' Hnow Hep Hh Hlog Hjobs Hrefs Hcs [Hid Hr Hc Hj He].
  assert (Hb : ∀ i, (i < next)%nat → birth' i = birth i) by (intros i Hi; subst birth'; cbn; rewrite decide_False by lia; done).
  assert (Hnx : h_next (s_heap s') = S next) by by rewrite Hh.
  split.
  - rewrite Hh. by apply heap_ids_alloc.
  - intros j Hj'. rewrite Hnx. destruct (Hrefs j Hj') as [->|[Hj0 Heq]].
    + subst birth'. cbn. rewrite decide_True by done. split; [lia|done].
    + destruct (Hr j Hj0) as [Hlt Hbj]. rewrite Hb by done. split; [lia|congruence].
  - intros t c Ht. rewrite Hnx, Hlog. destruct (Hcs t c Ht) as [Ht0|?]; [|done].
    eapply caller_ok_mono; [exact Hb| | |done|by eapply Hc]; lia.
  - intros i start. rewrite Hjobs, Hnx. intros [Hi Hs]%Hj. rewrite Hb by done. lia.
  - intros i e v. rewrite Hh, Hlog, Hnow. cbn. intros [[<- <-]|[_ Hi]]%lookup_insert_Some Hv; [done|].
    rewrite Hb by (by eapply Hid). by eapply He.
Qed.

(** The first block of a read: the entry keeps its value and its age. *)
Lemma data_inv_lock birth (s s' : sys) t k i since e e' e'' submit m c' :
  s_callers s !! t = Some (Looking k i since) → h_entries (s_heap s) !! i = Some e →
  read_locked cfg (s_now s) (h_event (s_heap s)) e = (e', submit, m) →
  e_value e'' = e_value e' → e_fetched_at e'' = e_fetched_at e' →
  c' = after_lock (s_now s) k i since (s_epoch s) m ∨ (∃ x, c' = Raised x) →
  s_now s' = s_now s → s_epoch s' = s_epoch s → s_cache s' = s_cache s → s_log s' = s_log s →
  s_heap s' = set_entry (s_heap s) i e'' → s_callers s' = <[t := c']> (s_callers s) →
  (∀ x, x ∈ s_jobs s' → x ∈ s_jobs s ∨ x = (i, s_epoch s)) →
  data_inv birth s → data_inv birth s'.
Proof.
  intros Ht Hi Hread Hv'' Hf'' Hc' Hnow Hep Hca Hlog Hh Hcs Hjobs Hinv.
  destruct (read_locked_spec _ _ _ _ _ _ _ Hread) as (Hv & Hf & _ & Hserve).
  destruct (di_callers _ _ Hinv _ _ Ht) as [Hlt Hb].
  eapply (data_inv_caller birth s s' t c'); try done.
  - by rewrite Hca.
  - by rewrite Hh.
  - by rewrite Hlog.
  - intros j start [?|[= -> ->]]%Hjobs; [by left|right; lia].
  - intros j x v Hx Hxv. left. rewrite Hh in Hx. eapply (set_entry_same _ i e e''); [exact Hi|congruence|congruence|done|done].
  - rewrite Hh. by eapply set_entry_dom.
  - rewrite Hh, Hep, Hlog. destruct Hc' as [->|[x ->]]; [|done]. destruct m as [v|r rem|r|r]; cbn; try lia.
    + destruct (Hserve v eq_refl) as [Hev Hs]. eapply servable_fresh; try done. lia.
    + destruct (rem <=? 0); cbn; [done|lia].
Qed.

(** A fetch of the entry [i] ends with the value [v]. *)
Lemma fetched_entry birth (s : sys) (log : list fetched) i e e' v start :
  e_value e' = Some v → e_fetched_at e' = s_now s → (birth i ≤ start)%nat →
  h_entries (s_heap s) !! i = Some e → mkFetched i v (s_now s) start ∈ log →
  ∀ j x w, h_entries (set_entry (s_heap s) i e') !! j = Some x → e_value x = Some w →
     (∃ e0, h_entries (s_heap s) !! j = Some e0 ∧ e_value e0 = Some w ∧ e_fetched_at x = e_fetched_at e0) ∨
     (∃ f, f ∈ log ∧ f_value f = w ∧ f_at f = e_fetched_at x ∧ f_at f ≤ s_now s ∧ (birth j ≤ f_start f)%nat).
Proof.
  intros Hv Hf Hb Hi Hlog j x w. cbn. intros [[<- <-]|[_ Hj]]%lookup_insert_Some Hw; [|left; by exists x].
  right. exists (mkFetched i v (s_now s) start). simplify_eq. cbn. rewrite Hf. split_and!; done.
Qed.

(** The worker's step leaves the callers alone. *)
Lemma data_inv_worker birth (s s' : sys) i start jobs e e' :
  s_jobs s = (i, start) :: jobs → s_jobs s' = jobs → h_entries (s_heap s) !! i = Some e →
  s_heap s' = set_entry (s_heap s) i e' → s_now s' = s_now s → s_epoch s' = s_epoch s →
  s_cache s' = s_cache s → s_callers s' = s_callers s →
  (s_log s' = s_log s ∧ e_value e' = e_value e ∧ e_fetched_at e' = e_fetched_at e) ∨
  (∃ v, s_log s' = mkFetched i v (s_now s) start :: s_log s ∧ e_value e' = Some v ∧ e_fetched_at e' = s_now s) →
  data_inv birth s → data_inv birth s'.
Proof.
  intros Hjobs Hj Hi Hh Hnow Hep Hca Hcs Hcase Hinv. pose proof Hinv as [Hid Hr Hc Hjs He].
  destruct (Hjs i start) as [Hlt Hb]; [rewrite Hjobs; left|].
  assert (Hlog : ∀ f, f ∈ s_log s → f ∈ s_log s').
  { intros f Hf. destruct Hcase as [[-> _]|(v & -> & _)]; [done|by right]. }
  split.
  - rewrite Hh. by eapply heap_ids_set.
  - rewrite Hca, Hh, Hep. done.
  - intros t c. rewrite Hcs, Hh, Hep. intros Ht. eapply caller_ok_mono; [| | | |by eapply Hc]; done.
  - intros j st. rewrite Hj, Hh. intros Hin. apply Hjs. rewrite Hjobs. by right.
  - intros j x w Hx Hw. rewrite Hnow, Hh in *.
    assert (Hor : (∃ e0, h_entries (s_heap s) !! j = Some e0 ∧ e_value e0 = Some w ∧ e_fetched_at x = e_fetched_at e0) ∨
      (∃ f, f ∈ s_log s' ∧ f_value f = w ∧ f_at f = e_fetched_at x ∧ f_at f ≤ s_now s ∧ (birth j ≤ f_start f)%nat)).
    { destruct Hcase as [(Hl & Hv & Hf)|(v & Hl & Hv & Hf)].
      - left. by eapply set_entry_same.
      - eapply (fetched_entry birth s (s_log s') i e e' v start); try done. rewrite Hl. left. }
    destruct Hor as [(e0 & Hi0 & Hv0 & Hf)|?]; [|done].
    destruct (He j e0 w Hi0 Hv0) as (f & Hin & H1 & H2 & H3). exists f. rewrite Hf. auto.
Qed.

Lemma data_step (s s' : sys) : swr_step cfg s s' → (∃ birth, data_inv birth s) → ∃ birth, data_inv birth s'.
Proof.
  intros Hstep [birth Hinv]. pose proof Hinv as [Hid Hr Hc Hj He]. destruct Hstep.
  - exists birth. split; cbn; try done. intros i e v Hi Hv. destruct (He i e v Hi Hv) as (f & ? & ? & ? & ? & ?).
    exists f. split_and!; try done. lia.
  - exists birth. eapply (data_inv_only birth s _ t); try done. cbn. lia.
  - pose proof (Hc _ _ H0) as Hsince. cbn in Hsince.
    destruct (entry_of_law _ _ _ _ _ _ H1) as [Hi [[-> Hrefs]|(-> & -> & Hrefs)]].
    + exists birth. eapply (data_inv_only birth s _ t); try done.
      destruct (Hr i (Hrefs i Hi)) as [? Hbi]. cbn. rewrite Hbi. lia.
    + eexists. eapply (data_inv_alloc birth s); cbn; try done; eauto.
      * intros j [->|?]%Hrefs; auto.
      * intros x c [[<- <-]|[_ Hx]]%lookup_insert_Some; [right|by left]. cbn. rewrite decide_True by done. lia.
  - exists birth. eapply (data_inv_lock birth s _ t k i since e e' e'); try done; cbn; auto.
    intros x. destruct submit; [|auto]. intros [?|?%list_elem_of_singleton]%elem_of_app; auto.
  - exists birth. eapply (data_inv_lock birth s _ t k i since e e' (unscheduled e')); try done; cbn; eauto.
  - exists birth. eapply (data_inv_only birth s _ t); try done. by apply (Hc _ _ H0).
  - exists birth. eapply (data_inv_only birth s _ t); try done.
  - exists birth. eapply (data_inv_only birth s _ t); try done.
    destruct (Hc _ _ H0) as [Hlt Hb]. unfold read_again. destruct (e_value e) as [v|] eqn:Ev.
    + destruct (_servable cfg e (s_now s)) eqn:Es; [eapply servable_fresh; try done; lia|].
      destruct (e_error e); cbn; [done|lia].
    + destruct (e_error e); cbn; [done|lia].
  - exists birth. destruct (Hc _ _ H0) as [Hlt Hb]. eapply (data_inv_caller birth s _ t); cbn; try done; auto.
    + intros f Hf. by right.
    + apply (fetched_entry birth s _ i e (own_done (s_now s) v e) v start); [done|done|lia|done|left].
    + by eapply (set_entry_dom (s_heap s)).
    + exists (mkFetched i v (s_now s) start). cbn. split_and!; [left|done|lia|lia|by left].
  - exists birth. eapply (data_inv_caller birth s _ t); cbn; try done; auto.
    + intros j x w Hx Hw. left. by eapply (set_entry_same (s_heap s) i e (own_failed (FetchError name) e)).
    + by eapply (set_entry_dom (s_heap s)).
  - exists birth. eapply (data_inv_worker birth s); try done. right. by exists v.
  - exists birth. eapply (data_inv_worker birth s); try done. by left.
  - destruct (clear_law _ _ _ _ H0) as [[-> Hrefs]|[-> Hrefs]].
    + exists birth. split; cbn; try done.
      * rewrite Hrefs. intros i []%not_elem_of_nil.
      * intros t c Ht. eapply caller_ok_mono; [| | | |by eapply Hc]; try done. lia.
    + eexists. eapply (data_inv_alloc birth s); cbn; try done; auto.
      rewrite Hrefs. intros j ->%list_elem_of_singleton. by left.
Qed.

Lemma data_start (s : sys) : starts s → ∃ birth, data_inv birth s.
Proof.
  intros (Hc & Hj & Hl & Hep & Hrefs & Hent). exists (λ _, 0%nat). split.
  - by intros i e [_ ?]%Hent.
  - intros i Hi. destruct (Hrefs i Hi) as [ev Hev]. by apply Hent in Hev as [_ ?].
  - intros t c. by rewrite Hc, lookup_empty.
  - intros i start. by rewrite Hj; intros []%not_elem_of_nil.
  - intros i e v Hi Hv. destruct (Hent i e Hi) as [Hir _]. destruct (Hrefs i Hir) as [ev Hev].
    rewrite Hi in Hev. by simplify_eq.
Qed.

Lemma data_reached (s0 s : sys) : starts s0 → steps (swr_step cfg) s0 s → ∃ birth, data_inv birth s.
Proof. intros H0 Hs. eapply (steps_invariant (swr_step cfg) (λ s, ∃ birth, data_inv birth s)); [apply data_step|done|by apply data_start]. Qed.

End values.

(** ** The keyed cache *)
Lemma elem_of_remove_key k l x : x ∈ remove_key k l ↔ x ∈ l ∧ x.1 ≠ k.
Proof.
  unfold remove_key. rewrite !list_elem_of_In, filter_In, negb_true_iff, String.eqb_neq. done.
Qed.

Lemma lookup_key_Some k l i : lookup_key k l = Some i → (k, i) ∈ l.
Proof.
  unfold lookup_key. destruct (find _ l) as [[k' j]|] eqn:E; [|done]. intros [= <-].
  apply find_some in E as [Hin Hk%String.eqb_eq]. cbn in Hk. subst. by apply list_elem_of_In.
Qed.

Lemma lookup_key_None k l : lookup_key k l = None ↔ ∀ x, x ∈ l → x.1 ≠ k.
Proof.
  unfold lookup_key. rewrite fmap_None, find_None_Forall, Forall_forall.
  by setoid_rewrite String.eqb_neq.
Qed.

Lemma lookup_key_unique k i l : NoDup (fst <$> l) → (k, i) ∈ l → lookup_key k l = Some i.
Proof.
  intros Hnd Hin. destruct (lookup_key k l) as [j|] eqn:E.
  - apply lookup_key_Some in E. apply list_elem_of_lookup in Hin as [a Ha], E as [b Hb].
    assert (a = b) as ->.
    { eapply (NoDup_lookup (fst <$> l)); [done|..]; rewrite list_lookup_fmap, ?Ha, ?Hb; done. }
    congruence.
  - by eapply lookup_key_None in Hin.
Qed.

Lemma evict_subset {V} (h : heap V) l x : x ∈ _evict_one h l → x ∈ l.
Proof. unfold _evict_one. destruct (victim h l); [|done]. by intros [? _]%elem_of_remove_key. Qed.

#[export] Instance keyed_cache_laws V : CacheLaws V keyed string.
Proof.
  split.
  - intros k c h i c' h'. cbn. unfold _entry_for. destruct (lookup_key k (k_entries c)) as [j|] eqn:E.
    + intros [= <- <- <-]. cbn. rewrite fmap_app. split; [set_solver|]. left. split; [done|].
      intros x [(y & -> & [Hy _]%elem_of_remove_key)%list_elem_of_fmap|Hx]%elem_of_app.
      * by apply list_elem_of_fmap_2.
      * apply list_elem_of_singleton in Hx as ->. apply lookup_key_Some in E. by apply (list_elem_of_fmap_2 snd) in E.
    + intros [= <- <- <-]. cbn. rewrite fmap_app. split; [set_solver|]. right. split_and!; [done..|].
      intros x [(y & -> & Hy)%list_elem_of_fmap|Hx]%elem_of_app; [right|left; by apply list_elem_of_singleton in Hx].
      apply list_elem_of_fmap_2. destruct (_ <=? _)%nat; [by eapply evict_subset|done].
  - intros c h c' h' [= <- <-]. by left.
Qed.

(** What an eviction takes: nothing a refresh works on, and an entry with a value only
    when no idle entry is empty. *)
Lemma victim_spec {V} (h : heap V) l k :
  victim h l = Some k →
  ∃ i, (k, i) ∈ l ∧ entry_refreshing h i = false ∧
    (entry_has_value h i = true →
     ∀ x, x ∈ l → entry_refreshing h x.2 = false → entry_has_value h x.2 = true).
Proof.
  unfold victim. destruct (find _ l) as [[k' i]|] eqn:E.
  - intros [= <-]. apply find_some in E as [Hin [H1 H2]%andb_true_iff]. cbn in *. exists i.
    split_and!; [by apply list_elem_of_In|by apply negb_true_iff|]. intros Hv. by rewrite Hv in H2.
  - destruct (find (λ x, negb (entry_refreshing h x.2)) l) as [[k' i]|] eqn:E2; [|done]. intros [= <-].
    apply find_some in E2 as [Hin H1]. exists i. split_and!; [by apply list_elem_of_In|by apply negb_true_iff|].
    intros _ x Hx Hr. apply find_None_Forall in E. rewrite Forall_forall in E. specialize (E x Hx).
    cbn in E. rewrite Hr in E. cbn in E. by apply negb_false_iff.
Qed.

Lemma victim_None {V} (h : heap V) l :
  victim h l = None → ∀ x, x ∈ l → entry_refreshing h x.2 = true.
Proof.
  unfold victim. destruct (find _ l) as [?|] eqn:E; [done|]. intros Hn x Hx. apply fmap_None in Hn.
  apply find_None_Forall in Hn. rewrite Forall_forall in Hn. specialize (Hn x Hx). by apply negb_false_iff in Hn.
Qed.

Lemma length_remove_key k l :
  NoDup (fst <$> l) → k ∈ (fst <$> l) → S (length (remove_key k l)) = length l.
Proof.
  induction l as [|[k' i] l IH]; cbn; [by intros _ ?%not_elem_of_nil|].
  intros [Hni Hnd]%NoDup_cons [->|Hin]%elem_of_cons.
  - rewrite String.eqb_refl. cbn. f_equal. clear IH Hnd. induction l as [|[k i'] l IH]; cbn; [done|].
    cbn in Hni. apply not_elem_of_cons in Hni as [Hne Hni]. rewrite (proj2 (String.eqb_neq k k')) by done.
    cbn. by rewrite (IH Hni).
  - destruct (String.eqb_spec k' k) as [->|]; [done|]. cbn. f_equal. by apply IH.
Qed.

Lemma remove_key_sublist k l : remove_key k l `sublist_of` l.
Proof.
  induction l as [|x l IH]; cbn; [constructor|]. destruct (negb _); constructor; done.
Qed.

Lemma nodup_remove k l : NoDup (fst <$> l) → NoDup (fst <$> remove_key k l).
Proof. intros Hnd. eapply sublist_NoDup; [exact Hnd|]. apply fmap_sublist, remove_key_sublist. Qed.

(** ** Theorems *)

(** C9: However callers, the worker and [clear] interleave, at most one fetch of an entry
    is ever under way: no entry is queued twice, no two callers fetch it, none fetches
    what is queued, and the entry says that it is being refreshed exactly while a fetch
    of it is under way or queued. *)
Theorem one_fetch_per_entry {V C K} `{CacheLaws V C K} cfg (s0 s : @sys V C K) :
  starts s0 → steps (swr_step cfg) s0 s →
  NoDup (queued s) ∧
  (∀ t t' i, caller_fetch s t = Some i → caller_fetch s t' = Some i → t = t') ∧
  (∀ t i, caller_fetch s t = Some i → i ∉ queued s) ∧
  (∀ i, entry_refreshing (s_heap s) i = true ↔ i ∈ queued s ∨ ∃ t, caller_fetch s t = Some i).
Proof. intros H0' Hs. by destruct (flights_reached cfg s0 s H0' Hs) as [_ []]. Qed.

(** C17: Every value that a caller gets was fetched: by a fetch that ended no later, less
    than [max_stale] before it was handed out (or at that very moment), and that was
    begun after every [clear] that came before the call, so a cleared value never comes
    back. *)
Theorem returned_values_are_fresh {V C K} `{CacheLaws V C K} cfg (s0 s : @sys V C K) t v at_ i since :
  starts s0 → steps (swr_step cfg) s0 s → s_callers s !! t = Some (Returned v at_ i since) →
  ∃ f, f ∈ s_log s ∧ f_value f = v ∧ f_at f ≤ at_ ∧ (since ≤ f_start f)%nat ∧
       (f_at f = at_ ∨ match c_max_stale cfg with None => True | Some m => at_ - f_at f < m end).
Proof.
  intros H0' Hs Ht. destruct (data_reached cfg s0 s H0' Hs) as [birth Hinv].
  apply (di_callers _ _ _ Hinv t _ Ht).
Qed.

(** A lookup of the keyed cache keeps the keys distinct and gives the key its entry, as
    the most recent one; all that may go for it is one entry, when the cache is full, that
    no refresh works on, an entry with a value only when no idle entry is empty; and the
    cache grows past [maxsize] only while every entry of it is being refreshed. *)
Theorem evictions_are_safe {V} key c (h : heap V) i c' h' :
  NoDup (fst <$> k_entries c) → _entry_for key c h = (i, c', h') →
  NoDup (fst <$> k_entries c') ∧ lookup_key key (k_entries c') = Some i ∧
  last (k_entries c') = Some (key, i) ∧
  (∀ k j, k ≠ key → (k, j) ∈ k_entries c → (k, j) ∉ k_entries c' →
     (k_maxsize c ≤ length (k_entries c))%nat ∧ entry_refreshing h j = false ∧
     (entry_has_value h j = true →
      ∀ x, x ∈ k_entries c → entry_refreshing h x.2 = false → entry_has_value h x.2 = true)) ∧
  ((length (k_entries c') ≤ k_maxsize c `max` length (k_entries c))%nat ∨
   ∀ x, x ∈ k_entries c → entry_refreshing h x.2 = true).
Proof.
  intros Hnd. unfold _entry_for. destruct (lookup_key key (k_entries c)) as [i0|] eqn:E; intros [= <- <- <-]; cbn.
  - apply lookup_key_Some in E. assert (Hin : key ∈ (fst <$> k_entries c)) by by apply (list_elem_of_fmap_2 fst) in E.
    assert (Hnd' : NoDup (fst <$> remove_key key (k_entries c) ++ [(key, i0)])).
    { rewrite fmap_app. apply NoDup_app. split_and!; [by apply nodup_remove| |apply NoDup_singleton].
      intros k ([k' j] & -> & [_ Hne]%elem_of_remove_key)%list_elem_of_fmap Hk%list_elem_of_singleton. done. }
    split_and!; [done|apply lookup_key_unique; [done|set_solver]|apply last_snoc| |].
    + intros k j Hne Hk Hn. exfalso. apply Hn, elem_of_app. left. by apply elem_of_remove_key.
    + left. rewrite length_app. cbn. pose proof (length_remove_key key (k_entries c) Hnd Hin). lia.
  - pose proof (proj1 (lookup_key_None _ _) E) as Hno. set (l := if (k_maxsize c <=? length (k_entries c))%nat then _evict_one h (k_entries c) else k_entries c).
    assert (Hsub : ∀ x, x ∈ l → x ∈ k_entries c).
    { subst l. intros x. destruct (_ <=? _)%nat; [apply evict_subset|done]. }
    assert (Hndl : NoDup (fst <$> l)).
    { subst l. destruct (_ <=? _)%nat; [|done]. unfold _evict_one. destruct (victim _ _); [by apply nodup_remove|done]. }
    assert (Hnd' : NoDup (fst <$> l ++ [(key, h_next h)])).
    { rewrite fmap_app. apply NoDup_app. split_and!; [done| |apply NoDup_singleton].
      intros k ([k' j] & -> & Hx)%list_elem_of_fmap Hk%list_elem_of_singleton. by apply (Hno _ (Hsub _ Hx)). }
    split_and!; [done|apply lookup_key_unique; [done|set_solver]|apply last_snoc| |].
    + intros k j Hne Hk Hn. assert (Hl : (k, j) ∉ l) by set_solver. subst l.
      destruct (Nat.leb_spec (k_maxsize c) (length (k_entries c))) as [Hle|]; [|done]. split; [done|].
      unfold _evict_one in Hl. destruct (victim h (k_entries c)) as [k0|] eqn:Ev; [|done].
      destruct (decide (k = k0)) as [->|Hne0]; [|by destruct Hl; apply elem_of_remove_key].
      destruct (victim_spec h _ _ Ev) as (j0 & Hj0 & H1 & H2).
      apply (lookup_key_unique _ _ _ Hnd) in Hj0. apply (lookup_key_unique _ _ _ Hnd) in Hk. by simplify_eq.
    + rewrite length_app. cbn. subst l. destruct (Nat.leb_spec (k_maxsize c) (length (k_entries c))) as [Hle|Hlt]; [|left; lia].
      unfold _evict_one. destruct (victim h (k_entries c)) as [k0|] eqn:Ev; [|right; by apply victim_None].
      left. destruct (victim_spec h _ _ Ev) as (j0 & Hj0 & _). apply (list_elem_of_fmap_2 fst) in Hj0.
      pose proof (length_remove_key k0 _ Hnd Hj0). lia.
Qed.

(** A servable value is handed out at once. *)
Lemma warm_callers_never_wait {V} cfg now ev (e : Entry V) :
  _servable cfg e now = true → ∃ v e' submit, e_value e = Some v ∧ read_locked cfg now ev e = (e', submit, Serve v).
Proof.
  intros Hs. unfold read_locked. destruct (claim_overdue_same cfg e now) as (Hv & Hf & Hr).
  set (e1 := (_claim_overdue cfg e now).2) in *.
  assert (Hs1 : _servable cfg e1 now = true) by (unfold _servable in *; by rewrite Hv, Hf).
  rewrite Hs1. destruct (e_value e1) as [v|] eqn:Ev; [|by unfold _servable in Hs1; rewrite Ev in Hs1].
  destruct (_ && _ && _); eauto 10.
Qed.

(** ** Runs *)
Definition ex_cfg : config := mkConfig 30000 (Some 90000) 30000.
Definition ex_heap : heap Z := mkHeap {[ 0%nat := new_entry 0 ]} 1 1.
Definition ex_start : @sys Z nat unit := mkSys 0 ex_heap 0%nat ∅ ∅ [] 0 [].

Lemma ex_starts : starts ex_start.
Proof.
  split_and!; try done.
  - intros i ->%list_elem_of_singleton. by exists 0%nat.
  - intros i e. cbn. intros [<- _]%lookup_singleton_Some. split; [left|lia].
Qed.

(** One step of a run on concrete states. *)
Tactic Notation "run_step" uconstr(c) :=
  eapply steps_cons; [eapply c; first [lia | vm_compute; reflexivity | apply (bool_decide_unpack _); vm_compute; reflexivity]|];
  match goal with |- steps _ ?x _ => let y := eval vm_compute in x in change x with y end.

(** A caller that finds nothing fetches; a second one joins it, and both get its value. *)
Definition ex_served : @sys Z nat unit :=
  mkSys 7 (mkHeap {[ 0%nat := mkEntry (Some 42) 7 false 0 false 0 1%nat None ]} 1 4) 0%nat {[1%nat]}
    {[ 1%nat := Returned 42 7 0 0; 2%nat := Returned 42 7 0 0 ]} [] 0 [mkFetched 0 42 7 0].

(** Before that: the first caller fetches, the second one waits for it. *)
Definition ex_joined : @sys Z nat unit :=
  mkSys 0 (mkHeap {[ 0%nat := mkEntry None 0 true 0 false 0 1%nat None ]} 1 3) 0%nat ∅
    {[ 1%nat := Fetching tt 0 1 0 0; 2%nat := Waiting tt 0 1 60000 0 ]} [] 0 [].

Lemma ex_joined_reached : steps (swr_step ex_cfg) ex_start ex_joined.
Proof.
  run_step (step_get ex_cfg ex_start 1%nat tt).
  run_step (step_entry ex_cfg _ 1%nat).
  run_step (step_lock ex_cfg _ 1%nat).
  run_step (step_get ex_cfg _ 2%nat tt).
  run_step (step_entry ex_cfg _ 2%nat).
  run_step (step_lock ex_cfg _ 2%nat).
  apply steps_refl.
Qed.

Lemma ex_served_reached : steps (swr_step ex_cfg) ex_start ex_served.
Proof.
  eapply steps_trans; [apply ex_joined_reached|].
  run_step (step_tick ex_cfg ex_joined 7).
  run_step (step_own_done ex_cfg _ 1%nat _ _ _ _ _ _ 42).
  run_step (step_wake ex_cfg _ 2%nat).
  run_step (step_again ex_cfg _ 2%nat).
  apply steps_refl.
Qed.

Lemma one_fetch_per_entry_witness :
  caller_fetch ex_joined 1%nat = Some 0%nat ∧ entry_refreshing (s_heap ex_joined) 0%nat = true.
Proof.
  split; [vm_compute; reflexivity|].
  apply (proj2 (proj2 (proj2 (one_fetch_per_entry ex_cfg ex_start ex_joined ex_starts ex_joined_reached)))).
  right. exists 1%nat. vm_compute; reflexivity.
Defined.

Lemma returned_values_are_fresh_witness :
  ∃ f, f ∈ s_log ex_served ∧ f_value f = 42 ∧ f_at f ≤ 7 ∧ (0 ≤ f_start f)%nat ∧ (f_at f = 7 ∨ 7 - f_at f < 90000).
Proof.
  exact (returned_values_are_fresh ex_cfg ex_start ex_served 2%nat 42 7 0%nat 0%nat ex_starts ex_served_reached eq_refl).
Defined.

(** *** Where the code departs from its description *)

(** Two entries in a cache of one, none of them being refreshed. *)
Definition ex_two : heap Z :=
  mkHeap {[ 0%nat := mkEntry (Some 1) 0 false 0 false 0 0%nat None;
            1%nat := mkEntry (Some 2) 0 false 0 false 0 1%nat None ]} 2 2.
Definition ex_keyed : keyed := mkKeyed 1 [("a", 0%nat); ("b", 1%nat)].

Lemma evictions_are_safe_witness :
  last (k_entries (_entry_for "c" ex_keyed ex_two).1.2) = Some ("c", 2%nat).
Proof.
  exact (proj1 (proj2 (proj2 (evictions_are_safe "c" ex_keyed ex_two 2%nat _ _
    ltac:(apply (bool_decide_unpack _); vm_compute; reflexivity) eq_refl)))).
Defined.

(** A full cache drops one entry for a new one, so one that grew past its size while
    its entries were being refreshed keeps that size. *)
Lemma oversized_cache_never_shrinks {V} key c (h : heap V) :
  NoDup (fst <$> k_entries c) → (k_maxsize c ≤ length (k_entries c))%nat →
  (length (k_entries c) ≤ length (k_entries (_entry_for key c h).1.2))%nat.
Proof.
  intros Hnd Hle. unfold _entry_for. destruct (lookup_key key (k_entries c)) as [i|] eqn:E; cbn; rewrite length_app; cbn.
  - apply lookup_key_Some, (list_elem_of_fmap_2 fst) in E. pose proof (length_remove_key key _ Hnd E). lia.
  - rewrite (proj2 (Nat.leb_le _ _)) by done. unfold _evict_one. destruct (victim h (k_entries c)) as [k|] eqn:Ev; [|lia].
    destruct (victim_spec h _ _ Ev) as (j & Hj & _). apply (list_elem_of_fmap_2 fst) in Hj.
    pose proof (length_remove_key k _ Hnd Hj). lia.
Qed.

(** Past [max_stale] a refresh is started whatever the pause after a failure. *)
Lemma expired_read_ignores_the_pause {V} cfg now ev (e : Entry V) v m :
  e_value e = Some v → c_max_stale cfg = Some m → m ≤ now - e_fetched_at e → e_refreshing e = false →
  ∃ e' mode, read_locked cfg now ev e = (e', true, mode).
Proof.
  intros Hv Hm Hold Hr. unfold read_locked, _claim_overdue. rewrite Hr. cbn. rewrite Hv. unfold _servable.
  rewrite Hv, Hm. replace (now - e_fetched_at e <? m) with false by (symmetry; lia). rewrite Hr. cbn. eauto.
Qed.

(** Between the lookup of its entry and the lock, the entry of a caller can be evicted:
    two callers of one key then fetch at the same time. *)
Definition ex_keyed_start : @sys Z keyed string := mkSys 0 (mkHeap ∅ 0 0) (mkKeyed 1 []) ∅ ∅ [] 0 [].

Lemma two_fetches_of_one_key :
  ∃ s i j r r', steps (swr_step ex_cfg) ex_keyed_start s ∧
    s_callers s !! 1%nat = Some (Fetching "a" i r 0 0) ∧ s_callers s !! 3%nat = Some (Fetching "a" j r' 0 0).
Proof.
  eexists _, 0%nat, 2%nat, _, _. split.
  { run_step (step_get ex_cfg ex_keyed_start 1%nat "a").
    run_step (step_entry ex_cfg _ 1%nat).
    run_step (step_get ex_cfg _ 2%nat "b").
    run_step (step_entry ex_cfg _ 2%nat).
    run_step (step_get ex_cfg _ 3%nat "a").
    run_step (step_entry ex_cfg _ 3%nat).
    run_step (step_lock ex_cfg _ 1%nat).
    run_step (step_lock ex_cfg _ 3%nat).
    apply steps_refl. }
  split; vm_compute; reflexivity.
Qed.
