(* ===== verification/DiskActions.v ===== *)
(** * Disk actions

    [component/_common/src/isardvdi_common/lib/storage/actions.py] lists every action on a
    disk and decides which a disk admits; [models/storage.py] parks a disk for one of them
    ([set_maintenance]) and gives it back ([set_ready]).

    The facts an action is decided on are the status of the disk, the kind and status of
    the domains that use it, whether other disks read through it ([None] when the caller
    does not ask) and its permissions. Parking is a run of separate updates of the
    database; other writers come between them. *)
From S2P Require Import Prelude PyVal.

Inductive Access := WRITE | READ | CREATE.
#[export] Instance Access_eq_dec : EqDecision Access.
Proof. solve_decision. Defined.

Definition STOPPED : list string := ["Stopped"].
Definition RUNNING : list string := ["Started"; "Starting"; "Shutting-down"; "Stopping"; "Paused"].

Record DiskAction := mkAction {
  access : Access;
  statuses : option (list string);
  a_status_refusal : string;
  a_domains : option (list string);
  refuse_running : bool;
  running_refusal : string;
  children_block : bool;
  children_include_deleted : bool;
  refuse_read_only : bool;
  refuse_templates : bool;
  refuse_unused : bool;
}.

(** [DiskAction(access)] with its defaults, and the fields the registry sets. *)
Definition action_of (access : Access) : DiskAction :=
  mkAction access (Some ["ready"]) "storage_not_ready" (Some STOPPED) false "storage_open_not_checkable"
    true false false false false.
Definition with_statuses (s : option (list string)) (code : string) (a : DiskAction) : DiskAction :=
  mkAction (access a) s code (a_domains a) (refuse_running a) (running_refusal a) (children_block a)
    (children_include_deleted a) (refuse_read_only a) (refuse_templates a) (refuse_unused a).
Definition with_domains (d : option (list string)) (a : DiskAction) : DiskAction :=
  mkAction (access a) (statuses a) (a_status_refusal a) d (refuse_running a) (running_refusal a) (children_block a)
    (children_include_deleted a) (refuse_read_only a) (refuse_templates a) (refuse_unused a).
Definition without_children_block (a : DiskAction) : DiskAction :=
  mkAction (access a) (statuses a) (a_status_refusal a) (a_domains a) (refuse_running a) (running_refusal a) false
    (children_include_deleted a) (refuse_read_only a) (refuse_templates a) (refuse_unused a).
Definition any_status (a : DiskAction) : DiskAction := with_statuses None "storage_not_ready" a.

Definition _reader (running : bool) : DiskAction :=
  mkAction READ None "storage_not_ready" None running "storage_open_not_checkable" false false false false false.
Definition _fresh : DiskAction :=
  without_children_block (with_domains None (any_status (action_of CREATE))).
Definition _WRITER : DiskAction := action_of WRITE.

Definition DISK_ACTIONS : list (string * DiskAction) :=
  [("find", _reader false);
   ("check_backing_chain", _reader false);
   ("check_integrity", _reader true);
   ("create", _fresh);
   ("download", _fresh);
   ("derive", without_children_block (with_domains None (action_of CREATE)));
   ("move", with_statuses (Some ["ready"; "recycled"]) "storage_invalid_status_for_move" (action_of WRITE));
   ("migrate", without_children_block (with_domains None (any_status (action_of WRITE))));
   ("purge", without_children_block (with_domains None (any_status (action_of WRITE))));
   ("delete", any_status (action_of WRITE));
   ("template_from_desktop", without_children_block (with_domains None (action_of WRITE)));
   ("resize", _WRITER);
   ("virt_win_reg", _WRITER);
   ("sparsify", _WRITER);
   ("dig_holes", mkAction WRITE (Some ["ready"]) "storage_not_ready" (Some STOPPED) true
                   "storage_open_by_running_desktop" true true true true true);
   ("repair", with_domains (Some ["Stopped"; "Failed"])
                (with_statuses (Some ["ready"; "damaged"]) "storage_invalid_status_for_repair" (action_of WRITE)));
   ("disconnect", _WRITER);
   ("convert", _WRITER);
   ("recreate", _WRITER);
   ("set_path", _WRITER);
   ("delete_path", _WRITER);
   ("maintenance", _WRITER)].

Definition spec (action : string) : DiskAction := default _WRITER (assoc action DISK_ACTIONS).

Definition is_some {A} (o : option A) : bool := match o with Some _ => true | None => false end.

Definition needs_domains (action : string) : bool :=
  let entry := spec action in
  is_some (a_domains entry) || refuse_running entry || refuse_templates entry || refuse_unused entry.

Definition str_in (s : option string) (l : list string) : bool :=
  match s with Some s => mem s l | None => false end.

(** The domains that use a disk: kind and status. *)
Notation domain_facts := (list (option string * option string)).

(** The code of the refusal; the message only adds the id and the status. *)
Definition refusal (action : string) (status : option string) (domains : domain_facts)
    (has_children : option bool) (perms : option (list string)) : option string :=
  let entry := spec action in
  if match statuses entry with Some l => negb (str_in status l) | None => false end
  then Some (a_status_refusal entry)
  else if refuse_read_only entry && match perms with Some p => negb (mem "w" p) | None => false end
  then Some "storage_read_only"
  else if refuse_unused entry && match domains with [] => true | _ => false end
  then Some "storage_not_used_by_any_domain"
  else if refuse_templates entry && existsb (λ d, str_in d.1 ["template"]) domains
  then Some "storage_used_by_template"
  else if refuse_running entry && existsb (λ d, str_in d.2 RUNNING) domains
  then Some (running_refusal entry)
  else if match a_domains entry with Some l => existsb (λ d, negb (str_in d.2 l)) domains | None => false end
  then Some "desktops_not_stopped"
  else if children_block entry && match has_children with Some b => b | None => false end
  then Some "storage_has_children"
  else None.

Definition allowed_actions (status : option string) (domains : domain_facts)
    (has_children has_deleted_children : bool) (perms : option (list string)) : list string :=
  py_sorted String.leb
    (List.filter (λ action,
       negb (is_some (refusal action status domains
                        (Some (has_children || (has_deleted_children && children_include_deleted (spec action)))) perms)))
       (List.map fst DISK_ACTIONS)).

(** ** Parking a disk

    [set_maintenance] and [set_ready] are runs of separate reads and updates of the
    database, [update_document_if] being the conditional ones. Anybody may call either at
    any time, and everybody else may write the row of the disk and the rows of its domains
    at any time: the results of tasks ([write_status]), which give a disk back, are such
    writes, and so is [set_ready] of the API, which asks for nothing but a row in
    maintenance. The two updates of the status and of [current_action] of one domain are
    one step. [k_epoch], [k_flips] and [d_writer] are for the statements only: the number
    of updates of the row other than the conditional claim, the domains that calls have
    flipped with the status they had then, and the call that last wrote a domain. *)
Record dom := mkDom {
  d_kind : option string; d_status : option string; d_action : option string; d_writer : option nat;
}.

(** Where a call of [set_maintenance] or of [set_ready] stands. [epoch] is the one in which
    it claimed the row, [listed] the domains it then found. *)
Inductive call :=
  | Asked (action : string) (excluded : gset string)
  | Checked (action : string) (excluded : gset string) (was : option string)
  | Claimed (action : string) (excluded : gset string) (was : option string) (epoch : nat)
  | Flipping (action : string) (excluded : gset string) (was : option string) (epoch : nat)
      (listed todo : list string) (flipped : list (string * option string))
  | Undoing (was : option string) (epoch : nat) (flipped : list (string * option string))
  | Parked (action : string) (excluded : gset string) (epoch : nat) (listed : list string)
  | Releasing (todo : list string)
  | Released
  | Refused (code : string).

Record disk := mkDisk {
  k_status : option string;
  k_domains : gmap string dom;     (** the domains that use the disk *)
  k_children : bool * bool;        (** live ones, and ones in status [deleted] *)
  k_perms : option (list string);
  k_calls : gmap nat call;
  k_epoch : nat;
  k_flips : list (nat * string * option string);
}.

Definition set_call (t : nat) (c : call) (d : disk) : disk :=
  mkDisk (k_status d) (k_domains d) (k_children d) (k_perms d) (<[t := c]> (k_calls d)) (k_epoch d) (k_flips d).
(** An update of the row that is no conditional claim. *)
Definition set_disk_status (s : option string) (d : disk) : disk :=
  mkDisk s (k_domains d) (k_children d) (k_perms d) (k_calls d) (S (k_epoch d)) (k_flips d).
Definition set_domains (m : gmap string dom) (d : disk) : disk :=
  mkDisk (k_status d) m (k_children d) (k_perms d) (k_calls d) (k_epoch d) (k_flips d).
Definition set_domain (i : string) (x : dom) (d : disk) : disk := set_domains (<[i := x]> (k_domains d)) d.
Definition log_flip (t : nat) (i : string) (s : option string) (d : disk) : disk :=
  mkDisk (k_status d) (k_domains d) (k_children d) (k_perms d) (k_calls d) (k_epoch d) (k_flips d ++ [(t, i, s)]).

(** [_refusal]: the registry's answer on the disk as it is *)
Definition _refusal (action : string) (status : option string) (excluded : gset string) (d : disk) : option string :=
  let domains := if needs_domains action
                 then List.filter (λ x, negb (bool_decide (x.1 ∈ excluded))) (map_to_list (k_domains d)) else [] in
  refusal action status (List.map (λ x, (d_kind x.2, d_status x.2)) domains)
    (Some ((k_children d).1 || ((k_children d).2 && children_include_deleted (spec action))))
    (if refuse_read_only (spec action) then k_perms d else None).

(** The disks a new file is made for are not checked, and their domains not flipped. *)
Definition is_fresh (action : string) : bool :=
  bool_decide (access (spec action) = CREATE) && negb (is_some (statuses (spec action))).

Definition parks (action : string) : bool :=
  is_fresh action || (bool_decide (access (spec action) = WRITE) && is_some (a_domains (spec action))).

(** The first part of [set_maintenance]: the refusal, or the status it read. *)
Definition check_call (action : string) (excluded : gset string) (d : disk) : call :=
  if negb (parks action) then Refused "storage_invalid_maintenance_action"
  else match (if is_fresh action then None else _refusal action (k_status d) excluded d) with
       | Some code => Refused code
       | None => Checked action excluded (k_status d)
       end.

Definition claimed (action : string) (excluded : gset string) (was : option string) (epoch : nat) : call :=
  if is_fresh action then Parked action excluded epoch [] else Claimed action excluded was epoch.

(** The claim of the row: an update like any other for an action of any status, and else
    one with the test of the status in it. *)
Definition claim_call (t : nat) (action : string) (excluded : gset string) (was : option string) (d : disk) : disk :=
  match statuses (spec action) with
  | None => set_call t (claimed action excluded was (S (k_epoch d))) (set_disk_status (Some "maintenance") d)
  | Some l =>
      if str_in (k_status d) l
      then mkDisk (Some "maintenance") (k_domains d) (k_children d) (k_perms d)
             (<[t := claimed action excluded was (k_epoch d)]> (k_calls d)) (k_epoch d) (k_flips d)
      else set_call t (Refused (a_status_refusal (spec action))) d
  end.

(** Whether one domain of the loop is flipped: one the call is for is not asked. *)
Definition flips (action : string) (excluded : gset string) (i : string) (s : option string) : bool :=
  bool_decide (i ∈ excluded) || match a_domains (spec action) with Some l => str_in s l | None => false end.

Definition flip_domain (t : nat) (action : string) (x : dom) : dom :=
  mkDom (d_kind x) (Some "Maintenance") (Some action) (Some t).

(** [prior] is what the call read of a domain before it flipped it. *)
Inductive disk_step : disk → disk → Prop :=
  | k_ask d t action excluded :
      k_calls d !! t = None → disk_step d (set_call t (Asked action excluded) d)
  | k_check d t action excluded :
      k_calls d !! t = Some (Asked action excluded) →
      disk_step d (set_call t (check_call action excluded d) d)
  | k_claim d t action excluded was :
      k_calls d !! t = Some (Checked action excluded was) → disk_step d (claim_call t action excluded was d)
  | k_list d t action excluded was epoch :
      k_calls d !! t = Some (Claimed action excluded was epoch) →
      let ids := List.map fst (map_to_list (k_domains d)) in
      disk_step d (set_call t (Flipping action excluded was epoch ids ids []) d)
  | k_flip d t action excluded was epoch listed i todo flipped x prior :
      k_calls d !! t = Some (Flipping action excluded was epoch listed (i :: todo) flipped) →
      k_domains d !! i = Some x → flips action excluded i (d_status x) = true →
      disk_step d (log_flip t i (d_status x) (set_domain i (flip_domain t action x)
        (set_call t (Flipping action excluded was epoch listed todo
           (if bool_decide (i ∈ excluded) then flipped else flipped ++ [(i, prior)])) d)))
  | k_flip_fails d t action excluded was epoch listed i todo flipped :
      k_calls d !! t = Some (Flipping action excluded was epoch listed (i :: todo) flipped) →
      match k_domains d !! i with Some x => flips action excluded i (d_status x) = false | None => True end →
      disk_step d (set_call t (Undoing was epoch flipped) d)
  | k_parked d t action excluded was epoch listed flipped :
      k_calls d !! t = Some (Flipping action excluded was epoch listed [] flipped) →
      disk_step d (set_call t (Parked action excluded epoch listed) d)
  | k_undo d t was epoch i s flipped :
      k_calls d !! t = Some (Undoing was epoch ((i, s) :: flipped)) →
      disk_step d (set_domains (alter (λ x, mkDom (d_kind x) s None None) i (k_domains d))
        (set_call t (Undoing was epoch flipped) d))
  | k_undone d t was epoch :
      k_calls d !! t = Some (Undoing was epoch []) →
      disk_step d (set_disk_status was (set_call t (Refused "desktops_not_stopped") d))
  (** [set_ready], called by anybody: *)
  | k_ready d t :
      k_calls d !! t = None → k_status d = Some "maintenance" →
      disk_step d (set_call t (Releasing (List.map fst (map_to_list (k_domains d)))) d)
  | k_not_ready d t :
      k_calls d !! t = None → k_status d ≠ Some "maintenance" →
      disk_step d (set_call t (Refused "storage_not_maintenance") d)
  | k_release d t i todo :
      k_calls d !! t = Some (Releasing (i :: todo)) →
      disk_step d (set_domains (alter (λ x, mkDom (d_kind x) (Some "Stopped") None None) i (k_domains d))
        (set_call t (Releasing todo) d))
  | k_released d t :
      k_calls d !! t = Some (Releasing []) →
      disk_step d (set_disk_status (Some "ready") (set_call t Released d))
  (** every other writer: of the row, of the domains, of what reads through the disk *)
  | k_status_moves d s : disk_step d (set_disk_status s d)
  | k_domain_moves d i kind s action : disk_step d (set_domain i (mkDom kind s action None) d)
  | k_domain_goes d i : disk_step d (set_domains (delete i (k_domains d)) d)
  | k_children_move d c p :
      disk_step d (mkDisk (k_status d) (k_domains d) c p (k_calls d) (k_epoch d) (k_flips d)).

(** ** The registry *)
Lemma assoc_in {A} k (l : list (string * A)) v : assoc k l = Some v → (k, v) ∈ l.
Proof.
  induction l as [|[k' v'] l IH]; simpl; [done|]. destruct (String.eqb_spec k k') as [->|]; [intros [= ->]; left|].
  intros ?%IH. by right.
Qed.

(** A fact that holds of every entry holds of the entry of any label. *)
Lemma spec_forall (P : string → DiskAction → bool) action :
  forallb (λ x, P x.1 x.2) DISK_ACTIONS = true → P action _WRITER = true → P action (spec action) = true.
Proof.
  intros Hall Hdef. unfold spec. destruct (assoc action DISK_ACTIONS) as [a|] eqn:E; [|done].
  apply assoc_in in E. apply forallb_Forall in Hall. rewrite Forall_forall in Hall. by apply (Hall (action, a)).
Qed.


(** ** A claimed disk *)


















(** ** What the registry admits *)
Lemma refusal_None action status domains hc perms :
  refusal action status domains hc perms = None →
  (∀ l, statuses (spec action) = Some l → ∃ s, status = Some s ∧ s ∈ l) ∧
  (refuse_read_only (spec action) = true → ∀ p, perms = Some p → "w" ∈ p) ∧
  (refuse_unused (spec action) = true → domains ≠ []) ∧
  (refuse_templates (spec action) = true → ∀ x, x ∈ domains → x.1 ≠ Some "template") ∧
  (refuse_running (spec action) = true → ∀ x s, x ∈ domains → x.2 = Some s → s ∉ RUNNING) ∧
  (∀ l, a_domains (spec action) = Some l → ∀ x, x ∈ domains → ∃ s, x.2 = Some s ∧ s ∈ l) ∧
  (children_block (spec action) = true → hc ≠ Some true).
Proof.
  assert (Hin : ∀ s l, str_in s l = true → ∃ x, s = Some x ∧ x ∈ l).
  { intros [x|] l Hx; [|done]. exists x. by rewrite <-mem_spec. }
  assert (Hex : ∀ (P : option string * option string → bool), existsb P domains = false → ∀ x, x ∈ domains → P x = false).
  { intros P HP x Hx. apply existsb_false_Forall in HP. rewrite Forall_forall in HP. by apply HP. }
  unfold refusal. set (a := spec action). clearbody a.
  destruct (match statuses a with Some l => negb (str_in status l) | None => false end) eqn:E1; [done|].
  destruct (refuse_read_only a && _) eqn:E2; [done|]. destruct (refuse_unused a && _) eqn:E3; [done|].
  destruct (refuse_templates a && _) eqn:E4; [done|]. destruct (refuse_running a && _) eqn:E5; [done|].
  destruct (match a_domains a with Some l => _ | None => _ end) eqn:E6; [done|].
  destruct (children_block a && _) eqn:E7; [done|]. intros _. split_and!.
  - intros l Hl. rewrite Hl in E1. apply Hin. by apply negb_false_iff.
  - intros Hr p ->. rewrite Hr in E2. apply negb_false_iff, mem_spec in E2. done.
  - intros Hr ->. by rewrite Hr in E3.
  - intros Hr x Hx Ht. rewrite Hr in E4. pose proof (Hex _ E4 x Hx) as Hn. cbn in Hn. by rewrite Ht in Hn.
  - intros Hr x s Hx Hs Hrun. rewrite Hr in E5. pose proof (Hex _ E5 x Hx) as Hn. cbn in Hn. rewrite Hs in Hn.
    cbn [str_in] in Hn. apply mem_false in Hn. done.
  - intros l Hl x Hx. rewrite Hl in E6. pose proof (Hex _ E6 x Hx) as Hn. apply Hin. by apply negb_false_iff in Hn.
  - intros Hc ->. by rewrite Hc in E7.
Qed.

Lemma allowed_not_refused action status domains children deleted perms :
  action ∈ allowed_actions status domains children deleted perms →
  refusal action status domains (Some (children || (deleted && children_include_deleted (spec action)))) perms = None.
Proof.
  unfold allowed_actions. generalize (List.map fst DISK_ACTIONS). intros names.
  rewrite elem_of_py_sorted, list_elem_of_In, filter_In. intros [_ Hr]. by destruct (refusal _ _ _ _ _).
Qed.

(** The actions that write a disk whatever reads through it. *)
Definition UNGUARDED : list string := ["migrate"; "purge"; "template_from_desktop"].

(** What the registry says of the other ones. *)
Definition guarded_write (name : string) (a : DiskAction) : bool :=
  negb (bool_decide (access a = WRITE)) || mem name UNGUARDED ||
  (children_block a
   && match a_domains a with Some l => forallb (λ s, negb (mem s RUNNING)) l | None => false end
   && ((name =? "delete")%string
       || match statuses a with Some l => forallb (λ s, mem s ["ready"; "recycled"; "damaged"]) l | None => false end)).

Lemma guarded_registry : forallb (λ x, guarded_write x.1 x.2) DISK_ACTIONS = true.
Proof. vm_compute. reflexivity. Qed.

Lemma guarded_default name : guarded_write name _WRITER = true.
Proof. unfold guarded_write. apply orb_true_iff. right. cbn. apply orb_true_r. Qed.

Lemma spec_dig_holes :
  spec "dig_holes" = mkAction WRITE (Some ["ready"]) "storage_not_ready" (Some STOPPED) true
                       "storage_open_by_running_desktop" true true true true true.
Proof. vm_compute. reflexivity. Qed.

(** C25: An action that writes a disk is only offered for it, but for migrations, purges and
    the template of a desktop, when no other disk reads through it and no desktop that uses
    it is running, and, but for a deletion, when it is ready, recycled or damaged; digging holes moreover asks for a ready disk with write permission, a
    desktop and no template that uses it, and no deleted disk that may still read it. *)
Theorem writes_spare_shared_and_open_disks action status domains children deleted perms :
  action ∈ allowed_actions status domains children deleted perms →
  access (spec action) = WRITE → action ∉ UNGUARDED →
  children = false ∧ (∀ x s, x ∈ domains → x.2 = Some s → s ∉ RUNNING) ∧
  (action ≠ "delete" → ∃ s, status = Some s ∧ s ∈ ["ready"; "recycled"; "damaged"]) ∧
  (action = "dig_holes" →
   deleted = false ∧ status = Some "ready" ∧ domains ≠ [] ∧ (∀ p, perms = Some p → "w" ∈ p) ∧
   (∀ x, x ∈ domains → x.1 ≠ Some "template")).
Proof.
  intros Ha Hw Hu. apply allowed_not_refused, refusal_None in Ha as (R1 & R2 & R3 & R4 & R5 & R6 & R7).
  pose proof (spec_forall guarded_write action guarded_registry (guarded_default action)) as Hreg. unfold guarded_write in Hreg.
  rewrite Hw, bool_decide_true in Hreg by done. cbn [negb orb] in Hreg.
  apply mem_false in Hu. rewrite Hu in Hreg. cbn [orb] in Hreg.
  apply andb_true_iff in Hreg as [[Hcb Hdom]%andb_true_iff Hst].
  destruct (a_domains (spec action)) as [l|] eqn:Ed; [|done]. apply forallb_Forall in Hdom. rewrite Forall_forall in Hdom.
  specialize (R7 Hcb). split_and!.
  - by destruct children.
  - intros x s Hx Hs. destruct (R6 l eq_refl x Hx) as (s' & Hs' & Hl).
    rewrite Hs in Hs'. injection Hs' as <-. specialize (Hdom s Hl). cbv beta in Hdom. by apply negb_true_iff, mem_false in Hdom.
  - intros Hne. rewrite (proj2 (String.eqb_neq _ _)) in Hst by done. cbn [orb] in Hst.
    destruct (statuses (spec action)) as [ls|] eqn:Es; [|done]. destruct (R1 ls eq_refl) as (s & -> & Hs).
    exists s. split; [done|]. apply forallb_Forall in Hst. rewrite Forall_forall in Hst. apply mem_spec. by apply Hst.
  - intros ->. rewrite spec_dig_holes in R1, R2, R3, R4, R7. cbn in R1, R2, R3, R4, R7. split_and!; [by destruct deleted, children| |auto..].
    destruct (R1 _ eq_refl) as (s & -> & [->|?%not_elem_of_nil]%elem_of_cons); done.
Qed.

Lemma writes_spare_shared_and_open_disks_witness :
  "dig_holes" ∈ allowed_actions (Some "ready") [(Some "desktop", Some "Stopped")] false false (Some ["r"; "w"]) ∧
  ¬ "Stopped" ∈ RUNNING.
Proof.
  assert (Ha : "dig_holes" ∈ allowed_actions (Some "ready") [(Some "desktop", Some "Stopped")] false false (Some ["r"; "w"]))
    by (apply mem_spec; vm_compute; reflexivity).
  split; [exact Ha|].
  exact (proj1 (proj2 (writes_spare_shared_and_open_disks "dig_holes" (Some "ready") [(Some "desktop", Some "Stopped")]
    false false (Some ["r"; "w"]) Ha eq_refl ltac:(apply mem_false; vm_compute; reflexivity)))
    (Some "desktop", Some "Stopped") "Stopped" ltac:(left) eq_refl).
Defined.

(** ** Runs *)
Definition ex_disk (status : string) (domain : string) : disk :=
  mkDisk (Some status) {[ "d" := mkDom (Some "desktop") (Some domain) None None ]} (false, false) None ∅ 0 [].

(** One step of a run on concrete states. *)
Tactic Notation "disk_run" uconstr(c) :=
  eapply steps_cons; [eapply c; first [vm_compute; reflexivity | vm_compute; discriminate]|];
  match goal with |- steps _ ?x _ => let y := eval vm_compute in x in change x with y end.





(** A move reads a ready disk; the disk is recycled before the claim, which admits it
    too; a desktop has started, so the call is undone, and the row goes back to ready. *)
Lemma undone_move_forgets_the_bin :
  ∃ d, steps disk_step (ex_disk "ready" "Stopped") d ∧
    k_calls d !! 1 = Some (Refused "desktops_not_stopped") ∧ k_status d = Some "ready" ∧
    ∃ d1, steps disk_step (ex_disk "ready" "Stopped") d1 ∧ steps disk_step d1 d ∧ k_status d1 = Some "recycled".
Proof.
  set (mid := mkDisk (Some "recycled") {[ "d" := mkDom (Some "desktop") (Some "Stopped") None None ]} (false, false) None
                {[ 1 := Checked "move" ∅ (Some "ready") ]} 1 []).
  set (final := mkDisk (Some "ready") {[ "d" := mkDom (Some "desktop") (Some "Started") None None ]} (false, false) None
                {[ 1 := Refused "desktops_not_stopped" ]} 2 []).
  assert (H1 : steps disk_step (ex_disk "ready" "Stopped") mid).
  { disk_run (k_ask _ 1 "move" ∅). disk_run (k_check _ 1). disk_run (k_status_moves _ (Some "recycled")). apply steps_refl. }
  assert (H2 : steps disk_step mid final).
  { subst mid. disk_run (k_domain_moves _ "d" (Some "desktop") (Some "Started") None). disk_run (k_claim _ 1).
    disk_run (k_list _ 1). disk_run (k_flip_fails _ 1). disk_run (k_undone _ 1). apply steps_refl. }
  exists final. split; [by eapply steps_trans|]. split_and!; [done..|]. by exists mid.
Qed.

(** A deletion starts from any status: it takes a disk without domains that another
    action has parked. *)
Definition ex_unused : disk := mkDisk (Some "ready") ∅ (false, false) None ∅ 0 [].

Lemma delete_takes_a_parked_disk :
  ∃ d, steps disk_step ex_unused d ∧
    k_calls d !! 1 = Some (Parked "convert" ∅ 0 []) ∧ k_calls d !! 2 = Some (Parked "delete" ∅ 1 []).
Proof.
  eexists. split.
  { disk_run (k_ask _ 1 "convert" ∅). disk_run (k_check _ 1). disk_run (k_claim _ 1). disk_run (k_list _ 1).
    disk_run (k_parked _ 1). disk_run (k_ask _ 2 "delete" ∅). disk_run (k_check _ 2). disk_run (k_claim _ 2).
    disk_run (k_list _ 2). disk_run (k_parked _ 2). apply steps_refl. }
  split; vm_compute; reflexivity.
Qed.

(** [set_ready] asks for nothing but a row in maintenance: called while an action has the
    disk parked, it gives the disk to the next action, and both have it. *)
Lemma ready_frees_a_parked_disk :
  ∃ d, steps disk_step ex_unused d ∧ k_calls d !! 2 = Some Released ∧
    k_calls d !! 1 = Some (Parked "convert" ∅ 0 []) ∧ k_calls d !! 3 = Some (Parked "resize" ∅ 1 []).
Proof.
  eexists. split.
  { disk_run (k_ask _ 1 "convert" ∅). disk_run (k_check _ 1). disk_run (k_claim _ 1). disk_run (k_list _ 1).
    disk_run (k_parked _ 1). disk_run (k_ready _ 2). disk_run (k_released _ 2). disk_run (k_ask _ 3 "resize" ∅).
    disk_run (k_check _ 3). disk_run (k_claim _ 3). disk_run (k_list _ 3). disk_run (k_parked _ 3). apply steps_refl. }
  split; vm_compute; [reflexivity|split; reflexivity].
Qed.
