(* ===== verification/Reconcile.v ===== *)
(** * Reconciliation and the nightly sweep

    [component/_common/src/isardvdi_common/lib/storage/reconcile.py] classifies the files of
    a pool against the rows of the database; [lib/storage/sweep.py] and [run_sweep_pass] of
    [apiv4/src/api/services/storage.py] choose the disks that a nightly pass works on.

    A [dict] of scanned files is the list of its items in the order of the scan. What
    [os.walk] lists is a list of paths, with what [scan_file] gives for each ([None] for
    what is not a file or cannot be read); the deadline is the number of names after which
    the clock passes it. *)
From S2P Require Import Prelude PyVal.

Open Scope Z_scope.

Definition DEFAULT_DRIFT_BYTES : Z := Z.shiftl 64 20.
Definition DELETED_DIR : string := "/deleted/".

Record scan := mkScan {
  sc_allocated : Z;
  sc_apparent : Z;
  sc_virtual_size : option Z;
  sc_dirty : bool;
  sc_corrupt : bool;
}.

(** What [stat] gives, and what the header of the file says ([None] when it has none). *)
Record stat_result := mkStat { st_blocks : Z; st_size : Z }.
Definition allocated (st : stat_result) : Z := st_blocks st * 512.

Definition scan_file (st : stat_result) (header : option (Z * bool * bool)) : scan :=
  match header with
  | None => mkScan (allocated st) (st_size st) None false false
  | Some (virtual_size, dirty, corrupt) =>
      mkScan (allocated st) (st_size st) (Some virtual_size) dirty corrupt
  end.

(** The loops over the directories and names; [seen] counts the names looked at. *)
Fixpoint scan_pool (listing : list (string * option scan)) (max_files deadline : option nat) (seen : nat)
    (scanned : list (string * scan)) : list (string * scan) * bool :=
  match listing with
  | [] => (scanned, false)
  | (path, found) :: listing =>
      if match max_files with Some n => (n <=? length scanned)%nat | None => false end then (scanned, true)
      else if match deadline with Some n => (n <=? seen)%nat | None => false end then (scanned, true)
      else scan_pool listing max_files deadline (S seen)
             (match found with Some s => scanned ++ [(path, s)] | None => scanned end)
  end.

Definition _under_pool (path : string) (pool_prefixes : list string) : bool :=
  existsb (λ prefix, String.prefix prefix path) pool_prefixes.

Record row := mkRow {
  r_id : string;
  r_kind : option string;
  r_path : option string;
  r_status : option string;
  r_db_size : option Z;
  r_virtual_size : option Z;
}.

Definition is_str (s : option string) (t : string) : bool :=
  match s with Some s => (s =? t)%string | None => false end.

Definition _is_live (r : row) : bool :=
  if is_str (r_kind r) "media" then is_str (r_status r) "Downloaded" else is_str (r_status r) "ready".

(** [row.get("path")], when it is not empty *)
Definition path_of (r : row) : option string :=
  match r_path r with Some p => if (p =? "")%string then None else Some p | None => None end.

Record drift := mkDrift {
  dr_id : string; dr_kind : option string; dr_path : string; dr_db : Z; dr_real : Z; dr_drift : Z;
  dr_db_virtual_size : option Z; dr_header_virtual_size : option Z;
}.

Record classes := mkClasses {
  size_drift : list drift;
  row_without_file : list (string * option string * string);
  row_on_other_pool : list (string * option string * string * option string);
  file_without_row : list (string * Z);
  dirty_or_corrupt : list (string * bool * bool * option string);
}.

Definition drift_of (files : list (string * scan)) (pool_prefixes : list string) (threshold : Z) (r : row) : option drift :=
  path ← path_of r;
  if negb (_under_pool path pool_prefixes) then None
  else
    s ← assoc path files;
    let db := default 0 (r_db_size r) in
    let real := sc_allocated s in
    if _is_live r && (threshold <? Z.abs (real - db))
    then Some (mkDrift (r_id r) (r_kind r) path db real (real - db) (r_virtual_size r) (sc_virtual_size s)) else None.

Definition missing_of (files : list (string * scan)) (pool_prefixes : list string) (r : row)
    : option (string * option string * string) :=
  path ← path_of r;
  if negb (_under_pool path pool_prefixes) then None
  else match assoc path files with
       | Some _ => None
       | None => if _is_live r then Some (r_id r, r_kind r, path) else None
       end.

Definition elsewhere_of (pool_prefixes : list string) (r : row) : option (string * option string * string * option string) :=
  path ← path_of r;
  if _under_pool path pool_prefixes then None else Some (r_id r, r_kind r, path, r_status r).

(** [by_path.get(path)]: the last row of the path *)
Definition row_at (rows : list row) (path : string) : option row :=
  find (λ r, is_str (path_of r) path) (List.rev rows).

Definition classify (rows : list row) (files : list (string * scan)) (pool_prefixes : list string) (threshold : Z)
    : classes :=
  {| size_drift := py_sorted (λ a b, Z.abs (dr_drift b) <=? Z.abs (dr_drift a))
                     (omap (drift_of files pool_prefixes threshold) rows);
     row_without_file := omap (missing_of files pool_prefixes) rows;
     row_on_other_pool := omap (elsewhere_of pool_prefixes) rows;
     file_without_row := py_sorted (λ a b, b.2 <=? a.2)
       (omap (λ f : string * scan, match row_at rows f.1 with
                                   | Some _ => None
                                   | None => if is_sub DELETED_DIR f.1 then None else Some (f.1, sc_allocated f.2)
                                   end) files);
     dirty_or_corrupt := omap (λ f : string * scan,
       if sc_dirty f.2 || sc_corrupt f.2
       then Some (f.1, sc_dirty f.2, sc_corrupt f.2, r_id <$> row_at rows f.1) else None) files |}.

Definition correctable_ids (c : classes) : list string :=
  omap (λ d, if is_str (dr_kind d) "storage" && negb (dr_id d =? "")%string then Some (dr_id d) else None) (size_drift c).

(** A storage and a media row of the API. *)
Record api_storage := mkApiStorage {
  as_id : string; as_path : option string; as_status : option string;
  as_actual_size : option Z; as_virtual_size : option Z;
}.
Record api_media := mkApiMedia {
  am_id : string; am_path_downloaded : option string; am_status : option string; am_total_bytes : option Z;
}.

Definition nonempty_path (p : option string) : option string :=
  match p with Some p => if (p =? "")%string then None else Some p | None => None end.

Definition rows_from_api (storages : list api_storage) (medias : list api_media) : list row :=
  omap (λ s, (λ p, mkRow (as_id s) (Some "storage") (Some p) (as_status s) (Some (default 0 (as_actual_size s)))
                     (as_virtual_size s)) <$> nonempty_path (as_path s)) storages
  ++ omap (λ m, (λ p, mkRow (am_id m) (Some "media") (Some p) (am_status m) (Some (default 0 (am_total_bytes m))) None)
                <$> nonempty_path (am_path_downloaded m)) medias.

Record metrics := mkMetrics {
  m_size_drift_files : nat; m_size_drift_bytes : Z; m_row_without_file : nat; m_row_on_other_pool : nat;
  m_file_without_row_files : nat; m_file_without_row_bytes : Z; m_dirty_or_corrupt : nat;
}.

Definition drift_metrics (c : classes) : metrics :=
  mkMetrics (length (size_drift c)) (sum_by (λ d, Z.abs (dr_drift d)) (size_drift c)) (length (row_without_file c))
    (length (row_on_other_pool c)) (length (file_without_row c)) (sum_by snd (file_without_row c))
    (length (dirty_or_corrupt c)).

(** [reconcile_pool] of the storage worker: the classes, the rows handed to a new
    measurement, and whether a budget cut the scan short *)
Definition reconcile_pool (path : string) (threshold : option Z) (max_files deadline : option nat) (apply : bool)
    (storages : list api_storage) (medias : list api_media) (listing : list (string * option scan))
    : classes * metrics * list string * bool :=
  let scanned := scan_pool listing max_files deadline 0 [] in
  let c := classify (rows_from_api storages medias) scanned.1 [rstrip_of "/" path +:+ "/"]
             (default DEFAULT_DRIFT_BYTES threshold) in
  (c, drift_metrics c, if apply then correctable_ids c else [], scanned.2).

(** ** The sweep *)
Record candidate := mkCandidate {
  ca_id : string; ca_size : option Z; ca_started : bool; ca_has_children : bool;
}.

Record picked := mkPicked {
  p_selected : list string;
  p_skipped_started : list string;
  p_skipped_budget : list string;
  p_skipped_has_descendants : list string;
  p_used_bytes : Z;
}.

Definition pick_one (max_disks : option Z) (max_bytes : option Z) (p : picked) (c : candidate) : picked :=
  let '(mkPicked selected started budget descendants used) := p in
  if ca_has_children c then mkPicked selected started budget (descendants ++ [ca_id c]) used
  else if match max_disks with Some n => n <=? Z.of_nat (length selected) | None => false end
  then mkPicked selected started (budget ++ [ca_id c]) descendants used
  else if ca_started c then mkPicked selected (started ++ [ca_id c]) budget descendants used
  else
    let size := default 0 (ca_size c) in
    if match max_bytes with Some n => n <? used + size | None => false end
    then mkPicked selected started (budget ++ [ca_id c]) descendants used
    else mkPicked (selected ++ [ca_id c]) started budget descendants (used + size).

Definition select_within_budget (candidates : list candidate) (max_disks max_bytes : option Z) : picked :=
  foldl (pick_one max_disks max_bytes) (mkPicked [] [] [] [] 0) candidates.

Record budget := mkBudget { b_disks : option Z; b_bytes : option Z }.

(** [config["max_disks"] or None] *)
Definition or_none (n : Z) : option Z := if n =? 0 then None else Some n.

Definition _sweep_exhausted (b : budget) : bool :=
  match b_disks b with Some n => n <=? 0 | None => false end.

(** What the database answers while an action is prepared: the ids the action works on,
    oldest first and no more than the limit; what is known of a disk (its size, whether a
    started desktop holds it), [None] when [get_storage] raises; and whether a disk that is
    not deleted backs onto it. *)
Record sweep_store := mkStore {
  ss_ids : string → option Z → list string;
  ss_get : string → string → option (option Z * bool);
  ss_backs : string → string → bool;
}.

Definition _ids_with_children (st : sweep_store) (action : string) (ids : list string) : list string :=
  List.filter (ss_backs st action) ids.

(** The candidates of an action; only the actions that write look for children. *)
Definition sweep_candidates (st : sweep_store) (action : string) (ids : list string) : list candidate :=
  let parents_with_children :=
    if mem action ["sparsify"; "repair_leaks"] then _ids_with_children st action ids else [] in
  omap (λ id, (λ d, mkCandidate id (Some (default 0 d.1)) d.2 (mem id parents_with_children)) <$> ss_get st action id) ids.

(** [_sweep_act]: what is picked, and the budget that is left *)
Definition _sweep_act (st : sweep_store) (action : string) (ids : list string) (b : budget) : picked * budget :=
  let p := select_within_budget (sweep_candidates st action ids) (b_disks b) (b_bytes b) in
  (p, mkBudget ((λ n, Z.max 0 (n - Z.of_nat (length (p_selected p)))) <$> b_disks b)
               ((λ n, Z.max 0 (n - p_used_bytes p)) <$> b_bytes b)).

(** The actions of a pass in their order. *)
Fixpoint sweep_actions (st : sweep_store) (actions : list string) (b : budget) : list (string * picked) :=
  match actions with
  | [] => []
  | action :: actions =>
      if _sweep_exhausted b then sweep_actions st actions b
      else let r := _sweep_act st action (ss_ids st action (b_disks b)) b in
           (action, r.1) :: sweep_actions st actions r.2
  end.

(** [run_sweep_pass] with the enabled actions; a budget of 0 is no cap. The detection pass,
    which spends nothing, is not part of it. *)
Definition run_sweep_pass (st : sweep_store) (max_disks max_bytes : Z)
    (sparsify repair_leaks check_integrity : bool) : list (string * picked) :=
  sweep_actions st
    ((if sparsify then ["sparsify"] else []) ++ (if repair_leaks then ["repair_leaks"] else [])
     ++ (if check_integrity then ["check_integrity"] else []))
    (mkBudget (or_none max_disks) (or_none max_bytes)).

(** ** What a reconciliation corrects *)
Ltac no_drift := split; [done|]; intros (? & ? & ? & ? & ? & ? & ? & ?); simplify_eq; congruence.

Lemma drift_of_Some files prefixes threshold r d :
  drift_of files prefixes threshold r = Some d ↔
  ∃ p s, path_of r = Some p ∧ _under_pool p prefixes = true ∧ assoc p files = Some s ∧ _is_live r = true ∧
    threshold < Z.abs (sc_allocated s - default 0 (r_db_size r)) ∧
    d = mkDrift (r_id r) (r_kind r) p (default 0 (r_db_size r)) (sc_allocated s)
          (sc_allocated s - default 0 (r_db_size r)) (r_virtual_size r) (sc_virtual_size s).
Proof.
  unfold drift_of. destruct (path_of r) as [p|]; cbn [mbind option_bind]; [|no_drift].
  destruct (_under_pool p prefixes) eqn:Eu; cbn [negb]; [|no_drift].
  destruct (assoc p files) as [s|] eqn:Ea; cbn [mbind option_bind]; [|no_drift].
  destruct (_is_live r); cbn [andb]; [|no_drift].
  destruct (Z.ltb_spec threshold (Z.abs (sc_allocated s - default 0 (r_db_size r)))) as [Hlt|Hge].
  - split; [intros [= <-]; by exists p, s|]. intros (p' & s' & [= <-] & _ & Hs & _ & _ & ->). by simplify_eq.
  - split; [done|]. intros (p' & s' & [= <-] & _ & Hs & _ & Hd & _). simplify_eq. lia.
Qed.

Lemma is_str_spec s t : is_str s t = true ↔ s = Some t.
Proof. destruct s as [s|]; cbn; [rewrite String.eqb_eq; naive_solver|naive_solver]. Qed.

Lemma elem_of_correctable rows files prefixes threshold id :
  id ∈ correctable_ids (classify rows files prefixes threshold) ↔
  ∃ r d, r ∈ rows ∧ drift_of files prefixes threshold r = Some d ∧ r_id r = id ∧ id ≠ "" ∧ r_kind r = Some "storage".
Proof.
  unfold correctable_ids, classify. cbn [size_drift]. rewrite list_elem_of_omap. split.
  - intros (d & Hd & Hc). rewrite elem_of_py_sorted, list_elem_of_omap in Hd. destruct Hd as (r & Hr & Hd).
    destruct (is_str (dr_kind d) "storage") eqn:Ek; [|done]. cbn [andb] in Hc.
    destruct (String.eqb_spec (dr_id d) ""); [done|]. injection Hc as <-. apply is_str_spec in Ek.
    exists r, d. pose proof Hd as (p & s & _ & _ & _ & _ & _ & ->)%drift_of_Some. done.
  - intros (r & d & Hr & Hd & Hid & Hne & Hk). exists d. split.
    + rewrite elem_of_py_sorted, list_elem_of_omap. eauto.
    + pose proof Hd as (p & s & _ & _ & _ & _ & _ & ->)%drift_of_Some. cbn. rewrite Hk, Hid. cbn.
      by destruct (String.eqb_spec id "").
Qed.

(** C32: The disks whose size a reconciliation measures again are exactly the storages of
    the API that are ready, lie below the pool, were found by the scan and whose recorded
    size is off the blocks of the file by more than the threshold; without the order to
    apply, none is. *)
Theorem reconcile_corrects_exactly_the_drift path threshold max_files deadline storages medias listing id :
  let scanned := (scan_pool listing max_files deadline 0 []).1 in
  let prefix := rstrip_of "/" path +:+ "/" in
  (id ∈ (reconcile_pool path threshold max_files deadline true storages medias listing).1.2 ↔
     id ≠ "" ∧ ∃ s p f, s ∈ storages ∧ as_id s = id ∧ as_status s = Some "ready" ∧ nonempty_path (as_path s) = Some p ∧
       String.prefix prefix p = true ∧ assoc p scanned = Some f ∧
       default DEFAULT_DRIFT_BYTES threshold < Z.abs (sc_allocated f - default 0 (as_actual_size s))) ∧
  (reconcile_pool path threshold max_files deadline false storages medias listing).1.2 = [].
Proof.
  intros scanned prefix. split; [|done]. cbn [reconcile_pool fst snd]. fold scanned prefix.
  rewrite elem_of_correctable. unfold rows_from_api. split.
  - intros (r & d & Hr & Hd & Hid & Hne & Hk). split; [done|].
    apply drift_of_Some in Hd as (p & f & Hp & Hu & Ha & Hl & Ht & _).
    apply elem_of_app in Hr as [Hr|Hr]; apply list_elem_of_omap in Hr as (s & Hs & Hr);
      apply fmap_Some in Hr as (q & Hq & ->); cbn in *; [|done].
    exists s, p, f. unfold path_of in Hp. cbn in Hp.
    assert (q = p) as -> by (destruct (q =? "")%string; by simplify_eq).
    unfold _is_live in Hl. cbn in Hl. apply is_str_spec in Hl. cbn in Hu. rewrite orb_false_r in Hu. done.
  - intros (Hne & s & p & f & Hs & Hid & Hst & Hp & Hu & Ha & Ht).
    set (r := mkRow (as_id s) (Some "storage") (Some p) (as_status s) (Some (default 0 (as_actual_size s))) (as_virtual_size s)).
    assert (Hpath : path_of r = Some p).
    { unfold path_of, nonempty_path in *. cbn. destruct (as_path s) as [q|]; [|done].
      destruct (q =? "")%string eqn:E; [done|]. injection Hp as ->. by rewrite E. }
    eexists r, _. split_and!; [|apply drift_of_Some; exists p, f; split_and!; try done|done..].
    + apply elem_of_app. left. apply list_elem_of_omap. exists s. split; [done|]. by rewrite Hp.
    + cbn. rewrite Hu. done.
    + unfold _is_live. cbn. by rewrite Hst.
Qed.

(** A scan that a budget cut short reports the disks it did not reach as rows without a
    file. *)
Lemma short_scan_reports_missing_files :
  let listing := [("/p/a.qcow2", Some (mkScan 512 512 None false false));
                  ("/p/b.qcow2", Some (mkScan 512 512 None false false))] in
  let storages := [mkApiStorage "a" (Some "/p/a.qcow2") (Some "ready") (Some 512) None;
                   mkApiStorage "b" (Some "/p/b.qcow2") (Some "ready") (Some 512) None] in
  let '(c, m, _, hit) := reconcile_pool "/p" None (Some 1%nat) None false storages [] listing in
  row_without_file c = [("b", Some "storage", "/p/b.qcow2")] ∧ m_row_without_file m = 1%nat ∧ hit = true.
Proof. vm_compute. auto. Qed.

(** ** What a sweep spends *)
Definition ca_bytes (c : candidate) : Z := default 0 (ca_size c).

(** The candidates [sel] are those that were selected, in their order. *)
Record picks (md mb : option Z) (cs : list candidate) (p : picked) : Prop := {
  pk_all : ca_id <$> cs ≡ₚ p_selected p ++ p_skipped_started p ++ p_skipped_budget p ++ p_skipped_has_descendants p;
  pk_selected : ∃ sel, sel `sublist_of` cs ∧ p_selected p = ca_id <$> sel ∧ p_used_bytes p = sum_by ca_bytes sel ∧
                       Forall (λ c, ca_started c = false ∧ ca_has_children c = false) sel;
  pk_disks n : md = Some n → 0 ≤ n → Z.of_nat (length (p_selected p)) ≤ n;
  pk_bytes n : mb = Some n → 0 ≤ n → p_used_bytes p ≤ n;
}.

Lemma picks_step md mb cs p c : picks md mb cs p → picks md mb (cs ++ [c]) (pick_one md mb p c).
Proof.
  intros [Hall (sel & Hsub & Hs & Hu & Hok) Hd Hb]. destruct p as [selected started skipped descendants used].
  cbn [p_selected p_skipped_started p_skipped_budget p_skipped_has_descendants p_used_bytes] in *.
  assert (Hkeep : ∀ st sk de, ca_id <$> (cs ++ [c]) ≡ₚ selected ++ st ++ sk ++ de →
    picks md mb (cs ++ [c]) (mkPicked selected st sk de used)).
  { intros st sk de HP. split; cbn; [done| |done|done]. exists sel. split_and!; [|done..]. by apply sublist_inserts_r. }
  unfold pick_one. destruct (ca_has_children c) eqn:Ec.
  { apply Hkeep. rewrite fmap_app. cbn. rewrite Hall. by rewrite <-!app_assoc. }
  destruct (match md with Some n => _ | None => false end) eqn:Emd.
  { apply Hkeep. rewrite fmap_app. cbn. rewrite Hall. solve_Permutation. }
  destruct (ca_started c) eqn:Est.
  { apply Hkeep. rewrite fmap_app. cbn. rewrite Hall. solve_Permutation. }
  destruct (match mb with Some n => _ | None => false end) eqn:Emb.
  { apply Hkeep. rewrite fmap_app. cbn. rewrite Hall. solve_Permutation. }
  split; cbn.
  - rewrite fmap_app. cbn. rewrite Hall. solve_Permutation.
  - exists (sel ++ [c]). split_and!.
    + by apply sublist_app.
    + by rewrite fmap_app, Hs.
    + rewrite sum_by_app, Hu. cbn. unfold ca_bytes. lia.
    + apply Forall_app. split; [done|]. by constructor.
  - intros n -> Hn. rewrite length_app. cbn. apply Z.leb_gt in Emd. lia.
  - intros n -> Hn. apply Z.ltb_ge in Emb. lia.
Qed.

Lemma select_picks cs md mb : picks md mb cs (select_within_budget cs md mb).
Proof.
  unfold select_within_budget. induction cs as [|c cs IH] using rev_ind.
  - split; cbn; [done| |intros; lia|intros; lia]. exists []. split_and!; [constructor|done|done|constructor].
  - rewrite foldl_app. cbn. by apply picks_step.
Qed.

Definition total_selected (run : list (string * picked)) : Z := sum_by (λ r, Z.of_nat (length (p_selected r.2))) run.
Definition total_bytes (run : list (string * picked)) : Z := sum_by (λ r, p_used_bytes r.2) run.

Lemma sweep_actions_spec st actions b :
  (∀ n, b_disks b = Some n → 0 ≤ n → total_selected (sweep_actions st actions b) ≤ n) ∧
  (∀ n, b_bytes b = Some n → 0 ≤ n → total_bytes (sweep_actions st actions b) ≤ n) ∧
  (∀ action p, (action, p) ∈ sweep_actions st actions b →
     ∃ b', p = select_within_budget (sweep_candidates st action (ss_ids st action (b_disks b'))) (b_disks b') (b_bytes b')).
Proof.
  revert b. induction actions as [|action actions IH]; intros b; cbn [sweep_actions].
  { split_and!; [done..|]. by intros ? ? ?%not_elem_of_nil. }
  destruct (_sweep_exhausted b); [apply IH|]. set (ids := ss_ids st action (b_disks b)).
  destruct (IH (_sweep_act st action ids b).2) as (I1 & I2 & I3).
  destruct (select_picks (sweep_candidates st action ids) (b_disks b) (b_bytes b)) as [_ _ Hd Hb].
  split_and!.
  - intros n Hn H0. specialize (Hd n Hn H0). cbn [_sweep_act fst snd b_disks] in I1.
    cbn [total_selected sum_by snd _sweep_act fst]. rewrite Hn in I1. specialize (I1 _ eq_refl ltac:(lia)).
    unfold total_selected in I1. rewrite Hn in *. lia.
  - intros n Hn H0. specialize (Hb n Hn H0). cbn [_sweep_act fst snd b_bytes] in I2.
    cbn [total_bytes sum_by snd _sweep_act fst]. rewrite Hn in I2. specialize (I2 _ eq_refl ltac:(lia)).
    unfold total_bytes in I2. rewrite Hn in *. lia.
  - intros a p [[= -> ->]|Hp]%elem_of_cons; [by exists b|by eapply I3].
Qed.

Lemma candidate_children st action ids c :
  c ∈ sweep_candidates st action ids → action ∈ ["sparsify"; "repair_leaks"] →
  ca_has_children c = false → ss_backs st action (ca_id c) = false.
Proof.
  unfold sweep_candidates. intros (id & Hid & Hc)%list_elem_of_omap Hw. apply mem_spec in Hw. rewrite Hw in Hc.
  destruct (ss_get st action id) as [d|]; [|done]. injection Hc as <-. cbn. intros Hm%mem_false.
  apply not_true_is_false. intros Hb. apply Hm. unfold _ids_with_children. apply list_elem_of_In, filter_In.
  split; [by apply list_elem_of_In|done].
Qed.

(** C35: For budgets that are not negative, where 0 is no cap: a sweep pass never picks more
    disks over all its actions than its budget of disks, nor more bytes than its budget of
    bytes. Of every action that
    ran, each candidate is either picked or counted under one reason to skip it; the picked
    disks come in the order of the candidates, no started desktop holds one, their sizes are
    what the action spends, and for the actions that write, sparsify and repair_leaks, no
    disk backs onto them. The integrity check, which only reads, may pick disks that others
    back onto. *)
Theorem sweeps_stay_within_budget st max_disks max_bytes sparsify repair_leaks check_integrity :
  0 ≤ max_disks → 0 ≤ max_bytes →
  let run := run_sweep_pass st max_disks max_bytes sparsify repair_leaks check_integrity in
  (max_disks ≠ 0 → total_selected run ≤ max_disks) ∧ (max_bytes ≠ 0 → total_bytes run ≤ max_bytes) ∧
  (∀ action p, (action, p) ∈ run →
     ∃ limit, let cs := sweep_candidates st action (ss_ids st action limit) in
       ca_id <$> cs ≡ₚ p_selected p ++ p_skipped_started p ++ p_skipped_budget p ++ p_skipped_has_descendants p ∧
       ∃ sel, sel `sublist_of` cs ∧ p_selected p = ca_id <$> sel ∧ p_used_bytes p = sum_by ca_bytes sel ∧
              Forall (λ c, ca_started c = false ∧
                           (action ∈ ["sparsify"; "repair_leaks"] → ss_backs st action (ca_id c) = false)) sel).
Proof.
  intros Hd Hb run. unfold run, run_sweep_pass.
  match goal with |- context [sweep_actions st ?l ?b] => destruct (sweep_actions_spec st l b) as (S1 & S2 & S3) end.
  cbn [b_disks b_bytes] in *. unfold or_none in S1, S2. split_and!.
  - intros Hn. apply S1; [|done]. by rewrite (proj2 (Z.eqb_neq _ _)).
  - intros Hn. apply S2; [|done]. by rewrite (proj2 (Z.eqb_neq _ _)).
  - intros action p Hp. destruct (S3 action p Hp) as [b' ->]. exists (b_disks b'). cbv zeta.
    destruct (select_picks (sweep_candidates st action (ss_ids st action (b_disks b'))) (b_disks b') (b_bytes b'))
      as [Hall (sel & Hsub & Hs & Hu & Hok) _ _].
    split; [done|]. exists sel. split_and!; [done..|]. apply Forall_forall. intros c Hc.
    rewrite Forall_forall in Hok. destruct (Hok c Hc) as [? ?]. split; [done|]. intros Hw.
    eapply candidate_children; [|done..]. by eapply elem_of_sublist.
Qed.

(** Five disks: one with children, one that a desktop holds, and a large one. *)
Definition ex_store : sweep_store :=
  mkStore (λ _ _, ["base"; "a"; "b"; "c"; "d"])
    (λ _ id, Some (if (id =? "c")%string then Some 90 else Some 5, (id =? "b")%string)) (λ _ id, (id =? "base")%string).

Lemma sweeps_stay_within_budget_witness : total_selected (run_sweep_pass ex_store 3 20 true true true) ≤ 3.
Proof.
  apply (sweeps_stay_within_budget ex_store 3 20 true true true); lia.
Defined.
